(* ===== verification/_CoqProject ===== *)
-Q . S2P
Prelude.v
Ipv4.v
Ipv6.v
Ipv6Text.v
Endpoint.v
Sockaddr.v
StateMonad.v
Intrusive.v
TimerHeap.v
TimerService.v
TimerServiceInv.v
TimerServiceSpec.v
TimerShutdown.v
TimerSteps.v
TimerClaims.v
ReactorScheduler.v
ReactorSteps.v
ReactorInv.v
ReactorWake.v
ReactorClaims.v
ReactorLocal.v
ReactorOp.v
DescriptorState.v
DescriptorSpec.v
BasicSocket.v
StreamSocket.v
DatagramSocket.v
SocketSteps.v
SocketSpec.v
SocketInv.v
StreamSpec.v
DatagramSpec.v
SocketClaims.v
Acceptor.v
EventQueue.v
Epoll.v
TimerReactor.v
DoublyLinked.v
Signals.v
SignalInv.v
SignalSpec.v
SignalDeliver.v
SignalSteps.v
SignalClaims.v
TcpServer.v
TcpServerSpec.v
TcpServerSteps.v
TcpServerClaims.v
ThreadPool.v
PoolFlow.v
PoolWorld.v
StreamFile.v
StreamFileSteps.v
StreamFileClaims.v
RandomFile.v
RandomFileSteps.v
RandomFileClaims.v
Resolver.v
ResolverSteps.v
ResolverClaims.v
PoolService.v
Select.v
Kqueue.v
Timeout.v
Connect.v
UringAcceptor.v
UringAcceptorClaims.v
Tls.v
