(* ===== verification/Prelude.v ===== *)
(** A verification library for Boost.Corosio, the coroutine I/O library.

    * The program

    A Corosio program has an [io_context], which owns a scheduler and a set of
    services.  Coroutines start operations on I/O objects (timers, sockets,
    acceptors, signal sets, files, resolvers, a server); the object hands the operation to its
    service, the service arranges to be told when it can complete, and the
    completed operation is posted to the ready queue of the scheduler.  Threads
    that call [run] take entries from that queue and resume the coroutines.
    One of them at a time runs the reactor: it waits for descriptor events, for
    the nearest timer and for an interrupt, and queues what became ready.

    The parts depend on each other as follows.  The scheduler asks the timer
    service for its nearest expiry and is told when it moves forward.  Sockets
    and acceptors park their operations in a descriptor state; the reactor adds
    events to it and queues it; the I/O itself runs when the scheduler pops it.
    Operations count as work, and [run] returns when no work is left.  Blocking
    calls run on a pool of threads of their own.

    * The files and what they model

    Paths are relative to the repository; [native] abbreviates
    [include/boost/corosio/native/detail] and [detail] abbreviates
    [include/boost/corosio/detail].

    Foundations
    - [Prelude] (this file): fixed-width integers, the result type of fallible
      and bounds-checked code, code-unit strings, checked array access, generic
      lemmas and the tactics of the development.
    - [StateMonad]: the state monad in which the stateful components are
      written, and its total-correctness predicate [wp].  A computation that
      satisfies [wp] returns: it neither faults nor runs out of fuel.
    - [Intrusive]: [detail/intrusive.hpp] and [detail/ready_queue.hpp] on an
      explicit store of nodes; each container is shown to be a sequence.
    - [DoublyLinked]: the doubly linked lists that the signal service and the
      server write by hand.

    Addresses
    - [Ipv4], [Ipv6], [Ipv6Text]: [src/corosio/src/ipv4_address.cpp] and
      [ipv6_address.cpp].  The parsers accept exactly their grammar, never read
      or write out of range, and invert the printers.
    - [Endpoint]: [src/corosio/src/endpoint.cpp] and [local_endpoint.cpp].
    - [Sockaddr]: [native/endpoint_convert.hpp].

    Timers ([detail/timer_service.hpp], [detail/timer.hpp],
    [src/corosio/src/timer.cpp])
    - [TimerHeap]: the indexed binary heap.
    - [TimerService]: every operation of the service, on a store of objects.
    - [TimerServiceInv], [TimerServiceSpec], [TimerShutdown]: the invariant and
      what each operation does.
    - [TimerSteps]: the operations of several threads, interleaved.
    - [TimerClaims]: the contract, in every reachable state.
    - [TimerReactor]: the service as the environment of the epoll reactor.

    Scheduler ([native/reactor/reactor_scheduler.hpp])
    - [ReactorScheduler]: the code of one thread.
    - [ReactorSteps]: the threads as a labelled transition system.
    - [ReactorInv], [ReactorWake]: mutex discipline, counts, conservation of
      entries, and the absence of lost wakeups.
    - [ReactorClaims], [ReactorLocal]: the contract.
    - [Epoll]: [native/epoll/epoll_scheduler.hpp] and the bounded waits of
      [include/boost/corosio/io_context.hpp].
    - [EventQueue]: the hand-over of events to the threads that serve them, with
      a step for each access to what threads share; [Epoll], [Select] and
      [Kqueue] are built around it.
    - [Select], [Kqueue]: [native/select/select_scheduler.hpp] and
      [native/kqueue/kqueue_scheduler.hpp].

    Sockets and acceptors
    - [ReactorOp]: [native/coro_op.hpp], [native/coro_op_complete.hpp],
      [native/make_err.hpp], [native/reactor/reactor_op*.hpp].
    - [DescriptorState], [DescriptorSpec]:
      [native/reactor/reactor_descriptor_state.hpp].
    - [BasicSocket]: [native/reactor/reactor_basic_socket.hpp], the base of both
      kinds of sockets, over the class [derived] of what a kind provides, with
      [detail/buffer_param.hpp].
    - [StreamSocket], [DatagramSocket]:
      [native/reactor/reactor_stream_socket.hpp] and
      [reactor_datagram_socket.hpp].
    - [SocketSteps], [SocketSpec], [SocketInv]: one socket of any kind under
      every interleaving of coroutines, reactor, event loop, stop requests,
      [cancel] and [close].  The class [socket_laws] states what the theorems
      need of a kind; [StreamSpec] and [DatagramSpec] prove it for the two.
    - [SocketClaims]: the contract, for both kinds.
    - [Acceptor]: [native/reactor/reactor_acceptor.hpp] and the [accept] of
      [reactor_backend.hpp].
    - [UringAcceptor], [UringAcceptorClaims]:
      [native/io_uring/io_uring_multishot_acceptor.hpp] and the operations of
      [io_uring_acceptor_ops.hpp].

    Signals ([native/posix/posix_signal_service.hpp], [posix_signal.hpp],
    [signal_set.hpp])
    - [Signals]: the process-wide state, the service, its sets and their
      registrations, by pointer.
    - [SignalInv], [SignalSpec], [SignalDeliver]: the registry they represent
      and what each operation does to it.
    - [SignalSteps], [SignalClaims]: every interleaving of the operations with
      the delivery of signals, and the contract.

    Server and thread pool
    - [TcpServer], [TcpServerSpec]: [include/boost/corosio/tcp_server.hpp] and
      [src/corosio/src/tcp_server.cpp], cut at the suspensions of the
      coroutines.
    - [TcpServerSteps], [TcpServerClaims]: every order of resumption.
    - [ThreadPool]: [detail/thread_pool.hpp], code and interleaving.

    Operations on the thread pool
    - [PoolFlow]: the life of an operation that runs on the pool, as an abstract
      specification; [PoolWorld]: the world in which the three components below
      are executed, and the lemmas of their refinement.
    - [StreamFile], [StreamFileSteps], [StreamFileClaims]:
      [native/posix/posix_stream_file.hpp] and [posix_stream_file_service.hpp],
      with the flags of [include/boost/corosio/file_base.hpp]: code, interleaving
      and contract.
    - [RandomFile], [RandomFileSteps], [RandomFileClaims]:
      [native/posix/posix_random_access_file.hpp] and
      [posix_random_access_file_service.hpp].
    - [Resolver], [ResolverSteps], [ResolverClaims]:
      [native/posix/posix_resolver.hpp] and [posix_resolver_service.hpp].
    - [PoolService]: the services that own these objects, once over the class
      [pooled_impl] with an instance for each of the three.

    Composed operations
    - [Timeout]: [detail/timeout_awaitable.hpp], [detail/timeout_coro.hpp] and
      [delay.hpp], the race as a step relation.
    - [Connect]: [connect.hpp], over the class [Connectable] of sockets.
    - [Tls]: the loops of [src/openssl/src/openssl_stream.cpp], over the class
      [ssl_engine] of what OpenSSL does.

    * How the code is modelled

    Pure functions are Gallina functions.  Stateful code is written in the state
    monad over a record of the component's members; objects that are shared or
    linked are entries of a finite map by address, so that a use after deletion
    is a [Fault].  Code that several threads run is cut at the points where
    another thread can interfere (a critical section, an access to an atomic,
    a suspension) and the pieces are the steps of an inductive relation.  What
    the model asks of its surroundings is logged in order.  System calls, the
    clock, handlers and user callbacks are arguments or come from the labels of
    the steps, so that a theorem about every run covers every answer they give.

    Integers that can overflow keep their width: the wrap is written where the
    code computes.  Loops that are not structural take fuel: the number of nodes
    of the store for a walk along links, the length of the string or array for
    the parsers, the number of entries for the heap and the queues.  In each
    case the theorems show that the fuel is enough, since running out of it is a
    [Fault] and the component is proved not to fault.  A system call that is
    repeated while it is interrupted takes its answers from a finite list; a
    call past the end of the list blocks.

    * What the theorems show

    - No lost work: within the scope below, every wait on a timer, operation on
      a socket, wait on a signal set, transfer of a file, resolution, queued
      entry and pool item completes at most once, is never lost, and is
      completed when it is due.
    - Lifetime: a file outlives the operations it has in flight, whatever its
      owner does; a resolver does so only until its operation is queued.
    - No lost wakeups: a thread in [run] is on its way to every queued entry,
      the reactor of each backend wakes up in time for the nearest timer and,
      with select, watches every registered descriptor and every parked operation
      that was announced to it, an accept loop does not wait while a worker is
      idle, and a thread of the pool does not sleep while an item is queued.
    - Counting: the work count of the scheduler and of a socket equals the units
      that are held; the packed waiter count equals the waiting threads.
    - Safety: no modelled operation follows a dangling pointer of its store,
      unlocks a mutex it does not hold, leaves an array or runs out of fuel.
    - Data structures: the intrusive containers are sequences, the heap is
      ordered and indexed, the signal registry and the worker lists represent
      the sets their operations describe.
    - TLS: a read reports the end of the stream only after a [close_notify], or
      when the write it had to flush failed with that error.
    - Deadlines: [timeout] reports a time-out only if its timer stopped the
      operation, and not early; if nobody else cancels the operation, exactly
      then.
    - Exact behaviour: the parsers decide their grammars and the printers invert
      them; each operation returns the errors of its source on every branch.

    * The scope of the transition systems

    A transition system has the steps that its component's users and threads may
    take.  What it leaves out of the runs that the code admits is this.
    - [SocketSteps]: an operation starts only when the slot it would park in is
      free ([slot_free]).  The documentation of the UDP sockets forbids two
      operations of one type, not two that share a slot;
      [overlapping_receives_lose_one] of [SocketClaims] shows what is lost then.
      A socket object is not destroyed within a run, so the lifetime of the
      object is not a subject of its theorems, and neither are data races.
    - [ReactorOp]: [coro_resume] is the resumption through the executor of the
      [io_context], whose dispatch hands the coroutine back to the code that
      resumes it last; with another executor the code after the dispatch may
      use an operation that the coroutine has restarted.
    - [SignalSteps]: a set is not destroyed while its operation is queued
      ([queued_operation_outlives_set] shows the dangling entry), and a service
      is shut down only when it has no sets ([shutdown_leaves_tables] shows the
      tables of the other case).
    - [TimerSteps]: a timer with waiters is destroyed only if
      [might_have_pending_waits_] is set ([pending_flag_can_miss_a_waiter] shows
      the other state).
    - [Select]: the connect of a datagram socket parks without a notification
      ([select_misses_datagram_connect]); [select_poll_wakes] is about the
      operations that were notified.
    - [UringAcceptor]: destruction of an operation is a step, and the descriptor
      of a completed accept that is destroyed leaks
      ([uring_destroyed_accept_leaks]).
    - [TcpServerSteps]: the [run] of a worker lets no exception out.
    - The work count of the scheduler is a 64-bit atomic and an unbounded integer
      of the model: it counts objects that exist.

    * Not modelled

    - The factory functions of [timeout] and [delay], which clamp a duration in
      double precision.
    - io_uring, but for its acceptor: the queues shared with the kernel need its
      memory model.
    - IOCP: Windows completion ports, whose behaviour is that of the system.
    - The WolfSSL stream, which drives its engine as the OpenSSL stream does, and
      the TLS contexts, which configure the libraries.
    - Local (Unix domain) sockets: the templates are modelled at the endpoints of
      TCP and UDP.
    - Handle classes (sockets, acceptors, [signal_set], [timer] as seen by the
      user) that forward to the services above.
    - Weak memory: the steps of a relation are sequentially consistent.
    - Exceptions from the standard library (allocation, thread creation) and
      from failing system calls at the set-up of a backend. *)

From stdpp Require Export base list numbers option.
From Stdlib Require Export ZArith Lia Bool.
From Stdlib Require Ascii String.

#[global] Open Scope Z_scope.

(** * Fixed-width integers

    A C++ unsigned integer of width [w] is a [Z] in [0, 2^w); each operation
    that can leave the range is followed by the wrap of its width. *)

Definition wrap (w z : Z) : Z := z mod 2 ^ w.

Abbreviation u8 := (wrap 8).
Abbreviation u16 := (wrap 16).
Abbreviation u32 := (wrap 32).
Abbreviation u64 := (wrap 64).

Definition int64_max : Z := 2 ^ 63 - 1.
Definition int64_min : Z := - 2 ^ 63.
Definition size_max : Z := 2 ^ 64 - 1.

Definition is_byte (b : Z) : Prop := 0 <= b < 256.

Lemma wrap_small w z : 0 <= z < 2 ^ w -> wrap w z = z.
Proof. apply Z.mod_small. Qed.

Lemma wrap_range w z : 0 <= w -> 0 <= wrap w z < 2 ^ w.
Proof. intros. apply Z.mod_pos_bound. lia. Qed.

(** * Results

    [Ok] is a normal return, [Err] a returned (or thrown) error, and [Fault]
    undefined behaviour: an access outside the object.  Memory-safety theorems
    say that a function never returns [Fault]. *)

Inductive errc :=
| invalid_argument
| filename_too_long
| length_error.

Inductive res (A : Type) :=
| Ok (a : A)
| Err (e : errc)
| Fault.
Arguments Ok {A} a.
Arguments Err {A} e.
Arguments Fault {A}.

#[export] Instance errc_eq_dec : EqDecision errc.
Proof. solve_decision. Defined.

Definition res_bind {A B} (m : res A) (k : A -> res B) : res B :=
  match m with
  | Ok a => k a
  | Err e => Err e
  | Fault => Fault
  end.

Declare Scope corosio_scope.
Delimit Scope corosio_scope with corosio.
Notation "'let*' x := m 'in' k" := (res_bind m (fun x => k))
  (at level 10, x pattern, m at level 100, k at level 200) : corosio_scope.
#[global] Open Scope corosio_scope.

(** * Strings

    A [std::string_view] is the list of its code units; a position inside it
    ([char const* it] with its [end]) is the suffix that starts there, so
    [it == end] is emptiness and [++it] is the tail. *)

Abbreviation char := Z (only parsing).

Definition str (s : String.string) : list char :=
  map (fun a => Z.of_nat (Ascii.nat_of_ascii a)) (String.list_ascii_of_string s).

Export String.StringSyntax.
Arguments str s%_string_scope.

Definition is_digit (c : char) : bool := (48 <=? c) && (c <=? 57).

(** [it != end && *it >= '0' && *it <= '9'] *)
Definition at_digit (it : list char) : bool :=
  match it with
  | c :: _ => is_digit c
  | [] => false
  end.

(** * Checked access to fixed arrays *)

Definition arr_get (l : list Z) (i : Z) : res Z :=
  if i <? 0 then Fault
  else match l !! Z.to_nat i with
       | Some v => Ok v
       | None => Fault
       end.

Definition arr_set (l : list Z) (i v : Z) : res (list Z) :=
  if (0 <=? i) && (i <? Z.of_nat (length l))
  then Ok (<[Z.to_nat i := v]> l)
  else Fault.

(** [std::memset(&l[i], v, n)] *)
Definition arr_fill (l : list Z) (i n v : Z) : res (list Z) :=
  if (0 <=? i) && (0 <=? n) && (i + n <=? Z.of_nat (length l))
  then Ok (take (Z.to_nat i) l ++ replicate (Z.to_nat n) v
             ++ drop (Z.to_nat (i + n)) l)
  else Fault.

(** [std::memmove(&l[dst], &l[src], n)]: the source range is read whole
    before it is written, so the ranges may overlap. *)
Definition arr_move (l : list Z) (dst src n : Z) : res (list Z) :=
  if (0 <=? dst) && (0 <=? src) && (0 <=? n)
     && (dst + n <=? Z.of_nat (length l)) && (src + n <=? Z.of_nat (length l))
  then Ok (take (Z.to_nat dst) l
             ++ take (Z.to_nat n) (drop (Z.to_nat src) l)
             ++ drop (Z.to_nat (dst + n)) l)
  else Fault.

(** * Bit lemmas *)

Lemma lor_shiftl_add a b n :
  0 <= n -> 0 <= b < 2 ^ n -> Z.lor (Z.shiftl a n) b = a * 2 ^ n + b.
Proof.
  intros Hn Hb. rewrite Z.shiftl_mul_pow2 by lia.
  rewrite <- Z.lxor_lor; [rewrite <- Z.add_nocarry_lxor; [lia|] |];
    (apply Z.bits_inj'; intros i Hi; rewrite Z.land_spec, Z.bits_0;
     destruct (Z.lt_ge_cases i n);
     [rewrite Z.mul_pow2_bits_low by lia; reflexivity |]);
    rewrite <- (Z.mod_small b (2 ^ n)) by lia;
    rewrite Z.mod_pow2_bits_high by lia; apply andb_false_r.
Qed.

Lemma land_255 z : Z.land z 255 = z mod 256.
Proof. exact (Z.land_ones z 8 ltac:(lia)). Qed.

Lemma land_15 z : Z.land z 15 = z mod 16.
Proof. exact (Z.land_ones z 4 ltac:(lia)). Qed.

Lemma shiftr_div z n : 0 <= n -> Z.shiftr z n = z / 2 ^ n.
Proof. intros. apply Z.shiftr_div_pow2. lia. Qed.

(** Masking off the low [k] bits of an [n]-bit word. *)
Lemma land_high_mask n k a :
  0 <= k <= n -> 0 <= a < 2 ^ n ->
  Z.land a (Z.shiftl (Z.ones (n - k)) k) = a / 2 ^ k * 2 ^ k.
Proof.
  intros Hk Ha.
  rewrite <- Z.shiftr_div_pow2, <- Z.shiftl_mul_pow2 by lia.
  apply Z.bits_inj'. intros i Hi. rewrite Z.land_spec.
  destruct (Z.lt_ge_cases i k).
  { rewrite !Z.shiftl_spec_low by lia. apply andb_false_r. }
  rewrite !Z.shiftl_spec_high, Z.shiftr_spec by lia.
  replace (i - k + k) with i by lia.
  destruct (Z.lt_ge_cases i n).
  - rewrite Z.ones_spec_low by lia. apply andb_true_r.
  - rewrite <- (Z.mod_small a (2 ^ n)), Z.mod_pow2_bits_high by lia. done.
Qed.

(** * Automation *)

Create HintDb corosio.
#[export] Hint Resolve wrap_small wrap_range : corosio.

(** Arithmetic with division and modulus by constants. *)
Ltac zdiv := Z.to_euclidean_division_equations; lia.

(** Case analysis on the first boolean test of the goal or of a hypothesis,
    with the test reflected into arithmetic. *)
Ltac bdestruct_if :=
  match goal with
  | |- context [if ?b then _ else _] => destruct b eqn:?
  | H : context [if ?b then _ else _] |- _ => destruct b eqn:?
  end.

(** Remove the machine-word wraps whose argument is in range, innermost first. *)
Ltac unwrap :=
  repeat match goal with
  | |- context [wrap ?w ?z] => rewrite (wrap_small w z) by lia
  end.

(** Arithmetic goals stated with the boolean tests of the code. *)
Ltac blia :=
  lazymatch goal with
  | |- true = _ => symmetry; blia
  | |- false = _ => symmetry; blia
  | |- negb _ = true => apply negb_true_iff; blia
  | |- negb _ = false => apply negb_false_iff; blia
  | |- (_ && _) = true => apply andb_true_intro; split; blia
  | |- (_ && _) = false =>
      first [apply andb_false_intro1; blia | apply andb_false_intro2; blia]
  | |- (_ || _) = false => apply orb_false_iff; split; blia
  | |- (_ || _) = true =>
      apply orb_true_intro; first [left; blia | right; blia]
  | |- (_ <=? _) = true => apply Z.leb_le; lia
  | |- (_ <=? _) = false => apply Z.leb_gt; lia
  | |- (_ <? _) = true => apply Z.ltb_lt; lia
  | |- (_ <? _) = false => apply Z.ltb_ge; lia
  | |- (_ =? _) = true => apply Z.eqb_eq; lia
  | |- (_ =? _) = false => apply Z.eqb_neq; lia
  | |- _ => lia
  end.

(** Decide a boolean test of the goal. *)
Ltac test_true b := replace b with true by blia.
Ltac test_false b := replace b with false by blia.

(** * Sums *)

Definition b2z (b : bool) : Z := if b then 1 else 0.

Fixpoint zsum {A} (f : A -> Z) (l : list A) : Z :=
  match l with
  | [] => 0
  | x :: l' => f x + zsum f l'
  end.

Lemma zsum_app {A} (f : A -> Z) l1 l2 : zsum f (l1 ++ l2) = zsum f l1 + zsum f l2.
Proof. induction l1; cbn; lia. Qed.

Lemma zsum_insert {A} (f : A -> Z) l i x y :
  l !! i = Some x -> zsum f (<[i := y]> l) = zsum f l - f x + f y.
Proof.
  revert i. induction l as [|z l IH]; intros [|i] H; csimpl in *; [done|done| |].
  - injection H as ->. lia.
  - specialize (IH _ H). lia.
Qed.

Lemma zsum_ge {A} (f : A -> Z) l i x :
  (forall y, 0 <= f y) -> l !! i = Some x -> f x <= zsum f l.
Proof.
  intros Hf. revert i. induction l as [|z l IH]; intros [|i] H; cbn in *; [done|done| |].
  - injection H as ->. enough (0 <= zsum f l) by lia.
    clear IH. induction l as [|z l IH]; cbn; [lia|]. specialize (Hf z). lia.
  - specialize (IH _ H). specialize (Hf z). lia.
Qed.

Lemma zsum_ge_Forall {A} (f : A -> Z) l i x :
  Forall (fun y => 0 <= f y) l -> l !! i = Some x -> f x <= zsum f l.
Proof.
  intros Hf. assert (Hp : forall k, Forall (fun y => 0 <= f y) k -> 0 <= zsum f k)
    by (induction 1; cbn; lia).
  revert i. induction Hf as [|z l Hz Hl IH]; intros [|i] H; cbn in *; try done.
  - injection H as ->. specialize (Hp l Hl). lia.
  - specialize (IH _ H). lia.
Qed.

Lemma zsum_nonneg {A} (f : A -> Z) l : (forall y, 0 <= f y) -> 0 <= zsum f l.
Proof. intros Hf. induction l as [|z l IH]; cbn; [lia|]. specialize (Hf z). lia. Qed.

Lemma zsum_pos {A} (f : A -> Z) l :
  (forall y, 0 <= f y) -> 0 < zsum f l -> exists i x, l !! i = Some x /\ 0 < f x.
Proof.
  intros Hf. induction l as [|z l IH]; cbn; [lia|]. intros H.
  destruct (decide (0 < f z)); [by exists O, z|].
  destruct IH as (i & x & Hi & Hx); [lia|]. by exists (S i), x.
Qed.

Lemma zsum_Forall2 {A} (f : A -> Z) (R : A -> A -> Prop) l l' :
  (forall x y, R x y -> f y = f x) -> Forall2 R l l' -> zsum f l' = zsum f l.
Proof. intros HR. induction 1; cbn; [done|]. erewrite HR by eassumption. lia. Qed.

Lemma zsum_replicate_0 {A} (f : A -> Z) n x : f x = 0 -> zsum f (replicate n x) = 0.
Proof. intros H. induction n; cbn; lia. Qed.

Lemma zsum_le {A} (f g : A -> Z) l :
  (forall x, x ∈ l -> f x <= g x) -> zsum f l <= zsum g l.
Proof.
  induction l as [|x l IH]; intros H; cbn; [lia|].
  specialize (IH (fun y Hy => H y (list_elem_of_further _ _ _ Hy))).
  specialize (H x (list_elem_of_here _ _)). lia.
Qed.

(** Occurrences of an element. *)
Definition occ {A} `{EqDecision A} (k : A) (l : list A) : Z :=
  zsum (fun x => b2z (bool_decide (x = k))) l.

Lemma occ_app {A} `{EqDecision A} (k : A) l1 l2 : occ k (l1 ++ l2) = occ k l1 + occ k l2.
Proof. apply zsum_app. Qed.
Lemma occ_nonneg {A} `{EqDecision A} (k : A) l : 0 <= occ k l.
Proof. apply zsum_nonneg. intros y. unfold b2z. case_bool_decide; lia. Qed.

(** Sums over lists that change at one place. *)
Lemma b2z_le_1 b : 0 <= b2z b <= 1.
Proof. destruct b; cbn; lia. Qed.

Lemma zsum_delete {A} (f : A -> Z) l j x :
  l !! j = Some x -> zsum f (delete j l) = zsum f l - f x.
Proof.
  revert j. induction l as [|y l IH]; intros [|j] H; csimpl in *; [done|done| |].
  - injection H as ->. lia.
  - specialize (IH _ H). lia.
Qed.

Lemma zsum_ext {A} (f g : A -> Z) l : (forall x, x ∈ l -> f x = g x) -> zsum f l = zsum g l.
Proof.
  induction l as [|x l IH]; intros H; [done|]. cbn.
  rewrite (H x) by (by left). rewrite IH; [done|]. intros y Hy. apply H. by right.
Qed.

Lemma zsum_add {A} (f g : A -> Z) l : zsum (fun x => f x + g x) l = zsum f l + zsum g l.
Proof. induction l; cbn; lia. Qed.

Lemma zsum_mul {A} (f : A -> Z) c l : zsum (fun x => c * f x) l = c * zsum f l.
Proof. induction l; cbn; lia. Qed.

Lemma zsum_snoc {A} (f : A -> Z) l x : zsum f (l ++ [x]) = zsum f l + f x.
Proof. rewrite zsum_app. cbn. lia. Qed.

Lemma zsum_zero {A} (f : A -> Z) l : (forall x, f x = 0) -> zsum f l = 0.
Proof. intros H. induction l as [|x l IH]; cbn; [done|]. by rewrite H, IH. Qed.

Lemma b2z_some {A} (o : option A) :
  b2z (bool_decide (is_Some o)) = match o with Some _ => 1 | None => 0 end.
Proof. destruct o; [by rewrite bool_decide_true by eauto|]. by rewrite bool_decide_false by (intros [? [=]]). Qed.
