(* ===== verification/Ipv4.v ===== *)
(** IPv4 addresses: [src/corosio/src/ipv4_address.cpp] and
    [include/boost/corosio/ipv4_address.hpp].

    An address is its 32-bit integer [addr_].  The printer and the parser are
    translated as they are written; the theorems show that they are inverse to
    each other on the canonical dotted-decimal strings, which are exactly the
    strings the parser accepts. *)

From S2P Require Import Prelude.

Module ipv4_address.

(** * Data and operations *)

Record t := mk { addr_ : Z }.

#[export] Instance t_eq_dec : EqDecision t.
Proof. solve_decision. Defined.

(** [std::array<unsigned char, 4>] *)
Record bytes_type := bytes4 { b0 : Z; b1 : Z; b2 : Z; b3 : Z }.

#[export] Instance bytes_type_eq_dec : EqDecision bytes_type.
Proof. solve_decision. Defined.

Definition wf (a : t) : Prop := 0 <= addr_ a < 2 ^ 32.
Definition bytes_wf (b : bytes_type) : Prop :=
  is_byte (b0 b) /\ is_byte (b1 b) /\ is_byte (b2 b) /\ is_byte (b3 b).

Definition max_str_len : Z := 15.

Definition of_uint (u : Z) : t := mk u.

Definition of_bytes (b : bytes_type) : t :=
  mk (Z.lor (Z.lor (Z.lor (u32 (Z.shiftl (b0 b) 24))
                          (u32 (Z.shiftl (b1 b) 16)))
                   (u32 (Z.shiftl (b2 b) 8)))
            (b3 b)).

Definition to_bytes (a : t) : bytes_type :=
  {| b0 := u8 (Z.land (Z.shiftr (addr_ a) 24) 255);
     b1 := u8 (Z.land (Z.shiftr (addr_ a) 16) 255);
     b2 := u8 (Z.land (Z.shiftr (addr_ a) 8) 255);
     b3 := u8 (Z.land (addr_ a) 255) |}.

Definition to_uint (a : t) : Z := addr_ a.

Definition is_loopback (a : t) : bool :=
  Z.land (addr_ a) 0xFF000000 =? 0x7F000000.
Definition is_unspecified (a : t) : bool := addr_ a =? 0.
Definition is_multicast (a : t) : bool :=
  Z.land (addr_ a) 0xF0000000 =? 0xE0000000.

Definition eqb (a1 a2 : t) : bool := addr_ a1 =? addr_ a2.
Definition any : t := mk 0.
Definition loopback : t := of_uint 0x7F000001.
Definition broadcast : t := of_uint 0xFFFFFFFF.

(** The lambda [write] of [print_impl]: the characters it stores. *)
Definition write (v : Z) : list char :=
  if 100 <=? v then
    let h := 48 + v / 100 in
    let v := v mod 100 in
    let d := 48 + v / 10 in
    let v := v mod 10 in
    [h; d; 48 + v]
  else if 10 <=? v then
    let d := 48 + v / 10 in
    let v := v mod 10 in
    [d; 48 + v]
  else [48 + v].

Definition dot : char := 46.

(** The characters [print_impl] stores at [dest]; the returned count is their
    number. *)
Definition print_impl (a : t) : list char :=
  write (u8 (Z.land (Z.shiftr (addr_ a) 24) 255)) ++ [dot] ++
  write (u8 (Z.land (Z.shiftr (addr_ a) 16) 255)) ++ [dot] ++
  write (u8 (Z.land (Z.shiftr (addr_ a) 8) 255)) ++ [dot] ++
  write (u8 (Z.land (addr_ a) 255)).

(** A write of [l] into a buffer of [n] characters. *)
Definition store (n : Z) (l : list char) : res (list char) :=
  if Z.of_nat (length l) <=? n then Ok l else Fault.

Definition to_string (a : t) : res (list char) := store max_str_len (print_impl a).

Definition to_buffer (dest_size : Z) (a : t) : res (list char) :=
  if dest_size <? max_str_len then Err length_error
  else store dest_size (print_impl a).

(** [operator<<]: prints through a local buffer of [max_str_len]. *)
Definition ostream_put (os : list char) (a : t) : res (list char) :=
  let* sv := to_buffer max_str_len a in Ok (os ++ sv).

(** [parse_dec_octet]: [None] is [return false]; [Some (octet, it)] is
    [return true] with the octet and the advanced position. *)
Definition parse_dec_octet (it : list char) : option (Z * list char) :=
  match it with
  | [] => None
  | c :: it =>
      if (c <? 48) || (57 <? c) then None
      else
        let v := c - 48 in
        if v =? 0 then (if at_digit it then None else Some (0, it))
        else
          let done v it := if 255 <? v then None else Some (u8 v, it) in
          match it with
          | c2 :: it2 =>
              if is_digit c2 then
                let v := u32 (u32 (v * 10) + (c2 - 48)) in
                match it2 with
                | c3 :: it3 =>
                    if is_digit c3 then
                      let v := u32 (u32 (v * 10) + (c3 - 48)) in
                      if at_digit it3 then None else done v it3
                    else done v it2
                | [] => done v it2
                end
              else done v it
          | [] => done v it
          end
  end.

(** The body of the loop over the remaining octets: a dot, then an octet. *)
Definition parse_next_octet (it : list char) : option (Z * list char) :=
  match it with
  | [] => None
  | c :: it => if negb (c =? dot) then None else parse_dec_octet it
  end.

(** [parse_ipv4_address]; the loop [for (i = 1; i < 4; ++i)] is unrolled. *)
Definition parse_ipv4_address (s : list char) : res t :=
  match parse_dec_octet s with
  | None => Err invalid_argument
  | Some (o0, it) =>
  match parse_next_octet it with
  | None => Err invalid_argument
  | Some (o1, it) =>
  match parse_next_octet it with
  | None => Err invalid_argument
  | Some (o2, it) =>
  match parse_next_octet it with
  | None => Err invalid_argument
  | Some (o3, it) =>
      match it with
      | _ :: _ => Err invalid_argument
      | [] => Ok (of_bytes (bytes4 o0 o1 o2 o3))
      end
  end end end end.

(** The throwing constructor from a string. *)
Definition of_string (s : list char) : res t :=
  match parse_ipv4_address s with
  | Ok a => Ok a
  | _ => Err invalid_argument
  end.

(** * Octets and words *)

Lemma of_bytes_sum b :
  bytes_wf b ->
  addr_ (of_bytes b) = b0 b * 2 ^ 24 + b1 b * 2 ^ 16 + b2 b * 2 ^ 8 + b3 b.
Proof.
  destruct b as [x y z w]; unfold bytes_wf, is_byte; simpl; intros (?&?&?&?).
  rewrite !wrap_small by (rewrite Z.shiftl_mul_pow2 by lia; lia).
  rewrite <- !Z.lor_assoc, (lor_shiftl_add z w 8) by lia.
  rewrite (lor_shiftl_add y _ 16) by lia.
  rewrite (lor_shiftl_add x _ 24) by lia. lia.
Qed.

Lemma to_bytes_div a :
  wf a ->
  to_bytes a = bytes4 (addr_ a / 2 ^ 24) (addr_ a / 2 ^ 16 mod 256)
                      (addr_ a / 2 ^ 8 mod 256) (addr_ a mod 256).
Proof.
  unfold wf, to_bytes. intros H. rewrite !land_255, !shiftr_div by lia.
  rewrite !wrap_small by (simpl; apply Z.mod_pos_bound; lia).
  f_equal. apply Z.mod_small. zdiv.
Qed.

Lemma to_bytes_wf a : wf a -> bytes_wf (to_bytes a).
Proof.
  intros H. rewrite to_bytes_div by done. unfold wf in H.
  unfold bytes_wf, is_byte; simpl. repeat split; zdiv.
Qed.

Lemma of_bytes_wf b : bytes_wf b -> wf (of_bytes b).
Proof.
  intros H. unfold wf. rewrite of_bytes_sum by done.
  destruct b; unfold bytes_wf, is_byte in H; simpl in *. lia.
Qed.

Lemma t_ext (a1 a2 : t) : addr_ a1 = addr_ a2 -> a1 = a2.
Proof. destruct a1, a2; simpl; congruence. Qed.

Lemma of_to_bytes a : wf a -> of_bytes (to_bytes a) = a.
Proof.
  intros H. apply t_ext. rewrite of_bytes_sum by auto using to_bytes_wf.
  rewrite to_bytes_div by done. unfold wf in H. cbn [b0 b1 b2 b3]. zdiv.
Qed.

Lemma to_of_bytes b : bytes_wf b -> to_bytes (of_bytes b) = b.
Proof.
  intros H. rewrite to_bytes_div by auto using of_bytes_wf.
  rewrite of_bytes_sum by done.
  destruct b; unfold bytes_wf, is_byte in H; simpl in *.
  f_equal; zdiv.
Qed.

(** * The printer and the parser on one octet *)

Lemma is_digit_spec c : is_digit c = true <-> 48 <= c <= 57.
Proof. unfold is_digit. rewrite andb_true_iff, !Z.leb_le. tauto. Qed.

(** The three shapes [write] produces, with the decimal digits named. *)
Lemma write_1 v : 0 <= v <= 9 -> write v = [48 + v].
Proof. intros. unfold write. repeat bdestruct_if; try lia. done. Qed.

Lemma write_2 d u :
  1 <= d <= 9 -> 0 <= u <= 9 -> write (10 * d + u) = [48 + d; 48 + u].
Proof.
  intros. unfold write. repeat bdestruct_if; try lia. repeat f_equal; zdiv.
Qed.

Lemma write_3 h d u :
  1 <= h <= 9 -> 0 <= d <= 9 -> 0 <= u <= 9 ->
  write (100 * h + 10 * d + u) = [48 + h; 48 + d; 48 + u].
Proof.
  intros. unfold write. repeat bdestruct_if; try lia. repeat f_equal; zdiv.
Qed.

Lemma octet_digits v :
  is_byte v ->
  0 <= v <= 9
  \/ (exists d u, 1 <= d <= 9 /\ 0 <= u <= 9 /\ v = 10 * d + u)
  \/ (exists h d u, 1 <= h <= 9 /\ 0 <= d <= 9 /\ 0 <= u <= 9 /\
        v = 100 * h + 10 * d + u).
Proof.
  unfold is_byte. intros H.
  destruct (Z.le_gt_cases v 9); [lia|]. right.
  destruct (Z.le_gt_cases v 99); [left; exists (v / 10), (v mod 10) | right];
    [|exists (v / 100), (v mod 100 / 10), (v mod 10)]; repeat split; zdiv.
Qed.

(** Case analysis on the shape of an octet. *)
Ltac octet_cases H :=
  destruct (octet_digits _ H) as
    [?|[(?d & ?u & ? & ? & ->)|(?h & ?d & ?u & ? & ? & ? & ->)]];
  [rewrite write_1 by lia | rewrite write_2 by lia | rewrite write_3 by lia].

Lemma write_length v : is_byte v -> (1 <= length (write v) <= 3)%nat.
Proof. intros H. octet_cases H; simpl; lia. Qed.

Lemma write_digits v : is_byte v -> Forall (fun c => is_digit c = true) (write v).
Proof.
  intros H. octet_cases H; repeat constructor; apply is_digit_spec; lia.
Qed.

Lemma at_digit_write v rest : is_byte v -> at_digit (write v ++ rest) = true.
Proof.
  intros H. octet_cases H; simpl; apply is_digit_spec; lia.
Qed.

(** Decide the digit tests of the parser on known digits. *)
Ltac digit_tests :=
  cbn [app parse_dec_octet at_digit];
  repeat (match goal with
  | |- context [is_digit ?c] =>
      replace (is_digit c) with true by (symmetry; apply is_digit_spec; lia)
  | |- context [(?c <? 48) || _] =>
      replace ((c <? 48) || (57 <? c)) with false by (symmetry; lia)
  | |- context [?v =? 0] => replace (v =? 0) with false by (symmetry; lia)
  | |- context [wrap ?w ?z] => rewrite (wrap_small w z) by lia
  | |- context [255 <? ?v] => replace (255 <? v) with false by (symmetry; lia)
  end; cbn [app]).

Lemma parse_dec_octet_write v rest :
  is_byte v -> at_digit rest = false ->
  parse_dec_octet (write v ++ rest) = Some (v, rest).
Proof.
  intros Hv Hr. pose proof Hv as Hb. unfold is_byte in Hb.
  octet_cases Hv.
  - destruct (Z.eq_dec v 0) as [->|]; [cbn; by rewrite Hr|].
    digit_tests. destruct rest as [|c r]; [|cbn in Hr; rewrite Hr];
      digit_tests; do 2 f_equal; lia.
  - digit_tests. destruct rest as [|c r]; [|cbn in Hr; rewrite Hr];
      digit_tests; do 2 f_equal; lia.
  - digit_tests. rewrite Hr. digit_tests. do 2 f_equal; lia.
Qed.

(** Conversely, the parser accepts nothing but what [write] prints. *)
Lemma parse_dec_octet_inv it v rest :
  parse_dec_octet it = Some (v, rest) ->
  is_byte v /\ at_digit rest = false /\ it = write v ++ rest.
Proof.
  destruct it as [|c it]; cbn [parse_dec_octet]; [done|].
  destruct ((c <? 48) || (57 <? c)) eqn:Ec; [done|].
  apply orb_false_iff in Ec as [? ?].
  destruct (c - 48 =? 0) eqn:E0.
  { destruct (at_digit it) eqn:Ed; [done|]. intros [= <- <-].
    split; [unfold is_byte; lia|]. split; [done|].
    rewrite write_1 by lia. cbn. f_equal. lia. }
  destruct it as [|c2 it2]; [|destruct (is_digit c2) eqn:E2];
    [| apply is_digit_spec in E2;
       destruct it2 as [|c3 it3]; [|destruct (is_digit c3) eqn:E3];
       [| apply is_digit_spec in E3; destruct (at_digit it3) eqn:E4; [done|] |] |];
    unwrap; (bdestruct_if; [done|]); intros [= <- <-]; unwrap;
    (split; [unfold is_byte; lia|]); (split; [done|]).
  - rewrite write_1 by lia. cbn. repeat f_equal; lia.
  - replace ((c - 48) * 10 + (c2 - 48)) with (10 * (c - 48) + (c2 - 48)) by lia.
    rewrite write_2 by lia. cbn. repeat f_equal; lia.
  - replace (_ + _) with (100 * (c - 48) + 10 * (c2 - 48) + (c3 - 48)) by lia.
    rewrite write_3 by lia. cbn. repeat f_equal; lia.
  - replace ((c - 48) * 10 + (c2 - 48)) with (10 * (c - 48) + (c2 - 48)) by lia.
    rewrite write_2 by lia. cbn. repeat f_equal; lia.
  - rewrite write_1 by lia. cbn. repeat f_equal; lia.
Qed.

(** * Whole addresses *)

Definition print_bytes (b : bytes_type) : list char :=
  write (b0 b) ++ [dot] ++ write (b1 b) ++ [dot] ++ write (b2 b) ++ [dot] ++ write (b3 b).

Lemma print_impl_bytes a : print_impl a = print_bytes (to_bytes a).
Proof. done. Qed.

Lemma print_bytes_length b :
  bytes_wf b -> (7 <= length (print_bytes b) <= 15)%nat.
Proof.
  intros (H0 & H1 & H2 & H3). unfold print_bytes. rewrite !length_app. simpl.
  apply write_length in H0, H1, H2, H3. lia.
Qed.

Lemma print_impl_length a : wf a -> (7 <= length (print_impl a) <= 15)%nat.
Proof.
  intros H. rewrite print_impl_bytes. auto using print_bytes_length, to_bytes_wf.
Qed.

Lemma parse_print_bytes b :
  bytes_wf b -> parse_ipv4_address (print_bytes b) = Ok (of_bytes b).
Proof.
  intros (H0 & H1 & H2 & H3). unfold parse_ipv4_address, print_bytes.
  rewrite parse_dec_octet_write by done. cbn [app parse_next_octet negb dot Z.eqb Pos.eqb].
  rewrite parse_dec_octet_write by done. cbn [app parse_next_octet negb dot Z.eqb Pos.eqb].
  rewrite parse_dec_octet_write by done. cbn [app parse_next_octet negb dot Z.eqb Pos.eqb].
  rewrite <- (app_nil_r (write (b3 b))), parse_dec_octet_write by done.
  by destruct b.
Qed.

Lemma parse_next_octet_inv it v rest :
  parse_next_octet it = Some (v, rest) ->
  is_byte v /\ at_digit rest = false /\ it = dot :: write v ++ rest.
Proof.
  destruct it as [|c it]; cbn; [done|].
  destruct (c =? dot) eqn:E; cbn; [|done]. apply Z.eqb_eq in E as ->.
  intros (? & ? & ->)%parse_dec_octet_inv. done.
Qed.

Lemma parse_inv s a :
  parse_ipv4_address s = Ok a ->
  exists b, bytes_wf b /\ s = print_bytes b /\ a = of_bytes b.
Proof.
  unfold parse_ipv4_address.
  destruct (parse_dec_octet s) as [[o0 i0]|] eqn:E0; [|done].
  destruct (parse_next_octet i0) as [[o1 i1]|] eqn:E1; [|done].
  destruct (parse_next_octet i1) as [[o2 i2]|] eqn:E2; [|done].
  destruct (parse_next_octet i2) as [[o3 i3]|] eqn:E3; [|done].
  destruct i3; [|done]. intros [= <-]. exists (bytes4 o0 o1 o2 o3).
  apply parse_dec_octet_inv in E0 as (? & ? & ->).
  apply parse_next_octet_inv in E1 as (? & ? & ->).
  apply parse_next_octet_inv in E2 as (? & ? & ->).
  apply parse_next_octet_inv in E3 as (? & ? & ->).
  unfold print_bytes; cbn [b0 b1 b2 b3]. by rewrite app_nil_r.
Qed.

Lemma parse_print a : wf a -> parse_ipv4_address (print_impl a) = Ok a.
Proof.
  intros H. rewrite print_impl_bytes, parse_print_bytes by auto using to_bytes_wf.
  by rewrite of_to_bytes.
Qed.

Lemma parse_canonical s a :
  parse_ipv4_address s = Ok a -> wf a /\ s = print_impl a.
Proof.
  intros (b & Hb & -> & ->)%parse_inv. split; [by apply of_bytes_wf|].
  by rewrite print_impl_bytes, to_of_bytes.
Qed.

Lemma parse_not_fault s : parse_ipv4_address s <> Fault.
Proof. unfold parse_ipv4_address. repeat case_match; done. Qed.

Lemma parse_err s e : parse_ipv4_address s = Err e -> e = invalid_argument.
Proof. unfold parse_ipv4_address. repeat case_match; congruence. Qed.

Lemma parse_decides s :
  (exists a, wf a /\ s = print_impl a /\ parse_ipv4_address s = Ok a)
  \/ parse_ipv4_address s = Err invalid_argument.
Proof.
  destruct (parse_ipv4_address s) as [a|e|] eqn:E.
  - left. exists a. by destruct (parse_canonical s a E).
  - right. by rewrite (parse_err s e E).
  - by destruct (parse_not_fault s).
Qed.

(** [parse_ipv4_address] accepts exactly the strings the printer produces:
    parsing succeeds with address [a] if and only if the input is the canonical
    dotted-decimal form of [a] (so no leading zeros, no octet above 255, no
    trailing characters); every other input is reported as
    [invalid_argument], and no input reads outside the string. *)
Theorem parse_ipv4_address_exact s :
  (forall a, parse_ipv4_address s = Ok a <-> wf a /\ s = print_impl a)
  /\ (parse_ipv4_address s = Err invalid_argument
       \/ exists a, parse_ipv4_address s = Ok a).
Proof.
  split.
  - intros a. split; [apply parse_canonical|]. intros [Ha ->]. by apply parse_print.
  - destruct (parse_decides s) as [(a & _ & _ & E)|E]; eauto.
Qed.

(** [to_string] never overruns its 15-character buffer and its output
    parses back, through the throwing constructor, to the same address; and
    [to_buffer] reports [length_error] exactly when the caller's buffer is
    shorter than [max_str_len], otherwise it writes the same characters. *)
Theorem ipv4_to_string_roundtrip a (dest_size : Z) :
  wf a ->
  (exists s, to_string a = Ok s /\ of_string s = Ok a) /\
  (dest_size < 15 -> to_buffer dest_size a = Err length_error) /\
  (15 <= dest_size -> to_buffer dest_size a = to_string a).
Proof.
  intros H. pose proof (print_impl_length a H) as Hl.
  unfold to_string, to_buffer, store, max_str_len, of_string.
  replace (Z.of_nat (length (print_impl a)) <=? 15) with true by lia.
  split; [eexists; split; [done|]; by rewrite parse_print|].
  split; intros; repeat bdestruct_if; try done; lia.
Qed.

Lemma ipv4_to_string_roundtrip_witness :
  (exists s, to_string (mk 0xC0A80001) = Ok s /\ of_string s = Ok (mk 0xC0A80001)) /\
  to_buffer 14 (mk 0xC0A80001) = Err length_error.
Proof.
  destruct (ipv4_to_string_roundtrip (mk 0xC0A80001) 14 ltac:(unfold wf; simpl; lia))
    as (H1 & H2 & _).
  split; [exact H1|]. apply H2. lia.
Defined.

(** The documented examples. *)
Example print_example : print_impl (mk 0x01020304) = str "1.2.3.4".
Proof. reflexivity. Qed.
Example parse_example : parse_ipv4_address (str "192.168.1.255") = Ok (mk 0xC0A801FF).
Proof. reflexivity. Qed.
Example parse_leading_zero : parse_ipv4_address (str "192.168.01.1") = Err invalid_argument.
Proof. reflexivity. Qed.

(** * Classification *)

(** the address classes are the documented prefixes: loopback is
    127.0.0.0/8, multicast is 224.0.0.0/4 and unspecified is 0.0.0.0 alone, all
    read off the bytes of the address; the three classes are disjoint. *)
Theorem ipv4_classification a :
  wf a ->
  (is_loopback a = true <-> b0 (to_bytes a) = 127) /\
  (is_multicast a = true <-> 224 <= b0 (to_bytes a) < 240) /\
  (is_unspecified a = true <-> to_bytes a = bytes4 0 0 0 0) /\
  is_loopback a && is_multicast a = false /\
  is_loopback a && is_unspecified a = false /\
  is_multicast a && is_unspecified a = false.
Proof.
  intros H. rewrite to_bytes_div by done. cbn [b0].
  assert (Hl : is_loopback a = (addr_ a / 2 ^ 24 =? 127)).
  { unfold is_loopback. pose proof (land_high_mask 32 24 (addr_ a) ltac:(lia) H) as E.
    change (Z.shiftl _ _) with 0xFF000000 in E. rewrite E. lia. }
  assert (Hm : is_multicast a = (addr_ a / 2 ^ 28 =? 14)).
  { unfold is_multicast. pose proof (land_high_mask 32 28 (addr_ a) ltac:(lia) H) as E.
    change (Z.shiftl _ _) with 0xF0000000 in E. rewrite E. lia. }
  rewrite Hl, Hm. unfold wf, is_unspecified in *.
  repeat split; try zdiv.
  - intros E%Z.eqb_eq. by rewrite E.
  - intros [= ????]. zdiv.
Qed.

Lemma ipv4_classification_witness :
  is_loopback loopback = true /\ is_multicast loopback = false.
Proof.
  destruct (ipv4_classification loopback ltac:(unfold wf; simpl; lia))
    as (H1 & _ & _ & H4 & _).
  assert (E : is_loopback loopback = true) by (apply H1; reflexivity).
  split; [exact E|]. rewrite E in H4. exact H4.
Defined.

End ipv4_address.
