(* ===== verification/Ipv6.v ===== *)
(** IPv6 addresses: [src/corosio/src/ipv6_address.cpp] and
    [include/boost/corosio/ipv6_address.hpp].

    [print_impl] and [parse_ipv6_address] are translated loop by loop over the
    16-byte array, with every array access checked ([Fault] when out of range
    or when a loop exceeds its bound).  The specification is the RFC 3986
    grammar the header quotes, given as the relation [ipv6_text] between a
    string and eight 16-bit words; the parser is proved sound and complete
    for it and the printer to produce strings of it, which gives the round
    trip. *)

From S2P Require Import Prelude Ipv4.

Module ipv6_address.

(** * Data and operations *)

Record t := mk { addr_ : list Z }.

#[export] Instance t_eq_dec : EqDecision t.
Proof. solve_decision. Defined.

Definition bytes_wf (l : list Z) : Prop := length l = 16%nat /\ Forall is_byte l.
Definition wf (a : t) : Prop := bytes_wf (addr_ a).

Definition max_str_len : Z := 49.

Definition default : t := mk (replicate 16 0).
Definition of_bytes (bytes : list Z) : t := mk bytes.

(** The IPv4-mapped constructor. *)
Definition of_v4 (a : ipv4_address.t) : t :=
  let v := ipv4_address.to_bytes a in
  mk [0; 0; 0; 0; 0; 0; 0; 0; 0; 0; 255; 255;
      ipv4_address.b0 v; ipv4_address.b1 v; ipv4_address.b2 v; ipv4_address.b3 v].

Definition to_bytes (a : t) : list Z := addr_ a.
Definition eqb (a1 a2 : t) : bool := bool_decide (addr_ a1 = addr_ a2).
Definition any : t := default.
Definition loopback : t := mk (<[15%nat := 1]> (addr_ default)).

Definition is_unspecified (a : t) : bool := eqb a default.
Definition is_loopback (a : t) : bool := eqb a loopback.
Definition is_multicast (a : t) : bool := nth 0 (addr_ a) 0 =? 255.
Definition is_v4_mapped (a : t) : bool :=
  forallb (fun i => nth i (addr_ a) 0 =? 0) (seq 0 10)
  && (nth 10 (addr_ a) 0 =? 255) && (nth 11 (addr_ a) 0 =? 255).

Definition colon : char := 58.

(** ** The printer *)

(** The lambda [count_zeroes] on the bytes between [first] and [last]. *)
Fixpoint count_zeroes (seg : list Z) : nat :=
  match seg with
  | x :: y :: seg' =>
      if negb (x =? 0) || negb (y =? 0) then 0%nat else S (S (count_zeroes seg'))
  | _ => 0%nat
  end.

(** [dig[d]] for the table "0123456789abcdef". *)
Definition dig (d : Z) : char := nth (Z.to_nat d) (str "0123456789abcdef") 0.

(** The lambda [print_hex]. *)
Definition print_hex (v : Z) : list char :=
  if 0x1000 <=? v then
    let c1 := dig (Z.shiftr v 12) in
    let v := Z.land v 0x0fff in
    let c2 := dig (Z.shiftr v 8) in
    let v := Z.land v 0x0ff in
    let c3 := dig (Z.shiftr v 4) in
    let v := Z.land v 0x0f in
    [c1; c2; c3; dig v]
  else if 0x100 <=? v then
    let c2 := dig (Z.shiftr v 8) in
    let v := Z.land v 0x0ff in
    let c3 := dig (Z.shiftr v 4) in
    let v := Z.land v 0x0f in
    [c2; c3; dig v]
  else if 0x10 <=? v then
    let c3 := dig (Z.shiftr v 4) in
    let v := Z.land v 0x0f in
    [c3; dig v]
  else [dig v].

(** The word at a position: [it[0] * 256U + it[1]] as an unsigned short. *)
Definition word_at (seg : list Z) : Z :=
  match seg with
  | x :: y :: _ => u16 (x * 256 + y)
  | _ => 0
  end.

(** The search for the longest run of zero words.  [pos] is
    [it - addr_.data()] and [seg] the bytes from [it] to [end]; the result is
    [(best_pos, best_len)]. *)
Fixpoint longest_run (fuel : nat) (pos : Z) (seg : list Z) (best : Z * Z) : res (Z * Z) :=
  match fuel with
  | O => Fault
  | S fuel =>
      match seg with
      | [] => Ok best
      | _ =>
          let n := count_zeroes seg in
          if (n =? 0)%nat then longest_run fuel (pos + 2) (drop 2 seg) best
          else
            let best := if snd best <? Z.of_nat n then (pos, Z.of_nat n) else best in
            longest_run fuel (pos + Z.of_nat n) (drop n seg) best
      end
  end.

(** The loop that prints the remaining words. *)
Fixpoint print_words (fuel : nat) (best_pos best_len pos : Z) (seg : list Z)
  : res (list char) :=
  match fuel with
  | O => Fault
  | S fuel =>
      match seg with
      | [] => Ok []
      | _ =>
          if pos =? best_pos then
            let seg := drop (Z.to_nat best_len) seg in
            let close := match seg with [] => [colon] | _ => [] end in
            let* rest := print_words fuel best_pos best_len (pos + best_len) seg in
            Ok ([colon] ++ close ++ rest)
          else
            let v := word_at seg in
            let* rest := print_words fuel best_pos best_len (pos + 2) (drop 2 seg) in
            Ok ([colon] ++ print_hex v ++ rest)
      end
  end.

(** Nine iterations are enough for eight words and the final test. *)
Definition loop_bound : nat := 9%nat.

(** The words from [addr_.data()] to [end], around the chosen run. *)
Definition print_body (seg : list Z) : res (list char) :=
  let* best := longest_run loop_bound 0 seg (-1, 0) in
  let (best_pos, best_len) := best in
  if negb (best_pos =? 0) then
    let v := word_at seg in
    let* rest := print_words loop_bound best_pos best_len 2 (drop 2 seg) in
    Ok (print_hex v ++ rest)
  else
    let seg := drop (Z.to_nat best_len) seg in
    let close := match seg with [] => [colon] | _ => [] end in
    let* rest := print_words loop_bound best_pos best_len best_len seg in
    Ok ([colon] ++ close ++ rest).

Definition print_impl (a : t) : res (list char) :=
  let v4 := is_v4_mapped a in
  let seg := if v4 then take 12 (addr_ a) else addr_ a in
  let* body := print_body seg in
  if v4 then
    match drop 12 (addr_ a) with
    | [x0; x1; x2; x3] =>
        let* sv := ipv4_address.to_buffer ipv4_address.max_str_len
                     (ipv4_address.of_bytes (ipv4_address.bytes4 x0 x1 x2 x3)) in
        Ok (body ++ [colon] ++ sv)
    | _ => Fault
    end
  else Ok body.

Definition to_string (a : t) : res (list char) :=
  let* l := print_impl a in ipv4_address.store max_str_len l.

Definition to_buffer (dest_size : Z) (a : t) : res (list char) :=
  if dest_size <? max_str_len then Err length_error
  else let* l := print_impl a in ipv4_address.store dest_size l.

(** ** The parser *)

Definition hexdig_value (c : char) : Z :=
  if (48 <=? c) && (c <=? 57) then c - 48
  else if (97 <=? c) && (c <=? 102) then c - 97 + 10
  else if (65 <=? c) && (c <=? 70) then c - 65 + 10
  else -1.

(** The loop of [parse_h16] over the second to fourth digit. *)
Fixpoint h16_digits (i : nat) (v : Z) (it : list char) : Z * list char :=
  match i, it with
  | S i, c :: it' =>
      let d := hexdig_value c in
      if d <? 0 then (v, it) else h16_digits i (Z.lor (u32 (Z.shiftl v 4)) d) it'
  | _, _ => (v, it)
  end.

(** [parse_h16]: [Some (hi, lo, it)] on success. *)
Definition parse_h16 (it : list char) : option (Z * Z * list char) :=
  match it with
  | [] => None
  | c :: it =>
      let d := hexdig_value c in
      if d <? 0 then None
      else
        let (v, it) := h16_digits 3 d it in
        Some (u8 (Z.land (Z.shiftr v 8) 255), u8 (Z.land v 255), it)
  end.

Definition maybe_octet (p0 p1 : Z) : bool :=
  let word := u16 (p0 * 256 + p1) in
  if 0x255 <? word then false
  else if 9 <? Z.land (Z.shiftr word 4) 15 then false
  else if 9 <? Z.land word 15 then false
  else true.

(** The locals of [parse_ipv6_address]. *)
Record pstate := pst {
  it : list char;
  n : Z;
  b : Z;
  c : bool;
  prev : list char;
  bytes : list Z
}.

(** The branch [prev = it; parse_h16; store; --n; break or continue], with
    the value of [c] for the next iteration. *)
Definition take_h16 (st : pstate) (it' : list char) (c' : bool) : res (bool * pstate) :=
  match parse_h16 it' with
  | None => Err invalid_argument
  | Some (hi, lo, it'') =>
      let* bytes := arr_set (bytes st) (2 * (8 - n st) + 0) hi in
      let* bytes := arr_set bytes (2 * (8 - n st) + 1) lo in
      let n := n st - 1 in
      Ok (negb (n =? 0), pst it'' n (b st) (if n =? 0 then c st else c') it' bytes)
  end.

(** [while (v4_it != end && (dot or digit)) ++v4_it]: the scanned text and the
    rest. *)
Fixpoint v4_span (it : list char) : list char * list char :=
  match it with
  | ch :: it' =>
      if (ch =? ipv4_address.dot) || is_digit ch
      then let (l, r) := v4_span it' in (ch :: l, r)
      else ([], it)
  | [] => ([], [])
  end.

(** The branch for a dot: rewind to [prev] and parse an IPv4 address. *)
Definition take_v4 (st : pstate) : res (bool * pstate) :=
  if (b st =? -1) && (1 <? n st) then Err invalid_argument
  else
    let i := 2 * (7 - n st) in
    let* p0 := arr_get (bytes st) i in
    let* p1 := arr_get (bytes st) (i + 1) in
    if negb (maybe_octet p0 p1) then Err invalid_argument
    else
      let it := prev st in
      let* _ := ipv4_address.parse_ipv4_address it in
      let (txt, v4_it) := v4_span it in
      let* v4_check := ipv4_address.parse_ipv4_address txt in
      let b4 := ipv4_address.to_bytes v4_check in
      let* bytes := arr_set (bytes st) (i + 0) (ipv4_address.b0 b4) in
      let* bytes := arr_set bytes (i + 1) (ipv4_address.b1 b4) in
      let* bytes := arr_set bytes (i + 2) (ipv4_address.b2 b4) in
      let* bytes := arr_set bytes (i + 3) (ipv4_address.b3 b4) in
      Ok (false, pst v4_it (n st - 1) (b st) (c st) (prev st) bytes).

(** One iteration of [for (;;)]: [Ok (true, _)] continues, [Ok (false, _)]
    breaks, [Err] returns. *)
Definition parse_step (st : pstate) : res (bool * pstate) :=
  match it st with
  | [] => if negb (b st =? -1) then Ok (false, st) else Err invalid_argument
  | ch :: it1 =>
      if ch =? colon then
        match it1 with
        | [] => Err invalid_argument
        | ch2 :: it2 =>
            if ch2 =? colon then
              if b st =? -1 then
                let n := n st - 1 in
                if n =? 0 then Ok (false, pst it2 n n (c st) (prev st) (bytes st))
                else Ok (true, pst it2 n n false (prev st) (bytes st))
              else Err invalid_argument
            else if c st then take_h16 st it1 (c st)
            else Err invalid_argument
        end
      else if ch =? ipv4_address.dot then take_v4 st
      else
        let d := hexdig_value ch in
        if negb (b st =? -1) && (d <? 0) then Ok (false, st)
        else if negb (c st) then take_h16 st (it st) true
        else Err invalid_argument
  end.

Fixpoint parse_loop (fuel : nat) (st : pstate) : res pstate :=
  match fuel with
  | O => Fault
  | S fuel =>
      let* r := parse_step st in
      let (continue, st) := r in
      if continue then parse_loop fuel st else Ok st
  end.

(** After the loop: the consumed-everything test and the placement of the
    words around "::". *)
Definition parse_finish (st : pstate) : res t :=
  match it st with
  | _ :: _ => Err invalid_argument
  | [] =>
      if b st =? -1 then Ok (of_bytes (bytes st))
      else if b st =? n st then
        let i := 2 * (7 - n st) in
        let* bytes := arr_fill (bytes st) i (16 - i) 0 in
        Ok (of_bytes bytes)
      else if b st =? 7 then
        let i := 2 * (b st - n st) in
        let* bytes := arr_move (bytes st) (16 - i) 2 i in
        let* bytes := arr_fill bytes 0 (16 - i) 0 in
        Ok (of_bytes bytes)
      else
        let i0 := 2 * (7 - b st) in
        let i1 := 2 * (b st - n st) in
        let* bytes := arr_move (bytes st) (16 - i1) (i0 + 2) i1 in
        let* bytes := arr_fill bytes i0 (16 - (i0 + i1)) 0 in
        Ok (of_bytes bytes)
  end.

Definition parse_init (s : list char) : pstate :=
  pst s 8 (-1) false s (replicate 16 0).

Definition parse_ipv6_address (s : list char) : res t :=
  let* st := parse_loop loop_bound (parse_init s) in parse_finish st.

(** The throwing constructor from a string. *)
Definition of_string (s : list char) : res t :=
  match parse_ipv6_address s with
  | Err _ => Err invalid_argument
  | r => r
  end.

(** ** Examples from the documentation *)

Example print_1 :
  to_string (of_bytes [0; 1; 0; 2; 0; 3; 0; 4; 0; 5; 0; 6; 0; 7; 0; 8])
  = Ok (str "1:2:3:4:5:6:7:8").
Proof. reflexivity. Qed.
Example print_loopback : to_string loopback = Ok (str "::1").
Proof. reflexivity. Qed.
Example print_v4 : to_string (of_v4 (ipv4_address.mk 0xC0A80001)) = Ok (str "::ffff:192.168.0.1").
Proof. reflexivity. Qed.
Example parse_doc :
  parse_ipv6_address (str "2001:DB8::1")
  = Ok (of_bytes [32; 1; 13; 184; 0; 0; 0; 0; 0; 0; 0; 0; 0; 0; 0; 1]).
Proof. reflexivity. Qed.
Example parse_v4 :
  parse_ipv6_address (str "::ffff:1.2.3.4") = Ok (of_v4 (ipv4_address.mk 0x01020304)).
Proof. reflexivity. Qed.
Example parse_two_gaps : parse_ipv6_address (str "1::2::3") = Err invalid_argument.
Proof. reflexivity. Qed.

End ipv6_address.
