(* ===== verification/Ipv6Text.v ===== *)
(** The text form of IPv6 addresses: the grammar of the header, and the proofs
    that [parse_ipv6_address] decides it and that [print_impl] writes it. *)

From S2P Require Import Prelude Ipv4 Ipv6.
Import ipv6_address.

(** * The grammar *)

(** [HEXDIG] and [h16 = 1*4HEXDIG] with its value. *)
Definition is_hex (ch : char) : Prop := 0 <= hexdig_value ch.
Definition hexval (v : Z) (tok : list char) : Z :=
  fold_left (fun v ch => 16 * v + hexdig_value ch) tok v.
Definition h16 (tok : list char) (w : Z) : Prop :=
  (1 <= length tok <= 4)%nat /\ Forall is_hex tok /\ w = hexval 0 tok.

(** Fields separated by colons. *)
Fixpoint join (toks : list (list char)) : list char :=
  match toks with
  | [] => []
  | [tok] => tok
  | tok :: toks => tok ++ colon :: join toks
  end.

Definition v4_words (a : ipv4_address.t) : list Z :=
  let v := ipv4_address.to_bytes a in
  [ipv4_address.b0 v * 256 + ipv4_address.b1 v;
   ipv4_address.b2 v * 256 + ipv4_address.b3 v].

(** An optional trailing [IPv4address] and its two words. *)
Inductive v4_tail : list (list char) -> list Z -> Prop :=
| tail_none : v4_tail [] []
| tail_v4 s a :
    ipv4_address.parse_ipv4_address s = Ok a -> v4_tail [s] (v4_words a).

(** The eight words a string denotes: either all of them are written, or one
    "::" stands for at least one zero word. *)
Inductive ipv6_text : list char -> list Z -> Prop :=
| text_full toks ws tl wl :
    Forall2 h16 toks ws -> v4_tail tl wl ->
    (length ws + length wl)%nat = 8%nat ->
    ipv6_text (join (toks ++ tl)) (ws ++ wl)
| text_gap toks1 ws1 toks2 ws2 tl wl :
    Forall2 h16 toks1 ws1 -> Forall2 h16 toks2 ws2 -> v4_tail tl wl ->
    (length ws1 + length ws2 + length wl <= 7)%nat ->
    ipv6_text (join toks1 ++ [colon; colon] ++ join (toks2 ++ tl))
      (ws1 ++ replicate (8 - (length ws1 + length ws2 + length wl)) 0 ++ ws2 ++ wl).

(** Network byte order. *)
Definition flat (ws : list Z) : list Z :=
  concat (map (fun w => [w / 256; w mod 256]) ws).

(** * Words and bytes *)

Lemma flat_app ws1 ws2 : flat (ws1 ++ ws2) = flat ws1 ++ flat ws2.
Proof. unfold flat. by rewrite map_app, concat_app. Qed.

Lemma flat_cons w ws : flat (w :: ws) = w / 256 :: w mod 256 :: flat ws.
Proof. done. Qed.

Lemma length_flat ws : length (flat ws) = (2 * length ws)%nat.
Proof. induction ws; [done|]. rewrite flat_cons. simpl. lia. Qed.

Lemma flat_zeros k : flat (replicate k 0) = replicate (2 * k) 0.
Proof.
  induction k; [done|]. replace (2 * S k)%nat with (S (S (2 * k))) by lia.
  cbn [replicate]. rewrite flat_cons, IHk. done.
Qed.

Lemma flat_v4 a :
  ipv4_address.wf a ->
  flat (v4_words a) =
    let v := ipv4_address.to_bytes a in
    [ipv4_address.b0 v; ipv4_address.b1 v; ipv4_address.b2 v; ipv4_address.b3 v].
Proof.
  intros (?&?&?&?)%ipv4_address.to_bytes_wf. unfold is_byte in *.
  unfold flat, v4_words. cbn [map concat app]. repeat f_equal; zdiv.
Qed.

(** * Hexadecimal fields *)

Lemma hexdig_value_range ch : -1 <= hexdig_value ch <= 15.
Proof. unfold hexdig_value. repeat bdestruct_if; lia. Qed.

Lemma hexval_app v t1 t2 : hexval v (t1 ++ t2) = hexval (hexval v t1) t2.
Proof. apply fold_left_app. Qed.

Lemma hexval_range v tok :
  0 <= v -> Forall is_hex tok ->
  0 <= hexval v tok < (v + 1) * 16 ^ Z.of_nat (length tok).
Proof.
  intros Hv H. revert v Hv. induction H as [|ch tok Hc _ IH]; intros v Hv.
  - simpl. lia.
  - pose proof (hexdig_value_range ch). unfold is_hex in Hc.
    specialize (IH (16 * v + hexdig_value ch) ltac:(lia)).
    change (hexval v (ch :: tok)) with (hexval (16 * v + hexdig_value ch) tok).
    replace (Z.of_nat (length (ch :: tok))) with (Z.succ (Z.of_nat (length tok)))
      by (simpl; lia).
    rewrite Z.pow_succ_r by lia. nia.
Qed.

Lemma h16_range tok w : h16 tok w -> 0 <= w < 65536.
Proof.
  intros ((_ & Hl) & Hx & ->). pose proof (hexval_range 0 tok ltac:(lia) Hx).
  assert (16 ^ Z.of_nat (length tok) <= 16 ^ 4) by (apply Z.pow_le_mono_r; lia).
  lia.
Qed.

Lemma h16_step v d :
  0 <= v < 2 ^ 28 -> 0 <= d <= 15 ->
  Z.lor (u32 (Z.shiftl v 4)) d = 16 * v + d.
Proof.
  intros. rewrite wrap_small by (rewrite Z.shiftl_mul_pow2 by lia; lia).
  rewrite lor_shiftl_add by lia. lia.
Qed.

(** A position where a maximal run of hexadecimal digits ends. *)
Definition no_hex (rest : list char) : Prop :=
  match rest with
  | ch :: _ => ~ is_hex ch
  | [] => True
  end.

Lemma h16_digits_run i v tok rest :
  0 <= v < 16 ^ (4 - Z.of_nat i) -> (i <= 3)%nat ->
  (length tok <= i)%nat -> Forall is_hex tok ->
  length tok = i \/ no_hex rest ->
  h16_digits i v (tok ++ rest) = (hexval v tok, rest).
Proof.
  intros Hv Hi Hl Hx Hr. revert i v Hv Hi Hl Hr.
  induction Hx as [|ch tok Hc _ IH]; intros [|i] v Hv Hi Hl Hr; cbn in *; try lia.
  - done.
  - destruct Hr as [|Hr]; [lia|]. destruct rest as [|ch rest]; [done|].
    cbn in Hr. unfold is_hex in Hr.
    destruct (Z.ltb_spec (hexdig_value ch) 0); [done|lia].
  - unfold is_hex in Hc. pose proof (hexdig_value_range ch).
    destruct (Z.ltb_spec (hexdig_value ch) 0); [lia|].
    assert (16 ^ (4 - Z.of_nat (S i)) <= 16 ^ 3) by (apply Z.pow_le_mono_r; lia).
    rewrite h16_step by lia. apply IH; try lia; [|destruct Hr; [left; lia|by right]].
    replace (4 - Z.of_nat i) with (Z.succ (4 - Z.of_nat (S i))) by lia.
    rewrite Z.pow_succ_r by lia. lia.
Qed.

(** Every call of the loop reads some run of digits. *)
Lemma h16_digits_inv i it :
  (i <= 3)%nat ->
  exists tok rest, it = tok ++ rest /\ (length tok <= i)%nat /\ Forall is_hex tok
    /\ (length tok = i \/ no_hex rest).
Proof.
  revert it. induction i as [|i IH]; intros it Hi.
  { exists [], it. cbn. auto using Forall_nil. }
  destruct it as [|ch it]; [exists [], []; cbn; auto with lia|].
  destruct (Z.ltb_spec (hexdig_value ch) 0) as [Hc|Hc].
  - exists [], (ch :: it). cbn. repeat split; [lia|done|].
    right. unfold is_hex. lia.
  - destruct (IH it ltac:(lia)) as (tok & rest & -> & ? & ? & Hr).
    exists (ch :: tok), rest. cbn. repeat split; auto with lia.
    destruct Hr; [left; lia|by right].
Qed.

Lemma parse_h16_run tok w rest :
  h16 tok w -> length tok = 4%nat \/ no_hex rest ->
  parse_h16 (tok ++ rest) = Some (w / 256, w mod 256, rest).
Proof.
  intros Hh Hr. pose proof (h16_range _ _ Hh) as Hw.
  destruct Hh as (Hl & Hx & ->). destruct tok as [|ch tok]; [cbn in Hl; lia|].
  apply List.Forall_cons_iff in Hx as [Hc Hx]. unfold is_hex in Hc.
  pose proof (hexdig_value_range ch). cbn in Hl. cbn [parse_h16 app].
  destruct (Z.ltb_spec (hexdig_value ch) 0); [lia|].
  rewrite h16_digits_run; [|simpl; lia|lia|lia|done|destruct Hr; [left; simpl in *; lia|by right]].
  change (hexval 0 (ch :: tok)) with (hexval (hexdig_value ch) tok) in *.
  rewrite !land_255, shiftr_div by lia. change (2 ^ 8) with 256.
  rewrite !wrap_small by (apply Z.mod_pos_bound; lia).
  rewrite (Z.mod_small (_ / _)) by zdiv. done.
Qed.

Lemma parse_h16_inv it hi lo rest :
  parse_h16 it = Some (hi, lo, rest) ->
  exists tok w, h16 tok w /\ it = tok ++ rest /\ hi = w / 256 /\ lo = w mod 256.
Proof.
  destruct it as [|ch it]; [done|].
  destruct (Z.ltb_spec (hexdig_value ch) 0) as [Hc|Hc].
  { cbn. destruct (Z.ltb_spec (hexdig_value ch) 0); [done|lia]. }
  destruct (h16_digits_inv 3 it ltac:(lia)) as (tok & r & -> & Hl & Hx & Hr).
  assert (Hh : h16 (ch :: tok) (hexval 0 (ch :: tok))).
  { split; [simpl; lia|]. split; [by constructor|done]. }
  change (ch :: tok ++ r) with ((ch :: tok) ++ r).
  rewrite (parse_h16_run _ _ r Hh) by (destruct Hr; [left; simpl; lia|by right]).
  intros [= <- <- <-]. eauto 10.
Qed.

(** * The byte buffer *)

(** The first bytes are [d], the rest are still zero. *)
Definition buf (d : list Z) : list Z := d ++ replicate (16 - length d) 0.

Lemma arr_set_at l1 x l2 v i :
  i = Z.of_nat (length l1) -> arr_set (l1 ++ x :: l2) i v = Ok (l1 ++ v :: l2).
Proof.
  intros ->. unfold arr_set. rewrite length_app. cbn [length].
  replace (_ && _) with true by blia.
  by rewrite Nat2Z.id, insert_app_r_alt, Nat.sub_diag by lia.
Qed.

Lemma arr_get_at l1 x l2 i :
  i = Z.of_nat (length l1) -> arr_get (l1 ++ x :: l2) i = Ok x.
Proof.
  intros ->. unfold arr_get. replace (_ <? 0) with false by blia.
  by rewrite Nat2Z.id, lookup_app_r, Nat.sub_diag by lia.
Qed.

Lemma buf_gap d : (length d <= 14)%nat -> buf d = buf (d ++ [0; 0]).
Proof.
  intros H. unfold buf. rewrite length_app. simpl length.
  replace (16 - length d)%nat with (S (S (16 - (length d + 2)))) by lia.
  by rewrite <- app_assoc.
Qed.

Lemma length_buf d : (length d <= 16)%nat -> length (buf d) = 16%nat.
Proof. intros. unfold buf. rewrite length_app, length_replicate. lia. Qed.

Lemma buf_full d : length d = 16%nat -> buf d = d.
Proof. intros H. unfold buf. by rewrite H, app_nil_r. Qed.

(** Storing a word of the buffer. *)
Lemma set_word d p q r x y :
  (let* l := arr_set (d ++ p :: q :: r) (Z.of_nat (length d)) x in
   arr_set l (Z.of_nat (length d) + 1) y) = Ok (d ++ x :: y :: r).
Proof.
  rewrite arr_set_at by done. cbn [res_bind].
  rewrite (cons_middle x), app_assoc, arr_set_at, <- app_assoc; [done|].
  rewrite length_app. cbn [length]. lia.
Qed.

Lemma get_snd d p q r : arr_get (d ++ p :: q :: r) (Z.of_nat (length d) + 1) = Ok q.
Proof.
  rewrite (cons_middle p), app_assoc. apply arr_get_at.
  rewrite length_app. cbn [length]. lia.
Qed.

Lemma buf_set_word d x y :
  (length d <= 14)%nat ->
  (let* l := arr_set (buf d) (Z.of_nat (length d)) x in
   arr_set l (Z.of_nat (length d) + 1) y) = Ok (buf (d ++ [x; y])).
Proof.
  intros H. rewrite buf_gap by done. unfold buf. rewrite !length_app. simpl length.
  rewrite <- !app_assoc. cbn [app]. by rewrite set_word.
Qed.

(** Storing a word: the buffer grows by it. *)
Lemma take_h16_store st ws it' c' w rest :
  bytes st = buf (flat ws) -> n st = 8 - Z.of_nat (length ws) -> 1 <= n st ->
  parse_h16 it' = Some (w / 256, w mod 256, rest) ->
  take_h16 st it' c' =
    Ok (negb (n st - 1 =? 0),
        pst rest (n st - 1) (b st) (if n st - 1 =? 0 then c st else c') it'
          (buf (flat (ws ++ [w])))).
Proof.
  intros Hb Hn Hl Hp. unfold take_h16. rewrite Hp, Hb, flat_app.
  pose proof (buf_set_word (flat ws) (w / 256) (w mod 256)) as E.
  rewrite length_flat in E. specialize (E ltac:(lia)).
  replace (2 * (8 - n st) + 0) with (Z.of_nat (2 * length ws)) by lia.
  replace (2 * (8 - n st) + 1) with (Z.of_nat (2 * length ws) + 1) by lia.
  destruct (arr_set (buf _) _ _) as [l| |]; cbn [res_bind] in *; try done.
  by rewrite E.
Qed.

(** A dotted quad replaces the last word of the buffer and the one after it. *)
Lemma v4_span_all s :
  Forall (fun ch => (ch =? ipv4_address.dot) || is_digit ch = true) s ->
  v4_span s = (s, []).
Proof.
  induction 1 as [|ch s Hc _ IH]; [done|]. cbn [v4_span]. by rewrite Hc, IH.
Qed.

Lemma v4_text_chars s a :
  ipv4_address.parse_ipv4_address s = Ok a ->
  Forall (fun ch => (ch =? ipv4_address.dot) || is_digit ch = true) s.
Proof.
  intros (bs & (H0 & H1 & H2 & H3) & -> & _)%ipv4_address.parse_inv.
  unfold ipv4_address.print_bytes.
  assert (Hw : forall v, is_byte v ->
    Forall (fun ch => (ch =? ipv4_address.dot) || is_digit ch = true)
      (ipv4_address.write v)).
  { intros v Hv. refine (List.Forall_impl _ _ (ipv4_address.write_digits v Hv)).
    intros ch ->. apply orb_true_r. }
  repeat apply Forall_app_2; auto; by repeat constructor.
Qed.

Lemma take_v4_store st ws w a :
  bytes st = buf (flat (ws ++ [w])) -> n st = 7 - Z.of_nat (length ws) -> 1 <= n st ->
  b st <> -1 \/ n st <= 1 -> maybe_octet (w / 256) (w mod 256) = true ->
  ipv4_address.parse_ipv4_address (prev st) = Ok a ->
  take_v4 st =
    Ok (false, pst [] (n st - 1) (b st) (c st) (prev st) (buf (flat (ws ++ v4_words a)))).
Proof.
  rewrite !flat_app. intros Hb Hn Hl Hg Ho Hp. unfold take_v4.
  replace ((b st =? -1) && (1 <? n st)) with false by (destruct Hg; blia).
  pose proof (length_flat ws) as Hd. set (d := flat ws) in *.
  replace (2 * (7 - n st)) with (Z.of_nat (length d)) by lia.
  cbn [flat map concat] in Hb. set (hi := w / 256) in *. set (lo := w mod 256) in *.
  rewrite Hb. unfold buf at 1 2. rewrite <- app_assoc. cbn [app].
  rewrite arr_get_at, get_snd by done. cbn [res_bind]. rewrite Ho. cbn [negb].
  rewrite Hp. cbn [res_bind]. rewrite v4_span_all by eauto using v4_text_chars.
  rewrite Hp. cbn [res_bind].
  rewrite flat_v4 by (by destruct (ipv4_address.parse_canonical _ _ Hp)).
  destruct (ipv4_address.to_bytes a) as [x0 x1 x2 x3].
  cbn [ipv4_address.b0 ipv4_address.b1 ipv4_address.b2 ipv4_address.b3].
  rewrite Z.add_0_r.
  pose proof (set_word d hi lo (replicate (16 - length (d ++ [hi; lo])) 0) x0 x1) as E1.
  pose proof (buf_set_word (d ++ [x0; x1]) x2 x3) as E2.
  unfold buf in *. rewrite !length_app, <- !app_assoc in *. cbn [length app] in *.
  destruct (arr_set (d ++ hi :: _) _ _); cbn [res_bind] in *; try done.
  rewrite E1. cbn [res_bind].
  replace (Z.of_nat (length d) + 2) with (Z.of_nat (length d + 2)) by lia.
  replace (Z.of_nat (length d) + 3) with (Z.of_nat (length d + 2) + 1) by lia.
  specialize (E2 ltac:(lia)).
  destruct (arr_set (d ++ x0 :: _) _ _); cbn [res_bind] in *; try done.
  rewrite E2. cbn [res_bind]. by rewrite <- Nat.add_assoc.
Qed.

(** * After the loop *)

Lemma arr_fill_at l1 l2 l3 i k v :
  i = Z.of_nat (length l1) -> k = Z.of_nat (length l2) ->
  arr_fill (l1 ++ l2 ++ l3) i k v = Ok (l1 ++ replicate (length l2) v ++ l3).
Proof.
  intros -> ->. unfold arr_fill. rewrite !length_app.
  replace (_ && _) with true by blia.
  rewrite <- Nat2Z.inj_add, !Nat2Z.id, take_app_length.
  by rewrite drop_app_add, drop_app_length.
Qed.

(** Moving a block to the end of the array. *)
Lemma arr_move_end l1 l2 l3 src dst k :
  src = Z.of_nat (length l1) -> k = Z.of_nat (length l2) ->
  dst = Z.of_nat (length l1 + length l3) ->
  arr_move (l1 ++ l2 ++ l3) dst src k
  = Ok (take (length l1 + length l3) (l1 ++ l2 ++ l3) ++ l2).
Proof.
  intros -> -> ->. unfold arr_move. rewrite !length_app.
  replace (_ && _) with true by blia.
  rewrite <- Nat2Z.inj_add, !Nat2Z.id, drop_app_length, take_app_length.
  rewrite (drop_ge _ (_ + _ + _)) by (rewrite !length_app; lia).
  by rewrite app_nil_r.
Qed.

(** The [memmove] and [memset] that spread the words around "::". *)
Lemma spread p q m i0 i1 :
  (length p + 2 + length q + m = 16)%nat ->
  i0 = Z.of_nat (length p) -> i1 = Z.of_nat (length q) ->
  (let* l := arr_move (p ++ [0; 0] ++ q ++ replicate m 0) (16 - i1) (i0 + 2) i1 in
   arr_fill l i0 (16 - (i0 + i1)) 0) = Ok (p ++ replicate (S (S m)) 0 ++ q).
Proof.
  intros Hl -> ->. rewrite (app_assoc p), arr_move_end; cbn [res_bind];
    rewrite ?length_app, ?length_replicate; cbn [length]; try lia.
  rewrite <- app_assoc, <- Nat.add_assoc, take_app_add, <- app_assoc.
  set (mid := take (2 + m) _).
  assert (Hm : length mid = S (S m)).
  { subst mid. rewrite length_take, !length_app, length_replicate. cbn [length]. lia. }
  rewrite arr_fill_at by lia. by rewrite Hm.
Qed.

Lemma finish_gap st ws1 ws2 :
  it st = [] -> bytes st = buf (flat (ws1 ++ 0 :: ws2)) ->
  b st = 7 - Z.of_nat (length ws1) -> n st = b st - Z.of_nat (length ws2) ->
  (length ws1 + length ws2 <= 7)%nat ->
  parse_finish st =
    Ok (of_bytes (flat (ws1 ++ replicate (8 - (length ws1 + length ws2)) 0 ++ ws2))).
Proof.
  intros Hi Hb Hbb Hn Hl. unfold parse_finish. rewrite Hi, Hb.
  test_false (b st =? -1). rewrite !flat_app, flat_zeros, flat_cons.
  change (0 / 256 :: 0 mod 256 :: flat ws2) with ([0; 0] ++ flat ws2). unfold buf.
  rewrite !length_app, !length_flat. cbn [length]. set (m := (16 - _)%nat).
  replace (2 * (8 - (length ws1 + length ws2)))%nat with (S (S m)) by lia.
  rewrite <- !app_assoc.
  pose proof (spread (flat ws1) (flat ws2) m) as Hs. rewrite !length_flat in Hs.
  destruct (Z.eqb_spec (b st) (n st)) as [E|E]; [|destruct (Z.eqb_spec (b st) 7)].
  - destruct ws2; [|cbn in *; lia]. cbn [flat map concat length app] in *.
    change (0 :: 0 :: replicate m 0) with (replicate (S (S m)) 0).
    rewrite <- (app_nil_r (replicate (S (S m)) 0)), arr_fill_at;
      rewrite ?length_flat, ?length_replicate; try lia.
    cbn [res_bind]. by rewrite ?app_nil_r.
  - specialize (Hs 0 (2 * (b st - n st)) ltac:(lia) ltac:(lia) ltac:(lia)).
    destruct (arr_move _ _ _ _) in *; cbn [res_bind] in *; try done.
    rewrite Z.add_0_l in Hs. by rewrite Hs.
  - specialize (Hs (2 * (7 - b st)) (2 * (b st - n st)) ltac:(lia) ltac:(lia) ltac:(lia)).
    destruct (arr_move _ _ _ _) in *; cbn [res_bind] in *; try done.
    by rewrite Hs.
Qed.

(** * The loop on well-formed text *)

(** The fields after the first one, each preceded by its colon. *)
Definition colons (toks : list (list char)) : list char :=
  concat (map (cons colon) toks).

Lemma join_cons tok toks : join (tok :: toks) = tok ++ colons toks.
Proof.
  revert tok. induction toks as [|t2 toks IH]; intros tok.
  - cbn. by rewrite app_nil_r.
  - change (join (tok :: t2 :: toks)) with (tok ++ colon :: join (t2 :: toks)).
    by rewrite IH.
Qed.

Lemma colons_cons tok toks : colons (tok :: toks) = colon :: tok ++ colons toks.
Proof. done. Qed.

Lemma colons_app t1 t2 : colons (t1 ++ t2) = colons t1 ++ colons t2.
Proof. unfold colons. by rewrite map_app, concat_app. Qed.

Lemma not_hex_colon : ~ is_hex colon.
Proof. unfold is_hex. cbn. lia. Qed.
Lemma not_hex_dot : ~ is_hex ipv4_address.dot.
Proof. unfold is_hex. cbn. lia. Qed.

Lemma no_hex_colons toks rest : no_hex rest -> no_hex (colons toks ++ rest).
Proof. destruct toks; [done|]. intros _. apply not_hex_colon. Qed.

(** Reading a field, as the first one of a group and as a later one. *)
Lemma step_field st ws tok w rest :
  c st = false -> it st = tok ++ rest ->
  bytes st = buf (flat ws) -> n st = 8 - Z.of_nat (length ws) -> 1 <= n st ->
  h16 tok w -> no_hex rest ->
  parse_step st =
    Ok (negb (n st - 1 =? 0),
        pst rest (n st - 1) (b st) (negb (n st - 1 =? 0)) (tok ++ rest)
          (buf (flat (ws ++ [w])))).
Proof.
  intros Hc Hi Hb Hn Hn1 Hh Hr.
  assert (Hs : take_h16 st (it st) true =
    Ok (negb (n st - 1 =? 0),
        pst rest (n st - 1) (b st) (negb (n st - 1 =? 0)) (tok ++ rest)
          (buf (flat (ws ++ [w]))))).
  { rewrite Hi, (take_h16_store st ws _ _ w rest) by auto using parse_h16_run.
    rewrite Hc. by destruct (n st - 1 =? 0). }
  destruct Hh as (Hl & Hx & _). destruct tok as [|ch tok]; [cbn in Hl; lia|].
  apply List.Forall_cons_iff in Hx as [Hx _]. unfold parse_step. rewrite Hi in *.
  cbn [app].
  destruct (Z.eqb_spec ch colon) as [->|]; [by destruct not_hex_colon|].
  destruct (Z.eqb_spec ch ipv4_address.dot) as [->|]; [by destruct not_hex_dot|].
  unfold is_hex in Hx. replace (hexdig_value ch <? 0) with false by blia.
  rewrite andb_false_r, Hc. exact Hs.
Qed.

Lemma step_next st ws tok w rest :
  c st = true -> it st = colon :: tok ++ rest ->
  bytes st = buf (flat ws) -> n st = 8 - Z.of_nat (length ws) -> 1 <= n st ->
  h16 tok w -> no_hex rest ->
  parse_step st =
    Ok (negb (n st - 1 =? 0),
        pst rest (n st - 1) (b st) true (tok ++ rest) (buf (flat (ws ++ [w])))).
Proof.
  intros Hc Hi Hb Hn Hn1 Hh Hr.
  pose proof (take_h16_store st ws (tok ++ rest) true w rest Hb Hn Hn1
                ltac:(auto using parse_h16_run)) as Hs.
  destruct Hh as (Hl & Hx & _). destruct tok as [|ch tok]; [cbn in Hl; lia|].
  apply List.Forall_cons_iff in Hx as [Hx _]. unfold parse_step.
  rewrite Hi, Hc in *. cbn [app] in *. rewrite Z.eqb_refl.
  destruct (Z.eqb_spec ch colon) as [->|]; [by destruct not_hex_colon|].
  rewrite Hs. by destruct (n st - 1 =? 0).
Qed.

Definition runs (st st' : pstate) : Prop := exists f, parse_loop f st = Ok st'.

Lemma runs_continue st st1 st' :
  parse_step st = Ok (true, st1) -> runs st1 st' -> runs st st'.
Proof. intros E [f Hf]. exists (S f). cbn [parse_loop]. by rewrite E. Qed.

Lemma runs_break st st' : parse_step st = Ok (false, st') -> runs st st'.
Proof. intros E. exists 1%nat. cbn [parse_loop]. by rewrite E. Qed.

(** The loop breaks in a state that satisfies [Q]. *)
Definition reaches (st : pstate) (Q : pstate -> Prop) : Prop :=
  exists st', runs st st' /\ Q st'.

Lemma reaches_continue st st1 Q :
  parse_step st = Ok (true, st1) -> reaches st1 Q -> reaches st Q.
Proof. intros E (st' & H & HQ). exists st'. eauto using runs_continue. Qed.

Lemma reaches_break st st' (Q : pstate -> Prop) :
  parse_step st = Ok (false, st') -> Q st' -> reaches st Q.
Proof. intros E HQ. exists st'. eauto using runs_break. Qed.

(** Reading the later fields of a group while words are still needed. *)
Lemma run_fields toks ws' ws st rest Q :
  Forall2 h16 toks ws' -> c st = true -> it st = colons toks ++ rest ->
  bytes st = buf (flat ws) -> n st = 8 - Z.of_nat (length ws) ->
  Z.of_nat (length ws') < n st -> no_hex rest ->
  (forall p, (toks = [] -> p = prev st) ->
     reaches (pst rest (n st - Z.of_nat (length ws')) (b st) true p
                (buf (flat (ws ++ ws')))) Q) ->
  reaches st Q.
Proof.
  intros Hh. revert ws st. induction Hh as [|tok w toks ws' Ht Hh IH];
    intros ws st Hc Hi Hb Hn Hl Hr Hk.
  - specialize (Hk _ (fun _ => eq_refl)). cbn in *. rewrite app_nil_r, Z.sub_0_r in Hk.
    destruct st; cbn in *; by subst.
  - rewrite colons_cons, <- app_comm_cons, <- app_assoc in Hi.
    cbn [length] in *. eapply reaches_continue.
    + rewrite (step_next st ws tok w (colons toks ++ rest)); auto with lia.
      * by replace (n st - 1 =? 0) with false by blia.
      * by apply no_hex_colons.
    + apply (IH (ws ++ [w])); cbn; rewrite ?length_app; cbn; auto with lia.
      intros p _. rewrite <- app_assoc. cbn [app].
      replace (n st - 1 - Z.of_nat (length ws')) with (n st - Z.of_nat (S (length ws'))) by lia.
      by apply Hk.
Qed.

(** ** A trailing IPv4 address *)

Lemma hexdig_digit d : 0 <= d <= 9 -> hexdig_value (48 + d) = d.
Proof. intros. unfold hexdig_value. replace (_ && _) with true by blia. lia. Qed.

Lemma maybe_octet_digits h d u :
  0 <= h <= 2 -> 0 <= d <= 9 -> 0 <= u <= 9 -> 100 * h + 10 * d + u <= 255 ->
  let w := 256 * h + 16 * d + u in maybe_octet (w / 256) (w mod 256) = true.
Proof.
  intros Hh Hd Hu Hv w. unfold maybe_octet.
  replace (w / 256 * 256 + w mod 256) with w by (subst w; zdiv).
  rewrite wrap_small by (subst w; lia).
  rewrite !land_15, shiftr_div by lia.
  replace (w / 2 ^ 4 mod 16) with d by (subst w; zdiv).
  replace (w mod 16) with u by (subst w; zdiv).
  test_false (9 <? d). test_false (9 <? u).
  replace (0x255 <? w) with false by (subst w; blia). done.
Qed.

(** A decimal octet is a hexadecimal field that passes [maybe_octet]. *)
Lemma octet_h16 v :
  is_byte v ->
  exists w, h16 (ipv4_address.write v) w /\ maybe_octet (w / 256) (w mod 256) = true.
Proof.
  intros H. pose proof (ipv4_address.write_length v H) as Hl.
  pose proof (ipv4_address.write_digits v H) as Hd.
  exists (hexval 0 (ipv4_address.write v)). split.
  { split; [lia|]. split; [|done]. refine (List.Forall_impl _ _ Hd).
    intros ch Hc%ipv4_address.is_digit_spec. unfold is_hex, hexdig_value.
    replace (_ && _) with true by blia. lia. }
  unfold is_byte in H.
  destruct (ipv4_address.octet_digits v H)
    as [?|[(d & u & ? & ? & ->)|(h & d & u & ? & ? & ? & ->)]];
    [rewrite ipv4_address.write_1 by lia
    |rewrite ipv4_address.write_2 by lia
    |rewrite ipv4_address.write_3 by lia];
    cbn [hexval fold_left]; rewrite !hexdig_digit by lia.
  - pose proof (maybe_octet_digits 0 0 v) as E. cbn zeta in E.
    replace (256 * 0 + 16 * 0 + v) with (16 * 0 + v) in E by lia. apply E; lia.
  - pose proof (maybe_octet_digits 0 d u) as E. cbn zeta in E.
    replace (256 * 0 + 16 * d + u) with (16 * (16 * 0 + d) + u) in E by lia.
    apply E; lia.
  - pose proof (maybe_octet_digits h d u) as E. cbn zeta in E.
    replace (256 * h + 16 * d + u) with (16 * (16 * (16 * 0 + h) + d) + u) in E by lia.
    apply E; lia.
Qed.

(** An IPv4 text starts with an octet and a dot. *)
Lemma v4_text_split s a :
  ipv4_address.parse_ipv4_address s = Ok a ->
  exists tok w rest, s = tok ++ ipv4_address.dot :: rest /\ h16 tok w
    /\ maybe_octet (w / 256) (w mod 256) = true.
Proof.
  intros (bs & (H0 & _) & -> & _)%ipv4_address.parse_inv.
  destruct (octet_h16 _ H0) as (w & Hw & Ho). unfold ipv4_address.print_bytes.
  cbn [app]. eauto 10.
Qed.

Lemma step_v4 st ws w rest a :
  it st = ipv4_address.dot :: rest ->
  bytes st = buf (flat (ws ++ [w])) -> n st = 7 - Z.of_nat (length ws) -> 1 <= n st ->
  b st <> -1 \/ n st <= 1 -> maybe_octet (w / 256) (w mod 256) = true ->
  ipv4_address.parse_ipv4_address (prev st) = Ok a ->
  parse_step st =
    Ok (false, pst [] (n st - 1) (b st) (c st) (prev st) (buf (flat (ws ++ v4_words a)))).
Proof.
  intros Hi. intros. unfold parse_step. rewrite Hi.
  change (ipv4_address.dot =? colon) with false. rewrite Z.eqb_refl.
  by apply take_v4_store with (w := w).
Qed.

(** The state when the text is used up. *)
Definition ended (n0 b0 : Z) (ws : list Z) (st' : pstate) : Prop :=
  it st' = [] /\ n st' = n0 /\ b st' = b0 /\ bytes st' = buf (flat ws).

(** A state at which the next field is expected: the first of a group, or a
    later one after a colon. *)
Definition expects (st : pstate) (tok rest : list char) : Prop :=
  (c st = false /\ it st = tok ++ rest) \/ (c st = true /\ it st = colon :: tok ++ rest).

Lemma step_expect st ws tok w rest :
  expects st tok rest ->
  bytes st = buf (flat ws) -> n st = 8 - Z.of_nat (length ws) -> 1 <= n st ->
  h16 tok w -> no_hex rest ->
  exists c',
  parse_step st =
    Ok (negb (n st - 1 =? 0),
        pst rest (n st - 1) (b st) c' (tok ++ rest) (buf (flat (ws ++ [w]))))
  /\ (n st <> 1 -> c' = true).
Proof.
  intros [[Hc Hi]|[Hc Hi]] ???? Hr; eexists; split;
    [eapply step_field; eauto| |eapply step_next; eauto|done].
  intros. by replace (n st - 1 =? 0) with false by blia.
Qed.

(** The last field of the text, hexadecimal or dotted. *)
Lemma run_last_h16 st ws tok w :
  expects st tok [] ->
  bytes st = buf (flat ws) -> n st = 8 - Z.of_nat (length ws) -> 1 <= n st ->
  b st <> -1 \/ n st = 1 -> h16 tok w ->
  reaches st (ended (n st - 1) (b st) (ws ++ [w])).
Proof.
  intros He Hb Hn H1 Hg Hh.
  destruct (step_expect st ws tok w [] He Hb Hn H1 Hh I) as (c' & E & _).
  destruct (n st - 1 =? 0) eqn:E1; cbn [negb] in E;
    [eapply reaches_break; [exact E|done]|].
  eapply reaches_continue; [apply E|]. eapply reaches_break.
  - unfold parse_step. cbn [it b].
    by replace (b st =? -1) with false by (destruct Hg; blia).
  - done.
Qed.

Lemma run_last_v4 st ws s a :
  expects st s [] ->
  bytes st = buf (flat ws) -> n st = 8 - Z.of_nat (length ws) -> 2 <= n st ->
  b st <> -1 \/ n st = 2 -> ipv4_address.parse_ipv4_address s = Ok a ->
  reaches st (ended (n st - 2) (b st) (ws ++ v4_words a)).
Proof.
  intros He Hb Hn H1 Hg Hp.
  destruct (v4_text_split s a Hp) as (tok & w & rest & -> & Hh & Ho).
  assert (He' : expects st tok (ipv4_address.dot :: rest)).
  { unfold expects in *. by rewrite app_nil_r in He. }
  destruct (step_expect st ws tok w _ He' Hb Hn ltac:(lia) Hh not_hex_dot)
    as (c' & E & _).
  replace (n st - 1 =? 0) with false in E by blia.
  eapply reaches_continue; [apply E|]. eapply reaches_break.
  - eapply step_v4; cbn; eauto with lia.
  - unfold ended; cbn. auto with lia.
Qed.

(** ** Groups of fields *)

Lemma Forall2_snoc_l {A B} (R : A -> B -> Prop) l x l' :
  Forall2 R (l ++ [x]) l' ->
  exists k y, l' = k ++ [y] /\ Forall2 R l k /\ R x y.
Proof.
  intros (k & k2 & H1 & H2 & ->)%Forall2_app_inv_l.
  inversion H2 as [|? y ? ? ? Hn]; subst. inversion Hn; subst. eauto.
Qed.

Lemma join_snoc_expects toks f :
  join (toks ++ [f]) = match toks with
                       | [] => f
                       | t :: toks => t ++ colons toks ++ colon :: f
                       end.
Proof.
  destruct toks as [|t toks]; [done|]. cbn [app].
  rewrite join_cons, colons_app. cbn. by rewrite app_nil_r.
Qed.

(** Reading [toks] brings the loop to the field [f] that follows them. *)
Lemma run_to_last toks ws' ws st f Q :
  Forall2 h16 toks ws' -> c st = false -> it st = join (toks ++ [f]) ->
  bytes st = buf (flat ws) -> n st = 8 - Z.of_nat (length ws) ->
  Z.of_nat (length ws') < n st ->
  (forall st1, expects st1 f [] -> n st1 = n st - Z.of_nat (length ws') ->
     b st1 = b st -> bytes st1 = buf (flat (ws ++ ws')) -> reaches st1 Q) ->
  reaches st Q.
Proof.
  intros Hh Hc Hi Hb Hn Hl Hk. rewrite join_snoc_expects in Hi.
  destruct Hh as [|tok w toks ws' Ht Hh].
  { apply Hk; [left; by rewrite app_nil_r|cbn; lia|done|by rewrite app_nil_r]. }
  cbn [length] in *.
  destruct (step_expect st ws tok w (colons toks ++ colon :: f)) as (c' & E & Hc');
    auto with lia; [by left|by apply no_hex_colons, not_hex_colon|].
  replace (n st - 1 =? 0) with false in E by blia. rewrite Hc' in E by lia.
  eapply reaches_continue; [apply E|].
  apply (run_fields toks ws' (ws ++ [w]) _ (colon :: f)); cbn;
    rewrite ?length_app; cbn; auto using not_hex_colon with lia.
  intros p _. apply Hk; cbn; [right; by rewrite app_nil_r|lia|done|].
  by rewrite <- app_assoc.
Qed.

Lemma snoc_cases {A} (l : list A) : l = [] \/ exists k x, l = k ++ [x].
Proof.
  destruct l as [|y l]; [by left|right].
  destruct (@exists_last A (y :: l)) as (k & x & ->); eauto.
Qed.

(** A whole group, with its optional dotted tail, to the end of the text. *)
Lemma run_group toks ws' tl wl ws st :
  Forall2 h16 toks ws' -> v4_tail tl wl ->
  c st = false -> it st = join (toks ++ tl) ->
  bytes st = buf (flat ws) -> n st = 8 - Z.of_nat (length ws) -> 1 <= n st ->
  let k := Z.of_nat (length ws' + length wl) in
  k <= n st -> b st <> -1 \/ k = n st ->
  reaches st (ended (n st - k) (b st) (ws ++ ws' ++ wl)).
Proof.
  intros Hh Ht Hc Hi Hb Hn H1 k Hk Hg. subst k. destruct Ht as [|s a Hp].
  - rewrite app_nil_r in *. cbn [length] in *.
    destruct (snoc_cases toks) as [->|(l & f & ->)].
    { inversion Hh; subst. cbn in *. apply reaches_break with st.
      - unfold parse_step. rewrite Hi.
        by replace (b st =? -1) with false by (destruct Hg; blia).
      - unfold ended. rewrite app_nil_r. cbn. auto with lia. }
    apply Forall2_snoc_l in Hh as (wsl & w & -> & Hl & Hf).
    rewrite length_app in *. cbn [length] in *.
    apply (run_to_last l wsl ws st f); auto with lia.
    intros st1 He En Eb Ey. rewrite app_assoc.
    replace (n st - Z.of_nat (length wsl + 1 + 0)) with (n st1 - 1) by lia.
    rewrite <- Eb. apply run_last_h16 with f; rewrite ?length_app; auto with lia.
  - cbn [length v4_words] in *. apply (run_to_last toks ws' ws st s); auto with lia.
    intros st1 He En Eb Ey. rewrite app_assoc.
    replace (n st - Z.of_nat (length ws' + 2)) with (n st1 - 2) by lia.
    rewrite <- Eb. apply run_last_v4 with s; rewrite ?length_app; auto with lia.
Qed.

(** * Completeness *)

Lemma buf_gap_word ws :
  (length ws <= 7)%nat -> buf (flat ws) = buf (flat (ws ++ [0])).
Proof.
  intros H. rewrite flat_app. apply buf_gap. rewrite length_flat. lia.
Qed.

(** The first "::". *)
Lemma step_gap st rest :
  it st = colon :: colon :: rest -> b st = -1 ->
  parse_step st =
    Ok (negb (n st - 1 =? 0),
        pst rest (n st - 1) (n st - 1) (if n st - 1 =? 0 then c st else false)
          (prev st) (bytes st)).
Proof.
  intros Hi Hb. unfold parse_step. rewrite Hi, Hb, !Z.eqb_refl.
  by destruct (n st - 1 =? 0).
Qed.

(** The fields before "::" and the gap itself.  Seven fields leave nothing to
    read, so the loop breaks at once. *)
Lemma run_gap_start toks ws rest (Q : pstate -> Prop) :
  Forall2 h16 toks ws -> (length ws <= 7)%nat ->
  let m := 7 - Z.of_nat (length ws) in
  (forall c' p, let st := pst rest m m c' p (buf (flat (ws ++ [0]))) in
     (m <> 0 -> c' = false -> reaches st Q) /\ (m = 0 -> Q st)) ->
  reaches (parse_init (join toks ++ colon :: colon :: rest)) Q.
Proof.
  intros Hh Hl m Hk.
  assert (Hgap : forall st, it st = colon :: colon :: rest -> b st = -1 ->
    n st = m + 1 -> bytes st = buf (flat ws) -> reaches st Q).
  { intros st Hi Hb Hn Hy. pose proof (step_gap st rest Hi Hb) as E.
    rewrite Hy, buf_gap_word in E by lia.
    replace (n st - 1) with m in E by lia.
    destruct (Hk (if m =? 0 then c st else false) (prev st)) as [H1 H2].
    destruct (Z.eqb_spec m 0) as [E0|E0].
    - eapply reaches_break; [exact E|auto].
    - eapply reaches_continue; [exact E|auto]. }
  destruct Hh as [|tok w toks ws Ht Hh]; [by apply Hgap|].
  cbn [length] in *. rewrite join_cons, <- app_assoc.
  eapply reaches_continue.
  { rewrite (step_field _ [] tok w (colons toks ++ colon :: colon :: rest));
      [reflexivity|done|done|done|done|cbn; lia|done|].
    by apply no_hex_colons, not_hex_colon. }
  apply (run_fields toks ws [w] _ (colon :: colon :: rest));
    cbn; auto using not_hex_colon with lia.
  intros p _. apply Hgap; cbn; try done. lia.
Qed.

(** Every string of the grammar drives the loop to a state that finishes with
    the words it denotes. *)
Lemma text_runs s ws :
  ipv6_text s ws ->
  reaches (parse_init s) (fun st => parse_finish st = Ok (of_bytes (flat ws))).
Proof.
  intros [toks ws0 tl wl Hh Ht Hl|toks1 ws1 toks2 ws2 tl wl H1 H2 Ht Hl].
  - destruct (run_group toks ws0 tl wl [] (parse_init (join (toks ++ tl))))
      as (st & Hr & Hi & Hn & Hb & Hy); cbn; auto with lia.
    exists st. split; [done|]. unfold parse_finish. cbn [app] in Hy.
    rewrite Hi, Hb, Hy. cbn. by rewrite buf_full by (rewrite length_flat, length_app; lia).
  - cbn [app]. apply run_gap_start with ws1; [done|lia|]. intros c' p st.
    assert (Hend : forall st', it st' = [] -> b st' = 7 - Z.of_nat (length ws1) ->
      n st' = 7 - Z.of_nat (length ws1) - Z.of_nat (length ws2 + length wl) ->
      bytes st' = buf (flat ((ws1 ++ [0]) ++ ws2 ++ wl)) ->
      parse_finish st' = Ok (of_bytes (flat
        (ws1 ++ replicate (8 - (length ws1 + length ws2 + length wl)) 0 ++ ws2 ++ wl)))).
    { intros st' Hi Hb Hn Hy. rewrite <- app_assoc in Hy.
      rewrite (finish_gap st' ws1 (ws2 ++ wl)); rewrite ?length_app; auto with lia.
      by rewrite Nat.add_assoc. }
    split.
    + intros Hm ->. subst st.
      destruct (run_group toks2 ws2 tl wl (ws1 ++ [0])
        (pst (join (toks2 ++ tl)) (7 - Z.of_nat (length ws1))
             (7 - Z.of_nat (length ws1)) false p (buf (flat (ws1 ++ [0])))))
        as (st & Hr & Hi & Hn & Hb & Hy); cbn; rewrite ?length_app; cbn; auto with lia.
      exists st. split; [done|]. apply Hend; auto.
    + intros Hm. destruct ws2; [|cbn in *; lia].
      destruct Ht; [|cbn in *; lia]. inversion H2; subst.
      apply Hend; cbn; rewrite ?app_nil_r; auto with lia.
Qed.

(** * Soundness *)

(** What has been read when the loop is at its head: nothing; some fields;
    some fields and "::"; or fields on both sides of it.  [prev] is the start
    of the last field. *)
Inductive at_head (s : list char) : pstate -> Prop :=
| head_start : at_head s (parse_init s)
| head_fields toks ws tok w rest :
    Forall2 h16 toks ws -> h16 tok w -> (length ws <= 6)%nat ->
    s = join (toks ++ [tok]) ++ rest ->
    at_head s (pst rest (7 - Z.of_nat (length ws)) (-1) true (tok ++ rest)
                 (buf (flat (ws ++ [w]))))
| head_gap toks ws rest p :
    Forall2 h16 toks ws -> (length ws <= 6)%nat ->
    s = join toks ++ colon :: colon :: rest -> In colon p ->
    at_head s (pst rest (7 - Z.of_nat (length ws)) (7 - Z.of_nat (length ws)) false p
                 (buf (flat (ws ++ [0]))))
| head_tail toks1 ws1 toks2 ws2 tok w rest :
    Forall2 h16 toks1 ws1 -> Forall2 h16 toks2 ws2 -> h16 tok w ->
    (length ws1 + length ws2 <= 5)%nat ->
    s = join toks1 ++ colon :: colon :: join (toks2 ++ [tok]) ++ rest ->
    at_head s (pst rest (6 - Z.of_nat (length ws1 + length ws2))
                 (7 - Z.of_nat (length ws1)) true (tok ++ rest)
                 (buf (flat ((ws1 ++ 0 :: ws2) ++ [w])))).

(** What has been read when the loop breaks. *)
Inductive at_break (s : list char) : pstate -> Prop :=
| break_full toks ws tl wl st :
    Forall2 h16 toks ws -> v4_tail tl wl -> (length ws + length wl = 8)%nat ->
    s = join (toks ++ tl) ++ it st -> b st = -1 -> bytes st = flat (ws ++ wl) ->
    at_break s st
| break_gap toks1 ws1 toks2 ws2 tl wl st :
    Forall2 h16 toks1 ws1 -> Forall2 h16 toks2 ws2 -> v4_tail tl wl ->
    (length ws1 + length ws2 + length wl <= 7)%nat ->
    s = join toks1 ++ colon :: colon :: join (toks2 ++ tl) ++ it st ->
    b st = 7 - Z.of_nat (length ws1) ->
    n st = b st - Z.of_nat (length ws2 + length wl) ->
    bytes st = buf (flat (ws1 ++ 0 :: ws2 ++ wl)) ->
    at_break s st.

Lemma at_break_finish s st :
  at_break s st ->
  parse_finish st = Err invalid_argument \/
  exists ws, ipv6_text s ws /\ parse_finish st = Ok (of_bytes (flat ws)).
Proof.
  intros [toks ws tl wl st' H1 H2 Hl Hs Hb Hy
         |toks1 ws1 toks2 ws2 tl wl st' H1 H2 H3 Hl Hs Hb Hn Hy];
    (destruct (it st') as [|ch r] eqn:Ei; [|left; unfold parse_finish; by rewrite Ei]);
    right; rewrite ?app_nil_r in Hs; subst s.
  - exists (ws ++ wl). split; [by constructor|].
    unfold parse_finish. by rewrite Ei, Hb, Hy.
  - eexists. split; [by apply text_gap|].
    rewrite (finish_gap st' ws1 (ws2 ++ wl)); rewrite ?length_app; auto with lia.
    by rewrite Nat.add_assoc.
Qed.

(** What a step owes the loop. *)
Definition step_ok (s : list char) (st : pstate) : Prop :=
  match parse_step st with
  | Ok (true, st') => at_head s st' /\ n st' = n st - 1
  | Ok (false, st') => at_break s st'
  | Err e => e = invalid_argument
  | Fault => False
  end.

Lemma colon_not_v4 p a : ipv4_address.parse_ipv4_address p = Ok a -> ~ In colon p.
Proof.
  intros H%v4_text_chars. rewrite List.Forall_forall in H.
  intros Hc%H. done.
Qed.

(** The two branches that read a field, from the state the last word left. *)
Lemma take_h16_cases st ws it' c' :
  bytes st = buf (flat ws) -> n st = 8 - Z.of_nat (length ws) -> 1 <= n st ->
  take_h16 st it' c' = Err invalid_argument \/
  exists tok w rest, h16 tok w /\ it' = tok ++ rest /\
    take_h16 st it' c' =
      Ok (negb (n st - 1 =? 0),
          pst rest (n st - 1) (b st) (if n st - 1 =? 0 then c st else c') (tok ++ rest)
            (buf (flat (ws ++ [w])))).
Proof.
  intros Hb Hn Hn1.
  destruct (parse_h16 it') as [[[hi lo] rest]|] eqn:E;
    [right|left; unfold take_h16; by rewrite E].
  pose proof E as (tok & w & Hh & -> & -> & ->)%parse_h16_inv.
  exists tok, w, rest. split; [done|]. split; [done|]. by apply take_h16_store.
Qed.

(** The dotted branch fails or replaces the last word. *)
Lemma take_v4_cases st ws w :
  bytes st = buf (flat (ws ++ [w])) -> n st = 7 - Z.of_nat (length ws) -> 1 <= n st ->
  (take_v4 st = Err invalid_argument) \/
  exists a, ipv4_address.parse_ipv4_address (prev st) = Ok a /\
    (b st <> -1 \/ n st <= 1) /\
    take_v4 st =
      Ok (false, pst [] (n st - 1) (b st) (c st) (prev st) (buf (flat (ws ++ v4_words a)))).
Proof.
  intros Hb Hn Hn1.
  destruct ((b st =? -1) && (1 <? n st)) eqn:Eg; [left; unfold take_v4; by rewrite Eg|].
  assert (Hg : b st <> -1 \/ n st <= 1) by (apply andb_false_iff in Eg; lia).
  assert (Hlen : length (flat ws) = (2 * length ws)%nat) by apply length_flat.
  assert (H0 : arr_get (bytes st) (2 * (7 - n st)) = Ok (w / 256)).
  { rewrite Hb, flat_app. unfold buf. rewrite <- app_assoc. cbn [flat map concat app].
    apply arr_get_at. lia. }
  assert (H1 : arr_get (bytes st) (2 * (7 - n st) + 1) = Ok (w mod 256)).
  { rewrite Hb, flat_app. unfold buf. rewrite <- app_assoc. cbn [flat map concat app].
    replace (2 * (7 - n st)) with (Z.of_nat (length (flat ws))) by lia. apply get_snd. }
  destruct (maybe_octet (w / 256) (w mod 256)) eqn:Eo.
  - destruct (ipv4_address.parse_ipv4_address (prev st)) as [a|e|] eqn:Ep.
    + right. exists a. split; [done|]. split; [done|]. by eapply take_v4_store.
    + left. unfold take_v4. rewrite Eg, H0. cbn [res_bind]. rewrite H1. cbn [res_bind].
      rewrite Eo, Ep. cbn. by rewrite (ipv4_address.parse_err _ _ Ep).
    + by destruct (ipv4_address.parse_not_fault (prev st)).
  - left. unfold take_v4. rewrite Eg, H0. cbn [res_bind]. rewrite H1. cbn [res_bind].
    by rewrite Eo.
Qed.

Lemma join_snoc l tok f rest :
  join (l ++ [tok]) ++ colon :: f ++ rest = join ((l ++ [tok]) ++ [f]) ++ rest.
Proof.
  rewrite !join_snoc_expects. destruct l as [|t l]; cbn [app].
  - cbn. by rewrite <- app_assoc.
  - rewrite colons_app. cbn. rewrite ?app_nil_r. by repeat (rewrite <- !app_assoc; cbn).
Qed.

Lemma join_last_app l f rest : join (l ++ [f ++ rest]) = join (l ++ [f]) ++ rest.
Proof.
  rewrite !join_snoc_expects. destruct l as [|t l]; [done|].
  by rewrite <- !app_assoc, <- app_comm_cons.
Qed.

Lemma Forall2_snoc {A B} (R : A -> B -> Prop) l l' x y :
  Forall2 R l l' -> R x y -> Forall2 R (l ++ [x]) (l' ++ [y]).
Proof. intros. apply List.Forall2_app; auto. Qed.

(** The tests of a step, one after the other. *)
Ltac test_char x :=
  match goal with
  | |- context [?ch =? x] => destruct (Z.eqb_spec ch x) as [->|?Hne]
  end.

Ltac split_text h t :=
  match goal with
  | |- context [match ?l with [] => _ | _ :: _ => _ end] => destruct l as [|h t]
  end.

Ltac step_cases ch rest1 ch2 rest2 :=
  unfold step_ok, parse_step; cbn [it b c n prev bytes parse_init];
  split_text ch rest1;
  [|test_char colon;
    [split_text ch2 rest2; [done|test_char colon]
    |test_char ipv4_address.dot]].

Lemma step_start s : step_ok s (parse_init s).
Proof.
  step_cases ch rest1 ch2 rest2; try done.
  - cbn. split; [|done].
    apply (head_gap _ [] []); cbn; auto with lia.
  - cbn [negb andb Z.eqb].
    destruct (take_h16_cases (parse_init (ch :: rest1)) [] (ch :: rest1) true)
      as [->|(tok & w & rest & Hh & E & ->)]; try done.
    split; [|done]. rewrite E at 1. by apply (head_fields _ [] []); cbn; auto with lia.
Qed.

Lemma step_head_fields s toks ws tok w rest :
  Forall2 h16 toks ws -> h16 tok w -> (length ws <= 6)%nat ->
  s = join (toks ++ [tok]) ++ rest ->
  step_ok s (pst rest (7 - Z.of_nat (length ws)) (-1) true (tok ++ rest)
               (buf (flat (ws ++ [w])))).
Proof.
  intros Hh Ht Hl ->. pose proof (Forall2_snoc _ _ _ _ _ Hh Ht) as Hht.
  assert (Hlen : length (ws ++ [w]) = S (length ws)) by (rewrite length_app; cbn; lia).
  step_cases ch rest1 ch2 rest2; try done.
  - cbn [Z.eqb]. rewrite buf_gap_word by lia.
    destruct (Z.eqb_spec (7 - Z.of_nat (length ws) - 1) 0) as [E|E].
    + eapply (break_gap _ (toks ++ [tok]) (ws ++ [w]) [] [] [] []);
        cbn; rewrite ?Hlen; auto using v4_tail with lia.
    + split; [|done].
      replace (7 - Z.of_nat (length ws) - 1) with (7 - Z.of_nat (length (ws ++ [w]))) by lia.
      apply (head_gap _ (toks ++ [tok]) (ws ++ [w])); rewrite ?Hlen; auto with lia.
      apply in_app_iff. right. cbn. auto.
  - edestruct take_h16_cases as [->|(tok2 & w2 & rest & Hh2 & E & ->)];
      [reflexivity|cbn; lia|cbn; lia|done|].
    cbn [n b c]. rewrite E, join_snoc.
    destruct (Z.eqb_spec (7 - Z.of_nat (length ws) - 1) 0) as [E0|E0]; cbn [negb].
    + eapply (break_full _ ((toks ++ [tok]) ++ [tok2]) ((ws ++ [w]) ++ [w2]) [] []);
        cbn; rewrite ?app_nil_r, ?length_app; cbn;
        auto using Forall2_snoc, v4_tail with lia.
      apply buf_full. rewrite length_flat, !length_app. cbn. lia.
    + split; [|done].
      replace (7 - Z.of_nat (length ws) - 1) with (7 - Z.of_nat (length (ws ++ [w]))) by lia.
      apply (head_fields _ (toks ++ [tok]) (ws ++ [w])); auto with lia.
  - edestruct (take_v4_cases (pst (ipv4_address.dot :: rest1) (7 - Z.of_nat (length ws))
      (-1) true (tok ++ ipv4_address.dot :: rest1) (buf (flat (ws ++ [w])))))
      as [->|(a & Hp & Hg & ->)]; [reflexivity|cbn; lia|cbn; lia|done|].
    cbn [prev b n c] in *. rewrite <- join_last_app.
    eapply (break_full _ toks ws [_] (v4_words a)); cbn; rewrite ?app_nil_r;
      eauto using v4_tail with lia.
    apply buf_full. rewrite length_flat, length_app. cbn. lia.
Qed.

Lemma step_head_gap s toks ws rest p :
  Forall2 h16 toks ws -> (length ws <= 6)%nat ->
  s = join toks ++ colon :: colon :: rest -> In colon p ->
  step_ok s (pst rest (7 - Z.of_nat (length ws)) (7 - Z.of_nat (length ws)) false p
               (buf (flat (ws ++ [0])))).
Proof.
  intros Hh Hl -> Hp.
  assert (Hlen : length (ws ++ [0]) = S (length ws)) by (rewrite length_app; cbn; lia).
  assert (Hb : (7 - Z.of_nat (length ws) =? -1) = false) by blia.
  step_cases ch rest1 ch2 rest2; rewrite ?Hb; try done.
  - eapply (break_gap _ toks ws [] [] [] []); cbn; auto using v4_tail with lia.
  - edestruct (take_v4_cases (pst (ipv4_address.dot :: rest1) (7 - Z.of_nat (length ws))
      (7 - Z.of_nat (length ws)) false p (buf (flat (ws ++ [0])))))
      as [->|(a & Ha & _)]; [reflexivity|cbn; lia|cbn; lia|done|].
    by destruct (colon_not_v4 _ _ Ha).
  - cbn [negb andb]. destruct (hexdig_value ch <? 0).
    { eapply (break_gap _ toks ws [] [] [] []); cbn; auto using v4_tail with lia. }
    edestruct take_h16_cases as [->|(tok & w & rest & Hh2 & E & ->)];
      [reflexivity|cbn; lia|cbn; lia|done|].
    cbn [n b c]. rewrite E, <- app_assoc.
    destruct (Z.eqb_spec (7 - Z.of_nat (length ws) - 1) 0) as [E0|E0]; cbn [negb].
    + eapply (break_gap _ toks ws [tok] [w] [] []); cbn; auto using v4_tail with lia.
    + split; [|done].
      replace (7 - Z.of_nat (length ws) - 1)
        with (6 - Z.of_nat (length ws + length (@nil Z))) by (cbn; lia).
      rewrite app_assoc.
      apply (head_tail _ toks ws [] []); cbn; auto with lia.
Qed.

Lemma step_head_tail s toks1 ws1 toks2 ws2 tok w rest :
  Forall2 h16 toks1 ws1 -> Forall2 h16 toks2 ws2 -> h16 tok w ->
  (length ws1 + length ws2 <= 5)%nat ->
  s = join toks1 ++ colon :: colon :: join (toks2 ++ [tok]) ++ rest ->
  step_ok s (pst rest (6 - Z.of_nat (length ws1 + length ws2))
               (7 - Z.of_nat (length ws1)) true (tok ++ rest)
               (buf (flat ((ws1 ++ 0 :: ws2) ++ [w])))).
Proof.
  intros Hh1 Hh2 Ht Hl ->. pose proof (Forall2_snoc _ _ _ _ _ Hh2 Ht) as Hht.
  assert (Hlen : length (ws2 ++ [w]) = S (length ws2)) by (rewrite length_app; cbn; lia).
  assert (Hlen' : length ((ws1 ++ 0 :: ws2) ++ [w]) = (length ws1 + length ws2 + 2)%nat)
    by (rewrite !length_app; cbn; lia).
  assert (Hlen0 : length (ws1 ++ 0 :: ws2) = (length ws1 + length ws2 + 1)%nat)
    by (rewrite !length_app; cbn; lia).
  assert (Hb : (7 - Z.of_nat (length ws1) =? -1) = false) by blia.
  assert (Hflat : (ws1 ++ 0 :: ws2) ++ [w] = ws1 ++ 0 :: (ws2 ++ [w])).
  { by rewrite <- app_assoc, <- app_comm_cons. }
  assert (Hend : forall rest' p, at_break
    (join toks1 ++ colon :: colon :: join (toks2 ++ [tok]) ++ rest')
    (pst rest' (6 - Z.of_nat (length ws1 + length ws2)) (7 - Z.of_nat (length ws1)) true
       p (buf (flat ((ws1 ++ 0 :: ws2) ++ [w]))))).
  { intros rest' p. rewrite Hflat.
    eapply (break_gap _ toks1 ws1 (toks2 ++ [tok]) (ws2 ++ [w]) [] []);
      cbn; rewrite ?app_nil_r, ?Hlen; auto using v4_tail with lia. }
  step_cases ch rest1 ch2 rest2; rewrite ?Hb; try done.
  - apply Hend.
  - edestruct take_h16_cases as [->|(tok2 & w2 & rest & Hh3 & E & ->)];
      [reflexivity|cbn; lia|cbn; lia|done|].
    cbn [n b c]. rewrite E, join_snoc.
    destruct (Z.eqb_spec (6 - Z.of_nat (length ws1 + length ws2) - 1) 0) as [E0|E0]; cbn [negb].
    + eapply (break_gap _ toks1 ws1 ((toks2 ++ [tok]) ++ [tok2]) ((ws2 ++ [w]) ++ [w2]) [] []);
        cbn; rewrite ?app_nil_r, ?length_app; cbn;
        auto using Forall2_snoc, v4_tail with lia.
      by rewrite Hflat, <- app_assoc, <- app_comm_cons.
    + split; [|done]. rewrite Hflat.
      replace (6 - Z.of_nat (length ws1 + length ws2) - 1)
        with (6 - Z.of_nat (length ws1 + length (ws2 ++ [w]))) by lia.
      apply (head_tail _ toks1 ws1 (toks2 ++ [tok]) (ws2 ++ [w])); auto with lia.
  - edestruct (take_v4_cases (pst (ipv4_address.dot :: rest1)
      (6 - Z.of_nat (length ws1 + length ws2)) (7 - Z.of_nat (length ws1)) true
      (tok ++ ipv4_address.dot :: rest1) (buf (flat ((ws1 ++ 0 :: ws2) ++ [w])))))
      as [->|(a & Hp & Hg & ->)]; [reflexivity|cbn; lia|cbn; lia|done|].
    cbn [prev b n c] in *. rewrite <- join_last_app.
    eapply (break_gap _ toks1 ws1 toks2 ws2 [_] (v4_words a)); cbn;
      rewrite ?app_nil_r; eauto using v4_tail with lia.
    by rewrite <- app_assoc, <- app_comm_cons.
  - cbn [negb andb]. destruct (hexdig_value ch <? 0); [apply Hend|done].
Qed.

Lemma at_head_step s st : at_head s st -> step_ok s st /\ 1 <= n st <= 8.
Proof.
  intros []; cbn [n parse_init]; (split; [|lia]);
    eauto using step_start, step_head_fields, step_head_gap, step_head_tail.
Qed.

(** The loop ends within its bound, in a state that accounts for the text. *)
Lemma parse_loop_sound f s st :
  at_head s st -> n st <= Z.of_nat f ->
  match parse_loop f st with
  | Ok st' => at_break s st'
  | Err e => e = invalid_argument
  | Fault => False
  end.
Proof.
  revert st. induction f as [|f IH]; intros st Hh Hf;
    destruct (at_head_step s st Hh) as [Hs Hn]; [lia|].
  cbn [parse_loop]. unfold step_ok in Hs.
  destruct (parse_step st) as [[[] st']|e|]; cbn [res_bind]; try done.
  destruct Hs as [Hs E]. apply IH; [done|lia].
Qed.

Lemma parse_sound s :
  parse_ipv6_address s = Err invalid_argument \/
  exists ws, ipv6_text s ws /\ parse_ipv6_address s = Ok (of_bytes (flat ws)).
Proof.
  unfold parse_ipv6_address.
  pose proof (parse_loop_sound loop_bound s _ (head_start s) ltac:(unfold loop_bound; cbn; lia)) as H.
  destruct (parse_loop loop_bound (parse_init s)) as [st|e|]; cbn [res_bind].
  - by apply at_break_finish.
  - left. by subst.
  - done.
Qed.

Lemma parse_loop_mono f f' st r :
  parse_loop f st = r -> r <> Fault -> (f <= f')%nat -> parse_loop f' st = r.
Proof.
  revert f' st. induction f as [|f IH]; intros f' st Hr Hn Hf; [by subst|].
  destruct f' as [|f']; [lia|]. cbn [parse_loop] in *.
  destruct (parse_step st) as [[[] st']|e|]; cbn [res_bind] in *; try done.
  apply IH; auto with lia.
Qed.

Lemma parse_complete s ws :
  ipv6_text s ws -> parse_ipv6_address s = Ok (of_bytes (flat ws)).
Proof.
  intros Ht. destruct (text_runs s ws Ht) as (st & (f & Hf) & Hfin).
  pose proof (parse_loop_sound loop_bound s _ (head_start s) ltac:(unfold loop_bound; cbn; lia)) as H.
  unfold parse_ipv6_address.
  destruct (parse_loop loop_bound (parse_init s)) as [st'|e|] eqn:E; cbn [res_bind].
  - pose proof (parse_loop_mono _ (Nat.max f loop_bound) _ _ E ltac:(done) ltac:(lia)) as E1.
    pose proof (parse_loop_mono _ (Nat.max f loop_bound) _ _ Hf ltac:(done) ltac:(lia)) as E2.
    congruence.
  - pose proof (parse_loop_mono _ (Nat.max f loop_bound) _ _ E ltac:(done) ltac:(lia)) as E1.
    pose proof (parse_loop_mono _ (Nat.max f loop_bound) _ _ Hf ltac:(done) ltac:(lia)) as E2.
    congruence.
  - done.
Qed.

(** C8: [parse_ipv6_address] decides the documented grammar: it succeeds
    exactly on the strings of [ipv6_text] (eight groups, or fewer around one
    "::", with an optional dotted IPv4 tail), and the address it stores is the
    network-byte-order image of the eight words the string denotes. *)
Theorem parse_ipv6_address_grammar s a :
  parse_ipv6_address s = Ok a <-> exists ws, ipv6_text s ws /\ a = of_bytes (flat ws).
Proof.
  split.
  - intros E. destruct (parse_sound s) as [E'|(ws & Ht & E')]; [congruence|].
    exists ws. split; [done|]. congruence.
  - intros (ws & Ht & ->). by apply parse_complete.
Qed.

(** on every input, of any length and content, [parse_ipv6_address]
    terminates within its loop bound, never reads or writes outside the
    16-byte buffer, and a rejected input is reported as [invalid_argument];
    an accepted one yields 16 bytes. *)
Theorem parse_ipv6_address_safe s :
  parse_ipv6_address s = Err invalid_argument
  \/ exists a, parse_ipv6_address s = Ok a /\ length (to_bytes a) = 16%nat.
Proof.
  destruct (parse_sound s) as [E|(ws & Ht & E)]; [by left|right].
  eexists. split; [exact E|]. cbn. rewrite length_flat.
  destruct Ht; rewrite ?length_app, ?length_replicate; lia.
Qed.

(** * The printer *)

(** The words of a byte sequence. *)
Fixpoint pairs (l : list Z) : list Z :=
  match l with
  | x :: y :: l => x * 256 + y :: pairs l
  | _ => []
  end.

Definition is_word (w : Z) : Prop := 0 <= w < 65536.

Lemma flat_pairs k l :
  length l = (2 * k)%nat -> Forall is_byte l ->
  flat (pairs l) = l /\ Forall is_word (pairs l) /\ length (pairs l) = k.
Proof.
  revert l. induction k as [|k IH]; intros l Hl Hb; [by destruct l|].
  destruct l as [|x [|y l]]; cbn in Hl; try lia.
  apply List.Forall_cons_iff in Hb as [Hx [Hy Hb]%List.Forall_cons_iff].
  destruct (IH l ltac:(lia) Hb) as (E & Hw & Hk). unfold is_byte in *.
  cbn [pairs]. rewrite flat_cons, E. repeat split; cbn; [|constructor|lia].
  - repeat f_equal; zdiv.
  - unfold is_word. lia.
  - done.
Qed.

Lemma word_at_flat w ws : is_word w -> word_at (flat (w :: ws)) = w.
Proof. unfold is_word. intros. cbn. rewrite wrap_small; zdiv. Qed.

(** The hexadecimal form of a word is a field with its value. *)
Lemma hexdig_dig d : 0 <= d <= 15 -> hexdig_value (dig d) = d.
Proof.
  intros H. assert (Hd : In d (map Z.of_nat (seq 0 16))).
  { apply in_map_iff. exists (Z.to_nat d). split; [lia|]. apply in_seq. lia. }
  cbn in Hd. repeat destruct Hd as [<-|Hd]; done.
Qed.

Lemma print_hex_h16 w : is_word w -> h16 (print_hex w) w.
Proof.
  unfold is_word. intros H. unfold print_hex, h16, hexval, is_hex.
  change 0x0fff with (Z.ones 12). change 0x0ff with (Z.ones 8). change 0x0f with (Z.ones 4).
  rewrite !Z.land_ones, !shiftr_div by lia.
  repeat bdestruct_if; (split; [cbn; lia|]); split;
    repeat constructor; cbn [fold_left]; rewrite ?hexdig_dig by zdiv; zdiv.
Qed.

Lemma print_hex_fields ws : Forall is_word ws -> Forall2 h16 (map print_hex ws) ws.
Proof. induction 1; cbn; auto using print_hex_h16. Qed.

(** ** The longest run of zero words *)

Fixpoint zrun (ws : list Z) : nat :=
  match ws with
  | w :: ws => if w =? 0 then S (zrun ws) else 0%nat
  | [] => 0%nat
  end.

Lemma count_zeroes_flat ws :
  Forall is_word ws -> count_zeroes (flat ws) = (2 * zrun ws)%nat.
Proof.
  induction 1 as [|w ws Hw _ IH]; [done|]. rewrite flat_cons. cbn [count_zeroes zrun].
  unfold is_word in Hw.
  replace (negb (w / 256 =? 0) || negb (w mod 256 =? 0)) with (negb (w =? 0)).
  - destruct (w =? 0); cbn [negb]; [|done]. rewrite IH. lia.
  - destruct (Z.eqb_spec w 0) as [->|Hn]; [done|]. symmetry. cbn.
    apply orb_true_iff. rewrite !negb_true_iff, !Z.eqb_neq. zdiv.
Qed.

(** [k] zero words from word [i] on. *)
Definition zero_run (ws : list Z) (i k : nat) : Prop :=
  forall j, (i <= j < i + k)%nat -> ws !! j = Some 0.

Lemma zrun_spec ws :
  (zrun ws <= length ws)%nat /\ zero_run ws 0 (zrun ws) /\ ws !! zrun ws <> Some 0.
Proof.
  unfold zero_run. induction ws as [|w ws (H1 & H2 & H3)]; cbn; [repeat split; [lia|lia|done]|].
  destruct (Z.eqb_spec w 0) as [->|Hn]; cbn; (split; [lia|]); split; try lia.
  - intros [|j] Hj; [done|]. apply H2. lia.
  - done.
  - congruence.
Qed.

(** The run found so far is a zero run, no run that starts before word [i] is
    longer, and of the longest ones it is the first. *)
Definition best_ok (ws : list Z) (i : nat) (best : Z * Z) : Prop :=
  exists p k : nat, snd best = Z.of_nat (2 * k) /\
    (k = 0%nat /\ fst best = -1 \/
     (0 < k)%nat /\ fst best = Z.of_nat (2 * p) /\ (p < i)%nat /\ zero_run ws p k) /\
    forall i' k', (i' < i)%nat -> zero_run ws i' k' ->
      (k' <= k)%nat /\ (k' = k -> (0 < k)%nat -> (p <= i')%nat).

Lemma best_ok_skip ws i best :
  best_ok ws i best -> ws !! i <> Some 0 -> best_ok ws (S i) best.
Proof.
  intros (p & k & Hl & Hp & Hm) Hn. exists p, k. split; [done|]. split.
  { destruct Hp as [?|(?&?&?&?)]; [by left|right]. repeat split; auto with lia. }
  intros i' k' Hi Hz. destruct (Nat.eq_dec i' i) as [->|]; [|apply Hm; auto with lia].
  destruct k' as [|k']; [split; lia|]. destruct Hn. apply Hz. lia.
Qed.

Lemma best_ok_run ws i m best :
  best_ok ws i best -> (0 < m)%nat -> zero_run ws i m -> ws !! (i + m)%nat <> Some 0 ->
  best_ok ws (i + m)
    (if snd best <? Z.of_nat (2 * m) then (Z.of_nat (2 * i), Z.of_nat (2 * m)) else best).
Proof.
  intros (p & k & Hl & Hp & Hm) Hpos Hz Hn.
  assert (Hin : forall i' k', (i <= i' < i + m)%nat -> zero_run ws i' k' -> (k' <= i + m - i')%nat).
  { intros i' k' Hi Hz'. destruct (Nat.le_gt_cases k' (i + m - i')); [done|].
    destruct Hn. apply Hz'. lia. }
  destruct (Z.ltb_spec (snd best) (Z.of_nat (2 * m))); cbn [fst snd].
  - exists i, m. split; [done|]. split; [right; repeat split; auto with lia|].
    intros i' k' Hi Hz'. destruct (Nat.lt_ge_cases i' i) as [Hlt|Hge].
    + destruct (Hm i' k' Hlt Hz'). split; lia.
    + pose proof (Hin i' k' ltac:(lia) Hz'). split; lia.
  - exists p, k. split; [done|]. split.
    { destruct Hp as [?|(?&?&?&?)]; [by left|right]. repeat split; auto with lia. }
    intros i' k' Hi Hz'. destruct (Nat.lt_ge_cases i' i) as [Hlt|Hge]; [by apply Hm|].
    pose proof (Hin i' k' ltac:(lia) Hz').
    destruct Hp as [[? ?]|(?&?&?&?)]; split; lia.
Qed.

Lemma drop_flat k ws : drop (2 * k) (flat ws) = flat (drop k ws).
Proof.
  revert ws. induction k as [|k IH]; intros ws; [done|].
  destruct ws as [|w ws]; [by rewrite !drop_nil|].
  replace (2 * S k)%nat with (S (S (2 * k))) by lia. rewrite flat_cons. cbn [drop]. apply IH.
Qed.

Lemma longest_run_ok fuel ws i best :
  Forall is_word ws -> (i <= length ws)%nat -> (length ws - i < fuel)%nat ->
  best_ok ws i best ->
  exists r, longest_run fuel (Z.of_nat (2 * i)) (flat (drop i ws)) best = Ok r
    /\ best_ok ws (length ws) r.
Proof.
  intros Hw. revert i best. induction fuel as [|fuel IH]; intros i best Hi Hf Hb; [lia|].
  cbn [longest_run].
  pose proof (length_flat (drop i ws)) as Hl. rewrite length_drop in Hl.
  destruct (flat (drop i ws)) as [|x l] eqn:Ef; cbn [length] in Hl.
  { exists best. by replace (length ws) with i by lia. }
  rewrite <- Ef, count_zeroes_flat by (by apply Forall_drop).
  destruct (zrun_spec (drop i ws)) as (H1 & H2 & H3).
  rewrite length_drop in H1. rewrite lookup_drop in H3.
  destruct (zrun (drop i ws)) as [|m] eqn:Em.
  - change (2 * 0 =? 0)%nat with true. change 2%nat with (2 * 1)%nat at 2.
    rewrite drop_flat, drop_drop, Nat.add_0_r in *.
    replace (Z.of_nat (2 * i) + 2) with (Z.of_nat (2 * S i)) by lia.
    replace (i + 1)%nat with (S i) by lia.
    apply IH; [lia|lia|by apply best_ok_skip].
  - replace (2 * S m =? 0)%nat with false by done.
    rewrite drop_flat, drop_drop.
    replace (Z.of_nat (2 * i) + Z.of_nat (2 * S m)) with (Z.of_nat (2 * (i + S m))) by lia.
    apply IH; [lia|lia|]. apply best_ok_run; [done|lia| |done].
    intros j Hj. specialize (H2 (j - i)%nat ltac:(lia)). rewrite lookup_drop in H2.
    by replace (i + (j - i))%nat with j in H2 by lia.
Qed.

(** ** The printing loop *)

Definition hexes (ws : list Z) : list (list char) := map print_hex ws.

Lemma print_words_plain fuel bp bl pos ws :
  Forall is_word ws -> (length ws < fuel)%nat ->
  bp < pos ->
  print_words fuel bp bl pos (flat ws) = Ok (colons (hexes ws)).
Proof.
  intros Hw. revert fuel pos. induction Hw as [|w ws Hw _ IH]; intros [|fuel] pos Hf Hp;
    cbn in Hf; try lia; [done|].
  cbn [print_words]. rewrite flat_cons, <- flat_cons.
  rewrite (word_at_flat w ws Hw).
  replace (pos =? bp) with false by blia.
  replace (drop 2 (flat (w :: ws))) with (flat ws) by done.
  rewrite IH by lia. done.
Qed.

(** What follows the colon of the gap. *)
Definition gap_close (ws : list Z) : list char :=
  match ws with [] => [colon] | _ => [] end.

Lemma print_words_run fuel k bp bl pos ws1 ws2 :
  Forall is_word ws1 -> Forall is_word ws2 ->
  (length ws1 + k + length ws2 < fuel)%nat -> (0 < k)%nat ->
  bp = pos + 2 * Z.of_nat (length ws1) -> bl = Z.of_nat (2 * k) ->
  print_words fuel bp bl pos (flat (ws1 ++ replicate k 0 ++ ws2)) =
    Ok (colons (hexes ws1) ++ colon :: gap_close ws2 ++ colons (hexes ws2)).
Proof.
  intros Hw1 Hw2. revert fuel pos.
  induction Hw1 as [|w ws1 Hw _ IH]; intros [|fuel] pos Hf Hk -> ->; cbn [length] in *; try lia.
  - cbn [print_words app colons hexes map concat].
    destruct k as [|k]; [lia|]. cbn [replicate app]. rewrite flat_cons, <- flat_cons.
    replace (pos =? pos + 2 * Z.of_nat 0) with true by blia.
    rewrite Nat2Z.id, drop_flat. change (0 :: replicate k 0 ++ ws2) with (replicate (S k) 0 ++ ws2).
    replace (drop (S k) (replicate (S k) 0 ++ ws2)) with ws2
      by (by rewrite drop_app_length' by (by rewrite length_replicate)).
    rewrite print_words_plain by (done || lia). cbn [res_bind].
    destruct ws2; done.
  - cbn [print_words app]. rewrite flat_cons, <- flat_cons.
    rewrite (word_at_flat w _ Hw).
    replace (pos =? pos + 2 * Z.of_nat (S (length ws1))) with false by blia.
    replace (drop 2 (flat (w :: ws1 ++ replicate k 0 ++ ws2)))
      with (flat (ws1 ++ replicate k 0 ++ ws2)) by done.
    rewrite IH; [|lia|lia|lia|done]. cbn [res_bind hexes map colons concat].
    by rewrite <- !app_assoc.
Qed.

Lemma gap_close_join ws :
  colon :: gap_close ws ++ colons (hexes ws) = [colon; colon] ++ join (hexes ws).
Proof.
  destruct ws as [|w ws]; [done|]. cbn [hexes map]. by rewrite join_cons, colons_cons.
Qed.

(** No zero run is longer, and none as long starts earlier. *)
Definition first_longest (ws : list Z) (p k : nat) : Prop :=
  forall i k', zero_run ws i k' -> (k' <= k)%nat /\ (k' = k -> (p <= i)%nat).

(** The words are printed in full, or around the first longest zero run. *)
Inductive print_form (ws : list Z) : list char -> Prop :=
| print_full :
    Forall (fun w => w <> 0) ws -> print_form ws (join (hexes ws))
| print_gap ws1 k ws2 :
    ws = ws1 ++ replicate k 0 ++ ws2 -> (0 < k)%nat ->
    first_longest ws (length ws1) k ->
    print_form ws (join (hexes ws1) ++ [colon; colon] ++ join (hexes ws2)).

Lemma zero_run_split ws p k :
  zero_run ws p k -> (p + k <= length ws)%nat ->
  ws = take p ws ++ replicate k 0 ++ drop (p + k) ws.
Proof.
  intros Hz Hl. apply list_eq. intros j.
  destruct (Nat.lt_ge_cases j p) as [H1|H1].
  { rewrite lookup_app_l by (rewrite length_take; lia). by rewrite lookup_take_lt by lia. }
  rewrite lookup_app_r by (rewrite length_take; lia). rewrite length_take, Nat.min_l by lia.
  destruct (Nat.lt_ge_cases j (p + k)) as [H2|H2].
  - rewrite lookup_app_l by (rewrite length_replicate; lia).
    rewrite lookup_replicate_2 by lia. apply Hz. lia.
  - rewrite lookup_app_r by (rewrite length_replicate; lia).
    rewrite length_replicate, lookup_drop. f_equal. lia.
Qed.

(** What the search has found at the end of the words. *)
Lemma best_ok_end ws bp bl :
  best_ok ws (length ws) (bp, bl) ->
  (bp = -1 /\ bl = 0 /\ Forall (fun w => w <> 0) ws) \/
  exists ws1 k ws2, ws = ws1 ++ replicate k 0 ++ ws2 /\ (0 < k)%nat /\
    bp = Z.of_nat (2 * length ws1) /\ bl = Z.of_nat (2 * k) /\
    first_longest ws (length ws1) k.
Proof.
  intros (p & k & Hbl & Hp & Hm). cbn [fst snd] in *.
  destruct Hp as [[-> ->]|(Hk & -> & Hpl & Hz)]; [left|right].
  - split; [done|]. split; [done|]. apply Forall_lookup. intros i v Hi ->.
    destruct (Hm i 1%nat) as [? _]; [by apply lookup_lt_Some in Hi| |lia].
    intros j Hj. by replace j with i by lia.
  - assert (Hpk : (p + k <= length ws)%nat).
    { destruct (Nat.le_gt_cases (p + k) (length ws)); [done|].
      specialize (Hz (length ws) ltac:(lia)). apply lookup_lt_Some in Hz. lia. }
    exists (take p ws), k, (drop (p + k) ws). rewrite length_take, Nat.min_l by lia.
    repeat split; auto using zero_run_split.
    + destruct (Nat.lt_ge_cases i (length ws)) as [Hi|Hi]; [by apply (Hm i k')|].
      destruct k' as [|k']; [lia|]. pose proof (H i ltac:(lia)) as Hz'.
      apply lookup_lt_Some in Hz'. lia.
    + intros ->. destruct (Nat.lt_ge_cases i (length ws)) as [Hi|Hi]; [|lia].
      by apply (Hm i k Hi).
Qed.

Lemma print_body_form ws :
  Forall is_word ws -> length ws = 8%nat ->
  exists s, print_body (flat ws) = Ok s /\ print_form ws s.
Proof.
  intros Hw Hl. unfold print_body, loop_bound.
  destruct (longest_run_ok 9 ws 0 (-1, 0) Hw ltac:(lia) ltac:(lia)) as ([bp bl] & E & Hb).
  { exists 0%nat, 0%nat. cbn. repeat split; [by left|lia|lia]. }
  change (longest_run 9 0 (flat ws) (-1, 0) = Ok (bp, bl)) in E. rewrite E.
  cbn [res_bind].
  destruct (best_ok_end ws bp bl Hb) as [(-> & -> & Hz)|(ws1 & k & ws2 & -> & Hk & -> & -> & Hm)].
  - destruct ws as [|w ws]; [done|]. cbn [Z.eqb negb]. inversion Hw; subst.
    rewrite word_at_flat by done.
    replace (drop 2 (flat (w :: ws))) with (flat ws) by done. cbn in Hl.
    rewrite print_words_plain by (done || lia). cbn [res_bind]. eexists. split; [done|].
    rewrite <- join_cons. by apply (print_full (w :: ws)).
  - rewrite !length_app, length_replicate in Hl.
    apply Forall_app in Hw as [Hw1 [_ Hw2]%Forall_app].
    eexists. split; [|by apply (print_gap _ ws1 k ws2)]. rewrite <- gap_close_join.
    destruct ws1 as [|w ws1]; cbn [length] in *.
    + change (Z.of_nat (2 * 0)) with 0. cbn [Z.eqb negb app hexes map join].
      rewrite Nat2Z.id, drop_flat, drop_app_length' by (by rewrite length_replicate).
      rewrite print_words_plain by (done || lia). cbn [res_bind]. by destruct ws2.
    + replace (Z.of_nat (2 * S (length ws1)) =? 0) with false by blia. cbn [negb app].
      inversion Hw1; subst. rewrite word_at_flat by done.
      replace (drop 2 (flat (w :: ws1 ++ replicate k 0 ++ ws2)))
        with (flat (ws1 ++ replicate k 0 ++ ws2)) by done.
      rewrite (print_words_run _ k) by (done || lia). cbn [res_bind hexes map].
      by rewrite join_cons, <- app_assoc.
Qed.

(** ** The whole printer *)

Lemma join_length toks :
  Forall (fun tok => (length tok <= 4)%nat) toks ->
  (length (join toks) <= 5 * length toks - 1)%nat.
Proof.
  induction 1 as [|tok toks Ht Hts IH]; [done|].
  destruct toks as [|t2 toks]; [cbn; lia|].
  change (join (tok :: t2 :: toks)) with (tok ++ colon :: join (t2 :: toks)).
  rewrite length_app. cbn [length] in *. lia.
Qed.

Lemma hexes_length ws :
  Forall is_word ws -> (length (join (hexes ws)) <= 5 * length ws - 1)%nat.
Proof.
  intros Hw. rewrite <- (length_map print_hex ws). apply join_length.
  apply List.Forall_map. refine (List.Forall_impl _ _ Hw).
  intros w H%print_hex_h16. apply H.
Qed.

Lemma print_form_text ws s :
  print_form ws s -> Forall is_word ws -> length ws = 8%nat ->
  ipv6_text s ws /\ (length s <= 39)%nat.
Proof.
  intros [Hz|ws1 k ws2 -> Hk Hm] Hw Hl.
  - split; [|pose proof (hexes_length ws Hw); lia].
    pose proof (text_full (hexes ws) ws [] []) as H. rewrite !app_nil_r in H.
    apply H; [by apply print_hex_fields|constructor|cbn; lia].
  - rewrite !length_app, length_replicate in Hl.
    apply Forall_app in Hw as [Hw1 [_ Hw2]%Forall_app]. split.
    + pose proof (text_gap (hexes ws1) ws1 (hexes ws2) ws2 [] []) as H.
      rewrite !app_nil_r in H.
      replace (8 - (length ws1 + length ws2 + length (@nil Z)))%nat with k in H by (cbn; lia).
      apply H; auto using print_hex_fields, v4_tail. cbn. lia.
    + pose proof (hexes_length ws1 Hw1). pose proof (hexes_length ws2 Hw2).
      rewrite !length_app. cbn [length]. lia.
Qed.

(** The twelve bytes that make an address IPv4-mapped. *)
Definition mapped_prefix : list Z := [0; 0; 0; 0; 0; 0; 0; 0; 0; 0; 255; 255].

Lemma v4_mapped_shape a :
  wf a -> is_v4_mapped a = true ->
  exists x, ipv4_address.bytes_wf x /\
    addr_ a = mapped_prefix ++ [ipv4_address.b0 x; ipv4_address.b1 x;
                                ipv4_address.b2 x; ipv4_address.b3 x].
Proof.
  destruct a as [l]. intros [Hl Hb] Hm. cbn [addr_] in *.
  do 16 (destruct l as [|? l]; [done|]). destruct l; [|done].
  unfold is_v4_mapped in Hm. cbn in Hm.
  repeat match goal with H : _ && _ = true |- _ => apply andb_true_iff in H as [? ?] end.
  repeat match goal with H : (_ =? _) = true |- _ => apply Z.eqb_eq in H; subst end.
  repeat match goal with
  | H : Forall is_byte (_ :: _) |- _ => apply List.Forall_cons_iff in H as [? H]
  end.
  eexists (ipv4_address.bytes4 _ _ _ _). split; [|reflexivity].
  unfold ipv4_address.bytes_wf. cbn. auto.
Qed.

Definition v4_list (x : ipv4_address.bytes_type) : list Z :=
  [ipv4_address.b0 x; ipv4_address.b1 x; ipv4_address.b2 x; ipv4_address.b3 x].

Lemma mapped_text v :
  ipv4_address.wf v ->
  ipv6_text (str "::ffff:" ++ ipv4_address.print_impl v)
    ([0; 0; 0; 0; 0; 65535] ++ v4_words v).
Proof.
  intros Hv.
  apply (text_gap [] [] [str "ffff"] [65535] [ipv4_address.print_impl v] (v4_words v)).
  - constructor.
  - constructor; [by apply (print_hex_h16 65535)|constructor].
  - constructor. by apply ipv4_address.parse_print.
  - cbn. lia.
Qed.

Lemma mapped_bytes v :
  ipv4_address.wf v ->
  flat ([0; 0; 0; 0; 0; 65535] ++ v4_words v)
  = mapped_prefix ++ v4_list (ipv4_address.to_bytes v).
Proof. intros Hv. by rewrite flat_app, flat_v4. Qed.

Lemma mapped_print x :
  ipv4_address.bytes_wf x ->
  print_impl (of_bytes (mapped_prefix ++ v4_list x))
  = Ok (str "::ffff:" ++ ipv4_address.print_impl (ipv4_address.of_bytes x)).
Proof.
  intros Hx. set (v := ipv4_address.of_bytes x).
  pose proof (ipv4_address.print_impl_length v (ipv4_address.of_bytes_wf x Hx)) as Hl.
  assert (Hp : ipv4_address.to_buffer ipv4_address.max_str_len v
               = Ok (ipv4_address.print_impl v)).
  { unfold ipv4_address.to_buffer, ipv4_address.store, ipv4_address.max_str_len.
    by replace (Z.of_nat (length (ipv4_address.print_impl v)) <=? 15) with true by blia. }
  unfold print_impl.
  replace (is_v4_mapped _) with true by reflexivity.
  replace (take 12 _) with mapped_prefix by reflexivity.
  replace (drop 12 _) with (v4_list x) by reflexivity.
  replace (print_body mapped_prefix) with (Ok (str "::ffff")) by reflexivity.
  cbn [res_bind v4_list].
  replace (ipv4_address.bytes4 _ _ _ _) with x by (by destruct x).
  fold v. by rewrite Hp.
Qed.

(** The printer never fails, stays within 39 characters and writes a string of
    the grammar that denotes the address. *)
Lemma print_impl_text a :
  wf a ->
  exists s ws, print_impl a = Ok s /\ ipv6_text s ws /\ addr_ a = flat ws
    /\ (length s <= 39)%nat.
Proof.
  intros Hwf. destruct (is_v4_mapped a) eqn:Em.
  - destruct (v4_mapped_shape a Hwf Em) as (x & Hx & Ex).
    assert (Hv : ipv4_address.wf (ipv4_address.of_bytes x))
      by (by apply ipv4_address.of_bytes_wf).
    pose proof (ipv4_address.print_impl_length _ Hv).
    destruct a as [l]. cbn [addr_] in Ex. subst l.
    eexists _, _. split; [by apply mapped_print|]. split; [by apply mapped_text|].
    split; [by rewrite mapped_bytes, ipv4_address.to_of_bytes|].
    rewrite length_app. cbn [length str map]. cbn. lia.
  - destruct (flat_pairs 8 (addr_ a) ltac:(by destruct Hwf) ltac:(by destruct Hwf))
      as (E & Hw & Hl).
    destruct (print_body_form (pairs (addr_ a)) Hw Hl) as (s & Hs & Hf).
    rewrite E in Hs. destruct (print_form_text _ _ Hf Hw Hl) as [Ht Hlen].
    exists s, (pairs (addr_ a)). unfold print_impl. rewrite Em, Hs. cbn [res_bind]. auto.
Qed.

(** C39: [to_string] of any IPv6 address succeeds within its 49-character
    buffer (39 characters at most) and the throwing constructor parses the
    result back to the same address; [to_buffer] refuses a shorter buffer with
    [length_error] and otherwise writes the same text. *)
Theorem ipv6_to_string_roundtrip a (dest_size : Z) :
  wf a ->
  (exists s, to_string a = Ok s /\ (length s <= 39)%nat /\ of_string s = Ok a) /\
  (dest_size < 49 -> to_buffer dest_size a = Err length_error) /\
  (49 <= dest_size -> to_buffer dest_size a = to_string a).
Proof.
  intros H. destruct (print_impl_text a H) as (s & ws & E & Ht & Ha & Hl).
  unfold to_string, to_buffer, of_string, ipv4_address.store, max_str_len.
  rewrite E. cbn [res_bind].
  replace (Z.of_nat (length s) <=? 49) with true by blia.
  split; [exists s|split; intros].
  - split; [done|]. split; [done|]. rewrite (parse_complete s ws Ht).
    destruct a as [l]. cbn in *. by subst l.
  - by replace (dest_size <? 49) with true by blia.
  - replace (dest_size <? 49) with false by blia.
    by replace (Z.of_nat (length s) <=? dest_size) with true by blia.
Qed.

Lemma ipv6_to_string_roundtrip_witness :
  (exists s, to_string loopback = Ok s /\ (length s <= 39)%nat /\ of_string s = Ok loopback) /\
  to_buffer 48 loopback = Err length_error.
Proof.
  assert (H : wf loopback).
  { split; [reflexivity|]. repeat constructor; unfold is_byte; lia. }
  destruct (ipv6_to_string_roundtrip loopback 48 H) as (H1 & H2 & _).
  split; [exact H1|]. apply H2. lia.
Defined.

(** outside the IPv4-mapped range the printed text is the compressed form
    of RFC 4291: all eight groups when no word is zero, otherwise "::" in
    place of the longest run of zero words, the first one when several are
    equally long. *)
Theorem ipv6_print_compresses_longest_run a :
  wf a -> is_v4_mapped a = false ->
  exists s, print_impl a = Ok s /\ print_form (pairs (addr_ a)) s.
Proof.
  intros [Hl Hb] Hm. unfold print_impl. rewrite Hm.
  destruct (flat_pairs 8 (addr_ a) Hl Hb) as (E & Hw & Hk).
  destruct (print_body_form (pairs (addr_ a)) Hw Hk) as (s & Hs & Hf).
  rewrite E in Hs. exists s. rewrite Hs. done.
Qed.

Lemma ipv6_print_compresses_longest_run_witness :
  let a := of_bytes [32; 1; 0; 0; 0; 0; 0; 1; 0; 0; 0; 0; 0; 0; 0; 1] in
  print_impl a = Ok (str "2001:0:0:1::1") /\
  exists s, print_impl a = Ok s /\ print_form (pairs (addr_ a)) s.
Proof.
  split; [reflexivity|].
  apply ipv6_print_compresses_longest_run; [|reflexivity].
  split; [reflexivity|]. repeat constructor; unfold is_byte; lia.
Defined.

(** the IPv4-mapped constructor and the class tests agree: every mapped
    address is recognised, prints as "::ffff:" followed by the dotted quad,
    and that text parses back to it; loopback and the unspecified address are
    not mapped. *)
Theorem ipv4_mapped_text v :
  ipv4_address.wf v ->
  is_v4_mapped (of_v4 v) = true /\
  print_impl (of_v4 v) = Ok (str "::ffff:" ++ ipv4_address.print_impl v) /\
  parse_ipv6_address (str "::ffff:" ++ ipv4_address.print_impl v) = Ok (of_v4 v) /\
  is_v4_mapped loopback = false /\ is_v4_mapped any = false.
Proof.
  intros Hv.
  change (of_v4 v) with (of_bytes (mapped_prefix ++ v4_list (ipv4_address.to_bytes v))).
  rewrite mapped_print by (by apply ipv4_address.to_bytes_wf).
  rewrite ipv4_address.of_to_bytes by done.
  rewrite (parse_complete _ _ (mapped_text v Hv)), mapped_bytes by done.
  repeat split.
Qed.

Lemma ipv4_mapped_text_witness :
  print_impl (of_v4 ipv4_address.loopback) = Ok (str "::ffff:127.0.0.1").
Proof.
  destruct (ipv4_mapped_text ipv4_address.loopback) as (_ & E & _).
  - unfold ipv4_address.wf. simpl. lia.
  - exact E.
Defined.
