(* ===== verification/Endpoint.v ===== *)
(** Endpoints: [src/corosio/src/endpoint.cpp],
    [include/boost/corosio/endpoint.hpp], [src/corosio/src/local_endpoint.cpp]
    and [include/boost/corosio/local_endpoint.hpp].

    [endpoint] is an address of either family with a port; the theorems give
    the exact language [parse_endpoint] accepts and show that the comparison
    operators form a total order consistent with equality.  [local_endpoint]
    is the fixed-buffer path of a Unix domain socket. *)

From S2P Require Import Prelude Ipv4 Ipv6 Ipv6Text.

Module endpoint.

(** * Data and operations *)

Record t := mk {
  v4_address_ : ipv4_address.t;
  v6_address_ : ipv6_address.t;
  port_ : Z;
  is_v4_ : bool
}.

Definition wf (ep : t) : Prop :=
  ipv4_address.wf (v4_address_ ep) /\ ipv6_address.wf (v6_address_ ep)
  /\ 0 <= port_ ep < 65536.

Definition default : t := mk ipv4_address.any ipv6_address.default 0 true.
Definition of_v4 (addr : ipv4_address.t) (p : Z) : t := mk addr ipv6_address.default p true.
Definition of_v6 (addr : ipv6_address.t) (p : Z) : t := mk ipv4_address.any addr p false.
Definition of_port (p : Z) : t := mk ipv4_address.any ipv6_address.default p true.
Definition with_port (ep : t) (p : Z) : t :=
  mk (v4_address_ ep) (v6_address_ ep) p (is_v4_ ep).

Definition is_v4 (ep : t) : bool := is_v4_ ep.
Definition is_v6 (ep : t) : bool := negb (is_v4_ ep).

(** [operator==] *)
Definition eqb (a b : t) : bool :=
  if negb (Bool.eqb (is_v4_ a) (is_v4_ b)) then false
  else if negb (port_ a =? port_ b) then false
  else if is_v4_ a then ipv4_address.eqb (v4_address_ a) (v4_address_ b)
  else ipv6_address.eqb (v6_address_ a) (v6_address_ b).

(** [<=>] on [std::array<unsigned char, 16>]: lexicographic. *)
Fixpoint bytes_compare (l1 l2 : list Z) : comparison :=
  match l1, l2 with
  | [], [] => Eq
  | [], _ :: _ => Lt
  | _ :: _, [] => Gt
  | x :: l1, y :: l2 =>
      match x ?= y with
      | Eq => bytes_compare l1 l2
      | r => r
      end
  end.

(** [operator<=>] *)
Definition compare (a b : t) : comparison :=
  if negb (Bool.eqb (is_v4_ a) (is_v4_ b)) then (if is_v4_ a then Lt else Gt)
  else
    let c := if is_v4_ a
             then ipv4_address.to_uint (v4_address_ a)
                    ?= ipv4_address.to_uint (v4_address_ b)
             else bytes_compare (ipv6_address.to_bytes (v6_address_ a))
                    (ipv6_address.to_bytes (v6_address_ b)) in
    match c with
    | Eq => port_ a ?= port_ b
    | _ => c
    end.

Inductive endpoint_format :=
| ipv4_no_port
| ipv4_with_port
| ipv6_no_port
| ipv6_bracketed.

Definition colon : char := ipv6_address.colon.
Definition lbracket : char := 91.
Definition rbracket : char := 93.

(** The loop that counts colons. *)
Fixpoint count_colons (s : list char) : nat :=
  match s with
  | [] => 0%nat
  | ch :: s => if ch =? colon then S (count_colons s) else count_colons s
  end.

Definition detect_endpoint_format (s : list char) : endpoint_format :=
  match s with
  | [] => ipv4_no_port
  | ch :: _ =>
      if ch =? lbracket then ipv6_bracketed
      else match count_colons s with
           | 0%nat => ipv4_no_port
           | 1%nat => ipv4_with_port
           | _ => ipv6_no_port
           end
  end.

(** [std::from_chars] for [unsigned long] in base ten: the digits are consumed
    up to the first other character; the value is out of range when it does
    not fit in 64 bits. *)
Inductive from_chars_result :=
| fc_value (val : Z) (ptr : list char)
| fc_invalid
| fc_out_of_range.

Fixpoint from_chars_digits (val : Z) (it : list char) : Z * list char :=
  match it with
  | ch :: it' =>
      if is_digit ch then from_chars_digits (val * 10 + (ch - 48)) it' else (val, it)
  | [] => (val, it)
  end.

Definition from_chars (it : list char) : from_chars_result :=
  if at_digit it then
    let (val, ptr) := from_chars_digits 0 it in
    if val <? 2 ^ 64 then fc_value val ptr else fc_out_of_range
  else fc_invalid.

(** [parse_port]: [None] is [return false]. *)
Definition parse_port (s : list char) : option Z :=
  match s with
  | [] => None
  | c0 :: _ =>
      if (1 <? Z.of_nat (length s)) && (c0 =? 48) then None
      else match from_chars s with
           | fc_value val ptr =>
               match ptr with
               | _ :: _ => None
               | [] => if 65535 <? val then None else Some (u16 val)
               end
           | _ => None
           end
  end.

(** [s.find(ch)] as the parts before and after the first occurrence. *)
Fixpoint split_first (ch : char) (s : list char) : option (list char * list char) :=
  match s with
  | [] => None
  | x :: s =>
      if x =? ch then Some ([], s)
      else match split_first ch s with
           | Some (l, r) => Some (x :: l, r)
           | None => None
           end
  end.

(** [s.rfind(ch)] as the parts before and after the last occurrence. *)
Fixpoint split_last (ch : char) (s : list char) : option (list char * list char) :=
  match s with
  | [] => None
  | x :: s =>
      match split_last ch s with
      | Some (l, r) => Some (x :: l, r)
      | None => if x =? ch then Some ([], s) else None
      end
  end.

(** [parse_endpoint] *)
Definition parse_endpoint (s : list char) : res t :=
  match s with
  | [] => Err invalid_argument
  | ch :: s1 =>
      match detect_endpoint_format s with
      | ipv4_no_port =>
          let* addr := ipv4_address.parse_ipv4_address s in
          Ok (of_v4 addr 0)
      | ipv4_with_port =>
          match split_last colon s with
          | None => Err invalid_argument
          | Some (addr_str, port_str) =>
              let* addr := ipv4_address.parse_ipv4_address addr_str in
              match parse_port port_str with
              | None => Err invalid_argument
              | Some port => Ok (of_v4 addr port)
              end
          end
      | ipv6_no_port =>
          let* addr := ipv6_address.parse_ipv6_address s in
          Ok (of_v6 addr 0)
      | ipv6_bracketed =>
          if (Z.of_nat (length s) <? 2) || negb (ch =? lbracket)
          then Err invalid_argument
          else
            match split_first rbracket s with
            | None => Err invalid_argument
            | Some (before, after) =>
                let addr_str := tail before in
                let* addr := ipv6_address.parse_ipv6_address addr_str in
                match after with
                | [] => Ok (of_v6 addr 0)
                | x :: port_str =>
                    if negb (x =? colon) then Err invalid_argument
                    else match parse_port port_str with
                         | None => Err invalid_argument
                         | Some port => Ok (of_v6 addr port)
                         end
                end
            end
      end
  end.

Example parse_v4_port :
  parse_endpoint (str "192.168.1.1:8080") = Ok (of_v4 (ipv4_address.mk 0xC0A80101) 8080).
Proof. reflexivity. Qed.
Example parse_v6_port :
  parse_endpoint (str "[::1]:443") = Ok (of_v6 ipv6_address.loopback 443).
Proof. reflexivity. Qed.
Example parse_bad_port : parse_endpoint (str "1.2.3.4:080") = Err invalid_argument.
Proof. reflexivity. Qed.

(** * The accepted language *)

Definition decval (v : Z) (s : list char) : Z :=
  fold_left (fun v ch => v * 10 + (ch - 48)) s v.

(** A port: a decimal number without leading zeros, at most 65535. *)
Definition port_text (s : list char) (p : Z) : Prop :=
  Forall (fun ch => is_digit ch = true) s /\ s <> [] /\
  (hd 0 s = 48 -> length s = 1%nat) /\ p = decval 0 s /\ p <= 65535.

Inductive endpoint_text : list char -> t -> Prop :=
| text_v4 s a :
    ipv4_address.parse_ipv4_address s = Ok a -> endpoint_text s (of_v4 a 0)
| text_v4_port s a ps p :
    ipv4_address.parse_ipv4_address s = Ok a -> port_text ps p ->
    endpoint_text (s ++ colon :: ps) (of_v4 a p)
| text_v6 s a :
    ipv6_address.parse_ipv6_address s = Ok a -> endpoint_text s (of_v6 a 0)
| text_v6_bracketed s a :
    ipv6_address.parse_ipv6_address s = Ok a ->
    endpoint_text (lbracket :: s ++ [rbracket]) (of_v6 a 0)
| text_v6_port s a ps p :
    ipv6_address.parse_ipv6_address s = Ok a -> port_text ps p ->
    endpoint_text (lbracket :: s ++ rbracket :: colon :: ps) (of_v6 a p).

(** ** Ports *)

Lemma decval_bounds v s :
  0 <= v -> Forall (fun ch => is_digit ch = true) s -> v <= decval v s.
Proof.
  intros Hv H. revert v Hv. induction H as [|ch s Hc _ IH]; intros v Hv; [done|].
  apply ipv4_address.is_digit_spec in Hc. cbn. etrans; [|apply IH; lia]. lia.
Qed.

Lemma from_chars_digits_split val it v ptr :
  from_chars_digits val it = (v, ptr) ->
  exists ds, it = ds ++ ptr /\ Forall (fun ch => is_digit ch = true) ds
    /\ v = decval val ds /\ at_digit ptr = false.
Proof.
  revert val. induction it as [|ch it IH]; intros val; cbn.
  { intros [= <- <-]. exists []. by repeat constructor. }
  destruct (is_digit ch) eqn:E.
  - intros (ds & -> & Hd & -> & Hp)%IH. exists (ch :: ds). by repeat constructor.
  - intros [= <- <-]. exists []. by repeat constructor.
Qed.

Lemma from_chars_digits_all val ds :
  Forall (fun ch => is_digit ch = true) ds ->
  from_chars_digits val ds = (decval val ds, []).
Proof. intros H. revert val. induction H as [|ch ds Hc _ IH]; intros; cbn; by rewrite ?Hc. Qed.

Lemma parse_port_iff s p : parse_port s = Some p <-> port_text s p.
Proof.
  unfold parse_port, port_text, from_chars. destruct s as [|c0 s].
  { split; [done|]. by intros (_ & [] & _). }
  set (l := c0 :: s). split.
  - destruct ((1 <? Z.of_nat (length l)) && (c0 =? 48)) eqn:E; [done|].
    destruct (at_digit l); [|done].
    destruct (from_chars_digits 0 l) as [v ptr] eqn:Ed.
    apply from_chars_digits_split in Ed as (ds & El & Hd & -> & _).
    destruct (_ <? 2 ^ 64); [|done]. destruct ptr; [|done].
    rewrite app_nil_r in El. rewrite <- El in *.
    pose proof (decval_bounds 0 l ltac:(lia) Hd).
    destruct (Z.ltb_spec 65535 (decval 0 l)); [done|].
    intros Hp. assert (p = u16 (decval 0 l)) as -> by congruence.
    rewrite wrap_small by lia. do 2 (split; [done|]). split; [|split; [done|lia]].
    cbn. intros ->. apply andb_false_iff in E as [E|E]; [|done].
    apply Z.ltb_ge in E. cbn in *. lia.
  - intros (Hd & _ & Hz & -> & Hb).
    replace (_ && (c0 =? 48)) with false.
    2: { symmetry. destruct (Z.eqb_spec c0 48) as [->|]; [|apply andb_false_r].
         rewrite Hz by done. done. }
    replace (at_digit l) with true by (by inversion Hd).
    rewrite from_chars_digits_all by done.
    pose proof (decval_bounds 0 l ltac:(lia) Hd).
    test_true (decval 0 l <? 2 ^ 64). test_false (65535 <? decval 0 l).
    by rewrite wrap_small by lia.
Qed.

(** ** Splitting *)

Lemma split_first_Some ch s l r :
  split_first ch s = Some (l, r) -> s = l ++ ch :: r.
Proof.
  revert l. induction s as [|x s IH]; intros l; cbn; [done|].
  destruct (Z.eqb_spec x ch) as [->|Hn]; [by intros [= <- <-]|].
  destruct (split_first ch s) as [[l' r']|]; [|done].
  intros [= <- <-]. by rewrite (IH l' eq_refl).
Qed.

Lemma split_first_app ch l r : ~ In ch l -> split_first ch (l ++ ch :: r) = Some (l, r).
Proof.
  induction l as [|x l IH]; intros Hi; cbn; [by rewrite Z.eqb_refl|].
  destruct (Z.eqb_spec x ch) as [->|]; [by destruct Hi; left|].
  rewrite IH; [done|]. intros ?. apply Hi. by right.
Qed.

Lemma split_last_Some ch s l r :
  split_last ch s = Some (l, r) -> s = l ++ ch :: r.
Proof.
  revert l. induction s as [|x s IH]; intros l; cbn; [done|].
  destruct (split_last ch s) as [[l' r']|] eqn:E'.
  - intros [= <- <-]. by rewrite (IH l' eq_refl).
  - destruct (Z.eqb_spec x ch) as [->|]; [|done]. by intros [= <- <-].
Qed.

Lemma split_last_app ch l r : ~ In ch r -> split_last ch (l ++ ch :: r) = Some (l, r).
Proof.
  intros Hr.
  assert (Hn : split_last ch r = None).
  { induction r as [|x r IH]; [done|]. cbn. rewrite IH by (intros ?; apply Hr; by right).
    destruct (Z.eqb_spec x ch) as [->|]; [|done]. destruct Hr. by left. }
  induction l as [|x l IH]; cbn; [by rewrite Hn, Z.eqb_refl|]. by rewrite IH.
Qed.

(** ** The characters of the address texts *)

Definition addr_char (ch : char) : Prop :=
  Ipv6Text.is_hex ch \/ ch = colon \/ ch = ipv4_address.dot.

Lemma digit_hex ch : is_digit ch = true -> Ipv6Text.is_hex ch.
Proof.
  intros H%ipv4_address.is_digit_spec. unfold Ipv6Text.is_hex, ipv6_address.hexdig_value.
  replace (_ && _) with true by blia. lia.
Qed.

Lemma v4_addr_chars s a :
  ipv4_address.parse_ipv4_address s = Ok a ->
  Forall (fun ch => ch = ipv4_address.dot \/ is_digit ch = true) s.
Proof.
  intros H%Ipv6Text.v4_text_chars. refine (List.Forall_impl _ _ H).
  intros ch [E|E]%orb_true_iff; [left; by apply Z.eqb_eq|by right].
Qed.

Lemma join_chars toks :
  Forall (Forall addr_char) toks -> Forall addr_char (Ipv6Text.join toks).
Proof.
  intros H. destruct H as [|tok toks Ht H]; [constructor|].
  rewrite Ipv6Text.join_cons. apply Forall_app_2; [done|].
  induction H as [|t2 toks H2 H IH]; [constructor|].
  rewrite Ipv6Text.colons_cons. constructor; [right; by left|]. by apply Forall_app_2.
Qed.

Lemma h16_chars toks ws :
  Forall2 Ipv6Text.h16 toks ws -> Forall (Forall addr_char) toks.
Proof.
  induction 1 as [|tok w toks ws (_ & Hx & _) _ IH]; constructor; [|done].
  refine (List.Forall_impl _ _ Hx). intros ch. by left.
Qed.

Lemma tail_chars tl wl : Ipv6Text.v4_tail tl wl -> Forall (Forall addr_char) tl.
Proof.
  intros [|s a H%v4_addr_chars]; constructor; [|constructor].
  refine (List.Forall_impl _ _ H). intros ch [->|Hd]; [by do 2 right|left].
  by apply digit_hex.
Qed.

Lemma v6_addr_chars s a :
  ipv6_address.parse_ipv6_address s = Ok a -> Forall addr_char s.
Proof.
  intros H. destruct (Ipv6Text.parse_sound s) as [E|(ws & Ht & _)]; [congruence|].
  destruct Ht; repeat apply Forall_app_2; repeat constructor;
    try (by right; left); apply join_chars; try apply Forall_app_2;
    eauto using h16_chars, tail_chars.
Qed.

Lemma bracket_not_addr_char ch : ch = lbracket \/ ch = rbracket -> ~ addr_char ch.
Proof. intros [-> | ->] [H|[H|H]]; unfold Ipv6Text.is_hex in *; cbn in *; done || lia. Qed.

(** ** Colons *)

Lemma count_colons_app l1 l2 :
  count_colons (l1 ++ l2) = (count_colons l1 + count_colons l2)%nat.
Proof. induction l1 as [|x l1 IH]; cbn; [done|]. rewrite IH. by destruct (x =? colon). Qed.

Lemma count_colons_0 s : ~ In colon s <-> count_colons s = 0%nat.
Proof.
  induction s as [|x s IH]; cbn; [tauto|].
  destruct (Z.eqb_spec x colon); [split; [tauto|done]|]. rewrite <- IH. tauto.
Qed.

Lemma count_colons_join toks :
  (length toks - 1 <= count_colons (Ipv6Text.join toks))%nat.
Proof.
  destruct toks as [|tok toks]; [cbn; lia|]. rewrite Ipv6Text.join_cons, count_colons_app.
  cbn [length]. enough (length toks <= count_colons (Ipv6Text.colons toks))%nat by lia.
  induction toks as [|t2 toks IH]; [cbn; lia|].
  rewrite Ipv6Text.colons_cons. cbn. rewrite count_colons_app. lia.
Qed.

Lemma v6_colons s a :
  ipv6_address.parse_ipv6_address s = Ok a -> (2 <= count_colons s)%nat.
Proof.
  intros H. destruct (Ipv6Text.parse_sound s) as [E|(ws & Ht & _)]; [congruence|].
  destruct Ht as [toks ws tl wl H1 H2 Hl|].
  - etrans; [|apply count_colons_join]. rewrite length_app.
    apply List.Forall2_length in H1. destruct H2; cbn in *; lia.
  - rewrite !count_colons_app. cbn. lia.
Qed.

Lemma digits_no_colon s : Forall (fun ch => is_digit ch = true) s -> ~ In colon s.
Proof. rewrite List.Forall_forall. by intros H Hc%H. Qed.

Lemma v4_no_colon s a : ipv4_address.parse_ipv4_address s = Ok a -> ~ In colon s.
Proof. apply Ipv6Text.colon_not_v4. Qed.

(** * Soundness and completeness of [parse_endpoint] *)

Lemma parse_endpoint_sound s ep : parse_endpoint s = Ok ep -> endpoint_text s ep.
Proof.
  unfold parse_endpoint. destruct s as [|ch s]; [done|]. set (l := ch :: s).
  destruct (detect_endpoint_format l).
  - destruct (ipv4_address.parse_ipv4_address l) eqn:E; cbn; try done.
    intros [= <-]. by constructor.
  - destruct (split_last colon l) as [[x ps]|] eqn:Es; [|done].
    apply split_last_Some in Es as ->.
    destruct (ipv4_address.parse_ipv4_address x) eqn:E; cbn; try done.
    destruct (parse_port ps) as [p|] eqn:Ep; [|done]. intros [= <-].
    constructor; [done|]. by apply parse_port_iff.
  - destruct (ipv6_address.parse_ipv6_address l) eqn:E; cbn; try done.
    intros [= <-]. by constructor.
  - destruct (Z.eqb_spec ch lbracket) as [->|]; [|by rewrite orb_true_r].
    destruct (_ || _); [done|].
    destruct (split_first rbracket l) as [[x ps]|] eqn:Es; [|done].
    apply split_first_Some in Es. subst l.
    destruct x as [|y x]; cbn [app] in Es; inversion Es; subst. cbn [tail].
    destruct (ipv6_address.parse_ipv6_address x) eqn:E; cbn; try done.
    destruct ps as [|z ps]; [intros [= <-]; by constructor|].
    destruct (Z.eqb_spec z colon) as [->|]; [|done]. cbn.
    destruct (parse_port ps) as [p|] eqn:Ep; [|done]. intros [= <-].
    apply (text_v6_port x); [done|]. by apply parse_port_iff.
Qed.

Lemma head_not_bracket s :
  Forall addr_char s ->
  detect_endpoint_format s =
    match count_colons s with
    | 0%nat => ipv4_no_port
    | 1%nat => ipv4_with_port
    | _ => ipv6_no_port
    end.
Proof.
  intros H. destruct H as [|ch s Hc _]; [done|]. cbn [detect_endpoint_format].
  destruct (Z.eqb_spec ch lbracket) as [->|]; [|done].
  by destruct (bracket_not_addr_char lbracket (or_introl eq_refl)).
Qed.

Lemma v4_text_addr_chars s a :
  ipv4_address.parse_ipv4_address s = Ok a -> s <> [] /\ Forall addr_char s.
Proof.
  intros H. split; [by intros ->|].
  apply v4_addr_chars in H. refine (List.Forall_impl _ _ H).
  intros ch [->|Hd]; [by do 2 right|left]. by apply digit_hex.
Qed.

Lemma port_addr_chars ps p : port_text ps p -> Forall addr_char ps.
Proof.
  intros (H & _). refine (List.Forall_impl _ _ H). intros ch Hd. left. by apply digit_hex.
Qed.

(** The bracketed branch on a well-formed text. *)
Lemma parse_bracketed x a after :
  ipv6_address.parse_ipv6_address x = Ok a ->
  parse_endpoint (lbracket :: x ++ rbracket :: after) =
    match after with
    | [] => Ok (of_v6 a 0)
    | z :: ps =>
        if negb (z =? colon) then Err invalid_argument
        else match parse_port ps with
             | None => Err invalid_argument
             | Some port => Ok (of_v6 a port)
             end
    end.
Proof.
  intros H. cbn [parse_endpoint detect_endpoint_format]. rewrite Z.eqb_refl.
  replace (Z.of_nat (length (lbracket :: x ++ rbracket :: after)) <? 2) with false
    by (cbn [length]; rewrite length_app; cbn [length]; blia).
  cbn [orb negb]. rewrite app_comm_cons, split_first_app.
  - cbn [tail]. rewrite H. done.
  - apply v6_addr_chars in H. rewrite List.Forall_forall in H.
    intros [E|Hi%H]; [done|]. by apply (bracket_not_addr_char rbracket (or_intror eq_refl)).
Qed.

Lemma parse_endpoint_complete s ep : endpoint_text s ep -> parse_endpoint s = Ok ep.
Proof.
  intros [s' a H|s' a ps p H Hp|s' a H|s' a H|s' a ps p H Hp].
  - destruct (v4_text_addr_chars _ _ H) as [Hn Hc]. apply v4_no_colon in H as Hcol.
    destruct s'; [done|]. unfold parse_endpoint. rewrite head_not_bracket by done.
    apply count_colons_0 in Hcol as ->. by rewrite H.
  - destruct (v4_text_addr_chars _ _ H) as [Hn Hc]. apply v4_no_colon in H as Hcol.
    assert (Hpc : ~ In colon ps) by (apply digits_no_colon; by destruct Hp).
    destruct (s' ++ colon :: ps) eqn:E; [by destruct s'|]. unfold parse_endpoint.
    rewrite head_not_bracket.
    2: { rewrite <- E. apply Forall_app_2; [done|]. constructor; [right; by left|].
         by eapply port_addr_chars. }
    rewrite <- E, count_colons_app. apply count_colons_0 in Hcol as ->.
    apply count_colons_0 in Hpc as Hpc'. cbn [count_colons].
    rewrite Hpc', Z.eqb_refl. cbn [Nat.add].
    rewrite split_last_app by done. rewrite H. cbn [res_bind].
    by rewrite (proj2 (parse_port_iff ps p) Hp).
  - pose proof (v6_addr_chars _ _ H) as Hc. pose proof (v6_colons _ _ H) as Hcol.
    destruct s'; [cbn in Hcol; lia|]. unfold parse_endpoint. rewrite head_not_bracket by done.
    destruct (count_colons _) as [|[|]]; try lia. by rewrite H.
  - by rewrite (parse_bracketed _ a).
  - rewrite (parse_bracketed _ a) by done. rewrite Z.eqb_refl. cbn [negb].
    by rewrite (proj2 (parse_port_iff ps p) Hp).
Qed.

(** [parse_endpoint] accepts exactly the five documented forms
    (address alone, IPv4 with port, bracketed IPv6 with or without port), with
    the address text as the address parsers accept it and a canonical decimal
    port of at most 65535; anything else is [invalid_argument], and no input
    faults. *)
Theorem parse_endpoint_exact s :
  (forall ep, parse_endpoint s = Ok ep <-> endpoint_text s ep) /\
  (parse_endpoint s = Err invalid_argument \/ exists ep, parse_endpoint s = Ok ep).
Proof.
  split; [split; [apply parse_endpoint_sound|apply parse_endpoint_complete]|].
  unfold parse_endpoint. destruct s as [|ch s]; [by left|].
  assert (H4 : forall x, ipv4_address.parse_ipv4_address x = Err invalid_argument
    \/ exists a, ipv4_address.parse_ipv4_address x = Ok a).
  { intros x. destruct (ipv4_address.parse_decides x) as [(a & _ & _ & E)|E]; eauto. }
  assert (H6 : forall x, ipv6_address.parse_ipv6_address x = Err invalid_argument
    \/ exists a, ipv6_address.parse_ipv6_address x = Ok a).
  { intros x. destruct (Ipv6Text.parse_sound x) as [E|(ws & _ & E)]; eauto. }
  repeat match goal with
  | |- context [ipv4_address.parse_ipv4_address ?x] =>
      destruct (H4 x) as [->|[? ->]]; cbn [res_bind]
  | |- context [ipv6_address.parse_ipv6_address ?x] =>
      destruct (H6 x) as [->|[? ->]]; cbn [res_bind]
  | _ => case_match
  end; eauto.
Qed.

(** * Comparison *)

Lemma bytes_compare_eq l1 l2 : bytes_compare l1 l2 = Eq <-> l1 = l2.
Proof.
  revert l2. induction l1 as [|x l1 IH]; intros [|y l2]; cbn; try done.
  destruct (Z.compare_spec x y) as [->|H|H].
  - rewrite IH. split; congruence.
  - split; [done|]. intros [= ? ?]. lia.
  - split; [done|]. intros [= ? ?]. lia.
Qed.

Lemma bytes_compare_antisym l1 l2 : bytes_compare l2 l1 = CompOpp (bytes_compare l1 l2).
Proof.
  revert l2. induction l1 as [|x l1 IH]; intros [|y l2]; cbn; try done.
  rewrite (Z.compare_antisym x y). destruct (x ?= y); cbn; auto.
Qed.

Lemma bytes_compare_lt_trans l1 l2 l3 :
  bytes_compare l1 l2 = Lt -> bytes_compare l2 l3 = Lt -> bytes_compare l1 l3 = Lt.
Proof.
  revert l2 l3. induction l1 as [|x l1 IH]; intros [|y l2] [|z l3]; cbn; try done.
  destruct (Z.compare_spec x y), (Z.compare_spec y z); subst; try done; intros H1 H2.
  - rewrite Z.compare_refl. eauto.
  - by rewrite (proj2 (Z.compare_lt_iff _ _)) by lia.
  - by rewrite (proj2 (Z.compare_lt_iff _ _)) by lia.
  - by rewrite (proj2 (Z.compare_lt_iff _ _)) by lia.
Qed.

(** The sort key: family, then address, then port. *)
Definition key (ep : t) : list Z :=
  (if is_v4_ ep then [0; ipv4_address.to_uint (v4_address_ ep)]
   else 1 :: ipv6_address.to_bytes (v6_address_ ep)) ++ [port_ ep].

Lemma bytes_compare_snoc l1 l2 x y :
  length l1 = length l2 ->
  bytes_compare (l1 ++ [x]) (l2 ++ [y]) =
    match bytes_compare l1 l2 with Eq => x ?= y | r => r end.
Proof.
  revert l2. induction l1 as [|a l1 IH]; intros [|b l2] Hl; cbn in *; try lia.
  - by destruct (x ?= y).
  - destruct (a ?= b); auto.
Qed.

Lemma compare_key a b :
  wf a -> wf b -> compare a b = bytes_compare (key a) (key b).
Proof.
  intros (_ & [Ha _] & _) (_ & [Hb _] & _). unfold compare, key.
  destruct (is_v4_ a), (is_v4_ b); cbn [Bool.eqb negb]; try reflexivity.
  - cbn. by destruct (_ ?= _); [destruct (_ ?= _)|..].
  - cbn [app bytes_compare]. change (1 ?= 1) with Eq. cbn iota.
    rewrite bytes_compare_snoc by (unfold ipv6_address.to_bytes; congruence).
    by destruct (bytes_compare _ _).
Qed.

(** [operator<=>] is a strict total order on well-formed endpoints that
    agrees with [operator==]: it reports equality exactly when [==] holds,
    swapping the operands reverses the answer, and it is transitive, so
    endpoints are usable as keys of ordered containers. *)
Theorem endpoint_order a b c :
  wf a -> wf b -> wf c ->
  (compare a b = Eq <-> eqb a b = true) /\
  compare b a = CompOpp (compare a b) /\
  (compare a b = Lt -> compare b c = Lt -> compare a c = Lt).
Proof.
  intros Ha Hb Hc. rewrite !compare_key by done.
  split; [|split; [apply bytes_compare_antisym|apply bytes_compare_lt_trans]].
  rewrite bytes_compare_eq. unfold key, eqb, ipv4_address.eqb, ipv6_address.eqb.
  destruct (is_v4_ a), (is_v4_ b); cbn [Bool.eqb negb]; try done.
  - destruct (Z.eqb_spec (port_ a) (port_ b)) as [E|E]; cbn.
    + unfold ipv4_address.to_uint. rewrite Z.eqb_eq, E. split; congruence.
    + split; [|done]. by intros [= _ ?].
  - destruct (Z.eqb_spec (port_ a) (port_ b)) as [E|E]; cbn [negb].
    + rewrite bool_decide_eq_true, E. split.
      * intros H. injection H as H. by apply app_inj_2 in H as [H _].
      * unfold ipv6_address.to_bytes. by intros ->.
    + split; [|done]. intros H. injection H as H.
      apply app_inj_2 in H as [_ H]; [|done]. by injection H.
Qed.

Lemma endpoint_order_witness :
  let a := of_v4 ipv4_address.loopback 80 in
  let b := of_v4 ipv4_address.loopback 443 in
  let c := of_v6 ipv6_address.loopback 0 in
  compare a b = Lt /\ compare b c = Lt /\ compare a c = Lt.
Proof.
  assert (H4 : forall p, 0 <= p < 65536 -> wf (of_v4 ipv4_address.loopback p)).
  { intros p Hp. repeat split; cbn; try lia. repeat constructor; unfold is_byte; lia. }
  assert (H6 : wf (of_v6 ipv6_address.loopback 0)).
  { repeat split; cbn; try lia. repeat constructor; unfold is_byte; lia. }
  destruct (endpoint_order _ _ _ (H4 80 ltac:(lia)) (H4 443 ltac:(lia)) H6) as (_ & _ & H).
  split; [reflexivity|]. split; [reflexivity|]. apply H; reflexivity.
Defined.

End endpoint.

Module local_endpoint.

(** * Data and operations *)

Record t := mk { path_ : list Z; len_ : Z }.

Definition max_path_length : Z := 103.

Definition default : t := mk (replicate 104 0) 0.

(** [std::memcpy(path_, path.data(), path.size())] into the zeroed buffer. *)
Definition store_path (path : list char) : t :=
  mk (path ++ drop (length path) (path_ default)) (u8 (Z.of_nat (length path))).

(** The throwing constructor. *)
Definition of_path (path : list char) : res t :=
  if max_path_length <? Z.of_nat (length path) then Err filename_too_long
  else Ok (store_path path).

(** The constructor with an error out-parameter: the object and [ec]. *)
Definition of_path_ec (path : list char) : t * option errc :=
  if max_path_length <? Z.of_nat (length path) then (default, Some filename_too_long)
  else (store_path path, None).

Definition path (ep : t) : list char := take (Z.to_nat (len_ ep)) (path_ ep).
Definition is_abstract (ep : t) : bool := (0 <? len_ ep) && (nth 0 (path_ ep) 0 =? 0).
Definition empty (ep : t) : bool := len_ ep =? 0.

(** [std::memcmp] on the first [n] bytes, by sign. *)
Definition memcmp (l1 l2 : list Z) (n : Z) : comparison :=
  endpoint.bytes_compare (take (Z.to_nat n) l1) (take (Z.to_nat n) l2).

Definition eqb (a b : t) : bool :=
  (len_ a =? len_ b) && match memcmp (path_ a) (path_ b) (len_ a) with
                        | Eq => true
                        | _ => false
                        end.

Definition compare (a b : t) : comparison :=
  let common := Z.min (len_ a) (len_ b) in
  match memcmp (path_ a) (path_ b) common with
  | Eq => len_ a ?= len_ b
  | r => r
  end.

(** [operator<<] *)
Definition ostream_put (os : list char) (ep : t) : list char :=
  if empty ep then os
  else if is_abstract ep
  then os ++ str "[abstract:" ++ take (Z.to_nat (len_ ep - 1)) (drop 1 (path_ ep))
          ++ [endpoint.rbracket]
  else os ++ path ep.

(** * Theorems *)

Definition wf (ep : t) : Prop :=
  length (path_ ep) = 104%nat /\ 0 <= len_ ep <= max_path_length.

Lemma store_path_wf p :
  Z.of_nat (length p) <= max_path_length ->
  wf (store_path p) /\ len_ (store_path p) = Z.of_nat (length p).
Proof.
  unfold max_path_length, wf, store_path. cbn [path_ len_]. intros H.
  rewrite length_app, length_drop, wrap_small by lia. cbn [length]. unfold max_path_length.
  change (length (path_ default)) with 104%nat. lia.
Qed.

Lemma path_store p :
  Z.of_nat (length p) <= max_path_length -> path (store_path p) = p.
Proof.
  intros H. unfold path. rewrite (proj2 (store_path_wf p H)), Nat2Z.id.
  unfold store_path. cbn [path_]. by rewrite take_app_length.
Qed.

Lemma length_path ep : wf ep -> length (path ep) = Z.to_nat (len_ ep).
Proof. unfold wf, max_path_length, path. intros []. rewrite length_take. lia. Qed.

(** Comparing up to the common length and then the lengths is the
    lexicographic order. *)
Lemma bytes_compare_common l1 l2 :
  let n := Nat.min (length l1) (length l2) in
  match endpoint.bytes_compare (take n l1) (take n l2) with
  | Eq => Z.of_nat (length l1) ?= Z.of_nat (length l2)
  | r => r
  end = endpoint.bytes_compare l1 l2.
Proof.
  revert l2. induction l1 as [|x l1 IH]; intros [|y l2]; try done.
  cbn [length Nat.min take endpoint.bytes_compare]. destruct (x ?= y); try done.
  specialize (IH l2). cbn zeta in IH. rewrite <- IH.
  replace (Z.of_nat (S (length l1)) ?= Z.of_nat (S (length l2)))
    with (Z.of_nat (length l1) ?= Z.of_nat (length l2)); [done|].
  rewrite !Nat2Z.inj_succ, <- !Z.add_1_l. symmetry. apply Z.add_compare_mono_l.
Qed.

Lemma compare_lex a b :
  wf a -> wf b -> compare a b = endpoint.bytes_compare (path a) (path b).
Proof.
  intros Ha Hb. rewrite <- bytes_compare_common. cbn zeta.
  rewrite !length_path by done. unfold compare, memcmp, path. unfold wf in *.
  rewrite !take_take, !Z2Nat.id by lia.
  replace (Z.to_nat (Z.min (len_ a) (len_ b)))
    with (Nat.min (Z.to_nat (len_ a)) (Z.to_nat (len_ b))) by lia.
  replace (Nat.min (Nat.min _ _) (Z.to_nat (len_ a)))
    with (Nat.min (Z.to_nat (len_ a)) (Z.to_nat (len_ b))) by lia.
  by replace (Nat.min (Nat.min _ _) (Z.to_nat (len_ b)))
    with (Nat.min (Z.to_nat (len_ a)) (Z.to_nat (len_ b))) by lia.
Qed.

(** a path of at most 103 bytes is stored and read back unchanged (the
    8-bit length does not wrap), a longer one is refused with
    [filename_too_long] by both constructors, and the comparison operators on
    stored endpoints are equality and the lexicographic order of the paths. *)
Theorem local_endpoint_paths p q :
  (Z.of_nat (length p) <= 103 -> Z.of_nat (length q) <= 103 ->
   exists a b, of_path p = Ok a /\ of_path q = Ok b /\ path a = p /\ path b = q /\
     of_path_ec p = (a, None) /\
     compare a b = endpoint.bytes_compare p q /\ (eqb a b = true <-> p = q)) /\
  (103 < Z.of_nat (length p) ->
   of_path p = Err filename_too_long /\ of_path_ec p = (default, Some filename_too_long)).
Proof.
  unfold of_path, of_path_ec. split.
  - intros Hp Hq. exists (store_path p), (store_path q).
    destruct (store_path_wf p Hp) as [Wp Ep]. destruct (store_path_wf q Hq) as [Wq Eq].
    unfold max_path_length. test_false (103 <? Z.of_nat (length p)).
    test_false (103 <? Z.of_nat (length q)).
    rewrite compare_lex, !path_store by done. repeat (split; [done|]).
    unfold eqb, memcmp. rewrite Ep, Eq.
    pose proof (path_store p Hp) as Pp. pose proof (path_store q Hq) as Pq.
    unfold path in Pp, Pq. rewrite Ep in Pp. rewrite Eq in Pq. rewrite Pp.
    rewrite andb_true_iff, Z.eqb_eq. split.
    + intros [El Hc]. rewrite <- El in Pq. rewrite Pq in Hc.
      destruct (endpoint.bytes_compare p q) eqn:Ec; try done.
      by apply endpoint.bytes_compare_eq.
    + intros ->. split; [done|]. rewrite Pq.
      by rewrite (proj2 (endpoint.bytes_compare_eq q q)).
  - intros Hl. unfold max_path_length. by test_true (103 <? Z.of_nat (length p)).
Qed.

Lemma local_endpoint_paths_witness :
  (exists a b, of_path (str "/tmp/a") = Ok a /\ of_path (str "/tmp/b") = Ok b /\
     path a = str "/tmp/a" /\ path b = str "/tmp/b" /\
     of_path_ec (str "/tmp/a") = (a, None) /\ compare a b = Lt /\
     (eqb a b = true <-> str "/tmp/a" = str "/tmp/b")) /\
  of_path (replicate 104 47) = Err filename_too_long.
Proof.
  split.
  - destruct (local_endpoint_paths (str "/tmp/a") (str "/tmp/b")) as [H _].
    apply H; cbn; lia.
  - destruct (local_endpoint_paths (replicate 104 47) []) as [_ H].
    apply H. cbn. lia.
Defined.


End local_endpoint.
