(* ===== verification/Sockaddr.v ===== *)
(** Conversions between endpoints and socket addresses:
    [include/boost/corosio/native/detail/endpoint_convert.hpp].

    The socket-address structures are those of the system headers: the model
    has the fields the code touches, with port and address in the order of
    their bytes in memory.  The family constants, the size of [sun_path] and
    its offset differ between platforms and are arguments.  A
    [sockaddr_storage] is zeroed or holds one of the structures. *)

From S2P Require Import Prelude Ipv4 Ipv6 Endpoint.

(** * Structures *)

(** A 16-bit field in network byte order: high byte, low byte. *)
Record net16 := n16 { n_hi : Z; n_lo : Z }.

Definition htons (p : Z) : net16 := n16 (u8 (Z.shiftr p 8)) (u8 p).
Definition ntohs (n : net16) : Z := Z.lor (Z.shiftl (n_hi n) 8) (n_lo n).

Record sockaddr_in := mk_in {
  sin_family : Z;
  sin_port : net16;
  sin_addr : ipv4_address.bytes_type
}.
Record sockaddr_in6 := mk_in6 {
  sin6_family : Z;
  sin6_port : net16;
  sin6_addr : list Z
}.
Record sockaddr_un := mk_un { sun_family : Z; sun_path : list Z }.

Inductive sockaddr_storage :=
| ss_zero
| ss_in (sa : sockaddr_in)
| ss_in6 (sa : sockaddr_in6)
| ss_un (sa : sockaddr_un).

Definition ss_family (s : sockaddr_storage) : Z :=
  match s with
  | ss_zero => 0
  | ss_in sa => sin_family sa
  | ss_in6 sa => sin6_family sa
  | ss_un sa => sun_family sa
  end.

(** The length an operation returns is that of the structure it stored. *)
Inductive socklen := len_in | len_in6 | len_un (n : nat).

Section sockaddr.
Context (AF_INET AF_INET6 AF_UNIX AF_UNSPEC : Z).
Context (sun_path_size path_offset : nat).

(** [sizeof(sockaddr_un)] *)
Definition sizeof_un : nat := (path_offset + sun_path_size)%nat.

(** * Conversions *)

Definition to_sockaddr_in (ep : endpoint.t) : sockaddr_in :=
  mk_in AF_INET (htons (endpoint.port_ ep)) (ipv4_address.to_bytes (endpoint.v4_address_ ep)).

Definition to_sockaddr_in6 (ep : endpoint.t) : sockaddr_in6 :=
  mk_in6 AF_INET6 (htons (endpoint.port_ ep)) (ipv6_address.to_bytes (endpoint.v6_address_ ep)).

Definition from_sockaddr_in (sa : sockaddr_in) : endpoint.t :=
  endpoint.of_v4 (ipv4_address.of_bytes (sin_addr sa)) (ntohs (sin_port sa)).

Definition from_sockaddr_in6 (sa : sockaddr_in6) : endpoint.t :=
  endpoint.of_v6 (ipv6_address.of_bytes (sin6_addr sa)) (ntohs (sin6_port sa)).

(** The zeroed 16 bytes, with the mapped prefix and the IPv4 address. *)
Definition to_v4_mapped_sockaddr_in6 (ep : endpoint.t) : sockaddr_in6 :=
  let bytes := ipv4_address.to_bytes (endpoint.v4_address_ ep) in
  let a := <[11%nat := 255]> (<[10%nat := 255]> (replicate 16 0)) in
  mk_in6 AF_INET6 (htons (endpoint.port_ ep))
    (take 12 a ++ [ipv4_address.b0 bytes; ipv4_address.b1 bytes; ipv4_address.b2 bytes;
                   ipv4_address.b3 bytes]).

Definition to_sockaddr (ep : endpoint.t) : sockaddr_storage * socklen :=
  if endpoint.is_v4 ep then (ss_in (to_sockaddr_in ep), len_in)
  else (ss_in6 (to_sockaddr_in6 ep), len_in6).

Definition to_sockaddr_family (ep : endpoint.t) (socket_family : Z) : sockaddr_storage * socklen :=
  if endpoint.is_v4 ep && (socket_family =? AF_INET6)
  then (ss_in6 (to_v4_mapped_sockaddr_in6 ep), len_in6)
  else to_sockaddr ep.

(** The structure read back is the one the family announces; a storage that
    holds another one is outside the model. *)
Definition from_sockaddr (storage : sockaddr_storage) : res endpoint.t :=
  if ss_family storage =? AF_INET then
    match storage with
    | ss_in sa => Ok (from_sockaddr_in sa)
    | _ => Fault
    end
  else if ss_family storage =? AF_INET6 then
    match storage with
    | ss_in6 sa => Ok (from_sockaddr_in6 sa)
    | _ => Fault
    end
  else Ok endpoint.default.

Definition endpoint_family (ep : endpoint.t) : Z :=
  if endpoint.is_v6 ep then AF_INET6 else AF_INET.

(** [getsockname] is the system's: its result is the argument. *)
Definition socket_family (getsockname : option sockaddr_storage) : Z :=
  match getsockname with
  | None => AF_UNSPEC
  | Some storage => ss_family storage
  end.

(** * Unix domain sockets *)

Definition to_sockaddr_local (ep : local_endpoint.t) : sockaddr_storage * socklen :=
  let path := local_endpoint.path ep in
  let copy_len := Nat.min (length path) sun_path_size in
  let sun := take copy_len path ++ replicate (sun_path_size - copy_len) 0 in
  (ss_un (mk_un AF_UNIX sun),
   if local_endpoint.is_abstract ep then len_un (path_offset + copy_len)
   else len_un sizeof_un).

(** [memchr(l, 0, n)]: the offset of the first zero byte among the first [n];
    reading past the end of the array is a fault. *)
Fixpoint memchr0 (l : list Z) (n : nat) : res (option nat) :=
  match n with
  | O => Ok None
  | S n =>
      match l with
      | [] => Fault
      | x :: l => if x =? 0 then Ok (Some O)
                  else let* o := memchr0 l n in
                       Ok (match o with
                           | Some k => Some (S k)
                           | None => None
                           end)
      end
  end.

(** [memcpy(&sa, &storage, min(len, sizeof(sa)))] into a zeroed structure: the
    bytes of [sun_path] that are inside the copied length. *)
Definition copy_un (sa : sockaddr_un) (len : nat) : list Z :=
  let k := (Nat.min len sizeof_un - path_offset)%nat in
  take k (sun_path sa) ++ replicate (sun_path_size - k) 0.

Definition from_sockaddr_local (storage : sockaddr_storage) (len : nat) : res local_endpoint.t :=
  if negb (ss_family storage =? AF_UNIX) then Ok local_endpoint.default
  else
    match storage with
    | ss_un sa0 =>
        let sun := copy_un sa0 len in
        if (len <=? path_offset)%nat then Ok local_endpoint.default
        else
          let path_len := (len - path_offset)%nat in
          let* path_len :=
            if negb (nth 0 sun 0 =? 0) then
              let* e := memchr0 sun path_len in
              Ok (match e with
                  | Some k => k
                  | None => path_len
                  end)
            else Ok path_len in
          (* the constructor checks the size before it reads the bytes *)
          if local_endpoint.max_path_length <? Z.of_nat path_len then Ok local_endpoint.default
          else if (length sun <? path_len)%nat then Fault
          else
            let '(ep, ec) := local_endpoint.of_path_ec (take path_len sun) in
            match ec with
            | Some _ => Ok local_endpoint.default
            | None => Ok ep
            end
    | _ => Fault
    end.

(** The tag overloads. *)
Definition from_sockaddr_as (storage : sockaddr_storage) (len : nat) : res endpoint.t :=
  from_sockaddr storage.
Definition from_sockaddr_as_local (storage : sockaddr_storage) (len : nat) : res local_endpoint.t :=
  from_sockaddr_local storage len.

(** * Round trips *)

Lemma ntohs_htons p : 0 <= p < 65536 -> ntohs (htons p) = p.
Proof.
  intros Hp. unfold ntohs, htons. cbn [n_hi n_lo]. rewrite shiftr_div by lia.
  rewrite lor_shiftl_add by (unfold wrap; lia || apply Z.mod_pos_bound; lia).
  unfold wrap. change (2 ^ 8) with 256. zdiv.
Qed.

Lemma memchr0_clean l n :
  Forall (fun x => x <> 0) l -> (length l < n)%nat ->
  forall rest, memchr0 (l ++ 0 :: rest) n = Ok (Some (length l)).
Proof.
  intros Hl. revert n. induction Hl as [|x l Hx Hl IH]; intros [|n] Hn rest; cbn in *; try lia; [done|].
  rewrite (proj2 (Z.eqb_neq x 0)) by done. rewrite IH by lia. done.
Qed.

(** Copying at least the bytes of the path brings the whole zero-padded path. *)
Lemma copy_un_padded f p k :
  (length p <= k <= sun_path_size)%nat ->
  copy_un (mk_un f (p ++ replicate (sun_path_size - length p) 0)) (path_offset + k) =
    p ++ replicate (sun_path_size - length p) 0.
Proof.
  intros Hk. unfold copy_un, sizeof_un. cbn [sun_path].
  replace (Nat.min (path_offset + k) (path_offset + sun_path_size) - path_offset)%nat with k by lia.
  rewrite take_app_ge by lia. rewrite take_replicate, <- app_assoc. f_equal.
  rewrite <- replicate_add. f_equal. lia.
Qed.

Lemma from_sockaddr_local_padded p k :
  (length p <= k <= sun_path_size)%nat -> (0 < k)%nat ->
  from_sockaddr_local (ss_un (mk_un AF_UNIX (p ++ replicate (sun_path_size - length p) 0)))
    (path_offset + k) =
  let sun := p ++ replicate (sun_path_size - length p) 0 in
  let* path_len :=
    if negb (nth 0 sun 0 =? 0) then
      let* e := memchr0 sun k in
      Ok (match e with
          | Some k => k
          | None => k
          end)
    else Ok k in
  if local_endpoint.max_path_length <? Z.of_nat path_len then Ok local_endpoint.default
  else if (length sun <? path_len)%nat then Fault
  else
    let '(ep, ec) := local_endpoint.of_path_ec (take path_len sun) in
    match ec with
    | Some _ => Ok local_endpoint.default
    | None => Ok ep
    end.
Proof.
  intros Hk H0. unfold from_sockaddr_local. cbn [ss_family sun_family]. rewrite Z.eqb_refl.
  cbn [negb]. rewrite copy_un_padded by done.
  rewrite (proj2 (Nat.leb_gt (path_offset + k) path_offset)) by lia.
  by replace (path_offset + k - path_offset)%nat with k by lia.
Qed.

Lemma abstract_store x p :
  Z.of_nat (length (x :: p)) <= local_endpoint.max_path_length ->
  local_endpoint.is_abstract (local_endpoint.store_path (x :: p)) = (x =? 0).
Proof.
  intros H. destruct (local_endpoint.store_path_wf _ H) as [_ Hl].
  unfold local_endpoint.is_abstract. rewrite Hl.
  rewrite (proj2 (Z.ltb_lt _ _)) by (cbn [length]; lia). done.
Qed.

Context (Hfam : AF_INET <> AF_INET6).

(** An endpoint converted to a socket address and back is the endpoint
    (its address, family and port); on an IPv6 socket an IPv4 endpoint comes
    back as its IPv4-mapped IPv6 endpoint; the family of the storage is that of
    the endpoint, and a storage of no IP family gives the default endpoint. *)
Theorem endpoint_sockaddr_roundtrip ep :
  endpoint.wf ep ->
  from_sockaddr (fst (to_sockaddr ep)) =
    Ok (if endpoint.is_v4 ep then endpoint.of_v4 (endpoint.v4_address_ ep) (endpoint.port_ ep)
        else endpoint.of_v6 (endpoint.v6_address_ ep) (endpoint.port_ ep)) /\
  ss_family (fst (to_sockaddr ep)) = endpoint_family ep /\
  (endpoint.is_v4 ep = true ->
   exists mapped,
     from_sockaddr (fst (to_sockaddr_family ep AF_INET6)) =
       Ok (endpoint.of_v6 mapped (endpoint.port_ ep)) /\
     mapped = ipv6_address.of_v4 (endpoint.v4_address_ ep) /\
     ipv6_address.is_v4_mapped mapped = true) /\
  to_sockaddr_family ep AF_INET = to_sockaddr ep.
Proof using Hfam.
  intros (Hv4 & Hv6 & Hp). pose proof Hfam as H46.
  unfold to_sockaddr, to_sockaddr_family, endpoint_family, endpoint.is_v6, endpoint.is_v4.
  rewrite (proj2 (Z.eqb_neq AF_INET AF_INET6) H46), andb_false_r.
  split; [|split; [|split; [|done]]].
  - destruct (endpoint.is_v4_ ep); cbn [fst]; unfold from_sockaddr; cbn.
    + rewrite Z.eqb_refl. unfold from_sockaddr_in. cbn.
      by rewrite ntohs_htons, ipv4_address.of_to_bytes.
    + rewrite (proj2 (Z.eqb_neq AF_INET6 AF_INET)) by congruence. rewrite Z.eqb_refl.
      unfold from_sockaddr_in6. cbn. rewrite ntohs_htons by done. by destruct (endpoint.v6_address_ ep).
  - by destruct (endpoint.is_v4_ ep).
  - intros ->. cbn. rewrite Z.eqb_refl. eexists. split; [|split; [|]].
    + cbn. unfold from_sockaddr. cbn. rewrite (proj2 (Z.eqb_neq AF_INET6 AF_INET)) by congruence.
      rewrite Z.eqb_refl. unfold from_sockaddr_in6. cbn. by rewrite ntohs_htons.
    + done.
    + reflexivity.
Qed.

Context (Hsize : (104 <= sun_path_size)%nat).

(** A local endpoint converted to a [sockaddr_un] and back is unchanged:
    an abstract one with any bytes, a path without zero bytes, and the empty
    one; the conversion back reads within the structure, and refuses lengths
    that cover no path byte or too long a path by returning the empty
    endpoint. *)
Theorem local_endpoint_sockaddr_roundtrip p :
  Z.of_nat (length p) <= local_endpoint.max_path_length ->
  (nth 0 p 0 = 0 \/ Forall (fun x => x <> 0) p) ->
  let ep := local_endpoint.store_path p in
  exists n, snd (to_sockaddr_local ep) = len_un n /\
    from_sockaddr_local (fst (to_sockaddr_local ep)) n = Ok ep /\
    (forall len, (len <= path_offset)%nat ->
       from_sockaddr_local (fst (to_sockaddr_local ep)) len = Ok local_endpoint.default).
Proof using Hsize.
  intros Hlen Hp ep. pose proof Hlen as Hlen'. unfold local_endpoint.max_path_length in Hlen.
  assert (Hpath : local_endpoint.path ep = p) by (by apply local_endpoint.path_store).
  assert (Hstore : local_endpoint.of_path_ec p = (ep, None)).
  { unfold local_endpoint.of_path_ec, local_endpoint.max_path_length.
    by rewrite (proj2 (Z.ltb_ge _ _) Hlen). }
  assert (Hsh : forall sa len, (len <= path_offset)%nat ->
    from_sockaddr_local (ss_un (mk_un AF_UNIX sa)) len = Ok local_endpoint.default).
  { intros sa len Hle. unfold from_sockaddr_local. cbn. rewrite Z.eqb_refl. cbn.
    by rewrite (proj2 (Nat.leb_le len path_offset)). }
  unfold to_sockaddr_local. rewrite Hpath, Nat.min_l, firstn_all by lia.
  exists (if local_endpoint.is_abstract ep then (path_offset + length p)%nat else sizeof_un).
  cbn [snd fst]. split; [by destruct (local_endpoint.is_abstract ep)|]. split; [|by intros; apply Hsh].
  destruct p as [|x p].
  - change (local_endpoint.is_abstract ep) with false. cbn match. unfold sizeof_un.
    rewrite (from_sockaddr_local_padded [] sun_path_size) by (cbn; lia). cbn [length app].
    rewrite Nat.sub_0_r. destruct sun_path_size as [|m]; [lia|]. cbn.
    rewrite (proj2 (Z.ltb_lt _ _)); [done|]. unfold local_endpoint.max_path_length. lia.
  - unfold ep at 1. rewrite abstract_store by done. destruct (Z.eqb_spec x 0) as [->|Hx].
    + rewrite from_sockaddr_local_padded by (cbn [length] in *; lia). cbn zeta.
      change (nth 0 ((0 :: p) ++ _) 0) with 0. cbn [Z.eqb negb res_bind].
      rewrite (proj2 (Z.ltb_ge _ _) Hlen').
      rewrite (proj2 (Nat.ltb_ge _ _)) by (rewrite length_app; lia).
      by rewrite take_app_length, Hstore.
    + destruct Hp as [Hp|Hp]; [done|]. unfold sizeof_un.
      rewrite from_sockaddr_local_padded by (cbn [length] in *; lia). cbn zeta.
      change (nth 0 ((x :: p) ++ _) 0) with x. rewrite (proj2 (Z.eqb_neq x 0) Hx). cbn [negb].
      replace (sun_path_size - length (x :: p))%nat
        with (S (sun_path_size - length (x :: p) - 1))%nat by lia.
      cbn [replicate]. rewrite memchr0_clean by (done || lia). cbn [res_bind].
      rewrite (proj2 (Z.ltb_ge _ _) Hlen').
      rewrite (proj2 (Nat.ltb_ge _ _)) by (rewrite length_app; lia).
      by rewrite take_app_length, Hstore.
Qed.
End sockaddr.

(** Linux: families 2, 10 and 1, a [sun_path] of 108 bytes at offset 2. *)
Lemma endpoint_sockaddr_roundtrip_witness :
  let ep := endpoint.of_v4 (ipv4_address.of_uint 0x7F000001) 8080 in
  from_sockaddr 2 10 (fst (to_sockaddr 2 10 ep)) = Ok ep.
Proof.
  refine (proj1 (endpoint_sockaddr_roundtrip 2 10 _
    (endpoint.of_v4 (ipv4_address.of_uint 0x7F000001) 8080) _)); [lia|].
  split; [unfold ipv4_address.wf; cbn; lia|]. split; [|cbn; lia].
  split; [reflexivity|]. repeat (apply List.Forall_cons; [unfold is_byte; lia|]). apply List.Forall_nil.
Defined.

Lemma local_endpoint_sockaddr_roundtrip_witness :
  let ep := local_endpoint.store_path (str "/tmp/s") in
  exists n, snd (to_sockaddr_local 1 108 2 ep) = len_un n /\
    from_sockaddr_local 1 108 2 (fst (to_sockaddr_local 1 108 2 ep)) n = Ok ep /\
    (forall len, (len <= 2)%nat ->
       from_sockaddr_local 1 108 2 (fst (to_sockaddr_local 1 108 2 ep)) len =
         Ok local_endpoint.default).
Proof.
  refine (local_endpoint_sockaddr_roundtrip 1 108 2 _ (str "/tmp/s") _ _); [lia|vm_compute; discriminate|].
  right. repeat constructor; discriminate.
Defined.

(** The length of a local socket address is the kernel's, and may exceed
    the structure: for a path that fills [sun_path] without a terminator Linux
    reports one byte more than the structure has.  The search for the
    terminator then reads past the end of the copied structure. *)
Theorem from_sockaddr_local_overread :
  from_sockaddr_local 1 108 2 (ss_un (mk_un 1 (replicate 108 97))) 111 = Fault /\
  from_sockaddr_local 1 108 2 (ss_un (mk_un 1 (replicate 108 97))) 110 =
    Ok local_endpoint.default.
Proof. split; vm_compute; reflexivity. Qed.
