(* ===== verification/StateMonad.v ===== *)
(** A state monad with errors and faults for the stateful components, and the
    total-correctness predicate [wp] used to reason about it.

    A computation takes a state and returns [Ok (value, state)], a reported
    error or a [Fault].  [wp m Q s] says that [m] returns normally from [s],
    with a value and state that satisfy [Q]: in particular it does not fault. *)

From S2P Require Import Prelude.

Definition M (S A : Type) : Type := S -> res (A * S).

#[export] Instance M_ret {S} : MRet (M S) := fun A a s => Ok (a, s).
#[export] Instance M_bind {S} : MBind (M S) := fun A B k m s =>
  match m s with
  | Ok (a, s') => k a s'
  | Err e => Err e
  | Fault => Fault
  end.

Definition get {S} : M S S := fun s => Ok (s, s).
Definition put {S} (s : S) : M S unit := fun _ => Ok (tt, s).
Definition modify {S} (f : S -> S) : M S unit := fun s => Ok (tt, f s).
Definition skip {S} : M S unit := mret tt.
Definition fault {S A} : M S A := fun _ => Fault.

(** Dereferencing: an absent object is undefined behaviour. *)
Definition deref {S A} (o : option A) : M S A :=
  match o with
  | Some a => mret a
  | None => fault
  end.

(** Run a computation on a part of the state. *)
Definition zoom {S T A} (prj : S -> T) (upd : T -> S -> S) (m : M T A) : M S A :=
  fun s => match m (prj s) with
           | Ok (a, t) => Ok (a, upd t s)
           | Err e => Err e
           | Fault => Fault
           end.

Definition wp {S A} (m : M S A) (Q : A -> S -> Prop) (s : S) : Prop :=
  match m s with
  | Ok (a, s') => Q a s'
  | _ => False
  end.

Section wp.
Context {S : Type}.

Lemma wp_ret {A} (a : A) (Q : A -> S -> Prop) s : Q a s -> wp (mret a) Q s.
Proof. done. Qed.

Lemma wp_bind {A B} (m : M S A) (k : A -> M S B) Q s :
  wp m (fun a => wp (k a) Q) s -> wp (m ≫= k) Q s.
Proof. unfold wp, mbind, M_bind. destruct (m s) as [[a s']| |]; done. Qed.

Lemma wp_skip (Q : unit -> S -> Prop) s : Q tt s -> wp skip Q s.
Proof. done. Qed.

Lemma wp_get (Q : S -> S -> Prop) s : Q s s -> wp get Q s.
Proof. done. Qed.

Lemma wp_put (s' : S) (Q : unit -> S -> Prop) s : Q tt s' -> wp (put s') Q s.
Proof. done. Qed.

Lemma wp_modify (f : S -> S) (Q : unit -> S -> Prop) s : Q tt (f s) -> wp (modify f) Q s.
Proof. done. Qed.

Lemma wp_deref {A} (o : option A) a (Q : A -> S -> Prop) s :
  o = Some a -> Q a s -> wp (deref o) Q s.
Proof. by intros ->. Qed.

Lemma wp_mono {A} (m : M S A) (P Q : A -> S -> Prop) s :
  wp m P s -> (forall a s', P a s' -> Q a s') -> wp m Q s.
Proof. unfold wp. destruct (m s) as [[a s']| |]; auto. Qed.

Lemma wp_and {A} (m : M S A) (P Q : A -> S -> Prop) s :
  wp m P s -> wp m Q s -> wp m (fun a s' => P a s' /\ Q a s') s.
Proof. unfold wp. destruct (m s) as [[a s']| |]; auto. Qed.

Lemma wp_zoom {T A} (prj : S -> T) (upd : T -> S -> S) (m : M T A) Q s :
  wp m (fun a t => Q a (upd t s)) (prj s) -> wp (zoom prj upd m) Q s.
Proof. unfold wp, zoom. destruct (m (prj s)) as [[a t]| |]; done. Qed.

Lemma wp_ok {A} (m : M S A) Q s : wp m Q s <-> exists a s', m s = Ok (a, s') /\ Q a s'.
Proof.
  unfold wp. split.
  - destruct (m s) as [[a s']| |]; [eauto|done|done].
  - by intros (a & s' & -> & H).
Qed.
End wp.

(** Symbolic execution of the basic steps. *)
Ltac wp_step :=
  lazymatch goal with
  | |- wp (_ ≫= _) _ _ => apply wp_bind
  | |- wp (mret _) _ _ => apply wp_ret
  | |- wp skip _ _ => apply wp_skip
  | |- wp get _ _ => apply wp_get
  | |- wp (put _) _ _ => apply wp_put
  | |- wp (modify _) _ _ => apply wp_modify
  | |- wp (deref _) _ _ => eapply wp_deref; [eassumption|]
  | |- wp (if ?b then _ else _) _ _ => destruct b eqn:?
  end; cbn beta.
Ltac wp_steps := repeat wp_step.
