(* ===== verification/Intrusive.v ===== *)
(** The intrusive containers, at the level of their pointers:
    [intrusive_list] and [intrusive_queue] of
    [include/boost/corosio/detail/intrusive.hpp] and [ready_queue] of
    [include/boost/corosio/detail/ready_queue.hpp].

    A store maps the address of a node to its links; a container is its head
    and tail pointers.  A representation predicate says which sequence a
    container holds in a store; the theorems say that each operation is the
    list operation it stands for, and touches no other node. *)

From S2P Require Import Prelude StateMonad.
From stdpp Require Import gmap list.

(** * The doubly linked list *)

Module intrusive_list.

Record node := mk_node { next_ : option nat; prev_ : option nat }.
Record t := mk { head_ : option nat; tail_ : option nat }.

Abbreviation store := (gmap nat node).
Abbreviation LM := (M store).

Definition default : t := mk None None.

Definition load (w : nat) : LM node := s ← get; deref (s !! w).
Definition set_next (w : nat) (p : option nat) : LM unit :=
  n ← load w; modify (fun s => <[w := mk_node p (prev_ n)]> s).
Definition set_prev (w : nat) (p : option nat) : LM unit :=
  n ← load w; modify (fun s => <[w := mk_node (next_ n) p]> s).

Definition empty (l : t) : bool :=
  match head_ l with
  | None => true
  | Some _ => false
  end.
Definition front (l : t) : option nat := head_ l.

(** The move constructor: the new list and the emptied source. *)
Definition move (other : t) : t * t := (mk (head_ other) (tail_ other), mk None None).

Definition push_back (l : t) (w : nat) : LM t :=
  _ ← set_next w None;
  _ ← set_prev w (tail_ l);
  match tail_ l with
  | Some tl => _ ← set_next tl (Some w); mret (mk (head_ l) (Some w))
  | None => mret (mk (Some w) (Some w))
  end.

(** The result is both lists. *)
Definition splice_back (l other : t) : LM (t * t) :=
  if empty other then mret (l, other)
  else
    match tail_ l with
    | Some tl =>
        _ ← set_next tl (head_ other);
        h ← deref (head_ other);
        _ ← set_prev h (tail_ l);
        mret (mk (head_ l) (tail_ other), mk None None)
    | None => mret (mk (head_ other) (tail_ other), mk None None)
    end.

Definition pop_front (l : t) : LM (option nat * t) :=
  match head_ l with
  | None => mret (None, l)
  | Some w =>
      n ← load w;
      l' ← match next_ n with
           | Some h => _ ← set_prev h None; mret (mk (Some h) (tail_ l))
           | None => mret (mk None None)
           end;
      _ ← set_next w None;
      _ ← set_prev w None;
      mret (Some w, l')
  end.

Definition eq_ptr (p : option nat) (w : nat) : bool := bool_decide (p = Some w).
Definition is_null (p : option nat) : bool :=
  match p with
  | None => true
  | Some _ => false
  end.

Definition remove (l : t) (w : nat) : LM t :=
  n ← load w;
  if is_null (next_ n) && is_null (prev_ n) && negb (eq_ptr (head_ l) w) && negb (eq_ptr (tail_ l) w)
  then mret l
  else
    l ← match prev_ n with
        | Some p => _ ← set_next p (next_ n); mret l
        | None => mret (mk (next_ n) (tail_ l))
        end;
    l ← match next_ n with
        | Some x => _ ← set_prev x (prev_ n); mret l
        | None => mret (mk (head_ l) (prev_ n))
        end;
    _ ← set_next w None;
    _ ← set_prev w None;
    mret l.

(** [for_each] visits the elements in order; the list bounds the walk. *)
Fixpoint for_each_loop (fuel : nat) (p : option nat) (acc : list nat) : LM (list nat) :=
  match fuel with
  | O => fault
  | S fuel =>
      match p with
      | None => mret acc
      | Some w => n ← load w; for_each_loop fuel (next_ n) (acc ++ [w])
      end
  end.
Definition for_each (fuel : nat) (l : t) : LM (list nat) := for_each_loop fuel (head_ l) [].

(** ** Representation *)

Definition before (xs : list nat) (i : nat) : option nat :=
  match i with
  | O => None
  | S i => xs !! i
  end.

(** [l] holds the sequence [xs] in the store [s]. *)
Record holds (s : store) (l : t) (xs : list nat) : Prop := {
  ho_head : head_ l = xs !! O;
  ho_tail : tail_ l = last xs;
  ho_nodup : NoDup xs;
  ho_links : forall i x, xs !! i = Some x -> s !! x = Some (mk_node (xs !! S i) (before xs i))
}.

(** Only nodes of [xs] may differ. *)
Definition frame (xs : list nat) (s s' : store) : Prop := forall y, y ∉ xs -> s' !! y = s !! y.

Lemma holds_frame s s' l xs ys :
  frame ys s s' -> (forall x, x ∈ xs -> x ∉ ys) -> holds s l xs -> holds s' l xs.
Proof.
  intros F D [H T N L]. constructor; try done. intros i x Hx. rewrite F; [by apply L|].
  apply D. by eapply list_elem_of_lookup_2.
Qed.

Lemma wp_load w n (Q : node -> store -> Prop) s : s !! w = Some n -> Q n s -> wp (load w) Q s.
Proof. intros. unfold load. by wp_steps. Qed.
Lemma wp_set_next w p n (Q : unit -> store -> Prop) s :
  s !! w = Some n -> Q tt (<[w := mk_node p (prev_ n)]> s) -> wp (set_next w p) Q s.
Proof. intros. unfold set_next. wp_step. eapply wp_load; [done|]. by wp_step. Qed.
Lemma wp_set_prev w p n (Q : unit -> store -> Prop) s :
  s !! w = Some n -> Q tt (<[w := mk_node (next_ n) p]> s) -> wp (set_prev w p) Q s.
Proof. intros. unfold set_prev. wp_step. eapply wp_load; [done|]. by wp_step. Qed.

Lemma before_app xs ys i : (i <= length xs)%nat -> before (xs ++ ys) i = before xs i.
Proof. destruct i as [|i]; [done|]. intros. cbn. by rewrite lookup_app_l by lia. Qed.

Lemma before_length xs : before xs (length xs) = last xs.
Proof.
  destruct xs as [|x xs]; [done|]. cbn [length before]. rewrite last_lookup. cbn [length].
  by rewrite Nat.pred_succ.
Qed.

Lemma push_back_wp l w xs (Q : t -> store -> Prop) s :
  holds s l xs -> w ∉ xs -> is_Some (s !! w) ->
  (forall l' s', holds s' l' (xs ++ [w]) -> frame (w :: xs) s s' -> Q l' s') ->
  wp (push_back l w) Q s.
Proof.
  intros [H T N L] Hw [n Hn] HQ. unfold push_back.
  wp_step. eapply wp_set_next; [done|]. wp_step. eapply wp_set_prev; [apply lookup_insert_eq|].
  rewrite insert_insert_eq. cbn [prev_ next_].
  assert (Nd : NoDup (xs ++ [w])).
  { apply list.NoDup_app. split; [done|]. split; [set_solver|apply NoDup_singleton]. }
  destruct (tail_ l) as [tl|] eqn:Et.
  - assert (Hl : xs !! (length xs - 1)%nat = Some tl).
    { transitivity (last xs); [|done]. rewrite last_lookup. f_equal. lia. }
    apply lookup_lt_Some in Hl as Hlt. apply list_elem_of_lookup_2 in Hl as Hin.
    assert (Hne : w <> tl) by (by intros ->).
    wp_step. eapply wp_set_next; [rewrite lookup_insert_ne by done; by apply L|].
    wp_step. apply HQ.
    + constructor; cbn [head_ tail_].
      * rewrite lookup_app_l by lia. done.
      * by rewrite last_snoc.
      * done.
      * intros i x Hx. apply lookup_app_Some in Hx as [Hx|[Hi Hx]].
        -- apply lookup_lt_Some in Hx as Hix. rewrite before_app by lia.
           destruct (decide (x = tl)) as [->|Hxt].
           ++ pose proof (NoDup_lookup xs i _ tl N Hx Hl) as ->.
              rewrite lookup_insert_eq. f_equal. f_equal.
              replace (S (length xs - 1)) with (length xs) by lia.
              by rewrite lookup_app_r, Nat.sub_diag by lia.
           ++ rewrite !lookup_insert_ne; [|by intros ->; apply Hw; eapply list_elem_of_lookup_2|done].
              rewrite (L i x Hx). f_equal. f_equal. rewrite lookup_app_l; [done|].
              destruct (decide (S i = length xs)); [|lia]. destruct Hxt.
              replace (length xs - 1)%nat with i in Hl by lia. congruence.
        -- apply list_lookup_singleton_Some in Hx as [Hz <-].
           assert (i = length xs) as -> by lia. rewrite lookup_insert_ne, lookup_insert_eq by done.
           rewrite before_app, before_length by lia. f_equal. f_equal; [|congruence].
           symmetry. apply lookup_ge_None. rewrite length_app. cbn. lia.
    + intros y Hy. rewrite !lookup_insert_ne; [done|set_solver|set_solver].
  - assert (Hnil : xs = []) by (by apply last_None). subst xs.
    wp_step. apply HQ.
    + constructor; try done. intros i x Hx. apply list_lookup_singleton_Some in Hx as [-> <-].
      by rewrite lookup_insert_eq.
    + intros y Hy. rewrite lookup_insert_ne; [done|set_solver].
Qed.

Lemma pop_front_wp l xs (Q : option nat * t -> store -> Prop) s :
  holds s l xs ->
  match xs with
  | [] => Q (None, l) s
  | w :: ws => forall l' s', holds s' l' ws -> s' !! w = Some (mk_node None None) ->
      frame xs s s' -> Q (Some w, l') s'
  end ->
  wp (pop_front l) Q s.
Proof.
  intros [H T N L] HQ. unfold pop_front. rewrite H. destruct xs as [|w ws].
  { apply wp_ret. done. }
  change ((w :: ws) !! O) with (Some w). cbn match.
  apply list.NoDup_cons in N as [Hw N].
  pose proof (L O w eq_refl) as Lw. change ((w :: ws) !! 1%nat) with (ws !! O) in Lw. cbn [before] in Lw.
  wp_step. eapply wp_load; [exact Lw|]. cbn [next_]. destruct ws as [|h ws].
  - change (([] : list nat) !! O) with (@None nat). cbn match.
    do 3 wp_step. eapply wp_set_next; [exact Lw|]. cbn [prev_ before].
    wp_step. eapply wp_set_prev; [apply lookup_insert_eq|]. wp_step.
    apply HQ; [by constructor|by rewrite lookup_insert_eq|].
    intros y Hy. rewrite !lookup_insert_ne by set_solver. done.
  - change ((h :: ws) !! O) with (Some h). cbn match. assert (Hne : h <> w) by set_solver.
    pose proof (L 1%nat h eq_refl) as Lh. change ((w :: h :: ws) !! 2%nat) with (ws !! O) in Lh.
    cbn [before] in Lh. change ((w :: h :: ws) !! O) with (Some w) in Lh.
    wp_step. wp_step. eapply wp_set_prev; [exact Lh|]. wp_step. wp_step.
    eapply wp_set_next; [by rewrite lookup_insert_ne|]. wp_step.
    eapply wp_set_prev; [apply lookup_insert_eq|]. wp_step. cbn [next_ prev_].
    rewrite insert_insert_eq. apply HQ.
    + constructor; try done. intros i x Hx. assert (x <> w).
      { intros ->. apply Hw. by eapply list_elem_of_lookup_2. }
      rewrite lookup_insert_ne by done. destruct i as [|i].
      * injection Hx as <-. by rewrite lookup_insert_eq.
      * assert (x <> h).
        { intros ->. apply list.NoDup_cons in N as [Hh _]. apply Hh. by eapply list_elem_of_lookup_2. }
        rewrite lookup_insert_ne by done. apply (L (S (S i)) x Hx).
    + by rewrite lookup_insert_eq.
    + intros y Hy. rewrite !lookup_insert_ne by set_solver. done.
Qed.

(** Splitting a list around one of its elements. *)
Lemma holds_split s l pre w post :
  holds s l (pre ++ w :: post) ->
  s !! w = Some (mk_node (post !! O) (last pre)) /\ w ∉ pre /\ w ∉ post.
Proof.
  intros [H T N L]. pose proof (L (length pre) w) as Lw. rewrite lookup_app_r, Nat.sub_diag in Lw by lia.
  specialize (Lw eq_refl). rewrite before_app, before_length in Lw by lia.
  replace ((pre ++ w :: post) !! S (length pre)) with (post !! O) in Lw.
  2: { rewrite lookup_app_r by lia. by replace (S (length pre) - length pre)%nat with 1%nat by lia. }
  apply list.NoDup_app in N as (N1 & N2 & N3). apply list.NoDup_cons in N3 as [N3 _].
  split; [done|]. set_solver.
Qed.

(** The links around a removed element. *)
Lemma removed_links s l pre w post i x :
  holds s l (pre ++ w :: post) -> (pre ++ post) !! i = Some x ->
  s !! x = Some (mk_node (if decide (S i = length pre) then Some w else (pre ++ post) !! S i)
                         (if decide (i = length pre) then Some w else before (pre ++ post) i)).
Proof.
  intros [H T N L] Hx. destruct (decide (i < length pre)%nat) as [Hi|Hi].
  - rewrite lookup_app_l in Hx by lia.
    rewrite (L i x) by (by rewrite lookup_app_l by lia). f_equal. f_equal.
    + case_decide as E; [rewrite E, lookup_app_r, Nat.sub_diag by lia; done|].
      rewrite !lookup_app_l by lia. done.
    + rewrite decide_False by lia. rewrite !before_app by lia. done.
  - rewrite lookup_app_r in Hx by lia.
    rewrite (L (S i) x).
    2: { rewrite lookup_app_r by lia. by replace (S i - length pre)%nat with (S (i - length pre)) by lia. }
    f_equal. rewrite decide_False by lia. f_equal.
    + rewrite !lookup_app_r by lia. by replace (S (S i) - length pre)%nat with (S (S i - length pre)) by lia.
    + cbn [before]. case_decide as E; [rewrite E, lookup_app_r, Nat.sub_diag by lia; done|].
      destruct i as [|i]; [lia|]. cbn [before]. rewrite !lookup_app_r by lia.
      by replace (S i - length pre)%nat with (S (i - length pre)) by lia.
Qed.

(** [if (n->prev_) n->prev_->next_ = nx; else head_ = nx;] *)
Lemma relink_next_wp l o nx (Q : t -> store -> Prop) s :
  (forall p, o = Some p -> is_Some (s !! p)) ->
  (forall s', (forall y, s' !! y = if decide (o = Some y) then (fun n => mk_node nx (prev_ n)) <$> s !! y
                                   else s !! y) ->
     Q (mk (if is_null o then nx else head_ l) (tail_ l)) s') ->
  wp (match o with
      | Some p => _ ← set_next p nx; mret l
      | None => mret (mk nx (tail_ l))
      end) Q s.
Proof.
  intros Ho HQ. destruct o as [p|].
  - destruct (Ho p eq_refl) as [n Hn]. wp_step. eapply wp_set_next; [done|]. wp_step.
    destruct l as [h tl]. apply HQ. intros y. rewrite lookup_insert.
    destruct (decide (p = y)) as [->|]; [rewrite decide_True by done; by rewrite Hn|].
    by rewrite decide_False by congruence.
  - wp_step. apply HQ. intros y. by rewrite decide_False.
Qed.

(** [if (n->next_) n->next_->prev_ = pv; else tail_ = pv;] *)
Lemma relink_prev_wp l o pv (Q : t -> store -> Prop) s :
  (forall p, o = Some p -> is_Some (s !! p)) ->
  (forall s', (forall y, s' !! y = if decide (o = Some y) then (fun n => mk_node (next_ n) pv) <$> s !! y
                                   else s !! y) ->
     Q (mk (head_ l) (if is_null o then pv else tail_ l)) s') ->
  wp (match o with
      | Some x => _ ← set_prev x pv; mret l
      | None => mret (mk (head_ l) pv)
      end) Q s.
Proof.
  intros Ho HQ. destruct o as [p|].
  - destruct (Ho p eq_refl) as [n Hn]. wp_step. eapply wp_set_prev; [done|]. wp_step.
    destruct l as [h tl]. apply HQ. intros y. rewrite lookup_insert.
    destruct (decide (p = y)) as [->|]; [rewrite decide_True by done; by rewrite Hn|].
    by rewrite decide_False by congruence.
  - wp_step. apply HQ. intros y. by rewrite decide_False.
Qed.

Lemma last_app_cons (xs : list nat) y ys : last (xs ++ y :: ys) = last (y :: ys).
Proof.
  rewrite !last_lookup, length_app. cbn [length].
  rewrite lookup_app_r by lia. f_equal. lia.
Qed.

(** Where the neighbours of a removed element are. *)
Lemma at_last pre post i (x : nat) :
  NoDup (pre ++ post) -> (pre ++ post) !! i = Some x -> last pre = Some x <-> S i = length pre.
Proof.
  intros N Hx. rewrite last_lookup. split.
  - intros Hl. apply lookup_lt_Some in Hl as Hlt.
    assert (Hl' : (pre ++ post) !! pred (length pre) = Some x) by (by rewrite lookup_app_l by lia).
    pose proof (NoDup_lookup _ _ _ _ N Hx Hl'). lia.
  - intros E. rewrite lookup_app_l in Hx by lia. by replace (pred (length pre)) with i by lia.
Qed.

Lemma at_first pre post i (x : nat) :
  NoDup (pre ++ post) -> (pre ++ post) !! i = Some x -> post !! O = Some x <-> i = length pre.
Proof.
  intros N Hx. split.
  - intros Hl. assert (Hl' : (pre ++ post) !! length pre = Some x)
      by (by rewrite lookup_app_r, Nat.sub_diag by lia).
    exact (NoDup_lookup _ _ _ _ N Hx Hl').
  - intros ->. by rewrite lookup_app_r, Nat.sub_diag in Hx by lia.
Qed.

Lemma remove_wp l pre w post (Q : t -> store -> Prop) s :
  holds s l (pre ++ w :: post) ->
  (forall l' s', holds s' l' (pre ++ post) -> s' !! w = Some (mk_node None None) ->
     frame (pre ++ w :: post) s s' -> Q l' s') ->
  wp (remove l w) Q s.
Proof.
  intros Ho HQ. destruct (holds_split s l pre w post Ho) as (Lw & Hpre & Hpost).
  pose proof (removed_links s l pre w post) as RL. destruct Ho as [H T N L] eqn:EHo.
  assert (Hlp : forall y, last pre = Some y -> pre !! (length pre - 1)%nat = Some y).
  { intros y Hy. rewrite last_lookup in Hy. by replace (length pre - 1)%nat with (pred (length pre)) by lia. }
  assert (Hin : forall y, last pre = Some y \/ post !! O = Some y ->
            y ∈ pre ++ w :: post /\ y <> w /\ is_Some (s !! y)).
  { intros y Hy. assert (Hy' : y ∈ pre \/ y ∈ post).
    { destruct Hy as [Hy|Hy]; [left; apply Hlp in Hy|right]; by eapply list_elem_of_lookup_2. }
    split; [set_solver|]. split; [by intros ->; destruct Hy'|].
    assert (Hx : y ∈ pre ++ w :: post) by set_solver.
    apply list_elem_of_lookup in Hx as [i Hi]. rewrite (L i y Hi). eauto. }
  unfold remove. wp_step. eapply wp_load; [exact Lw|]. cbn [next_ prev_].
  assert (Guard : is_null (post !! O) && is_null (last pre) && negb (eq_ptr (head_ l) w)
                  && negb (eq_ptr (tail_ l) w) = false).
  { destruct (post !! O) eqn:E1; [done|]. destruct (last pre) eqn:E2; [done|]. cbn.
    apply last_None in E2 as ->. unfold eq_ptr. rewrite H. cbn.
    rewrite bool_decide_eq_true_2 by done. done. }
  rewrite Guard. wp_step.
  apply relink_next_wp; [intros p Hp; by apply Hin; left|]. intros s1 S1.
  wp_step. apply relink_prev_wp.
  { intros x Hx. rewrite S1. destruct (Hin x ltac:(by right)) as (_ & _ & [n Hn]).
    rewrite Hn. case_decide; eauto. }
  intros s2 S2. cbn [head_ tail_].
  assert (S2w : s2 !! w = s !! w).
  { rewrite S2, S1. rewrite !decide_False; [done|..].
    - intros E. destruct (Hin w ltac:(by left)) as (_ & [] & _). done.
    - intros E. destruct (Hin w ltac:(by right)) as (_ & [] & _). done. }
  wp_step. eapply wp_set_next; [by rewrite S2w|]. wp_step.
  eapply wp_set_prev; [apply lookup_insert_eq|]. wp_step. rewrite insert_insert_eq. cbn [next_ prev_].
  apply HQ.
  - constructor; cbn [head_ tail_].
    + rewrite H. destruct pre as [|a pre]; [done|]. rewrite last_cons. by destruct (last pre).
    + rewrite T. destruct post as [|b post]; cbn.
      * by rewrite app_nil_r.
      * by rewrite !last_app_cons.
    + clear -N. apply list.NoDup_app in N as (N1 & N2 & N3). apply list.NoDup_cons in N3 as [_ N3].
      apply list.NoDup_app. split; [done|]. split; [set_solver|done].
    + intros i x Hx.
      assert (Hxin : x ∈ pre ++ post) by (by eapply list_elem_of_lookup_2).
      assert (Hxw : x <> w) by (intros ->; set_solver).
      rewrite lookup_insert_ne by done. rewrite S2, S1, (RL i x ltac:(by constructor) Hx).
      pose proof (proj1 (list.NoDup_app _ _) N) as (N1 & N2 & N3).
      assert (Nd : NoDup (pre ++ post)).
      { apply list.NoDup_cons in N3 as [_ N3]. apply list.NoDup_app.
        split; [done|]. split; [set_solver|done]. }
      pose proof (at_last pre post i x Nd Hx) as A1. pose proof (at_first pre post i x Nd Hx) as A2.
      destruct (decide (post !! O = Some x)) as [D2|D2].
      * apply A2 in D2 as ->. rewrite (decide_False (P := last pre = Some x)) by (rewrite A1; lia).
        rewrite (decide_False (P := S (length pre) = length pre)) by lia. cbn.
        by rewrite before_app, before_length by lia.
      * rewrite (decide_False (P := i = length pre)) by tauto.
        destruct (decide (last pre = Some x)) as [D1|D1].
        -- apply A1 in D1. rewrite (decide_True (P := S i = length pre)) by done. cbn.
           by rewrite D1, lookup_app_r, Nat.sub_diag by lia.
        -- by rewrite decide_False by tauto.
  - by rewrite lookup_insert_eq.
  - intros y Hy. rewrite lookup_insert_ne by set_solver. rewrite S2, S1.
    rewrite !decide_False; [done|..]; intros E; apply Hy; apply Hin; auto.
Qed.

(** Removing a node that is on no list does nothing. *)
Lemma remove_detached_wp l w xs (Q : t -> store -> Prop) s :
  holds s l xs -> w ∉ xs -> s !! w = Some (mk_node None None) -> Q l s -> wp (remove l w) Q s.
Proof.
  intros [H T N L] Hw Hn HQ. unfold remove. wp_step. eapply wp_load; [done|]. cbn [next_ prev_ is_null].
  assert (Hh : eq_ptr (head_ l) w = false).
  { apply bool_decide_eq_false_2. rewrite H. intros E. apply Hw. by eapply list_elem_of_lookup_2. }
  assert (Ht : eq_ptr (tail_ l) w = false).
  { apply bool_decide_eq_false_2. rewrite T, last_lookup. intros E. apply Hw.
    by eapply list_elem_of_lookup_2. }
  rewrite Hh, Ht. by apply wp_ret.
Qed.

Lemma splice_back_wp l other xs ys (Q : t * t -> store -> Prop) s :
  holds s l xs -> holds s other ys -> (forall x, x ∈ xs -> x ∉ ys) ->
  (forall l' s', holds s' l' (xs ++ ys) -> frame (xs ++ ys) s s' -> Q (l', mk None None) s') ->
  (ys = [] -> Q (l, other) s) ->
  wp (splice_back l other) Q s.
Proof.
  intros [H T N L] [H2 T2 N2 L2] D HQ H0. unfold splice_back, empty. rewrite H2.
  destruct ys as [|y ys]; [apply wp_ret; by apply H0|].
  change ((y :: ys) !! O) with (Some y). cbn match.
  assert (Nd : NoDup (xs ++ y :: ys)).
  { apply list.NoDup_app. split; [done|]. split; [set_solver|done]. }
  destruct (tail_ l) as [tl|] eqn:Et.
  - assert (Hl : xs !! (length xs - 1)%nat = Some tl).
    { transitivity (last xs); [|done]. rewrite last_lookup. f_equal. lia. }
    apply lookup_lt_Some in Hl as Hlt. apply list_elem_of_lookup_2 in Hl as Hin.
    assert (Hne : y <> tl) by (intros ->; apply (D tl Hin); set_solver).
    wp_step. eapply wp_set_next; [by apply L|]. cbn [deref]. wp_step. apply wp_ret. wp_step.
    eapply wp_set_prev; [rewrite lookup_insert_ne by done; by apply (L2 O)|]. wp_step. apply HQ.
    + constructor; cbn [head_ tail_].
      * rewrite H, lookup_app_l by lia. done.
      * by rewrite T2, last_app_cons.
      * done.
      * intros i x Hx. apply lookup_app_Some in Hx as Hc. destruct Hc as [Hc|[Hi Hc]].
        -- apply lookup_lt_Some in Hc as Hix. rewrite before_app by lia.
           assert (x <> y).
           { intros ->. apply (D y); [by eapply list_elem_of_lookup_2|set_solver]. }
           rewrite lookup_insert_ne by done. destruct (decide (x = tl)) as [->|Hxt].
           ++ pose proof (NoDup_lookup xs i _ tl N Hc Hl) as ->. rewrite lookup_insert_eq. cbn [prev_].
              do 2 f_equal. replace (S (length xs - 1)) with (length xs) by lia.
              by rewrite lookup_app_r, Nat.sub_diag by lia.
           ++ rewrite lookup_insert_ne by done. rewrite (L i x Hc). do 2 f_equal.
              rewrite lookup_app_l; [done|]. destruct (decide (S i = length xs)); [|lia].
              destruct Hxt. replace (length xs - 1)%nat with i in Hl by lia. congruence.
        -- assert (Hxt : x <> tl).
           { intros ->. apply (D tl Hin). by eapply list_elem_of_lookup_2. }
           destruct (i - length xs)%nat as [|k] eqn:Ek.
           ++ injection Hc as <-. assert (i = length xs) as -> by lia.
              rewrite lookup_insert_eq. cbn [next_]. rewrite before_app, before_length by lia.
              f_equal. f_equal; [|done]. rewrite lookup_app_r by lia.
              by replace (S (length xs) - length xs)%nat with 1%nat by lia.
           ++ assert (x <> y).
              { intros ->. apply list.NoDup_cons in N2 as [Hy _]. apply Hy.
                by eapply (list_elem_of_lookup_2 ys k). }
              rewrite !lookup_insert_ne by done. rewrite (L2 (S k) x Hc). do 2 f_equal.
              ** rewrite lookup_app_r by lia. f_equal. lia.
              ** destruct i as [|i]; [lia|]. cbn [before]. rewrite lookup_app_r by lia. f_equal. lia.
    + intros z Hz. rewrite !lookup_insert_ne by set_solver. done.
  - assert (Hnil : xs = []) by (by apply last_None). subst xs. wp_step.
    apply HQ; [|done]. by constructor.
Qed.

Lemma for_each_loop_wp fuel xs i acc (Q : list nat -> store -> Prop) l s :
  holds s l xs -> (length xs < i + fuel)%nat -> (i <= length xs)%nat ->
  Q (acc ++ drop i xs) s -> wp (for_each_loop fuel (xs !! i) acc) Q s.
Proof.
  intros Hh. revert i acc. induction fuel as [|fuel IH]; intros i acc Hf Hi HQ; [lia|].
  cbn [for_each_loop]. destruct (xs !! i) as [w|] eqn:Hw.
  - wp_step. eapply wp_load; [by apply Hh|]. cbn [next_]. apply lookup_lt_Some in Hw as Hlt.
    apply IH; [lia|lia|]. rewrite <- app_assoc. cbn. by erewrite <- drop_S.
  - wp_step. apply lookup_ge_None in Hw. rewrite drop_ge, app_nil_r in HQ by lia. done.
Qed.

(** ** The contract *)

(** C38: [intrusive_list] is a sequence of distinct nodes: [push_back] appends,
    [pop_front] takes the oldest node (and clears its links), [remove] takes a
    node out from any position and does nothing for a node on no list,
    [splice_back] moves the other list to the end, [for_each] visits the nodes
    in order.  None of them touches a node outside the lists involved, none
    follows a dangling or null link. *)
Theorem intrusive_list_is_a_sequence s l xs :
  holds s l xs ->
  (forall w, w ∉ xs -> is_Some (s !! w) ->
     wp (push_back l w) (fun l' s' => holds s' l' (xs ++ [w]) /\ frame (w :: xs) s s') s) /\
  wp (pop_front l) (fun r s' => match xs with
    | [] => r = (None, l) /\ s' = s
    | w :: ws => fst r = Some w /\ holds s' (snd r) ws /\ s' !! w = Some (mk_node None None) /\
        frame xs s s'
    end) s /\
  (forall pre w post, xs = pre ++ w :: post ->
     wp (remove l w) (fun l' s' => holds s' l' (pre ++ post) /\
       s' !! w = Some (mk_node None None) /\ frame xs s s') s) /\
  (forall w, w ∉ xs -> s !! w = Some (mk_node None None) ->
     wp (remove l w) (fun l' s' => l' = l /\ s' = s) s) /\
  (forall other ys, holds s other ys -> (forall x, x ∈ xs -> x ∉ ys) ->
     wp (splice_back l other) (fun r s' => holds s' (fst r) (xs ++ ys) /\ holds s' (snd r) [] /\
       frame (xs ++ ys) s s') s) /\
  for_each (S (length xs)) l s = Ok (xs, s) /\
  (empty l = true <-> xs = []).
Proof.
  intros Hh. repeat split.
  - intros w Hw Hs. by eapply push_back_wp.
  - eapply pop_front_wp; [done|]. destruct xs; [done|]. naive_solver.
  - intros pre w post ->. eapply remove_wp; [done|]. naive_solver.
  - intros w Hw Hn. by eapply remove_detached_wp.
  - intros other ys Ho Hd. eapply splice_back_wp; [done..| |].
    + intros l' s' H' F'. split; [done|]. split; [|done]. constructor; [done|done|constructor|done].
    + intros ->. cbn. by rewrite app_nil_r.
  - unfold for_each. rewrite (ho_head _ _ _ Hh).
    assert (H : wp (for_each_loop (S (length xs)) (xs !! O) []) (fun r s' => r = xs /\ s' = s) s).
    { eapply for_each_loop_wp; [done|lia|lia|]. done. }
    apply wp_ok in H as (r & s' & E & -> & ->). done.
  - unfold empty. rewrite (ho_head _ _ _ Hh). by destruct xs.
  - intros ->. unfold empty. by rewrite (ho_head _ _ _ Hh).
Qed.

(** Two nodes, linked. *)
Lemma intrusive_list_is_a_sequence_witness :
  let s : store := {[1%nat := mk_node (Some 2%nat) None; 2%nat := mk_node None (Some 1%nat)]} in
  for_each 3 (mk (Some 1%nat) (Some 2%nat)) s = Ok ([1%nat; 2%nat], s).
Proof.
  refine (proj1 (proj2 (proj2 (proj2 (proj2 (proj2 (intrusive_list_is_a_sequence
    {[1%nat := mk_node (Some 2%nat) None; 2%nat := mk_node None (Some 1%nat)]}
    (mk (Some 1%nat) (Some 2%nat)) [1%nat; 2%nat] _))))))).
  constructor; try reflexivity.
  - apply (bool_decide_unpack _). vm_compute. done.
  - intros [|[|i]] x Hx; [injection Hx as <-|injection Hx as <-|destruct i; discriminate Hx];
      reflexivity.
Defined.
End intrusive_list.

(** * Singly linked queues *)

(** [f] gives the next pointer of every live node; [h] and [t] are the head
    and tail of a queue that holds [xs]. *)
Record linked {E} (f : E -> option (option E)) (h t : option E) (xs : list E) : Prop := {
  lk_head : h = xs !! O;
  lk_tail : t = last xs;
  lk_nodup : NoDup xs;
  lk_next : forall i x, xs !! i = Some x -> f x = Some (xs !! S i)
}.

Lemma last_nonempty {E} (xs : list E) :
  xs <> [] -> exists tl, last xs = Some tl /\ xs !! (length xs - 1)%nat = Some tl.
Proof.
  intros Hx. destruct (last xs) as [tl|] eqn:L; [|by apply last_None in L].
  exists tl. split; [done|]. rewrite last_lookup in L.
  by replace (length xs - 1)%nat with (pred (length xs)) by lia.
Qed.

Lemma linked_frame {E} (f f' : E -> option (option E)) h t xs :
  (forall x, x ∈ xs -> f' x = f x) -> linked f h t xs -> linked f' h t xs.
Proof.
  intros F [H T N L]. constructor; try done. intros i x Hx. rewrite F; [by apply L|].
  by eapply list_elem_of_lookup_2.
Qed.

Lemma linked_push {E} `{!EqDecision E} (f f' : E -> option (option E)) h t xs e :
  linked f h t xs -> e ∉ xs -> f' e = Some None ->
  (forall tl, t = Some tl -> f' tl = Some (Some e)) ->
  (forall x, x <> e -> Some x <> t -> f' x = f x) ->
  linked f' (if bool_decide (t = None) then Some e else h) (Some e) (xs ++ [e]).
Proof.
  intros [H T N L] He Fe Ft Fo. destruct (decide (xs = [])) as [->|Hne].
  - cbn in *. subst. constructor; try done; [apply NoDup_singleton|].
    intros i x [-> <-]%list_lookup_singleton_Some. done.
  - destruct (last_nonempty xs Hne) as (tl & Hl & Hi). rewrite Hl in T. subst t.
    apply lookup_lt_Some in Hi as Hlt. constructor.
    + rewrite bool_decide_eq_false_2 by done. by rewrite lookup_app_l by lia.
    + by rewrite last_snoc.
    + apply list.NoDup_app. split; [done|]. split; [set_solver|apply NoDup_singleton].
    + intros i x Hx. apply lookup_app_Some in Hx as [Hx|[Hge Hx]].
      * apply lookup_lt_Some in Hx as Hix. destruct (decide (x = tl)) as [->|Hxt].
        -- rewrite (Ft tl) by done. pose proof (NoDup_lookup xs i _ tl N Hx Hi) as ->.
           replace (S (length xs - 1)) with (length xs) by lia.
           by rewrite lookup_app_r, Nat.sub_diag by lia.
        -- rewrite Fo; [|by intros ->; apply He; eapply list_elem_of_lookup_2|congruence].
           rewrite (L i x Hx). f_equal. rewrite lookup_app_l; [done|].
           destruct (decide (S i = length xs)); [|lia]. destruct Hxt.
           replace (length xs - 1)%nat with i in Hi by lia. congruence.
      * apply list_lookup_singleton_Some in Hx as [Hz <-]. rewrite Fe. f_equal. symmetry.
        apply lookup_ge_None. rewrite length_app. cbn. lia.
Qed.

Lemma linked_pop {E} (f f' : E -> option (option E)) h t w ws :
  linked f h t (w :: ws) -> (forall x, x <> w -> f' x = f x) ->
  h = Some w /\ f w = Some (ws !! O) /\
  linked f' (ws !! O) (if bool_decide (ws = []) then None else t) ws.
Proof.
  intros [H T N L] F. apply list.NoDup_cons in N as [Hw N]. split; [done|].
  split; [exact (L O w eq_refl)|]. constructor; try done.
  - destruct ws; [done|]. rewrite bool_decide_eq_false_2 by done. done.
  - intros i x Hx. rewrite F; [exact (L (S i) x Hx)|]. intros ->. apply Hw.
    by eapply list_elem_of_lookup_2.
Qed.

Lemma linked_splice {E} `{!EqDecision E} (f f' : E -> option (option E)) h t h2 t2 xs ys :
  linked f h t xs -> linked f h2 t2 ys -> ys <> [] -> (forall x, x ∈ xs -> x ∉ ys) ->
  (forall tl, t = Some tl -> f' tl = Some h2) ->
  (forall x, Some x <> t -> f' x = f x) ->
  linked f' (if bool_decide (t = None) then h2 else h) t2 (xs ++ ys).
Proof.
  intros [H T N L] [H2 T2 N2 L2] Hys D Ft Fo. destruct (decide (xs = [])) as [->|Hne].
  - cbn in *. subst. constructor; try done. intros i x Hx. rewrite Fo by done. by apply L2.
  - destruct (last_nonempty xs Hne) as (tl & Hl & Hi). rewrite Hl in T. subst t.
    apply lookup_lt_Some in Hi as Hlt. apply list_elem_of_lookup_2 in Hi as Hin. constructor.
    + rewrite bool_decide_eq_false_2 by done. by rewrite lookup_app_l by lia.
    + rewrite T2. destruct ys as [|y ys]; [done|]. rewrite !last_lookup, length_app. cbn [length].
      rewrite lookup_app_r by lia. f_equal. lia.
    + apply list.NoDup_app. split; [done|]. split; [set_solver|done].
    + intros i x Hx. apply lookup_app_Some in Hx as [Hx|[Hge Hx]].
      * apply lookup_lt_Some in Hx as Hix. destruct (decide (x = tl)) as [->|Hxt].
        -- rewrite (Ft tl) by done. pose proof (NoDup_lookup xs i _ tl N Hx Hi) as ->.
           replace (S (length xs - 1)) with (length xs) by lia.
           rewrite lookup_app_r, Nat.sub_diag by lia. by rewrite H2.
        -- rewrite Fo by congruence. rewrite (L i x Hx). f_equal. rewrite lookup_app_l; [done|].
           destruct (decide (S i = length xs)); [|lia]. destruct Hxt.
           replace (length xs - 1)%nat with i in Hi by lia. congruence.
      * rewrite Fo. 2: { intros [= ->]. apply (D tl Hin). by eapply list_elem_of_lookup_2. }
        rewrite (L2 _ x Hx). f_equal. rewrite lookup_app_r by lia. f_equal. lia.
Qed.

(** ** The interface of a FIFO

    What a scheduler needs of its queue: the operations and their laws.  An
    entry may be pushed while its node is alive and it is on no queue. *)
Class Fifo (St Q E : Type) := {
  fifo_default : Q;
  fifo_empty : Q -> bool;
  fifo_push : Q -> E -> M St Q;
  fifo_pop : Q -> M St (option E * Q);
  fifo_splice : Q -> Q -> M St (Q * Q);
  fifo_node : St -> E -> Prop;
  fifo_holds : St -> Q -> list E -> Prop;
  fifo_frame (xs : list E) (s s' : St) : Prop :=
    (forall q ys, (forall y, y ∈ ys -> y ∉ xs) -> fifo_holds s q ys -> fifo_holds s' q ys) /\
    (forall e, fifo_node s e -> fifo_node s' e);
  fifo_default_ok s : fifo_holds s fifo_default [];
  fifo_empty_ok s q xs : fifo_holds s q xs -> fifo_empty q = true <-> xs = [];
  fifo_push_ok s q xs e : fifo_holds s q xs -> fifo_node s e -> e ∉ xs ->
    wp (fifo_push q e) (fun q' s' => fifo_holds s' q' (xs ++ [e]) /\ fifo_frame (e :: xs) s s') s;
  fifo_pop_ok s q xs : fifo_holds s q xs ->
    wp (fifo_pop q) (fun r s' => match xs with
      | [] => r = (None, q) /\ s' = s
      | e :: es => fst r = Some e /\ fifo_holds s' (snd r) es /\ fifo_frame xs s s'
      end) s;
  fifo_splice_ok s q xs q2 ys : fifo_holds s q xs -> fifo_holds s q2 ys ->
    (forall x, x ∈ xs -> x ∉ ys) ->
    wp (fifo_splice q q2) (fun r s' => fifo_holds s' (fst r) (xs ++ ys) /\
      fifo_holds s' (snd r) [] /\ fifo_frame (xs ++ ys) s s') s
}.

Module intrusive_queue.

Record t := mk { head_ : option nat; tail_ : option nat }.

(** A node's [next_] pointer. *)
Abbreviation store := (gmap nat (option nat)).
Abbreviation QM := (M store).

Definition default : t := mk None None.
Definition load (w : nat) : QM (option nat) := s ← get; deref (s !! w).
Definition set_next (w : nat) (p : option nat) : QM unit :=
  _ ← load w; modify (fun s => <[w := p]> s).

Definition empty (q : t) : bool :=
  match head_ q with
  | None => true
  | Some _ => false
  end.

Definition move (other : t) : t * t := (mk (head_ other) (tail_ other), mk None None).

Definition push (q : t) (w : nat) : QM t :=
  _ ← set_next w None;
  match tail_ q with
  | Some tl => _ ← set_next tl (Some w); mret (mk (head_ q) (Some w))
  | None => mret (mk (Some w) (Some w))
  end.

Definition splice (q other : t) : QM (t * t) :=
  if empty other then mret (q, other)
  else
    match tail_ q with
    | Some tl =>
        _ ← set_next tl (head_ other);
        mret (mk (head_ q) (tail_ other), mk None None)
    | None => mret (mk (head_ other) (tail_ other), mk None None)
    end.

Definition pop (q : t) : QM (option nat * t) :=
  match head_ q with
  | None => mret (None, q)
  | Some w =>
      h ← load w;
      let q' := match h with
                | Some _ => mk h (tail_ q)
                | None => mk None None
                end in
      _ ← set_next w None;
      mret (Some w, q')
  end.

Definition holds (s : store) (q : t) (xs : list nat) : Prop :=
  linked (fun x => s !! x) (head_ q) (tail_ q) xs.
Definition alive (s : store) (w : nat) : Prop := is_Some (s !! w).

Lemma queue_wp_load w n (Q : option nat -> store -> Prop) s : s !! w = Some n -> Q n s -> wp (load w) Q s.
Proof. intros. unfold load. by wp_steps. Qed.
Lemma queue_wp_set_next w p (Q : unit -> store -> Prop) s :
  is_Some (s !! w) -> Q tt (<[w := p]> s) -> wp (set_next w p) Q s.
Proof. intros [n Hn] HQ. unfold set_next. wp_step. eapply queue_wp_load; [done|]. by wp_step. Qed.

Lemma queue_changed_frame (xs : list nat) (s s' : store) :
  (forall y, y ∉ xs -> s' !! y = s !! y) -> (forall y, is_Some (s !! y) -> is_Some (s' !! y)) ->
  (forall q ys, (forall y, y ∈ ys -> y ∉ xs) -> holds s q ys -> holds s' q ys) /\
  (forall e, alive s e -> alive s' e).
Proof.
  intros F A. split; [|done]. intros q ys D. apply linked_frame. intros x Hx. apply F. by apply D.
Qed.

Lemma queue_tail_in s q xs tl : holds s q xs -> tail_ q = Some tl -> tl ∈ xs /\ is_Some (s !! tl).
Proof.
  intros [H T N L] Et. rewrite Et in T.
  assert (Hi : xs !! pred (length xs) = Some tl) by (by rewrite <- last_lookup).
  split; [by eapply list_elem_of_lookup_2|]. rewrite (L _ _ Hi). eauto.
Qed.

#[export] Program Instance fifo : Fifo store t nat := {|
  fifo_default := default;
  fifo_empty := empty;
  fifo_push := push;
  fifo_pop := pop;
  fifo_splice := splice;
  fifo_node := alive;
  fifo_holds := holds
|}.
Next Obligation. intros s. constructor; try done. constructor. Qed.
Next Obligation.
  intros s q xs Hh. unfold empty. rewrite (lk_head _ _ _ _ Hh). by destruct xs.
Qed.
Next Obligation.
  intros s q xs e Hh He Hn. unfold push. wp_step. apply queue_wp_set_next; [done|].
  pose proof (linked_push (fun x => s !! x)) as LP. unfold holds in *.
  destruct (tail_ q) as [tl|] eqn:Et.
  - destruct (queue_tail_in s q xs tl) as [Hin Hs]; [by unfold holds; rewrite Et|done|].
    assert (e <> tl) by (by intros ->).
    wp_step. apply queue_wp_set_next; [by rewrite lookup_insert_ne|]. wp_step. split.
    + eapply (LP (fun x => <[tl:=Some e]> (<[e:=None]> s) !! x) _ _ xs e Hh Hn); cbn.
      * by rewrite lookup_insert_ne, lookup_insert_eq.
      * intros tl' [= <-]. apply lookup_insert_eq.
      * intros x Hx Ht. rewrite !lookup_insert_ne; congruence.
    + apply queue_changed_frame.
      * intros y Hy. rewrite !lookup_insert_ne; [done|set_solver..].
      * intros y Hy. rewrite !lookup_insert_is_Some. destruct (decide (tl = y)), (decide (e = y)); tauto.
  - wp_step. split.
    + eapply (LP (fun x => <[e:=None]> s !! x) _ _ xs e Hh Hn); cbn; try done.
      * apply lookup_insert_eq.
      * intros x Hx _. by rewrite lookup_insert_ne.
    + apply queue_changed_frame.
      * intros y Hy. rewrite lookup_insert_ne; [done|set_solver].
      * intros y Hy. rewrite lookup_insert_is_Some. destruct (decide (e = y)); tauto.
Qed.
Next Obligation.
  intros s q xs Hh. unfold pop. rewrite (lk_head _ _ _ _ Hh). destruct xs as [|w ws].
  { apply wp_ret. done. }
  destruct (linked_pop _ (fun x => <[w := None]> s !! x) _ _ w ws Hh) as (_ & Lw & Hl).
  { intros x Hx. by rewrite lookup_insert_ne. }
  change ((w :: ws) !! O) with (Some w). cbn match. wp_step. eapply queue_wp_load; [exact Lw|].
  wp_step. apply queue_wp_set_next; [eauto|]. wp_step. cbn [fst snd]. split; [done|]. split.
  - unfold holds. destruct ws as [|x ws]; [done|]. exact Hl.
  - apply queue_changed_frame.
    + intros y Hy. rewrite lookup_insert_ne; [done|set_solver].
    + intros y Hy. rewrite lookup_insert_is_Some. destruct (decide (w = y)); tauto.
Qed.
Next Obligation.
  intros s q xs q2 ys Hh H2 D. unfold splice.
  assert (Hnil : forall s', holds s' (mk None None) []).
  { intros s'. constructor; try done. constructor. }
  unfold empty. rewrite (lk_head _ _ _ _ H2). destruct ys as [|y ys].
  { apply wp_ret. cbn [fst snd]. rewrite app_nil_r. split; [done|]. split; [done|].
    by apply queue_changed_frame. }
  change ((y :: ys) !! O) with (Some y). cbn match.
  pose proof (linked_splice (fun x => s !! x)) as LS. unfold holds in *.
  destruct (tail_ q) as [tl|] eqn:Et.
  - destruct (queue_tail_in s q xs tl) as [Hin Hs]; [by unfold holds; rewrite Et|done|].
    wp_step. apply queue_wp_set_next; [done|]. wp_step. cbn [fst snd]. split; [|split; [done|]].
    + eapply (LS (fun x => <[tl:=_]> s !! x) _ _ _ _ xs (y :: ys) Hh H2); try done; cbn.
      * intros tl' [= <-]. by rewrite lookup_insert_eq, (lk_head _ _ _ _ H2).
      * intros x Hx. rewrite lookup_insert_ne; congruence.
    + apply queue_changed_frame.
      * intros z Hz. rewrite lookup_insert_ne; [done|set_solver].
      * intros z Hz. rewrite lookup_insert_is_Some. destruct (decide (tl = z)); tauto.
  - wp_step. cbn [fst snd]. split; [|split; [done|by apply queue_changed_frame]].
    cbn [head_ tail_]. replace (Some y) with (head_ q2) by exact (lk_head _ _ _ _ H2).
    by eapply (LS (fun x => s !! x) _ _ _ _ xs (y :: ys) Hh H2).
Qed.
End intrusive_queue.

Module ready_queue.
#[local] Open Scope Z_scope.

(** The next-links: [scheduler_op::q_next_] and [capy::continuation::reserved],
    by the address of the node. *)
Record store := mk_store { ops : gmap Z Z; conts : gmap Z Z }.
Abbreviation RM := (M store).

(** Tagged entries; 0 is the null entry. *)
Record t := mk { head_ : Z; tail_ : Z }.

Definition ready_cont_bit : Z := 1.
Definition ready_is_continuation (e : Z) : bool := negb (Z.land e ready_cont_bit =? 0).
(** [e & ~ready_cont_bit], the address; the same computation for both kinds. *)
Definition ready_as_op (e : Z) : Z := Z.land e (Z.lnot ready_cont_bit).
Definition ready_as_cont (e : Z) : Z := Z.land e (Z.lnot ready_cont_bit).

Definition raw_next (s : store) (e : Z) : option Z :=
  if ready_is_continuation e then conts s !! ready_as_cont e else ops s !! ready_as_op e.
Definition next_of (e : Z) : RM Z := s ← get; deref (raw_next s e).
Definition set_next (e nxt : Z) : RM unit :=
  _ ← next_of e;
  modify (fun s => if ready_is_continuation e
                   then mk_store (ops s) (<[ready_as_cont e := nxt]> (conts s))
                   else mk_store (<[ready_as_op e := nxt]> (ops s)) (conts s)).

Definition default : t := mk 0 0.
Definition empty (q : t) : bool := head_ q =? 0.
Definition move (o : t) : t * t := (mk (head_ o) (tail_ o), mk 0 0).

Definition push_entry (q : t) (e : Z) : RM t :=
  _ ← set_next e 0;
  if tail_ q =? 0 then mret (mk e e)
  else _ ← set_next (tail_ q) e; mret (mk (head_ q) e).

Definition push_op (q : t) (op : Z) : RM t := push_entry q op.
Definition push_cont (q : t) (c : Z) : RM t := push_entry q (Z.lor c ready_cont_bit).

Definition splice (q other : t) : RM (t * t) :=
  if empty other then mret (q, other)
  else if tail_ q =? 0 then mret (mk (head_ other) (tail_ other), mk 0 0)
  else _ ← set_next (tail_ q) (head_ other);
       mret (mk (head_ q) (tail_ other), mk 0 0).

(** The front entry, 0 when the queue is empty. *)
Definition pop (q : t) : RM (Z * t) :=
  let e := head_ q in
  if e =? 0 then mret (0, q)
  else
    h ← next_of e;
    mret (e, if h =? 0 then mk 0 0 else mk h (tail_ q)).

(** ** Tags *)

Lemma untag_tag e : e = Z.land e (Z.lnot 1) + Z.land e 1.
Proof.
  replace (Z.land e (Z.lnot 1)) with (Z.ldiff e (Z.ones 1)) by apply Z.ldiff_land.
  replace (Z.land e 1) with (e mod 2) by (symmetry; exact (Z.land_ones e 1 ltac:(lia))).
  rewrite Z.ldiff_ones_r, Z.shiftl_mul_pow2, Z.shiftr_div_pow2 by lia. change (2 ^ 1) with 2. zdiv.
Qed.

Lemma same_node e1 e2 :
  ready_is_continuation e1 = ready_is_continuation e2 -> ready_as_op e1 = ready_as_op e2 -> e1 = e2.
Proof.
  unfold ready_is_continuation, ready_as_op, ready_cont_bit. intros Ht Ha.
  rewrite (untag_tag e1), (untag_tag e2), Ha. f_equal.
  change 1 with (Z.ones 1) in *. rewrite !Z.land_ones in * by lia. change (2 ^ 1) with 2 in *.
  pose proof (Z.mod_pos_bound e1 2). pose proof (Z.mod_pos_bound e2 2).
  destruct (Z.eqb_spec (e1 mod 2) 0), (Z.eqb_spec (e2 mod 2) 0); cbn in Ht; try discriminate; lia.
Qed.

Definition of_ptr (z : Z) : option Z := if z =? 0 then None else Some z.
Definition link (s : store) (e : Z) : option (option Z) := of_ptr <$> raw_next s e.

Definition holds (s : store) (q : t) (xs : list Z) : Prop :=
  linked (link s) (of_ptr (head_ q)) (of_ptr (tail_ q)) xs /\ (0 ∉ xs).
Definition alive (s : store) (e : Z) : Prop := e <> 0 /\ is_Some (raw_next s e).

Lemma of_ptr_nonzero z : z <> 0 -> of_ptr z = Some z.
Proof. intros H. unfold of_ptr. by rewrite (proj2 (Z.eqb_neq z 0) H). Qed.

Lemma wp_next_of e n (Q : Z -> store -> Prop) s : raw_next s e = Some n -> Q n s -> wp (next_of e) Q s.
Proof. intros. unfold next_of. by wp_steps. Qed.

Lemma ready_wp_set_next e nxt (Q : unit -> store -> Prop) s :
  is_Some (raw_next s e) ->
  (forall s', raw_next s' e = Some nxt -> (forall x, x <> e -> raw_next s' x = raw_next s x) -> Q tt s') ->
  wp (set_next e nxt) Q s.
Proof.
  intros [n Hn] HQ. unfold set_next. wp_step. eapply wp_next_of; [done|]. wp_step. apply HQ.
  - unfold raw_next. destruct (ready_is_continuation e); cbn; apply lookup_insert_eq.
  - intros x Hx. unfold raw_next. pose proof (same_node x e) as Inj.
    unfold ready_as_cont, ready_as_op in *.
    destruct (ready_is_continuation e), (ready_is_continuation x); cbn; try done;
      rewrite lookup_insert_ne; try done; intros E; apply Hx, Inj; done.
Qed.

Lemma raw_link s s' x : raw_next s' x = raw_next s x -> link s' x = link s x.
Proof. unfold link. by intros ->. Qed.

Lemma alive_preserved s s' e nxt :
  raw_next s' e = Some nxt -> (forall x, x <> e -> raw_next s' x = raw_next s x) ->
  forall x, alive s x -> alive s' x.
Proof.
  intros He Ho x [H0 Hx]. split; [done|]. destruct (decide (x = e)) as [->|Hn]; [eauto|by rewrite Ho].
Qed.

Lemma ready_changed_frame (xs : list Z) (s s' : store) :
  (forall y, y ∉ xs -> raw_next s' y = raw_next s y) -> (forall y, alive s y -> alive s' y) ->
  (forall q ys, (forall y, y ∈ ys -> y ∉ xs) -> holds s q ys -> holds s' q ys) /\
  (forall e, alive s e -> alive s' e).
Proof.
  intros F A. split; [|done]. intros q ys D [Hl H0]. split; [|done].
  eapply linked_frame; [|exact Hl]. intros x Hx. apply raw_link, F. by apply D.
Qed.

Lemma ready_tail_in s q xs :
  holds s q xs -> tail_ q <> 0 -> tail_ q ∈ xs /\ is_Some (raw_next s (tail_ q)).
Proof.
  intros [[H T N L] _] Ht. rewrite of_ptr_nonzero in T by done.
  assert (Hi : xs !! pred (length xs) = Some (tail_ q)) by (by rewrite <- last_lookup).
  split; [by eapply list_elem_of_lookup_2|]. specialize (L _ _ Hi). unfold link in L.
  destruct (raw_next s (tail_ q)); [eauto|done].
Qed.

#[export] Program Instance fifo : Fifo store t Z := {|
  fifo_default := default;
  fifo_empty := empty;
  fifo_push := push_entry;
  fifo_pop := fun q => r ← pop q; mret (of_ptr (fst r), snd r);
  fifo_splice := splice;
  fifo_node := alive;
  fifo_holds := holds
|}.
Next Obligation. intros s. split; [constructor; try done; constructor|apply not_elem_of_nil]. Qed.
Next Obligation.
  intros s q xs [Hh H0]. unfold empty. pose proof (lk_head _ _ _ _ Hh) as E. unfold of_ptr in E.
  destruct (head_ q =? 0); [|by destruct xs]. by destruct xs.
Qed.
Next Obligation.
  intros s q xs e Hh He Hn. unfold push_entry. destruct He as [Hz Hs]. wp_step.
  apply ready_wp_set_next; [done|]. intros s1 S1 O1. pose proof Hh as [Hl H0].
  pose proof (linked_push (link s)) as LP. destruct (Z.eqb_spec (tail_ q) 0) as [Et|Et].
  - wp_step. rewrite Et in Hl. split.
    + split; [|set_solver]. cbn [head_ tail_]. rewrite of_ptr_nonzero by done.
      eapply (LP (link s1) _ _ xs e Hl Hn); try done.
      * unfold link. by rewrite S1.
      * intros x Hx _. by apply raw_link, O1.
    + apply ready_changed_frame; [intros y Hy; apply O1; set_solver|by eapply alive_preserved].
  - destruct (ready_tail_in s q xs Hh Et) as [Hin Hs']. assert (Hne : tail_ q <> e) by (intros <-; done).
    wp_step. apply ready_wp_set_next; [by rewrite O1|]. intros s2 S2 O2. wp_step. split.
    + split; [|set_solver]. cbn [head_ tail_]. rewrite (of_ptr_nonzero e) by done.
      rewrite (of_ptr_nonzero (tail_ q)) in Hl by done.
      eapply (LP (link s2) _ _ xs e Hl Hn).
      * unfold link. rewrite O2, S1 by congruence. done.
      * intros tl [= <-]. unfold link. rewrite S2. cbn. by rewrite of_ptr_nonzero.
      * intros x Hx Ht. apply raw_link. rewrite O2, O1 by congruence. done.
    + apply ready_changed_frame.
      * intros y Hy. rewrite O2, O1 by set_solver. done.
      * intros y Hy. eapply alive_preserved; [exact S2|exact O2|]. by eapply alive_preserved.
Qed.
Next Obligation.
  intros s q xs [Hl H0]. unfold pop. wp_step. pose proof (lk_head _ _ _ _ Hl) as E.
  destruct xs as [|w ws].
  { unfold of_ptr in E. destruct (Z.eqb_spec (head_ q) 0); [|done]. do 2 apply wp_ret. done. }
  destruct (linked_pop _ (link s) _ _ w ws Hl ltac:(done)) as (Eh & Lw & Hl').
  unfold of_ptr in Eh. destruct (Z.eqb_spec (head_ q) 0); [done|]. injection Eh as Eh. rewrite Eh.
  unfold link in Lw. destruct (raw_next s w) as [h|] eqn:R; [|done]. injection Lw as Lw.
  wp_step. eapply wp_next_of; [exact R|]. do 2 wp_step. cbn [fst snd].
  split; [apply of_ptr_nonzero; set_solver|]. split; [|by apply ready_changed_frame].
  split; [|set_solver]. rewrite <- Lw in Hl'. unfold of_ptr in Lw.
  destruct (Z.eqb_spec h 0) as [->|Hz].
  - destruct ws; [|done]. cbn in *. exact Hl'.
  - destruct ws; [done|]. exact Hl'.
Qed.
Next Obligation.
  intros s q xs q2 ys Hh H2 D. unfold splice.
  assert (Hnil : forall s', holds s' (mk 0 0) []).
  { intros s'. split; [constructor; try done; constructor|apply not_elem_of_nil]. }
  pose proof Hh as [Hl H0]. pose proof H2 as [Hl2 H02]. pose proof (lk_head _ _ _ _ Hl2) as E2.
  unfold empty. destruct (Z.eqb_spec (head_ q2) 0) as [Ez|Ez].
  { wp_step. cbn [fst snd]. rewrite Ez in E2. destruct ys; [|done]. rewrite app_nil_r.
    split; [done|]. split; [done|]. by apply ready_changed_frame. }
  assert (Hys : ys <> []) by (intros ->; rewrite of_ptr_nonzero in E2; done).
  pose proof (linked_splice (link s)) as LS. destruct (Z.eqb_spec (tail_ q) 0) as [Et|Et].
  - wp_step. cbn [fst snd]. rewrite Et in Hl. split; [|split; [done|by apply ready_changed_frame]].
    split; [|set_solver]. by eapply (LS (link s) _ _ _ _ xs ys Hl Hl2).
  - destruct (ready_tail_in s q xs Hh Et) as [Hin Hs]. wp_step. apply ready_wp_set_next; [done|]. intros s1 S1 O1.
    wp_step. cbn [fst snd]. rewrite (of_ptr_nonzero (tail_ q)) in Hl by done.
    split; [|split; [done|]].
    + split; [|set_solver]. eapply (LS (link s1) _ _ _ _ xs ys Hl Hl2); try done.
      * intros tl [= <-]. unfold link. by rewrite S1.
      * intros x Hx. apply raw_link, O1. congruence.
    + apply ready_changed_frame; [intros y Hy; apply O1; set_solver|by eapply alive_preserved].
Qed.
End ready_queue.

(** * Clients of a FIFO *)

Section clients.
Context {St Q E : Type} `{F : !Fifo St Q E} `{!EqDecision E}.

Fixpoint push_all (q : Q) (es : list E) : M St Q :=
  match es with
  | [] => mret q
  | e :: es => q ← fifo_push q e; push_all q es
  end.

(** [while (auto e = q.pop())] *)
Fixpoint drain (fuel : nat) (q : Q) (acc : list E) : M St (list E * Q) :=
  match fuel with
  | O => fault
  | S fuel =>
      r ← fifo_pop q;
      match fst r with
      | None => mret (acc, snd r)
      | Some e => drain fuel (snd r) (acc ++ [e])
      end
  end.

Lemma frame_trans xs ys s1 s2 s3 :
  (forall x, x ∈ ys -> x ∈ xs) -> fifo_frame xs s1 s2 -> fifo_frame ys s2 s3 -> fifo_frame xs s1 s3.
Proof.
  intros Sub [A1 B1] [A2 B2]. split; [|auto]. intros q zs D H. apply A2; [|by apply A1].
  intros y Hy Hin. by apply (D y Hy), Sub.
Qed.

Lemma push_all_wp es q xs (P : Q -> St -> Prop) s :
  fifo_holds s q xs -> NoDup (xs ++ es) -> Forall (fifo_node s) es ->
  (forall q' s', fifo_holds s' q' (xs ++ es) -> fifo_frame (xs ++ es) s s' -> P q' s') ->
  wp (push_all q es) P s.
Proof.
  revert q xs s. induction es as [|e es IH]; intros q xs s Hh Hd Ha HP; cbn [push_all].
  - wp_step. rewrite app_nil_r in HP. apply HP; [done|]. split; auto.
  - apply Forall_cons in Ha as [He Ha]. pose proof (proj1 (list.NoDup_app _ _) Hd) as (N1 & N2 & N3).
    wp_step. eapply wp_mono; [apply (fifo_push_ok s q xs e Hh He); set_solver|].
    intros q1 s1 [H1 F1]. apply (IH q1 (xs ++ [e]) s1 H1).
    + by rewrite <- app_assoc.
    + eapply Forall_impl; [exact Ha|]. apply F1.
    + intros q2 s2 H2 F2. rewrite <- app_assoc in H2. apply HP; [done|].
      eapply (frame_trans _ (xs ++ [e] ++ es)); [done| |by rewrite app_assoc].
      destruct F1 as [A1 B1]. split; [|done]. intros q' zs D. apply A1. set_solver.
Qed.

Lemma fifo_drain_wp fuel q xs acc (P : list E * Q -> St -> Prop) s :
  fifo_holds s q xs -> (length xs < fuel)%nat ->
  (forall q' s', fifo_holds s' q' [] -> P (acc ++ xs, q') s') ->
  wp (drain fuel q acc) P s.
Proof.
  revert q xs acc s. induction fuel as [|fuel IH]; intros q xs acc s Hh Hf HP; [lia|].
  cbn [drain]. wp_step. eapply wp_mono; [by apply (fifo_pop_ok s q xs)|]. intros r s1 H.
  destruct xs as [|e es].
  - destruct H as [-> ->]. cbn. apply wp_ret. rewrite app_nil_r in HP. by apply HP.
  - destruct H as (Er & H1 & _). rewrite Er. apply (IH _ es); [done|cbn in *; lia|].
    intros q' s' H'. rewrite <- app_assoc. by apply HP.
Qed.

(** Pushing [es], splicing a second queue behind them and draining gives the
    old entries, the pushed ones and those of the second queue, in order. *)
Lemma fifo_session_wp q xs q2 ys es s :
  fifo_holds s q xs -> fifo_holds s q2 ys -> NoDup (xs ++ es ++ ys) -> Forall (fifo_node s) es ->
  wp (q ← push_all q es;
      r ← fifo_splice q q2;
      drain (S (length (xs ++ es ++ ys))) (fst r) [])
    (fun r s' => fst r = xs ++ es ++ ys /\ fifo_holds s' (snd r) []) s.
Proof.
  intros H1 H2 Hd Ha. rewrite app_assoc in Hd. pose proof (proj1 (list.NoDup_app _ _) Hd) as (N1 & N2 & N3).
  wp_step. apply (push_all_wp es q xs); [done..|]. intros q' s' H' [Fr _]. wp_step.
  eapply wp_mono.
  { apply (fifo_splice_ok s' q' (xs ++ es) q2 ys H'); [|set_solver]. apply Fr; [set_solver|done]. }
  intros [a b] s2 (Ha2 & Hb2 & _). cbn [fst snd] in *. rewrite <- app_assoc in Ha2.
  apply (fifo_drain_wp _ _ (xs ++ es ++ ys)); [done|lia|]. intros q3 s3 H3. done.
Qed.
End clients.

(** [intrusive_queue] is first-in first-out: entries pushed onto a queue
    come out after the old ones, a spliced queue after both, each exactly once
    and in order, and the queue ends up empty; no operation follows a dangling
    or null link. *)
Theorem intrusive_queue_is_fifo q xs q2 ys es s :
  intrusive_queue.holds s q xs -> intrusive_queue.holds s q2 ys -> NoDup (xs ++ es ++ ys) ->
  Forall (fun w => is_Some (s !! w)) es ->
  exists q' s',
    (q ← push_all (F := intrusive_queue.fifo) q es;
     r ← intrusive_queue.splice q q2;
     drain (F := intrusive_queue.fifo) (S (length (xs ++ es ++ ys))) (fst r) []) s =
      Ok ((xs ++ es ++ ys, q'), s') /\
    intrusive_queue.empty q' = true.
Proof.
  intros H1 H2 Hd Ha. pose proof (fifo_session_wp (F := intrusive_queue.fifo) q xs q2 ys es s H1 H2 Hd Ha) as H.
  apply wp_ok in H as ([l q'] & s' & E & El & Hh). cbn in El. subst l. exists q', s'.
  split; [exact E|]. by apply (proj2 (fifo_empty_ok (Fifo := intrusive_queue.fifo) s' q' [] Hh)).
Qed.

Lemma intrusive_queue_is_fifo_witness :
  let s : gmap nat (option nat) := {[1%nat := None; 2%nat := None; 3%nat := None]} in
  exists q' s',
    (q ← push_all (F := intrusive_queue.fifo) (intrusive_queue.mk None None) [2%nat; 3%nat];
     r ← intrusive_queue.splice q (intrusive_queue.mk (Some 1%nat) (Some 1%nat));
     drain (F := intrusive_queue.fifo) 4 (fst r) []) s =
      Ok (([2%nat; 3%nat; 1%nat], q'), s') /\
    intrusive_queue.empty q' = true.
Proof.
  refine (intrusive_queue_is_fifo (intrusive_queue.mk None None) []
    (intrusive_queue.mk (Some 1%nat) (Some 1%nat)) [1%nat] [2%nat; 3%nat] _ _ _ _ _).
  - constructor; try reflexivity; [constructor|discriminate].
  - constructor; try reflexivity; [apply NoDup_singleton|].
    intros i x [-> <-]%list_lookup_singleton_Some. reflexivity.
  - apply (bool_decide_unpack _). vm_compute. done.
  - repeat (apply Forall_cons_2; [eexists; reflexivity|]). apply Forall_nil_2.
Defined.

(** The two kinds of work a scheduler queues. *)
Inductive ready_item := Op (addr : Z) | Cont (addr : Z).

Definition tag_item (i : ready_item) : Z :=
  match i with
  | Op a => a
  | Cont a => Z.lor a ready_queue.ready_cont_bit
  end.
Definition untag_item (e : Z) : ready_item :=
  if ready_queue.ready_is_continuation e then Cont (ready_queue.ready_as_cont e)
  else Op (ready_queue.ready_as_op e).
Definition item_addr (i : ready_item) : Z :=
  match i with
  | Op a | Cont a => a
  end.

Lemma tag_parts a : (a mod 2 = 0 -> Z.lor a 1 = a + 1 /\ Z.land a 1 = 0)%Z.
Proof.
  intros H. assert (Hl : Z.land a 1 = 0%Z) by (rewrite <- H; exact (Z.land_ones a 1 ltac:(lia))).
  split; [|done]. rewrite <- Z.lxor_lor, <- Z.add_nocarry_lxor by done. done.
Qed.

Lemma untag_tag_item i : (item_addr i mod 2 = 0)%Z -> untag_item (tag_item i) = i.
Proof.
  unfold untag_item, tag_item, ready_queue.ready_is_continuation, ready_queue.ready_as_cont,
    ready_queue.ready_as_op, ready_queue.ready_cont_bit.
  destruct i as [a|a]; cbn [item_addr]; intros Ha; destruct (tag_parts a Ha) as [E1 E2].
  - rewrite E2. cbn. f_equal. pose proof (ready_queue.untag_tag a). lia.
  - rewrite E1. assert (E3 : Z.land (a + 1) 1 = 1%Z).
    { transitivity ((a + 1) mod 2)%Z; [exact (Z.land_ones (a + 1) 1 ltac:(lia))|]. zdiv. }
    rewrite E3. cbn. f_equal. pose proof (ready_queue.untag_tag (a + 1)). lia.
Qed.

(** [ready_queue] keeps completion handlers and continuations in one
    first-in first-out order: for live nodes at even, non-null addresses, what
    comes out after any mix of pushes and a splice is what went in, each item
    once, in order, with its kind and its address recovered from the tag. *)
Theorem ready_queue_is_fifo q (xs : list Z) q2 (ys : list Z) (items : list ready_item) s :
  ready_queue.holds s q xs -> ready_queue.holds s q2 ys ->
  NoDup (xs ++ map tag_item items ++ ys) ->
  Forall (fun i => (item_addr i mod 2 = 0)%Z /\ ready_queue.alive s (tag_item i)) items ->
  exists q' s',
    (q ← push_all (F := ready_queue.fifo) q (map tag_item items);
     r ← ready_queue.splice q q2;
     drain (F := ready_queue.fifo) (S (length (xs ++ map tag_item items ++ ys))) (fst r) []) s =
      Ok ((xs ++ map tag_item items ++ ys, q'), s') /\
    ready_queue.empty q' = true /\
    map untag_item (map tag_item items) = items.
Proof.
  intros H1 H2 Hd Ha.
  assert (Hn : Forall (ready_queue.alive s) (map tag_item items)).
  { apply Forall_forall. intros e (i & -> & Hi)%list_elem_of_fmap.
    rewrite Forall_forall in Ha. by apply Ha. }
  pose proof (fifo_session_wp (F := ready_queue.fifo) q xs q2 ys _ s H1 H2 Hd Hn) as H.
  apply wp_ok in H as ([l q'] & s' & E & El & Hh). cbn in El. subst l. exists q', s'.
  split; [exact E|]. split; [by apply (proj2 (fifo_empty_ok (Fifo := ready_queue.fifo) s' q' [] Hh))|].
  clear -Ha. induction Ha as [|i items [Hi _] _ IH]; [done|]. cbn. by rewrite untag_tag_item, IH.
Qed.

Lemma ready_queue_is_fifo_witness :
  let s := ready_queue.mk_store {[16%Z := 0%Z]} {[32%Z := 0%Z]} in
  exists q' s',
    (q ← push_all (F := ready_queue.fifo) ready_queue.default (map tag_item [Op 16; Cont 32]);
     r ← ready_queue.splice q ready_queue.default;
     drain (F := ready_queue.fifo) 3 (fst r) []) s = Ok (([16; 33]%Z, q'), s') /\
    ready_queue.empty q' = true /\
    map untag_item (map tag_item [Op 16; Cont 32]) = [Op 16; Cont 32].
Proof.
  refine (ready_queue_is_fifo ready_queue.default [] ready_queue.default [] [Op 16; Cont 32]
    (ready_queue.mk_store {[16%Z := 0%Z]} {[32%Z := 0%Z]}) _ _ _ _).
  - exact (fifo_default_ok (Fifo := ready_queue.fifo) _).
  - exact (fifo_default_ok (Fifo := ready_queue.fifo) _).
  - apply (bool_decide_unpack _). vm_compute. done.
  - repeat (apply Forall_cons_2; [split; [reflexivity|split; [discriminate|eexists; vm_compute; reflexivity]]|]).
    apply Forall_nil_2.
Defined.
