(* ===== verification/TimerHeap.v ===== *)
(** The binary min-heap of the timer service:
    [swap_heap], [up_heap], [down_heap], [remove_timer_impl] and the heap parts
    of [insert_waiter] and [update_timer] in
    [include/boost/corosio/detail/timer_service.hpp].

    The heap is a vector of (time, timer) entries; each timer implementation
    stores its own position in it, so that a timer can be removed or moved in
    logarithmic time.  The theorems show that the positions and the order are
    restored by every operation. *)

From stdpp Require Import gmap.
From S2P Require Import Prelude StateMonad.

(** * Data *)

(** [timer::implementation]; [heap_index_ = None] is the sentinel [npos]. *)
Record implementation := mk_impl {
  expiry_ : Z;
  heap_index_ : option nat;
  might_have_pending_waits_ : bool;
  svc_ : nat;
  waiters_ : list nat;
  next_free_ : option nat
}.

Definition set_index (i : option nat) (p : implementation) : implementation :=
  mk_impl (expiry_ p) i (might_have_pending_waits_ p) (svc_ p) (waiters_ p) (next_free_ p).

Record heap_entry := entry { time_ : Z; timer_ : nat }.

(** The heap and the timer objects it points to, by address. *)
Record heap_state := hs { heap_ : list heap_entry; impls : gmap nat implementation }.

Abbreviation HM := (M heap_state).

(** * Operations *)

Definition heap_at (i : nat) : HM heap_entry :=
  s ← get; deref (heap_ s !! i).

Definition get_impl (id : nat) : HM implementation :=
  s ← get; deref (impls s !! id).

Definition put_impl (id : nat) (p : implementation) : HM unit :=
  _ ← get_impl id; modify (fun s => hs (heap_ s) (<[id := p]> (impls s))).

Definition store_index (id : nat) (i : option nat) : HM unit :=
  p ← get_impl id; put_impl id (set_index i p).

Definition set_heap (h : list heap_entry) : HM unit :=
  modify (fun s => hs h (impls s)).

Definition swap_heap (i1 i2 : nat) : HM unit :=
  e1 ← heap_at i1;
  e2 ← heap_at i2;
  s ← get;
  _ ← set_heap (<[i2 := e1]> (<[i1 := e2]> (heap_ s)));
  _ ← store_index (timer_ e2) (Some i1);
  store_index (timer_ e1) (Some i2).

(** [while (index > 0)]; the index decreases, so [index + 1] iterations are
    enough. *)
Fixpoint up_heap_loop (fuel index : nat) : HM unit :=
  match fuel with
  | O => fault
  | S fuel =>
      if (0 <? index)%nat then
        let parent := ((index - 1) / 2)%nat in
        e ← heap_at index;
        p ← heap_at parent;
        if negb (time_ e <? time_ p) then skip
        else _ ← swap_heap index parent; up_heap_loop fuel parent
      else skip
  end.
Definition up_heap (index : nat) : HM unit := up_heap_loop (S index) index.

(** The smaller of the two children; the second one when they are equal. *)
Definition min_child_of (child size : nat) : HM nat :=
  if (child + 1 =? size)%nat then mret child
  else
    c1 ← heap_at child;
    c2 ← heap_at (child + 1)%nat;
    mret (if time_ c1 <? time_ c2 then child else (child + 1)%nat).

(** [while (child < heap_.size())]; the index grows, so the size bounds the
    iterations. *)
Fixpoint down_heap_loop (fuel index : nat) : HM unit :=
  match fuel with
  | O => fault
  | S fuel =>
      s ← get;
      let child := (index * 2 + 1)%nat in
      let size := length (heap_ s) in
      if (child <? size)%nat then
        min_child ← min_child_of child size;
        e ← heap_at index;
        m ← heap_at min_child;
        if time_ e <? time_ m then skip
        else _ ← swap_heap index min_child; down_heap_loop fuel min_child
      else skip
  end.
Definition down_heap (index : nat) : HM unit :=
  s ← get; down_heap_loop (S (length (heap_ s))) index.

Definition pop_back (h : list heap_entry) : list heap_entry := take (length h - 1) h.

(** [index > 0 && heap_[index].time_ < heap_[(index - 1) / 2].time_] *)
Definition below_parent (index : nat) : HM bool :=
  if (0 <? index)%nat then
    e ← heap_at index;
    q ← heap_at ((index - 1) / 2)%nat;
    mret (time_ e <? time_ q)
  else mret false.

Definition remove_timer_impl (id : nat) : HM unit :=
  p ← get_impl id;
  s ← get;
  let size := length (heap_ s) in
  match heap_index_ p with
  | Some index =>
      (* [index >= heap_.size()]; [npos] is in the other branch *)
      if (size <=? index)%nat then skip
      else if (index =? size - 1)%nat then
        _ ← store_index id None;
        s ← get;
        set_heap (pop_back (heap_ s))
      else
        _ ← swap_heap index (size - 1)%nat;
        _ ← store_index id None;
        s ← get;
        _ ← set_heap (pop_back (heap_ s));
        up ← below_parent index;
        if (up : bool) then up_heap index else down_heap index
  | None => skip
  end.

(** The heap part of [insert_waiter]: the new entry and its way up. *)
Definition push_timer (id : nat) : HM unit :=
  p ← get_impl id;
  s ← get;
  _ ← store_index id (Some (length (heap_ s)));
  _ ← set_heap (heap_ s ++ [entry (expiry_ p) id]);
  up_heap (length (heap_ s)).

(** The heap part of [update_timer]: [heap_[idx].time_ = new_time] and the
    move that follows. *)
Definition retime (index : nat) (new_time : Z) : HM unit :=
  e ← heap_at index;
  s ← get;
  _ ← set_heap (<[index := entry new_time (timer_ e)]> (heap_ s));
  if new_time <? time_ e then up_heap index else down_heap index.

(** * Positions *)

(** Each entry's timer knows the entry's position, and each stored position is
    that of an entry of the timer. *)
Record ix_ok (s : heap_state) : Prop := {
  ix_entry : forall i e, heap_ s !! i = Some e ->
    exists p, impls s !! timer_ e = Some p /\ heap_index_ p = Some i;
  ix_impl : forall id p i, impls s !! id = Some p -> heap_index_ p = Some i ->
    exists e, heap_ s !! i = Some e /\ timer_ e = id
}.

(** The heap is rearranged and the positions follow; nothing else changes. *)
Record moved (s s' : heap_state) : Prop := {
  mv_ix : ix_ok s';
  mv_len : length (heap_ s') = length (heap_ s);
  mv_mem : forall e, e ∈ heap_ s' <-> e ∈ heap_ s;
  mv_impls : forall id, set_index None <$> impls s' !! id = set_index None <$> impls s !! id
}.

Lemma moved_refl s : ix_ok s -> moved s s.
Proof. intros H. by constructor. Qed.

Lemma moved_trans s1 s2 s3 : moved s1 s2 -> moved s2 s3 -> moved s1 s3.
Proof.
  intros [_ L1 M1 I1] [X2 L2 M2 I2]. constructor; [done|congruence| |].
  - intros e. by rewrite M2, M1.
  - intros id. by rewrite I2, I1.
Qed.

Lemma wp_heap_at i e Q s : heap_ s !! i = Some e -> Q e s -> wp (heap_at i) Q s.
Proof. intros. unfold heap_at. by wp_steps. Qed.

Lemma wp_get_impl id p Q s : impls s !! id = Some p -> Q p s -> wp (get_impl id) Q s.
Proof. intros. unfold get_impl. by wp_steps. Qed.

Lemma wp_store_index id i p (Q : unit -> heap_state -> Prop) s :
  impls s !! id = Some p ->
  Q tt (hs (heap_ s) (<[id := set_index i p]> (impls s))) ->
  wp (store_index id i) Q s.
Proof.
  intros E HQ. unfold store_index. wp_step. eapply wp_get_impl; [done|].
  unfold put_impl. wp_step. eapply wp_get_impl; [done|]. by wp_step.
Qed.

Lemma ix_timer_inj s i j e1 e2 :
  ix_ok s -> heap_ s !! i = Some e1 -> heap_ s !! j = Some e2 ->
  timer_ e1 = timer_ e2 -> i = j.
Proof.
  intros H H1 H2 E. destruct (ix_entry s H i e1 H1) as (p1 & P1 & I1).
  destruct (ix_entry s H j e2 H2) as (p2 & P2 & I2). rewrite E in P1. congruence.
Qed.

(** Exchange of two entries, as lookups. *)
Definition exchange (h : list heap_entry) (i1 i2 : nat) (e1 e2 : heap_entry) :=
  <[i2 := e1]> (<[i1 := e2]> h).

Lemma lookup_exchange h i1 i2 e1 e2 j :
  h !! i1 = Some e1 -> h !! i2 = Some e2 -> i1 <> i2 ->
  exchange h i1 i2 e1 e2 !! j =
    if decide (j = i1) then Some e2 else if decide (j = i2) then Some e1 else h !! j.
Proof.
  intros H1 H2 Hn. unfold exchange.
  apply lookup_lt_Some in H1 as L1. apply lookup_lt_Some in H2 as L2.
  destruct (decide (j = i2)) as [->|].
  - rewrite list_lookup_insert_eq by (rewrite length_insert; lia).
    by rewrite decide_False by congruence.
  - rewrite list_lookup_insert_ne by congruence.
    destruct (decide (j = i1)) as [->|]; [by rewrite list_lookup_insert_eq|].
    by rewrite list_lookup_insert_ne by congruence.
Qed.

Lemma swap_heap_wp i1 i2 e1 e2 (Q : unit -> heap_state -> Prop) s :
  ix_ok s -> heap_ s !! i1 = Some e1 -> heap_ s !! i2 = Some e2 -> i1 <> i2 ->
  (forall s', moved s s' -> heap_ s' = exchange (heap_ s) i1 i2 e1 e2 -> Q tt s') ->
  wp (swap_heap i1 i2) Q s.
Proof.
  intros Hix H1 H2 Hn HQ. unfold swap_heap.
  destruct (ix_entry s Hix i1 e1 H1) as (p1 & P1 & I1).
  destruct (ix_entry s Hix i2 e2 H2) as (p2 & P2 & I2).
  assert (Ht : timer_ e1 <> timer_ e2) by (intros E; by apply Hn, (ix_timer_inj s i1 i2 e1 e2)).
  wp_step. eapply wp_heap_at; [done|]. wp_step. eapply wp_heap_at; [done|].
  unfold set_heap. wp_steps.
  eapply wp_store_index; [done|]. eapply wp_store_index.
  { cbn. by rewrite lookup_insert_ne. }
  cbn. fold (exchange (heap_ s) i1 i2 e1 e2). apply HQ; [|done].
  pose proof (lookup_exchange (heap_ s) i1 i2 e1 e2) as Hl.
  constructor; cbn [heap_ impls].
  - constructor; cbn [heap_ impls].
    + intros i e. rewrite Hl by done. repeat case_decide; subst.
      * intros [= <-]. exists (set_index (Some i1) p2).
        by rewrite lookup_insert_ne, lookup_insert_eq.
      * intros [= <-]. exists (set_index (Some i2) p1). by rewrite lookup_insert_eq.
      * intros He. destruct (ix_entry s Hix i e He) as (p & P & I).
        exists p. rewrite !lookup_insert_ne; [done|..]; intros E; subst; congruence.
    + intros id p i. rewrite lookup_insert. case_decide; subst.
      { intros [= <-]. cbn. intros [= <-]. exists e1. rewrite Hl by done.
        rewrite decide_False by congruence. by rewrite decide_True. }
      rewrite lookup_insert. case_decide; subst.
      { intros [= <-]. cbn. intros [= <-]. exists e2. rewrite Hl by done. by rewrite decide_True. }
      intros P I. destruct (ix_impl s Hix id p i P I) as (e & He & <-).
      exists e. rewrite Hl by done. repeat case_decide; subst; naive_solver.
  - unfold exchange. by rewrite !length_insert.
  - intros e. rewrite !list_elem_of_lookup. split; intros [j Hj].
    + rewrite Hl in Hj by done. repeat case_decide; simplify_eq; eauto.
    + destruct (decide (j = i1)) as [->|]; [|destruct (decide (j = i2)) as [->|]].
      * exists i2. rewrite Hl by done. rewrite decide_False by congruence.
        rewrite decide_True by done. congruence.
      * exists i1. rewrite Hl by done. rewrite decide_True by done. congruence.
      * exists j. rewrite Hl by done. by rewrite !decide_False by done.
  - intros id. rewrite lookup_insert. case_decide; subst; [by rewrite P1|].
    rewrite lookup_insert. case_decide; subst; [by rewrite P2|done].
Qed.

(** * Order *)

Definition parent (j : nat) : nat := ((j - 1) / 2)%nat.

Lemma parent_iff i j : (0 < j)%nat -> parent j = i <-> j = (2 * i + 1)%nat \/ j = (2 * i + 2)%nat.
Proof.
  intros Hj. unfold parent.
  pose proof (Nat.div_mod_eq (j - 1) 2). pose proof (Nat.mod_upper_bound (j - 1) 2). lia.
Qed.

Lemma parent_lt j : (0 < j)%nat -> (parent j < j)%nat.
Proof. intros H. pose proof (proj1 (parent_iff (parent j) j H) eq_refl). lia. Qed.

(** The time of a position. *)
Definition tm (h : list heap_entry) (i : nat) : Z :=
  match h !! i with
  | Some e => time_ e
  | None => 0
  end.

Definition ordered (h : list heap_entry) : Prop :=
  forall j, (0 < j < length h)%nat -> tm h (parent j) <= tm h j.

(** Ordered but for position [i], which may be too small for its parent, ... *)
Definition up_ok (h : list heap_entry) (i : nat) : Prop :=
  (forall j, (0 < j < length h)%nat -> j <> i -> tm h (parent j) <= tm h j) /\
  (forall j, (0 < j < length h)%nat -> parent j = i -> (0 < i)%nat -> tm h (parent i) <= tm h j).

(** ... or too large for its children. *)
Definition down_ok (h : list heap_entry) (i : nat) : Prop :=
  (forall j, (0 < j < length h)%nat -> parent j <> i -> tm h (parent j) <= tm h j) /\
  (forall j, (0 < j < length h)%nat -> parent j = i -> (0 < i)%nat -> tm h (parent i) <= tm h j).

Lemma tm_exchange h i1 i2 e1 e2 j :
  h !! i1 = Some e1 -> h !! i2 = Some e2 -> i1 <> i2 ->
  tm (exchange h i1 i2 e1 e2) j =
    if decide (j = i1) then tm h i2 else if decide (j = i2) then tm h i1 else tm h j.
Proof.
  intros H1 H2 Hn. unfold tm at 1. rewrite lookup_exchange by done.
  unfold tm. repeat case_decide; subst; by rewrite ?H1, ?H2.
Qed.

Lemma length_exchange h i1 i2 e1 e2 : length (exchange h i1 i2 e1 e2) = length h.
Proof. unfold exchange. by rewrite !length_insert. Qed.

Lemma up_ok_step h i e p :
  (0 < i < length h)%nat -> h !! i = Some e -> h !! parent i = Some p ->
  up_ok h i -> time_ e < time_ p -> up_ok (exchange h i (parent i) e p) (parent i).
Proof.
  intros Hi He Hp [H1 H2] Hlt. pose proof (parent_lt i ltac:(lia)) as Hpi.
  assert (Ht : tm h i < tm h (parent i)) by (unfold tm; by rewrite He, Hp).
  split.
  - intros j Hj Hn. pose proof (parent_lt j ltac:(lia)) as Hpj.
    rewrite length_exchange in Hj. rewrite !tm_exchange by (done || lia).
    repeat case_decide; subst; try (lia || congruence).
    + apply H2; auto with lia.
    + specialize (H1 j ltac:(lia) ltac:(lia)). replace (parent j) with (parent i) in H1. lia.
    + apply H1; lia.
  - intros j Hj Hpj Hp0. pose proof (parent_lt (parent i) Hp0).
    rewrite length_exchange in Hj. rewrite !tm_exchange by (done || lia).
    assert (tm h (parent (parent i)) <= tm h (parent i)) by (apply H1; lia).
    pose proof (parent_lt j ltac:(lia)).
    repeat case_decide; subst; try (lia || congruence).
    specialize (H1 j ltac:(lia) ltac:(lia)). rewrite Hpj in H1. lia.
Qed.

Lemma up_ok_done h i :
  up_ok h i -> ((0 < i)%nat -> tm h (parent i) <= tm h i) -> ordered h.
Proof.
  intros [H1 _] Hi j Hj. destruct (decide (j = i)) as [->|]; [apply Hi; lia|by apply H1].
Qed.

Lemma down_ok_step h i m e c :
  (i < length h)%nat -> (0 < m < length h)%nat -> parent m = i ->
  h !! i = Some e -> h !! m = Some c ->
  (forall j, (0 < j < length h)%nat -> parent j = i -> tm h m <= tm h j) ->
  down_ok h i -> time_ c <= time_ e -> down_ok (exchange h i m e c) m.
Proof.
  intros Hi Hm Hpm He Hc Hmin [H1 H2] Hle. pose proof (parent_lt m ltac:(lia)) as Hlt.
  assert (Ht : tm h m <= tm h i) by (unfold tm; by rewrite He, Hc).
  split.
  - intros j Hj Hn. pose proof (parent_lt j ltac:(lia)) as Hpj.
    rewrite length_exchange in Hj. rewrite !tm_exchange by (done || lia).
    repeat case_decide; subst;
      first [lia | congruence | apply Hmin; lia | apply H1; lia | apply (H2 m); lia].
  - intros j Hj Hpj _. pose proof (parent_lt j ltac:(lia)).
    rewrite length_exchange in Hj. rewrite !tm_exchange by (done || lia).
    repeat case_decide; subst; try lia.
    apply (H1 j); lia.
Qed.

Lemma down_ok_done h i :
  down_ok h i ->
  (forall j, (0 < j < length h)%nat -> parent j = i -> tm h i <= tm h j) -> ordered h.
Proof.
  intros [H1 _] Hi j Hj. destruct (decide (parent j = i)) as [<-|]; auto.
Qed.

(** * The moves *)

Lemma lookup_heap_lt (h : list heap_entry) i : (i < length h)%nat -> exists e, h !! i = Some e.
Proof. apply lookup_lt_is_Some_2. Qed.

Lemma tm_lookup h i e : h !! i = Some e -> tm h i = time_ e.
Proof. unfold tm. by intros ->. Qed.

Lemma up_heap_loop_wp fuel i (Q : unit -> heap_state -> Prop) s :
  ix_ok s -> (i < fuel)%nat -> (i < length (heap_ s))%nat -> up_ok (heap_ s) i ->
  (forall s', moved s s' -> ordered (heap_ s') -> Q tt s') ->
  wp (up_heap_loop fuel i) Q s.
Proof.
  revert i s. induction fuel as [|fuel IH]; intros i s Hix Hf Hi Hu HQ; [lia|].
  cbn [up_heap_loop]. destruct (Nat.ltb_spec 0 i) as [H0|H0].
  2: { wp_step. apply HQ; [by apply moved_refl|]. eapply up_ok_done; [done|lia]. }
  pose proof (parent_lt i H0) as Hp. change ((i - 1) / 2)%nat with (parent i).
  destruct (lookup_heap_lt (heap_ s) i Hi) as [e He].
  destruct (lookup_heap_lt (heap_ s) (parent i) ltac:(lia)) as [p Hpe].
  wp_step. eapply wp_heap_at; [done|]. wp_step. eapply wp_heap_at; [done|].
  destruct (Z.ltb_spec (time_ e) (time_ p)) as [Hlt|Hge]; cbn [negb].
  - wp_step. eapply swap_heap_wp; [done..|lia|]. intros s1 Hm Hh.
    apply IH; [apply Hm|lia|rewrite (mv_len _ _ Hm); lia| |].
    + rewrite Hh. by apply up_ok_step.
    + intros s' Hm' Ho. apply HQ; [by eapply moved_trans|done].
  - wp_step. apply HQ; [by apply moved_refl|]. eapply up_ok_done; [done|].
    intros _. by rewrite (tm_lookup _ _ _ He), (tm_lookup _ _ _ Hpe).
Qed.

Lemma up_heap_wp i (Q : unit -> heap_state -> Prop) s :
  ix_ok s -> (i < length (heap_ s))%nat -> up_ok (heap_ s) i ->
  (forall s', moved s s' -> ordered (heap_ s') -> Q tt s') ->
  wp (up_heap i) Q s.
Proof. intros. apply up_heap_loop_wp; auto with lia. Qed.

(** The chosen child is the least of the children. *)
Lemma min_child_wp i (Q : nat -> heap_state -> Prop) s :
  (2 * i + 1 < length (heap_ s))%nat ->
  (forall m, (0 < m < length (heap_ s))%nat -> parent m = i ->
     (forall j, (0 < j < length (heap_ s))%nat -> parent j = i -> tm (heap_ s) m <= tm (heap_ s) j) ->
     Q m s) ->
  wp (min_child_of (i * 2 + 1) (length (heap_ s))) Q s.
Proof.
  intros Hc HQ. unfold min_child_of.
  destruct (Nat.eqb_spec (i * 2 + 1 + 1) (length (heap_ s))) as [E|E].
  - wp_step. apply HQ; [lia|apply parent_iff; lia|].
    intros j Hj Hp. apply parent_iff in Hp as [->| ->]; try lia.
    by replace (2 * i + 1)%nat with (i * 2 + 1)%nat by lia.
  - destruct (lookup_heap_lt (heap_ s) (i * 2 + 1) ltac:(lia)) as [c1 H1].
    destruct (lookup_heap_lt (heap_ s) (i * 2 + 1 + 1) ltac:(lia)) as [c2 H2].
    wp_step. eapply wp_heap_at; [done|]. wp_step. eapply wp_heap_at; [done|]. wp_step.
    apply tm_lookup in H1, H2.
    destruct (Z.ltb_spec (time_ c1) (time_ c2)); (apply HQ; [lia|apply parent_iff; lia|]);
      intros j Hj Hp; apply parent_iff in Hp as [->| ->]; try lia;
      replace (2 * i + 1)%nat with (i * 2 + 1)%nat by lia;
      replace (2 * i + 2)%nat with (i * 2 + 1 + 1)%nat by lia; lia.
Qed.

Lemma down_heap_loop_wp fuel i (Q : unit -> heap_state -> Prop) s :
  ix_ok s -> (length (heap_ s) < i + fuel)%nat -> (i < length (heap_ s))%nat ->
  down_ok (heap_ s) i ->
  (forall s', moved s s' -> ordered (heap_ s') -> Q tt s') ->
  wp (down_heap_loop fuel i) Q s.
Proof.
  revert i s. induction fuel as [|fuel IH]; intros i s Hix Hf Hi Hu HQ; [lia|].
  cbn [down_heap_loop]. do 2 wp_step.
  destruct (Nat.ltb_spec (i * 2 + 1) (length (heap_ s))) as [H0|H0].
  2: { wp_step. apply HQ; [by apply moved_refl|]. eapply down_ok_done; [done|].
       intros j Hj [->| ->]%parent_iff; lia. }
  wp_step. apply min_child_wp; [lia|]. intros m Hm Hpm Hmin.
  destruct (lookup_heap_lt (heap_ s) i Hi) as [e He].
  destruct (lookup_heap_lt (heap_ s) m ltac:(lia)) as [c Hc].
  pose proof (parent_lt m ltac:(lia)) as Hlt. rewrite Hpm in Hlt.
  wp_step. eapply wp_heap_at; [done|]. wp_step. eapply wp_heap_at; [done|].
  destruct (Z.ltb_spec (time_ e) (time_ c)) as [Hl|Hg].
  - wp_step. apply HQ; [by apply moved_refl|]. eapply down_ok_done; [done|].
    intros j Hj Hpj. specialize (Hmin j Hj Hpj).
    rewrite (tm_lookup _ _ _ He). rewrite (tm_lookup _ _ _ Hc) in Hmin. lia.
  - wp_step. eapply swap_heap_wp; [done..|lia|]. intros s1 Hmv Hh.
    apply IH; [apply Hmv|rewrite (mv_len _ _ Hmv); lia|rewrite (mv_len _ _ Hmv); lia| |].
    + rewrite Hh. by apply down_ok_step.
    + intros s' Hm' Ho. apply HQ; [by eapply moved_trans|done].
Qed.

Lemma down_heap_wp i (Q : unit -> heap_state -> Prop) s :
  ix_ok s -> (i < length (heap_ s))%nat -> down_ok (heap_ s) i ->
  (forall s', moved s s' -> ordered (heap_ s') -> Q tt s') ->
  wp (down_heap i) Q s.
Proof.
  intros. unfold down_heap. do 2 wp_step. apply down_heap_loop_wp; auto with lia.
Qed.

Definition heap_ok (s : heap_state) : Prop := ix_ok s /\ ordered (heap_ s).

(** * Removal *)

(** The entry of [id], if there is one, is gone; nothing else changes. *)
Record removed (id : nat) (s s' : heap_state) : Prop := {
  rm_ok : heap_ok s';
  rm_mem : forall e, e ∈ heap_ s' <-> e ∈ heap_ s /\ timer_ e <> id;
  rm_len : (exists e, e ∈ heap_ s /\ timer_ e = id) ->
    (length (heap_ s') < length (heap_ s))%nat;
  rm_impls : forall k, set_index None <$> impls s' !! k = set_index None <$> impls s !! k
}.

Lemma ix_in_heap s id p i :
  ix_ok s -> impls s !! id = Some p -> heap_index_ p = Some i ->
  exists e, e ∈ heap_ s /\ timer_ e = id.
Proof.
  intros H P I. destruct (ix_impl s H id p i P I) as (e & He & E).
  exists e. by split; [eapply list_elem_of_lookup_2|].
Qed.

Lemma ix_not_in_heap s id p e :
  ix_ok s -> impls s !! id = Some p -> heap_index_ p = None ->
  e ∈ heap_ s -> timer_ e <> id.
Proof.
  intros H P I [i He]%list_elem_of_lookup <-.
  destruct (ix_entry s H i e He) as (p' & P' & I'). congruence.
Qed.

Lemma removed_index id s s' p :
  removed id s s' -> impls s' !! id = Some p -> heap_index_ p = None.
Proof.
  intros [[Hix _] Hm _ _] P. destruct (heap_index_ p) as [i|] eqn:I; [|done].
  destruct (ix_in_heap s' id p i Hix P I) as (e & He & E).
  by apply Hm in He as [_ []].
Qed.

Lemma lookup_pop_back h i :
  pop_back h !! i = if decide (i < length h - 1)%nat then h !! i else None.
Proof.
  unfold pop_back. case_decide; [by rewrite lookup_take_lt|].
  apply lookup_take_ge. lia.
Qed.

Lemma length_pop_back h : length (pop_back h) = (length h - 1)%nat.
Proof. unfold pop_back. rewrite length_take. lia. Qed.

Lemma tm_pop_back h i : (i < length h - 1)%nat -> tm (pop_back h) i = tm h i.
Proof. intros. unfold tm. by rewrite lookup_pop_back, decide_True. Qed.

(** Dropping the last entry, once its timer's position is reset. *)
Lemma pop_last_ok s e p :
  ix_ok s -> heap_ s !! (length (heap_ s) - 1)%nat = Some e ->
  impls s !! timer_ e = Some p ->
  let s' := hs (pop_back (heap_ s)) (<[timer_ e := set_index None p]> (impls s)) in
  ix_ok s' /\
  (forall x, x ∈ heap_ s' <-> x ∈ heap_ s /\ timer_ x <> timer_ e) /\
  (forall k, set_index None <$> impls s' !! k = set_index None <$> impls s !! k).
Proof.
  intros Hix He P. cbn. apply lookup_lt_Some in He as Hlen.
  split; [constructor; cbn|split].
  - intros i x. rewrite lookup_pop_back. case_decide; [|done]. intros Hx.
    destruct (ix_entry s Hix i x Hx) as (q & Q & I). exists q.
    rewrite lookup_insert_ne; [done|]. intros E.
    assert (i = length (heap_ s) - 1)%nat by by eapply ix_timer_inj. lia.
  - intros id q i. rewrite lookup_insert. case_decide as E; [by intros [= <-]|].
    intros Q I. destruct (ix_impl s Hix id q i Q I) as (x & Hx & Ht). exists x.
    rewrite lookup_pop_back, decide_True; [done|]. apply lookup_lt_Some in Hx as L.
    destruct (decide (i = length (heap_ s) - 1)%nat) as [->|]; [congruence|lia].
  - intros x. rewrite !list_elem_of_lookup. split.
    + intros [i Hi]. rewrite lookup_pop_back in Hi. case_decide; [|done].
      split; [by exists i|]. intros E.
      assert (i = length (heap_ s) - 1)%nat by by eapply ix_timer_inj. lia.
    + intros [[i Hi] Hn]. exists i. rewrite lookup_pop_back, decide_True; [done|].
      apply lookup_lt_Some in Hi as L.
      destruct (decide (i = length (heap_ s) - 1)%nat) as [->|]; [congruence|lia].
  - intros k. rewrite lookup_insert. case_decide; subst; [by rewrite P|done].
Qed.

(** Heap order after the last entry took the place of position [i]. *)
Section replaced.
Context (h h2 : list heap_entry) (i : nat).
Context (Hh : ordered h) (Hi : (i < length h - 1)%nat).
Context (Hlen : length h2 = (length h - 1)%nat).
Context (Hsame : forall j, (j < length h2)%nat -> j <> i -> tm h2 j = tm h j).

Lemma replaced_grandchild j :
  (0 < j < length h2)%nat -> parent j = i -> (0 < i)%nat -> tm h2 (parent i) <= tm h2 j.
Proof using Hh Hi Hlen Hsame.
  intros Hj Hp H0. pose proof (parent_lt j ltac:(lia)). pose proof (parent_lt i H0).
  rewrite !Hsame by lia. transitivity (tm h i); [apply Hh; lia|].
  rewrite <- Hp. apply Hh. lia.
Qed.

Lemma replaced_up :
  (0 < i)%nat -> tm h2 i < tm h2 (parent i) -> up_ok h2 i.
Proof using Hh Hi Hlen Hsame.
  intros H0 Hlt. split; [|apply replaced_grandchild].
  intros j Hj Hn. pose proof (parent_lt j ltac:(lia)).
  destruct (decide (parent j = i)) as [E|E].
  - pose proof (replaced_grandchild j Hj E H0). rewrite E. lia.
  - rewrite !Hsame by lia. apply Hh. lia.
Qed.

Lemma replaced_down :
  ((0 < i)%nat -> tm h2 (parent i) <= tm h2 i) -> down_ok h2 i.
Proof using Hh Hi Hlen Hsame.
  intros Hge. split; [|apply replaced_grandchild].
  intros j Hj Hn. pose proof (parent_lt j ltac:(lia)).
  destruct (decide (j = i)) as [->|E]; [apply Hge; lia|].
  rewrite !Hsame by lia. apply Hh. lia.
Qed.
End replaced.

Lemma below_parent_wp i (Q : bool -> heap_state -> Prop) s :
  (i < length (heap_ s))%nat ->
  ((0 < i)%nat -> tm (heap_ s) i < tm (heap_ s) (parent i) -> Q true s) ->
  (((0 < i)%nat -> tm (heap_ s) (parent i) <= tm (heap_ s) i) -> Q false s) ->
  wp (below_parent i) Q s.
Proof.
  intros Hi Ht Hf. unfold below_parent. fold (parent i).
  destruct (Nat.ltb_spec 0 i) as [H0|H0]; [|wp_step; apply Hf; lia].
  pose proof (parent_lt i H0).
  destruct (lookup_heap_lt (heap_ s) i Hi) as [e He].
  destruct (lookup_heap_lt (heap_ s) (parent i) ltac:(lia)) as [q Hq].
  wp_step. eapply wp_heap_at; [done|]. wp_step. eapply wp_heap_at; [done|]. wp_step.
  rewrite (tm_lookup _ _ _ He), (tm_lookup _ _ _ Hq) in *.
  destruct (Z.ltb_spec (time_ e) (time_ q)); auto.
Qed.

(** One of the two moves restores the order. *)
Lemma reheap_wp i (Q : unit -> heap_state -> Prop) h s :
  ix_ok s -> ordered h -> (i < length h - 1)%nat -> length (heap_ s) = (length h - 1)%nat ->
  (forall j, (j < length (heap_ s))%nat -> j <> i -> tm (heap_ s) j = tm h j) ->
  (forall s', moved s s' -> ordered (heap_ s') -> Q tt s') ->
  wp (up ← below_parent i; if (up : bool) then up_heap i else down_heap i) Q s.
Proof.
  intros Hix Hh Hi Hl Hs HQ. wp_step. apply below_parent_wp; [lia| |].
  - intros H0 Hlt. apply up_heap_wp; [done|lia| |done]. by eapply replaced_up.
  - intros Hge. apply down_heap_wp; [done|lia| |done]. by eapply replaced_down.
Qed.

Lemma moved_removed id s s1 s2 :
  (forall x, x ∈ heap_ s1 <-> x ∈ heap_ s /\ timer_ x <> id) ->
  ((exists e, e ∈ heap_ s /\ timer_ e = id) -> (length (heap_ s1) < length (heap_ s))%nat) ->
  (forall k, set_index None <$> impls s1 !! k = set_index None <$> impls s !! k) ->
  moved s1 s2 -> ordered (heap_ s2) -> removed id s s2.
Proof.
  intros Hm Hl Hi [X L M I] O. constructor; [by split| | |].
  - intros e. by rewrite M.
  - by rewrite L.
  - intros k. by rewrite I.
Qed.

Lemma ordered_pop_back h : ordered h -> ordered (pop_back h).
Proof.
  intros H j Hj. rewrite length_pop_back in Hj. pose proof (parent_lt j ltac:(lia)).
  rewrite !tm_pop_back by lia. apply H. lia.
Qed.

Lemma remove_timer_impl_wp id p (Q : unit -> heap_state -> Prop) s :
  heap_ok s -> impls s !! id = Some p ->
  (forall s', removed id s s' -> Q tt s') ->
  wp (remove_timer_impl id) Q s.
Proof.
  intros [Hix Ho] P HQ. unfold remove_timer_impl. wp_step. eapply wp_get_impl; [done|].
  do 2 wp_step. destruct (heap_index_ p) as [i|] eqn:I.
  2: { assert (Hno : forall x, x ∈ heap_ s -> timer_ x <> id)
         by (intros x Hx; by eapply ix_not_in_heap).
       wp_step. apply HQ. apply (moved_removed id s s s); try done.
       - intros x. split; [|by intros []]. intros Hx. by split; [|apply Hno].
       - intros (x & Hx & E). by destruct (Hno x Hx). }
  destruct (ix_impl s Hix id p i P I) as (e & He & <-). apply lookup_lt_Some in He as Hlt.
  destruct (Nat.leb_spec (length (heap_ s)) i); [lia|].
  destruct (Nat.eqb_spec i (length (heap_ s) - 1)) as [->|Hn].
  - wp_step. eapply wp_store_index; [done|]. unfold set_heap. wp_steps. cbn [heap_ impls].
    apply HQ. destruct (pop_last_ok s e p Hix He P) as (X & M & K).
    eapply moved_removed; [exact M| |exact K|by apply moved_refl|].
    + intros _. cbn. rewrite length_pop_back. lia.
    + by apply ordered_pop_back.
  - destruct (lookup_heap_lt (heap_ s) (length (heap_ s) - 1) ltac:(lia)) as [l Hl].
    wp_step. eapply swap_heap_wp; [done..|]. intros s1 Hm Hh.
    assert (He1 : heap_ s1 !! (length (heap_ s1) - 1)%nat = Some e).
    { rewrite (mv_len _ _ Hm), Hh, lookup_exchange by done.
      by rewrite decide_False, decide_True by lia. }
    destruct (ix_entry s1 (mv_ix _ _ Hm) _ e He1) as (p1 & P1 & _).
    wp_step. eapply wp_store_index; [done|]. unfold set_heap. do 4 wp_step. cbn [heap_ impls].
    destruct (pop_last_ok s1 e p1 (mv_ix _ _ Hm) He1 P1) as (X & M & K).
    apply (reheap_wp i _ (heap_ s)); [done|done|lia| | |]; cbn [heap_ impls].
    + rewrite length_pop_back. by rewrite (mv_len _ _ Hm).
    + intros j Hj Hji. rewrite length_pop_back, (mv_len _ _ Hm) in Hj.
      rewrite tm_pop_back by (rewrite (mv_len _ _ Hm); lia).
      rewrite Hh, tm_exchange by done. by rewrite !decide_False by lia.
    + intros s2 Hm2 Ho2. apply HQ. eapply moved_removed; [| | |exact Hm2|done].
      * intros x. by rewrite M, (mv_mem _ _ Hm).
      * intros _. cbn. rewrite length_pop_back, (mv_len _ _ Hm). lia.
      * intros k. by rewrite K, (mv_impls _ _ Hm).
Qed.

(** * Insertion and change of time *)

(** [x] is the entry of its timer; the other entries are as before. *)
Record replaced_by (x : heap_entry) (s s' : heap_state) : Prop := {
  rp_ok : heap_ok s';
  rp_mem : forall e, e ∈ heap_ s' <-> e = x \/ e ∈ heap_ s /\ timer_ e <> timer_ x;
  rp_impls : forall k, set_index None <$> impls s' !! k = set_index None <$> impls s !! k
}.

Lemma moved_replaced x s s1 s2 :
  (forall e, e ∈ heap_ s1 <-> e = x \/ e ∈ heap_ s /\ timer_ e <> timer_ x) ->
  (forall k, set_index None <$> impls s1 !! k = set_index None <$> impls s !! k) ->
  moved s1 s2 -> ordered (heap_ s2) -> replaced_by x s s2.
Proof.
  intros Hm Hi [X L M I] O. constructor; [by split| |].
  - intros e. by rewrite M.
  - intros k. by rewrite I.
Qed.

Lemma tm_app_l h x i : (i < length h)%nat -> tm (h ++ [x]) i = tm h i.
Proof. intros. unfold tm. by rewrite lookup_app_l. Qed.

Lemma up_ok_push h x : ordered h -> up_ok (h ++ [x]) (length h).
Proof.
  intros Ho. split; intros j; rewrite length_app; cbn [length]; intros Hj.
  - intros Hn. pose proof (parent_lt j ltac:(lia)). rewrite !tm_app_l by lia. apply Ho. lia.
  - intros E. pose proof (parent_lt j ltac:(lia)). lia.
Qed.

Lemma push_ix_ok s id p :
  ix_ok s -> impls s !! id = Some p -> heap_index_ p = None ->
  ix_ok (hs (heap_ s ++ [entry (expiry_ p) id])
            (<[id := set_index (Some (length (heap_ s))) p]> (impls s))).
Proof.
  intros Hix P I. constructor; cbn.
  - intros i e [He|[Hl He]]%lookup_app_Some.
    + destruct (ix_entry s Hix i e He) as (q & Q & J). exists q.
      rewrite lookup_insert_ne; [done|]. intros ->. congruence.
    + apply list_lookup_singleton_Some in He as [Hz <-]. cbn.
      eexists. rewrite lookup_insert_eq. split; [done|]. cbn. f_equal. lia.
  - intros k q i. rewrite lookup_insert. case_decide as E; subst.
    + intros [= <-]. cbn. intros [= <-].
      exists (entry (expiry_ p) k). split; [|done].
      by rewrite lookup_app_r, Nat.sub_diag by done.
    + intros Q J. destruct (ix_impl s Hix k q i Q J) as (e & He & Ht). exists e.
      split; [|done]. by apply lookup_app_l_Some.
Qed.

Lemma push_timer_wp id p (Q : unit -> heap_state -> Prop) s :
  heap_ok s -> impls s !! id = Some p -> heap_index_ p = None ->
  (forall s', replaced_by (entry (expiry_ p) id) s s' -> Q tt s') ->
  wp (push_timer id) Q s.
Proof.
  intros [Hix Ho] P I HQ. unfold push_timer. wp_step. eapply wp_get_impl; [done|].
  do 3 wp_step. eapply wp_store_index; [done|]. unfold set_heap. do 2 wp_step. cbn [heap_ impls].
  apply up_heap_wp; cbn [heap_ impls].
  - by apply push_ix_ok.
  - rewrite length_app. cbn. lia.
  - by apply up_ok_push.
  - intros s' Hm Ho'. apply HQ. eapply moved_replaced; [| |exact Hm|done]; cbn.
    + intros e. rewrite elem_of_app, list_elem_of_singleton. split; [|tauto].
      intros [He| ->]; [|by left]. right. by split; [|eapply ix_not_in_heap].
    + intros k. rewrite lookup_insert. case_decide; subst; [by rewrite P|done].
Qed.

Lemma retime_ix_ok s i e t :
  ix_ok s -> heap_ s !! i = Some e ->
  ix_ok (hs (<[i := entry t (timer_ e)]> (heap_ s)) (impls s)).
Proof.
  intros Hix He. constructor; cbn.
  - intros j x [(<- & <- & _)|[Hn Hx]]%list_lookup_insert_Some; cbn; by eapply ix_entry.
  - intros k q j Q J. destruct (ix_impl s Hix k q j Q J) as (x & Hx & Ht).
    destruct (decide (i = j)) as [->|].
    + eexists. rewrite list_lookup_insert_eq by (by eapply lookup_lt_Some).
      split; [done|]. cbn. congruence.
    + exists x. by rewrite list_lookup_insert_ne.
Qed.

Lemma retime_mem s i e t x :
  ix_ok s -> heap_ s !! i = Some e ->
  x ∈ <[i := entry t (timer_ e)]> (heap_ s) <->
  x = entry t (timer_ e) \/ x ∈ heap_ s /\ timer_ x <> timer_ e.
Proof.
  intros Hix He. apply lookup_lt_Some in He as L. rewrite !list_elem_of_lookup. split.
  - intros [j [(<- & <- & _)|[Hn Hx]]%list_lookup_insert_Some]; [by left|].
    right. split; [by exists j|]. intros E. by apply Hn, (ix_timer_inj s i j e x).
  - intros [->|[[j Hj] Hn]]; [exists i; by rewrite list_lookup_insert_eq|].
    exists j. rewrite list_lookup_insert_ne; [done|]. intros ->. congruence.
Qed.

Lemma tm_insert h i e t j :
  h !! i = Some e -> tm (<[i := entry t (timer_ e)]> h) j = if decide (j = i) then t else tm h j.
Proof.
  intros He. unfold tm at 1. case_decide; subst.
  - by rewrite list_lookup_insert_eq by (by eapply lookup_lt_Some).
  - by rewrite list_lookup_insert_ne by congruence.
Qed.

Lemma retime_grandchild h i e t j :
  ordered h -> h !! i = Some e -> (0 < j < length h)%nat -> parent j = i -> (0 < i)%nat ->
  tm (<[i := entry t (timer_ e)]> h) (parent i) <= tm (<[i := entry t (timer_ e)]> h) j.
Proof.
  intros Ho He Hj Hp H0. pose proof (parent_lt i H0). pose proof (parent_lt j ltac:(lia)).
  rewrite !tm_insert by done. rewrite !decide_False by lia.
  transitivity (tm h i); [apply Ho; lia|]. rewrite <- Hp. apply Ho. lia.
Qed.

Lemma retime_up_ok h i e t :
  ordered h -> h !! i = Some e -> t < time_ e -> up_ok (<[i := entry t (timer_ e)]> h) i.
Proof.
  intros Ho He Hlt. split; intros j; rewrite length_insert; intros Hj.
  - intros Hn. specialize (Ho j Hj). rewrite !tm_insert by done.
    repeat case_decide; subst; try (lia || congruence).
    by rewrite (tm_lookup _ _ _ He) in Ho; lia.
  - by apply retime_grandchild.
Qed.

Lemma retime_down_ok h i e t :
  ordered h -> h !! i = Some e -> time_ e <= t -> down_ok (<[i := entry t (timer_ e)]> h) i.
Proof.
  intros Ho He Hle. split; intros j; rewrite length_insert; intros Hj.
  - intros Hn. specialize (Ho j Hj). rewrite !tm_insert by done.
    repeat case_decide; subst; try (lia || congruence).
    rewrite (tm_lookup _ _ _ He) in Ho. lia.
  - by apply retime_grandchild.
Qed.

Lemma retime_wp i e t (Q : unit -> heap_state -> Prop) s :
  heap_ok s -> heap_ s !! i = Some e ->
  (forall s', replaced_by (entry t (timer_ e)) s s' -> Q tt s') ->
  wp (retime i t) Q s.
Proof.
  intros [Hix Ho] He HQ. apply lookup_lt_Some in He as L. unfold retime.
  wp_step. eapply wp_heap_at; [done|]. unfold set_heap. do 4 wp_step.
  assert (HQ' : forall s', moved (hs (<[i := entry t (timer_ e)]> (heap_ s)) (impls s)) s' ->
                 ordered (heap_ s') -> Q tt s').
  { intros s' Hm Ho'. apply HQ. refine (moved_replaced _ _ _ _ _ _ Hm Ho'); cbn; [|done].
    intros x. by apply retime_mem. }
  destruct (Z.ltb_spec t (time_ e));
    [apply up_heap_wp|apply down_heap_wp]; cbn [heap_];
    rewrite ?length_insert; auto using retime_ix_ok, retime_up_ok, retime_down_ok.
Qed.

(** * The root *)

Lemma ordered_root h i : ordered h -> (i < length h)%nat -> tm h 0 <= tm h i.
Proof.
  intros Ho. induction i as [i IH] using lt_wf_ind. intros Hi.
  destruct (decide (i = 0%nat)) as [->|]; [lia|].
  pose proof (parent_lt i ltac:(lia)). specialize (Ho i ltac:(lia)).
  specialize (IH (parent i) ltac:(lia) ltac:(lia)). lia.
Qed.

Lemma root_min h r e : ordered h -> h !! 0%nat = Some r -> e ∈ h -> time_ r <= time_ e.
Proof.
  intros Ho Hr [i Hi]%list_elem_of_lookup. rewrite <- (tm_lookup _ _ _ Hr), <- (tm_lookup _ _ _ Hi).
  apply ordered_root; [done|]. by eapply lookup_lt_Some.
Qed.

(** * The heap operations *)

(** C37: From any well-formed heap (ordered, every timer knowing its position)
    removing a timer, inserting one and changing the time of an entry return,
    restore the order and the positions, and change the entries as they should:
    the entry of the removed timer is gone, the inserted or moved timer has
    exactly the entry with its new time, and no other entry or timer field
    changes. *)
Theorem heap_operations_restore_heap s id p :
  heap_ok s -> impls s !! id = Some p ->
  (exists s', remove_timer_impl id s = Ok (tt, s') /\ removed id s s' /\
     forall p', impls s' !! id = Some p' -> heap_index_ p' = None) /\
  (heap_index_ p = None ->
   exists s', push_timer id s = Ok (tt, s') /\ replaced_by (entry (expiry_ p) id) s s') /\
  (forall i t, heap_index_ p = Some i ->
   exists s', retime i t s = Ok (tt, s') /\ replaced_by (entry t id) s s').
Proof.
  intros Hh P. split; [|split].
  - assert (H : wp (remove_timer_impl id) (fun _ s' => removed id s s') s)
      by (by eapply remove_timer_impl_wp).
    apply wp_ok in H as ([] & s' & E & R). exists s'. split; [done|]. split; [done|].
    intros p'. by eapply removed_index.
  - intros I. assert (H : wp (push_timer id) (fun _ s' => replaced_by (entry (expiry_ p) id) s s') s)
      by (by eapply push_timer_wp).
    apply wp_ok in H as ([] & s' & E & R). by exists s'.
  - intros i t I. destruct (ix_impl s (proj1 Hh) id p i P I) as (e & He & <-).
    assert (H : wp (retime i t) (fun _ s' => replaced_by (entry t (timer_ e)) s s') s)
      by (by eapply retime_wp).
    apply wp_ok in H as ([] & s' & E & R). by exists s'.
Qed.

Lemma heap_operations_restore_heap_witness :
  let s := hs [entry 5 1] {[1%nat := mk_impl 5 (Some O) true 0 [] None]} in
  exists s', retime 0 9 s = Ok (tt, s') /\ replaced_by (entry 9 1) s s'.
Proof.
  refine (proj2 (proj2 (heap_operations_restore_heap
    (hs [entry 5 1] {[1%nat := mk_impl 5 (Some O) true 0 [] None]}) 1
    (mk_impl 5 (Some O) true 0 [] None) _ eq_refl)) O 9 eq_refl).
  split; [constructor|]; cbn.
  - intros i e [-> <-]%list_lookup_singleton_Some. by eexists.
  - intros id p i [<- <-]%lookup_singleton_Some [= <-]. by exists (entry 5 1).
  - intros j Hj. cbn in Hj. lia.
Defined.
