(* ===== verification/TimerService.v ===== *)
(** The timer service ([include/boost/corosio/detail/timer_service.hpp]) and
    the timer handle and waiter nodes it serves
    ([include/boost/corosio/detail/timer.hpp], [src/corosio/src/timer.cpp]).

    Timer implementations, waiter nodes and the per-thread cache are objects of
    a shared store, by address: an access to a deleted object is a [Fault].  A
    critical section of [mutex_] is one atomic operation of the model.  What
    the service asks of its surroundings (the scheduler, the executor, the
    coroutine frames, the allocator) is recorded, in order, as a trace of
    events.  The clock is an argument of the operations that read it. *)

From stdpp Require Import gmap.
From S2P Require Import Prelude StateMonad TimerHeap.

(** * Data *)

(** [w->ec_]: the completion result of a wait. *)
Inductive error_code := success | canceled.

#[export] Instance error_code_eq_dec : EqDecision error_code.
Proof. solve_decision. Defined.

(** [token_]: [None] is a token without a stop state ([stop_possible()] is
    false), [Some k] one of stop state [k].  [cont_] and [d_] are the
    coroutine itself and its executor, and so need no field. *)
Record waiter_node := mk_node {
  impl_ : option nat;
  wsvc_ : nat;
  h_ : bool;
  token_ : option nat;
  ec_ : error_code;
  cb_active_ : bool
}.

Definition set_impl_ (i : option nat) (n : waiter_node) : waiter_node :=
  mk_node i (wsvc_ n) (h_ n) (token_ n) (ec_ n) (cb_active_ n).
Definition set_ec_ (e : error_code) (n : waiter_node) : waiter_node :=
  mk_node (impl_ n) (wsvc_ n) (h_ n) (token_ n) e (cb_active_ n).
Definition set_cb_ (b : bool) (n : waiter_node) : waiter_node :=
  mk_node (impl_ n) (wsvc_ n) (h_ n) (token_ n) (ec_ n) b.

Definition set_expiry (t : Z) (p : implementation) : implementation :=
  mk_impl t (heap_index_ p) (might_have_pending_waits_ p) (svc_ p) (waiters_ p) (next_free_ p).
Definition set_might (b : bool) (p : implementation) : implementation :=
  mk_impl (expiry_ p) (heap_index_ p) b (svc_ p) (waiters_ p) (next_free_ p).
Definition set_waiters (l : list nat) (p : implementation) : implementation :=
  mk_impl (expiry_ p) (heap_index_ p) (might_have_pending_waits_ p) (svc_ p) l (next_free_ p).
Definition set_next (o : option nat) (p : implementation) : implementation :=
  mk_impl (expiry_ p) (heap_index_ p) (might_have_pending_waits_ p) (svc_ p) (waiters_ p) o.

(** What the service asks of the rest of the program. *)
Inductive event :=
| Post (w : nat)                 (* [sched_->post(&w->op_)] *)
| Resume (w : nat)               (* [w->d_.post(w->cont_)] *)
| Work_started                   (* [sched_->work_started()] *)
| Work_finished                  (* [sched_->work_finished()] *)
| Earliest_changed               (* the [on_earliest_changed_] callback *)
| Frame_destroyed (w : nat)      (* [h.destroy()]: ends the node's storage *)
| Freed (id : nat).              (* [delete impl] *)

#[export] Instance event_eq_dec : EqDecision event.
Proof. solve_decision. Defined.

Record service := mk_service {
  self : nat;
  hst : heap_state;
  free_list_ : option nat;
  on_earliest_changed_ : bool;
  shutting_down_ : bool;
  cached_nearest_ns_ : Z;
  tl_cached_impl : gmap nat nat;
  nodes : gmap nat waiter_node;
  stops : gset nat;
  trace : list event
}.

Definition init (self : nat) (cb : bool) : service :=
  mk_service self (hs [] ∅) None cb false int64_max ∅ ∅ ∅ [].

Abbreviation SM := (M service).

Definition set_hst (h : heap_state) (s : service) : service :=
  mk_service (self s) h (free_list_ s) (on_earliest_changed_ s) (shutting_down_ s)
    (cached_nearest_ns_ s) (tl_cached_impl s) (nodes s) (stops s) (trace s).
Definition set_free (o : option nat) (s : service) : service :=
  mk_service (self s) (hst s) o (on_earliest_changed_ s) (shutting_down_ s)
    (cached_nearest_ns_ s) (tl_cached_impl s) (nodes s) (stops s) (trace s).
Definition set_shut (b : bool) (s : service) : service :=
  mk_service (self s) (hst s) (free_list_ s) (on_earliest_changed_ s) b
    (cached_nearest_ns_ s) (tl_cached_impl s) (nodes s) (stops s) (trace s).
Definition set_cached (z : Z) (s : service) : service :=
  mk_service (self s) (hst s) (free_list_ s) (on_earliest_changed_ s) (shutting_down_ s)
    z (tl_cached_impl s) (nodes s) (stops s) (trace s).
Definition set_tl (m : gmap nat nat) (s : service) : service :=
  mk_service (self s) (hst s) (free_list_ s) (on_earliest_changed_ s) (shutting_down_ s)
    (cached_nearest_ns_ s) m (nodes s) (stops s) (trace s).
Definition set_nodes (m : gmap nat waiter_node) (s : service) : service :=
  mk_service (self s) (hst s) (free_list_ s) (on_earliest_changed_ s) (shutting_down_ s)
    (cached_nearest_ns_ s) (tl_cached_impl s) m (stops s) (trace s).
Definition set_stops (m : gset nat) (s : service) : service :=
  mk_service (self s) (hst s) (free_list_ s) (on_earliest_changed_ s) (shutting_down_ s)
    (cached_nearest_ns_ s) (tl_cached_impl s) (nodes s) m (trace s).
Definition add_trace (l : list event) (s : service) : service :=
  mk_service (self s) (hst s) (free_list_ s) (on_earliest_changed_ s) (shutting_down_ s)
    (cached_nearest_ns_ s) (tl_cached_impl s) (nodes s) (stops s) (trace s ++ l).

(** * Access to the objects *)

Definition emit (e : event) : SM unit := modify (add_trace [e]).

(** An operation on the heap and the implementations. *)
Definition on_heap {A} (m : HM A) : SM A := zoom hst set_hst m.

Definition impl (id : nat) : SM implementation := on_heap (get_impl id).
Definition upd_impl (id : nat) (f : implementation -> implementation) : SM unit :=
  on_heap (p ← get_impl id; put_impl id (f p)).

Definition node (w : nat) : SM waiter_node := s ← get; deref (nodes s !! w).
Definition upd_node (w : nat) (f : waiter_node -> waiter_node) : SM unit :=
  n ← node w; modify (fun s => set_nodes (<[w := f n]> (nodes s)) s).

(** [delete impl]: deleting a null or dangling pointer's object is a fault. *)
Definition delete_impl (id : nat) : SM unit :=
  _ ← impl id;
  _ ← modify (fun s => set_hst (hs (heap_ (hst s)) (delete id (impls (hst s)))) s);
  emit (Freed id).

(** * The cached nearest expiry *)

Definition nearest (h : list heap_entry) : Z :=
  match h with
  | [] => int64_max
  | e :: _ => time_ e
  end.

Definition refresh_cached_nearest : SM unit :=
  modify (fun s => set_cached (nearest (heap_ (hst s))) s).

Definition empty (s : service) : bool := cached_nearest_ns_ s =? int64_max.

Definition nearest_expiry (s : service) : Z := cached_nearest_ns_ s.

(** [on_earliest_changed_()] *)
Definition call_earliest_changed : SM unit :=
  s ← get; if on_earliest_changed_ s then emit Earliest_changed else skip.

(** * Waiter lists *)

(** [impl.waiters_.pop_front()] *)
Definition pop_front (id : nat) : SM (option nat) :=
  p ← impl id;
  match waiters_ p with
  | [] => mret None
  | w :: ws => _ ← upd_impl id (set_waiters ws); mret (Some w)
  end.

Definition push_back (id w : nat) : SM unit :=
  upd_impl id (fun p => set_waiters (waiters_ p ++ [w]) p).

(** [impl.waiters_.remove(w)] *)
Definition remove_waiter (id w : nat) : SM unit :=
  upd_impl id (fun p => set_waiters (filter (fun x => x <> w) (waiters_ p)) p).

(** [while (auto* w = impl.waiters_.pop_front()) { w->impl_ = nullptr; ...;
    canceled.push_back(w); }]; the waiters left bound the iterations.  [f] is
    what else is written to the node. *)
Fixpoint drain_loop (fuel : nat) (id : nat) (f : waiter_node -> waiter_node)
    (acc : list nat) : SM (list nat) :=
  match fuel with
  | O => fault
  | S fuel =>
      o ← pop_front id;
      match o with
      | None => mret acc
      | Some w =>
          _ ← upd_node w (fun n => f (set_impl_ None n));
          drain_loop fuel id f (acc ++ [w])
      end
  end.
Definition drain (id : nat) (f : waiter_node -> waiter_node) (acc : list nat) : SM (list nat) :=
  p ← impl id; drain_loop (S (length (waiters_ p))) id f acc.

(** [w->ec_ = canceled; sched_->post(&w->op_)] *)
Definition post_canceled (w : nat) : SM unit :=
  _ ← upd_node w (set_ec_ canceled); emit (Post w).

(** [while (auto* w = canceled.pop_front()) { ...; ++count; }] *)
Fixpoint post_all (each : nat -> SM unit) (l : list nat) (count : nat) : SM nat :=
  match l with
  | [] => mret count
  | w :: l => _ ← each w; post_all each l (S count)
  end.

(** * Operations of the service *)

(** [bool in_heap = heap_index_ != npos] *)
Definition in_heap (p : implementation) : bool :=
  match heap_index_ p with
  | Some _ => true
  | None => false
  end.

(** [heap_index_ == 0] *)
Definition at_root (p : implementation) : bool :=
  match heap_index_ p with
  | Some O => true
  | _ => false
  end.

Definition cancel_timer (id : nat) : SM nat :=
  p ← impl id;
  if negb (might_have_pending_waits_ p) then mret O
  else
    _ ← on_heap (remove_timer_impl id);
    l ← drain id (fun n => n) [];
    _ ← upd_impl id (set_might false);
    _ ← refresh_cached_nearest;
    post_all post_canceled l O.

(** The locked part of [update_timer] that moves the entry. *)
Definition move_entry (id : nat) (new_time : Z) : SM bool :=
  p ← impl id;
  s ← get;
  match heap_index_ p with
  | Some idx =>
      if (idx <? length (heap_ (hst s)))%nat then
        _ ← on_heap (retime idx new_time);
        p ← impl id;
        mret (at_root p)
      else mret false
  | None => mret false
  end.

Definition update_timer (id : nat) (new_time : Z) : SM nat :=
  p ← impl id;
  if negb (in_heap p) && negb (might_have_pending_waits_ p) then mret O
  else
    l ← drain id (fun n => n) [];
    notify ← move_entry id new_time;
    _ ← refresh_cached_nearest;
    count ← post_all post_canceled l O;
    _ ← (if (notify : bool) then call_earliest_changed else skip);
    mret count.

(** [if (impl.waiters_.empty()) { remove_timer_impl(impl);
    might_have_pending_waits_ = false; }] *)
Definition retire_if_idle (id : nat) : SM unit :=
  p ← impl id;
  match waiters_ p with
  | [] => _ ← on_heap (remove_timer_impl id); upd_impl id (set_might false)
  | _ :: _ => skip
  end.

(** [w->token_->stop_requested()] *)
Definition stop_requested (n : waiter_node) (s : service) : bool :=
  match token_ n with
  | Some k => bool_decide (k ∈ stops s)
  | None => false
  end.

(** A timer outside the heap is pushed into it; [true] when it is the earliest. *)
Definition enter_heap (id : nat) : SM bool :=
  p ← impl id;
  if in_heap p then mret false
  else
    _ ← on_heap (push_timer id);
    p ← impl id;
    _ ← refresh_cached_nearest;
    mret (at_root p).

Definition insert_waiter (id w : nat) : SM unit :=
  _ ← upd_node w (set_impl_ (Some id));
  notify ← enter_heap id;
  _ ← push_back id w;
  n ← node w;
  s ← get;
  if stop_requested n s then
    _ ← upd_node w (set_impl_ None);
    _ ← remove_waiter id w;
    _ ← retire_if_idle id;
    _ ← refresh_cached_nearest;
    post_canceled w
  else if (notify : bool) then call_earliest_changed else skip.

Definition cancel_waiter (w : nat) : SM unit :=
  n ← node w;
  match impl_ n with
  | None => skip
  | Some id =>
      _ ← upd_node w (set_impl_ None);
      _ ← remove_waiter id w;
      _ ← retire_if_idle id;
      _ ← refresh_cached_nearest;
      post_canceled w
  end.

Definition cancel_one_waiter (id : nat) : SM nat :=
  p ← impl id;
  if negb (might_have_pending_waits_ p) then mret O
  else
    o ← pop_front id;
    match o with
    | None => mret O
    | Some w =>
        _ ← upd_node w (set_impl_ None);
        _ ← retire_if_idle id;
        _ ← refresh_cached_nearest;
        _ ← post_canceled w;
        mret 1%nat
    end.

(** [while (!heap_.empty() && heap_[0].time_ <= now)]; each iteration removes
    an entry, so the size bounds them. *)
Fixpoint expire_loop (fuel : nat) (now : Z) (expired : list nat) : SM (list nat) :=
  match fuel with
  | O => fault
  | S fuel =>
      s ← get;
      match heap_ (hst s) with
      | [] => mret expired
      | e :: _ =>
          if time_ e <=? now then
            let t := timer_ e in
            _ ← on_heap (remove_timer_impl t);
            expired ← drain t (set_ec_ success) expired;
            _ ← upd_impl t (set_might false);
            expire_loop fuel now expired
          else mret expired
      end
  end.

Definition process_expired (now : Z) : SM nat :=
  s ← get;
  l ← expire_loop (S (length (heap_ (hst s)))) now [];
  _ ← refresh_cached_nearest;
  post_all (fun w => emit (Post w)) l O.

(** * The pool of implementations *)

Definition try_pop_tl_cache (tid : nat) : SM (option nat) :=
  s ← get;
  match tl_cached_impl s !! tid with
  | Some id =>
      _ ← modify (fun s => set_tl (delete tid (tl_cached_impl s)) s);
      p ← impl id;
      if (svc_ p =? self s)%nat then mret (Some id)
      else _ ← delete_impl id; mret None
  | None => mret None
  end.

Definition try_push_tl_cache (tid id : nat) : SM bool :=
  s ← get;
  match tl_cached_impl s !! tid with
  | None => _ ← modify (fun s => set_tl (<[tid := id]> (tl_cached_impl s)) s); mret true
  | Some _ => mret false
  end.

(** Also the destructor of [tl_cache_owner], at thread exit. *)
Definition timer_service_invalidate_cache (tid : nat) : SM unit :=
  s ← get;
  match tl_cached_impl s !! tid with
  | Some id =>
      _ ← delete_impl id;
      modify (fun s => set_tl (delete tid (tl_cached_impl s)) s)
  | None => skip
  end.

(** The reset of a recycled implementation. *)
Definition recycle (svc : nat) (p : implementation) : implementation :=
  mk_impl 0 None false svc (waiters_ p) (next_free_ p).

(** [fresh] is the address the allocator returns for [new]. *)
Definition construct (tid fresh : nat) : SM nat :=
  o ← try_pop_tl_cache tid;
  s ← get;
  match o with
  | Some id => _ ← upd_impl id (recycle (self s)); mret id
  | None =>
      match free_list_ s with
      | Some id =>
          p ← impl id;
          _ ← modify (set_free (next_free_ p));
          _ ← upd_impl id (fun p => recycle (self s) (set_next None p));
          mret id
      | None =>
          match impls (hst s) !! fresh with
          | Some _ => fault
          | None =>
              _ ← modify (fun s => set_hst (hs (heap_ (hst s))
                     (<[fresh := mk_impl 0 None false (self s) [] None]> (impls (hst s)))) s);
              mret fresh
          end
      end
  end.

Definition destroy_impl (tid id : nat) : SM unit :=
  s ← get;
  if shutting_down_ s then skip
  else
    _ ← cancel_timer id;
    p ← impl id;
    _ ← (if in_heap p then _ ← on_heap (remove_timer_impl id); refresh_cached_nearest
         else skip);
    cached ← try_push_tl_cache tid id;
    if (cached : bool) then skip
    else
      s ← get;
      _ ← upd_impl id (set_next (free_list_ s));
      modify (set_free (Some id)).

Definition destroy (tid id : nat) : SM unit :=
  s ← get; if shutting_down_ s then skip else destroy_impl tid id.

(** * Shutdown *)

(** Reset the position of every timer of the heap and collect the timers. *)
Fixpoint detach_all (h : list heap_entry) : SM (list nat) :=
  match h with
  | [] => mret []
  | e :: h =>
      _ ← on_heap (store_index (timer_ e) None);
      l ← detach_all h;
      mret (timer_ e :: l)
  end.

Definition reset_stop_cb (w : nat) : SM unit := upd_node w (set_cb_ false).

(** [h = exchange(w->h_, {}); work_finished(); if (h) h.destroy()]: destroying
    the frame ends the node's storage. *)
Definition destroy_frame (w : nat) : SM unit :=
  n ← node w;
  _ ← upd_node w (fun n => mk_node (impl_ n) (wsvc_ n) false (token_ n) (ec_ n) (cb_active_ n));
  _ ← emit Work_finished;
  if h_ n then
    _ ← modify (fun s => set_nodes (delete w (nodes s)) s);
    emit (Frame_destroyed w)
  else skip.

Fixpoint shutdown_waiters (fuel id : nat) : SM unit :=
  match fuel with
  | O => fault
  | S fuel =>
      o ← pop_front id;
      match o with
      | None => skip
      | Some w => _ ← reset_stop_cb w; _ ← destroy_frame w; shutdown_waiters fuel id
      end
  end.

Fixpoint shutdown_impls (l : list nat) : SM unit :=
  match l with
  | [] => skip
  | id :: l =>
      p ← impl id;
      _ ← shutdown_waiters (S (length (waiters_ p))) id;
      _ ← delete_impl id;
      shutdown_impls l
  end.

(** [while (free_list_)]; the list is no longer than the store. *)
Fixpoint free_all (fuel : nat) : SM unit :=
  match fuel with
  | O => fault
  | S fuel =>
      s ← get;
      match free_list_ s with
      | None => skip
      | Some id =>
          p ← impl id;
          _ ← delete_impl id;
          _ ← modify (set_free (next_free_ p));
          free_all fuel
      end
  end.

Definition shutdown (tid : nat) : SM unit :=
  _ ← timer_service_invalidate_cache tid;
  _ ← modify (set_shut true);
  s ← get;
  l ← detach_all (heap_ (hst s));
  _ ← modify (fun s => set_cached int64_max (set_hst (hs [] (impls (hst s))) s));
  _ ← shutdown_impls l;
  s ← get;
  free_all (S (size (impls (hst s)))).

(** * The timer handle and the waits *)

Definition time_point_min : Z := int64_min.
Definition time_point_max : Z := int64_max.

Definition already_expired (p : implementation) (now : Z) : bool :=
  negb (in_heap p) && ((expiry_ p =? time_point_min) || (expiry_ p <=? now)).

(** A stop callback constructed after the stop was requested runs at once. *)
Definition arm_stop_cb (w : nat) : SM unit :=
  n ← node w;
  s ← get;
  _ ← (if stop_requested n s then cancel_waiter w else skip);
  upd_node w (set_cb_ true).

(** [implementation::wait] up to the call of [insert_waiter]. *)
Definition wait_arm (id w : nat) : SM unit :=
  p ← impl id;
  _ ← upd_node w (fun n => mk_node None (svc_ p) (h_ n) (token_ n) (ec_ n) (cb_active_ n));
  _ ← upd_impl id (set_might true);
  _ ← emit Work_started;
  n ← node w;
  match token_ n with
  | Some _ => arm_stop_cb w
  | None => skip
  end.

(** Resume at once, through the executor. *)
Definition complete_now (w : nat) : SM unit :=
  _ ← upd_node w (set_ec_ success); emit (Resume w).

Definition wait (id w : nat) (now : Z) : SM unit :=
  p ← impl id;
  if already_expired p now then complete_now w
  else _ ← wait_arm id w; insert_waiter id w.

(** [wait_awaitable::await_suspend]; the node of this [co_await] is set up
    with its coroutine and its token.  [now] is read again by [wait]. *)
Definition await_suspend (id w : nat) (token : option nat) (now now' : Z) : SM unit :=
  p ← impl id;
  _ ← upd_node w (fun n => mk_node (impl_ n) (wsvc_ n) true (token_ n) (ec_ n) (cb_active_ n));
  if already_expired p now then complete_now w
  else
    _ ← upd_node w (fun n => mk_node (impl_ n) (wsvc_ n) (h_ n) token (ec_ n) (cb_active_ n));
    wait id w now'.

(** [completion_op::operator()]; posting the continuation is the last access
    to the node. *)
Definition completion_op (w : nat) : SM unit :=
  _ ← reset_stop_cb w; _ ← emit (Resume w); emit Work_finished.

Definition completion_op_destroy (w : nat) : SM unit :=
  _ ← reset_stop_cb w; destroy_frame w.

Definition timer_service_update_expiry (id : nat) : SM nat :=
  p ← impl id; update_timer id (expiry_ p).

Definition cancel (id : nat) : SM nat :=
  p ← impl id;
  if negb (might_have_pending_waits_ p) then mret O else cancel_timer id.

Definition cancel_one (id : nat) : SM nat :=
  p ← impl id;
  if negb (might_have_pending_waits_ p) then mret O else cancel_one_waiter id.

Definition after_expiry_change (id : nat) : SM nat :=
  p ← impl id;
  if negb (in_heap p) && negb (might_have_pending_waits_ p) then mret O
  else timer_service_update_expiry id.

Definition expires_at (id : nat) (t : Z) : SM nat :=
  _ ← upd_impl id (set_expiry t); after_expiry_change id.

(** The expiry of [expires_after]; the subtraction is that of the 64-bit
    representation. *)
Definition after (d now : Z) : Z :=
  if d <=? 0 then time_point_min
  else if (time_point_max - now <? d) then time_point_max
  else now + d.

Definition expires_after (id : nat) (d now : Z) : SM nat :=
  _ ← upd_impl id (set_expiry (after d now)); after_expiry_change id.

(** [stop_source::request_stop] of state [k], and the callback of an armed
    waiter, which may run on any thread. *)
Definition request_stop (k : nat) : SM unit :=
  modify (fun s => set_stops ({[k]} ∪ stops s) s).
Definition canceller (w : nat) : SM unit := cancel_waiter w.

(** A sample run: two waiters on one timer, one of them stopped, the other
    fired. *)
Definition new_node (w : nat) : SM unit :=
  modify (fun s => set_nodes (<[w := mk_node None 0 false None success false]> (nodes s)) s).
Definition sample : SM nat :=
  id ← construct 1 100;
  _ ← expires_after id 50 1000;
  _ ← new_node 7; _ ← await_suspend id 7 (Some 3%nat) 1000 1001;
  _ ← new_node 8; _ ← await_suspend id 8 None 1000 1001;
  _ ← request_stop 3; _ ← canceller 7;
  a ← process_expired 1049;
  b ← process_expired 1050;
  mret (10 * a + b)%nat.

Example sample_trace :
  match sample (init 0 true) with
  | Ok (n, s) => n = 1%nat /\ trace s = [Work_started; Earliest_changed; Work_started; Post 7; Post 8]
  | _ => False
  end.
Proof. vm_compute. done. Qed.
