(* ===== verification/TimerServiceInv.v ===== *)
(** Invariants and specifications of the timer service of [TimerService]. *)

From stdpp Require Import gmap sorting.
From S2P Require Import Prelude StateMonad TimerHeap TimerService.

(** * Symbolic execution of the object accesses *)

Lemma set_hst_id s : set_hst (hst s) s = s.
Proof. by destruct s. Qed.

Lemma wp_on_heap {A} (m : HM A) (Q : A -> service -> Prop) s :
  wp m (fun a h => Q a (set_hst h s)) (hst s) -> wp (on_heap m) Q s.
Proof. apply wp_zoom. Qed.

Lemma wp_impl id p (Q : implementation -> service -> Prop) s :
  impls (hst s) !! id = Some p -> Q p s -> wp (impl id) Q s.
Proof.
  intros P HQ. apply wp_on_heap. eapply wp_get_impl; [done|]. by rewrite set_hst_id.
Qed.

Definition with_impl (id : nat) (p : implementation) (s : service) : service :=
  set_hst (hs (heap_ (hst s)) (<[id := p]> (impls (hst s)))) s.

Lemma wp_upd_impl id f p (Q : unit -> service -> Prop) s :
  impls (hst s) !! id = Some p -> Q tt (with_impl id (f p) s) -> wp (upd_impl id f) Q s.
Proof.
  intros P HQ. apply wp_on_heap. wp_step. eapply wp_get_impl; [done|].
  unfold put_impl. wp_step. eapply wp_get_impl; [done|]. by wp_step.
Qed.

Lemma wp_node w n (Q : waiter_node -> service -> Prop) s :
  nodes s !! w = Some n -> Q n s -> wp (node w) Q s.
Proof. intros. unfold node. by wp_steps. Qed.

Definition with_node (w : nat) (n : waiter_node) (s : service) : service :=
  set_nodes (<[w := n]> (nodes s)) s.

Lemma wp_upd_node w f n (Q : unit -> service -> Prop) s :
  nodes s !! w = Some n -> Q tt (with_node w (f n) s) -> wp (upd_node w f) Q s.
Proof. intros. unfold upd_node. wp_step. eapply wp_node; [done|]. by wp_step. Qed.

Lemma wp_emit e (Q : unit -> service -> Prop) s : Q tt (add_trace [e] s) -> wp (emit e) Q s.
Proof. done. Qed.

Lemma wp_refresh (Q : unit -> service -> Prop) s :
  Q tt (set_cached (nearest (heap_ (hst s))) s) -> wp refresh_cached_nearest Q s.
Proof. done. Qed.

(** One access, with the object found by assumption. *)
Ltac svc_step :=
  first [ wp_step
        | lazymatch goal with
          | |- wp (impl _) _ _ => eapply wp_impl; [eassumption|]
          | |- wp (upd_impl _ _) _ _ => eapply wp_upd_impl; [eassumption|]
          | |- wp (node _) _ _ => eapply wp_node; [eassumption|]
          | |- wp (upd_node _ _) _ _ => eapply wp_upd_node; [eassumption|]
          | |- wp (emit _) _ _ => apply wp_emit
          | |- wp refresh_cached_nearest _ _ => apply wp_refresh
          | |- wp (on_heap _) _ _ => apply wp_on_heap
          end ].

(** * Views of the state *)

(** What a timer implementation holds, up to its position in the heap. *)
Record timer_view := tv {
  v_expiry : Z;
  v_armed : bool;
  v_might : bool;
  v_svc : nat;
  v_waiters : list nat;
  v_next : option nat
}.

Definition view (p : implementation) : timer_view :=
  tv (expiry_ p) (in_heap p) (might_have_pending_waits_ p) (svc_ p) (waiters_ p) (next_free_ p).

Definition hview (h : heap_state) : gmap nat timer_view := view <$> impls h.
Definition timers (s : service) : gmap nat timer_view := hview (hst s).

(** The parts of the service that waits, fires and cancels leave alone. *)
Definition env (s : service) :=
  (self s, free_list_ s, on_earliest_changed_ s, shutting_down_ s, tl_cached_impl s, stops s).

Definition disarm (v : timer_view) : timer_view :=
  tv (v_expiry v) false (v_might v) (v_svc v) (v_waiters v) (v_next v).
Definition arm (v : timer_view) : timer_view :=
  tv (v_expiry v) true (v_might v) (v_svc v) (v_waiters v) (v_next v).
Definition with_waiters (l : list nat) (v : timer_view) : timer_view :=
  tv (v_expiry v) (v_armed v) (v_might v) (v_svc v) l (v_next v).
Definition with_might (b : bool) (v : timer_view) : timer_view :=
  tv (v_expiry v) (v_armed v) b (v_svc v) (v_waiters v) (v_next v).
(** No entry, no waiters, no pending waits. *)
Definition idle (v : timer_view) : timer_view :=
  tv (v_expiry v) false false (v_svc v) [] (v_next v).

Lemma hview_lookup h id p : impls h !! id = Some p -> hview h !! id = Some (view p).
Proof. intros P. unfold hview. by rewrite lookup_fmap, P. Qed.

Lemma hview_inv h id v : hview h !! id = Some v -> exists p, impls h !! id = Some p /\ view p = v.
Proof.
  unfold hview. rewrite lookup_fmap. destruct (impls h !! id) as [p|]; cbn; [|done].
  intros [= <-]. eauto.
Qed.

(** The armed timers are those of the heap's entries. *)
Lemma armed_iff h id p :
  ix_ok h -> impls h !! id = Some p ->
  in_heap p = true <-> exists e, e ∈ heap_ h /\ timer_ e = id.
Proof.
  intros Hix P. unfold in_heap. destruct (heap_index_ p) as [i|] eqn:I; split; try done.
  - intros _. by eapply ix_in_heap.
  - intros (e & He & Ht). by destruct (ix_not_in_heap h id p e Hix P I He).
Qed.

Lemma view_eq p q b :
  set_index None p = set_index None q -> in_heap p = b ->
  view p = tv (expiry_ q) b (might_have_pending_waits_ q) (svc_ q) (waiters_ q) (next_free_ q).
Proof. destruct p, q; cbn. by intros [= -> -> -> -> ->] <-. Qed.

(** Views after a change that keeps everything but positions. *)
Lemma hview_change h h' id p b :
  ix_ok h -> ix_ok h' -> impls h !! id = Some p ->
  (forall k, set_index None <$> impls h' !! k = set_index None <$> impls h !! k) ->
  (forall k, k <> id -> (exists e, e ∈ heap_ h' /\ timer_ e = k) <->
                        (exists e, e ∈ heap_ h /\ timer_ e = k)) ->
  ((exists e, e ∈ heap_ h' /\ timer_ e = id) <-> b = true) ->
  hview h' = <[id := tv (expiry_ p) b (might_have_pending_waits_ p) (svc_ p) (waiters_ p)
                        (next_free_ p)]> (hview h).
Proof.
  intros Hix Hix' P Himp Hother Hid. apply map_eq. intros k. specialize (Himp k).
  unfold hview. rewrite lookup_fmap, lookup_insert. case_decide as E; subst.
  - rewrite P in Himp. destruct (impls h' !! k) as [q|] eqn:Q; [|done]. cbn in *.
    apply (inj Some) in Himp. f_equal. apply view_eq; [done|].
    apply eq_true_iff_eq. by rewrite (armed_iff h' k q Hix' Q).
  - rewrite lookup_fmap. destruct (impls h' !! k) as [q'|] eqn:Q', (impls h !! k) as [q|] eqn:Q;
      cbn in *; try done. apply (inj Some) in Himp. f_equal.
    rewrite (view_eq q' q (in_heap q)); [done|done|].
    apply eq_true_iff_eq. rewrite (armed_iff h' k q'), (armed_iff h k q) by done.
    by apply Hother.
Qed.

Lemma removed_view id p h h' :
  heap_ok h -> impls h !! id = Some p -> removed id h h' ->
  hview h' = <[id := disarm (view p)]> (hview h).
Proof.
  intros [Hix _] P [[Hix' _] Hm _ Hi]. apply (hview_change h h' id p false); try done.
  - intros k Hk. setoid_rewrite Hm. split; intros (e & He & <-); exists e; naive_solver.
  - setoid_rewrite Hm. split; [|done]. intros (e & [_ He] & <-). done.
Qed.

Lemma replaced_view id p t h h' :
  heap_ok h -> impls h !! id = Some p -> replaced_by (entry t id) h h' ->
  hview h' = <[id := arm (view p)]> (hview h).
Proof.
  intros [Hix _] P [[Hix' _] Hm Hi]. apply (hview_change h h' id p true); try done.
  - intros k Hk. setoid_rewrite Hm. split; intros (e & He & <-); exists e; naive_solver.
  - setoid_rewrite Hm. split; [done|]. intros _. exists (entry t id). naive_solver.
Qed.

(** * Loops over waiters *)

(** Apply [f] to the nodes of [l]. *)
Definition upd_nodes (f : waiter_node -> waiter_node) (l : list nat)
    (m : gmap nat waiter_node) : gmap nat waiter_node :=
  foldl (fun m w => alter f w m) m l.

Lemma upd_nodes_cons f w l m : upd_nodes f (w :: l) m = upd_nodes f l (alter f w m).
Proof. done. Qed.

Lemma upd_nodes_app f l1 l2 m : upd_nodes f (l1 ++ l2) m = upd_nodes f l2 (upd_nodes f l1 m).
Proof. apply foldl_app. Qed.

Lemma lookup_upd_nodes f l m w :
  NoDup l -> upd_nodes f l m !! w = if decide (w ∈ l) then f <$> m !! w else m !! w.
Proof.
  intros Hl. revert m. induction Hl as [|x l Hx Hl IH]; intros m; cbn; [done|].
  fold (upd_nodes f l (alter f x m)). rewrite IH. destruct (decide (w = x)) as [->|Hn].
  - rewrite decide_False by done. rewrite decide_True by set_solver. apply lookup_alter_eq.
  - rewrite lookup_alter_ne by done.
    destruct (decide (w ∈ l)); [rewrite decide_True|rewrite decide_False]; set_solver.
Qed.

Lemma is_Some_upd_nodes f l m w : is_Some (upd_nodes f l m !! w) <-> is_Some (m !! w).
Proof.
  revert m. induction l as [|x l IH]; intros m; cbn; [done|].
  fold (upd_nodes f l (alter f x m)). rewrite IH. destruct (decide (w = x)) as [->|Hn].
  - rewrite lookup_alter_eq. by rewrite fmap_is_Some.
  - by rewrite lookup_alter_ne.
Qed.

Lemma alter_insert_eq (f : waiter_node -> waiter_node) w n (m : gmap nat waiter_node) :
  m !! w = Some n -> <[w := f n]> m = alter f w m.
Proof.
  intros E. apply map_eq. intros k. rewrite lookup_insert, lookup_alter.
  case_decide; subst; [by rewrite E|done].
Qed.

Lemma insert_impls_twice id p q (m : gmap nat implementation) :
  <[id := p]> (<[id := q]> m) = <[id := p]> m.
Proof. apply insert_insert_eq. Qed.

(** The nodes of a list of waiters are alive. *)
Definition alive (s : service) (l : list nat) : Prop := forall w, w ∈ l -> is_Some (nodes s !! w).

Lemma drain_loop_wp fuel id f acc p (Q : list nat -> service -> Prop) s :
  impls (hst s) !! id = Some p -> (length (waiters_ p) < fuel)%nat -> alive s (waiters_ p) ->
  Q (acc ++ waiters_ p)
    (set_nodes (upd_nodes (fun n => f (set_impl_ None n)) (waiters_ p) (nodes s))
       (with_impl id (set_waiters [] p) s)) ->
  wp (drain_loop fuel id f acc) Q s.
Proof.
  revert acc p s. induction fuel as [|fuel IH]; intros acc p s P Hf Ha HQ; [lia|].
  cbn [drain_loop]. wp_step. unfold pop_front. svc_step. svc_step.
  destruct (waiters_ p) as [|w ws] eqn:W.
  - svc_step. svc_step. rewrite app_nil_r in HQ.
    assert (E : set_waiters [] p = p) by (destruct p; cbn in *; by subst).
    revert HQ. unfold with_impl. rewrite E, insert_id by done.
    by destruct s as [? [] ? ? ? ? ? ? ? ?].
  - svc_step. svc_step. do 2 svc_step. cbn in Hf.
    destruct (Ha w ltac:(set_solver)) as [n N].
    eapply wp_upd_node; [exact N|].
    eapply IH.
    + cbn. by rewrite lookup_insert_eq.
    + cbn. lia.
    + intros w' Hw'. cbn. rewrite lookup_insert_is_Some.
      destruct (decide (w = w')); [by left|right]. split; [done|]. apply Ha. set_solver.
    + cbn. rewrite <- app_assoc. cbn.
      rewrite upd_nodes_cons, <- (alter_insert_eq _ w n) in HQ by done.
      unfold with_impl, with_node, set_nodes, set_hst. cbn. rewrite insert_impls_twice.
      exact HQ.
Qed.

Lemma drain_wp id f acc p (Q : list nat -> service -> Prop) s :
  impls (hst s) !! id = Some p -> alive s (waiters_ p) ->
  Q (acc ++ waiters_ p)
    (set_nodes (upd_nodes (fun n => f (set_impl_ None n)) (waiters_ p) (nodes s))
       (with_impl id (set_waiters [] p) s)) ->
  wp (drain id f acc) Q s.
Proof. intros. unfold drain. do 2 svc_step. eapply drain_loop_wp; eauto with lia. Qed.

Lemma set_nodes_id s : set_nodes (nodes s) s = s.
Proof. by destruct s. Qed.
Lemma add_trace_nil s : add_trace [] s = s.
Proof. destruct s. unfold add_trace. cbn. by rewrite app_nil_r. Qed.

Lemma add_trace_app l1 l2 s : add_trace l2 (add_trace l1 s) = add_trace (l1 ++ l2) s.
Proof. unfold add_trace. cbn. by rewrite app_assoc. Qed.

Lemma post_canceled_all_wp l c (Q : nat -> service -> Prop) s :
  alive s l ->
  Q (c + length l)%nat
    (add_trace (map Post l) (set_nodes (upd_nodes (set_ec_ canceled) l (nodes s)) s)) ->
  wp (post_all post_canceled l c) Q s.
Proof.
  revert c s. induction l as [|w l IH]; intros c s Ha HQ; cbn [post_all].
  - svc_step. cbn in HQ. rewrite add_trace_nil, set_nodes_id, Nat.add_0_r in HQ. done.
  - unfold post_canceled. do 2 svc_step. destruct (Ha w ltac:(set_solver)) as [n N].
    do 2 svc_step. apply IH.
    + intros w' Hw'. cbn. rewrite lookup_insert_is_Some.
      destruct (decide (w = w')); [by left|right]. split; [done|]. apply Ha. set_solver.
    + rewrite upd_nodes_cons, <- (alter_insert_eq _ w n) in HQ by done.
      revert HQ. unfold add_trace, with_node, set_nodes. cbn. rewrite <- app_assoc.
      by rewrite Nat.add_succ_r.
Qed.

Lemma post_fired_all_wp l c (Q : nat -> service -> Prop) s :
  Q (c + length l)%nat (add_trace (map Post l) s) ->
  wp (post_all (fun w => emit (Post w)) l c) Q s.
Proof.
  revert c s. induction l as [|w l IH]; intros c s HQ; cbn [post_all].
  - svc_step. cbn in HQ. by rewrite add_trace_nil, Nat.add_0_r in HQ.
  - do 2 svc_step. apply IH. revert HQ. unfold add_trace. cbn. rewrite <- app_assoc.
    by rewrite Nat.add_succ_r.
Qed.

(** * The invariant *)

(** Waiter lists and the [impl_] markers agree, and a timer with waiters has an
    entry in the heap. *)
Record lists_ok (T : gmap nat timer_view) (N : gmap nat waiter_node) : Prop := {
  lo_pub : forall id v w, T !! id = Some v -> w ∈ v_waiters v ->
    exists n, N !! w = Some n /\ impl_ n = Some id;
  lo_mark : forall w n id, N !! w = Some n -> impl_ n = Some id ->
    exists v, T !! id = Some v /\ w ∈ v_waiters v;
  lo_nodup : forall id v, T !! id = Some v -> NoDup (v_waiters v);
  lo_armed : forall id v, T !! id = Some v -> v_waiters v <> [] -> v_armed v = true
}.

(** The entry of a timer carries the timer's expiry. *)
Definition times_ok (h : heap_state) : Prop :=
  forall e, e ∈ heap_ h -> exists v, hview h !! timer_ e = Some v /\ v_expiry v = time_ e.

Record inv (s : service) : Prop := {
  inv_heap : heap_ok (hst s);
  inv_times : times_ok (hst s);
  inv_lists : lists_ok (timers s) (nodes s);
  inv_cached : cached_nearest_ns_ s = nearest (heap_ (hst s))
}.

(** [might_have_pending_waits_] is set on the timers of the heap. *)
Definition flags_ok (s : service) : Prop :=
  forall id v, timers s !! id = Some v -> v_armed v = true -> v_might v = true.

Lemma inv_alive s id p : inv s -> impls (hst s) !! id = Some p -> alive s (waiters_ p).
Proof.
  intros Hi P w Hw. destruct (lo_pub _ _ (inv_lists s Hi) id (view p) w) as (n & N & _).
  - by apply hview_lookup.
  - done.
  - by exists n.
Qed.

Lemma inv_init self cb : inv (init self cb).
Proof.
  constructor.
  - split; [constructor|]; cbn; [by intros i e; rewrite lookup_nil|done|intros j Hj; cbn in Hj; lia].
  - by intros e He%not_elem_of_nil.
  - by constructor.
  - done.
Qed.

(** Detaching waiters [L] of timer [id]. *)
Lemma lists_detach T N N' id v v' (L : list nat) :
  lists_ok T N -> T !! id = Some v ->
  v_waiters v' = filter (fun w => w ∉ L) (v_waiters v) ->
  (forall w, w ∈ L -> w ∈ v_waiters v) ->
  (v_waiters v' <> [] -> v_armed v' = true) ->
  (forall w, impl_ <$> N' !! w = if decide (w ∈ L) then (fun _ => None) <$> N !! w
                                 else impl_ <$> N !! w) ->
  lists_ok (<[id := v']> T) N'.
Proof.
  intros [Hp Hm Hn Ha] Hv Hf HL Harm HN. constructor.
  - intros k u w. rewrite lookup_insert. case_decide as E; subst.
    + intros [= <-]. rewrite Hf, list_elem_of_filter. intros [Hw1 Hw2].
      destruct (Hp k v w Hv Hw2) as (n & Nw & In). specialize (HN w).
      rewrite decide_False, Nw in HN by done.
      destruct (N' !! w) as [n'|]; cbn in HN; [|done]. exists n'. split; [done|congruence].
    + intros Hu Hw. destruct (Hp k u w Hu Hw) as (n & Nw & In). specialize (HN w).
      rewrite decide_False, Nw in HN.
      * destruct (N' !! w) as [n'|]; cbn in HN; [|done]. exists n'. split; [done|congruence].
      * intros HwL%HL. destruct (Hp id v w Hv HwL) as (n2 & Nw2 & In2). congruence.
  - intros w n' k Nw In. specialize (HN w). rewrite Nw in HN. cbn in HN.
    case_decide as HwL; destruct (N !! w) as [n|] eqn:E0; cbn in HN; try congruence.
    destruct (Hm w n k E0 ltac:(congruence)) as (u & Hu & Hwu).
    rewrite lookup_insert. case_decide; subst; [|by exists u].
    exists v'. split; [done|]. rewrite Hf, list_elem_of_filter. by simplify_eq.
  - intros k u. rewrite lookup_insert. case_decide; subst; [|apply Hn].
    intros [= <-]. rewrite Hf. apply list.NoDup_filter. by eapply Hn.
  - intros k u. rewrite lookup_insert. case_decide; subst; [|apply Ha].
    by intros [= <-].
Qed.

(** Publishing a new waiter on an armed timer. *)
Lemma lists_publish T N N' id v v' w n' :
  lists_ok T N -> T !! id = Some v -> v_waiters v' = v_waiters v ++ [w] -> v_armed v' = true ->
  (forall n, N !! w = Some n -> impl_ n = None) ->
  N' !! w = Some n' -> impl_ n' = Some id ->
  (forall x, x <> w -> N' !! x = N !! x) ->
  lists_ok (<[id := v']> T) N'.
Proof.
  intros [Hp Hm Hn Ha] Hv Hw Harm Hfresh Nw In Hother.
  assert (Hnew : forall k u, T !! k = Some u -> w ∉ v_waiters u).
  { intros k u Hu Hwu. destruct (Hp k u w Hu Hwu) as (n & E & F).
    rewrite (Hfresh n E) in F. done. }
  constructor.
  - intros k u x. rewrite lookup_insert. case_decide as E; subst.
    + intros [= <-]. rewrite Hw, elem_of_app, list_elem_of_singleton.
      intros [Hx| ->]; [|by exists n']. rewrite Hother; [by eapply Hp|].
      intros ->. by destruct (Hnew k v Hv).
    + intros Hu Hx. rewrite Hother; [by eapply Hp|]. intros ->. by destruct (Hnew k u Hu).
  - intros x n k Nx Ix. destruct (decide (x = w)) as [->|Hx].
    + exists v'. assert (k = id) as -> by congruence. rewrite lookup_insert_eq.
      split; [done|]. rewrite Hw. set_solver.
    + rewrite Hother in Nx by done. destruct (Hm x n k Nx Ix) as (u & Hu & Hxu).
      rewrite lookup_insert. case_decide; subst; [|by exists u].
      exists v'. split; [done|]. rewrite Hw. simplify_eq. set_solver.
  - intros k u. rewrite lookup_insert. case_decide; subst; [|apply Hn].
    intros [= <-]. rewrite Hw. apply list.NoDup_app. split; [by eapply Hn|].
    split; [|apply NoDup_singleton]. intros x Hx Hxw%list_elem_of_singleton. subst.
    by destruct (Hnew k v Hv).
  - intros k u. rewrite lookup_insert. case_decide; subst; [|apply Ha].
    by intros [= <-].
Qed.

Lemma filter_true (P : nat -> Prop) `{!forall x, Decision (P x)} (l : list nat) :
  (forall x, x ∈ l -> P x) -> filter P l = l.
Proof.
  induction l as [|x l IH]; intros HP; [done|].
  rewrite filter_cons_True by (apply HP; set_solver). f_equal. apply IH. set_solver.
Qed.

Lemma filter_all_out (l : list nat) : filter (fun w => w ∉ l) l = [].
Proof.
  destruct (filter (fun w => w ∉ l) l) as [|x k] eqn:E; [done|].
  assert (Hx : x ∈ filter (fun w => w ∉ l) l) by (rewrite E; set_solver).
  apply list_elem_of_filter in Hx. tauto.
Qed.

(** * Cancelling a timer *)

(** The end state of an operation that gives timer [id] the view [v'], detaches
    the waiters [L] with result [e] and adds the events [ev]. *)
Record effect (id : nat) (v' : timer_view) (L : list nat) (e : error_code) (ev : list event)
    (s s' : service) : Prop := {
  ef_env : env s' = env s;
  ef_timers : timers s' = <[id := v']> (timers s);
  ef_nodes : forall w, nodes s' !! w =
    if decide (w ∈ L) then (fun n => set_ec_ e (set_impl_ None n)) <$> nodes s !! w
    else nodes s !! w;
  ef_trace : trace s' = trace s ++ ev;
  ef_inv : inv s'
}.

Lemma times_removed id p h h' :
  heap_ok h -> times_ok h -> impls h !! id = Some p -> removed id h h' -> times_ok h'.
Proof.
  intros Hh Ht P R e He. rewrite (removed_view id p h h') by done.
  apply (rm_mem _ _ _ R) in He as [He Hn]. destruct (Ht e He) as (v & V & E).
  exists v. by rewrite lookup_insert_ne.
Qed.

(** Waiter lists, flags and the cached time do not matter to the heap. *)
Lemma heap_ok_put h id p q :
  heap_ok h -> impls h !! id = Some p -> heap_index_ q = heap_index_ p ->
  heap_ok (hs (heap_ h) (<[id := q]> (impls h))).
Proof.
  intros [[He Hi] Ho] P E. split; [|done]. constructor; cbn.
  - intros i e L. destruct (He i e L) as (p' & P' & I). rewrite lookup_insert.
    case_decide; subst; [|by exists p']. exists q. split; [done|congruence].
  - intros k p' i. rewrite lookup_insert. case_decide; subst; [|by apply Hi].
    intros [= <-] I. rewrite E in I. by eapply Hi.
Qed.

Lemma times_ok_put h id p q :
  times_ok h -> impls h !! id = Some p -> expiry_ q = expiry_ p ->
  times_ok (hs (heap_ h) (<[id := q]> (impls h))).
Proof.
  intros Ht P E e He. destruct (Ht e He) as (v & V & X). unfold hview. cbn.
  rewrite fmap_insert, lookup_insert. case_decide; subst; [|by exists v].
  exists (view q). split; [done|]. rewrite (hview_lookup _ _ _ P) in V. injection V as <-.
  cbn in *. congruence.
Qed.

Lemma hview_put h id q :
  hview (hs (heap_ h) (<[id := q]> (impls h))) = <[id := view q]> (hview h).
Proof. unfold hview. cbn. by rewrite fmap_insert. Qed.

Lemma timers_with_impl id q s : timers (with_impl id q s) = <[id := view q]> (timers s).
Proof. apply hview_put. Qed.

Lemma upd_nodes_impl N l (f : waiter_node -> waiter_node) w :
  NoDup l -> (forall n, impl_ (f n) = None) ->
  impl_ <$> upd_nodes f l N !! w =
    if decide (w ∈ l) then (fun _ => None) <$> N !! w else impl_ <$> N !! w.
Proof.
  intros Hl Hf. rewrite lookup_upd_nodes by done. case_decide; [|done].
  rewrite <- option_fmap_compose. apply option_fmap_ext. intros n. apply Hf.
Qed.

Lemma removed_impl id p h h' :
  heap_ok h -> impls h !! id = Some p -> removed id h h' ->
  exists p', impls h' !! id = Some p' /\ view p' = disarm (view p).
Proof.
  intros Hh P R. apply hview_inv. rewrite (removed_view id p h h') by done.
  apply lookup_insert_eq.
Qed.

Lemma effect_intro id v v' L e ev s s' :
  inv s -> timers s !! id = Some v ->
  v_waiters v' = filter (fun w => w ∉ L) (v_waiters v) ->
  (forall w, w ∈ L -> w ∈ v_waiters v) ->
  (v_waiters v' <> [] -> v_armed v' = true) ->
  env s' = env s -> timers s' = <[id := v']> (timers s) ->
  (forall w, nodes s' !! w =
    if decide (w ∈ L) then (fun n => set_ec_ e (set_impl_ None n)) <$> nodes s !! w
    else nodes s !! w) ->
  trace s' = trace s ++ ev ->
  heap_ok (hst s') -> times_ok (hst s') -> cached_nearest_ns_ s' = nearest (heap_ (hst s')) ->
  effect id v' L e ev s s'.
Proof.
  intros Hi V Hf HL Ha He HT HN Htr Hh Ht Hc. constructor; try done.
  constructor; try done. rewrite HT. apply (lists_detach _ (nodes s) _ id v v' L); try done.
  - apply Hi.
  - intros w. rewrite HN. case_decide; [|done]. by rewrite <- option_fmap_compose.
Qed.

Lemma upd_nodes_twice f g l m w :
  NoDup l -> upd_nodes f l (upd_nodes g l m) !! w =
    if decide (w ∈ l) then (fun n => f (g n)) <$> m !! w else m !! w.
Proof.
  intros Hl. rewrite !lookup_upd_nodes by done. case_decide; [|done].
  by rewrite <- option_fmap_compose.
Qed.

Lemma view_idle p p1 :
  view p1 = disarm (view p) -> view (set_might false (set_waiters [] p1)) = idle (view p).
Proof.
  destruct p, p1; unfold view, disarm, idle, in_heap; cbn. intros [= -> ? -> -> -> ->].
  by f_equal.
Qed.

Lemma cancel_timer_wp id p (Q : nat -> service -> Prop) s :
  inv s -> impls (hst s) !! id = Some p ->
  (if might_have_pending_waits_ p then
     forall s', effect id (idle (view p)) (waiters_ p) canceled (map Post (waiters_ p)) s s' ->
       Q (length (waiters_ p)) s'
   else Q O s) ->
  wp (cancel_timer id) Q s.
Proof.
  intros Hi P HQ. unfold cancel_timer. do 2 svc_step.
  destruct (might_have_pending_waits_ p); cbn [negb]; [|by svc_step].
  pose proof (inv_heap s Hi) as Hh. pose proof (hview_lookup _ _ _ P) as V.
  do 2 svc_step. eapply remove_timer_impl_wp; [done..|]. intros h1 R.
  destruct (removed_impl _ _ _ _ Hh P R) as (p1 & P1 & E1).
  assert (W1 : waiters_ p1 = waiters_ p) by (by injection E1).
  assert (X1 : expiry_ p1 = expiry_ p) by (by injection E1).
  pose proof (inv_alive s id p Hi P) as Ha.
  pose proof (lo_nodup _ _ (inv_lists s Hi) _ _ V) as Hd.
  do 1 svc_step. eapply drain_wp; [exact P1|by rewrite W1|]. cbn [app]. rewrite W1.
  svc_step. eapply wp_upd_impl; [cbn; apply lookup_insert_eq|]. do 2 svc_step.
  apply post_canceled_all_wp.
  { intros w Hw. cbn. rewrite is_Some_upd_nodes. by apply Ha. }
  cbn [Nat.add]. apply HQ.
  apply (effect_intro _ (view p)); cbn -[upd_nodes timers]; rewrite ?insert_impls_twice; try done.
  - by rewrite filter_all_out.
  - unfold timers. cbn -[hview]. rewrite insert_impls_twice, hview_put,
      (removed_view id p (hst s) h1), insert_insert_eq by done.
    f_equal. by apply view_idle.
  - intros w. by rewrite upd_nodes_twice.
  - eapply heap_ok_put; [apply R|exact P1|done].
  - eapply times_ok_put; [exact (times_removed id p _ _ Hh (inv_times s Hi) P R)|exact P1|done].
Qed.

(** * Cancelling one waiter *)

(** A timer without waiters leaves the heap. *)
Definition retire_view (v : timer_view) : timer_view :=
  match v_waiters v with
  | [] => idle v
  | _ :: _ => v
  end.

(** The part shared by the paths that cancel one waiter. *)
Definition retire_and_post (id w : nat) : SM unit :=
  _ ← retire_if_idle id; _ ← refresh_cached_nearest; post_canceled w.

Record retired (id w : nat) (v : timer_view) (n : waiter_node) (s s' : service) : Prop := {
  rt_env : env s' = env s;
  rt_timers : timers s' = <[id := retire_view v]> (timers s);
  rt_nodes : nodes s' = <[w := set_ec_ canceled n]> (nodes s);
  rt_trace : trace s' = trace s ++ [Post w];
  rt_heap : heap_ok (hst s');
  rt_times : times_ok (hst s');
  rt_cached : cached_nearest_ns_ s' = nearest (heap_ (hst s'))
}.

Lemma view_retire p p1 :
  view p1 = disarm (view p) -> waiters_ p = [] -> view (set_might false p1) = idle (view p).
Proof.
  destruct p, p1; unfold view, disarm, idle, in_heap; cbn. intros [= -> ? -> -> -> ->] ->.
  by f_equal.
Qed.

Lemma retire_and_post_wp id w p n (Q : unit -> service -> Prop) s :
  heap_ok (hst s) -> times_ok (hst s) -> impls (hst s) !! id = Some p -> nodes s !! w = Some n ->
  (forall s', retired id w (view p) n s s' -> Q tt s') ->
  wp (retire_and_post id w) Q s.
Proof.
  intros Hh Ht P N HQ. unfold retire_and_post, retire_if_idle, post_canceled.
  do 3 svc_step. destruct (waiters_ p) as [|x ws] eqn:W.
  - do 2 svc_step. eapply remove_timer_impl_wp; [done..|]. intros h1 R.
    destruct (removed_impl _ _ _ _ Hh P R) as (p1 & P1 & E1).
    eapply wp_upd_impl; [exact P1|]. do 3 svc_step. eapply wp_upd_node; [exact N|]. svc_step.
    apply HQ. constructor; cbn -[timers]; try done.
    + unfold timers. cbn -[hview].
      rewrite hview_put, (removed_view id p (hst s) h1), insert_insert_eq by done.
      f_equal. unfold retire_view. cbn. rewrite W. by apply view_retire.
    + eapply heap_ok_put; [apply R|exact P1|done].
    + eapply times_ok_put; [exact (times_removed id p _ _ Hh Ht P R)|exact P1|done].
  - do 4 svc_step. eapply wp_upd_node; [exact N|]. svc_step.
    apply HQ. constructor; cbn -[timers]; try done.
    unfold retire_view. cbn. rewrite W. symmetry. apply insert_id. by apply hview_lookup.
Qed.

Lemma retire_then {A} id w (k : SM A) Q s :
  wp (retire_and_post id w) (fun _ => wp k Q) s ->
  wp (_ ← retire_if_idle id; _ ← refresh_cached_nearest; _ ← post_canceled w; k) Q s.
Proof.
  unfold retire_and_post, wp, mbind, M_bind.
  destruct (retire_if_idle id s) as [[? s1]| |]; try done.
  destruct (refresh_cached_nearest s1) as [[? s2]| |]; try done.
  destruct (post_canceled w s2) as [[? ?]| |]; done.
Qed.

(** What [cancel_waiter] and [cancel_one_waiter] do to a published waiter. *)
Lemma retired_effect id w p n s s1 s' :
  inv s -> impls (hst s) !! id = Some p -> nodes s !! w = Some n -> w ∈ waiters_ p ->
  env s1 = env s -> trace s1 = trace s ->
  timers s1 = <[id := with_waiters (filter (fun x => x <> w) (waiters_ p)) (view p)]> (timers s) ->
  nodes s1 = <[w := set_impl_ None n]> (nodes s) ->
  retired id w (with_waiters (filter (fun x => x <> w) (waiters_ p)) (view p)) (set_impl_ None n) s1 s' ->
  effect id (retire_view (with_waiters (filter (fun x => x <> w) (waiters_ p)) (view p)))
    [w] canceled [Post w] s s'.
Proof.
  intros Hi P N Hw E1 Tr1 T1 N1 [E T Nd Tr Hh Ht Hc].
  apply (effect_intro _ (view p)); try done; try congruence.
  - by apply hview_lookup.
  - unfold retire_view. cbn.
    assert (F : filter (fun x => x <> w) (waiters_ p) = filter (fun x => x ∉ [w]) (waiters_ p)).
    { apply list_filter_iff. intros x. set_solver. }
    destruct (filter (fun x => x <> w) (waiters_ p)) eqn:G; cbn; congruence.
  - intros x Hx%list_elem_of_singleton. by subst.
  - unfold retire_view. cbn. destruct (filter (fun x => x <> w) (waiters_ p)); cbn; [done|].
    intros _. apply (lo_armed _ _ (inv_lists s Hi) id (view p)); [by apply hview_lookup|]. cbn.
    by destruct (waiters_ p); [apply not_elem_of_nil in Hw|].
  - by rewrite T, T1, insert_insert_eq.
  - intros x. rewrite Nd, N1, insert_insert_eq. destruct (decide (x = w)) as [->|Hx].
    + rewrite lookup_insert_eq, decide_True by (by apply list_elem_of_singleton). by rewrite N.
    + rewrite lookup_insert_ne, decide_False by (rewrite ?list_elem_of_singleton; congruence).
      done.
Qed.

Lemma cancel_waiter_wp w n (Q : unit -> service -> Prop) s :
  inv s -> nodes s !! w = Some n ->
  match impl_ n with
  | None => Q tt s
  | Some id =>
      forall p s', impls (hst s) !! id = Some p -> w ∈ waiters_ p ->
        effect id (retire_view (with_waiters (filter (fun x => x <> w) (waiters_ p)) (view p)))
          [w] canceled [Post w] s s' -> Q tt s'
  end ->
  wp (cancel_waiter w) Q s.
Proof.
  intros Hi N HQ. unfold cancel_waiter. do 2 svc_step.
  destruct (impl_ n) as [id|] eqn:I; [|by svc_step].
  destruct (lo_mark _ _ (inv_lists s Hi) w n id N I) as (v & V & Hw).
  apply hview_inv in V as (p & P & <-). cbn in Hw.
  do 2 svc_step. unfold remove_waiter. wp_step. eapply wp_upd_impl; [exact P|].
  fold (retire_and_post id w). eapply retire_and_post_wp.
  - cbn. by eapply heap_ok_put; [apply Hi|exact P|].
  - cbn. by eapply times_ok_put; [apply Hi|exact P|].
  - cbn. apply lookup_insert_eq.
  - cbn. apply lookup_insert_eq.
  - intros s' R. eapply HQ; [exact P|done|].
    eapply retired_effect; [done..| | | | |exact R]; try done.
    unfold timers. cbn -[hview]. by rewrite hview_put.
Qed.

Lemma filter_head (w : nat) ws : NoDup (w :: ws) -> filter (fun x => x <> w) (w :: ws) = ws.
Proof.
  intros [Hw _]%list.NoDup_cons. rewrite filter_cons_False by tauto.
  apply filter_true. set_solver.
Qed.

Lemma cancel_one_waiter_wp id p (Q : nat -> service -> Prop) s :
  inv s -> impls (hst s) !! id = Some p ->
  (if might_have_pending_waits_ p then
     match waiters_ p with
     | [] => Q O s
     | w :: ws => forall s', effect id (retire_view (with_waiters ws (view p)))
                               [w] canceled [Post w] s s' -> Q 1%nat s'
     end
   else Q O s) ->
  wp (cancel_one_waiter id) Q s.
Proof.
  intros Hi P HQ. unfold cancel_one_waiter. do 2 svc_step.
  destruct (might_have_pending_waits_ p); cbn [negb]; [|by svc_step].
  unfold pop_front. do 3 svc_step. pose proof (hview_lookup _ _ _ P) as V.
  pose proof (lo_nodup _ _ (inv_lists s Hi) _ _ V) as Hd.
  destruct (waiters_ p) as [|w ws] eqn:W; [by do 2 svc_step|].
  do 3 svc_step. destruct (inv_alive s id p Hi P w) as [n N]; [rewrite W; set_solver|].
  svc_step. eapply wp_upd_node; [exact N|]. apply retire_then.
  eapply retire_and_post_wp.
  - cbn. by eapply heap_ok_put; [apply Hi|exact P|].
  - cbn. by eapply times_ok_put; [apply Hi|exact P|].
  - cbn. apply lookup_insert_eq.
  - cbn. apply lookup_insert_eq.
  - intros s' R.
    pose proof (filter_head w ws ltac:(cbn in Hd; by rewrite W in Hd)) as F.
    svc_step. apply HQ. rewrite <- F, <- W.
    apply (retired_effect id w p n s
             (with_node w (set_impl_ None n) (with_impl id (set_waiters ws p) s))); try done.
    + rewrite W. set_solver.
    + unfold timers. cbn -[hview]. rewrite hview_put, W, F. done.
    + rewrite W, F. exact R.
Qed.

(** * Changing the expiry *)

Lemma wp_call_earliest (Q : unit -> service -> Prop) s :
  Q tt (add_trace (if on_earliest_changed_ s then [Earliest_changed] else []) s) ->
  wp call_earliest_changed Q s.
Proof.
  intros HQ. unfold call_earliest_changed. do 2 wp_step.
  destruct (on_earliest_changed_ s); [by apply wp_emit|].
  wp_step. by rewrite add_trace_nil in HQ.
Qed.

(** The callback, when the condition and a callback are there. *)
Definition notice (b : bool) (s : service) : list event :=
  if b && on_earliest_changed_ s then [Earliest_changed] else [].

Lemma wp_notify (b : bool) (Q : unit -> service -> Prop) s :
  Q tt (add_trace (notice b s) s) -> wp (if b then call_earliest_changed else skip) Q s.
Proof.
  unfold notice. destruct b; cbn.
  - apply wp_call_earliest.
  - rewrite add_trace_nil. apply wp_skip.
Qed.

Definition reset_expiry (t : Z) (v : timer_view) : timer_view :=
  tv t (v_armed v) (v_might v) (v_svc v) [] (v_next v).

(** Entries of the other timers carry their expiry. *)
Definition times_except (id : nat) (h : heap_state) : Prop :=
  forall e, e ∈ heap_ h -> timer_ e <> id ->
    exists v, hview h !! timer_ e = Some v /\ v_expiry v = time_ e.

Lemma times_except_put h id q :
  times_except id h -> times_except id (hs (heap_ h) (<[id := q]> (impls h))).
Proof.
  intros Ht e He Hn. destruct (Ht e He Hn) as (v & V & E). exists v.
  by rewrite hview_put, lookup_insert_ne.
Qed.

Lemma times_except_done id p h :
  times_except id h -> impls h !! id = Some p ->
  (forall e, e ∈ heap_ h -> timer_ e = id -> time_ e = expiry_ p) -> times_ok h.
Proof.
  intros Ht P Hid e He. destruct (decide (timer_ e = id)) as [E|E]; [|by apply Ht].
  exists (view p). split; [rewrite E; by apply hview_lookup|]. cbn. by rewrite Hid.
Qed.

Lemma times_ok_except id h : times_ok h -> times_except id h.
Proof. intros Ht e He _. by apply Ht. Qed.

Lemma move_entry_wp id p (Q : bool -> service -> Prop) s :
  heap_ok (hst s) -> times_except id (hst s) -> impls (hst s) !! id = Some p ->
  (forall h p', heap_ok h -> times_ok h -> hview h = hview (hst s) ->
     impls h !! id = Some p' -> Q (at_root p') (set_hst h s)) ->
  wp (move_entry id (expiry_ p)) Q s.
Proof.
  intros Hh Ht P HQ. unfold move_entry. do 4 svc_step.
  destruct (heap_index_ p) as [i|] eqn:I.
  - destruct (ix_impl _ (proj1 Hh) id p i P I) as (e & He & E).
    destruct (Nat.ltb_spec i (length (heap_ (hst s)))) as [Hlt|Hge].
    2: { apply lookup_lt_Some in He. lia. }
    do 2 svc_step. eapply retime_wp; [done..|]. rewrite E. intros h R.
    assert (V : hview h = hview (hst s)).
    { rewrite (replaced_view id p (expiry_ p) (hst s)) by done.
      apply insert_id. rewrite (hview_lookup _ _ _ P). f_equal.
      unfold arm, view, in_heap. cbn. by rewrite I. }
    destruct (hview_inv h id (view p)) as (p' & P' & Ev).
    { rewrite V. by apply hview_lookup. }
    svc_step. eapply wp_impl; [exact P'|]. svc_step. apply HQ; try done; [apply R|].
    eapply (times_except_done id); [|exact P'|].
    + intros x Hx Hn. apply (rp_mem _ _ _ R) in Hx as [->|[Hx _]]; [done|].
      rewrite V. by apply Ht.
    + intros x Hx Hxi. apply (rp_mem _ _ _ R) in Hx as [->|[_ Hx]]; [|done].
      cbn. by injection Ev.
  - svc_step. replace false with (at_root p) by (unfold at_root; by rewrite I).
    rewrite <- (set_hst_id s). apply HQ; try done.
    eapply times_except_done; [exact Ht|exact P|]. intros e He E.
    by destruct (ix_not_in_heap _ id p e (proj1 Hh) P I He).
Qed.

Lemma expires_at_wp id t p (Q : nat -> service -> Prop) s :
  inv s -> impls (hst s) !! id = Some p ->
  (forall p' s', impls (hst s') !! id = Some p' ->
     effect id (reset_expiry t (view p)) (waiters_ p) canceled
       (map Post (waiters_ p) ++ notice (at_root p') s) s s' ->
     Q (length (waiters_ p)) s') ->
  wp (expires_at id t) Q s.
Proof.
  intros Hi P HQ. unfold expires_at, after_expiry_change, timer_service_update_expiry.
  pose proof (hview_lookup _ _ _ P) as V. pose proof (inv_heap s Hi) as Hh.
  pose proof (lo_nodup _ _ (inv_lists s Hi) _ _ V) as Hd.
  do 2 svc_step. set (s1 := with_impl id (set_expiry t p) s).
  assert (P1 : impls (hst s1) !! id = Some (set_expiry t p)) by apply lookup_insert_eq.
  do 2 svc_step.
  destruct (negb (in_heap (set_expiry t p)) && negb (might_have_pending_waits_ (set_expiry t p)))
    eqn:Hfast.
  - svc_step. apply andb_prop in Hfast as [Hf _]. apply negb_true_iff in Hf. cbn in Hf.
    assert (W : waiters_ p = []).
    { destruct (waiters_ p) eqn:W; [done|]. pose proof (lo_armed _ _ (inv_lists s Hi) _ _ V) as A.
      cbn in A. rewrite W in A. unfold in_heap in *. cbn in *. rewrite Hf in A. by specialize (A ltac:(done)). }
    rewrite W in HQ. apply (HQ _ _ P1). unfold at_root, in_heap in *. cbn in *.
    destruct (heap_index_ p) as [i|] eqn:I; [done|].
    apply (effect_intro _ (view p)); try done.
    + cbn. by rewrite W.
    + by intros w ?%not_elem_of_nil.
    + unfold s1. rewrite timers_with_impl. f_equal.
      unfold reset_expiry, view. cbn. by rewrite W.
    + by rewrite app_nil_r.
    + by eapply heap_ok_put; [|exact P|].
    + cbn. eapply times_except_done; [|apply lookup_insert_eq|].
      * apply times_except_put, times_ok_except, Hi.
      * intros e He Ht. by destruct (ix_not_in_heap _ id p e (proj1 Hh) P I He).
    + apply Hi.
  - do 2 svc_step. unfold update_timer. do 2 svc_step. rewrite Hfast.
    svc_step. eapply drain_wp; [exact P1|exact (inv_alive s id p Hi P)|]. cbn [app].
    svc_step. eapply (move_entry_wp id (set_waiters [] (set_expiry t p))).
    + cbn. rewrite insert_impls_twice. by eapply heap_ok_put; [|exact P|].
    + cbn. rewrite insert_impls_twice. apply times_except_put, times_ok_except, Hi.
    + cbn. apply lookup_insert_eq.
    + intros h p' Hh' Ht' V' P'. do 3 svc_step. apply post_canceled_all_wp.
      { intros w Hw. cbn -[upd_nodes]. rewrite is_Some_upd_nodes. exact (inv_alive s id p Hi P w Hw). }
      cbn [Nat.add]. svc_step. apply wp_notify. svc_step. apply (HQ p'); [done|].
      apply (effect_intro _ (view p)); try done; cbn -[upd_nodes timers].
      * by rewrite filter_all_out.
      * unfold timers. cbn -[hview]. rewrite V'. cbn -[hview].
        by rewrite insert_impls_twice, hview_put.
      * intros w. by rewrite upd_nodes_twice.
      * by rewrite <- app_assoc.
Qed.

(** * Waiting *)

(** The end state of an operation on timer [id] that replaces the node [w]. *)
Record updated (id : nat) (v' : timer_view) (w : nat) (n' : waiter_node) (ev : list event)
    (s s' : service) : Prop := {
  up_env : env s' = env s;
  up_timers : timers s' = <[id := v']> (timers s);
  up_nodes : nodes s' = <[w := n']> (nodes s);
  up_trace : trace s' = trace s ++ ev;
  up_inv : inv s'
}.

(** A fresh waiter is on no list. *)
Lemma unpublished s id p w n :
  inv s -> impls (hst s) !! id = Some p -> nodes s !! w = Some n -> impl_ n = None ->
  w ∉ waiters_ p.
Proof.
  intros Hi P N I Hw.
  destruct (lo_pub _ _ (inv_lists s Hi) id (view p) w) as (n' & N' & I');
    [by apply hview_lookup|done|congruence].
Qed.

Lemma lists_same T N N' id v v' :
  lists_ok T N -> T !! id = Some v -> v_waiters v' = v_waiters v ->
  (v_waiters v' <> [] -> v_armed v' = true) ->
  (forall w, impl_ <$> N' !! w = impl_ <$> N !! w) ->
  lists_ok (<[id := v']> T) N'.
Proof.
  intros H V Hw Ha HN. apply (lists_detach T N N' id v v' []); try done.
  - rewrite Hw. symmetry. apply filter_true. intros x _. set_solver.
  - by intros w ?%not_elem_of_nil.
Qed.

Lemma wait_arm_wp id w p n (Q : unit -> service -> Prop) s :
  inv s -> impls (hst s) !! id = Some p -> nodes s !! w = Some n -> impl_ n = None ->
  cb_active_ n = false ->
  (forall s', updated id (with_might true (view p)) w
       (mk_node None (svc_ p) (h_ n) (token_ n) (ec_ n) (bool_decide (is_Some (token_ n))))
       [Work_started] s s' -> Q tt s') ->
  wp (wait_arm id w) Q s.
Proof.
  intros Hi P N I Hcb HQ. unfold wait_arm. do 4 svc_step. svc_step.
  eapply wp_upd_impl; [exact P|]. do 3 svc_step. eapply wp_node; [cbn; apply lookup_insert_eq|].
  set (n1 := mk_node None (svc_ p) (h_ n) (token_ n) (ec_ n) (cb_active_ n)).
  set (s1 := add_trace _ _). change (token_ n1) with (token_ n).
  assert (T1 : timers s1 = <[id := with_might true (view p)]> (timers s)).
  { unfold s1, timers. cbn -[hview]. by rewrite hview_put. }
  assert (H1 : forall b, inv (set_nodes (<[w := set_cb_ b n1]> (nodes s)) s1)).
  { intros b. constructor.
    - cbn. by eapply heap_ok_put; [apply Hi|exact P|].
    - cbn. by eapply times_ok_put; [apply Hi|exact P|].
    - unfold timers in *. cbn [hst set_nodes nodes]. rewrite T1.
      eapply lists_same; [apply Hi|by apply hview_lookup|done| |].
      + intros Hw. apply (lo_armed _ _ (inv_lists s Hi) id (view p)); [by apply hview_lookup|done].
      + intros x. rewrite lookup_insert. case_decide; subst; [|done]. by rewrite N; cbn; rewrite I.
    - apply Hi. }
  assert (E1 : n1 = set_cb_ false n1) by (unfold n1, set_cb_; cbn; by rewrite Hcb).
  assert (S1 : set_nodes (<[w := set_cb_ false n1]> (nodes s)) s1 = s1) by (by rewrite <- E1).
  assert (I1 : inv s1) by (rewrite <- S1; apply H1).
  assert (N1 : nodes s1 !! w = Some n1) by apply lookup_insert_eq.
  destruct (token_ n) as [k|] eqn:Tk.
  - unfold arm_stop_cb. do 5 svc_step.
    assert (Skip : wp (if stop_requested n1 s1 then cancel_waiter w else skip)
                      (fun _ s2 => s2 = s1) s1).
    { destruct (stop_requested n1 s1); [|by svc_step].
      eapply cancel_waiter_wp; [done..|]. done. }
    eapply wp_mono; [exact Skip|]. intros _ s2 ->. svc_step. apply HQ.
    constructor; try done.
    + cbn. rewrite insert_insert_eq. unfold n1, set_cb_. cbn. by rewrite ?Tk.
    + unfold with_node. change (nodes s1) with (<[w := n1]> (nodes s)).
      rewrite insert_insert_eq. apply (H1 true).
  - svc_step. apply HQ. constructor; try done. cbn. fold n1. f_equal. rewrite E1.
    unfold n1, set_cb_. cbn. by rewrite ?Tk.
Qed.

Lemma enter_heap_wp id p (Q : bool -> service -> Prop) s :
  heap_ok (hst s) -> times_ok (hst s) -> cached_nearest_ns_ s = nearest (heap_ (hst s)) ->
  impls (hst s) !! id = Some p ->
  (forall h p', heap_ok h -> times_ok h -> hview h = <[id := arm (view p)]> (hview (hst s)) ->
     impls h !! id = Some p' ->
     Q (negb (in_heap p) && at_root p') (set_cached (nearest (heap_ h)) (set_hst h s))) ->
  wp (enter_heap id) Q s.
Proof.
  intros Hh Ht Hc P HQ. unfold enter_heap. do 2 svc_step. destruct (in_heap p) eqn:A.
  - svc_step. replace s with (set_cached (nearest (heap_ (hst s))) (set_hst (hst s) s)) at 1.
    2: { rewrite <- Hc. by destruct s. }
    apply (HQ (hst s) p); try done. symmetry. apply insert_id. rewrite (hview_lookup _ _ _ P).
    f_equal. unfold arm, view. cbn. by rewrite A.
  - do 2 svc_step. eapply push_timer_wp; [done..| |].
    { unfold in_heap in A. by destruct (heap_index_ p). }
    intros h R. pose proof (replaced_view id p _ _ _ Hh P R) as V.
    destruct (hview_inv h id (arm (view p))) as (p' & P' & E).
    { rewrite V. apply lookup_insert_eq. }
    svc_step. eapply wp_impl; [exact P'|]. do 3 svc_step.
    apply HQ; try done; [apply R|]. eapply (times_except_done id); [|exact P'|].
    + intros x Hx Hn. rewrite V, lookup_insert_ne by done.
      apply (rp_mem _ _ _ R) in Hx as [->|[Hx _]]; [done|]. by apply Ht.
    + intros x Hx Hxi. apply (rp_mem _ _ _ R) in Hx as [->|[_ Hx]]; [|done]. cbn. injection E. congruence.
Qed.

Lemma insert_waiter_wp id w p n (Q : unit -> service -> Prop) s :
  inv s -> impls (hst s) !! id = Some p -> nodes s !! w = Some n -> impl_ n = None ->
  (if stop_requested n s then
     forall s', updated id (retire_view (arm (view p))) w (set_ec_ canceled n) [Post w] s s' -> Q tt s'
   else
     forall p' s', impls (hst s') !! id = Some p' ->
       updated id (with_waiters (waiters_ p ++ [w]) (arm (view p))) w (set_impl_ (Some id) n)
         (notice (negb (in_heap p) && at_root p') s) s s' -> Q tt s') ->
  wp (insert_waiter id w) Q s.
Proof.
  intros Hi P N I HQ. unfold insert_waiter. do 3 svc_step.
  eapply (enter_heap_wp id p); [apply Hi..|exact P|]. cbn [hst with_node set_nodes].
  intros h p1 Hh Ht V P1. svc_step. unfold push_back. eapply wp_upd_impl; [exact P1|].
  assert (E1 : view p1 = arm (view p)).
  { pose proof (hview_lookup _ _ _ P1) as E. rewrite V, lookup_insert_eq in E. by apply (inj Some) in E. }
  assert (W1 : waiters_ p1 = waiters_ p) by (by injection E1).
  pose proof (unpublished s id p w n Hi P N I) as Hw.
  svc_step. eapply wp_node; [cbn; apply lookup_insert_eq|]. do 2 svc_step.
  change (stop_requested (set_impl_ (Some id) n) _) with (stop_requested n s).
  destruct (stop_requested n s).
  - svc_step. eapply wp_upd_node; [cbn; apply lookup_insert_eq|]. unfold remove_waiter.
    svc_step. eapply wp_upd_impl; [cbn; apply lookup_insert_eq|].
    fold (retire_and_post id w).
    assert (F : filter (fun x => x <> w) (waiters_ p1 ++ [w]) = waiters_ p1).
    { rewrite list.filter_app, filter_cons_False by tauto. rewrite app_nil_r.
      apply filter_true. rewrite W1. intros x Hx ->. done. }
    eapply retire_and_post_wp.
    + cbn. rewrite !insert_impls_twice. by eapply heap_ok_put; [|exact P1|].
    + cbn. rewrite !insert_impls_twice. by eapply times_ok_put; [|exact P1|].
    + cbn. apply lookup_insert_eq.
    + cbn. apply lookup_insert_eq.
    + intros s' [E T Nd Tr Rh Rt Rc]. apply HQ.
      assert (T' : timers s' = <[id := retire_view (arm (view p))]> (timers s)).
      { rewrite T. unfold timers. cbn -[hview]. rewrite !insert_impls_twice.
        rewrite hview_put, V, !insert_insert_eq. f_equal. rewrite <- E1.
        f_equal. unfold view. cbn. by rewrite F. }
      assert (N' : nodes s' = <[w := set_ec_ canceled n]> (nodes s)).
      { rewrite Nd. cbn. rewrite !insert_insert_eq. f_equal. destruct n; cbn in *. by subst. }
      constructor; try done. constructor; try done. rewrite T', N'.
      eapply lists_same; [apply Hi|by apply hview_lookup| | |].
      * unfold retire_view. cbn. by destruct (waiters_ p) eqn:Wp; cbn; rewrite ?Wp.
      * unfold retire_view. cbn. destruct (waiters_ p) eqn:Wp; cbn; [by rewrite ?Wp|done].
      * intros x. rewrite lookup_insert. case_decide; subst; [|done]. by rewrite N.
  - apply wp_notify. apply (HQ (set_waiters (waiters_ p1 ++ [w]) p1)).
    { cbn. apply lookup_insert_eq. }
    rewrite W1. constructor; try done.
    + unfold timers. cbn -[hview]. rewrite hview_put, V, insert_insert_eq. f_equal.
      rewrite <- E1. unfold with_waiters, view. done.
    + constructor.
      * cbn. by eapply heap_ok_put; [|exact P1|].
      * cbn. by eapply times_ok_put; [|exact P1|].
      * unfold timers. cbn -[hview]. rewrite hview_put, V, insert_insert_eq.
        eapply lists_publish; [apply Hi|by apply hview_lookup|done| | |apply lookup_insert_eq|done|].
        -- cbn. by injection E1.
        -- intros n0 N0. congruence.
        -- intros x Hx. by rewrite lookup_insert_ne.
      * done.
Qed.

(** * Firing expired timers *)

Definition expiry_of (T : gmap nat timer_view) (id : nat) : Z :=
  match T !! id with
  | Some v => v_expiry v
  | None => 0
  end.
Definition waiters_of (T : gmap nat timer_view) (id : nat) : list nat :=
  match T !! id with
  | Some v => v_waiters v
  | None => []
  end.

(** The timers [ts] are those that have expired, earliest first. *)
Record due (now : Z) (T : gmap nat timer_view) (ts : list nat) : Prop := {
  du_exact : forall id, id ∈ ts <->
    exists v, T !! id = Some v /\ v_armed v = true /\ v_expiry v <= now;
  du_nodup : NoDup ts;
  du_sorted : StronglySorted (fun a b => expiry_of T a <= expiry_of T b) ts
}.

(** The waiters of the timers [ts]: timer by timer, oldest waiter first. *)
Definition fired (T : gmap nat timer_view) (ts : list nat) : list nat := ts ≫= waiters_of T.

(** The state once the timers [ts] have been taken out of the heap. *)
Record expired (now : Z) (ts : list nat) (s s' : service) : Prop := {
  ex_due : due now (timers s) ts;
  ex_env : env s' = env s;
  ex_trace : trace s' = trace s;
  ex_timers : forall id, timers s' !! id =
    if decide (id ∈ ts) then idle <$> timers s !! id else timers s !! id;
  ex_nodes : nodes s' =
    upd_nodes (fun n => set_ec_ success (set_impl_ None n)) (fired (timers s) ts) (nodes s);
  ex_heap : heap_ok (hst s');
  ex_times : times_ok (hst s');
  ex_lists : lists_ok (timers s') (nodes s')
}.

Lemma armed_entry h id v :
  heap_ok h -> times_ok h -> hview h !! id = Some v -> v_armed v = true ->
  exists e, e ∈ heap_ h /\ timer_ e = id /\ time_ e = v_expiry v.
Proof.
  intros [Hix _] Ht V A. apply hview_inv in V as (p & P & <-).
  apply (armed_iff h id p Hix P) in A as (e & He & E). exists e. split; [done|]. split; [done|].
  destruct (Ht e He) as (v' & V' & X). subst. rewrite (hview_lookup _ _ _ P) in V'.
  by injection V' as <-.
Qed.

Lemma entry_armed h e :
  heap_ok h -> times_ok h -> e ∈ heap_ h ->
  exists p, impls h !! timer_ e = Some p /\ in_heap p = true /\ expiry_ p = time_ e.
Proof.
  intros [Hix _] Ht He. destruct (Ht e He) as (v & V & X).
  apply hview_inv in V as (p & P & <-). exists p. split; [done|]. split; [|done].
  eapply armed_iff; eauto.
Qed.

Lemma due_nil now s :
  heap_ok (hst s) -> times_ok (hst s) ->
  (forall e, e ∈ heap_ (hst s) -> now < time_ e) -> due now (timers s) [].
Proof.
  intros Hh Ht He. constructor; [|constructor|constructor]. intros id.
  split; [by intros ?%not_elem_of_nil|]. intros (v & V & A & Hle).
  destruct (armed_entry _ id v Hh Ht V A) as (e & Hin & _ & E). specialize (He e Hin). lia.
Qed.

Lemma expired_nil now s :
  heap_ok (hst s) -> times_ok (hst s) -> lists_ok (timers s) (nodes s) ->
  (forall e, e ∈ heap_ (hst s) -> now < time_ e) -> expired now [] s s.
Proof. intros. constructor; try done. by apply due_nil. Qed.

Lemma root_is_min h e l x :
  heap_ok h -> heap_ h = e :: l -> x ∈ heap_ h -> time_ e <= time_ x.
Proof. intros [_ Ho] E. apply root_min; [done|]. by rewrite E. Qed.

Lemma fired_insert T id v ts : id ∉ ts -> fired (<[id := v]> T) ts = fired T ts.
Proof.
  intros Hn. unfold fired. induction ts as [|x ts IH]; [done|]. cbn.
  rewrite IH by set_solver. f_equal. unfold waiters_of.
  rewrite lookup_insert_ne by set_solver. done.
Qed.

(** One expired timer taken out of the heap. *)
Record fired_one (id : nat) (p : implementation) (s s' : service) : Prop := {
  fo_env : env s' = env s;
  fo_trace : trace s' = trace s;
  fo_timers : timers s' = <[id := idle (view p)]> (timers s);
  fo_nodes : nodes s' =
    upd_nodes (fun n => set_ec_ success (set_impl_ None n)) (waiters_ p) (nodes s);
  fo_heap : heap_ok (hst s');
  fo_times : times_ok (hst s');
  fo_lists : lists_ok (timers s') (nodes s');
  fo_len : (length (heap_ (hst s')) < length (heap_ (hst s)))%nat
}.

Lemma fire_one_wp {A} e p acc (k : list nat -> SM A) Q s :
  heap_ok (hst s) -> times_ok (hst s) -> lists_ok (timers s) (nodes s) ->
  e ∈ heap_ (hst s) -> impls (hst s) !! timer_ e = Some p ->
  (forall s', fired_one (timer_ e) p s s' -> wp (k (acc ++ waiters_ p)) Q s') ->
  wp (_ ← on_heap (remove_timer_impl (timer_ e));
      l ← drain (timer_ e) (set_ec_ success) acc;
      _ ← upd_impl (timer_ e) (set_might false);
      k l) Q s.
Proof.
  intros Hh Ht Hl He P HQ. pose proof (hview_lookup _ _ _ P) as V.
  do 2 svc_step. eapply remove_timer_impl_wp; [done..|]. intros h1 R.
  destruct (removed_impl _ _ _ _ Hh P R) as (p1 & P1 & E1).
  assert (W1 : waiters_ p1 = waiters_ p) by (by injection E1).
  pose proof (lo_nodup _ _ Hl _ _ V) as Hd.
  svc_step. eapply drain_wp; [exact P1| |].
  { rewrite W1. intros w Hw. destruct (lo_pub _ _ Hl _ _ w V Hw) as (n & N & _). by exists n. }
  svc_step. eapply wp_upd_impl; [cbn; apply lookup_insert_eq|]. rewrite W1. apply HQ.
  assert (T' : view <$> <[timer_ e := set_might false (set_waiters [] p1)]> (impls h1)
               = <[timer_ e := idle (view p)]> (timers s)).
  { rewrite fmap_insert. change (view <$> impls h1) with (hview h1).
    rewrite (removed_view _ p (hst s) h1), insert_insert_eq by done. f_equal. by apply view_idle. }
  constructor; cbn -[upd_nodes]; rewrite ?insert_impls_twice; try done.
  - eapply heap_ok_put; [apply R|exact P1|done].
  - eapply times_ok_put; [exact (times_removed _ p _ _ Hh Ht P R)|exact P1|done].
  - rewrite T'. eapply (lists_detach _ _ _ _ (view p) _ (waiters_ p)); try done.
    + cbn. by rewrite filter_all_out.
    + intros w. by apply upd_nodes_impl.
  - apply (rm_len _ _ _ R). by exists e.
Qed.

Lemma expired_cons now e l p ts s s1 s2 :
  heap_ok (hst s) -> times_ok (hst s) ->
  heap_ (hst s) = e :: l -> time_ e <= now -> impls (hst s) !! timer_ e = Some p ->
  fired_one (timer_ e) p s s1 -> expired now ts s1 s2 -> expired now (timer_ e :: ts) s s2.
Proof.
  intros Hh Ht Hr Hnow P [E1 Tr1 T1 N1 _ _ _ _] [[Hex Hnd Hso] E2 Tr2 T2 N2 Hh2 Ht2 Hl2].
  assert (He : e ∈ heap_ (hst s)) by (rewrite Hr; set_solver).
  destruct (entry_armed _ e Hh Ht He) as (p' & P' & A & X).
  assert (p' = p) as -> by congruence.
  pose proof (hview_lookup _ _ _ P) as V. fold (timers s) in V.
  assert (Hnot : timer_ e ∉ ts).
  { rewrite Hex, T1. intros (v & Hv & Ha & _). rewrite lookup_insert_eq in Hv. by simplify_eq. }
  assert (Hsame : forall k, k <> timer_ e -> timers s1 !! k = timers s !! k).
  { intros k Hk. by rewrite T1, lookup_insert_ne. }
  assert (Hin : forall k, k ∈ ts -> expiry_of (timers s1) k = expiry_of (timers s) k).
  { intros k Hk. unfold expiry_of. rewrite Hsame; [done|]. by intros ->. }
  constructor; try done; try congruence.
  - constructor.
    + intros k. rewrite elem_of_cons, Hex. split.
      * intros [->|(v & Hv & Ha & Hle)]; [exists (view p); cbn; rewrite X; eauto|].
        exists v. destruct (decide (k = timer_ e)) as [->|]; [|by rewrite <- Hsame].
        rewrite T1, lookup_insert_eq in Hv. by simplify_eq.
      * intros (v & Hv & Ha). destruct (decide (k = timer_ e)) as [->|]; [by left|right].
        exists v. by rewrite Hsame.
    + by apply list.NoDup_cons.
    + constructor.
      * clear -Hso Hin. induction Hso as [|x ts Hs IH Hf]; constructor.
        -- apply IH. intros k Hk. apply Hin. set_solver.
        -- apply list.Forall_forall. intros y Hy. rewrite list.Forall_forall in Hf.
           rewrite <- !Hin by set_solver. by apply Hf.
      * apply list.Forall_forall. intros y Hy. apply Hex in Hy as Hy'.
        destruct Hy' as (v & Hv & Ha & _). assert (Hn : y <> timer_ e) by (by intros ->).
        rewrite Hsame in Hv by done. destruct (armed_entry _ y v Hh Ht Hv Ha) as (x & Hx & _ & Ex).
        unfold expiry_of. rewrite V, Hv. cbn. rewrite X, <- Ex. exact (root_is_min _ e l x Hh Hr Hx).
  - intros k. rewrite T2. destruct (decide (k = timer_ e)) as [->|Hk].
    + rewrite decide_False, decide_True by set_solver. rewrite T1, lookup_insert_eq, V. done.
    + rewrite Hsame by done. destruct (decide (k ∈ ts)).
      * by rewrite decide_True by set_solver.
      * by rewrite decide_False by set_solver.
  - rewrite N2, N1, T1, fired_insert by done.
    change (fired (timers s) (timer_ e :: ts))
      with (waiters_of (timers s) (timer_ e) ++ fired (timers s) ts).
    rewrite upd_nodes_app. unfold waiters_of. by rewrite V.
Qed.

Lemma expire_loop_wp fuel now acc (Q : list nat -> service -> Prop) s :
  (length (heap_ (hst s)) < fuel)%nat ->
  heap_ok (hst s) -> times_ok (hst s) -> lists_ok (timers s) (nodes s) ->
  (forall ts s', expired now ts s s' -> Q (acc ++ fired (timers s) ts) s') ->
  wp (expire_loop fuel now acc) Q s.
Proof.
  revert acc s. induction fuel as [|fuel IH]; intros acc s Hf Hh Ht Hl HQ; [lia|].
  cbn [expire_loop]. do 2 svc_step. destruct (heap_ (hst s)) as [|e l] eqn:Hr.
  { svc_step. rewrite <- (app_nil_r acc). apply (HQ []), expired_nil; try done.
    rewrite Hr. by intros e ?%not_elem_of_nil. }
  destruct (Z.leb_spec (time_ e) now) as [Hle|Hgt].
  - assert (He : e ∈ heap_ (hst s)) by (rewrite Hr; set_solver).
    destruct (entry_armed _ e Hh Ht He) as (p & P & A & X).
    eapply fire_one_wp; [done..|]. intros s1 F.
    apply IH; [pose proof (fo_len _ _ _ _ F) as L; rewrite Hr in L; cbn in *; lia|apply F..|].
    intros ts s2 E. pose proof (expired_cons now e l p ts s s1 s2 Hh Ht Hr Hle P F E) as E'.
    specialize (HQ _ _ E'). unfold fired in HQ. cbn in HQ.
    assert (Hn : timer_ e ∉ ts) by by apply list.NoDup_cons, (du_nodup _ _ _ (ex_due _ _ _ _ E')).
    rewrite (fo_timers _ _ _ _ F), fired_insert by done.
    unfold waiters_of in HQ at 1. unfold timers in HQ at 1.
    by rewrite (hview_lookup _ _ _ P), app_assoc in HQ.
  - svc_step. rewrite <- (app_nil_r acc). apply (HQ []), expired_nil; try done.
    intros x Hx. pose proof (root_is_min _ e l x Hh Hr Hx). lia.
Qed.

(** The end state of [process_expired]. *)
Record processed (now : Z) (ts : list nat) (s s' : service) : Prop := {
  pr_due : due now (timers s) ts;
  pr_env : env s' = env s;
  pr_trace : trace s' = trace s ++ map Post (fired (timers s) ts);
  pr_timers : forall id, timers s' !! id =
    if decide (id ∈ ts) then idle <$> timers s !! id else timers s !! id;
  pr_nodes : nodes s' =
    upd_nodes (fun n => set_ec_ success (set_impl_ None n)) (fired (timers s) ts) (nodes s);
  pr_inv : inv s'
}.

Lemma process_expired_wp now (Q : nat -> service -> Prop) s :
  inv s ->
  (forall ts s', processed now ts s s' -> Q (length (fired (timers s) ts)) s') ->
  wp (process_expired now) Q s.
Proof.
  intros Hi HQ. unfold process_expired. do 3 svc_step.
  apply expire_loop_wp; [lia|apply Hi..|]. intros ts s1 [D E Tr T N Hh Ht Hl]. cbn [app].
  do 2 svc_step. apply post_fired_all_wp. cbn [Nat.add]. apply HQ. constructor; try done.
  cbn. by rewrite Tr.
Qed.

(** * Waiters of several timers *)

Lemma waiters_disjoint T N id1 id2 v1 v2 w :
  lists_ok T N -> T !! id1 = Some v1 -> T !! id2 = Some v2 ->
  w ∈ v_waiters v1 -> w ∈ v_waiters v2 -> id1 = id2.
Proof.
  intros [Hp _ _ _] V1 V2 H1 H2.
  destruct (Hp id1 v1 w V1 H1) as (n1 & N1 & I1), (Hp id2 v2 w V2 H2) as (n2 & N2 & I2). congruence.
Qed.

Lemma elem_of_fired T ts w : w ∈ fired T ts <-> exists id v, id ∈ ts /\ T !! id = Some v /\ w ∈ v_waiters v.
Proof.
  unfold fired. rewrite list_elem_of_bind. unfold waiters_of. split.
  - intros (id & Hw & Hid). destruct (T !! id) as [v|] eqn:V; [eauto|by apply not_elem_of_nil in Hw].
  - intros (id & v & Hid & V & Hw). exists id. by rewrite V.
Qed.

Lemma fired_nodup T N ts : lists_ok T N -> NoDup ts -> NoDup (fired T ts).
Proof.
  intros Hl Hd. induction Hd as [|id ts Hn Hd IH]; [constructor|].
  change (fired T (id :: ts)) with (waiters_of T id ++ fired T ts).
  apply list.NoDup_app. split; [|split; [|done]].
  - unfold waiters_of. destruct (T !! id) as [v|] eqn:V; [by eapply (lo_nodup _ _ Hl)|constructor].
  - intros w Hw Hf. apply elem_of_fired in Hf as (id' & v' & Hid & V' & Hw').
    unfold waiters_of in Hw. destruct (T !! id) as [v|] eqn:V; [|by apply not_elem_of_nil in Hw].
    assert (id = id') by (by eapply waiters_disjoint). by subst.
Qed.
