(* ===== verification/TimerServiceSpec.v ===== *)
(** What the timer service promises: the behaviour of its operations, and the
    life of a wait across interleaved operations of several threads. *)

From stdpp Require Import gmap sorting.
From S2P Require Import Prelude StateMonad TimerHeap TimerService TimerServiceInv.

(** * The pool *)

(** The free list, through [next_free_]. *)
Fixpoint chain (T : gmap nat timer_view) (o : option nat) (l : list nat) : Prop :=
  match l with
  | [] => o = None
  | x :: l => o = Some x /\ exists v, T !! x = Some v /\ chain T (v_next v) l
  end.

Definition pooled (s : service) (l : list nat) (id : nat) : Prop :=
  id ∈ l \/ exists t, tl_cached_impl s !! t = Some id.

(** Pooled implementations are distinct, alive and quiescent. *)
Record pool_ok (s : service) (l : list nat) : Prop := {
  po_chain : chain (timers s) (free_list_ s) l;
  po_nodup : NoDup l;
  po_tl_inj : forall t1 t2 id, tl_cached_impl s !! t1 = Some id ->
    tl_cached_impl s !! t2 = Some id -> t1 = t2;
  po_disj : forall t id, tl_cached_impl s !! t = Some id -> id ∉ l;
  po_quiet : forall id, pooled s l id ->
    exists v, timers s !! id = Some v /\ v_armed v = false /\ v_waiters v = []
}.

Lemma chain_frame T T' o l :
  (forall id, id ∈ l -> T' !! id = T !! id) -> chain T o l -> chain T' o l.
Proof.
  revert o. induction l as [|x l IH]; intros o H; cbn; [done|].
  intros (-> & v & V & C). split; [done|]. exists v. rewrite H by set_solver.
  split; [done|]. apply IH; [|done]. intros. apply H. set_solver.
Qed.

Lemma pool_frame s s' l :
  env s' = env s -> (forall id, pooled s l id -> timers s' !! id = timers s !! id) ->
  pool_ok s l -> pool_ok s' l.
Proof.
  intros E HT [C Nd Ti Dj Qu]. injection E as _ Ef _ _ Et _.
  constructor; rewrite ?Ef, ?Et; try done.
  - eapply chain_frame; [|done]. intros id Hid. apply HT. by left.
  - intros id Hid. assert (Hp : pooled s l id) by (unfold pooled in *; by rewrite Et in Hid).
    rewrite HT by done. by apply Qu.
Qed.

Lemma pool_insert s s' l id v' :
  env s' = env s -> timers s' = <[id := v']> (timers s) -> ~ pooled s l id ->
  pool_ok s l -> pool_ok s' l.
Proof.
  intros E HT Hn. apply pool_frame; [done|]. intros k Hk. rewrite HT.
  apply lookup_insert_ne. by intros ->.
Qed.

(** A timer that is armed or has waiters is not pooled. *)
Lemma busy_not_pooled s l id v :
  pool_ok s l -> timers s !! id = Some v -> v_armed v = true \/ v_waiters v <> [] ->
  ~ pooled s l id.
Proof.
  intros P V B Hp. destruct (po_quiet s l P id Hp) as (v' & V' & A & W).
  assert (v' = v) as -> by congruence. destruct B; congruence.
Qed.

(** Deleting a quiescent implementation. *)
Lemma delete_impl_wp id v (Q : unit -> service -> Prop) s :
  inv s -> timers s !! id = Some v -> v_armed v = false -> v_waiters v = [] ->
  (forall s', env s' = env s -> timers s' = delete id (timers s) -> nodes s' = nodes s ->
     trace s' = trace s ++ [Freed id] -> heap_ (hst s') = heap_ (hst s) -> inv s' -> Q tt s') ->
  wp (delete_impl id) Q s.
Proof.
  intros Hi V A W HQ. apply hview_inv in V as V'. destruct V' as (p & P & E). subst v.
  unfold delete_impl. do 4 svc_step. assert (I : heap_index_ p = None).
  { unfold view, in_heap in A. cbn in A. by destruct (heap_index_ p). }
  pose proof (inv_heap s Hi) as [Hix Ho].
  set (s1 := set_hst (hs (heap_ (hst s)) (delete id (impls (hst s)))) s).
  assert (T' : timers s1 = delete id (timers s)).
  { apply (fmap_delete view). }
  apply HQ; try done.
  assert (Hne : forall e, e ∈ heap_ (hst s) -> timer_ e <> id).
  { intros e He. by eapply ix_not_in_heap. }
  constructor; cbn -[timers].
  - split; [|done]. constructor; cbn.
    + intros i e He. rewrite lookup_delete_ne; [by apply Hix|].
      intros Et. by apply (Hne e); [eapply list_elem_of_lookup_2|].
    + intros k q i. rewrite lookup_delete. case_decide; [done|]. apply Hix.
  - intros e He. destruct (inv_times s Hi e He) as (v & Vv & X). exists v.
    split; [|done]. change (timers s1 !! timer_ e = Some v).
    rewrite T', lookup_delete_ne; [done|]. intros Et. by apply (Hne e).
  - change (lists_ok (timers s1) (nodes s)). rewrite T'.
    destruct (inv_lists s Hi) as [Lp Lm Ln La]. constructor.
    + intros k u w. rewrite lookup_delete. case_decide; [done|]. apply Lp.
    + intros w n k Nw In. destruct (Lm w n k Nw In) as (u & Hu & Hw). exists u.
      rewrite lookup_delete_ne; [done|]. intros <-. rewrite V in Hu.
      injection Hu as <-. rewrite W in Hw. by apply not_elem_of_nil in Hw.
    + intros k u. rewrite lookup_delete. case_decide; [done|]. apply Ln.
    + intros k u. rewrite lookup_delete. case_decide; [done|]. apply La.
  - apply Hi.
Qed.

(** Reset of a quiescent implementation. *)
Lemma reset_impl_wp id v svc nx (Q : unit -> service -> Prop) s :
  inv s -> timers s !! id = Some v -> v_armed v = false -> v_waiters v = [] ->
  (forall s', env s' = env s -> timers s' = <[id := tv 0 false false svc [] (nx v)]> (timers s) ->
     nodes s' = nodes s -> trace s' = trace s -> inv s' -> Q tt s') ->
  wp (upd_impl id (fun p => recycle svc (set_next (nx (view p)) p))) Q s.
Proof.
  intros Hi V A W HQ. apply hview_inv in V as V'. destruct V' as (p & P & E). subst v.
  assert (I : heap_index_ p = None).
  { unfold view, in_heap in A. cbn in A. by destruct (heap_index_ p). }
  svc_step.
  assert (Ev : view (recycle svc (set_next (nx (view p)) p)) = tv 0 false false svc [] (nx (view p))).
  { unfold view. cbn in *. by rewrite W. }
  apply HQ; try done; [by rewrite timers_with_impl, Ev|].
  pose proof (inv_heap s Hi) as Hh. constructor.
  - by eapply heap_ok_put.
  - cbn. eapply times_except_done; [|apply lookup_insert_eq|].
    + apply times_except_put, times_ok_except, Hi.
    + intros e He Ht. by destruct (ix_not_in_heap _ id p e (proj1 Hh) P I He).
  - rewrite timers_with_impl, Ev. by eapply lists_same; [apply Hi|exact V| | |].
  - apply Hi.
Qed.

(** [id] becomes a fresh timer; the timers that are not pooled stay as they
    are, and out of the pool. *)
Record constructed (s : service) (l : list nat) (id : nat) (s' : service) (l' : list nat) : Prop := {
  cn_inv : inv s';
  cn_pool : pool_ok s' l';
  cn_fresh : exists nx, timers s' !! id = Some (tv 0 false false (self s) [] nx);
  cn_out : ~ pooled s' l' id;
  cn_nodes : nodes s' = nodes s;
  cn_posts : exists ids, trace s' = trace s ++ map Freed ids;
  cn_env : self s' = self s /\ stops s' = stops s /\ shutting_down_ s' = shutting_down_ s /\
    on_earliest_changed_ s' = on_earliest_changed_ s;
  cn_other : forall k v, timers s !! k = Some v -> ~ pooled s l k ->
    k <> id /\ timers s' !! k = Some v /\ ~ pooled s' l' k;
  cn_armed : forall k v, timers s' !! k = Some v -> v_armed v = true -> timers s !! k = Some v
}.

(** Taking the implementation out of the thread's cache. *)
Lemma tl_removed s l tid id :
  inv s -> pool_ok s l -> tl_cached_impl s !! tid = Some id ->
  let s1 := set_tl (delete tid (tl_cached_impl s)) s in
  inv s1 /\ pool_ok s1 l /\ ~ pooled s1 l id /\ (forall k, pooled s1 l k -> pooled s l k).
Proof.
  intros [Hh Ht Hl Hc] [C Nd Ti Dj Qu] Htl. cbn.
  assert (Sub : forall k, pooled (set_tl (delete tid (tl_cached_impl s)) s) l k -> pooled s l k).
  { intros k [Hk|[t Hk]]; [by left|]. cbn in Hk. apply lookup_delete_Some in Hk as [_ Hk].
    right. by exists t. }
  split; [by constructor|]. split; [constructor; cbn; try done|split; [|done]].
  - intros t1 t2 k [_ H1]%lookup_delete_Some [_ H2]%lookup_delete_Some. by eapply Ti.
  - intros t k [_ H1]%lookup_delete_Some. by eapply Dj.
  - intros k Hk. apply Qu. by apply Sub.
  - intros [Hk|[t Hk]]; [by apply (Dj tid id)|]. cbn in Hk.
    apply lookup_delete_Some in Hk as [Hn Hk]. apply Hn. by eapply Ti.
Qed.

Lemma pool_delete s s' l id :
  env s' = env s -> timers s' = delete id (timers s) -> ~ pooled s l id ->
  pool_ok s l -> pool_ok s' l.
Proof.
  intros E HT Hn. apply pool_frame; [done|]. intros k Hk. rewrite HT.
  apply lookup_delete_ne. by intros ->.
Qed.

Lemma pooled_env s s' l k : env s' = env s -> pooled s' l k <-> pooled s l k.
Proof. intros E. injection E as _ _ _ _ Et _. unfold pooled. by rewrite Et. Qed.

(** What [try_pop_tl_cache] leaves behind. *)
Record popped (s : service) (l : list nat) (o : option nat) (s' : service) : Prop := {
  pp_inv : inv s';
  pp_pool : pool_ok s' l;
  pp_nodes : nodes s' = nodes s;
  pp_posts : exists ids, trace s' = trace s ++ map Freed ids;
  pp_env : self s' = self s /\ stops s' = stops s /\ shutting_down_ s' = shutting_down_ s /\
    on_earliest_changed_ s' = on_earliest_changed_ s;
  pp_got : forall id, o = Some id -> pooled s l id /\ ~ pooled s' l id /\
    exists v, timers s' !! id = Some v /\ v_armed v = false /\ v_waiters v = [] /\ v_svc v = self s;
  pp_other : forall k v, timers s !! k = Some v -> ~ pooled s l k ->
    timers s' !! k = Some v /\ ~ pooled s' l k;
  pp_sub : forall k v, timers s' !! k = Some v -> timers s !! k = Some v
}.

Lemma try_pop_tl_cache_wp tid l (Q : option nat -> service -> Prop) s :
  inv s -> pool_ok s l -> (forall o s', popped s l o s' -> Q o s') ->
  wp (try_pop_tl_cache tid) Q s.
Proof.
  intros Hi Hp HQ. unfold try_pop_tl_cache. do 2 svc_step.
  destruct (tl_cached_impl s !! tid) as [id|] eqn:Htl.
  2: { svc_step. apply HQ. constructor; try done. exists []. by rewrite app_nil_r. }
  destruct (tl_removed s l tid id Hi Hp Htl) as (Hi1 & Hp1 & Hn1 & Sub).
  assert (Hpid : pooled s l id) by (right; by exists tid).
  destruct (po_quiet s l Hp id Hpid) as (v & V & A & W).
  apply hview_inv in V as V'. destruct V' as (p & P & E).
  do 4 svc_step. destruct (Nat.eqb_spec (svc_ p) (self s)) as [Es|Es].
  - svc_step. apply HQ. constructor; try done.
    + exists []. by rewrite app_nil_r.
    + intros k [= <-]. split; [done|]. split; [done|]. exists v. by subst v.
    + intros k u Hk Hn. split; [done|]. by intros ?%Sub.
  - svc_step. eapply delete_impl_wp; [exact Hi1|exact V|done|done|].
    intros s2 E2 T2 N2 Tr2 _ Hi2. svc_step. apply HQ. constructor; try done.
    + by eapply pool_delete.
    + by exists [id].
    + by injection E2 as -> _ -> -> _ ->.
    + intros k u Hk Hn. split.
      * rewrite T2. cbn. rewrite lookup_delete_ne; [done|]. by intros ->.
      * rewrite (pooled_env _ _ _ _ E2). by intros ?%Sub.
    + intros k u. rewrite T2. by intros [_ Hu]%lookup_delete_Some.
Qed.

(** The head of the free list leaves it. *)
Lemma free_list_pop s l id :
  inv s -> pool_ok s l -> free_list_ s = Some id ->
  exists l' v, l = id :: l' /\ timers s !! id = Some v /\ v_armed v = false /\ v_waiters v = [] /\
    let s1 := set_free (v_next v) s in
    inv s1 /\ pool_ok s1 l' /\ ~ pooled s1 l' id /\ (forall k, pooled s1 l' k -> pooled s l k).
Proof.
  intros [Hh Ht Hl Hc] [C Nd Ti Dj Qu] F. destruct l as [|x l']; cbn in C; [congruence|].
  destruct C as (E & v & V & C). assert (x = id) as -> by congruence.
  apply list.NoDup_cons in Nd as [Hx Nd].
  destruct (Qu id) as (v' & V' & A & W); [left; set_solver|].
  assert (v' = v) as -> by congruence. exists l', v. do 4 (split; [done|]). cbn.
  assert (Sub : forall k, pooled (set_free (v_next v) s) l' k -> pooled s (id :: l') k).
  { intros k [Hk|Hk]; [left; set_solver|by right]. }
  split; [by constructor|]. split; [constructor; cbn; try done|split; [|done]].
  - intros t k Hk Hin. apply (Dj t k Hk). set_solver.
  - intros k Hk. apply Qu. by apply Sub.
  - intros [Hk|[t Hk]]; [done|]. apply (Dj t id Hk). set_solver.
Qed.

(** [new timer::implementation] *)
Lemma new_impl_inv s fresh :
  inv s -> timers s !! fresh = None ->
  let p := mk_impl 0 None false (self s) [] None in
  inv (with_impl fresh p s).
Proof.
  intros [[[Ie Ii] Ho] Ht [Lp Lm Ln La] Hc] F p.
  assert (Fi : impls (hst s) !! fresh = None).
  { unfold timers, hview in F. rewrite lookup_fmap in F. by destruct (impls (hst s) !! fresh). }
  assert (T' : timers (with_impl fresh p s) = <[fresh := view p]> (timers s)).
  { apply timers_with_impl. }
  constructor; [split; [constructor|]| | |]; cbn -[timers]; try done.
  - intros i e He. destruct (Ie i e He) as (q & Q & I). exists q.
    rewrite lookup_insert_ne; [done|]. congruence.
  - intros k q i. rewrite lookup_insert. case_decide; [by intros [= <-]|]. apply Ii.
  - intros e He. destruct (Ht e He) as (v & V & X). exists v. split; [|done].
    change (timers (with_impl fresh p s) !! timer_ e = Some v).
    rewrite T', lookup_insert_ne; [done|]. unfold timers in F. congruence.
  - rewrite T'. constructor.
    + intros k v w. rewrite lookup_insert. case_decide; [|apply Lp].
      intros [= <-] Hw. by apply not_elem_of_nil in Hw.
    + intros w n k Nw In. destruct (Lm w n k Nw In) as (v & V & Hw). exists v.
      rewrite lookup_insert_ne; [done|]. intros ->. congruence.
    + intros k v. rewrite lookup_insert. case_decide; [|apply Ln]. intros [= <-]. constructor.
    + intros k v. rewrite lookup_insert. case_decide; [|apply La]. by intros [= <-].
Qed.

(** The three sources of an implementation, after the cache was consulted. *)
Section construct_cases.
Context (s s1 : service) (l : list nat) (o : option nat).
Context (Hpop : popped s l o s1).

Lemma construct_cached id (Q : nat -> service -> Prop) :
  o = Some id -> (forall id s' l', constructed s l id s' l' -> Q id s') ->
  wp (_ ← upd_impl id (recycle (self s1)); mret id) Q s1.
Proof using Hpop.
  destruct Hpop as [Hi1 Hp1 N1 [fr Tr1] (Es & Et & Eh & Ec) Got Oth Sub]. intros Ho HQ.
  destruct (Got id Ho) as (Hin & Hout & v & V & A & W & Sv). svc_step.
  change (recycle (self s1)) with (fun p => recycle (self s1) (set_next (v_next (view p)) p)).
  eapply (reset_impl_wp id v); [done..|]. intros s2 E2 T2 N2 Tr2 Hi2. svc_step.
  apply (HQ id s2 l). pose proof E2 as E2'. injection E2' as E2a E2b E2c E2d E2e E2f.
  constructor; try done; try congruence.
  - by eapply pool_insert.
  - rewrite T2, lookup_insert_eq, Es. eauto.
  - by rewrite (pooled_env _ _ _ _ E2).
  - exists fr. congruence.
  - repeat split; congruence.
  - intros k u Hk Hn. destruct (Oth k u Hk Hn) as [Hk1 Hn1].
    assert (k <> id) by (by intros ->). split; [done|].
    rewrite T2, lookup_insert_ne by done. by rewrite (pooled_env _ _ _ _ E2).
  - intros k u. rewrite T2. intros [[<- <-]|[_ Hu]]%lookup_insert_Some Ha; [done|by apply Sub].
Qed.

Lemma construct_free_list id (Q : nat -> service -> Prop) :
  free_list_ s1 = Some id -> (forall id s' l', constructed s l id s' l' -> Q id s') ->
  wp (p ← impl id;
      _ ← modify (set_free (next_free_ p));
      _ ← upd_impl id (fun p => recycle (self s1) (set_next None p));
      mret id) Q s1.
Proof using Hpop.
  destruct Hpop as [Hi1 Hp1 N1 [fr Tr1] (Es & Et & Eh & Ec) Got Oth Sub]. intros Fl HQ.
  destruct (free_list_pop s1 l id Hi1 Hp1 Fl)
    as (l' & v & El & V & A & W & Hi2 & Hp2 & Hout & Sub2).
  apply hview_inv in V as V'. destruct V' as (p & P & Ev). do 5 svc_step.
  replace (next_free_ p) with (v_next v) by (by rewrite <- Ev).
  apply (reset_impl_wp id v (self s1) (fun _ => None)); [done..|].
  intros s2 E2 T2 N2 Tr2 Hi3. svc_step. apply (HQ id s2 l').
  pose proof E2 as E2'. injection E2' as E2a E2b E2c E2d E2e E2f. cbn in N2, Tr2.
  constructor; try done; try congruence.
  - by eapply pool_insert.
  - rewrite T2, lookup_insert_eq, Es. eauto.
  - by rewrite (pooled_env _ _ _ _ E2).
  - exists fr. congruence.
  - repeat split; congruence.
  - intros k u Hk Hn. destruct (Oth k u Hk Hn) as [Hk1 Hn1].
    assert (k <> id) by (intros ->; apply Hn1; left; rewrite El; set_solver). split; [done|].
    rewrite T2, lookup_insert_ne by done. split; [done|].
    rewrite (pooled_env _ _ _ _ E2). by intros ?%Sub2.
  - intros k u. rewrite T2. intros [[<- <-]|[_ Hu]]%lookup_insert_Some Ha; [done|by apply Sub].
Qed.

Lemma construct_new fresh (Q : nat -> service -> Prop) :
  timers s !! fresh = None -> (forall id s' l', constructed s l id s' l' -> Q id s') ->
  Q fresh (with_impl fresh (mk_impl 0 None false (self s1) [] None) s1).
Proof using Hpop.
  destruct Hpop as [Hi1 Hp1 N1 [fr Tr1] (Es & Et & Eh & Ec) Got Oth Sub]. intros F HQ.
  assert (F1 : timers s1 !! fresh = None).
  { apply eq_None_not_Some. intros [u H%Sub]. congruence. }
  pose proof (new_impl_inv s1 fresh Hi1 F1) as Hi2. cbn zeta in Hi2.
  set (s2 := with_impl fresh _ s1) in *.
  assert (T2 : timers s2 = <[fresh := tv 0 false false (self s1) [] None]> (timers s1))
    by apply timers_with_impl.
  assert (Hout : ~ pooled s1 l fresh).
  { intros Hq. destruct (po_quiet s1 l Hp1 fresh Hq) as (v & V & _). congruence. }
  apply (HQ fresh s2 l). constructor; try done.
  - exact (pool_insert s1 s2 l fresh _ eq_refl T2 Hout Hp1).
  - rewrite T2, lookup_insert_eq, Es. eauto.
  - by exists fr.
  - intros k u Hk Hn. destruct (Oth k u Hk Hn) as [Hk1 Hn1].
    assert (k <> fresh) by (intros ->; congruence). split; [done|].
    by rewrite T2, lookup_insert_ne by done.
  - intros k u. rewrite T2. intros [[<- <-]|[_ Hu]]%lookup_insert_Some Ha; [done|by apply Sub].
Qed.
End construct_cases.

Lemma construct_wp tid fresh l (Q : nat -> service -> Prop) s :
  inv s -> pool_ok s l -> timers s !! fresh = None ->
  (forall id s' l', constructed s l id s' l' -> Q id s') ->
  wp (construct tid fresh) Q s.
Proof.
  intros Hi Hp F HQ. unfold construct. svc_step. eapply try_pop_tl_cache_wp; [done..|].
  intros o s1 Hpop. do 2 svc_step. destruct o as [id|].
  - by eapply (construct_cached s s1 l (Some id) Hpop id).
  - destruct (free_list_ s1) as [id|] eqn:Fl; [by eapply (construct_free_list s s1 l None Hpop)|].
    assert (Fi : impls (hst s1) !! fresh = None).
    { pose proof (pp_sub _ _ _ _ Hpop fresh) as Sub. unfold timers, hview in *.
      rewrite !lookup_fmap in *. destruct (impls (hst s1) !! fresh); [|done].
      destruct (impls (hst s) !! fresh); [done|].
      by specialize (Sub _ eq_refl). }
    rewrite Fi. do 3 svc_step. exact (construct_new s s1 l None Hpop fresh Q F HQ).
Qed.

(** Taking a timer without waiters out of the heap. *)
Lemma leave_heap_wp id p (Q : unit -> service -> Prop) s :
  inv s -> impls (hst s) !! id = Some p -> waiters_ p = [] ->
  (forall s', env s' = env s -> timers s' = <[id := disarm (view p)]> (timers s) ->
     nodes s' = nodes s -> trace s' = trace s -> inv s' -> Q tt s') ->
  wp (if in_heap p then _ ← on_heap (remove_timer_impl id); refresh_cached_nearest else skip) Q s.
Proof.
  intros Hi P W HQ. destruct (in_heap p) eqn:A.
  - do 2 svc_step. eapply remove_timer_impl_wp; [apply Hi|done|]. intros h R. svc_step.
    pose proof (removed_view id p _ _ (inv_heap s Hi) P R) as V.
    apply HQ; try done. constructor; cbn -[timers]; try done.
    + apply R.
    + exact (times_removed id p _ _ (inv_heap s Hi) (inv_times s Hi) P R).
    + change (lists_ok (hview h) (nodes s)). rewrite V.
      eapply lists_same; [apply Hi|by apply hview_lookup|done| |done]. cbn. by rewrite W.
  - svc_step. apply HQ; try done. symmetry. apply insert_id. unfold timers.
    rewrite (hview_lookup _ _ _ P). f_equal. unfold disarm, view. cbn. by rewrite A.
Qed.

(** [id] has gone to the pool. *)
Record destroyed (s : service) (l : list nat) (id : nat) (ws : list nat)
    (s' : service) (l' : list nat) : Prop := {
  ds_inv : inv s';
  ds_pool : pool_ok s' l';
  ds_in : pooled s' l' id;
  ds_nodes : forall w, nodes s' !! w =
    if decide (w ∈ ws) then (fun n => set_ec_ canceled (set_impl_ None n)) <$> nodes s !! w
    else nodes s !! w;
  ds_trace : trace s' = trace s ++ map Post ws;
  ds_env : self s' = self s /\ stops s' = stops s /\ shutting_down_ s' = shutting_down_ s /\
    on_earliest_changed_ s' = on_earliest_changed_ s;
  ds_other : forall k v, k <> id -> timers s !! k = Some v ->
    timers s' !! k = Some v /\ (pooled s' l' k -> pooled s l k);
  ds_armed : forall k v, timers s' !! k = Some v -> v_armed v = true -> timers s !! k = Some v
}.

Lemma set_next_inv s id p o :
  inv s -> impls (hst s) !! id = Some p -> inv (with_impl id (set_next o p) s).
Proof.
  intros Hi P. constructor.
  - by eapply heap_ok_put; [apply Hi| |].
  - by eapply times_ok_put; [apply Hi| |].
  - rewrite timers_with_impl. eapply lists_same; [apply Hi|by apply hview_lookup|done| |done].
    intros Hw. eapply (lo_armed _ _ (inv_lists s Hi) id (view p)); [by apply hview_lookup|done].
  - apply Hi.
Qed.

(** A quiescent implementation goes to the cache or to the free list. *)
Lemma recycle_wp tid id p l (Q : unit -> service -> Prop) s :
  inv s -> pool_ok s l -> impls (hst s) !! id = Some p -> in_heap p = false -> waiters_ p = [] ->
  ~ pooled s l id ->
  (forall s' l', destroyed s l id [] s' l' -> Q tt s') ->
  wp (cached ← try_push_tl_cache tid id;
      if (cached : bool) then skip
      else s ← get; _ ← upd_impl id (set_next (free_list_ s)); modify (set_free (Some id))) Q s.
Proof.
  intros Hi Hp P A W Hn HQ. unfold try_push_tl_cache. do 3 svc_step.
  pose proof (hview_lookup _ _ _ P) as V. fold (timers s) in V.
  destruct Hp as [C Nd Ti Dj Qu].
  destruct (tl_cached_impl s !! tid) as [c|] eqn:Htl.
  - do 5 svc_step. apply (HQ _ (id :: l)). set (s1 := with_impl id (set_next (free_list_ s) p) s).
    assert (T1 : timers s1 = <[id := view (set_next (free_list_ s) p)]> (timers s))
      by apply timers_with_impl.
    assert (Hl : id ∉ l) by (intros ?; apply Hn; by left).
    constructor; try done.
    + by destruct (set_next_inv s id p (free_list_ s) Hi P).
    + constructor; try done.
      * change (Some id = Some id /\ exists v, timers s1 !! id = Some v /\
          chain (timers s1) (v_next v) l).
        split; [done|]. exists (view (set_next (free_list_ s) p)). rewrite T1, lookup_insert_eq.
        split; [done|]. cbn. eapply chain_frame; [|exact C]. intros k Hk.
        apply lookup_insert_ne. by intros ->.
      * by apply list.NoDup_cons.
      * intros t k Hk [->|Hin]%elem_of_cons; [|by eapply Dj]. apply Hn. right. by exists t.
      * change (timers (set_free (Some id) s1)) with (timers s1). rewrite T1. intros k Hk.
        rewrite lookup_insert. case_decide; [by exists (view (set_next (free_list_ s) p))|].
        apply Qu. destruct Hk as [Hk|Hk]; [left; set_solver|by right].
    + left. set_solver.
    + cbn. by rewrite app_nil_r.
    + intros k v Hk Hv. change (timers (set_free (Some id) s1)) with (timers s1).
      rewrite T1, lookup_insert_ne by done. split; [done|].
      intros [Hin|Hin]; [left; set_solver|by right].
    + intros k v. change (timers (set_free (Some id) s1)) with (timers s1). rewrite T1.
      intros [[<- <-]|[_ Hu]]%lookup_insert_Some Ha; [|done]. cbn in Ha.
      unfold in_heap in *. cbn in *. congruence.
  - do 4 svc_step. apply (HQ _ l). constructor; try done.
    + by destruct Hi.
    + constructor; cbn; try done.
      * intros t1 t2 k. rewrite !lookup_insert. repeat case_decide; subst; try done.
        -- intros [= <-] H2. destruct Hn. right. by exists t2.
        -- intros H1 [= <-]. destruct Hn. right. by exists t1.
        -- apply Ti.
      * intros t k. rewrite lookup_insert. case_decide; [|by apply Dj].
        intros [= <-] ?. apply Hn. by left.
      * intros k [Hk|[t Hk]]; [by apply Qu; left|]. cbn in Hk. rewrite lookup_insert in Hk.
        case_decide; [|by apply Qu; right; exists t]. injection Hk as <-.
        exists (view p). split; [done|]. done.
    + right. exists tid. apply lookup_insert_eq.
    + cbn. by rewrite app_nil_r.
    + intros k v Hk Hv. split; [done|]. intros [Hin|[t Hin]]; [by left|]. cbn in Hin.
      rewrite lookup_insert in Hin. case_decide; [congruence|right; by exists t].
Qed.

Lemma destroyed_compose s l id ws s2 s3 l' v2 :
  env s2 = env s -> v_armed v2 = false -> timers s2 = <[id := v2]> (timers s) ->
  (forall w, nodes s2 !! w =
     if decide (w ∈ ws) then (fun n => set_ec_ canceled (set_impl_ None n)) <$> nodes s !! w
     else nodes s !! w) ->
  trace s2 = trace s ++ map Post ws ->
  destroyed s2 l id [] s3 l' -> destroyed s l id ws s3 l'.
Proof.
  intros E A2 T N Tr [Hi Hp Hin N3 Tr3 (E3a & E3b & E3c & E3d) Ho Ha3].
  pose proof E as E'. injection E' as Ea Eb Ec Ed Ee Ef.
  constructor; try done; try (repeat split; congruence).
  - intros w. rewrite N3, decide_False by apply not_elem_of_nil. apply N.
  - rewrite Tr3, Tr. cbn. by rewrite app_nil_r.
  - intros k v Hk V. rewrite <- (pooled_env _ _ _ _ E). apply Ho; [done|].
    by rewrite T, lookup_insert_ne.
  - intros k v Hk Ha. pose proof (Ha3 k v Hk Ha) as H2. rewrite T in H2.
    apply lookup_insert_Some in H2 as [[<- <-]|[_ Hu]]; [congruence|done].
Qed.

Lemma destroy_impl_wp tid id p l (Q : unit -> service -> Prop) s :
  inv s -> pool_ok s l -> shutting_down_ s = false -> impls (hst s) !! id = Some p ->
  ~ pooled s l id -> (waiters_ p <> [] -> might_have_pending_waits_ p = true) ->
  (forall s' l', destroyed s l id (waiters_ p) s' l' -> Q tt s') ->
  wp (destroy_impl tid id) Q s.
Proof.
  intros Hi Hp Hs P Hn Hm HQ. unfold destroy_impl. do 2 svc_step. rewrite Hs.
  assert (Step : forall s1 p1, inv s1 -> env s1 = env s -> impls (hst s1) !! id = Some p1 ->
    waiters_ p1 = [] -> (exists v1, timers s1 = <[id := v1]> (timers s)) ->
    (forall w, nodes s1 !! w =
       if decide (w ∈ waiters_ p) then (fun n => set_ec_ canceled (set_impl_ None n)) <$> nodes s !! w
       else nodes s !! w) ->
    trace s1 = trace s ++ map Post (waiters_ p) ->
    wp (p ← impl id;
        _ ← (if in_heap p then _ ← on_heap (remove_timer_impl id); refresh_cached_nearest else skip);
        cached ← try_push_tl_cache tid id;
        if (cached : bool) then skip
        else s ← get; _ ← upd_impl id (set_next (free_list_ s)); modify (set_free (Some id))) Q s1).
  { intros s1 p1 Hi1 E1 P1 W1 [v1 T1] N1 Tr1. do 3 svc_step. eapply leave_heap_wp; [done..|].
    intros s2 E2 T2 N2 Tr2 Hi2. destruct (hview_inv (hst s2) id (disarm (view p1))) as (p2 & P2 & V2).
    { change (timers s2 !! id = Some (disarm (view p1))). rewrite T2. apply lookup_insert_eq. }
    assert (E : env s2 = env s) by congruence.
    assert (T : timers s2 = <[id := disarm (view p1)]> (timers s))
      by (by rewrite T2, T1, insert_insert_eq).
    eapply (recycle_wp tid id p2 l); try done.
    - by eapply pool_insert.
    - by injection V2.
    - injection V2. congruence.
    - by rewrite (pooled_env _ _ _ _ E).
    - intros s3 l' D. apply (HQ s3 l').
      eapply (destroyed_compose _ _ _ _ s2 _ _ (disarm (view p1))); [done..| | |exact D].
      + intros w. by rewrite N2, N1.
      + by rewrite Tr2, Tr1. }
  svc_step. eapply cancel_timer_wp; [done..|].
  destruct (might_have_pending_waits_ p).
  - intros s1 [E1 T1 N1 Tr1 Hi1].
    destruct (hview_inv (hst s1) id (idle (view p))) as (p1 & P1 & V1).
    { change (timers s1 !! id = Some (idle (view p))). rewrite T1. apply lookup_insert_eq. }
    eapply (Step s1 p1); try done; [by injection V1|]. by exists (idle (view p)).
  - assert (W : waiters_ p = []).
    { destruct (waiters_ p); [done|]. by specialize (Hm ltac:(done)). }
    eapply (Step s p); rewrite ?W; try done.
    + exists (view p). symmetry. apply insert_id. by apply hview_lookup.
    + cbn. by rewrite app_nil_r.
Qed.

Lemma destroy_wp tid id p l (Q : unit -> service -> Prop) s :
  inv s -> pool_ok s l -> shutting_down_ s = false -> impls (hst s) !! id = Some p ->
  ~ pooled s l id -> (waiters_ p <> [] -> might_have_pending_waits_ p = true) ->
  (forall s' l', destroyed s l id (waiters_ p) s' l' -> Q tt s') ->
  wp (destroy tid id) Q s.
Proof.
  intros Hi Hp Hs P Hn Hm HQ. unfold destroy. do 2 svc_step. rewrite Hs.
  by eapply destroy_impl_wp.
Qed.
