(* ===== verification/TimerShutdown.v ===== *)
(** [timer_service::shutdown]: every implementation of the heap and of the free
    list is deleted, and the coroutine frame of every waiter is destroyed. *)

From stdpp Require Import gmap.
From S2P Require Import Prelude StateMonad TimerHeap TimerService TimerServiceInv TimerServiceSpec.

(** A map without the keys [l]. *)
Definition without {A} (l : list nat) (m : gmap nat A) : gmap nat A :=
  foldl (fun m k => delete k m) m l.

Lemma without_app {A} l1 l2 (m : gmap nat A) : without (l1 ++ l2) m = without l2 (without l1 m).
Proof. apply foldl_app. Qed.

Lemma lookup_without {A} l (m : gmap nat A) k :
  without l m !! k = if decide (k ∈ l) then None else m !! k.
Proof.
  revert m. induction l as [|x l IH]; intros m; cbn.
  - by rewrite decide_False by apply not_elem_of_nil.
  - fold (without l (delete x m)). rewrite IH, lookup_delete.
    repeat case_decide; set_solver.
Qed.

(** The waiters of a timer: alive, published on it, suspended. *)
Definition suspended_on (N : gmap nat waiter_node) (id : nat) (ws : list nat) : Prop :=
  NoDup ws /\ forall w, w ∈ ws -> exists n, N !! w = Some n /\ impl_ n = Some id /\ h_ n = true.

Lemma suspended_other N id id' ws ws' :
  id <> id' -> suspended_on N id ws -> suspended_on N id' ws' -> suspended_on (without ws N) id' ws'.
Proof.
  intros Hne [_ H1] [Hd H2]. split; [done|]. intros w Hw. destruct (H2 w Hw) as (n & N1 & I1 & Hh).
  exists n. rewrite lookup_without, decide_False; [done|]. intros Hin.
  destruct (H1 w Hin) as (n' & N' & I' & _). congruence.
Qed.

Lemma suspended_tail N id w ws :
  suspended_on N id (w :: ws) -> suspended_on (delete w N) id ws.
Proof.
  intros [Hd H]. apply list.NoDup_cons in Hd as [Hw Hd]. split; [done|].
  intros x Hx. destruct (H x ltac:(set_solver)) as (n & N1 & I1 & Hh). exists n.
  rewrite lookup_delete_ne; [done|]. by intros ->.
Qed.

(** What the destruction of a waiting coroutine is to the outside. *)
Definition frame_events (ws : list nat) : list event :=
  ws ≫= fun w => [Work_finished; Frame_destroyed w].

Lemma service_eq a b :
  env a = env b -> hst a = hst b -> cached_nearest_ns_ a = cached_nearest_ns_ b ->
  nodes a = nodes b -> trace a = trace b -> a = b.
Proof. destruct a, b. cbn. by intros [= -> -> -> -> -> ->] -> -> -> ->. Qed.

Lemma shutdown_waiters_wp fuel id p (Q : unit -> service -> Prop) s :
  impls (hst s) !! id = Some p -> suspended_on (nodes s) id (waiters_ p) ->
  (length (waiters_ p) < fuel)%nat ->
  Q tt (add_trace (frame_events (waiters_ p))
          (set_nodes (without (waiters_ p) (nodes s)) (with_impl id (set_waiters [] p) s))) ->
  wp (shutdown_waiters fuel id) Q s.
Proof.
  revert p s. induction fuel as [|fuel IH]; intros p s P Hs Hf HQ; [lia|].
  cbn [shutdown_waiters]. svc_step. unfold pop_front. do 2 svc_step.
  destruct (waiters_ p) as [|w ws] eqn:W.
  - do 2 svc_step. assert (E : set_waiters [] p = p) by (destruct p; cbn in *; by subst).
    revert HQ. unfold with_impl. rewrite E, insert_id by done. cbn.
    rewrite add_trace_nil. by destruct s as [? [] ? ? ? ? ? ? ? ?].
  - do 4 svc_step. destruct (proj2 Hs w ltac:(set_solver)) as (n & N & I & Hh).
    unfold reset_stop_cb, destroy_frame. eapply wp_upd_node; [exact N|].
    do 2 svc_step. eapply wp_node; [cbn; apply lookup_insert_eq|].
    svc_step. eapply wp_upd_node; [cbn; apply lookup_insert_eq|]. do 2 svc_step.
    cbn [h_ set_cb_]. rewrite Hh. do 3 svc_step.
    eapply (IH (set_waiters ws p)).
    + cbn. apply lookup_insert_eq.
    + cbn. rewrite !delete_insert_eq. by apply suspended_tail.
    + cbn in *. lia.
    + cbn [waiters_ set_waiters].
      eapply eq_ind; [exact HQ|]. apply service_eq; try done.
      * unfold with_impl. cbn. by rewrite insert_impls_twice.
      * cbn. by rewrite !delete_insert_eq.
      * cbn. by rewrite <- !app_assoc.
Qed.

Lemma bind_ext_in {A} (f g : nat -> list A) l :
  (forall k, k ∈ l -> f k = g k) -> l ≫= f = l ≫= g.
Proof.
  induction l as [|x l IH]; intros H; [done|].
  rewrite !bind_cons, H, IH by set_solver. done.
Qed.

(** The events of deleting the timers [l], whose waiters are those of [T]. *)
Definition impl_events (T : gmap nat timer_view) (l : list nat) : list event :=
  l ≫= fun id => frame_events (waiters_of T id) ++ [Freed id].

Lemma shutdown_impls_wp l (Q : unit -> service -> Prop) s :
  NoDup l ->
  (forall id, id ∈ l -> exists v, timers s !! id = Some v /\ suspended_on (nodes s) id (v_waiters v)) ->
  (forall s', env s' = env s -> heap_ (hst s') = heap_ (hst s) ->
     timers s' = without l (timers s) ->
     nodes s' = without (fired (timers s) l) (nodes s) ->
     trace s' = trace s ++ impl_events (timers s) l ->
     cached_nearest_ns_ s' = cached_nearest_ns_ s -> Q tt s') ->
  wp (shutdown_impls l) Q s.
Proof.
  revert s. induction l as [|id l IH]; intros s Hd Hall HQ; cbn [shutdown_impls].
  { svc_step. apply HQ; try done. cbn. by rewrite app_nil_r. }
  apply list.NoDup_cons in Hd as [Hn Hd].
  destruct (Hall id ltac:(set_solver)) as (v & V & Hs).
  apply hview_inv in V as V'. destruct V' as (p & P & Ev). subst v. cbn in Hs.
  do 3 svc_step. eapply shutdown_waiters_wp; [done|done|lia|].
  svc_step. unfold delete_impl. svc_step. eapply wp_impl; [cbn; apply lookup_insert_eq|].
  do 3 svc_step.
  match goal with |- wp _ _ ?st => set (s1 := st) end.
  assert (T1 : timers s1 = delete id (timers s)).
  { unfold timers, hview. cbn. rewrite delete_insert_eq. apply (fmap_delete view). }
  assert (Wid : waiters_of (timers s) id = waiters_ p).
  { unfold waiters_of. by rewrite V. }
  assert (N1 : nodes s1 = without (waiters_of (timers s) id) (nodes s)) by (by rewrite Wid).
  assert (Tr1 : trace s1 = trace s ++ frame_events (waiters_of (timers s) id) ++ [Freed id]).
  { rewrite Wid. cbn. by rewrite <- app_assoc. }
  assert (Same : forall k, k ∈ l -> timers s1 !! k = timers s !! k).
  { intros k Hk. rewrite T1, lookup_delete_ne; [done|]. by intros ->. }
  assert (Wof : forall k, k ∈ l -> waiters_of (timers s1) k = waiters_of (timers s) k).
  { intros k Hk. unfold waiters_of. by rewrite Same. }
  assert (Fl : fired (timers s1) l = fired (timers s) l).
  { by apply bind_ext_in. }
  assert (Ie : impl_events (timers s1) l = impl_events (timers s) l).
  { apply bind_ext_in. intros k Hk. by rewrite Wof. }
  apply IH; [done| |].
  - intros k Hk. destruct (Hall k ltac:(set_solver)) as (u & U & Hu). exists u.
    rewrite Same by done. split; [done|]. rewrite N1, Wid.
    eapply suspended_other; [|done..]. by intros ->.
  - intros s' E' H' T' N' Tr' C'. apply HQ; try done.
    + rewrite T', T1. done.
    + rewrite N', N1, Fl. unfold fired. by rewrite bind_cons, without_app.
    + rewrite Tr', Tr1, Ie. unfold impl_events. by rewrite bind_cons, <- !app_assoc.
Qed.

Lemma free_all_wp fuel l (Q : unit -> service -> Prop) s :
  chain (timers s) (free_list_ s) l -> NoDup l -> (length l < fuel)%nat ->
  (forall s', self s' = self s -> free_list_ s' = None -> shutting_down_ s' = shutting_down_ s ->
     tl_cached_impl s' = tl_cached_impl s -> heap_ (hst s') = heap_ (hst s) ->
     timers s' = without l (timers s) -> nodes s' = nodes s ->
     trace s' = trace s ++ map Freed l ->
     cached_nearest_ns_ s' = cached_nearest_ns_ s -> Q tt s') ->
  wp (free_all fuel) Q s.
Proof.
  revert l s. induction fuel as [|fuel IH]; intros l s C Hd Hf HQ; [lia|].
  cbn [free_all]. do 2 svc_step. destruct l as [|id l]; cbn in C.
  { rewrite C. svc_step. apply HQ; try done. by rewrite app_nil_r. }
  destruct C as (E & v & V & C). rewrite E. apply list.NoDup_cons in Hd as [Hn Hd].
  apply hview_inv in V as V'. destruct V' as (p & P & Ev). subst v.
  do 3 svc_step. unfold delete_impl. do 7 svc_step.
  match goal with |- wp _ _ ?st => set (s1 := st) end.
  assert (T1 : timers s1 = delete id (timers s)) by apply (fmap_delete view).
  apply (IH l).
  - rewrite T1. change (free_list_ s1) with (v_next (view p)).
    eapply chain_frame; [|exact C]. intros k Hk. apply lookup_delete_ne. by intros ->.
  - done.
  - cbn in Hf. lia.
  - intros s' Es Ef Eh Et H' T' N' Tr' C'. apply HQ; try done.
    + by rewrite T', T1.
    + rewrite Tr'. cbn. by rewrite <- app_assoc.
Qed.

(** [detach_all] resets the position of the timers of the heap. *)
Lemma detach_all_wp h (Q : list nat -> service -> Prop) s :
  (forall e, e ∈ h -> is_Some (impls (hst s) !! timer_ e)) ->
  (forall m, (forall k, m !! k = if decide (k ∈ map timer_ h) then set_index None <$> impls (hst s) !! k
                                 else impls (hst s) !! k) ->
     Q (map timer_ h) (set_hst (hs (heap_ (hst s)) m) s)) ->
  wp (detach_all h) Q s.
Proof.
  revert Q s. induction h as [|e h IH]; intros Q s Hall HQ; cbn [detach_all].
  - svc_step. replace s with (set_hst (hs (heap_ (hst s)) (impls (hst s))) s) at 1
      by (by destruct s as [? [] ? ? ? ? ? ? ? ?]).
    apply HQ. intros k. by rewrite decide_False by apply not_elem_of_nil.
  - destruct (Hall e ltac:(set_solver)) as [p P]. do 2 svc_step.
    eapply wp_store_index; [done|]. svc_step. apply IH.
    + intros x Hx. cbn. rewrite lookup_insert_is_Some.
      destruct (decide (timer_ e = timer_ x)); [by left|right]. split; [done|].
      apply Hall. set_solver.
    + intros m Hm. svc_step. cbn in Hm.
      apply (HQ m). intros k. rewrite Hm, lookup_insert. cbn [map].
      destruct (decide (timer_ e = k)) as [<-|Hk].
      * rewrite (decide_True (P := timer_ e ∈ timer_ e :: map timer_ h)) by set_solver.
        rewrite P. by case_decide.
      * destruct (decide (k ∈ map timer_ h)); [rewrite decide_True by set_solver|
          rewrite decide_False by set_solver]; done.
Qed.

Lemma chain_in T o l id : chain T o l -> id ∈ l -> is_Some (T !! id).
Proof.
  revert o. induction l as [|x l IH]; intros o; cbn; [by intros _ ?%not_elem_of_nil|].
  intros (_ & v & V & C) [->|Hin]%elem_of_cons; [by exists v|by eapply IH].
Qed.

Lemma chain_size T o l : chain T o l -> NoDup l -> (length l <= size T)%nat.
Proof.
  intros C Hd. rewrite <- size_dom, <- (size_list_to_set (C := gset nat) l) by done.
  apply subseteq_size. intros id Hid%elem_of_list_to_set. apply elem_of_dom. by eapply chain_in.
Qed.

(** The end state of [shutdown]: [c] is what the thread had cached, [ts] the
    timers of the heap, [l] the free list. *)
Record shut (c ts l : list nat) (s s' : service) : Prop := {
  sh_flag : shutting_down_ s' = true;
  sh_heap : heap_ (hst s') = [];
  sh_nearest : cached_nearest_ns_ s' = int64_max;
  sh_free : free_list_ s' = None;
  sh_timers : forall k, timers s' !! k =
    if decide (k ∈ c ++ ts ++ l) then None else timers s !! k;
  sh_nodes : nodes s' = without (fired (timers s) ts) (nodes s);
  sh_trace : trace s' = trace s ++ map Freed c ++ impl_events (timers s) ts ++ map Freed l
}.

Lemma invalidate_wp tid l (Q : unit -> service -> Prop) s :
  inv s -> pool_ok s l ->
  (forall c s', (forall id, id ∈ c -> pooled s l id) -> inv s' -> pool_ok s' l ->
     timers s' = without c (timers s) -> nodes s' = nodes s ->
     trace s' = trace s ++ map Freed c -> heap_ (hst s') = heap_ (hst s) ->
     self s' = self s -> c = option_list (tl_cached_impl s !! tid) -> Q tt s') ->
  wp (timer_service_invalidate_cache tid) Q s.
Proof.
  intros Hi Hp HQ. unfold timer_service_invalidate_cache. do 2 svc_step.
  destruct (tl_cached_impl s !! tid) as [id|] eqn:Htl.
  2: { svc_step. apply (HQ []); try done; [by intros ? ?%not_elem_of_nil|cbn; by rewrite app_nil_r]. }
  assert (Hpid : pooled s l id) by (right; by exists tid).
  destruct (po_quiet s l Hp id Hpid) as (v & V & A & W).
  svc_step. eapply delete_impl_wp; [done..|]. intros s1 E1 T1 N1 Tr1 H1 Hi1. svc_step.
  destruct (tl_removed s l tid id Hi Hp Htl) as (_ & Hp2 & Hn2 & _).
  apply (HQ [id]); try done.
  - intros k Hk%list_elem_of_singleton. by subst.
  - by destruct Hi1.
  - pose proof E1 as E1'. injection E1' as Ea Eb Ec Ed Ee Ef.
    eapply (pool_delete (set_tl (delete tid (tl_cached_impl s)) s) _ l id); try done.
    unfold env. cbn. congruence.
  - by injection E1.
Qed.

Lemma disarmed_view s (m : gmap nat implementation) (ts : list nat) :
  inv s -> (forall k, m !! k = if decide (k ∈ ts) then set_index None <$> impls (hst s) !! k
                              else impls (hst s) !! k) ->
  forall k v, timers s !! k = Some v ->
  exists v', (view <$> m) !! k = Some v' /\ v_waiters v' = v_waiters v /\ v_next v' = v_next v /\
    (k ∉ ts -> v' = v).
Proof.
  intros Hi Hm k v V. apply hview_inv in V as (p & P & <-).
  rewrite lookup_fmap, Hm. case_decide; rewrite P; eexists; (split; [done|]); naive_solver.
Qed.

Lemma heap_timers_nodup h : ix_ok h -> NoDup (map timer_ (heap_ h)).
Proof.
  intros Hix. apply NoDup_alt. intros i j x Hi Hj.
  rewrite list_lookup_fmap in Hi, Hj.
  destruct (heap_ h !! i) as [a|] eqn:A, (heap_ h !! j) as [b|] eqn:B; try done.
  cbn in Hi, Hj. eapply (ix_timer_inj h); [done..|congruence].
Qed.

Lemma heap_timers_armed s k v :
  inv s -> timers s !! k = Some v ->
  v_armed v = true <-> k ∈ map timer_ (heap_ (hst s)).
Proof.
  intros Hi V. apply hview_inv in V as (p & P & <-). cbn.
  rewrite (armed_iff _ k p (proj1 (inv_heap s Hi)) P). rewrite list_elem_of_fmap. naive_solver.
Qed.

(** The part of [shutdown] after the cache was invalidated. *)
Definition shutdown_drain : SM unit :=
  s ← get;
  l ← detach_all (heap_ (hst s));
  _ ← modify (fun s => set_cached int64_max (set_hst (hs [] (impls (hst s))) s));
  _ ← shutdown_impls l;
  s ← get;
  free_all (S (size (impls (hst s)))).

Section drain.
Context (s : service) (l : list nat).
Context (Hi : inv s) (Hp : pool_ok s l).
Context (Hh : forall w n id, nodes s !! w = Some n -> impl_ n = Some id -> h_ n = true).

Lemma heap_timers_suspended k :
  k ∈ map timer_ (heap_ (hst s)) ->
  exists v, timers s !! k = Some v /\ suspended_on (nodes s) k (v_waiters v).
Proof using Hi Hh.
  intros (e & -> & He)%list_elem_of_fmap.
  destruct (inv_times s Hi e He) as (v & V & _). exists v. split; [done|].
  split; [by eapply (lo_nodup _ _ (inv_lists s Hi))|]. intros w Hw.
  destruct (lo_pub _ _ (inv_lists s Hi) _ v w V Hw) as (n & N & I). exists n. naive_solver.
Qed.

Lemma free_not_armed k : k ∈ l -> k ∉ map timer_ (heap_ (hst s)).
Proof using Hi Hp.
  intros Hk Hin. destruct (po_quiet s l Hp k ltac:(by left)) as (v & V & A & _).
  apply (heap_timers_armed s k v Hi V) in Hin. congruence.
Qed.

Lemma shutdown_drain_wp (Q : unit -> service -> Prop) :
  (forall s', self s' = self s -> shut [] (map timer_ (heap_ (hst s))) l (set_shut true s) s' ->
     Q tt s') ->
  wp shutdown_drain Q (set_shut true s).
Proof using Hi Hp Hh.
  set (ts := map timer_ (heap_ (hst s))). intros HQ. unfold shutdown_drain. do 3 svc_step.
  eapply detach_all_wp.
  { intros e He. destruct (entry_armed _ e (inv_heap s Hi) (inv_times s Hi) He)
      as (p & P & _). by exists p. }
  cbn [hst set_shut]. fold ts. intros m Hm.
  pose proof (disarmed_view s m ts Hi Hm) as Dv. do 3 svc_step.
  match goal with |- wp _ _ ?st => set (s2 := st) end.
  assert (T2 : timers s2 = view <$> m) by done.
  assert (Wof : forall k, k ∈ ts -> waiters_of (timers s2) k = waiters_of (timers s) k).
  { intros k Hk. destruct (heap_timers_suspended k Hk) as (v & V & _).
    destruct (Dv k v V) as (v' & V' & W' & _). unfold waiters_of. by rewrite T2, V', V. }
  assert (Ts2 : forall k, k ∉ ts -> timers s2 !! k = timers s !! k).
  { intros k Hk. rewrite T2. unfold timers, hview. by rewrite !lookup_fmap, Hm, decide_False. }
  apply shutdown_impls_wp.
  - apply heap_timers_nodup, Hi.
  - intros k Hk. destruct (heap_timers_suspended k Hk) as (v & V & Sv).
    destruct (Dv k v V) as (v' & V' & W' & _). exists v'. by rewrite W'.
  - intros s3 E3 H3 T3 N3 Tr3 C3. do 2 svc_step.
    pose proof E3 as E3'. injection E3' as Ea Eb Ec Ed Ee Ef.
    assert (Ch : chain (timers s3) (free_list_ s3) l).
    { rewrite Eb. eapply chain_frame; [|apply Hp]. intros k Hk. pose proof (free_not_armed k Hk).
      rewrite T3, lookup_without, decide_False by done. by apply Ts2. }
    eapply (free_all_wp _ l); [done|apply Hp| |].
    { pose proof (chain_size _ _ _ Ch (po_nodup s l Hp)) as Hsz. unfold timers, hview in Hsz.
      rewrite map_size_fmap in Hsz. lia. }
    intros s4 Es Efr Eh Et H4 T4 N4 Tr4 C4. apply HQ; [by rewrite Es|]. constructor.
    + by rewrite Eh, Ed.
    + by rewrite H4, H3.
    + by rewrite C4, C3.
    + done.
    + intros k. rewrite T4, T3, !lookup_without. cbn [app].
      destruct (decide (k ∈ l)); [by rewrite decide_True by set_solver|].
      destruct (decide (k ∈ ts)); [by rewrite decide_True by set_solver|].
      rewrite decide_False by set_solver. by apply Ts2.
    + rewrite N4, N3. f_equal. by apply bind_ext_in.
    + rewrite Tr4, Tr3. cbn [app map]. rewrite <- app_assoc. do 2 f_equal.
      apply bind_ext_in. intros k Hk. by rewrite Wof.
Qed.
End drain.

Lemma shutdown_wp tid l (Q : unit -> service -> Prop) s :
  inv s -> pool_ok s l ->
  (forall w n id, nodes s !! w = Some n -> impl_ n = Some id -> h_ n = true) ->
  (forall s', self s' = self s ->
     shut (option_list (tl_cached_impl s !! tid)) (map timer_ (heap_ (hst s))) l s s' ->
     Q tt s') ->
  wp (shutdown tid) Q s.
Proof.
  intros Hi Hp Hh HQ. unfold shutdown. svc_step. eapply invalidate_wp; [done..|].
  intros c s1 Hc Hi1 Hp1 T1 N1 Tr1 H1 Es Ec. rewrite <- Ec in HQ. do 2 svc_step.
  fold shutdown_drain. apply (shutdown_drain_wp s1 l Hi1 Hp1); [by rewrite N1|].
  intros s2 Es2 [F Hp2 Nr Fr T N Tr]. rewrite H1 in *.
  assert (Wof : forall k, k ∈ map timer_ (heap_ (hst s)) -> waiters_of (timers s1) k = waiters_of (timers s) k).
  { intros k Hk. unfold waiters_of. rewrite T1, lookup_without, decide_False; [done|].
    intros Hkc. destruct (po_quiet s l Hp k (Hc k Hkc)) as (v & V & A & _).
    apply (heap_timers_armed s k v Hi V) in Hk. congruence. }
  apply HQ; [congruence|]. constructor; try done.
  - intros k. rewrite T. change (timers (set_shut true s1)) with (timers s1).
    rewrite T1, lookup_without. cbn [app]. destruct (decide (k ∈ map timer_ (heap_ (hst s)) ++ l)).
    + by rewrite decide_True by set_solver.
    + destruct (decide (k ∈ c)); [rewrite decide_True by set_solver|rewrite decide_False by set_solver]; done.
  - rewrite N. cbn. rewrite N1. f_equal. by apply bind_ext_in.
  - rewrite Tr. cbn [trace set_shut app map]. rewrite Tr1, <- app_assoc. do 2 f_equal.
    f_equal. apply bind_ext_in. intros k Hk. by rewrite <- Wof.
Qed.
