(* ===== verification/TimerSteps.v ===== *)
(** The timer service as a transition system: the operations of its clients and
    of the threads that run the scheduler, interleaved.

    A wait is two steps, since [implementation::wait] publishes the waiter only
    in [insert_waiter]: between them another thread may run any operation the
    thread-safety rules allow.  An operation on a timer object ([cancel],
    [expires_at], destruction) is not run while a wait on the same object is
    between its two steps ("Shared objects: Unsafe"); stop callbacks and the
    firing of timers are.  A timer may be destroyed with waiters pending, which
    [destroy] cancels, provided that [might_have_pending_waits_] is set; the state
    where it is not, which the code can reach, is the subject of
    [pending_flag_can_miss_a_waiter] of TimerClaims.v. *)

From stdpp Require Import gmap sorting.
From S2P Require Import Prelude StateMonad TimerHeap TimerService TimerServiceInv TimerServiceSpec.

(** [live]: the timers some handle owns.  [window]: the waiters of the waits
    that are between their two steps, with their timer. *)
Record world := mk_world {
  svc : service;
  live : gset nat;
  window : gmap nat nat
}.

Definition init_world (self : nat) (cb : bool) : world := mk_world (init self cb) ∅ ∅.

Definition mentions (w : nat) (e : event) : bool :=
  match e with
  | Post x | Resume x | Frame_destroyed x => (x =? w)%nat
  | _ => false
  end.

(** A [co_await]: a new waiter node, then [await_suspend] up to the
    publication.  The result tells whether the wait goes on. *)
Definition begin_wait (id w : nat) (token : option nat) (now now' : Z) : SM bool :=
  _ ← new_node w;
  p ← impl id;
  _ ← upd_node w (fun n => mk_node (impl_ n) (wsvc_ n) true (token_ n) (ec_ n) (cb_active_ n));
  if already_expired p now then _ ← complete_now w; mret false
  else
    _ ← upd_node w (fun n => mk_node (impl_ n) (wsvc_ n) (h_ n) token (ec_ n) (cb_active_ n));
    if already_expired p now' then _ ← complete_now w; mret false
    else _ ← wait_arm id w; mret true.

(** The resumed coroutine ends the life of its awaitable. *)
Definition end_node (w : nat) : SM unit :=
  modify (fun s => set_nodes (delete w (nodes s)) s).

Definition waits (w : world) (id : nat) : Prop := exists x, window w !! x = Some id.

Inductive step : world -> world -> Prop :=
| st_construct c tid fresh id s' :
    timers (svc c) !! fresh = None ->
    construct tid fresh (svc c) = Ok (id, s') ->
    step c (mk_world s' ({[id]} ∪ live c) (window c))
| st_destroy c tid id v s' :
    id ∈ live c -> ~ waits c id -> timers (svc c) !! id = Some v ->
    (v_waiters v <> [] -> v_might v = true) ->
    destroy tid id (svc c) = Ok (tt, s') ->
    step c (mk_world s' (live c ∖ {[id]}) (window c))
| st_expires_at c id t n s' :
    id ∈ live c -> ~ waits c id -> expires_at id t (svc c) = Ok (n, s') ->
    step c (mk_world s' (live c) (window c))
| st_cancel c id n s' :
    id ∈ live c -> ~ waits c id -> cancel id (svc c) = Ok (n, s') ->
    step c (mk_world s' (live c) (window c))
| st_cancel_one c id n s' :
    id ∈ live c -> ~ waits c id -> cancel_one id (svc c) = Ok (n, s') ->
    step c (mk_world s' (live c) (window c))
| st_wait c id w token now now' s' :
    id ∈ live c -> nodes (svc c) !! w = None -> existsb (mentions w) (trace (svc c)) = false ->
    begin_wait id w token now now' (svc c) = Ok (true, s') ->
    step c (mk_world s' (live c) (<[w := id]> (window c)))
| st_wait_expired c id w token now now' s' s'' :
    id ∈ live c -> nodes (svc c) !! w = None -> existsb (mentions w) (trace (svc c)) = false ->
    begin_wait id w token now now' (svc c) = Ok (false, s') -> end_node w s' = Ok (tt, s'') ->
    step c (mk_world s'' (live c) (window c))
| st_insert c id w s' :
    window c !! w = Some id -> insert_waiter id w (svc c) = Ok (tt, s') ->
    step c (mk_world s' (live c) (delete w (window c)))
| st_request_stop c k s' :
    request_stop k (svc c) = Ok (tt, s') ->
    step c (mk_world s' (live c) (window c))
| st_canceller c w n s' :
    nodes (svc c) !! w = Some n -> cb_active_ n = true -> stop_requested n (svc c) = true ->
    canceller w (svc c) = Ok (tt, s') ->
    step c (mk_world s' (live c) (window c))
| st_process c now n s' :
    process_expired now (svc c) = Ok (n, s') ->
    step c (mk_world s' (live c) (window c))
| st_complete c w s' s'' :
    Post w ∈ trace (svc c) -> Resume w ∉ trace (svc c) ->
    completion_op w (svc c) = Ok (tt, s') -> end_node w s' = Ok (tt, s'') ->
    step c (mk_world s'' (live c) (window c)).

Definition reachable (self : nat) (cb : bool) : world -> Prop := rtc step (init_world self cb).

(** * The invariant of the reachable worlds *)

Definition count (e : event) (l : list event) : nat := length (filter (fun x => x = e) l).

Lemma count_app e l1 l2 : count e (l1 ++ l2) = (count e l1 + count e l2)%nat.
Proof. unfold count. by rewrite list.filter_app, length_app. Qed.

Lemma count_none e l : (forall x, x ∈ l -> x <> e) -> count e l = O.
Proof.
  unfold count. induction l as [|x l IH]; intros H; [done|].
  rewrite filter_cons_False by (apply H; set_solver). apply IH. set_solver.
Qed.

Lemma count_posts w L : NoDup L -> count (Post w) (map Post L) = if decide (w ∈ L) then 1%nat else O.
Proof.
  unfold count. induction 1 as [|x L Hx HL IH]; [done|]. cbn [map].
  destruct (decide (x = w)) as [->|Hn].
  - rewrite filter_cons_True by done. cbn. rewrite IH, decide_False by done.
    by rewrite decide_True by set_solver.
  - rewrite filter_cons_False by congruence. rewrite IH.
    destruct (decide (w ∈ L)); [rewrite decide_True|rewrite decide_False]; set_solver.
Qed.

(** A wait whose node is alive has been posted once if it is neither published
    nor about to be. *)
Definition posts_due (c : world) (w : nat) (n : waiter_node) : nat :=
  match impl_ n, window c !! w with
  | None, None => 1%nat
  | _, _ => O
  end.

Record wf (c : world) : Prop := {
  wf_inv : inv (svc c);
  wf_up : shutting_down_ (svc c) = false;
  wf_pool : exists l, pool_ok (svc c) l /\
    forall id, id ∈ live c -> is_Some (timers (svc c) !! id) /\ ~ pooled (svc c) l id;
  wf_window : forall w id, window c !! w = Some id ->
    id ∈ live c /\ exists n, nodes (svc c) !! w = Some n /\ impl_ n = None;
  wf_node : forall w n, nodes (svc c) !! w = Some n ->
    count (Resume w) (trace (svc c)) = O /\
    count (Post w) (trace (svc c)) = posts_due c w n /\ h_ n = true;
  wf_gone : forall w, nodes (svc c) !! w = None ->
    (count (Post w) (trace (svc c)) <= count (Resume w) (trace (svc c)) <= 1)%nat;
  wf_work : count Work_started (trace (svc c)) =
    (count Work_finished (trace (svc c)) + size (nodes (svc c)))%nat
}.

(** An operation that completes the published waiters [L] and leaves the other
    waits alone. *)
Record completes (L : list nat) (ev : list event) (s s' : service) : Prop := {
  cp_in : forall w, w ∈ L -> exists n n', nodes s !! w = Some n /\ impl_ n <> None /\
    nodes s' !! w = Some n' /\ impl_ n' = None /\ h_ n' = h_ n;
  cp_out : forall w, w ∉ L -> nodes s' !! w = nodes s !! w;
  cp_trace : trace s' = trace s ++ ev;
  cp_posts : forall w, count (Post w) ev = if decide (w ∈ L) then 1%nat else O;
  cp_others : forall w, count (Resume w) ev = O;
  cp_work : count Work_started ev = O /\ count Work_finished ev = O
}.

Lemma completes_dom L ev s s' : completes L ev s s' -> size (nodes s') = size (nodes s).
Proof.
  intros C. rewrite <- !size_dom. f_equal. apply leibniz_equiv. intros w. rewrite !elem_of_dom.
  destruct (decide (w ∈ L)) as [Hw|Hw].
  - destruct (cp_in _ _ _ _ C w Hw) as (n & n' & -> & _ & -> & _). by split; eauto.
  - by rewrite (cp_out _ _ _ _ C w Hw).
Qed.

Lemma wf_completes c L ev s' :
  wf c -> completes L ev (svc c) s' -> inv s' -> env s' = env (svc c) ->
  (forall l id, pool_ok (svc c) l -> pooled (svc c) l id ->
     timers s' !! id = timers (svc c) !! id) ->
  (forall id, is_Some (timers (svc c) !! id) -> is_Some (timers s' !! id)) ->
  wf (mk_world s' (live c) (window c)).
Proof.
  intros W C Hi E HT Hlive. pose proof E as E'. injection E' as Ea Eb Ec Ed Ee Ef.
  pose proof (completes_dom _ _ _ _ C) as Hsz. destruct C as [Cin Cout Ctr Cpo Cre [Cs Cf]].
  constructor; cbn [svc live window]; try done.
  - rewrite Ed. apply W.
  - destruct (wf_pool c W) as (l & Hp & Hl). exists l. split.
    + eapply pool_frame; [done| |done]. intros id. by apply (HT l).
    + intros id Hid. destruct (Hl id Hid) as [H1 H2]. split; [by apply Hlive|].
      by rewrite (pooled_env _ _ _ _ E).
  - intros w id Hw. destruct (wf_window c W w id Hw) as (Hid & n & N & I). split; [done|].
    destruct (decide (w ∈ L)) as [HL|HL].
    + destruct (Cin w HL) as (n0 & n' & N0 & I0 & _). congruence.
    + exists n. by rewrite (Cout w HL).
  - intros w n' N'. rewrite Ctr, !count_app, Cpo, Cre, Nat.add_0_r.
    destruct (decide (w ∈ L)) as [HL|HL].
    + destruct (Cin w HL) as (n & n0 & N & I & N0 & I' & Hh). assert (n0 = n') as -> by congruence.
      destruct (wf_node c W w n N) as (R & P & H). split; [done|]. split; [|congruence].
      unfold posts_due in *. rewrite I'. cbn [window].
      destruct (window c !! w) as [k|] eqn:Hk.
      * destruct (wf_window c W w k Hk) as (_ & m & Nm & Im). congruence.
      * rewrite P. by destruct (impl_ n).
    + rewrite (Cout w HL) in N'. destruct (wf_node c W w n' N') as (R & P & H).
      split; [done|]. split; [|done]. rewrite P. unfold posts_due. cbn. lia.
  - intros w N'. destruct (decide (w ∈ L)) as [HL|HL].
    { destruct (Cin w HL) as (n & n0 & N & I & N0 & _). congruence. }
    rewrite (Cout w HL) in N'. rewrite Ctr, !count_app, Cpo, Cre, decide_False by done.
    pose proof (wf_gone c W w N'). lia.
  - rewrite Ctr, !count_app, Cs, Cf, Hsz. pose proof (wf_work c W). lia.
Qed.

Lemma notice_count e b s : e <> Earliest_changed -> count e (notice b s) = O.
Proof. intros He. unfold notice. destruct (b && _); [|done]. apply count_none. set_solver. Qed.

Lemma count_map_posts e L : (forall w, e <> Post w) -> count e (map Post L) = O.
Proof. intros He. apply count_none. intros x (w & -> & _)%list_elem_of_fmap. congruence. Qed.

Lemma completes_intro L e ev1 s s' :
  NoDup L ->
  (forall w, w ∈ L -> exists n, nodes s !! w = Some n /\ impl_ n <> None) ->
  (forall w, nodes s' !! w =
    if decide (w ∈ L) then (fun n => set_ec_ e (set_impl_ None n)) <$> nodes s !! w
    else nodes s !! w) ->
  trace s' = trace s ++ map Post L ++ ev1 -> (ev1 = [] \/ ev1 = [Earliest_changed]) ->
  completes L (map Post L ++ ev1) s s'.
Proof.
  intros Hd HL HN Htr Hev.
  assert (Hno : forall x, x <> Earliest_changed -> count x ev1 = O).
  { intros x Hx. destruct Hev as [->| ->]; apply count_none; set_solver. }
  constructor; try done.
  - intros w Hw. destruct (HL w Hw) as (n & N & I). exists n, (set_ec_ e (set_impl_ None n)).
    rewrite HN, decide_True, N by done. done.
  - intros w Hw. by rewrite HN, decide_False.
  - intros w. rewrite count_app, count_posts, Hno by done. lia.
  - intros w. rewrite count_app, count_map_posts, Hno by done. lia.
  - rewrite !count_app, !count_map_posts, !Hno by done. done.
Qed.

Lemma notice_cases b s : notice b s = [] \/ notice b s = [Earliest_changed].
Proof. unfold notice. destruct (b && _); auto. Qed.

(** The waiters of a timer are published. *)
Lemma published s id v w :
  inv s -> timers s !! id = Some v -> w ∈ v_waiters v ->
  exists n, nodes s !! w = Some n /\ impl_ n <> None.
Proof.
  intros Hi V Hw. destruct (lo_pub _ _ (inv_lists s Hi) id v w V Hw) as (n & N & I).
  exists n. split; [done|]. congruence.
Qed.

Lemma wf_effect c id v v' L e ev1 s' :
  wf c -> timers (svc c) !! id = Some v -> (forall l, pool_ok (svc c) l -> ~ pooled (svc c) l id) ->
  NoDup L -> (forall w, w ∈ L -> w ∈ v_waiters v) -> (ev1 = [] \/ ev1 = [Earliest_changed]) ->
  effect id v' L e (map Post L ++ ev1) (svc c) s' ->
  wf (mk_world s' (live c) (window c)).
Proof.
  intros W V Hn Hd HL Hev [E T N Tr Hi]. eapply wf_completes; [done| |done|done| |].
  - eapply completes_intro; try done. intros w Hw. eapply published; [apply W|done|by apply HL].
  - intros l k Hp Hk. rewrite T, lookup_insert_ne; [done|]. intros ->. by apply (Hn l).
  - intros k Hk. rewrite T, lookup_insert_is_Some. destruct (decide (id = k)); auto.
Qed.

(** Timers that a handle owns, or that have waiters, are not pooled. *)
Lemma wf_live c id :
  wf c -> id ∈ live c ->
  exists p l, impls (hst (svc c)) !! id = Some p /\ pool_ok (svc c) l /\ ~ pooled (svc c) l id.
Proof.
  intros W Hid. destruct (wf_pool c W) as (l & Hp & Hl). destruct (Hl id Hid) as [[v V] Hn].
  apply hview_inv in V as (p & P & _). by exists p, l.
Qed.

(** The free list is determined by the state. *)
Lemma chain_det T o l1 l2 : chain T o l1 -> chain T o l2 -> l1 = l2.
Proof.
  revert o l2. induction l1 as [|x l1 IH]; intros o [|y l2]; cbn; try done.
  - by intros -> [? _].
  - by intros [-> _] ?.
  - intros (-> & v & V & C1) (E & v2 & V2 & C2). simplify_eq. f_equal. by eapply IH.
Qed.

Lemma live_not_pooled c id l :
  wf c -> id ∈ live c -> pool_ok (svc c) l -> ~ pooled (svc c) l id.
Proof.
  intros W Hid Hp. destruct (wf_live c id W Hid) as (p & l' & _ & Hp' & Hn).
  by rewrite (chain_det _ _ _ _ (po_chain _ _ Hp) (po_chain _ _ Hp')).
Qed.

Lemma wf_processed c now ts s' :
  wf c -> processed now ts (svc c) s' -> wf (mk_world s' (live c) (window c)).
Proof.
  intros W [D E Tr T N Hi].
  assert (Hd : NoDup (fired (timers (svc c)) ts)).
  { eapply fired_nodup; [apply W|apply D]. }
  eapply (wf_completes c (fired (timers (svc c)) ts) (map Post (fired (timers (svc c)) ts) ++ []));
    try done.
  - eapply (completes_intro _ success); try done.
    + intros w Hw. apply elem_of_fired in Hw as (id & v & _ & V & Hw). eapply published; [apply W|done..].
    + intros w. rewrite N. by apply lookup_upd_nodes.
    + by rewrite app_nil_r.
    + by left.
  - intros l k Hp Hk. rewrite T. case_decide as Hts; [|done].
    apply (du_exact _ _ _ D) in Hts as (v & V & A & _).
    by destruct (busy_not_pooled _ l k v Hp V ltac:(by left)).
  - intros k Hk. rewrite T. case_decide; [|done]. by rewrite fmap_is_Some.
Qed.

(** * Preservation *)

Lemma wp_result {S A} (m : M S A) Q s a s' : wp m Q s -> m s = Ok (a, s') -> Q a s'.
Proof. unfold wp. intros H E. by rewrite E in H. Qed.

(** Waiters that are not published do not matter to the invariant. *)
Lemma inv_nodes s N' :
  inv s -> (forall w, (forall n, N' !! w = Some n -> impl_ n = None) \/ N' !! w = nodes s !! w) ->
  (forall w n, nodes s !! w = Some n -> impl_ n <> None -> N' !! w = Some n) ->
  inv (set_nodes N' s).
Proof.
  intros [Hh Ht [Lp Lm Ln La] Hc] H1 H2. constructor; try done. cbn -[timers].
  constructor; try done.
  - intros id v w V Hw. destruct (Lp id v w V Hw) as (n & N & I). exists n. split; [|done].
    apply H2; [done|congruence].
  - intros w n id N I. destruct (H1 w) as [H|H].
    + by rewrite (H n N) in I.
    + rewrite H in N. by apply (Lm w n id).
Qed.

Lemma inv_put_node s w n :
  inv s -> (forall n0, nodes s !! w = Some n0 -> impl_ n0 = None) -> impl_ n = None ->
  inv (with_node w n s).
Proof.
  intros Hi H0 I. apply inv_nodes; [done|..].
  - intros x. rewrite lookup_insert. case_decide; [|by right]. left. by intros ? [= <-].
  - intros x m Nx Ix. rewrite lookup_insert. case_decide as E; [|done]. subst.
    by rewrite (H0 m Nx) in Ix.
Qed.

Lemma inv_end_node s w :
  inv s -> (forall n, nodes s !! w = Some n -> impl_ n = None) ->
  inv (set_nodes (delete w (nodes s)) s).
Proof.
  intros Hi H0. apply inv_nodes; [done|..].
  - intros x. rewrite lookup_delete. case_decide; [|by right]. by left.
  - intros x m Nx Ix. rewrite lookup_delete. case_decide as E; [|done]. subst.
    by rewrite (H0 m Nx) in Ix.
Qed.

Lemma inv_add_trace s l : inv s -> inv (add_trace l s).
Proof. by intros []. Qed.

(** A write to a node that was just written. *)
Ltac put_node :=
  apply inv_put_node; [|cbn; intros ?; rewrite lookup_insert_eq; by intros [= <-]|done].

Definition first_node (token : option nat) (svc : nat) : waiter_node :=
  mk_node None svc true token success (bool_decide (is_Some token)).

Lemma begin_wait_wp id w token now now' p (Q : bool -> service -> Prop) s :
  inv s -> impls (hst s) !! id = Some p -> nodes s !! w = None ->
  (forall s', updated id (with_might true (view p)) w (first_node token (svc_ p))
       [Work_started] s s' -> Q true s') ->
  (already_expired p now = true \/ already_expired p now' = true ->
   forall n s', env s' = env s -> timers s' = timers s -> nodes s' = <[w := n]> (nodes s) ->
     trace s' = trace s ++ [Resume w] -> impl_ n = None -> ec_ n = success -> inv s' -> Q false s') ->
  wp (begin_wait id w token now now') Q s.
Proof.
  intros Hi P Nw Ht Hf. unfold begin_wait, new_node, complete_now. do 4 svc_step.
  svc_step. eapply wp_upd_node; [cbn; apply lookup_insert_eq|]. cbn [impl_ wsvc_ token_ ec_ cb_active_].
  destruct (already_expired p now) eqn:X.
  { do 2 svc_step. eapply wp_upd_node; [cbn; apply lookup_insert_eq|]. do 2 svc_step.
    eapply Hf; [by left|done|done| |done| | |].
    - cbn. by rewrite !insert_insert_eq.
    - done.
    - done.
    - apply inv_add_trace. repeat put_node. apply inv_put_node; [done|congruence|done]. }
  svc_step. eapply wp_upd_node; [cbn; apply lookup_insert_eq|]. cbn [impl_ wsvc_ h_ ec_ cb_active_].
  destruct (already_expired p now') eqn:X'.
  { do 2 svc_step. eapply wp_upd_node; [cbn; apply lookup_insert_eq|]. do 2 svc_step.
    eapply Hf; [by right|done|done| |done| | |].
    - cbn. by rewrite !insert_insert_eq.
    - done.
    - done.
    - apply inv_add_trace. repeat put_node. apply inv_put_node; [done|congruence|done]. }
  svc_step. eapply wait_arm_wp.
  - repeat put_node. apply inv_put_node; [done|congruence|done].
  - exact P.
  - cbn. apply lookup_insert_eq.
  - done.
  - done.
  - intros s' [E T N Tr Hi']. svc_step. apply Ht. constructor; try done.
    rewrite N. cbn. by rewrite !insert_insert_eq.
Qed.

Lemma no_mention_count w e l :
  existsb (mentions w) l = false -> mentions w e = true -> count e l = O.
Proof.
  intros H He. apply count_none. intros x Hx ->.
  assert (existsb (mentions w) l = true); [|congruence].
  apply existsb_exists. exists e. split; [by apply list_elem_of_In|done].
Qed.

(** The pool survives a change of one timer that is not in it. *)
Lemma wf_pool_insert c id v' s' :
  wf c -> id ∈ live c -> env s' = env (svc c) -> timers s' = <[id := v']> (timers (svc c)) ->
  exists l, pool_ok s' l /\
    forall k, k ∈ live c -> is_Some (timers s' !! k) /\ ~ pooled s' l k.
Proof.
  intros W Hid E T. destruct (wf_pool c W) as (l & Hp & Hl). exists l. split.
  - eapply pool_insert; [done|done|by apply Hl|done].
  - intros k Hk. destruct (Hl k Hk) as [H1 H2]. rewrite T, lookup_insert_is_Some.
    split; [destruct (decide (id = k)); auto|]. by rewrite (pooled_env _ _ _ _ E).
Qed.

Lemma wf_wait c id w v' n s' :
  wf c -> id ∈ live c -> nodes (svc c) !! w = None ->
  existsb (mentions w) (trace (svc c)) = false -> impl_ n = None -> h_ n = true ->
  updated id v' w n [Work_started] (svc c) s' ->
  wf (mk_world s' (live c) (<[w := id]> (window c))).
Proof.
  intros W Hid Nw Hm I Hh [E T N Tr Hi].
  pose proof (wf_pool_insert c id v' s' W Hid E T) as Hpool.
  pose proof E as E'. injection E' as Ea Eb Ec Ed Ee Ef.
  assert (Hc : forall e, e <> Work_started -> count e (trace s') = count e (trace (svc c))).
  { intros e He. rewrite Tr, count_app. rewrite (count_none e [Work_started]); [lia|]. set_solver. }
  constructor; cbn [svc live window]; try done.
  - rewrite Ed. apply W.
  - intros x k. rewrite lookup_insert. case_decide as Ex; subst.
    + intros [= <-]. split; [done|]. exists n. by rewrite N, lookup_insert_eq.
    + intros Hx. destruct (wf_window c W x k Hx) as (Hk & m & Nm & Im). split; [done|].
      exists m. by rewrite N, lookup_insert_ne.
  - intros x m. rewrite N, lookup_insert, !Hc by done. unfold posts_due. cbn [window].
    rewrite lookup_insert. case_decide as Ex; subst.
    + intros [= <-]. rewrite I. split; [|split; [|done]]; (eapply no_mention_count; [done|]);
        cbn; apply Nat.eqb_refl.
    + apply (wf_node c W x m).
  - intros x. rewrite N, lookup_insert, !Hc by done. case_decide; [done|]. apply W.
  - rewrite Tr, !count_app, N, map_size_insert_None by done. pose proof (wf_work c W).
    change (count Work_started [Work_started]) with 1%nat.
    change (count Work_finished [Work_started]) with O. lia.
Qed.

Lemma wf_wait_expired c w s' n :
  wf c -> nodes (svc c) !! w = None -> existsb (mentions w) (trace (svc c)) = false ->
  env s' = env (svc c) -> timers s' = timers (svc c) -> nodes s' = <[w := n]> (nodes (svc c)) ->
  trace s' = trace (svc c) ++ [Resume w] -> impl_ n = None -> inv s' ->
  wf (mk_world (set_nodes (delete w (nodes s')) s') (live c) (window c)).
Proof.
  intros W Nw Hm E T N Tr I Hi. pose proof E as E'. injection E' as Ea Eb Ec Ed Ee Ef.
  assert (Nd : delete w (nodes s') = nodes (svc c)).
  { rewrite N, delete_insert_eq. by apply delete_id. }
  assert (Hc : forall e, e <> Resume w -> count e (trace s') = count e (trace (svc c))).
  { intros e He. rewrite Tr, count_app. rewrite (count_none e [Resume w]); [lia|]. set_solver. }
  assert (Hr : count (Resume w) (trace s') = 1%nat).
  { rewrite Tr, count_app. rewrite (no_mention_count w (Resume w)) by (done || apply Nat.eqb_refl).
    unfold count. by rewrite filter_cons_True. }
  constructor; cbn [svc live window set_nodes nodes trace shutting_down_]; rewrite ?Nd; try done.
  - rewrite <- Nd. apply inv_end_node; [done|]. rewrite N, lookup_insert_eq. by intros ? [= <-].
  - rewrite Ed. apply W.
  - destruct (wf_pool c W) as (l & Hp & Hl). exists l. split.
    + eapply pool_frame; [done| |done]. intros k _.
      change (timers (set_nodes (nodes (svc c)) s')) with (timers s'). by rewrite T.
    + change (timers (set_nodes (nodes (svc c)) s')) with (timers s'). rewrite T.
      intros k Hk. destruct (Hl k Hk). split; [done|]. by rewrite (pooled_env (svc c)).
  - apply W.
  - intros x m Nx. assert (x <> w) by congruence. rewrite !Hc by congruence. by apply (wf_node c W).
  - intros x Nx. destruct (decide (x = w)) as [->|Hx].
    + rewrite Hr, Hc by done. rewrite (no_mention_count w (Post w)) by (done || apply Nat.eqb_refl). lia.
    + rewrite !Hc by congruence. by apply W.
  - rewrite !Hc by done. apply W.
Qed.

(** Publication: either the waiter is on the timer's list now, or it was
    stopped meanwhile and is posted. *)
Lemma wf_insert c id w v' n' ev s' :
  wf c -> window c !! w = Some id -> h_ n' = true ->
  updated id v' w n' ev (svc c) s' ->
  (impl_ n' <> None /\ (ev = [] \/ ev = [Earliest_changed]) \/ impl_ n' = None /\ ev = [Post w]) ->
  wf (mk_world s' (live c) (delete w (window c))).
Proof.
  intros W Hw Hh [E T N Tr Hi] Hev. destruct (wf_window c W w id Hw) as (Hid & n & Nw & In).
  pose proof (wf_pool_insert c id v' s' W Hid E T) as Hpool.
  pose proof E as E'. injection E' as Ea Eb Ec Ed Ee Ef.
  destruct (wf_node c W w n Nw) as (Rw & Pw & _). unfold posts_due in Pw. rewrite In, Hw in Pw.
  assert (Hc : forall e, e <> Earliest_changed -> e <> Post w ->
             count e (trace s') = count e (trace (svc c))).
  { intros e H1 H2. rewrite Tr, count_app. rewrite (count_none e ev); [lia|].
    destruct Hev as [[_ [->| ->]]|[_ ->]]; set_solver. }
  constructor; cbn [svc live window]; try done.
  - rewrite Ed. apply W.
  - intros x k. rewrite lookup_delete. case_decide as Ex; [done|]. intros Hx.
    destruct (wf_window c W x k Hx) as (Hk & m & Nm & Im). split; [done|]. exists m.
    by rewrite N, lookup_insert_ne.
  - intros x m. rewrite N, lookup_insert. unfold posts_due. cbn [window]. rewrite lookup_delete.
    case_decide as Ex; subst.
    + intros [= <-]. rewrite Hc by done. split; [done|]. split; [|done].
      rewrite Tr, count_app, Pw.
      destruct Hev as [[Hn [->| ->]]|[-> ->]]; unfold count;
        [by destruct (impl_ n')| |by rewrite filter_cons_True].
      rewrite filter_cons_False by done. by destruct (impl_ n').
    + intros Nx. rewrite !Hc by congruence. by apply (wf_node c W).
  - intros x. rewrite N, lookup_insert. case_decide as Ex; [done|]. intros Nx.
    rewrite !Hc by congruence. by apply W.
  - rewrite !Hc by done. rewrite N, map_size_insert_Some by eauto. apply W.
Qed.

Lemma count_pos e l : e ∈ l -> (0 < count e l)%nat.
Proof.
  intros H. unfold count. assert (Hx : e ∈ filter (fun x => x = e) l) by (by apply list_elem_of_filter).
  destruct (filter _ l); [by apply not_elem_of_nil in Hx|cbn; lia].
Qed.

Lemma count_zero e l : e ∉ l -> count e l = O.
Proof. intros H. apply count_none. intros x Hx ->. done. Qed.

(** A posted wait whose continuation has not been posted has its node alive,
    on no list. *)
Lemma posted_node c w :
  wf c -> Post w ∈ trace (svc c) -> Resume w ∉ trace (svc c) ->
  exists n, nodes (svc c) !! w = Some n /\ impl_ n = None /\ window c !! w = None.
Proof.
  intros W Hp Hr. apply count_pos in Hp. apply count_zero in Hr.
  destruct (nodes (svc c) !! w) as [n|] eqn:N.
  - exists n. split; [done|]. destruct (wf_node c W w n N) as (_ & P & _). unfold posts_due in P.
    destruct (impl_ n), (window c !! w); done || lia.
  - pose proof (wf_gone c W w N). lia.
Qed.

Lemma completion_op_wp w n (Q : unit -> service -> Prop) s :
  nodes s !! w = Some n ->
  Q tt (add_trace [Resume w; Work_finished] (with_node w (set_cb_ false n) s)) ->
  wp (completion_op w) Q s.
Proof.
  intros N HQ. unfold completion_op, reset_stop_cb. do 5 svc_step. by rewrite add_trace_app.
Qed.

Lemma wf_complete c w n :
  wf c -> nodes (svc c) !! w = Some n -> impl_ n = None -> window c !! w = None ->
  let s' := add_trace [Resume w; Work_finished] (with_node w (set_cb_ false n) (svc c)) in
  wf (mk_world (set_nodes (delete w (nodes s')) s') (live c) (window c)).
Proof.
  intros W N I Hw s'. destruct (wf_node c W w n N) as (Rw & Pw & _).
  unfold posts_due in Pw. rewrite I, Hw in Pw.
  assert (Nd : delete w (nodes s') = delete w (nodes (svc c))) by (cbn; by rewrite delete_insert_eq).
  assert (Tr : trace s' = trace (svc c) ++ [Resume w; Work_finished]) by done.
  assert (Hc : forall e, e <> Resume w -> e <> Work_finished ->
             count e (trace s') = count e (trace (svc c))).
  { intros e H1 H2. rewrite Tr, count_app.
    rewrite (count_none e [Resume w; Work_finished]); [lia|]. set_solver. }
  constructor; cbn [svc live window set_nodes nodes trace shutting_down_]; rewrite ?Nd.
  - rewrite <- Nd. apply inv_end_node.
    + apply inv_add_trace, inv_put_node; [apply W| |done]. intros m Nm. congruence.
    + cbn. rewrite lookup_insert_eq. by intros ? [= <-].
  - apply W.
  - destruct (wf_pool c W) as (l & Hp & Hl). exists l. split; [|done].
    by apply (pool_frame (svc c)).
  - intros x k Hx. destruct (wf_window c W x k Hx) as (Hk & m & Nm & Im). split; [done|].
    exists m. rewrite lookup_delete_ne; [done|]. intros <-. congruence.
  - intros x m [Hx Nx]%lookup_delete_Some. rewrite !Hc by congruence. by apply (wf_node c W).
  - intros x. rewrite lookup_delete. case_decide as Ex; subst.
    + intros _. rewrite Hc by done. rewrite Pw, Tr, count_app, Rw.
      unfold count. rewrite filter_cons_True by done. rewrite filter_cons_False by done. cbn. lia.
    + intros Nx. rewrite !Hc by congruence. by apply W.
  - rewrite Hc by done. rewrite Tr, count_app.
    change (count Work_finished [Resume w; Work_finished]) with 1%nat.
    rewrite map_size_delete_Some by eauto. pose proof (wf_work c W) as Hwk.
    assert (0 < size (nodes (svc c)))%nat; [|lia].
    apply Nat.neq_0_lt_0. intros Hz%map_size_empty_iff. rewrite Hz in N. by rewrite lookup_empty in N.
Qed.

Lemma wf_construct c l id s' l' :
  wf c -> pool_ok (svc c) l -> constructed (svc c) l id s' l' ->
  wf (mk_world s' ({[id]} ∪ live c) (window c)).
Proof.
  intros W Hp [Hi Hp' [nx F] Hout N [ids Tr] (E1 & E2 & E3 & E4) Oth _].
  assert (Hc : forall e, (forall k, e <> Freed k) -> count e (trace s') = count e (trace (svc c))).
  { intros e He. rewrite Tr, count_app. rewrite (count_none e (map Freed ids)); [lia|].
    intros x (k & -> & _)%list_elem_of_fmap. congruence. }
  assert (Old : forall k, k ∈ live c -> is_Some (timers s' !! k) /\ ~ pooled s' l' k).
  { intros k Hk. pose proof (live_not_pooled c k l W Hk Hp) as Hn.
    destruct (wf_live c k W Hk) as (p & _ & P & _).
    destruct (Oth k (view p) ltac:(by apply hview_lookup) Hn) as (_ & V & Hn'). by split; [exists (view p)|]. }
  constructor; cbn [svc live window]; try done.
  - rewrite E3. apply W.
  - exists l'. split; [done|]. intros k [->%elem_of_singleton|Hk]%elem_of_union; [|by apply Old].
    split; [by eauto|done].
  - intros w k Hw. rewrite N. destruct (wf_window c W w k Hw) as [Hk Hn]. split; [set_solver|done].
  - intros w n. rewrite N, !Hc by done. apply W.
  - intros w. rewrite N, !Hc by done. apply W.
  - rewrite N, !Hc by done. apply W.
Qed.

Lemma wf_destroy c l id s' l' :
  wf c -> pool_ok (svc c) l -> ~ waits c id -> destroyed (svc c) l id [] s' l' ->
  wf (mk_world s' (live c ∖ {[id]}) (window c)).
Proof.
  intros W Hp Hw [Hi Hp' Hin N Tr (E1 & E2 & E3 & E4) Oth _]. cbn in Tr. rewrite app_nil_r in Tr.
  assert (N' : nodes s' = nodes (svc c)).
  { apply map_eq. intros w. by rewrite N, decide_False by apply not_elem_of_nil. }
  constructor; cbn [svc live window]; rewrite ?N', ?Tr; try apply W; try done.
  - rewrite E3. apply W.
  - exists l'. split; [done|]. intros k [Hk Hne%not_elem_of_singleton]%elem_of_difference.
    pose proof (live_not_pooled c k l W Hk Hp) as Hn.
    destruct (wf_live c k W Hk) as (p & _ & P & _).
    destruct (Oth k (view p) Hne ltac:(by apply hview_lookup)) as (V & Hn'). split; [by exists (view p)|tauto].
  - intros w k Hwk. destruct (wf_window c W w k Hwk) as [Hk Hn]. split; [|done].
    apply elem_of_difference. split; [done|]. intros ->%elem_of_singleton. apply Hw. by exists w.
Qed.

Lemma wf_init self cb : wf (init_world self cb).
Proof.
  constructor; cbn; try done.
  - apply inv_init.
  - exists []. split; [|set_solver]. constructor; try done; [constructor|].
    intros id [H|[t H]]; [by apply not_elem_of_nil in H|done].
  - intros w _. cbn. lia.
Qed.

(** Operations that cancel: [effect]s on a timer that is not pooled. *)
Section cancels.
Context (c : world) (W : wf c).

Lemma effect_posts id v' L e s' :
  effect id v' L e (map Post L) (svc c) s' -> effect id v' L e (map Post L ++ []) (svc c) s'.
Proof. by rewrite app_nil_r. Qed.

Lemma wf_cancel id :
  id ∈ live c -> wp (cancel id) (fun _ s' => wf (mk_world s' (live c) (window c))) (svc c).
Proof using W.
  intros Hid. destruct (wf_live c id W Hid) as (p & l & P & _).
  pose proof (wf_inv c W) as Hi. unfold cancel. do 2 svc_step.
  destruct (might_have_pending_waits_ p) eqn:Hm; cbn [negb].
  2: { svc_step. by destruct c. }
  eapply cancel_timer_wp; [done..|]. rewrite Hm. intros s' Ef%effect_posts.
  eapply (wf_effect c id (view p)); [done|by apply hview_lookup| | | | |exact Ef].
  - intros l' Hp. by eapply live_not_pooled.
  - apply (lo_nodup _ _ (inv_lists _ Hi) id (view p)). by apply hview_lookup.
  - done.
  - by left.
Qed.

Lemma wf_cancel_one id :
  id ∈ live c -> wp (cancel_one id) (fun _ s' => wf (mk_world s' (live c) (window c))) (svc c).
Proof using W.
  intros Hid. destruct (wf_live c id W Hid) as (p & l & P & _).
  pose proof (wf_inv c W) as Hi. unfold cancel_one. do 2 svc_step.
  destruct (might_have_pending_waits_ p) eqn:Hm; cbn [negb].
  2: { svc_step. by destruct c. }
  eapply cancel_one_waiter_wp; [done..|]. rewrite Hm.
  destruct (waiters_ p) as [|w ws] eqn:Wp; [by destruct c|]. intros s' Ef.
  apply (effect_posts _ _ [w]) in Ef.
  eapply (wf_effect c id (view p)); [done|by apply hview_lookup| | | | |exact Ef].
  - intros l' Hp. by eapply live_not_pooled.
  - apply NoDup_singleton.
  - intros x ->%list_elem_of_singleton. cbn. rewrite Wp. set_solver.
  - by left.
Qed.

Lemma wf_expires_at id t :
  id ∈ live c -> wp (expires_at id t) (fun _ s' => wf (mk_world s' (live c) (window c))) (svc c).
Proof using W.
  intros Hid. destruct (wf_live c id W Hid) as (p & l & P & _).
  pose proof (wf_inv c W) as Hi. eapply expires_at_wp; [done..|]. intros p' s' P' Ef.
  eapply (wf_effect c id (view p)); [done|by apply hview_lookup| | | | |exact Ef].
  - intros l' Hp. by eapply live_not_pooled.
  - apply (lo_nodup _ _ (inv_lists _ Hi) id (view p)). by apply hview_lookup.
  - done.
  - apply notice_cases.
Qed.

Lemma wf_canceller w n :
  nodes (svc c) !! w = Some n ->
  wp (canceller w) (fun _ s' => wf (mk_world s' (live c) (window c))) (svc c).
Proof using W.
  intros N. pose proof (wf_inv c W) as Hi. eapply cancel_waiter_wp; [done..|].
  destruct (impl_ n) as [id|] eqn:I; [|by destruct c]. intros p s' P Hw Ef.
  apply (effect_posts _ _ [w]) in Ef.
  eapply (wf_effect c id (view p)); [done|by apply hview_lookup| | | | |exact Ef].
  - intros l' Hp. eapply busy_not_pooled; [done|by apply hview_lookup|]. right. cbn.
    intros Hnil. rewrite Hnil in Hw. by apply not_elem_of_nil in Hw.
  - apply NoDup_singleton.
  - by intros x ->%list_elem_of_singleton.
  - by left.
Qed.

Lemma wf_insert_waiter id w :
  window c !! w = Some id ->
  wp (insert_waiter id w) (fun _ s' => wf (mk_world s' (live c) (delete w (window c)))) (svc c).
Proof using W.
  intros Hw. destruct (wf_window c W w id Hw) as (Hid & n & N & I).
  destruct (wf_live c id W Hid) as (p & l & P & _).
  destruct (wf_node c W w n N) as (_ & _ & Hh).
  eapply insert_waiter_wp; [apply W|done..|]. destruct (stop_requested n (svc c)).
  - intros s' U. eapply wf_insert; [done|done| |exact U|]; [done|]. right. by split.
  - intros p' s' P' U. eapply wf_insert; [done|done| |exact U|]; [done|]. left. split; [done|]. apply notice_cases.
Qed.
End cancels.

Lemma wf_request_stop c k :
  wf c -> wf (mk_world (set_stops ({[k]} ∪ stops (svc c)) (svc c)) (live c) (window c)).
Proof.
  intros [Hi Hup (l & Hp & Hl) Hwi Hno Hgo Hwo]. constructor; try done.
  - by destruct Hi.
  - exists l. split; [|done]. by destruct Hp.
Qed.

(** [destroy] of a timer with waiters is [cancel] and then [destroy] of one without. *)
Lemma destroy_cancels tid id p n s s1 p1 :
  shutting_down_ s = false -> impls (hst s) !! id = Some p -> might_have_pending_waits_ p = true ->
  cancel id s = Ok (n, s1) -> shutting_down_ s1 = false ->
  impls (hst s1) !! id = Some p1 -> might_have_pending_waits_ p1 = false ->
  destroy tid id s = destroy tid id s1.
Proof.
  intros Hs P Hm E Hs1 P1 Hm1.
  assert (I : forall s0 q, impls (hst s0) !! id = Some q -> impl id s0 = Ok (q, s0)).
  { intros s0 q Q. unfold impl, on_heap, get_impl, zoom, get, deref, mbind, M_bind; cbn. rewrite Q. by destruct s0. }
  assert (C : cancel_timer id s = Ok (n, s1)).
  { rewrite <- E. unfold cancel, mbind, M_bind. by rewrite (I s p P), Hm. }
  assert (C1 : cancel_timer id s1 = Ok (O, s1)).
  { unfold cancel_timer, mbind, M_bind. by rewrite (I s1 p1 P1), Hm1. }
  unfold destroy, destroy_impl, mbind, M_bind, get. cbv beta iota. rewrite Hs, Hs1. cbv beta iota. by rewrite Hs, Hs1, C, C1.
Qed.

Lemma wf_destroy_idle c tid id p s' :
  wf c -> id ∈ live c -> ~ waits c id -> impls (hst (svc c)) !! id = Some p -> waiters_ p = [] ->
  destroy tid id (svc c) = Ok (tt, s') -> wf (mk_world s' (live c ∖ {[id]}) (window c)).
Proof.
  intros W Hid Hw P Wp E. pose proof (wf_inv c W) as Hi. destruct (wf_pool c W) as (l & Hp & _).
  refine (wp_result (destroy tid id) (fun _ s' => wf (mk_world s' (live c ∖ {[id]}) (window c))) _ _ _ _ E).
  eapply (destroy_wp tid id p l); [done|done|apply W|done|by eapply live_not_pooled| |]; rewrite Wp; [done|].
  intros s0 l0 D. by eapply wf_destroy.
Qed.

Lemma wf_destroy_any c tid id p s' :
  wf c -> id ∈ live c -> ~ waits c id -> impls (hst (svc c)) !! id = Some p ->
  (waiters_ p <> [] -> might_have_pending_waits_ p = true) ->
  destroy tid id (svc c) = Ok (tt, s') -> wf (mk_world s' (live c ∖ {[id]}) (window c)).
Proof.
  intros W Hid Hw P Hm E. destruct (decide (waiters_ p = [])) as [Wp|Wp]; [by eapply wf_destroy_idle|].
  specialize (Hm Wp). pose proof (wf_inv c W) as Hi.
  assert (C : wp (cancel id) (fun _ s1 => wf (mk_world s1 (live c) (window c))
    /\ (env s1 = env (svc c) /\ timers s1 !! id = Some (idle (view p)))) (svc c)).
  { apply wp_and; [by apply wf_cancel|]. unfold cancel. do 2 svc_step. rewrite Hm. cbn [negb].
    eapply cancel_timer_wp; [done..|]. rewrite Hm. intros s1 [E1 T1 _ _ _]. split; [done|].
    rewrite T1. apply lookup_insert_eq. }
  apply wp_ok in C as (n & s1 & Ec & W1 & E1 & V1). apply hview_inv in V1 as (p1 & P1 & V1).
  injection V1 as _ _ Hm1 _ Hw1 _. pose proof (wf_up c W) as Hs.
  assert (Hs1 : shutting_down_ s1 = false) by (injection E1; congruence).
  rewrite (destroy_cancels tid id p n (svc c) s1 p1) in E by done.
  by eapply (wf_destroy_idle (mk_world s1 (live c) (window c)) tid id p1).
Qed.

Lemma wf_step c c' : wf c -> step c c' -> wf c'.
Proof.
  intros W St. pose proof (wf_inv c W) as Hi.
  destruct St as [c tid fresh id s' F E|c tid id v s' Hid Hw V Wv E|c id t n s' Hid Hw E
    |c id n s' Hid Hw E|c id n s' Hid Hw E|c id w tok now now' s' Hid N M E
    |c id w tok now now' s' s'' Hid N M E E2|c id w s' Hw E|c k s' E|c w n s' N A S E
    |c now n s' E|c w s' s'' Hp Hr E E2].
  - destruct (wf_pool c W) as (l & Hp & _). refine (wp_result _
      (fun id s' => wf (mk_world s' ({[id]} ∪ live c) (window c))) _ _ _ _ E).
    apply (construct_wp tid fresh l); [done..|]. intros id0 s0 l0 Cn. by eapply wf_construct.
  - apply hview_inv in V as (p & P & <-). by eapply wf_destroy_any.
  - exact (wp_result _ _ _ _ _ (wf_expires_at c W id t Hid) E).
  - exact (wp_result _ _ _ _ _ (wf_cancel c W id Hid) E).
  - exact (wp_result _ _ _ _ _ (wf_cancel_one c W id Hid) E).
  - destruct (wf_live c id W Hid) as (p & l & P & _).
    refine (wp_result _ (fun b s' => b = true -> wf (mk_world s' (live c) (<[w:=id]> (window c)))) _ _ _ _ E eq_refl).
    eapply begin_wait_wp; [done..| |]; [|done]. intros s0 U _.
    by eapply (wf_wait c id w _ (first_node tok (svc_ p))).
  - destruct (wf_live c id W Hid) as (p & l & P & _). injection E2 as <-.
    refine (wp_result _ (fun b s' => b = false ->
      wf (mk_world (set_nodes (delete w (nodes s')) s') (live c) (window c))) _ _ _ _ E eq_refl).
    eapply begin_wait_wp; [done..| |]; [done|]. intros _ n s0 E0 T0 N0 Tr0 I0 X0 Hi0 _.
    by eapply wf_wait_expired.
  - exact (wp_result _ _ _ _ _ (wf_insert_waiter c W id w Hw) E).
  - injection E as <-. by apply wf_request_stop.
  - exact (wp_result _ _ _ _ _ (wf_canceller c W w n N) E).
  - refine (wp_result _ (fun _ s' => wf (mk_world s' (live c) (window c))) _ _ _ _ E).
    apply process_expired_wp; [done|]. intros ts s0 Pr. by eapply wf_processed.
  - destruct (posted_node c w W Hp Hr) as (n & N & I & Hw). injection E2 as <-.
    refine (wp_result _ (fun _ s' => wf (mk_world (set_nodes (delete w (nodes s')) s') (live c) (window c))) _ _ _ _ E).
    eapply completion_op_wp; [done|]. by apply wf_complete.
Qed.

Lemma reachable_wf self cb c : reachable self cb c -> wf c.
Proof.
  intros R. remember (init_world self cb) as c0 eqn:E. unfold reachable in R. rewrite <- E in R.
  assert (W0 : wf c0) by (subst; apply wf_init). clear E.
  induction R as [|c0 c1 c2 S R IH]; [done|]. apply IH. by eapply wf_step.
Qed.
