(* ===== verification/TimerClaims.v ===== *)
(** The contract of the timer service: what each operation does in every
    reachable state, and the life of a wait. *)

From stdpp Require Import gmap sorting.
From S2P Require Import Prelude StateMonad TimerHeap TimerService TimerServiceInv TimerServiceSpec.
From S2P Require Import TimerShutdown TimerSteps.

(** * A reachable state to apply the theorems to

    Timer 100 (due at 50) with the waiters 7, which observes stop state 3, and
    8; timer 101 (due at 20) with waiter 9. *)

Fixpoint exec (l : list (world -> option world)) (c : world) : option world :=
  match l with
  | [] => Some c
  | f :: l => match f c with
              | Some c' => exec l c'
              | None => None
              end
  end.

Definition do_construct (tid fresh : nat) (c : world) : option world :=
  match timers (svc c) !! fresh, construct tid fresh (svc c) with
  | None, Ok (id, s') => Some (mk_world s' ({[id]} ∪ live c) (window c))
  | _, _ => None
  end.
Definition do_expires_at (id : nat) (t : Z) (c : world) : option world :=
  if bool_decide (id ∈ live c) && bool_decide (window c = ∅) then
    match expires_at id t (svc c) with
    | Ok (_, s') => Some (mk_world s' (live c) (window c))
    | _ => None
    end
  else None.
Definition do_wait (id w : nat) (token : option nat) (now : Z) (c : world) : option world :=
  if bool_decide (id ∈ live c) && negb (existsb (mentions w) (trace (svc c))) then
    match nodes (svc c) !! w, begin_wait id w token now now (svc c) with
    | None, Ok (true, s') => Some (mk_world s' (live c) (<[w := id]> (window c)))
    | _, _ => None
    end
  else None.
Definition do_insert (id w : nat) (c : world) : option world :=
  match window c !! w with
  | Some k => if (k =? id)%nat then
                match insert_waiter id w (svc c) with
                | Ok (_, s') => Some (mk_world s' (live c) (delete w (window c)))
                | _ => None
                end
              else None
  | None => None
  end.
Definition do_stop (k : nat) (c : world) : option world :=
  match request_stop k (svc c) with
  | Ok (_, s') => Some (mk_world s' (live c) (window c))
  | _ => None
  end.
Definition do_canceller (w : nat) (c : world) : option world :=
  match nodes (svc c) !! w with
  | Some n =>
      if cb_active_ n && stop_requested n (svc c) then
        match canceller w (svc c) with
        | Ok (_, s') => Some (mk_world s' (live c) (window c))
        | _ => None
        end
      else None
  | None => None
  end.

Lemma do_construct_step tid fresh c c' : do_construct tid fresh c = Some c' -> step c c'.
Proof.
  unfold do_construct. destruct (timers (svc c) !! fresh) eqn:F; [done|].
  destruct (construct tid fresh (svc c)) as [[id s']| |] eqn:E; [|done..].
  intros [= <-]. by eapply st_construct.
Qed.
Lemma do_expires_at_step id t c c' : do_expires_at id t c = Some c' -> step c c'.
Proof.
  unfold do_expires_at. destruct (bool_decide _ && bool_decide _) eqn:B; [|done].
  apply andb_prop in B as [B1%bool_decide_eq_true B2%bool_decide_eq_true].
  destruct (expires_at id t (svc c)) as [[n s']| |] eqn:E; [|done..].
  intros [= <-]. eapply st_expires_at; [done| |done]. intros [x Hx]. by rewrite B2 in Hx.
Qed.
Lemma do_wait_step id w token now c c' : do_wait id w token now c = Some c' -> step c c'.
Proof.
  unfold do_wait. destruct (bool_decide _ && negb _) eqn:B; [|done].
  apply andb_prop in B as [B1%bool_decide_eq_true B2%negb_true_iff].
  destruct (nodes (svc c) !! w) eqn:N; [done|].
  destruct (begin_wait id w token now now (svc c)) as [[[|] s']| |] eqn:E; [|done..].
  intros [= <-]. by eapply st_wait.
Qed.
Lemma do_insert_step id w c c' : do_insert id w c = Some c' -> step c c'.
Proof.
  unfold do_insert. destruct (window c !! w) as [k|] eqn:Hw; [|done].
  destruct (Nat.eqb_spec k id) as [->|]; [|done].
  destruct (insert_waiter id w (svc c)) as [[[] s']| |] eqn:E; [|done..].
  intros [= <-]. by eapply st_insert.
Qed.
Lemma do_stop_step k c c' : do_stop k c = Some c' -> step c c'.
Proof. unfold do_stop. cbn. intros [= <-]. by eapply st_request_stop. Qed.
Lemma do_canceller_step w c c' : do_canceller w c = Some c' -> step c c'.
Proof.
  unfold do_canceller. destruct (nodes (svc c) !! w) as [n|] eqn:N; [|done].
  destruct (cb_active_ n && stop_requested n (svc c)) eqn:B; [|done].
  apply andb_prop in B as [B1 B2].
  destruct (canceller w (svc c)) as [[[] s']| |] eqn:E; [|done..].
  intros [= <-]. by eapply st_canceller.
Qed.

Lemma exec_reachable l self cb c0 c :
  reachable self cb c0 -> Forall (fun f => forall a b, f a = Some b -> step a b) l ->
  exec l c0 = Some c -> reachable self cb c.
Proof.
  intros R Hl. revert c0 R. induction Hl as [|f l Hf Hl IH]; intros c0 R; cbn.
  - by intros [= <-].
  - destruct (f c0) as [c1|] eqn:E; [|done]. apply IH. eapply rtc_r; [exact R|by apply Hf].
Qed.

Definition demo_ops : list (world -> option world) :=
  [do_construct 1 100; do_expires_at 100 50; do_wait 100 7 (Some 3%nat) 10; do_insert 100 7;
   do_wait 100 8 None 11; do_insert 100 8;
   do_construct 1 101; do_expires_at 101 20; do_wait 101 9 None 12; do_insert 101 9].
Definition demo : world := default (init_world 0 true) (exec demo_ops (init_world 0 true)).

Ltac step_ops :=
  repeat first [ apply Forall_nil_2 | apply Forall_cons_2; [intros ? ?|] ];
  eauto using do_construct_step, do_expires_at_step, do_wait_step, do_insert_step, do_stop_step,
    do_canceller_step.

Lemma demo_reachable : reachable 0 true demo.
Proof.
  apply (exec_reachable demo_ops 0 true (init_world 0 true)); [constructor|step_ops|].
  vm_compute. reflexivity.
Qed.

(** * The life of a wait *)

(** C4: In every reachable state, under any interleaving of waits, stop
    requests, cancellations, changes of expiry and firings, the completion of a
    wait is posted to the scheduler at most once and its coroutine resumed at
    most once; a wait that is published on a timer or about to be has not been
    posted, any other live one has been posted exactly once; and the number of
    waits in flight is the number of [work_started] calls not yet balanced by
    [work_finished]. *)
Theorem wait_completes_exactly_once self cb c w :
  reachable self cb c ->
  (count (Post w) (trace (svc c)) <= 1)%nat /\
  (count (Resume w) (trace (svc c)) <= 1)%nat /\
  (forall n, nodes (svc c) !! w = Some n ->
     count (Post w) (trace (svc c)) =
       if decide (impl_ n = None /\ window c !! w = None) then 1%nat else 0%nat) /\
  count Work_started (trace (svc c)) =
    (count Work_finished (trace (svc c)) + size (nodes (svc c)))%nat.
Proof.
  intros W%reachable_wf.
  assert (Hn : forall n, nodes (svc c) !! w = Some n -> count (Post w) (trace (svc c)) =
       if decide (impl_ n = None /\ window c !! w = None) then 1%nat else 0%nat).
  { intros n N. destruct (wf_node c W w n N) as (_ & -> & _). unfold posts_due.
    case_decide as D.
    - destruct D as [-> ->]. done.
    - destruct (impl_ n), (window c !! w); tauto. }
  split; [|split; [|split; [done|apply W]]].
  - destruct (nodes (svc c) !! w) as [n|] eqn:N.
    + rewrite (Hn n eq_refl). case_decide; lia.
    + pose proof (wf_gone c W w N). lia.
  - destruct (nodes (svc c) !! w) as [n|] eqn:N.
    + destruct (wf_node c W w n N) as (-> & _). lia.
    + pose proof (wf_gone c W w N). lia.
Qed.

Lemma wait_completes_exactly_once_witness :
  (count (Post 7) (trace (svc demo)) <= 1)%nat /\
  (count (Resume 7) (trace (svc demo)) <= 1)%nat /\
  (forall n, nodes (svc demo) !! 7%nat = Some n ->
     count (Post 7) (trace (svc demo)) =
       if decide (impl_ n = None /\ window demo !! 7%nat = None) then 1%nat else 0%nat) /\
  count Work_started (trace (svc demo)) =
    (count Work_finished (trace (svc demo)) + size (nodes (svc demo)))%nat.
Proof. exact (wait_completes_exactly_once 0 true demo 7 demo_reachable). Defined.

(** What may be run in a state: the operations of the transition system, with
    their preconditions. *)
Inductive request : world -> Type :=
| rq_construct c (tid fresh : nat) : timers (svc c) !! fresh = None -> request c
| rq_destroy c (tid id : nat) v : id ∈ live c -> timers (svc c) !! id = Some v ->
    (v_waiters v <> [] -> v_might v = true) -> request c
| rq_expires_at c (id : nat) (t : Z) : id ∈ live c -> request c
| rq_cancel c (id : nat) : id ∈ live c -> request c
| rq_cancel_one c (id : nat) : id ∈ live c -> request c
| rq_wait c (id w : nat) (token : option nat) (now now' : Z) :
    id ∈ live c -> nodes (svc c) !! w = None -> request c
| rq_insert c (id w : nat) : window c !! w = Some id -> request c
| rq_canceller c (w : nat) n : nodes (svc c) !! w = Some n -> request c
| rq_process c (now : Z) : request c
| rq_complete c (w : nat) : Post w ∈ trace (svc c) -> Resume w ∉ trace (svc c) -> request c.

Definition discard {A} (m : SM A) : SM unit := _ ← m; skip.

Definition serve {c} (r : request c) : SM unit :=
  match r with
  | rq_construct _ tid fresh _ => discard (construct tid fresh)
  | rq_destroy _ tid id _ _ _ _ => destroy tid id
  | rq_expires_at _ id t _ => discard (expires_at id t)
  | rq_cancel _ id _ => discard (cancel id)
  | rq_cancel_one _ id _ => discard (cancel_one id)
  | rq_wait _ id w token now now' _ _ => discard (begin_wait id w token now now')
  | rq_insert _ id w _ => insert_waiter id w
  | rq_canceller _ w _ _ => canceller w
  | rq_process _ now => discard (process_expired now)
  | rq_complete _ w _ _ => completion_op w
  end.

Lemma wp_discard {A} (m : SM A) s : wp m (fun _ _ => True) s -> wp (discard m) (fun _ _ => True) s.
Proof. intros H. unfold discard. wp_step. eapply wp_mono; [exact H|]. done. Qed.

Lemma wp_true {A} (m : SM A) Q s : wp m Q s -> wp m (fun _ _ => True) s.
Proof. intros H. by eapply wp_mono. Qed.

(** Memory safety of the timer service: in every reachable state every
    permitted operation returns, without reading or writing an implementation
    or a waiter node that has been deleted, and without an access outside the
    heap vector; all its loops terminate. *)
Theorem timer_service_never_faults self cb c (r : request c) :
  reachable self cb c -> exists s', serve r (svc c) = Ok (tt, s').
Proof.
  intros W%reachable_wf. pose proof (wf_inv c W) as Hi.
  enough (H : wp (serve r) (fun _ _ => True) (svc c)).
  { apply wp_ok in H as ([] & s' & E & _). by exists s'. }
  destruct r as [c tid fresh F|c tid id v Hid V Wv|c id t Hid|c id Hid|c id Hid
    |c id w tok now now' Hid N|c id w Hw|c w n N|c now|c w Hp Hr]; cbn [serve].
  - destruct (wf_pool c W) as (l & Hp & _). apply wp_discard. by eapply construct_wp.
  - apply hview_inv in V as (p & P & <-). destruct (wf_pool c W) as (l & Hp & _). cbn in Wv.
    eapply destroy_wp; [done|done|apply W|done|by eapply live_not_pooled| |done]. exact Wv.
  - apply wp_discard. eapply wp_true, wf_expires_at; done.
  - apply wp_discard. eapply wp_true, wf_cancel; done.
  - apply wp_discard. eapply wp_true, wf_cancel_one; done.
  - destruct (wf_live c id W Hid) as (p & l & P & _). apply wp_discard. by eapply begin_wait_wp.
  - eapply wp_true, wf_insert_waiter; done.
  - eapply wp_true, wf_canceller; done.
  - apply wp_discard. by apply process_expired_wp.
  - destruct (posted_node c w W Hp Hr) as (n & N & _). by eapply completion_op_wp.
Qed.

Lemma timer_service_never_faults_witness :
  exists s', serve (rq_process demo 60) (svc demo) = Ok (tt, s').
Proof. exact (timer_service_never_faults 0 true demo (rq_process demo 60) demo_reachable). Defined.

(** * The operations *)

Lemma nodes_fired s ts w :
  inv s -> NoDup ts ->
  upd_nodes (fun n => set_ec_ success (set_impl_ None n)) (fired (timers s) ts) (nodes s) !! w =
    if decide (w ∈ fired (timers s) ts) then (fun n => set_ec_ success (set_impl_ None n)) <$> nodes s !! w
    else nodes s !! w.
Proof. intros Hi Hd. apply lookup_upd_nodes. eapply fired_nodup; [apply Hi|done]. Qed.

(** C33: [process_expired] fires exactly the timers that are due: there is a
    list of them, sorted by expiry, whose waiters (timer by timer, oldest
    first) are posted with a success result and counted; those timers become
    idle, every other timer and waiter is untouched, and every timer still in
    the heap is due later. *)
Theorem process_expired_fires_due now s :
  inv s ->
  exists ts s', process_expired now s = Ok (length (fired (timers s) ts), s') /\
    (forall id, id ∈ ts <-> exists v, timers s !! id = Some v /\ v_armed v = true /\ v_expiry v <= now) /\
    StronglySorted (fun a b => expiry_of (timers s) a <= expiry_of (timers s) b) ts /\
    trace s' = trace s ++ map Post (fired (timers s) ts) /\
    (forall id, timers s' !! id = if decide (id ∈ ts) then idle <$> timers s !! id else timers s !! id) /\
    (forall w, nodes s' !! w =
       if decide (w ∈ fired (timers s) ts) then (fun n => set_ec_ success (set_impl_ None n)) <$> nodes s !! w
       else nodes s !! w) /\
    (forall id v, timers s' !! id = Some v -> v_armed v = true -> now < v_expiry v) /\
    inv s'.
Proof.
  intros Hi.
  assert (H : wp (process_expired now) (fun n s' => exists ts, n = length (fired (timers s) ts) /\
                processed now ts s s') s).
  { apply process_expired_wp; [done|]. intros ts s' P. by exists ts. }
  apply wp_ok in H as (n & s' & E & ts & -> & [[Dx Dn Ds] Env Tr T N Hi']).
  exists ts, s'. do 5 (split; [done|]). split; [|split; [|done]].
  - intros w. rewrite N. by apply nodes_fired.
  - intros id v. rewrite T. case_decide as Hin.
    + intros V A. destruct (timers s !! id); [|done]. injection V as <-. done.
    + intros V A. destruct (Z.lt_ge_cases now (v_expiry v)); [done|].
      destruct Hin. apply Dx. by exists v.
Qed.

(** [nearest_expiry] is the least expiry of the timers in the heap, and
    the greatest representable time when there is none; [empty] is true
    exactly when that value is the greatest representable time. *)
Theorem nearest_expiry_is_minimum s :
  inv s ->
  (forall id v, timers s !! id = Some v -> v_armed v = true -> nearest_expiry s <= v_expiry v) /\
  ((exists id v, timers s !! id = Some v /\ v_armed v = true /\ v_expiry v = nearest_expiry s) \/
   (forall id v, timers s !! id = Some v -> v_armed v = false) /\ nearest_expiry s = int64_max) /\
  (empty s = true <-> nearest_expiry s = int64_max).
Proof.
  intros Hi. pose proof (inv_heap s Hi) as Hh. unfold nearest_expiry, empty.
  rewrite (inv_cached s Hi). split; [|split; [|apply Z.eqb_eq]].
  - intros id v V A. destruct (armed_entry _ id v Hh (inv_times s Hi) V A) as (e & He & _ & <-).
    destruct (heap_ (hst s)) as [|r l] eqn:R; [by apply not_elem_of_nil in He|].
    cbn. eapply root_is_min; [done|exact R|by rewrite R].
  - destruct (heap_ (hst s)) as [|r l] eqn:R; cbn.
    + right. split; [|done]. intros id v V. apply not_true_is_false. intros A.
      destruct (armed_entry _ id v Hh (inv_times s Hi) V A) as (e & He & _).
      rewrite R in He. by apply not_elem_of_nil in He.
    + left. destruct (entry_armed _ r Hh (inv_times s Hi)) as (p & P & A & X); [rewrite R; set_solver|].
      exists (timer_ r), (view p). split; [by apply hview_lookup|]. done.
Qed.

Lemma demo_inv : inv (svc demo).
Proof. exact (wf_inv demo (reachable_wf 0 true demo demo_reachable)). Qed.

Lemma process_expired_fires_due_witness :
  let s := svc demo in
  exists ts s', process_expired 60 s = Ok (length (fired (timers s) ts), s') /\
    (forall id, id ∈ ts <-> exists v, timers s !! id = Some v /\ v_armed v = true /\ v_expiry v <= 60) /\
    StronglySorted (fun a b => expiry_of (timers s) a <= expiry_of (timers s) b) ts /\
    trace s' = trace s ++ map Post (fired (timers s) ts) /\
    (forall id, timers s' !! id = if decide (id ∈ ts) then idle <$> timers s !! id else timers s !! id) /\
    (forall w, nodes s' !! w =
       if decide (w ∈ fired (timers s) ts) then (fun n => set_ec_ success (set_impl_ None n)) <$> nodes s !! w
       else nodes s !! w) /\
    (forall id v, timers s' !! id = Some v -> v_armed v = true -> 60 < v_expiry v) /\
    inv s'.
Proof. exact (process_expired_fires_due 60 (svc demo) demo_inv). Defined.

Lemma nearest_expiry_is_minimum_witness :
  nearest_expiry (svc demo) = 20 /\
  (forall id v, timers (svc demo) !! id = Some v -> v_armed v = true -> nearest_expiry (svc demo) <= v_expiry v).
Proof.
  split; [vm_compute; reflexivity|].
  exact (proj1 (nearest_expiry_is_minimum (svc demo) demo_inv)).
Defined.

(** [cancel] on a timer whose flag is set whenever it is in the heap
    completes every waiter of the timer, oldest first, with a canceled result,
    returns their number, and leaves the timer idle; [cancel_one] does so for
    the oldest waiter alone, and takes the timer out of the heap when it was
    the last.  Other timers and waiters are untouched. *)
Theorem cancel_completes_waiters s id v :
  inv s -> timers s !! id = Some v -> (v_armed v = true -> v_might v = true) ->
  (exists s', cancel id s = Ok (length (v_waiters v), s') /\
     effect id (idle v) (v_waiters v) canceled (map Post (v_waiters v)) s s') /\
  match v_waiters v with
  | [] => cancel_one id s = Ok (O, s)
  | w :: ws => exists s', cancel_one id s = Ok (1%nat, s') /\
      effect id (retire_view (with_waiters ws v)) [w] canceled [Post w] s s'
  end.
Proof.
  intros Hi V Hf. apply hview_inv in V as V'. destruct V' as (p & P & <-). cbn in Hf.
  assert (Hidle : might_have_pending_waits_ p = false -> waiters_ p = [] /\ idle (view p) = view p).
  { intros M. destruct (in_heap p) eqn:A; [by rewrite Hf in M|]. split.
    - destruct (waiters_ p) eqn:W; [done|]. pose proof (lo_armed _ _ (inv_lists s Hi) _ _ V) as H.
      cbn in H. rewrite W, A in H. by specialize (H ltac:(done)).
    - destruct (waiters_ p) eqn:W; [unfold idle, view; cbn; by rewrite A, M, W|].
      pose proof (lo_armed _ _ (inv_lists s Hi) _ _ V) as H.
      cbn in H. rewrite W, A in H. by specialize (H ltac:(done)). }
  split.
  - assert (H : wp (cancel id) (fun n s' => n = length (waiters_ p) /\
      effect id (idle (view p)) (waiters_ p) canceled (map Post (waiters_ p)) s s') s).
    { unfold cancel. do 2 svc_step. destruct (might_have_pending_waits_ p) eqn:M; cbn [negb].
      - eapply cancel_timer_wp; [done..|]. rewrite M. done.
      - destruct (Hidle eq_refl) as [W I]. svc_step. rewrite W, I. split; [done|].
        constructor; try done.
        + symmetry. by apply insert_id.
        + by rewrite app_nil_r. }
    apply wp_ok in H as (n & s' & E & -> & Ef). by exists s'.
  - cbn [v_waiters view].
    assert (H : wp (cancel_one id) (fun n s' => match waiters_ p with
      | [] => n = O /\ s' = s
      | w :: ws => n = 1%nat /\ effect id (retire_view (with_waiters ws (view p))) [w] canceled [Post w] s s'
      end) s).
    { unfold cancel_one. do 2 svc_step. destruct (might_have_pending_waits_ p) eqn:M; cbn [negb].
      - eapply cancel_one_waiter_wp; [done..|]. rewrite M. destruct (waiters_ p); done.
      - destruct (Hidle eq_refl) as [W I]. svc_step. by rewrite W. }
    destruct (waiters_ p) as [|w ws]; apply wp_ok in H as (n & s' & E & -> & Ef); [by subst|by exists s'].
Qed.

Lemma cancel_completes_waiters_witness :
  exists v, timers (svc demo) !! 100%nat = Some v /\ v_waiters v = [7%nat; 8%nat] /\
  (exists s', cancel 100 (svc demo) = Ok (length (v_waiters v), s') /\
     effect 100 (idle v) (v_waiters v) canceled (map Post (v_waiters v)) (svc demo) s').
Proof.
  eexists. split; [vm_compute; reflexivity|]. split; [reflexivity|].
  exact (proj1 (cancel_completes_waiters (svc demo) 100 (tv 50 true true 0 [7%nat; 8%nat] None)
    demo_inv ltac:(vm_compute; reflexivity) ltac:(reflexivity))).
Defined.

(** A stop request cancels only its own waiter: the stop callback of a
    published waiter takes it off its timer's list and posts it with a canceled
    result, the other waiters of the timer stay on the list in their order and
    the timer stays in the heap unless that was its last waiter; the callback
    of a waiter that is not published changes nothing. *)
Theorem stop_cancels_only_its_waiter s w n :
  inv s -> nodes s !! w = Some n ->
  match impl_ n with
  | None => canceller w s = Ok (tt, s)
  | Some id => exists v s', timers s !! id = Some v /\ w ∈ v_waiters v /\
      canceller w s = Ok (tt, s') /\
      effect id (retire_view (with_waiters (filter (fun x => x <> w) (v_waiters v)) v))
        [w] canceled [Post w] s s'
  end.
Proof.
  intros Hi N.
  assert (H : wp (canceller w) (fun _ s' => match impl_ n with
    | None => s' = s
    | Some id => exists v, timers s !! id = Some v /\ w ∈ v_waiters v /\
        effect id (retire_view (with_waiters (filter (fun x => x <> w) (v_waiters v)) v))
          [w] canceled [Post w] s s'
    end) s).
  { eapply cancel_waiter_wp; [done..|]. destruct (impl_ n) as [id|]; [|done].
    intros p s' P Hw Ef. exists (view p). split; [by apply hview_lookup|done]. }
  apply wp_ok in H as ([] & s' & E & H). destruct (impl_ n) as [id|]; [|by subst].
  destruct H as (v & V & Hw & Ef). by exists v, s'.
Qed.

Lemma stop_cancels_only_its_waiter_witness :
  exists v s', timers (svc demo) !! 100%nat = Some v /\ 7%nat ∈ v_waiters v /\
      canceller 7 (svc demo) = Ok (tt, s') /\
      effect 100 (retire_view (with_waiters (filter (fun x => x <> 7%nat) (v_waiters v)) v))
        [7%nat] canceled [Post 7] (svc demo) s'.
Proof.
  exact (stop_cancels_only_its_waiter (svc demo) 7
    (mk_node (Some 100%nat) 0 true (Some 3%nat) success true) demo_inv
    ltac:(vm_compute; reflexivity)).
Defined.

(** [expires_at] sets the expiry, cancels the waiters of the timer and
    returns their number; a timer in the heap stays there under its new
    expiry.  [expires_after] is [expires_at] of now plus the duration, clamped
    to the range of the clock: never in the past for a positive duration, and
    the least time point otherwise. *)
Theorem expires_reschedules s id v t d now :
  inv s -> timers s !! id = Some v -> 0 <= now <= int64_max -> d <= int64_max ->
  (exists s' b, expires_at id t s = Ok (length (v_waiters v), s') /\
     effect id (reset_expiry t v) (v_waiters v) canceled (map Post (v_waiters v) ++ notice b s) s s') /\
  expires_after id d now s = expires_at id (after d now) s /\
  int64_min <= after d now <= int64_max /\
  (0 < d -> after d now = Z.min (now + d) int64_max) /\
  (d <= 0 -> after d now = int64_min).
Proof.
  intros Hi V Hn Hd. apply hview_inv in V as (p & P & <-). split; [|split; [done|]].
  - assert (H : wp (expires_at id t) (fun n s' => n = length (waiters_ p) /\
      exists b, effect id (reset_expiry t (view p)) (waiters_ p) canceled
        (map Post (waiters_ p) ++ notice b s) s s') s).
    { eapply expires_at_wp; [done..|]. intros p' s' P' Ef. split; [done|]. by exists (at_root p'). }
    apply wp_ok in H as (n & s' & E & -> & b & Ef). by exists s', b.
  - unfold after, time_point_min, time_point_max, int64_min, int64_max in *.
    destruct (Z.leb_spec d 0), (Z.ltb_spec (2 ^ 63 - 1 - now) d); lia.
Qed.

Lemma expires_reschedules_witness :
  exists s' b, expires_at 100 30 (svc demo) = Ok (2%nat, s') /\
     effect 100 (tv 30 true true 0 [] None) [7%nat; 8%nat] canceled
       (map Post [7%nat; 8%nat] ++ notice b (svc demo)) (svc demo) s'.
Proof.
  exact (proj1 (expires_reschedules (svc demo) 100 (tv 50 true true 0 [7%nat; 8%nat] None) 30 5 10
    demo_inv ltac:(vm_compute; reflexivity) ltac:(vm_compute; split; discriminate)
    ltac:(vm_compute; discriminate))).
Defined.

(** * Waiting *)

Lemma updated_compose id v1 v2 w n1 n2 e1 e2 s s1 s2 :
  updated id v1 w n1 e1 s s1 -> updated id v2 w n2 e2 s1 s2 -> updated id v2 w n2 (e1 ++ e2) s s2.
Proof.
  intros [E1 T1 N1 Tr1 I1] [E2 T2 N2 Tr2 I2]. constructor; try done; try congruence.
  - by rewrite T2, T1, insert_insert_eq.
  - by rewrite N2, N1, insert_insert_eq.
  - by rewrite Tr2, Tr1, app_assoc.
Qed.

(** The rest of [implementation::wait] when the timer has not expired. *)
Lemma wait_slow_wp id w p n (Q : unit -> service -> Prop) s :
  inv s -> impls (hst s) !! id = Some p -> nodes s !! w = Some n -> impl_ n = None ->
  cb_active_ n = false ->
  let n1 := mk_node None (svc_ p) (h_ n) (token_ n) (ec_ n) (bool_decide (is_Some (token_ n))) in
  let v1 := arm (with_might true (view p)) in
  (if stop_requested n s then
     forall s', updated id (retire_view v1) w (set_ec_ canceled n1) [Work_started; Post w] s s' -> Q tt s'
   else
     forall s' b, updated id (with_waiters (waiters_ p ++ [w]) v1) w (set_impl_ (Some id) n1)
       (Work_started :: notice b s) s s' -> Q tt s') ->
  wp (_ ← wait_arm id w; insert_waiter id w) Q s.
Proof.
  intros Hi P N I C n1 v1 HQ. svc_step. eapply wait_arm_wp; [done..|]. intros s1 U1.
  destruct (hview_inv (hst s1) id (with_might true (view p))) as (p1 & P1 & V1).
  { change (timers s1 !! id = Some (with_might true (view p))).
    rewrite (up_timers _ _ _ _ _ _ _ U1). apply lookup_insert_eq. }
  assert (Hst : stop_requested n1 s1 = stop_requested n s).
  { pose proof (up_env _ _ _ _ _ _ _ U1) as E1. injection E1 as _ _ _ _ _ Est.
    unfold stop_requested, n1. cbn. by rewrite Est. }
  assert (Hno : forall b, notice b s1 = notice b s).
  { intros b. pose proof (up_env _ _ _ _ _ _ _ U1) as E1. injection E1 as _ _ Ecb _ _ _.
    unfold notice. by rewrite Ecb. }
  assert (W1 : waiters_ p1 = waiters_ p) by (by injection V1).
  eapply (insert_waiter_wp id w p1 n1); [apply U1|done| |done|].
  { rewrite (up_nodes _ _ _ _ _ _ _ U1). apply lookup_insert_eq. }
  rewrite Hst, V1, W1. destruct (stop_requested n s).
  - intros s2 U2. apply HQ. exact (updated_compose _ _ _ _ _ _ _ _ _ _ _ U1 U2).
  - intros p2 s2 P2 U2. eapply HQ. rewrite <- Hno.
    exact (updated_compose _ _ _ _ _ _ _ _ _ _ _ U1 U2).
Qed.

Lemma wait_wp id w p n now (Q : unit -> service -> Prop) s :
  inv s -> impls (hst s) !! id = Some p -> nodes s !! w = Some n -> impl_ n = None ->
  cb_active_ n = false ->
  let n1 := mk_node None (svc_ p) (h_ n) (token_ n) (ec_ n) (bool_decide (is_Some (token_ n))) in
  let v1 := arm (with_might true (view p)) in
  (if already_expired p now then
     Q tt (add_trace [Resume w] (with_node w (set_ec_ success n) s))
   else if stop_requested n s then
     forall s', updated id (retire_view v1) w (set_ec_ canceled n1) [Work_started; Post w] s s' -> Q tt s'
   else
     forall s' b, updated id (with_waiters (waiters_ p ++ [w]) v1) w (set_impl_ (Some id) n1)
       (Work_started :: notice b s) s s' -> Q tt s') ->
  wp (wait id w now) Q s.
Proof.
  intros Hi P N I C n1 v1 HQ. unfold wait, complete_now. do 2 svc_step.
  destruct (already_expired p now); [by do 3 svc_step|]. by eapply wait_slow_wp.
Qed.

(** A wait on a timer outside the heap whose expiry has passed resumes the
    coroutine at once, with success and without touching the timer.  Otherwise
    it is counted as work, and the waiter is put last on the timer's list and
    the timer into the heap; unless its stop was requested before the
    publication, in which case the insertion is undone and the wait posted with
    a canceled result, so that no such request is lost. *)
Theorem wait_publishes_or_completes s id p w n now :
  inv s -> impls (hst s) !! id = Some p -> nodes s !! w = Some n -> impl_ n = None ->
  cb_active_ n = false ->
  let n1 := mk_node None (svc_ p) (h_ n) (token_ n) (ec_ n) (bool_decide (is_Some (token_ n))) in
  let v1 := arm (with_might true (view p)) in
  exists s', wait id w now s = Ok (tt, s') /\
    if already_expired p now then
      timers s' = timers s /\ nodes s' = <[w := set_ec_ success n]> (nodes s) /\
      trace s' = trace s ++ [Resume w]
    else if stop_requested n s then
      updated id (retire_view v1) w (set_ec_ canceled n1) [Work_started; Post w] s s'
    else
      exists b, updated id (with_waiters (waiters_ p ++ [w]) v1) w (set_impl_ (Some id) n1)
        (Work_started :: notice b s) s s'.
Proof.
  intros Hi P N I C n1 v1.
  assert (H : wp (wait id w now) (fun _ s' =>
    if already_expired p now then
      timers s' = timers s /\ nodes s' = <[w := set_ec_ success n]> (nodes s) /\
      trace s' = trace s ++ [Resume w]
    else if stop_requested n s then
      updated id (retire_view v1) w (set_ec_ canceled n1) [Work_started; Post w] s s'
    else
      exists b, updated id (with_waiters (waiters_ p ++ [w]) v1) w (set_impl_ (Some id) n1)
        (Work_started :: notice b s) s s') s).
  { eapply wait_wp; [done..|]. destruct (already_expired p now); [done|].
    destruct (stop_requested n s); [done|]. intros s' b U. by exists b. }
  apply wp_ok in H as ([] & s' & E & H). by exists s'.
Qed.

(** A state with a waiter to publish: timer 100 due at 50, node 6 observing the
    requested stop state 4. *)
Definition before_wait : world :=
  default (init_world 0 true)
    (exec [do_construct 1 100; do_expires_at 100 50; do_stop 4] (init_world 0 true)).
Definition before_wait_node : waiter_node := mk_node None 0 true (Some 4%nat) success false.
Definition before_wait_state : service := with_node 6 before_wait_node (svc before_wait).

Lemma before_wait_inv : inv before_wait_state.
Proof.
  apply inv_put_node; [|by vm_compute|done].
  apply (wf_inv before_wait), (reachable_wf 0 true).
  apply (exec_reachable [do_construct 1 100; do_expires_at 100 50; do_stop 4] 0 true
    (init_world 0 true)); [constructor|step_ops|]. vm_compute. reflexivity.
Qed.

Lemma wait_publishes_or_completes_witness :
  exists s', wait 100 6 10 before_wait_state = Ok (tt, s') /\
    updated 100 (tv 50 false false 0 [] None) 6 (mk_node None 0 true (Some 4%nat) canceled true)
      [Work_started; Post 6] before_wait_state s'.
Proof.
  exact (wait_publishes_or_completes before_wait_state 100 (mk_impl 50 None false 0 [] None) 6
    before_wait_node 10 before_wait_inv ltac:(vm_compute; reflexivity) ltac:(vm_compute; reflexivity)
    ltac:(reflexivity) ltac:(reflexivity)).
Defined.

(** * The pool of implementations *)

Lemma demo_pool : pool_ok (svc demo) [].
Proof.
  assert (Tl : tl_cached_impl (svc demo) = ∅) by (vm_compute; reflexivity).
  assert (Fl : free_list_ (svc demo) = None) by (vm_compute; reflexivity).
  constructor.
  - rewrite Fl. reflexivity.
  - constructor.
  - intros t1 t2 id H. rewrite Tl, lookup_empty in H. discriminate H.
  - intros t id H. rewrite Tl, lookup_empty in H. discriminate H.
  - intros id [H|[t H]]; [destruct (not_elem_of_nil _ H)|].
    rewrite Tl, lookup_empty in H. discriminate H.
Qed.

(** [construct] returns a quiescent timer with the default expiry that no
    handle owns, from the thread's cache, the free list or the allocator, and
    leaves the timers that are not pooled alone; [destroy] cancels what is left
    of the waiters, takes the timer out of the heap and puts it into the pool,
    from where it can be constructed again.  Both keep the pool free of
    duplicates and of timers in use. *)
Theorem construct_destroy_pool s l tid fresh :
  inv s -> pool_ok s l -> timers s !! fresh = None ->
  (exists id s' l', construct tid fresh s = Ok (id, s') /\ constructed s l id s' l') /\
  (forall id v, shutting_down_ s = false -> timers s !! id = Some v -> ~ pooled s l id ->
     (v_waiters v <> [] -> v_might v = true) ->
     exists s' l', destroy tid id s = Ok (tt, s') /\ destroyed s l id (v_waiters v) s' l').
Proof.
  intros Hi Hp F. split.
  - assert (H : wp (construct tid fresh) (fun id s' => exists l', constructed s l id s' l') s).
    { eapply construct_wp; [done..|]. intros id s' l' C. by exists l'. }
    apply wp_ok in H as (id & s' & E & l' & C). by exists id, s', l'.
  - intros id v Hs V Hn Hm. apply hview_inv in V as (p & P & <-).
    assert (H : wp (destroy tid id) (fun _ s' => exists l', destroyed s l id (waiters_ p) s' l') s).
    { eapply destroy_wp; [done..|]. intros s' l' D. by exists l'. }
    apply wp_ok in H as ([] & s' & E & l' & D). by exists s', l'.
Qed.

Lemma construct_destroy_pool_witness :
  exists id s' l', construct 2 200 (svc demo) = Ok (id, s') /\ constructed (svc demo) [] id s' l'.
Proof.
  exact (proj1 (construct_destroy_pool (svc demo) [] 2 200 demo_inv demo_pool
    ltac:(vm_compute; reflexivity))).
Defined.

(** [shutdown] detaches every timer, destroys the frame of every waiter in
    the heap once (balancing its work), and deletes each implementation of the
    heap, of the free list and of the calling thread's cache once, and no
    other; afterwards [destroy] does nothing, so an implementation that some
    handle owned but that was not in the heap is not reclaimed. *)
Theorem shutdown_releases_heap_and_pool s l tid :
  inv s -> pool_ok s l ->
  (forall w n id, nodes s !! w = Some n -> impl_ n = Some id -> h_ n = true) ->
  exists s', shutdown tid s = Ok (tt, s') /\
    shut (option_list (tl_cached_impl s !! tid)) (map timer_ (heap_ (hst s))) l s s' /\
    (forall tid' id, destroy tid' id s' = Ok (tt, s')).
Proof.
  intros Hi Hp Hh.
  assert (H : wp (shutdown tid) (fun _ s' =>
    shut (option_list (tl_cached_impl s !! tid)) (map timer_ (heap_ (hst s))) l s s') s).
  { eapply shutdown_wp; [done..|]. done. }
  apply wp_ok in H as ([] & s' & E & S). exists s'. split; [done|]. split; [done|].
  intros tid' id. unfold destroy, mbind, M_bind, get. by rewrite (sh_flag _ _ _ _ _ S).
Qed.

Lemma shutdown_releases_heap_and_pool_witness :
  exists s', shutdown 1 (svc demo) = Ok (tt, s') /\
    shut [] [101%nat; 100%nat] [] (svc demo) s' /\
    (forall tid' id, destroy tid' id s' = Ok (tt, s')).
Proof.
  refine (shutdown_releases_heap_and_pool (svc demo) [] 1 demo_inv demo_pool _).
  intros w n id N _.
  exact (proj2 (proj2 (wf_node demo (reachable_wf 0 true demo demo_reachable) w n N))).
Defined.

(** * The pending-waits flag *)

(** Waiter 8 is between its two steps when waiter 7 is stopped on another
    thread: [cancel_waiter] finds the list empty and clears the flag that the
    wait of 8 had set, then 8 is published. *)
Definition flag_race_ops : list (world -> option world) :=
  [do_construct 1 100; do_expires_at 100 50; do_wait 100 7 (Some 3%nat) 10; do_insert 100 7;
   do_wait 100 8 None 11; do_stop 3; do_canceller 7; do_insert 100 8].
Definition flag_race : world := default (init_world 0 true) (exec flag_race_ops (init_world 0 true)).

Lemma flag_race_reachable : reachable 0 true flag_race.
Proof.
  apply (exec_reachable flag_race_ops 0 true (init_world 0 true)); [constructor|step_ops|].
  vm_compute. reflexivity.
Qed.

(** The flag [might_have_pending_waits_] can be false while a waiter is
    published: it is set before the publication, without the lock, and a stop
    callback that removes the last earlier waiter in between clears it.  In the
    state that results, [cancel] returns 0 and leaves the waiter pending, and
    [destroy] leaves it on the list of a timer that is in the pool. *)
Theorem pending_flag_can_miss_a_waiter :
  exists c, reachable 0 true c /\
    timers (svc c) !! 100%nat = Some (tv 50 true false 0 [8%nat] None) /\
    cancel 100 (svc c) = Ok (O, svc c) /\
    (exists s', destroy 1 100 (svc c) = Ok (tt, s') /\ tl_cached_impl s' !! 1%nat = Some 100%nat /\
       timers s' !! 100%nat = Some (tv 50 false false 0 [8%nat] None)).
Proof.
  exists flag_race. split; [exact flag_race_reachable|].
  split; [vm_compute; reflexivity|]. split; [vm_compute; reflexivity|].
  eexists. split; [vm_compute; reflexivity|]. split; vm_compute; reflexivity.
Qed.
