(* ===== verification/ReactorScheduler.v ===== *)
(** The shared scheduler of the epoll, kqueue and select backends:
    [include/boost/corosio/native/detail/reactor/reactor_scheduler.hpp].

    A ready queue is the list of its entries, oldest first: [ready_queue_is_fifo]
    of Intrusive.v shows that the pointer-linked queue of the code behaves as
    that list.  The mutex is the flag [owns] of the calling thread's
    [scoped_lock]; locking an owned lock, or unlocking one that is not owned,
    is a [Fault].  Condition-variable notifications, reactor interrupts and the
    destruction of entries are logged in [out].  The functions below are the
    code of one thread; ReactorSteps.v interleaves the threads. *)

From S2P Require Import Prelude StateMonad.

Module reactor_scheduler.

(** An entry of a ready queue: the reactor sentinel [task_op_], a
    [reactor_descriptor_state], any other [scheduler_op], or a continuation. *)
Inductive entry :=
| task_op
| desc (d : nat)
| op (h : nat)
| cont (h : nat).

#[export] Instance entry_eq_dec : EqDecision entry.
Proof. solve_decision. Defined.

Inductive effect :=
| notify_one
| notify_all
| interrupt
| destroyed (e : entry)
| invoked (e : entry).

(** [reactor_scheduler_context]; [next] is the tail of the thread's stack. *)
Record context := mk_context {
  key : nat;
  private_queue : list entry;
  private_outstanding_work : Z;
  inline_budget : Z;
  inline_budget_max : Z;
  unassisted : bool
}.

(** The configuration: fixed once [io_context] has applied its options. *)
Record config := mk_config {
  max_events_per_poll_ : Z;
  inline_budget_initial_ : Z;
  inline_budget_max_ : Z;
  unassisted_budget_ : Z;
  scheduler_locking_disabled_ : bool;
  reactor_io_locking_ : bool;
  one_thread_ : bool
}.

(** [outstanding_work_] is a 64-bit atomic in the source and an integer without a
    bound here: it counts operations, handlers and guards that exist, each an object
    in memory. *)
Record scheduler := mk_scheduler {
  cfg : config;
  completed_ops_ : list entry;
  outstanding_work_ : Z;
  stopped_ : bool;
  task_running_ : bool;
  task_interrupted_ : bool;
  state_ : Z
}.

Definition default_config : config := mk_config 128 2 16 4 false true false.

(** The members' initialisers; a backend's constructor pushes the sentinel. *)
Definition init (c : config) : scheduler := mk_scheduler c [task_op] 0 false false false 0.

(** What the code of one thread works on: the shared scheduler, its
    thread-local stack of contexts (innermost first), whether its
    [lock_type] owns the mutex, and the log of effects. *)
Record local := mk_local {
  sched : scheduler;
  stack : list context;
  owns : bool;
  out : list effect
}.

Abbreviation SM := (M local).

Definition set_queue (q : list entry) (s : scheduler) : scheduler :=
  mk_scheduler (cfg s) q (outstanding_work_ s) (stopped_ s) (task_running_ s) (task_interrupted_ s)
    (state_ s).
Definition set_work (n : Z) (s : scheduler) : scheduler :=
  mk_scheduler (cfg s) (completed_ops_ s) n (stopped_ s) (task_running_ s) (task_interrupted_ s)
    (state_ s).
Definition set_stopped (b : bool) (s : scheduler) : scheduler :=
  mk_scheduler (cfg s) (completed_ops_ s) (outstanding_work_ s) b (task_running_ s)
    (task_interrupted_ s) (state_ s).
Definition set_task_running (b : bool) (s : scheduler) : scheduler :=
  mk_scheduler (cfg s) (completed_ops_ s) (outstanding_work_ s) (stopped_ s) b
    (task_interrupted_ s) (state_ s).
Definition set_task_interrupted (b : bool) (s : scheduler) : scheduler :=
  mk_scheduler (cfg s) (completed_ops_ s) (outstanding_work_ s) (stopped_ s) (task_running_ s) b
    (state_ s).
Definition set_state (z : Z) (s : scheduler) : scheduler :=
  mk_scheduler (cfg s) (completed_ops_ s) (outstanding_work_ s) (stopped_ s) (task_running_ s)
    (task_interrupted_ s) z.
Definition set_cfg (c : config) (s : scheduler) : scheduler :=
  mk_scheduler c (completed_ops_ s) (outstanding_work_ s) (stopped_ s) (task_running_ s)
    (task_interrupted_ s) (state_ s).

Definition set_private_queue (q : list entry) (c : context) : context :=
  mk_context (key c) q (private_outstanding_work c) (inline_budget c) (inline_budget_max c)
    (unassisted c).
Definition set_private_work (n : Z) (c : context) : context :=
  mk_context (key c) (private_queue c) n (inline_budget c) (inline_budget_max c) (unassisted c).
Definition set_budget (b m : Z) (c : context) : context :=
  mk_context (key c) (private_queue c) (private_outstanding_work c) b m (unassisted c).
Definition set_unassisted (b : bool) (c : context) : context :=
  mk_context (key c) (private_queue c) (private_outstanding_work c) (inline_budget c)
    (inline_budget_max c) b.

Definition upd_sched (f : scheduler -> scheduler) : SM unit :=
  modify (fun l => mk_local (f (sched l)) (stack l) (owns l) (out l)).
Definition the_sched : SM scheduler := l ← get; mret (sched l).
Definition set_stack (k : list context) : SM unit :=
  modify (fun l => mk_local (sched l) k (owns l) (out l)).
Definition emit (e : effect) : SM unit :=
  modify (fun l => mk_local (sched l) (stack l) (owns l) (out l ++ [e])).

(** [scoped_lock::lock] and [unlock] *)
Definition lock : SM unit :=
  l ← get;
  if owns l then fault else put (mk_local (sched l) (stack l) true (out l)).
Definition unlock : SM unit :=
  l ← get;
  if owns l then put (mk_local (sched l) (stack l) false (out l)) else fault.

(** * Contexts *)

(** The constructor of [reactor_scheduler_context]. *)
Definition new_context (k : nat) (c : config) : context :=
  mk_context k [] 0 0 (inline_budget_initial_ c) false.

(** A [reactor_scheduler_context*] is a position in the stack, or null. *)
Fixpoint find_key (self : nat) (l : list context) (i : nat) : option nat :=
  match l with
  | [] => None
  | c :: l' => if (key c =? self)%nat then Some i else find_key self l' (S i)
  end.

Definition reactor_find_context (self : nat) : SM (option nat) :=
  l ← get; mret (find_key self (stack l) 0).

Definition ctx_get (ctx : option nat) : SM context :=
  l ← get; i ← deref ctx; deref (stack l !! i).

Definition ctx_upd (ctx : option nat) (f : context -> context) : SM unit :=
  l ← get; i ← deref ctx; c ← deref (stack l !! i); set_stack (<[i := f c]> (stack l)).

Definition fetch_add (n : Z) : SM unit :=
  upd_sched (fun s => set_work (outstanding_work_ s + n) s).

Definition reactor_flush_private_work (ctx : option nat) : SM unit :=
  match ctx with
  | None => skip
  | Some _ =>
      c ← ctx_get ctx;
      if 0 <? private_outstanding_work c then
        fetch_add (private_outstanding_work c) ≫= fun _ =>
        ctx_upd ctx (set_private_work 0)
      else skip
  end.

Definition is_empty (q : list entry) : bool :=
  match q with
  | [] => true
  | _ :: _ => false
  end.

Definition push_completed (e : entry) : SM unit :=
  upd_sched (fun s => set_queue (completed_ops_ s ++ [e]) s).
(** [completed_ops_.splice(ops)] *)
Definition splice_completed (ops : list entry) : SM unit :=
  upd_sched (fun s => set_queue (completed_ops_ s ++ ops) s).

(** [completed_ops_.splice(ctx->private_queue)] *)
Definition splice_private (ctx : option nat) : SM unit :=
  c ← ctx_get ctx;
  splice_completed (private_queue c) ≫= fun _ =>
  ctx_upd ctx (set_private_queue []).

Definition reactor_drain_private_queue (ctx : option nat) : SM bool :=
  match ctx with
  | None => mret false
  | Some _ =>
      c ← ctx_get ctx;
      if is_empty (private_queue c) then mret false else
      reactor_flush_private_work ctx ≫= fun _ =>
      splice_private ctx ≫= fun _ =>
      mret true
  end.

(** * Configuration *)

Definition int_max : Z := 2 ^ 31 - 1.

(** The two [std::out_of_range] exceptions are the error value. *)
Definition configure_reactor (max_events budget_init budget_max unassisted : Z)
    (c : config) : option config :=
  if (max_events <? 1) || (int_max <? max_events) then None
  else if int_max <? budget_max then None
  else
    let budget_init := if budget_max <? budget_init then budget_max else budget_init in
    let unassisted := if budget_max <? unassisted then budget_max else unassisted in
    Some (mk_config max_events budget_init budget_max unassisted
            (scheduler_locking_disabled_ c) (reactor_io_locking_ c) (one_thread_ c)).

Definition configure_threading (scheduler_locking io_locking one_thread : bool)
    (c : config) : config :=
  mk_config (max_events_per_poll_ c) (inline_budget_initial_ c) (inline_budget_max_ c)
    (unassisted_budget_ c) (negb scheduler_locking) io_locking one_thread.

(** * The inline completion budget *)

(** [int] multiplication: a result out of range is undefined. *)
Definition int_double (x : Z) : SM Z :=
  if (- 2 ^ 31 <=? x * 2) && (x * 2 <=? int_max) then mret (x * 2) else fault.

Definition reset_inline_budget (self : nat) : SM unit :=
  s ← the_sched;
  if inline_budget_max_ (cfg s) =? 0 then skip else
  ctx ← reactor_find_context self;
  match ctx with
  | None => skip
  | Some _ =>
      c ← ctx_get ctx;
      if unassisted c then
        ctx_upd ctx (set_budget (unassisted_budget_ (cfg s)) (unassisted_budget_ (cfg s)))
      else
        m ← (if inline_budget c =? 0 then
               d ← int_double (Z.max 1 (inline_budget_max c));
               mret (Z.min d (inline_budget_max_ (cfg s)))
             else if inline_budget c <? inline_budget_max c then
               mret (inline_budget_initial_ (cfg s))
             else mret (inline_budget_max c));
        ctx_upd ctx (set_budget m m)
  end.

Definition try_consume_inline_budget (self : nat) : SM bool :=
  s ← the_sched;
  if inline_budget_max_ (cfg s) =? 0 then mret false else
  ctx ← reactor_find_context self;
  match ctx with
  | None => mret false
  | Some _ =>
      c ← ctx_get ctx;
      if 0 <? inline_budget c then
        ctx_upd ctx (set_budget (inline_budget c - 1) (inline_budget_max c)) ≫= fun _ =>
        mret true
      else mret false
  end.

(** * The signal state machine

    [state_] holds the signaled bit in bit 0 and twice the number of threads
    parked on the condition variable above it. *)

Definition signaled_bit : Z := 1.
Definition waiter_increment : Z := 2.

Definition raise_signal : SM unit :=
  upd_sched (fun s => set_state (Z.lor (state_ s) signaled_bit) s).

Definition signal_all : SM unit :=
  raise_signal ≫= fun _ => emit notify_all.

Definition maybe_unlock_and_signal_one : SM bool :=
  raise_signal ≫= fun _ =>
  s ← the_sched;
  if signaled_bit <? state_ s then
    unlock ≫= fun _ => emit notify_one ≫= fun _ => mret true
  else mret false.

Definition unlock_and_signal_one : SM bool :=
  raise_signal ≫= fun _ =>
  s ← the_sched;
  let have_waiters := signaled_bit <? state_ s in
  unlock ≫= fun _ =>
  (if have_waiters then emit notify_one else skip) ≫= fun _ =>
  mret have_waiters.

(** [~signaled_bit] at the width of [size_t] *)
Definition clear_signal : SM unit :=
  upd_sched (fun s => set_state (Z.land (state_ s) (size_max - signaled_bit)) s).

Definition signaled (s : scheduler) : bool := negb (Z.land (state_ s) signaled_bit =? 0).

(** The two sides of [cond_.wait] in [wait_for_signal] and
    [wait_for_signal_for]: counting the waiter while it holds the mutex, which
    the wait then releases, and uncounting it once the wait has it again. *)
Definition wait_enter : SM unit :=
  upd_sched (fun s => set_state (u64 (state_ s + waiter_increment)) s) ≫= fun _ => unlock.
Definition wait_leave : SM unit :=
  lock ≫= fun _ => upd_sched (fun s => set_state (u64 (state_ s - waiter_increment)) s).

Definition wake_one_thread_and_unlock : SM unit :=
  woken ← maybe_unlock_and_signal_one;
  if woken : bool then skip else
  s ← the_sched;
  if task_running_ s && negb (task_interrupted_ s) then
    upd_sched (set_task_interrupted true) ≫= fun _ =>
    unlock ≫= fun _ => emit interrupt
  else unlock.

(** * Stopping and counting work *)

Definition stop : SM unit :=
  lock ≫= fun _ =>
  s ← the_sched;
  (if stopped_ s then skip else
     upd_sched (set_stopped true) ≫= fun _ =>
     signal_all ≫= fun _ =>
     emit interrupt) ≫= fun _ =>
  unlock.

Definition stopped : SM bool := s ← the_sched; mret (stopped_ s).
Definition restart : SM unit := upd_sched (set_stopped false).

Definition work_started : SM unit := fetch_add 1.

(** [fetch_sub(1) == 1]: true when the caller must stop the scheduler. *)
Definition release_work : SM bool :=
  s ← the_sched;
  fetch_add (-1) ≫= fun _ => mret (outstanding_work_ s =? 1).

Definition work_finished : SM unit :=
  last ← release_work;
  if last : bool then stop else skip.

Definition compensating_work_started (self : nat) : SM unit :=
  ctx ← reactor_find_context self;
  match ctx with
  | None => skip
  | Some _ =>
      c ← ctx_get ctx;
      ctx_upd ctx (set_private_work (private_outstanding_work c + 1))
  end.

(** * Posting *)

Definition running_in_this_thread (self : nat) : SM bool :=
  ctx ← reactor_find_context self;
  mret (if ctx : option nat then true else false).

(** [++private_outstanding_work; private_queue.push(e)] *)
Definition post_private (ctx : option nat) (e : entry) : SM unit :=
  c ← ctx_get ctx;
  ctx_upd ctx (fun c => set_private_work (private_outstanding_work c + 1)
                          (set_private_queue (private_queue c ++ [e]) c)).

(** The critical section of a post from a thread without a context. *)
Definition post_shared (e : entry) : SM unit :=
  lock ≫= fun _ => push_completed e ≫= fun _ => wake_one_thread_and_unlock.

(** The three overloads of [post] differ in the entry they queue: a fresh
    [post_handler] or the given [scheduler_op] ([op]), or a continuation. *)
Definition post (self : nat) (e : entry) : SM unit :=
  ctx ← reactor_find_context self;
  match ctx with
  | Some _ => post_private ctx e
  | None => fetch_add 1 ≫= fun _ => post_shared e
  end.

Definition drain_thread_queue (queue : list entry) (count : Z) : SM unit :=
  (if 0 <? count then fetch_add count else skip) ≫= fun _ =>
  lock ≫= fun _ =>
  splice_completed queue ≫= fun _ =>
  if 0 <? count then
    unlocked ← maybe_unlock_and_signal_one;
    if unlocked : bool then skip else unlock
  else unlock.

Definition post_deferred_completions (self : nat) (ops : list entry) : SM unit :=
  if is_empty ops then skip else
  ctx ← reactor_find_context self;
  match ctx with
  | Some _ => ctx_upd ctx (fun c => set_private_queue (private_queue c ++ ops) c)
  | None =>
      lock ≫= fun _ => splice_completed ops ≫= fun _ => wake_one_thread_and_unlock
  end.

(** * Shutdown *)

(** The loop pops until the queue is empty; [fuel] bounds the pops. *)
Fixpoint shutdown_pops (fuel : nat) : SM unit :=
  match fuel with
  | O => fault
  | S f =>
      s ← the_sched;
      match completed_ops_ s with
      | [] => skip
      | e :: q =>
          upd_sched (set_queue q) ≫= fun _ =>
          (match e with
           | task_op => skip
           | _ => unlock ≫= fun _ => emit (destroyed e) ≫= fun _ => lock
           end) ≫= fun _ =>
          shutdown_pops f
      end
  end.

Definition shutdown_drain : SM unit :=
  lock ≫= fun _ =>
  s ← the_sched;
  shutdown_pops (S (length (completed_ops_ s))) ≫= fun _ =>
  signal_all ≫= fun _ =>
  unlock.

(** * The event loop *)

(** The constructor and destructor of [reactor_thread_context_guard]. *)
Definition guard_enter (self : nat) : SM unit :=
  l ← get;
  set_stack (new_context self (cfg (sched l)) :: stack l).

Definition guard_leave : SM unit :=
  l ← get;
  match stack l with
  | [] => fault
  | c :: rest =>
      (if is_empty (private_queue c) then skip
       else drain_thread_queue (private_queue c) (private_outstanding_work c)) ≫= fun _ =>
      set_stack rest
  end.

(** [~work_cleanup], in two parts: the work count, which says whether
    [work_finished] has to stop the scheduler, and the private queue. *)
Definition cleanup_count (ctx : option nat) : SM bool :=
  match ctx with
  | None => release_work
  | Some _ =>
      c ← ctx_get ctx;
      let produced := private_outstanding_work c in
      last ← (if 1 <? produced then fetch_add (produced - 1) ≫= fun _ => mret false
              else if produced <? 1 then release_work
              else mret false);
      ctx_upd ctx (set_private_work 0) ≫= fun _ =>
      mret last
  end.

Definition cleanup_queue (ctx : option nat) : SM unit :=
  match ctx with
  | None => skip
  | Some _ =>
      c ← ctx_get ctx;
      if is_empty (private_queue c) then skip
      else lock ≫= fun _ => splice_private ctx
  end.

Definition work_cleanup (ctx : option nat) : SM unit :=
  last ← cleanup_count ctx;
  (if last : bool then stop else skip) ≫= fun _ =>
  cleanup_queue ctx.

Definition task_cleanup (ctx : option nat) : SM unit :=
  match ctx with
  | None => skip
  | Some _ =>
      reactor_flush_private_work ctx ≫= fun _ =>
      c ← ctx_get ctx;
      if is_empty (private_queue c) then skip else
      l ← get;
      (if owns l then skip else lock) ≫= fun _ =>
      splice_private ctx
  end.

(** One iteration of the loop of [do_one], in the pieces between which other
    threads can run.  First the stop test and the pop: [None] when stopped. *)
Definition fetch : SM (option (option entry)) :=
  s ← the_sched;
  if stopped_ s then mret None else
  match completed_ops_ s with
  | [] => mret (Some None)
  | e :: q => upd_sched (set_queue q) ≫= fun _ => mret (Some (Some e))
  end.

(** The sentinel was popped: [None] when [do_one] returns 0 at once, otherwise
    the timeout of the reactor poll. *)
Definition task_begin (ctx : option nat) (timeout_us : Z) : SM (option Z) :=
  s ← the_sched;
  priv ← (match ctx with
          | None => mret false
          | Some _ => c ← ctx_get ctx; mret (negb (is_empty (private_queue c)))
          end);
  let more_handlers := negb (is_empty (completed_ops_ s)) || priv in
  if negb more_handlers && ((outstanding_work_ s =? 0) || (timeout_us =? 0)) then
    push_completed task_op ≫= fun _ => mret None
  else
    let task_timeout_us := if more_handlers : bool then 0 else timeout_us in
    upd_sched (set_task_interrupted (task_timeout_us =? 0)) ≫= fun _ =>
    upd_sched (set_task_running true) ≫= fun _ =>
    (if more_handlers && negb (one_thread_ (cfg s))
     then unlock_and_signal_one ≫= fun _ => skip else skip) ≫= fun _ =>
    mret (Some task_timeout_us).

(** After the poll, with the mutex held again: true when [do_one] returns 0. *)
Definition task_end (timeout_us : Z) : SM bool :=
  upd_sched (set_task_running false) ≫= fun _ =>
  push_completed task_op ≫= fun _ =>
  mret (0 <? timeout_us).

(** A ready entry was popped: wake a peer for the rest and unlock. *)
Definition entry_begin (ctx : option nat) : SM unit :=
  s ← the_sched;
  let more := negb (is_empty (completed_ops_ s)) in
  if more && negb (one_thread_ (cfg s)) then
    woken ← unlock_and_signal_one;
    ctx_upd ctx (set_unassisted (negb woken))
  else
    ctx_upd ctx (set_unassisted more) ≫= fun _ => unlock.

Inductive idle_verdict := again | leave_empty | park.

(** The queue was empty. *)
Definition idle (ctx : option nat) (timeout_us : Z) : SM idle_verdict :=
  drained ← reactor_drain_private_queue ctx;
  if drained : bool then mret again else
  s ← the_sched;
  if (outstanding_work_ s =? 0) || (timeout_us =? 0) then mret leave_empty
  else clear_signal ≫= fun _ => mret park.

(** The whole of [do_one] over what other code does meanwhile: [run_task] is
    the backend's poll, [dispatch] the entry's handler or coroutine, and
    [blocked] what happens while the condition variable is waited for. *)
Section do_one.
Context (run_task : option nat -> Z -> SM unit) (dispatch : entry -> SM unit)
        (blocked : SM unit).

Fixpoint wait_for_signal (fuel : nat) : SM unit :=
  match fuel with
  | O => fault
  | S f =>
      s ← the_sched;
      if signaled s then skip else
      wait_enter ≫= fun _ => blocked ≫= fun _ => wait_leave ≫= fun _ =>
      wait_for_signal f
  end.

Definition wait_for_signal_for : SM unit :=
  s ← the_sched;
  if signaled s then skip else
  wait_enter ≫= fun _ => blocked ≫= fun _ => wait_leave.

(** [None] continues the loop. *)
Definition do_one_iter (fuel : nat) (timeout_us : Z) (ctx : option nat) : SM (option Z) :=
  r ← fetch;
  match r with
  | None => mret (Some 0)
  | Some (Some task_op) =>
      t ← task_begin ctx timeout_us;
      match t with
      | None => mret (Some 0)
      | Some task_timeout_us =>
          run_task ctx task_timeout_us ≫= fun _ =>
          done ← task_end timeout_us;
          mret (if done : bool then Some 0 else None)
      end
  | Some (Some e) =>
      entry_begin ctx ≫= fun _ =>
      dispatch e ≫= fun _ =>
      work_cleanup ctx ≫= fun _ =>
      mret (Some 1)
  | Some None =>
      v ← idle ctx timeout_us;
      match v with
      | again => mret None
      | leave_empty => mret (Some 0)
      | park =>
          (if timeout_us <? 0 then wait_for_signal fuel else wait_for_signal_for) ≫= fun _ =>
          mret None
      end
  end.

Fixpoint do_one (fuel : nat) (timeout_us : Z) (ctx : option nat) : SM Z :=
  match fuel with
  | O => fault
  | S f =>
      r ← do_one_iter fuel timeout_us ctx;
      match r with
      | Some n => mret n
      | None => do_one f timeout_us ctx
      end
  end.

(** The loop of [run] and [poll]. *)
Fixpoint run_loop (fuel : nat) (timeout_us n : Z) : SM Z :=
  match fuel with
  | O => fault
  | S f =>
      r ← do_one fuel timeout_us (Some 0%nat);
      if r =? 0 then mret n else
      let n := if n =? size_max then n else n + 1 in
      l ← get;
      (if owns l then skip else lock) ≫= fun _ =>
      run_loop f timeout_us n
  end.

(** The common shape of [run], [run_one], [wait_one], [poll] and [poll_one]:
    stop and return when there is no work, otherwise run [body] with a context
    and the mutex; the lock is released before the context is popped. *)
Definition with_context (self : nat) (body : SM Z) : SM Z :=
  s ← the_sched;
  if outstanding_work_ s =? 0 then stop ≫= fun _ => mret 0 else
  guard_enter self ≫= fun _ =>
  lock ≫= fun _ =>
  n ← body;
  l ← get;
  (if owns l then unlock else skip) ≫= fun _ =>
  guard_leave ≫= fun _ =>
  mret n.

Definition run (self fuel : nat) : SM Z := with_context self (run_loop fuel (-1) 0).
Definition run_one (self fuel : nat) : SM Z := with_context self (do_one fuel (-1) (Some 0%nat)).
Definition wait_one (self fuel : nat) (usec : Z) : SM Z :=
  with_context self (do_one fuel usec (Some 0%nat)).
Definition poll (self fuel : nat) : SM Z := with_context self (run_loop fuel 0 0).
Definition poll_one (self fuel : nat) : SM Z := with_context self (do_one fuel 0 (Some 0%nat)).

End do_one.
End reactor_scheduler.
