(* ===== verification/ReactorSteps.v ===== *)
(** The threads of a reactor scheduler as a labelled transition system.

    A step is one thread running one piece of the code of ReactorScheduler.v,
    from one point where other threads can interfere to the next: a critical
    section of the mutex with at most one access to an atomic that is not
    guarded by it, or one atomic access outside.  The step relation interleaves
    any number of threads that post, stop, restart, count work and run the
    event loop in any of its five modes; the reactor poll returns any
    descriptors and posts any completed timers, the condition variable wakes
    any waiter and may wake spuriously, and handlers do any sequence of posts,
    deferred completions and budget operations.

    An event loop entered from inside a handler of the same scheduler is
    treated as one more thread.  The configuration has locking enabled. *)

From stdpp Require Import relations.
From S2P Require Import Prelude StateMonad ReactorScheduler.
Import reactor_scheduler.

(** * Threads and the world *)

Inductive mode := Run | RunOne | WaitOne (usec : Z) | Poll | PollOne.

Definition timeout_of (m : mode) : Z :=
  match m with
  | Run | RunOne => -1
  | WaitOne usec => usec
  | Poll | PollOne => 0
  end.

Definition looping (m : mode) : bool :=
  match m with
  | Run | Poll => true
  | _ => false
  end.

(** Where a thread is. *)
Inductive pc :=
| Outside                                   (* in none of the scheduler's functions *)
| Posting (e : entry)                       (* counted its post, before the lock *)
| Stopping (inside : bool)                  (* about to call [stop] *)
| Acquire                                   (* at the head of [do_one]'s loop *)
| Fetched (o : option entry)                (* popped, holding the mutex *)
| Polling (tmo : Z)                         (* inside [run_task] *)
| Running (e : entry) (covered compensated : bool)
                                            (* inside the entry's handler *)
| Cleaning                                  (* [~work_cleanup], after the count *)
| Parked (notified : bool)                  (* in [cond_.wait] *)
| Leaving.                                  (* before [~reactor_thread_context_guard] *)

#[export] Instance pc_eq_dec : EqDecision pc.
Proof. solve_decision. Defined.

Record thread := mk_thread { at_pc : pc; frames : list context; tmode : mode }.

(** [tokens] is the work counted by [work_started] that is held outside the
    queues (pending operations, work guards); [posted] and [dispatched] are
    the histories of entries queued and handed to their handlers; [eventfd]
    is a pending interrupt of the reactor. *)
Record world := mk_world {
  shared : scheduler;
  owner : option nat;
  threads : list thread;
  eventfd : bool;
  tokens : Z;
  posted : list entry;
  dispatched : list entry
}.

Definition init_world (c : config) (n : nat) : world :=
  mk_world (init c) None (replicate n (mk_thread Outside [] Run)) false 0 [] [].

(** Entries that stand for a unit of outstanding work; a descriptor state is
    queued by the reactor without one. *)
Definition counted (e : entry) : Z :=
  match e with
  | op _ | cont _ => 1
  | _ => 0
  end.

Definition is_desc (e : entry) : bool :=
  match e with
  | desc _ => true
  | _ => false
  end.

Definition postable (e : entry) : bool := counted e =? 1.

Inductive label :=
| LPost (e : entry) | LPush
| LWorkStart | LWorkFinish
| LDeferred (ops : list entry)
| LStop | LDoStop | LRestart
| LEnter (m : mode)
| LFetch | LTask | LEntry | LIdle
| LPollPost (e : entry) | LPollEnd (ds : list entry) (read_eventfd : bool)
| LAdopt | LCompensate | LBudgetReset | LBudgetConsume
| LFinish | LClean
| LSpurious | LWake
| LLeave.

Definition self : nat := 0.
Definition top : option nat := Some 0%nat.

(** Release the mutex if the thread's lock owns it. *)
Definition release : SM unit := l ← get; if owns l then unlock else skip.
Definition acquire : SM unit := l ← get; if owns l then skip else lock.

(** The code of one step, ending at the thread's next point; [None] where the
    label does not apply. *)
Definition prog (th : thread) (lab : label) : option (SM pc) :=
  let m := tmode th in
  match lab, at_pc th with
  | LPost e, Outside =>
      if postable e then Some (fetch_add 1 ≫= fun _ => mret (Posting e)) else None
  | LPush, Posting e => Some (post_shared e ≫= fun _ => mret Outside)
  | LWorkStart, Outside => Some (work_started ≫= fun _ => mret Outside)
  | LWorkFinish, Outside =>
      Some (last ← release_work; mret (if last : bool then Stopping false else Outside))
  | LDeferred ops, Outside =>
      if forallb postable ops
      then Some (post_deferred_completions self ops ≫= fun _ => mret Outside) else None
  | LStop, Outside => Some (mret (Stopping false))
  | LDoStop, Stopping b =>
      Some (stop ≫= fun _ => mret (if b : bool then Cleaning else Outside))
  | LRestart, Outside => Some (restart ≫= fun _ => mret Outside)
  | LEnter _, Outside =>
      Some (s ← the_sched;
            if outstanding_work_ s =? 0 then mret (Stopping false)
            else guard_enter self ≫= fun _ => mret Acquire)
  | LFetch, Acquire =>
      Some (acquire ≫= fun _ =>
            r ← fetch;
            match r with
            | None => release ≫= fun _ => mret Leaving
            | Some o => mret (Fetched o)
            end)
  | LTask, Fetched (Some task_op) =>
      Some (t ← task_begin top (timeout_of m);
            release ≫= fun _ =>
            mret (match t with
                  | None => Leaving
                  | Some tmo => Polling tmo
                  end))
  | LEntry, Fetched (Some e) =>
      match e with
      | task_op => None
      | _ => Some (entry_begin top ≫= fun _ => mret (Running e (counted e =? 1) false))
      end
  | LIdle, Fetched None =>
      Some (v ← idle top (timeout_of m);
            match v with
            | again => mret Acquire
            | leave_empty => release ≫= fun _ => mret Leaving
            | park => wait_enter ≫= fun _ => mret (Parked false)
            end)
  | LPollPost e, Polling tmo =>
      if postable e then Some (post self e ≫= fun _ => mret (Polling tmo)) else None
  | LPollEnd ds _, Polling _ =>
      if forallb is_desc ds then
        Some (lock ≫= fun _ =>
              splice_completed ds ≫= fun _ =>
              task_cleanup top ≫= fun _ =>
              ret ← task_end (timeout_of m);
              if ret : bool then release ≫= fun _ => mret Leaving else mret Acquire)
      else None
  | LPost e, Running f true k =>
      if postable e then Some (post self e ≫= fun _ => mret (Running f true k)) else None
  | LDeferred ops, Running f c k =>
      if forallb postable ops
      then Some (post_deferred_completions self ops ≫= fun _ => mret (Running f c k)) else None
  | LAdopt, Running f false false => Some (mret (Running f true false))
  | LCompensate, Running f false false =>
      Some (compensating_work_started self ≫= fun _ => mret (Running f false true))
  | LBudgetReset, Running f c k =>
      Some (reset_inline_budget self ≫= fun _ => mret (Running f c k))
  | LBudgetConsume, Running f c k =>
      Some (try_consume_inline_budget self ≫= fun _ => mret (Running f c k))
  | LFinish, Running f c k =>
      if c || k
      then Some (last ← cleanup_count top; mret (if last : bool then Stopping true else Cleaning))
      else None
  | LClean, Cleaning =>
      Some (cleanup_queue top ≫= fun _ =>
            if looping m then mret Acquire else release ≫= fun _ => mret Leaving)
  | LSpurious, Parked _ => Some (mret (Parked true))
  | LWake, Parked true =>
      Some (wait_leave ≫= fun _ =>
            s ← the_sched;
            if (timeout_of m <? 0) && negb (signaled s)
            then wait_enter ≫= fun _ => mret (Parked false)
            else mret Acquire)
  | LLeave, Leaving => Some (guard_leave ≫= fun _ => mret Outside)
  | _, _ => None
  end.

(** Work units a step takes from those held outside the queues. *)
Definition takes (lab : label) (th : thread) : Z :=
  match lab with
  | LWorkStart => -1
  | LWorkFinish | LAdopt => 1
  | LDeferred ops => Z.of_nat (length ops)
  | _ => 0
  end.

Definition posts (lab : label) : list entry :=
  match lab with
  | LPost e | LPollPost e => [e]
  | LDeferred ops => ops
  | LPollEnd ds _ => ds
  | _ => []
  end.

Definition dispatches (lab : label) (th : thread) : list entry :=
  match lab, at_pc th with
  | LEntry, Fetched (Some e) => [e]
  | _, _ => []
  end.

(** Whether the step takes the mutex, which must then be free or the thread's. *)
Definition takes_lock (lab : label) (th : thread) : bool :=
  match lab with
  | LPush | LDoStop | LFetch | LPollEnd _ _ | LWake => true
  | LDeferred ops =>
      match frames th with
      | [] => negb (is_empty ops)
      | _ :: _ => false
      end
  | LClean | LLeave =>
      match frames th with
      | c :: _ => negb (is_empty (private_queue c))
      | [] => false
      end
  | _ => false
  end.

Definition enabled (w : world) (i : nat) (th : thread) (lab : label) : Prop :=
  takes lab th <= tokens w
  /\ (takes_lock lab th = true -> owner w = None \/ owner w = Some i).

Definition enter (w : world) (i : nat) (th : thread) : local :=
  mk_local (shared w) (frames th) (bool_decide (owner w = Some i)) [].

Definition next_thread (lab : label) (th : thread) (p : pc) (l : local) : thread :=
  mk_thread p (stack l) (match lab with LEnter m => m | _ => tmode th end).

(** The world after the step, before its notifications are delivered. *)
Definition commit (w : world) (i : nat) (th : thread) (lab : label) (p : pc) (l : local) : world :=
  mk_world (sched l)
    (if owns l then Some i else if decide (owner w = Some i) then None else owner w)
    (<[i := next_thread lab th p l]> (threads w))
    (match lab with LPollEnd _ true => false | _ => eventfd w end)
    (tokens w - takes lab th)
    (posted w ++ posts lab)
    (dispatched w ++ dispatches lab th).

Definition wake_pc (p : pc) : pc :=
  match p with
  | Parked _ => Parked true
  | _ => p
  end.
Definition wake (th : thread) : thread := mk_thread (wake_pc (at_pc th)) (frames th) (tmode th).

Definition with_threads (ts : list thread) (w : world) : world :=
  mk_world (shared w) (owner w) ts (eventfd w) (tokens w) (posted w) (dispatched w).
Definition with_eventfd (b : bool) (w : world) : world :=
  mk_world (shared w) (owner w) (threads w) b (tokens w) (posted w) (dispatched w).

(** Delivery of a notification: [notify_one] reaches one thread that waits
    and has not been notified yet, if there is one. *)
Inductive deliver : effect -> world -> world -> Prop :=
| deliver_one w i th :
    threads w !! i = Some th -> at_pc th = Parked false ->
    deliver notify_one w (with_threads (<[i := wake th]> (threads w)) w)
| deliver_none w :
    (forall i th, threads w !! i = Some th -> at_pc th <> Parked false) ->
    deliver notify_one w w
| deliver_all w : deliver notify_all w (with_threads (wake <$> threads w) w)
| deliver_interrupt w : deliver interrupt w (with_eventfd true w)
| deliver_destroyed e w : deliver (destroyed e) w w
| deliver_invoked e w : deliver (invoked e) w w.

Inductive delivers : list effect -> world -> world -> Prop :=
| delivers_nil w : delivers [] w w
| delivers_cons e es w w' w'' :
    deliver e w w' -> delivers es w' w'' -> delivers (e :: es) w w''.

Definition step (i : nat) (lab : label) (w w' : world) : Prop :=
  exists th m p l,
    threads w !! i = Some th /\ prog th lab = Some m /\ enabled w i th lab
    /\ m (enter w i th) = Ok (p, l)
    /\ delivers (out l) (commit w i th lab p l) w'.

(** Event loops are entered only in the modes [ok] allows. *)
Definition permitted (ok : mode -> bool) (lab : label) : Prop :=
  match lab with
  | LEnter m => ok m = true
  | _ => True
  end.

Definition any_step (ok : mode -> bool) (w w' : world) : Prop :=
  exists i lab, permitted ok lab /\ step i lab w w'.

Definition reachable (ok : mode -> bool) (c : config) (n : nat) : world -> Prop :=
  rtc (any_step ok) (init_world c n).

(** * Sums over threads and queues *)

(** Occurrences of an entry. *)
Definition is_e (e x : entry) : Z := if decide (x = e) then 1 else 0.
Definition cnt (e : entry) (l : list entry) : Z := zsum (is_e e) l.
Definition csum (l : list entry) : Z := zsum counted l.

Lemma is_e_nonneg e x : 0 <= is_e e x.
Proof. unfold is_e. case_decide; lia. Qed.
Lemma counted_nonneg e : 0 <= counted e.
Proof. by destruct e. Qed.
Lemma cnt_nonneg e l : 0 <= cnt e l.
Proof. apply zsum_nonneg, is_e_nonneg. Qed.
Lemma csum_nonneg l : 0 <= csum l.
Proof. apply zsum_nonneg, counted_nonneg. Qed.

Lemma csum_postable l : forallb postable l = true -> csum l = Z.of_nat (length l).
Proof.
  unfold csum, postable. induction l as [|e l IH]; cbn; [done|].
  rewrite andb_true_iff. intros [He Hl]. rewrite (IH Hl). lia.
Qed.

Lemma csum_desc l : forallb is_desc l = true -> csum l = 0.
Proof.
  unfold csum. induction l as [|e l IH]; cbn; [done|].
  rewrite andb_true_iff. intros [He Hl]. rewrite (IH Hl). by destruct e.
Qed.

Lemma cnt_task_postable l : forallb postable l = true -> cnt task_op l = 0.
Proof.
  unfold cnt. induction l as [|e l IH]; cbn; [done|].
  rewrite andb_true_iff. intros [He Hl]. rewrite (IH Hl). by destruct e.
Qed.

Lemma cnt_task_desc l : forallb is_desc l = true -> cnt task_op l = 0.
Proof.
  unfold cnt. induction l as [|e l IH]; cbn; [done|].
  rewrite andb_true_iff. intros [He Hl]. rewrite (IH Hl). by destruct e.
Qed.
