(* ===== verification/ReactorInv.v ===== *)
(** The invariant of the reactor scheduler's threads (ReactorSteps.v) and its
    preservation by every step: mutex discipline, shape of the thread-local
    contexts, the reactor sentinel, the packed waiter count, the work count and
    the conservation of queue entries. *)

From stdpp Require Import relations.
From S2P Require Import Prelude StateMonad ReactorScheduler ReactorSteps.
Import reactor_scheduler.

(** * What each thread contributes *)

(** The budgets are ordered and their doubling stays an [int]. *)
Record cfg_ok (c : config) : Prop := {
  ok_initial : 0 <= inline_budget_initial_ c <= inline_budget_max_ c;
  ok_unassisted : 0 <= unassisted_budget_ c <= inline_budget_max_ c;
  ok_max : inline_budget_max_ c * 2 <= int_max
}.

Record ctx_ok (c : config) (x : context) : Prop := {
  ok_key : key x = self;
  ok_queue : forallb postable (private_queue x) = true;
  ok_work : 0 <= private_outstanding_work x;
  ok_budget : 0 <= inline_budget x <= inline_budget_max x;
  ok_budget_max : inline_budget_max x <= inline_budget_max_ c
}.

Definition one_frame (c : config) (th : thread) (P : context -> Prop) : Prop :=
  exists x, frames th = [x] /\ ctx_ok c x /\ P x.

Definition quiet (x : context) : Prop := private_queue x = [] /\ private_outstanding_work x = 0.

Definition thread_ok (c : config) (th : thread) : Prop :=
  match at_pc th with
  | Outside | Stopping false => frames th = []
  | Posting e => frames th = [] /\ postable e = true
  | Acquire | Fetched _ | Parked _ | Leaving => one_frame c th quiet
  | Polling _ =>
      one_frame c th (fun x => private_outstanding_work x = Z.of_nat (length (private_queue x)))
  | Running e cv k =>
      one_frame c th (fun x =>
        private_outstanding_work x <= Z.of_nat (length (private_queue x)) + b2z k
        /\ e <> task_op /\ cv && k = false)
  | Stopping true | Cleaning => one_frame c th (fun x => private_outstanding_work x = 0)
  end.

(** Whether the thread's lock may own the mutex at this point. *)
Definition owned_ok (p : pc) (b : bool) : Prop :=
  match p with
  | Fetched _ => b = true
  | Acquire => True
  | _ => b = false
  end.

Definition unflushed (x : context) : Z :=
  Z.of_nat (length (private_queue x)) - private_outstanding_work x.

(** Units of the work count that the thread accounts for. *)
Definition work_of (th : thread) : Z :=
  match at_pc th with
  | Posting _ => 1
  | Fetched (Some e) => counted e
  | Running _ cv k => b2z cv + b2z k
  | _ => 0
  end + zsum unflushed (frames th).

(** Occurrences of an entry in the thread's hands or its private queue. *)
Definition occ (e : entry) (th : thread) : Z :=
  match at_pc th with
  | Posting x | Fetched (Some x) => is_e e x
  | _ => 0
  end + zsum (fun x => cnt e (private_queue x)) (frames th).

Definition polling (th : thread) : Z :=
  match at_pc th with
  | Polling _ => 1
  | _ => 0
  end.
Definition fetched_task (th : thread) : Z :=
  match at_pc th with
  | Fetched (Some task_op) => 1
  | _ => 0
  end.
Definition parked (th : thread) : Z :=
  match at_pc th with
  | Parked _ => 1
  | _ => 0
  end.

Lemma polling_nonneg th : 0 <= polling th.
Proof. unfold polling. destruct (at_pc th); lia. Qed.
Lemma fetched_task_nonneg th : 0 <= fetched_task th.
Proof. unfold fetched_task. by destruct (at_pc th) as [| | | |[[]|]| | | | |]. Qed.
Lemma parked_nonneg th : 0 <= parked th.
Proof. unfold parked. destruct (at_pc th); lia. Qed.

Record inv (c : config) (w : world) : Prop := {
  i_cfg : cfg (shared w) = c;
  i_threads : Forall (thread_ok c) (threads w);
  i_lock : forall j th, threads w !! j = Some th ->
             owned_ok (at_pc th) (bool_decide (owner w = Some j));
  i_owner : forall j, owner w = Some j -> is_Some (threads w !! j);
  i_task : cnt task_op (completed_ops_ (shared w)) + zsum fetched_task (threads w)
           + zsum polling (threads w) = 1;
  i_running : b2z (task_running_ (shared w)) = zsum polling (threads w);
  i_state : state_ (shared w) = 2 * zsum parked (threads w) + b2z (signaled (shared w));
  i_len : Z.of_nat (length (threads w)) < 2 ^ 62;
  i_tokens : 0 <= tokens w;
  i_work : outstanding_work_ (shared w)
           = tokens w + csum (completed_ops_ (shared w)) + zsum work_of (threads w);
  i_cons : forall e, e <> task_op ->
             cnt e (posted w) = cnt e (dispatched w) + cnt e (completed_ops_ (shared w))
                                + zsum (occ e) (threads w)
}.

(** * The packed waiter count *)

Lemma signaled_split s P (b : bool) :
  state_ s = 2 * P + b2z b -> signaled s = b.
Proof.
  unfold signaled, signaled_bit. intros ->.
  replace (Z.land (2 * P + b2z b) 1) with ((2 * P + b2z b) mod 2)
    by (symmetry; apply (Z.land_ones _ 1); lia).
  rewrite Z.add_comm, Z.mul_comm, Z.mod_add by lia. by destruct b.
Qed.

Lemma raise_state P (b : bool) : Z.lor (2 * P + b2z b) 1 = 2 * P + 1.
Proof.
  apply Z.bits_inj'. intros i Hi. rewrite Z.lor_spec.
  destruct (decide (i = 0)) as [->|Hne].
  - rewrite Z.testbit_odd_0, orb_true_r. done.
  - rewrite (Z.bits_above_log2 1 i), orb_false_r by (cbn; lia).
    replace i with (Z.succ (i - 1)) by lia.
    destruct b; cbn [b2z].
    + done.
    + rewrite Z.testbit_odd_succ by lia.
      rewrite Z.add_0_r, Z.testbit_even_succ by lia. done.
Qed.

Lemma clear_state P (b : bool) :
  0 <= P < 2 ^ 63 -> Z.land (2 * P + b2z b) (size_max - 1) = 2 * P + b2z false.
Proof.
  intros HP. replace (size_max - 1) with (Z.shiftl (Z.ones (64 - 1)) 1) by done.
  rewrite land_high_mask by (destruct b; cbn; lia).
  destruct b; cbn [b2z]; zdiv.
Qed.

Lemma wrap_state P (b : bool) : 0 <= P < 2 ^ 63 -> u64 (2 * P + b2z b) = 2 * P + b2z b.
Proof. intros. apply wrap_small. destruct b; cbn; lia. Qed.

Lemma state_enter P (b : bool) :
  0 <= P < 2 ^ 62 -> u64 (2 * P + b2z b + 2) = 2 * (P + 1) + b2z b.
Proof. intros. rewrite <- (wrap_state (P + 1) b) by lia. f_equal. lia. Qed.

Lemma state_leave P (b : bool) :
  1 <= P < 2 ^ 62 -> u64 (2 * P + b2z b - 2) = 2 * (P - 1) + b2z b.
Proof. intros. rewrite <- (wrap_state (P - 1) b) by lia. f_equal. lia. Qed.

Lemma parked_le ts : 0 <= zsum parked ts <= Z.of_nat (length ts).
Proof.
  induction ts as [|th ts IH]; cbn; [lia|].
  unfold parked at 1 3. destruct (at_pc th); lia.
Qed.

(** * One thread's step, from its local effect *)

Section commit.
Context (c : config) (w : world) (i : nat) (th : thread) (lab : label).
Context (Hinv : inv c w) (Hth : threads w !! i = Some th).

Lemma thread_ok_at : thread_ok c th.
Proof using Hinv Hth. eapply Forall_lookup_1; [apply Hinv|done]. Qed.

Lemma owned_at : owned_ok (at_pc th) (bool_decide (owner w = Some i)).
Proof using Hinv Hth. by apply (i_lock _ _ Hinv). Qed.

(** What the step must establish about its own thread and the shared state
    for the whole invariant to hold after it. *)
Record local_ok (p : pc) (l : local) : Prop := {
  l_cfg : cfg (sched l) = c;
  l_thread : thread_ok c (next_thread lab th p l);
  l_owned : owned_ok p (owns l);
  l_free : owns l = true -> owner w = None \/ owner w = Some i;
  l_task : cnt task_op (completed_ops_ (sched l)) + fetched_task (next_thread lab th p l)
           + polling (next_thread lab th p l)
           = cnt task_op (completed_ops_ (shared w)) + fetched_task th + polling th;
  l_running : b2z (task_running_ (sched l)) - polling (next_thread lab th p l)
              = b2z (task_running_ (shared w)) - polling th;
  l_state : exists b, state_ (sched l)
              = 2 * (zsum parked (threads w) - parked th + parked (next_thread lab th p l))
                + b2z b;
  l_tokens : takes lab th <= tokens w;
  l_work : outstanding_work_ (sched l) - csum (completed_ops_ (sched l))
           - work_of (next_thread lab th p l) + takes lab th
           = outstanding_work_ (shared w) - csum (completed_ops_ (shared w)) - work_of th;
  l_cons : forall e, e <> task_op ->
           cnt e (posts lab) - cnt e (dispatches lab th) - cnt e (completed_ops_ (sched l))
           - occ e (next_thread lab th p l)
           = - cnt e (completed_ops_ (shared w)) - occ e th
}.

Lemma lock_commit p l j th' :
  local_ok p l -> threads (commit w i th lab p l) !! j = Some th' ->
  owned_ok (at_pc th') (bool_decide (owner (commit w i th lab p l) = Some j)).
Proof using Hinv Hth.
  intros H Hj. cbn in *. destruct (decide (j = i)) as [->|Hne].
  - rewrite list_lookup_insert_eq in Hj by (eapply lookup_lt_Some; eauto).
    simplify_eq. cbn. pose proof (l_owned _ _ H) as Ho.
    destruct (owns l) eqn:E; [by rewrite bool_decide_eq_true_2|].
    rewrite bool_decide_eq_false_2; [done|]. case_decide; congruence.
  - rewrite list_lookup_insert_ne in Hj by congruence.
    pose proof (i_lock _ _ Hinv _ _ Hj) as Ho. pose proof (l_free _ _ H) as Hf.
    destruct (owns l).
    + rewrite (bool_decide_eq_false_2 (Some i = Some j)) by congruence.
      rewrite bool_decide_eq_false_2 in Ho; [done|].
      destruct (Hf eq_refl); congruence.
    + destruct (decide (owner w = Some i)) as [Hd|Hd]; [|exact Ho]. rewrite Hd in Ho.
      rewrite bool_decide_eq_false_2 in Ho by congruence. exact Ho.
Qed.

Lemma inv_commit p l : local_ok p l -> inv c (commit w i th lab p l).
Proof using Hinv Hth.
  intros H. pose proof (fun j th' => lock_commit p l j th' H) as Hlock.
  destruct H, Hinv. constructor; cbn; try done.
  - by apply Forall_insert.
  - intros j Hj. apply lookup_lt_is_Some. rewrite length_insert. apply lookup_lt_is_Some.
    destruct (owns l) eqn:E; simplify_eq; [by eexists|].
    case_decide; [done|]. by apply i_owner0.
  - rewrite !(zsum_insert _ _ _ th) by done. lia.
  - rewrite (zsum_insert _ _ _ th) by done. lia.
  - rewrite (zsum_insert _ _ _ th) by done. destruct l_state0 as [b Hb].
    rewrite (signaled_split _ _ _ Hb). lia.
  - by rewrite length_insert.
  - lia.
  - rewrite (zsum_insert _ _ _ th) by done. lia.
  - intros e He. rewrite (zsum_insert _ _ _ th) by done.
    unfold cnt in *. rewrite !zsum_app. specialize (l_cons0 e He). specialize (i_cons0 e He).
    unfold cnt in *. lia.
Qed.
End commit.

(** * Notifications only move parked threads *)

Definition woken (th th' : thread) : Prop := th' = th \/ th' = wake th.

Record same_but_woken (w w' : world) : Prop := {
  s_shared : shared w' = shared w;
  s_owner : owner w' = owner w;
  s_threads : Forall2 woken (threads w) (threads w');
  s_tokens : tokens w' = tokens w;
  s_posted : posted w' = posted w;
  s_dispatched : dispatched w' = dispatched w
}.

Lemma woken_refl ts : Forall2 woken ts ts.
Proof. induction ts; constructor; [by left|done]. Qed.

Lemma same_but_woken_refl w : same_but_woken w w.
Proof. constructor; try done. apply woken_refl. Qed.

Lemma wake_wake th : wake (wake th) = wake th.
Proof. by destruct th as [[] ? ?]. Qed.

Lemma woken_trans th th' th'' : woken th th' -> woken th' th'' -> woken th th''.
Proof. unfold woken. intros [->| ->] [->| ->]; rewrite ?wake_wake; auto. Qed.

Lemma same_but_woken_trans w w' w'' :
  same_but_woken w w' -> same_but_woken w' w'' -> same_but_woken w w''.
Proof.
  intros [] []. constructor; try congruence.
  eapply list.Forall2_trans; [|done|done]. intros. by eapply woken_trans.
Qed.

Lemma deliver_same e w w' : deliver e w w' -> same_but_woken w w'.
Proof.
  destruct 1 as [w i th Hi Hp| | |w| |]; try apply same_but_woken_refl;
    constructor; try done; cbn.
  - rewrite <- (list_insert_id (threads w) i th Hi) at 1.
    apply Forall2_insert; [apply woken_refl|by right].
  - induction (threads w); constructor; [by right|done].
  - apply woken_refl.
Qed.

Lemma delivers_same es w w' : delivers es w w' -> same_but_woken w w'.
Proof.
  induction 1; [apply same_but_woken_refl|].
  eapply same_but_woken_trans; [by eapply deliver_same|done].
Qed.

Lemma wake_facts th :
  frames (wake th) = frames th /\ tmode (wake th) = tmode th
  /\ polling (wake th) = polling th /\ fetched_task (wake th) = fetched_task th
  /\ parked (wake th) = parked th /\ work_of (wake th) = work_of th
  /\ forall e, occ e (wake th) = occ e th.
Proof. by destruct th as [[] ? ?]. Qed.

Lemma thread_ok_wake c th : thread_ok c th -> thread_ok c (wake th).
Proof. by destruct th as [[] ? ?]. Qed.

Lemma inv_same c w w' : inv c w -> same_but_woken w w' -> inv c w'.
Proof.
  intros [] [Hs Ho Hts Ht Hp Hd].
  assert (Hsum : forall f, (forall th, f (wake th) = f th) ->
            zsum f (threads w') = zsum f (threads w)).
  { intros f Hf. eapply zsum_Forall2; [|done]. intros ? ? [->| ->]; [done|apply Hf]. }
  constructor; rewrite ?Hs, ?Ho, ?Ht, ?Hp, ?Hd, ?Hsum; try done; try apply wake_facts.
  - apply list.Forall_lookup_2. intros j th' Hj.
    destruct (Forall2_lookup_r _ _ _ _ _ Hts Hj) as (th & Hth & Hw).
    pose proof (Forall_lookup_1 _ _ _ _ i_threads0 Hth).
    destruct Hw as [->| ->]; [done|by apply thread_ok_wake].
  - intros j th' Hj. destruct (Forall2_lookup_r _ _ _ _ _ Hts Hj) as (th & Hth & Hw).
    specialize (i_lock0 _ _ Hth). destruct Hw as [->| ->]; [done|].
    by destruct th as [[] ? ?].
  - intros j Hj. apply i_owner0 in Hj. apply lookup_lt_is_Some in Hj.
    apply lookup_lt_is_Some. by rewrite <- (Forall2_length Hts).
  - by rewrite <- (Forall2_length Hts).
  - intros e He. rewrite Hsum by (intros th; by destruct (wake_facts th) as (_&_&_&_&_&_&->)).
    by apply i_cons0.
Qed.

(** * Every step runs without a fault and keeps the invariant *)

Lemma cnt_app e l1 l2 : cnt e (l1 ++ l2) = cnt e l1 + cnt e l2.
Proof. apply zsum_app. Qed.
Lemma csum_app l1 l2 : csum (l1 ++ l2) = csum l1 + csum l2.
Proof. apply zsum_app. Qed.
Lemma cnt_cons e x l : cnt e (x :: l) = is_e e x + cnt e l.
Proof. done. Qed.
Lemma csum_cons x l : csum (x :: l) = counted x + csum l.
Proof. done. Qed.
Lemma is_e_task_postable e : postable e = true -> is_e task_op e = 0.
Proof. by destruct e. Qed.
Lemma is_e_task x : x <> task_op -> is_e x task_op = 0.
Proof. intros H. unfold is_e. by rewrite decide_False. Qed.
Lemma postable_app q ops :
  forallb postable q = true -> forallb postable ops = true -> forallb postable (q ++ ops) = true.
Proof. intros Hq Ho. by rewrite forallb_app, Hq, Ho. Qed.
Lemma postable_snoc q e :
  forallb postable q = true -> postable e = true -> forallb postable (q ++ [e]) = true.
Proof. intros Hq He. apply postable_app; [done|]. cbn. by rewrite He. Qed.
#[local] Hint Resolve postable_app postable_snoc : corosio.
Lemma is_e_same e : is_e e e = 1.
Proof. unfold is_e. by rewrite decide_True. Qed.
Lemma counted_postable e : postable e = true -> counted e = 1.
Proof. by destruct e. Qed.

#[local] Arguments cnt : simpl never.
#[local] Arguments csum : simpl never.
#[local] Arguments Z.mul : simpl never.
#[local] Arguments Z.pow : simpl never.
#[local] Arguments Z.lor : simpl never.
#[local] Arguments Z.land : simpl never.

(** The arithmetic of queues and thread contributions. *)
Ltac tally :=
  unfold work_of, occ, fetched_task, polling, parked, next_thread, unflushed in *; cbn in *;
  rewrite ?cnt_app, ?csum_app, ?cnt_cons, ?csum_cons, ?length_app, ?is_e_same in *; cbn [length b2z] in *;
  change (cnt ?e []) with 0 in *; change (csum []) with 0 in *; cbn [counted] in *;
  repeat match goal with
  | H : postable ?e = true |- _ =>
      progress rewrite ?(counted_postable _ H), ?(is_e_task_postable _ H) in *
  | H : ?e <> task_op |- _ => progress rewrite ?(is_e_task _ H) in *
  | H : forallb postable ?l = true |- _ =>
      progress rewrite ?(csum_postable _ H), ?(cnt_task_postable _ H) in *
  | H : forallb is_desc ?l = true |- _ =>
      progress rewrite ?(csum_desc _ H), ?(cnt_task_desc _ H) in *
  end; lia.

Definition step_ok (c : config) (w : world) (i : nat) (th : thread) (lab : label) : Prop :=
  forall m, prog th lab = Some m -> enabled w i th lab ->
  wp m (local_ok c w i th lab) (enter w i th).

(** Run the monadic code on a concrete local state. *)
Ltac run_code :=
  unfold wp;
  cbv beta iota zeta delta [mbind M_bind mret M_ret get put modify skip fault deref upd_sched the_sched
    set_stack emit lock unlock acquire release sched stack owns out
    cfg completed_ops_ outstanding_work_ stopped_ task_running_ task_interrupted_ state_
    set_queue set_work set_stopped set_task_running set_task_interrupted set_state
    key private_queue private_outstanding_work inline_budget inline_budget_max unassisted
    set_private_queue set_private_work set_budget set_unassisted
    new_context reactor_find_context ctx_get ctx_upd fetch_add reactor_flush_private_work
    push_completed splice_completed splice_private reactor_drain_private_queue
    int_double reset_inline_budget try_consume_inline_budget raise_signal signal_all
    maybe_unlock_and_signal_one unlock_and_signal_one clear_signal wait_enter wait_leave
    wake_one_thread_and_unlock stop restart work_started release_work compensating_work_started
    post_private post_shared post post_deferred_completions guard_enter guard_leave
    drain_thread_queue cleanup_count cleanup_queue task_cleanup fetch task_begin task_end
    entry_begin idle find_key top timeout_of
    self signaled_bit waiter_increment Nat.eqb lookup list_lookup insert list_insert negb andb orb].

(** Decide the boolean tests of the code, innermost first. *)
Ltac split_tests :=
  repeat match goal with
  | |- context [match ?b with true => _ | false => _ end] =>
      lazymatch b with
      | context [match _ with true => _ | false => _ end] => fail
      | _ => destruct b eqn:?
      end
  | H : is_empty ?q = true |- _ => destruct q; [clear H|discriminate H]
  end; cbn in *; rewrite ?raise_state in *; try discriminate.

Section steps.
Context (c : config) (w : world) (i : nat) (md : mode).
Context (Hc : cfg_ok c) (Hinv : inv c w).

(** The thread's facts, with the record of its world opened. *)
Ltac open_step :=
  intros Hth;
  pose proof (owned_at _ _ _ _ Hinv Hth) as Hown;
  pose proof (thread_ok_at _ _ _ _ Hinv Hth) as Hok;
  pose proof (parked_le (threads w)) as Hpark;
  intros code Hm [Htok Hlock]; cbn in Hm;
  repeat match type of Hm with
  | context [match ?x with _ => _ end] => destruct x eqn:?; try discriminate
  end; injection Hm as <-;
  unfold enter;
  destruct w as [[cf G n sp tr ti sta] ow ts ev tk po di];
  destruct Hinv as [Hcfg Hts Hlk Hownr Htask Htr Hst Hlen Htk Hwork Hcons];
  cbn in *; try rewrite Hown in *;
  revert Hst; generalize (signaled (mk_scheduler cf G n sp tr ti sta)); intros sig Hst; subst cf sta;
  run_code.

(** The single context of a thread inside the event loop. *)
Ltac open_frame :=
  match goal with
  | H : one_frame _ _ _ |- _ =>
      let x := fresh "x" in
      destruct H as (x & Hfr & [Hkey Hq Hpw Hb Hbm] & Hx); cbn in Hfr; subst;
      destruct x as [ky q pw ib im ua]; unfold quiet in Hx; cbn in *; subst ky
  end.

Ltac close_frame :=
  eexists; split; [reflexivity|];
  split; [constructor; cbn; try done; try tally; auto with corosio|];
  unfold quiet; cbn; try done; try tally; repeat split; try done; try tally.

Ltac close_step :=
  lazymatch goal with |- False => unfold int_max in *; lia | _ => idtac end;
  constructor; cbn; try done; try (intros; tally); try close_frame;
  try (first [match goal with b : bool |- _ => exists b; tally end | exists true; tally | exists false; tally]).

Lemma outside_ok lab : threads w !! i = Some (mk_thread Outside [] md) ->
  step_ok c w i (mk_thread Outside [] md) lab.
Proof using Hc Hinv.
  destruct Hc. destruct lab; first [open_step | intros ? ? [=]];
    split_tests; close_step.
Qed.

Lemma posting_ok e lab : threads w !! i = Some (mk_thread (Posting e) [] md) ->
  step_ok c w i (mk_thread (Posting e) [] md) lab.
Proof using Hc Hinv.
  destruct lab; first [open_step | intros ? ? [=]].
  destruct Hok as [_ He]. split_tests; close_step.
Qed.

Lemma stopping_ok b fr lab : threads w !! i = Some (mk_thread (Stopping b) fr md) ->
  step_ok c w i (mk_thread (Stopping b) fr md) lab.
Proof using Hc Hinv.
  destruct b; (destruct lab; first [open_step | intros ? ? [=]]).
  - open_frame. split_tests; close_step.
  - subst fr. split_tests; close_step.
Qed.

Lemma leaving_ok fr lab : threads w !! i = Some (mk_thread Leaving fr md) ->
  step_ok c w i (mk_thread Leaving fr md) lab.
Proof using Hc Hinv.
  destruct lab; first [open_step | intros ? ? [=]].
  open_frame. destruct Hx as [-> ->]. close_step.
Qed.

Lemma cleaning_ok fr lab : threads w !! i = Some (mk_thread Cleaning fr md) ->
  step_ok c w i (mk_thread Cleaning fr md) lab.
Proof using Hc Hinv.
  destruct lab; first [open_step | intros ? ? [=]];
    open_frame; subst pw; split_tests; close_step.
Qed.

Lemma acquire_ok fr lab : threads w !! i = Some (mk_thread Acquire fr md) ->
  step_ok c w i (mk_thread Acquire fr md) lab.
Proof using Hc Hinv.
  destruct lab; first [open_step | intros ? ? [=]].
  open_frame. destruct Hx as [-> ->].
  destruct (bool_decide (ow = Some i)) eqn:Eo;
    [apply bool_decide_eq_true in Eo|];
    split_tests; (destruct G as [|e G]; [|destruct e]); close_step.
Qed.

Lemma parked_ok b fr lab : threads w !! i = Some (mk_thread (Parked b) fr md) ->
  step_ok c w i (mk_thread (Parked b) fr md) lab.
Proof using Hc Hinv.
  destruct lab; first [open_step | intros ? ? [=]].
  - open_frame. destruct Hx as [-> ->]. close_step.
  - open_frame. destruct Hx as [-> ->].
    assert (1 <= zsum parked ts) by exact (zsum_ge _ _ _ _ parked_nonneg Hth).
    rewrite state_leave by lia. split_tests; rewrite ?state_enter by lia; close_step.
Qed.

Lemma polling_ok tmo fr lab : threads w !! i = Some (mk_thread (Polling tmo) fr md) ->
  step_ok c w i (mk_thread (Polling tmo) fr md) lab.
Proof using Hc Hinv.
  destruct lab; first [open_step | intros ? ? [=]]; open_frame.
  - subst pw. close_step.
  - subst pw.
    assert (tr = true) as -> by (pose proof (zsum_ge _ _ _ _ polling_nonneg Hth); destruct tr; cbn in *; lia).
    split_tests; close_step.
Qed.

Lemma fetched_task_not_running o fr :
  threads w !! i = Some (mk_thread (Fetched o) fr md) -> o = Some task_op ->
  task_running_ (shared w) = false.
Proof using Hinv.
  intros Hth ->. pose proof (zsum_ge _ _ _ _ fetched_task_nonneg Hth) as H. cbn in H.
  pose proof (i_task _ _ Hinv). pose proof (i_running _ _ Hinv).
  pose proof (cnt_nonneg task_op (completed_ops_ (shared w))).
  pose proof (zsum_nonneg _ (threads w) polling_nonneg).
  destruct (task_running_ (shared w)); cbn in *; [lia|done].
Qed.

Lemma fetched_ok o fr lab : threads w !! i = Some (mk_thread (Fetched o) fr md) ->
  step_ok c w i (mk_thread (Fetched o) fr md) lab.
Proof using Hc Hinv.
  intros Hth0. pose proof (fetched_task_not_running o fr Hth0) as Htr0. revert Hth0.
  destruct lab; first [open_step | intros ? ? [=]]; open_frame; destruct Hx as [-> ->];
    apply bool_decide_eq_true in Hown; try specialize (Htr0 eq_refl); cbn in Htr0; try subst tr;
    split_tests; rewrite ?clear_state, ?state_enter by lia; close_step.
Qed.

Lemma running_ok e cv k fr lab : threads w !! i = Some (mk_thread (Running e cv k) fr md) ->
  step_ok c w i (mk_thread (Running e cv k) fr md) lab.
Proof using Hc Hinv.
  destruct Hc.
  destruct lab; first [open_step | intros ? ? [=]]; open_frame; destruct Hx as (Hle & He & Hck);
    split_tests; close_step; destruct cv, k; try discriminate; tally.
Qed.

Theorem prog_ok th lab : threads w !! i = Some th -> tmode th = md -> step_ok c w i th lab.
Proof using Hc Hinv.
  destruct th as [p fr md']. intros Hth Hmd. cbn in Hmd. subst md'.
  destruct p.
  - pose proof (thread_ok_at _ _ _ _ Hinv Hth) as Hfr. cbn in Hfr. subst fr. by apply outside_ok.
  - pose proof (thread_ok_at _ _ _ _ Hinv Hth) as [Hfr _]. cbn in Hfr. subst fr.
    by apply posting_ok.
  - by apply stopping_ok.
  - by apply acquire_ok.
  - by apply fetched_ok.
  - by apply polling_ok.
  - by apply running_ok.
  - by apply cleaning_ok.
  - by apply parked_ok.
  - by apply leaving_ok.
Qed.
End steps.

Lemma step_inv c w w' i lab : cfg_ok c -> inv c w -> step i lab w w' -> inv c w'.
Proof.
  intros Hc Hinv (th & m & p & l & Hth & Hm & Hen & Hrun & Hd).
  pose proof (prog_ok c w i (tmode th) Hc Hinv th lab Hth eq_refl m Hm Hen) as H.
  unfold wp in H. rewrite Hrun in H.
  eapply inv_same; [|by eapply delivers_same]. by apply inv_commit.
Qed.

Lemma init_inv c n : Z.of_nat n < 2 ^ 62 -> inv c (init_world c n).
Proof.
  intros Hn. constructor; cbn; try done.
  - by apply Forall_replicate.
  - intros j th Hj. apply lookup_replicate in Hj as [-> _]. done.
  - by rewrite !zsum_replicate_0.
  - by rewrite zsum_replicate_0.
  - by rewrite zsum_replicate_0.
  - by rewrite length_replicate.
  - by rewrite zsum_replicate_0.
  - intros e He. rewrite zsum_replicate_0 by done. by rewrite cnt_cons, is_e_task.
Qed.

Lemma reachable_inv ok c n w :
  cfg_ok c -> Z.of_nat n < 2 ^ 62 -> reachable ok c n w -> inv c w.
Proof.
  intros Hc Hn Hr. eapply (rtc_ind_r (fun w => inv c w)); [by apply init_inv| |exact Hr].
  intros w1 w2 _ (i & lab & _ & Hs) IH. by eapply step_inv.
Qed.
