(* ===== verification/ReactorWake.v ===== *)
(** No lost wakeups among threads that call [run]: while an entry waits in the
    queue and the scheduler is not stopped, some thread is on its way to it.

    Threads are counted by what they are doing ([tallies]); the invariant
    [wake_ok] is arithmetic over these counts and the scheduler's flags. *)

From stdpp Require Import relations.
From S2P Require Import Prelude StateMonad ReactorScheduler ReactorSteps ReactorInv.
Import reactor_scheduler.

(** On its way to the queue, whatever the other threads do.  A thread that
    leaves the event loop is not. *)
Definition awake (th : thread) : Z :=
  match at_pc th with
  | Posting _ | Stopping _ | Acquire | Fetched _ | Running _ _ _ | Cleaning | Parked true => 1
  | Polling tmo => if tmo =? 0 then 1 else 0
  | _ => 0
  end.
(** Blocked in the reactor until an event or an interrupt. *)
Definition blocked (th : thread) : Z :=
  match at_pc th with
  | Polling tmo => if tmo =? 0 then 0 else 1
  | _ => 0
  end.
(** Parked on the condition variable and not notified. *)
Definition unnotified (th : thread) : Z :=
  match at_pc th with
  | Parked false => 1
  | _ => 0
  end.
Definition stopping (th : thread) : Z :=
  match at_pc th with
  | Stopping _ => 1
  | _ => 0
  end.
Definition inside (th : thread) : Z := if frames th then 0 else 1.
Definition fetched (th : thread) : Z :=
  match at_pc th with
  | Fetched _ => 1
  | _ => 0
  end.
Definition fetched_none (th : thread) : Z :=
  match at_pc th with
  | Fetched None => 1
  | _ => 0
  end.

Record tallies := mk_tallies {
  nA : Z; nB : Z; nU : Z; nS : Z; nI : Z; nF : Z; nN : Z; nP : Z
}.

Definition tal (ts : list thread) : tallies :=
  mk_tallies (zsum awake ts) (zsum blocked ts) (zsum unnotified ts) (zsum stopping ts)
    (zsum inside ts) (zsum fetched ts) (zsum fetched_none ts) (zsum parked ts).

(** Flags are compared as integers, so that the invariant is arithmetic. *)
Definition asleep (x : tallies) (ev : bool) : Prop := 0 < nU x \/ (b2z ev = 0 /\ 0 < nB x).
Definition some_awake (x : tallies) (ev : bool) : Prop := 0 < nA x \/ (b2z ev = 1 /\ 0 < nB x).
Definition queued (s : scheduler) : Z := b2z (negb (is_empty (completed_ops_ s))).

Record balanced (x : tallies) (ev : bool) (s : scheduler) (free : bool) : Prop := {
  (* a thread that found the queue empty still holds the mutex *)
  k_empty : 0 < nN x -> queued s = 0;
  (* a thread between its stop test and its next point is not stopped *)
  k_fetched : 0 < nF x -> b2z (stopped_ s) = 0;
  (* stopping signals, and leaves nobody asleep *)
  k_sig : b2z (stopped_ s) = 1 -> b2z (signaled s) = 1;
  k_nosleep : b2z (stopped_ s) = 1 -> nU x = 0 /\ (b2z ev = 1 \/ nB x = 0);
  (* an interrupted poll is not blocked *)
  k_int : b2z (task_interrupted_ s) = 1 -> b2z ev = 1 \/ nB x = 0;
  (* when the work count is zero, a thread is about to stop the scheduler or
     has signaled *)
  k_zero : outstanding_work_ s = 0 -> b2z (stopped_ s) = 0 -> 0 < nI x ->
             b2z (signaled s) = 1 \/ 0 < nS x;
  k_zero_sleep : outstanding_work_ s = 0 -> b2z (stopped_ s) = 0 -> asleep x ev -> 0 < nS x;
  (* an entry left in the queue is signaled to whoever is parked *)
  k_queue : b2z free = 1 -> queued s = 1 -> b2z (stopped_ s) = 0 ->
             b2z (signaled s) = 1 \/ 0 < nS x \/ nP x = 0;
  (* and somebody is on the way to it *)
  k_wake : b2z free = 1 -> queued s = 1 -> b2z (stopped_ s) = 0 ->
             asleep x ev -> some_awake x ev
}.

Definition is_free (o : option nat) : bool := bool_decide (o = None).

Record wake_ok (w : world) : Prop := {
  w_mode : Forall (fun th => tmode th = Run) (threads w);
  w_bal : balanced (tal (threads w)) (eventfd w) (shared w) (is_free (owner w))
}.

(** * Counting *)

Definition replace_in (x : tallies) (th th' : thread) : tallies :=
  mk_tallies (nA x - awake th + awake th') (nB x - blocked th + blocked th')
    (nU x - unnotified th + unnotified th') (nS x - stopping th + stopping th')
    (nI x - inside th + inside th') (nF x - fetched th + fetched th')
    (nN x - fetched_none th + fetched_none th') (nP x - parked th + parked th').

Lemma tal_insert ts i th th' :
  ts !! i = Some th -> tal (<[i := th']> ts) = replace_in (tal ts) th th'.
Proof. intros H. unfold tal, replace_in. by rewrite !(zsum_insert _ _ _ _ _ H). Qed.

(** The counts after the notifications of a step, in continuation style. *)
Fixpoint notified (es : list effect) (x : tallies) (ev : bool)
    (K : tallies -> bool -> Prop) : Prop :=
  match es with
  | [] => K x ev
  | notify_one :: es' =>
      (0 < nU x -> notified es' (mk_tallies (nA x + 1) (nB x) (nU x - 1) (nS x) (nI x) (nF x) (nN x) (nP x)) ev K)
      /\ (nU x = 0 -> notified es' x ev K)
  | notify_all :: es' =>
      notified es' (mk_tallies (nA x + nU x) (nB x) 0 (nS x) (nI x) (nF x) (nN x) (nP x)) ev K
  | interrupt :: es' => notified es' x true K
  | destroyed _ :: es' | invoked _ :: es' => notified es' x ev K
  end.

Lemma wake_unnotified th :
  at_pc th = Parked false ->
  awake th = 0 /\ awake (wake th) = 1 /\ blocked (wake th) = blocked th
  /\ unnotified th = 1 /\ unnotified (wake th) = 0 /\ stopping (wake th) = stopping th
  /\ inside (wake th) = inside th /\ fetched (wake th) = fetched th
  /\ fetched_none (wake th) = fetched_none th /\ parked (wake th) = parked th.
Proof. destruct th as [p fr md]. cbn. by intros ->. Qed.

Lemma tal_wake_all ts :
  tal (wake <$> ts) = mk_tallies (zsum awake ts + zsum unnotified ts) (zsum blocked ts) 0
    (zsum stopping ts) (zsum inside ts) (zsum fetched ts) (zsum fetched_none ts) (zsum parked ts).
Proof.
  unfold tal. induction ts as [|th ts IH]; [done|]. csimpl. injection IH as -> -> -> -> -> -> -> ->.
  f_equal; destruct th as [[| | | | | | | |[]|] fr md]; cbn; lia.
Qed.

Lemma unnotified_nonneg th : 0 <= unnotified th.
Proof. unfold unnotified. by destruct (at_pc th) as [| | | | | | | |[]|]. Qed.

Lemma deliver_notified e es w w' K :
  deliver e w w' -> notified (e :: es) (tal (threads w)) (eventfd w) K ->
  notified es (tal (threads w')) (eventfd w') K.
Proof.
  destruct 1 as [w i th Hi Hp|w Hno|w|w| |]; cbn; try done.
  - intros [H _]. rewrite (tal_insert _ _ _ _ Hi). unfold replace_in; cbn.
    destruct (wake_unnotified th Hp) as (-> & -> & -> & Hu & -> & -> & -> & -> & -> & ->).
    pose proof (zsum_ge _ _ _ _ unnotified_nonneg Hi). rewrite Hu in *.
    rewrite !Z.sub_0_r, !Z.sub_add, Z.add_0_r. apply H. lia.
  - intros [_ H]. apply H.
    destruct (decide (0 < zsum unnotified (threads w))) as [Hpos|].
    + apply zsum_pos in Hpos as (i & th & Hi & Hu); [|apply unnotified_nonneg].
      exfalso. apply (Hno _ _ Hi). unfold unnotified in Hu.
      by destruct (at_pc th) as [| | | | | | | |[]|].
    + pose proof (zsum_nonneg _ (threads w) unnotified_nonneg). lia.
  - by rewrite tal_wake_all.
Qed.

Lemma delivers_notified es w w' K :
  delivers es w w' -> notified es (tal (threads w)) (eventfd w) K ->
  K (tal (threads w')) (eventfd w').
Proof.
  induction 1 as [|e es w w' w'' Hd _ IH]; [done|]. intros H. apply IH.
  by eapply deliver_notified.
Qed.

(** * Facts about the counts *)

Lemma zsum_plus {A} (f g : A -> Z) l : zsum (fun x => f x + g x) l = zsum f l + zsum g l.
Proof. induction l; cbn; lia. Qed.

Lemma zsum_minus {A} (f g : A -> Z) l : zsum (fun x => f x - g x) l = zsum f l - zsum g l.
Proof. induction l; cbn; lia. Qed.

Lemma zsum_only {A} (f : A -> Z) l i x :
  l !! i = Some x -> (forall j y, l !! j = Some y -> j <> i -> f y = 0) -> zsum f l = f x.
Proof.
  revert i. induction l as [|z l IH]; intros i Hi H; [done|]. destruct i as [|i]; cbn in *.
  - injection Hi as ->. enough (zsum f l = 0) by lia.
    assert (H' : forall j y, l !! j = Some y -> f y = 0)
      by (intros j y Hy; apply (H (S j) y Hy); lia).
    clear -H'. induction l as [|a l IH]; [done|]. cbn. rewrite (H' O a eq_refl), IH; [lia|].
    intros j y Hy. by apply (H' (S j)).
  - rewrite (H O z eq_refl) by lia. rewrite (IH i Hi); [lia|].
    intros j y Hy Hj. apply (H (S j) y Hy). lia.
Qed.

Lemma count_nonneg th :
  0 <= awake th /\ 0 <= blocked th /\ 0 <= unnotified th /\ 0 <= stopping th
  /\ 0 <= inside th /\ 0 <= fetched th /\ 0 <= fetched_none th.
Proof.
  destruct th as [p fr md]. unfold awake, blocked, unnotified, stopping, inside, fetched, fetched_none.
  cbn. destruct p as [| | | |[]|tmo| | |[]|], fr; try case_match; lia.
Qed.

Lemma count_le th :
  stopping th <= awake th /\ blocked th <= polling th
  /\ unnotified th <= parked th /\ parked th <= unnotified th + awake th
  /\ fetched_none th <= fetched th.
Proof.
  destruct th as [p fr md].
  unfold awake, blocked, unnotified, stopping, polling, parked, fetched, fetched_none. cbn.
  destruct p as [| | | |[]|tmo| | |[]|]; try case_match; lia.
Qed.

Lemma work_of_nonneg c th : thread_ok c th -> 0 <= work_of th.
Proof.
  destruct th as [p fr md]. unfold thread_ok, work_of, one_frame, quiet, unflushed. cbn.
  destruct p as [|e|[]| |[e|]|tmo|e cv k| |b|];
    first [intros -> | intros (x & -> & [] & Hx) | intros [-> _]]; cbn; try lia.
  all: first [destruct cv, k; cbn in *; lia
             |destruct Hx as [-> ->]; cbn; try pose proof (counted_nonneg e); lia].
Qed.

(** Bounds on the counts of a world, with [th] one of its threads. *)
Record count_facts (w : world) (i : nat) (th : thread) : Prop := {
  f_A : 0 <= nA (tal (threads w)) /\ awake th <= nA (tal (threads w));
  f_B : 0 <= nB (tal (threads w)) /\ blocked th <= nB (tal (threads w));
  f_U : 0 <= nU (tal (threads w)) /\ unnotified th <= nU (tal (threads w));
  f_S : 0 <= nS (tal (threads w)) /\ stopping th <= nS (tal (threads w));
  f_I : 0 <= nI (tal (threads w)) /\ inside th <= nI (tal (threads w));
  f_F : 0 <= nF (tal (threads w)) /\ fetched th <= nF (tal (threads w));
  f_N : 0 <= nN (tal (threads w)) <= nF (tal (threads w));
  f_SA : awake th - stopping th <= nA (tal (threads w)) - nS (tal (threads w));
  f_BP : polling th - blocked th <= b2z (task_running_ (shared w)) - nB (tal (threads w));
  f_UP : nU (tal (threads w)) <= zsum parked (threads w) /\ parked th <= zsum parked (threads w);
  f_AUP : unnotified th + awake th - parked th
          <= nU (tal (threads w)) + nA (tal (threads w)) - zsum parked (threads w);
  f_lock : owner w = None \/ owner w = Some i ->
           nF (tal (threads w)) = fetched th /\ nN (tal (threads w)) = fetched_none th;
  f_work : 0 <= outstanding_work_ (shared w)
}.

Lemma counts c w i th : inv c w -> threads w !! i = Some th -> count_facts w i th.
Proof.
  intros Hinv Hth.
  assert (Hge : forall f, (forall y, 0 <= f y) ->
            0 <= zsum f (threads w) /\ f th <= zsum f (threads w))
    by (intros f Hf; split; [by apply zsum_nonneg|by eapply zsum_ge]).
  constructor; cbn; try (apply Hge; intros; apply count_nonneg).
  - split; [apply zsum_nonneg; intros; apply count_nonneg|apply zsum_le; intros; apply count_le].
  - rewrite <- zsum_minus. apply (zsum_ge (fun t => awake t - stopping t) _ i); [|exact Hth].
    intros t. pose proof (count_le t). lia.
  - rewrite (i_running _ _ Hinv), <- zsum_minus.
    apply (zsum_ge (fun t => polling t - blocked t) _ i); [|exact Hth].
    intros t. pose proof (count_le t). lia.
  - split; [apply zsum_le; intros; apply count_le|by apply (zsum_ge _ _ i); [apply parked_nonneg|]].
  - rewrite <- zsum_plus, <- zsum_minus.
    apply (zsum_ge (fun t => unnotified t + awake t - parked t) _ i); [|exact Hth].
    intros t. pose proof (count_le t). lia.
  - intros Ho. split; apply (zsum_only _ _ _ _ Hth); intros j y Hy Hj;
      pose proof (i_lock _ _ Hinv _ _ Hy) as Hl; unfold fetched, fetched_none;
      destruct (at_pc y) as [| | | |[]| | | | |]; try done;
      cbn in Hl; apply bool_decide_eq_true in Hl; destruct Ho; congruence.
  - rewrite (i_work _ _ Hinv). pose proof (i_tokens _ _ Hinv).
    pose proof (csum_nonneg (completed_ops_ (shared w))).
    enough (0 <= zsum work_of (threads w)) by lia.
    pose proof (i_threads _ _ Hinv) as Ht. revert Ht. generalize (threads w) as ts.
    induction 1 as [|y ts Hy _ IH]; cbn; [lia|]. pose proof (work_of_nonneg _ _ Hy). lia.
Qed.

(** * Preservation *)

Definition keeps (w : world) (i : nat) (th : thread) (lab : label) (m : SM pc) : Prop :=
  wp m (fun p l =>
    notified (out l) (replace_in (tal (threads w)) th (next_thread lab th p l))
      (match lab with LPollEnd _ true => false | _ => eventfd w end)
      (fun x ev => balanced x ev (sched l)
         (is_free (if owns l then Some i
                   else if decide (owner w = Some i) then None else owner w))))
  (enter w i th).

Lemma signaled_eq c G n sp tr ti P b :
  signaled (mk_scheduler c G n sp tr ti (2 * P + b2z b)) = b.
Proof. by eapply signaled_split. Qed.

Lemma signaled_raised c G n sp tr ti P :
  signaled (mk_scheduler c G n sp tr ti (2 * P + 1)) = true.
Proof. apply (signaled_eq _ _ _ _ _ _ P true). Qed.

Lemma signaled_cleared c G n sp tr ti P :
  signaled (mk_scheduler c G n sp tr ti (2 * P + 0)) = false.
Proof. apply (signaled_eq _ _ _ _ _ _ P false). Qed.

Lemma state_enter_cleared P : 0 <= P < 2 ^ 62 -> u64 (2 * P + 0 + 2) = 2 * (P + 1) + 0.
Proof. apply (state_enter P false). Qed.

Lemma b2z_range b : 0 <= b2z b <= 1.
Proof. destruct b; cbn; lia. Qed.
Lemma b2z_negb b : b2z (negb b) = 1 - b2z b.
Proof. by destruct b. Qed.
Lemma empty_snoc q e : is_empty (q ++ [e]) = false.
Proof. by destruct q. Qed.
Lemma empty_app q ops : is_empty ops = false -> is_empty (q ++ ops) = false.
Proof. by destruct q. Qed.

Section keeps.
Context (c : config) (w : world) (i : nat).
Context (Hc : cfg_ok c) (Hone : one_thread_ c = false) (Hinv : inv c w) (Hw : wake_ok w).

Ltac open_keeps :=
  intros Hth code Hm [_ Hlock];
  pose proof (owned_at _ _ _ _ Hinv Hth) as Hown;
  pose proof (thread_ok_at _ _ _ _ Hinv Hth) as Hok;
  pose proof (counts _ _ _ _ Hinv Hth) as [HA HB HU HS HI HF HN HSA HBP HUP HAUP HFl Hwk];
  pose proof (i_len _ _ Hinv) as Hlen; pose proof (parked_le (threads w)) as Hpark;
  cbn in Hm;
  repeat match type of Hm with
  | context [match ?x with _ => _ end] => destruct x eqn:?; try discriminate
  end; injection Hm as <-;
  pose proof (i_state _ _ Hinv) as Hst; pose proof (i_cfg _ _ Hinv) as Hcfg;
  destruct Hw as [_ [Kempty Kfetched Ksig Knosleep Kint Kzero Kzs Kqueue Kwake]];
  unfold keeps, enter, asleep, some_awake, queued in *; rewrite ?b2z_negb in *;
  destruct w as [[cf G n sp tr ti sta] ow ts ev tk po di]; cbn in * |-;
  cbn [threads eventfd owner shared frames at_pc tmode];
  subst cf;
  set (sig := signaled (mk_scheduler c G n sp tr ti sta)) in *; clearbody sig; subst sta;
  clear Hinv Hw; unfold tal;
  set (A := zsum awake ts) in *; set (B := zsum blocked ts) in *;
  set (U := zsum unnotified ts) in *; set (S := zsum stopping ts) in *;
  set (I := zsum inside ts) in *; set (F := zsum fetched ts) in *;
  set (N := zsum fetched_none ts) in *; set (P := zsum parked ts) in *;
  clearbody A B U S I F N P;
  pose proof (b2z_range sp); pose proof (b2z_range tr); pose proof (b2z_range ti);
  pose proof (b2z_range ev); pose proof (b2z_range sig); pose proof (b2z_range (is_empty G));
  pose proof (b2z_range (is_free ow)).

(** Whether the mutex is free before and after. *)
Ltac own_cases :=
  match goal with
  | H : bool_decide (?o = Some ?j) = false |- _ =>
      rewrite H; apply bool_decide_eq_false in H;
      rewrite ?(decide_False (P := o = Some j)) by exact H
  | H : bool_decide (?o = Some ?j) = true |- _ =>
      rewrite H; apply bool_decide_eq_true in H; subst o;
      rewrite ?(decide_True (P := Some j = Some j)) by reflexivity
  end.

Ltac take_lock :=
  repeat match goal with
  | H : is_empty ?q = false, K : context [is_empty ?q] |- _ =>
      lazymatch type of K with
      | is_empty q = false => fail
      | _ => rewrite H in K; cbn in K
      end
  end;
  try match goal with
  | H : true = true -> _ \/ _ |- _ => destruct (H eq_refl); [subst|congruence]
  end;
  try match goal with
  | H : None = None \/ _ -> _ |- _ => specialize (H (or_introl eq_refl))
  | H : _ \/ Some ?j = Some ?j -> _ |- _ => specialize (H (or_intror eq_refl))
  end;
  change (is_free None) with true in *; change (is_free (Some i)) with false in *;
  cbn [b2z] in *.

Ltac close_keeps Kempty Kfetched Ksig Knosleep Kint Kzero Kzs Kqueue Kwake :=
  lazymatch goal with
  | |- False =>
      clear Kempty Kfetched Ksig Knosleep Kint Kzero Kzs Kqueue Kwake; unfold int_max in *; lia
  | _ => idtac
  end;
  unfold replace_in, next_thread;
  unfold awake, blocked, unnotified, stopping, inside, fetched, fetched_none, parked; cbn;
  rewrite ?raise_state in *;
  repeat match goal with
  | |- _ /\ _ => split
  | |- _ -> _ => intros ?
  end;
  (constructor; unfold asleep, some_awake, queued; cbn;
  rewrite ?signaled_eq, ?signaled_raised, ?signaled_cleared, ?empty_snoc, ?empty_app, ?b2z_negb by assumption;
  cbn [b2z]; rewrite ?Z.sub_0_r, ?Z.add_0_r, ?Z.sub_add;
  [clear Kfetched Ksig Knosleep Kint Kzero Kzs Kqueue Kwake
  |clear Kempty Ksig Knosleep Kint Kzero Kzs Kqueue Kwake
  |clear Kempty Kfetched Knosleep Kint Kzero Kzs Kqueue Kwake
  |clear Kempty Kfetched Kint Kzero Kzs Kqueue Kwake
  |clear Kempty Kfetched Ksig Knosleep Kzero Kzs Kqueue Kwake
  |clear Kempty Kfetched Knosleep Kint Kzs Kqueue Kwake
  |clear Kempty Kfetched Ksig Kint Kqueue Kwake
  |clear Kempty Kfetched Knosleep Kint Kzs Kwake
  |clear Kempty Kfetched Ksig Kzero]);
  first [assumption | lia | idtac].

(** The context of a thread inside the event loop. *)
Ltac open_frame :=
  match goal with
  | H : one_frame _ _ _ |- _ =>
      let x := fresh "x" in
      destruct H as (x & Hfr & [Hkey Hq Hpw Hb Hbm] & Hx); cbn in Hfr;
      destruct x as [ky q pw ib im ua]; unfold quiet in Hx; cbn in Hkey, Hpw, Hx |- *; subst
  end.

Definition keeps_at (p : pc) (fr : list context) (lab : label) : Prop :=
  threads w !! i = Some (mk_thread p fr Run) ->
  forall m, prog (mk_thread p fr Run) lab = Some m ->
  enabled w i (mk_thread p fr Run) lab -> keeps w i (mk_thread p fr Run) lab m.

Lemma outside_keeps lab : keeps_at Outside [] lab.
Proof using Hc Hinv Hw.
  unfold keeps_at. destruct lab; first [open_keeps | intros ? ? [=]]; own_cases; run_code;
    split_tests; take_lock; close_keeps Kempty Kfetched Ksig Knosleep Kint Kzero Kzs Kqueue Kwake.
Qed.

Lemma posting_keeps e lab : keeps_at (Posting e) [] lab.
Proof using Hc Hinv Hw.
  unfold keeps_at. destruct lab; first [open_keeps | intros ? ? [=]]; own_cases; run_code;
    split_tests; take_lock; close_keeps Kempty Kfetched Ksig Knosleep Kint Kzero Kzs Kqueue Kwake.
Qed.

Lemma stopping_keeps b fr lab : keeps_at (Stopping b) fr lab.
Proof using Hc Hinv Hw.
  unfold keeps_at. destruct b; (destruct lab; first [open_keeps | intros ? ? [=]]);
    try open_frame; try subst fr; own_cases; run_code;
    split_tests; take_lock; close_keeps Kempty Kfetched Ksig Knosleep Kint Kzero Kzs Kqueue Kwake.
Qed.

Lemma leaving_keeps fr lab : keeps_at Leaving fr lab.
Proof using Hc Hinv Hw.
  unfold keeps_at. destruct lab; first [open_keeps | intros ? ? [=]]; open_frame.
  destruct Hx as [-> ->]. own_cases; run_code.
  split_tests; take_lock; close_keeps Kempty Kfetched Ksig Knosleep Kint Kzero Kzs Kqueue Kwake.
Qed.

Lemma cleaning_keeps fr lab : keeps_at Cleaning fr lab.
Proof using Hc Hinv Hw.
  unfold keeps_at. destruct lab; first [open_keeps | intros ? ? [=]]; open_frame; cbn in Hlock;
    own_cases; run_code; split_tests; take_lock;
    close_keeps Kempty Kfetched Ksig Knosleep Kint Kzero Kzs Kqueue Kwake.
Qed.

Lemma acquire_keeps fr lab : keeps_at Acquire fr lab.
Proof using Hc Hinv Hw.
  unfold keeps_at. destruct lab; first [open_keeps | intros ? ? [=]]; open_frame.
  destruct Hx as [-> ->]. destruct (bool_decide (ow = Some i)) eqn:Eo.
  - apply bool_decide_eq_true in Eo. subst ow. rewrite decide_True by done. run_code.
    split_tests; destruct G; take_lock;
      close_keeps Kempty Kfetched Ksig Knosleep Kint Kzero Kzs Kqueue Kwake.
  - apply bool_decide_eq_false in Eo. rewrite decide_False by done. run_code.
    split_tests; destruct G; take_lock;
      close_keeps Kempty Kfetched Ksig Knosleep Kint Kzero Kzs Kqueue Kwake.
Qed.

Lemma parked_keeps b fr lab : keeps_at (Parked b) fr lab.
Proof using Hc Hinv Hw.
  unfold keeps_at. destruct lab; first [open_keeps | intros ? ? [=]]; open_frame;
    destruct Hx as [-> ->].
  - destruct b; own_cases; run_code; split_tests; take_lock;
      close_keeps Kempty Kfetched Ksig Knosleep Kint Kzero Kzs Kqueue Kwake.
  - own_cases. assert (1 <= P) by (cbn in HUP; lia). run_code. rewrite state_leave by lia.
    rewrite signaled_eq.
    split_tests; rewrite ?state_enter_cleared by lia; take_lock;
      close_keeps Kempty Kfetched Ksig Knosleep Kint Kzero Kzs Kqueue Kwake.
Qed.

Lemma running_keeps e cv k fr lab : keeps_at (Running e cv k) fr lab.
Proof using Hc Hinv Hw.
  destruct Hc.
  unfold keeps_at. destruct lab; first [open_keeps | intros ? ? [=]]; open_frame; own_cases;
    run_code; split_tests; take_lock.
  all: close_keeps Kempty Kfetched Ksig Knosleep Kint Kzero Kzs Kqueue Kwake.
Qed.

Lemma polling_keeps tmo fr lab : keeps_at (Polling tmo) fr lab.
Proof using Hc Hinv Hw.
  unfold keeps_at. destruct lab; first [open_keeps | intros ? ? [=]]; open_frame;
    own_cases; run_code; split_tests; take_lock.
  all: close_keeps Kempty Kfetched Ksig Knosleep Kint Kzero Kzs Kqueue Kwake.
Qed.

(** What a thread that has popped knows. *)
Lemma fetched_facts o fr :
  threads w !! i = Some (mk_thread (Fetched o) fr Run) ->
  stopped_ (shared w) = false
  /\ (o = Some task_op -> task_running_ (shared w) = false)
  /\ (o = None -> completed_ops_ (shared w) = []).
Proof using Hinv Hw.
  intros Hth. pose proof (counts _ _ _ _ Hinv Hth) as Hf. destruct Hw as [_ Hb].
  pose proof (f_F _ _ _ Hf) as HF. cbn in HF. split; [|split].
  - pose proof (k_fetched _ _ _ _ Hb) as H. cbn in H.
    destruct (stopped_ (shared w)); [exfalso; cbn in H; lia|done].
  - intros ->. eapply fetched_task_not_running; [exact Hinv|exact Hth|done].
  - intros ->. pose proof (k_empty _ _ _ _ Hb) as H. unfold queued in H. cbn in H.
    assert (1 <= zsum fetched_none (threads w))
      by (apply (zsum_ge fetched_none _ i _ (fun t => proj2 (proj2 (proj2 (proj2 (proj2 (proj2 (count_nonneg t))))))) Hth)).
    destruct (completed_ops_ (shared w)); [done|exfalso; cbn in H; lia].
Qed.

Lemma fetched_keeps o fr lab : keeps_at (Fetched o) fr lab.
Proof using Hc Hone Hinv Hw.
  intros Hth0. destruct (fetched_facts _ _ Hth0) as (Hsp & Htr0 & HG). revert Hth0.
  destruct lab; first [open_keeps | intros ? ? [=]]; open_frame;
    try specialize (Htr0 eq_refl); try specialize (HG eq_refl); try subst tr; try subst G;
    destruct Hx as [-> ->]; own_cases; run_code; rewrite ?Hone;
    split_tests; rewrite ?clear_state, ?state_enter by lia; take_lock;
    close_keeps Kempty Kfetched Ksig Knosleep Kint Kzero Kzs Kqueue Kwake.
Qed.

Lemma all_keep p fr lab : keeps_at p fr lab.
Proof using Hc Hone Hinv Hw.
  destruct p; try (intros Hth; pose proof (thread_ok_at _ _ _ _ Hinv Hth) as Hok; revert Hth).
  - cbn in Hok. subst fr. apply outside_keeps.
  - destruct Hok as [Hfr _]. cbn in Hfr. subst fr. apply posting_keeps.
  - apply stopping_keeps.
  - apply acquire_keeps.
  - apply fetched_keeps.
  - apply polling_keeps.
  - apply running_keeps.
  - apply cleaning_keeps.
  - apply parked_keeps.
  - apply leaving_keeps.
Qed.
End keeps.

Definition only_run (m : mode) : bool :=
  match m with
  | Run => true
  | _ => false
  end.

Lemma delivers_modes es w w' :
  delivers es w w' -> Forall (fun th => tmode th = Run) (threads w) ->
  Forall (fun th => tmode th = Run) (threads w').
Proof.
  intros Hd H. destruct (delivers_same _ _ _ Hd) as [_ _ Hts _ _ _].
  apply list.Forall_lookup_2. intros j th' Hj.
  destruct (Forall2_lookup_r _ _ _ _ _ Hts Hj) as (th & Hth & Hwk).
  pose proof (Forall_lookup_1 _ _ _ _ H Hth). by destruct Hwk as [->| ->].
Qed.

Lemma wake_step c w w' i lab :
  cfg_ok c -> one_thread_ c = false -> inv c w -> wake_ok w ->
  permitted only_run lab -> step i lab w w' -> wake_ok w'.
Proof.
  intros Hc Hone Hinv Hw Hp (th & m & p & l & Hth & Hm & Hen & Hrun & Hd).
  pose proof (Forall_lookup_1 _ _ _ _ (w_mode _ Hw) Hth) as Hmd. cbn in Hmd.
  constructor.
  - eapply delivers_modes; [exact Hd|]. cbn. apply Forall_insert; [apply Hw|]. cbn.
    destruct lab; try done. cbn in Hp. by destruct m0.
  - destruct th as [q fr md]. cbn in Hmd. subst md.
    pose proof (all_keep c w i Hc Hone Hinv Hw q fr lab Hth m Hm Hen) as H.
    unfold keeps, wp in H. rewrite Hrun in H.
    destruct (delivers_same _ _ _ Hd) as [-> -> _ _ _ _].
    eapply (delivers_notified _ _ _ (fun x ev => balanced x ev _ _)); [exact Hd|].
    cbn [commit threads eventfd shared owner]. by rewrite (tal_insert _ _ _ _ Hth).
Qed.

Lemma init_wake c n : wake_ok (init_world c n).
Proof.
  assert (Ht : tal (threads (init_world c n)) = mk_tallies 0 0 0 0 0 0 0 0)
    by (unfold tal; cbn; by rewrite !zsum_replicate_0).
  constructor; [by apply Forall_replicate|]. rewrite Ht.
  constructor; unfold asleep; cbn; lia.
Qed.

Lemma reachable_wake c n w :
  cfg_ok c -> one_thread_ c = false -> Z.of_nat n < 2 ^ 62 ->
  reachable only_run c n w -> inv c w /\ wake_ok w.
Proof.
  intros Hc Hone Hn Hr.
  eapply (rtc_ind_r (fun w => inv c w /\ wake_ok w));
    [split; [by apply init_inv|apply init_wake]| |exact Hr].
  intros w1 w2 _ (i & lab & Hp & Hs) [Hi Hw].
  split; [by eapply step_inv|by eapply wake_step].
Qed.

(** * An awake thread can move *)

(** The step the thread takes next. *)
Definition next_label (p : pc) : label :=
  match p with
  | Posting _ => LPush
  | Stopping _ => LDoStop
  | Polling _ => LPollEnd [] true
  | Running _ cv k => if cv || k then LFinish else LCompensate
  | Cleaning => LClean
  | Parked _ => LWake
  | Leaving => LLeave
  | _ => LFetch
  end.

Lemma deliver_total e w : exists w', deliver e w w'.
Proof.
  destruct e; [|eexists; constructor ..].
  destruct (decide (Exists (fun th => at_pc th = Parked false) (threads w))) as [H|H].
  - apply list.Exists_exists in H as (th & Hin & Hp). apply list_elem_of_lookup in Hin as [i Hi].
    exact (ex_intro _ _ (deliver_one w i th Hi Hp)).
  - exists w. apply deliver_none. intros i th Hi Hp. apply H, list.Exists_exists.
    exists th. split; [by eapply list_elem_of_lookup_2|done].
Qed.

Lemma delivers_total es w : exists w', delivers es w w'.
Proof.
  revert w. induction es as [|e es IH]; intros w; [eexists; constructor|].
  destruct (deliver_total e w) as [w1 H1]. destruct (IH w1) as [w2 H2].
  exists w2. by econstructor.
Qed.

Lemma step_total c w i th lab :
  cfg_ok c -> inv c w -> threads w !! i = Some th -> is_Some (prog th lab) ->
  enabled w i th lab -> exists w', step i lab w w'.
Proof.
  intros Hc Hinv Hth [m Hm] Hen.
  pose proof (prog_ok c w i (tmode th) Hc Hinv th lab Hth eq_refl m Hm Hen) as H.
  apply wp_ok in H as (p & l & Hrun & _).
  destruct (delivers_total (out l) (commit w i th lab p l)) as [w' Hd].
  exists w', th, m, p, l. done.
Qed.

Lemma awake_moves c w i th :
  cfg_ok c -> inv c w -> owner w = None -> threads w !! i = Some th ->
  0 < awake th \/ 0 < blocked th -> exists w', step i (next_label (at_pc th)) w w'.
Proof.
  intros Hc Hinv Ho Hth Haw. pose proof (owned_at _ _ _ _ Hinv Hth) as Hown.
  pose proof (i_tokens _ _ Hinv) as Htk.
  eapply step_total; [done|done|done| |].
  - destruct th as [p fr md]. unfold awake, blocked in Haw. cbn in *.
    destruct p as [|e|b| |o|tmo|e cv k| |[]|]; cbn; try (eexists; reflexivity); try lia.
    + cbn in Hown. apply bool_decide_eq_true in Hown. congruence.
    + destruct cv, k; cbn; eexists; reflexivity.
  - split; [|intros; by left].
    destruct th as [p fr md]. cbn. destruct p; cbn; try lia. by case_match.
Qed.

(** Threads that only call [run]: an entry that waits in the queue of a running
    scheduler is never stranded.  If some thread sleeps in the event loop, then
    some thread is awake, and it can take its next step. *)
Lemma run_never_strands c n w :
  cfg_ok c -> one_thread_ c = false -> Z.of_nat n < 2 ^ 62 ->
  reachable only_run c n w ->
  owner w = None -> stopped_ (shared w) = false -> completed_ops_ (shared w) <> [] ->
  asleep (tal (threads w)) (eventfd w) ->
  exists i th w', threads w !! i = Some th
    /\ (0 < awake th \/ (eventfd w = true /\ 0 < blocked th))
    /\ step i (next_label (at_pc th)) w w'.
Proof.
  intros Hc Hone Hn Hr Ho Hsp HG Has.
  destruct (reachable_wake c n w Hc Hone Hn Hr) as [Hinv [_ Hb]].
  assert (Haw : some_awake (tal (threads w)) (eventfd w)).
  { apply (k_wake _ _ _ _ Hb); [by rewrite Ho| |by rewrite Hsp|exact Has].
    unfold queued. by destruct (completed_ops_ (shared w)). }
  assert (exists i th, threads w !! i = Some th
            /\ (0 < awake th \/ (eventfd w = true /\ 0 < blocked th))) as (i & th & Hth & Hi).
  { destruct Haw as [HA|[Hev HB]].
    - apply zsum_pos in HA as (i & th & ? & ?); [eauto|intros; apply count_nonneg].
    - apply zsum_pos in HB as (i & th & ? & ?); [|intros; apply count_nonneg].
      exists i, th. split; [done|right]. split; [|done]. by destruct (eventfd w). }
  destruct (awake_moves c w i th Hc Hinv Ho Hth ltac:(tauto)) as [w' Hs].
  by exists i, th, w'.
Qed.
