(* ===== verification/ReactorClaims.v ===== *)
(** Properties of the reactor scheduler: what holds in every interleaving of
    its threads, what fails when [run] is mixed with the bounded modes, and the
    behaviour of its single-threaded operations. *)

From stdpp Require Import relations.
From S2P Require Import Prelude StateMonad ReactorScheduler ReactorSteps ReactorInv ReactorWake.
Import reactor_scheduler.

(** * Executing the transition system *)

Definition first_unnotified (ts : list thread) : option (nat * thread) :=
  list_find (fun th => at_pc th = Parked false) ts.

Definition do_deliver (e : effect) (w : world) : world :=
  match e with
  | notify_one =>
      match first_unnotified (threads w) with
      | Some (i, th) => with_threads (<[i := wake th]> (threads w)) w
      | None => w
      end
  | notify_all => with_threads (wake <$> threads w) w
  | interrupt => with_eventfd true w
  | destroyed _ | invoked _ => w
  end.

Definition can_take (w : world) (i : nat) (th : thread) (lab : label) : bool :=
  (takes lab th <=? tokens w)
  && (negb (takes_lock lab th) || bool_decide (owner w = None) || bool_decide (owner w = Some i)).

Definition do_step (i : nat) (lab : label) (w : world) : option world :=
  th ← threads w !! i;
  m ← prog th lab;
  if can_take w i th lab then
    match m (enter w i th) with
    | Ok (p, l) => Some (foldl (fun w e => do_deliver e w) (commit w i th lab p l) (out l))
    | _ => None
    end
  else None.

Fixpoint exec (ls : list (nat * label)) (w : world) : option world :=
  match ls with
  | [] => Some w
  | (i, lab) :: ls' => w' ← do_step i lab w; exec ls' w'
  end.

Lemma do_deliver_sound e w : deliver e w (do_deliver e w).
Proof.
  destruct e; cbn; try constructor.
  unfold first_unnotified. destruct (list_find _ _) as [[i th]|] eqn:E.
  - apply list_find_Some in E as (Hi & Hp & _). by constructor.
  - apply deliver_none. intros i th Hi Hp. apply list_find_None in E.
    by apply (Forall_lookup_1 _ _ _ _ E Hi).
Qed.

Lemma do_delivers_sound es w :
  delivers es w (foldl (fun w e => do_deliver e w) w es).
Proof.
  revert w. induction es as [|e es IH]; intros w; [constructor|].
  econstructor; [apply do_deliver_sound|apply IH].
Qed.

Lemma can_take_enabled w i th lab : can_take w i th lab = true -> enabled w i th lab.
Proof.
  unfold can_take. intros H. apply andb_true_iff in H as [Ht Hl].
  split; [lia|]. intros Hk. rewrite Hk in Hl. cbn in Hl.
  apply orb_true_iff in Hl as [H|H]; apply bool_decide_eq_true in H; auto.
Qed.

Lemma do_step_sound i lab w w' : do_step i lab w = Some w' -> step i lab w w'.
Proof.
  unfold do_step. intros H.
  destruct (threads w !! i) as [th|] eqn:Hth; [cbn in H|discriminate].
  destruct (prog th lab) as [m|] eqn:Hm; [cbn in H|discriminate].
  destruct (can_take w i th lab) eqn:Hc; [|discriminate].
  destruct (m (enter w i th)) as [[p l]| |] eqn:Hr; try discriminate.
  injection H as <-. exists th, m, p, l.
  split; [done|]. split; [done|]. split; [by apply can_take_enabled|].
  split; [done|]. apply do_delivers_sound.
Qed.

Lemma steps_reachable ok c n ls w w' :
  reachable ok c n w -> Forall (fun p => permitted ok p.2) ls -> exec ls w = Some w' ->
  reachable ok c n w'.
Proof.
  revert w. induction ls as [|[i lab] ls IH]; intros w Hr Hp H; cbn in H.
  - by injection H as <-.
  - apply list.Forall_cons in Hp as [Hp Hps].
    destruct (do_step i lab w) as [w1|] eqn:Hs; [cbn in H|discriminate].
    eapply IH; [|exact Hps|exact H]. eapply rtc_r; [exact Hr|].
    exists i, lab. split; [exact Hp|by apply do_step_sound].
Qed.

Definition any_mode (m : mode) : bool := true.

Lemma default_cfg_ok : cfg_ok default_config.
Proof. constructor; cbn; unfold int_max; lia. Qed.

(** Two threads: one polls the reactor, the other runs the entry [op 1]. *)
Definition demo_steps : list (nat * label) :=
  [(0, LPost (op 1)); (0, LPush); (0, LWorkStart); (1, LEnter Run); (1, LFetch); (1, LTask);
   (0, LEnter Run)]%nat.

Definition demo : world :=
  default (init_world default_config 2) (exec demo_steps (init_world default_config 2)).

Lemma reactor_demo_reachable : reachable any_mode default_config 2 demo.
Proof.
  apply (steps_reachable _ _ _ demo_steps (init_world default_config 2)).
  - apply rtc_refl.
  - by repeat constructor.
  - vm_compute. reflexivity.
Qed.

(** * In every interleaving *)

(** Every piece of the scheduler's code that a thread can run in a
    reachable state returns normally, whatever the threads did before: no
    mutex is locked twice or released by a thread that does not hold it, no
    context pointer is null, and the budget never overflows an [int]. *)
Theorem scheduler_never_faults ok c n w i th lab m :
  cfg_ok c -> Z.of_nat n < 2 ^ 62 -> reachable ok c n w ->
  threads w !! i = Some th -> prog th lab = Some m -> enabled w i th lab ->
  exists p l, m (enter w i th) = Ok (p, l).
Proof.
  intros Hc Hn Hr Hth Hm Hen.
  pose proof (prog_ok c w i (tmode th) Hc (reachable_inv _ _ _ _ Hc Hn Hr) th lab Hth eq_refl
                m Hm Hen) as H.
  apply wp_ok in H as (p & l & H & _). by exists p, l.
Qed.

Lemma scheduler_never_faults_witness :
  exists th m p l, threads demo !! 1%nat = Some th
    /\ prog th (LPollEnd [desc 3] false) = Some m /\ m (enter demo 1 th) = Ok (p, l).
Proof.
  eexists _, _. edestruct (scheduler_never_faults any_mode default_config 2 demo 1
    ltac:(let t := eval vm_compute in (threads demo !! 1%nat) in
          match t with Some ?x => exact x end) (LPollEnd [desc 3] false)) as (p & l & H).
  - apply default_cfg_ok.
  - lia.
  - apply reactor_demo_reachable.
  - vm_compute. reflexivity.
  - reflexivity.
  - apply can_take_enabled. vm_compute. reflexivity.
  - exists p, l. split; [vm_compute; reflexivity|]. split; [reflexivity|exact H].
Defined.

(** The reactor is polled by at most one thread: the sentinel is in exactly
    one place, the queue or the hands of one thread, and [task_running_] is set
    exactly while a thread polls.  The word [state_] is twice the number of
    parked threads plus the signaled bit, and fits its [size_t]. *)
Theorem one_poller_and_parked_count ok c n w :
  cfg_ok c -> Z.of_nat n < 2 ^ 62 -> reachable ok c n w ->
  cnt task_op (completed_ops_ (shared w)) + zsum fetched_task (threads w)
    + zsum polling (threads w) = 1
  /\ (task_running_ (shared w) = true <->
      exists i th tmo, threads w !! i = Some th /\ at_pc th = Polling tmo)
  /\ (forall i j th th' t t', threads w !! i = Some th -> threads w !! j = Some th' ->
      at_pc th = Polling t -> at_pc th' = Polling t' -> i = j)
  /\ state_ (shared w) = 2 * zsum parked (threads w) + b2z (signaled (shared w))
  /\ 0 <= state_ (shared w) < 2 ^ 64.
Proof.
  intros Hc Hn Hr. pose proof (reachable_inv _ _ _ _ Hc Hn Hr) as Hinv.
  pose proof (i_task _ _ Hinv) as Ht. pose proof (i_running _ _ Hinv) as Hrun.
  pose proof (cnt_nonneg task_op (completed_ops_ (shared w))).
  pose proof (zsum_nonneg _ (threads w) fetched_task_nonneg).
  split; [exact Ht|]. split; [|split].
  - split.
    + intros E. rewrite E in Hrun. cbn in Hrun.
      destruct (zsum_pos polling (threads w) polling_nonneg ltac:(lia)) as (i & th & Hi & Hp).
      unfold polling in Hp. destruct (at_pc th) eqn:Ep; try lia. by eexists _, _, _.
    + intros (i & th & tmo & Hi & Hp). pose proof (zsum_ge _ _ _ _ polling_nonneg Hi) as Hge.
      unfold polling in Hge at 1. rewrite Hp in Hge.
      destruct (task_running_ (shared w)); [done|cbn in Hrun; lia].
  - intros i j th th' t t' Hi Hj Hp Hp'. destruct (decide (i = j)) as [|Hne]; [done|exfalso].
    assert (Hj' : <[i := mk_thread Outside [] Run]> (threads w) !! j = Some th')
      by (by rewrite list_lookup_insert_ne).
    pose proof (zsum_ge _ _ _ _ polling_nonneg Hj') as Hge.
    rewrite (zsum_insert _ _ _ _ _ Hi) in Hge. unfold polling in Hge at 1 3 4.
    rewrite Hp, Hp' in Hge. cbn in Hge. lia.
  - pose proof (i_state _ _ Hinv) as Hs. split; [exact Hs|].
    pose proof (parked_le (threads w)). pose proof (i_len _ _ Hinv).
    rewrite Hs. destruct (signaled (shared w)); cbn; lia.
Qed.

Lemma one_poller_and_parked_count_witness :
  0 <= state_ (shared demo) < 2 ^ 64 /\ task_running_ (shared demo) = true.
Proof.
  destruct (one_poller_and_parked_count any_mode default_config 2 demo default_cfg_ok
              ltac:(lia) reactor_demo_reachable) as (_ & _ & _ & _ & H).
  split; [exact H|reflexivity].
Defined.

(** C5: No entry is lost, duplicated or run twice: at every moment the entries
    posted so far are those already handed to their handler, those in the shared
    queue, and those a thread holds or has in its private queue. *)
Theorem entries_conserved ok c n w e :
  cfg_ok c -> Z.of_nat n < 2 ^ 62 -> reachable ok c n w -> e <> task_op ->
  cnt e (posted w) = cnt e (dispatched w) + cnt e (completed_ops_ (shared w))
                     + zsum (occ e) (threads w)
  /\ cnt e (dispatched w) <= cnt e (posted w).
Proof.
  intros Hc Hn Hr He. pose proof (reachable_inv _ _ _ _ Hc Hn Hr) as Hinv.
  pose proof (i_cons _ _ Hinv e He) as H. split; [exact H|].
  pose proof (cnt_nonneg e (completed_ops_ (shared w))).
  enough (0 <= zsum (occ e) (threads w)) by lia. apply zsum_nonneg. intros th.
  unfold occ. pose proof (zsum_nonneg (fun x => cnt e (private_queue x)) (frames th)
                            (fun x => cnt_nonneg e _)).
  destruct (at_pc th) as [|x| | |[x|]| | | | |]; try pose proof (is_e_nonneg e x); lia.
Qed.

Lemma entries_conserved_witness :
  cnt (op 1) (posted demo) = 1 /\ cnt (op 1) (dispatched demo) <= cnt (op 1) (posted demo).
Proof.
  destruct (entries_conserved any_mode default_config 2 demo (op 1) default_cfg_ok
              ltac:(lia) reactor_demo_reachable ltac:(discriminate)) as [_ H].
  split; [vm_compute; reflexivity|exact H].
Defined.

(** C6: The work count is exact: it is the work held outside the queues, the
    counted entries of the shared queue, and what the threads account for (a
    post in flight, the handler being run, deferred completions not yet
    flushed).  When it is zero nothing counted is queued, posted or running, so
    stopping the scheduler there loses no work. *)
Theorem work_count_exact ok c n w :
  cfg_ok c -> Z.of_nat n < 2 ^ 62 -> reachable ok c n w ->
  outstanding_work_ (shared w)
    = tokens w + csum (completed_ops_ (shared w)) + zsum work_of (threads w)
  /\ 0 <= outstanding_work_ (shared w)
  /\ (outstanding_work_ (shared w) = 0 ->
      tokens w = 0
      /\ (forall e, e ∈ completed_ops_ (shared w) -> counted e = 0)
      /\ (forall i th, threads w !! i = Some th ->
            forall e, at_pc th <> Posting e /\ forall k, at_pc th <> Running e true k)).
Proof.
  intros Hc Hn Hr. pose proof (reachable_inv _ _ _ _ Hc Hn Hr) as Hinv.
  pose proof (i_work _ _ Hinv) as Hw. pose proof (i_tokens _ _ Hinv) as Ht.
  pose proof (csum_nonneg (completed_ops_ (shared w))) as Hq.
  assert (Hpos : forall i th, threads w !! i = Some th -> work_of th <= zsum work_of (threads w)).
  { intros i th Hi. eapply zsum_ge_Forall; [|exact Hi].
    eapply list.Forall_impl; [apply (i_threads _ _ Hinv)|apply work_of_nonneg]. }
  assert (Hsum : 0 <= zsum work_of (threads w)).
  { pose proof (i_threads _ _ Hinv) as Hts. revert Hts. generalize (threads w).
    induction 1 as [|y ts Hy _ IH]; cbn; [lia|]. pose proof (work_of_nonneg _ _ Hy). lia. }
  split; [exact Hw|]. split; [lia|]. intros H0. split; [lia|]. split.
  - intros e He. apply list_elem_of_lookup in He as [i Hi].
    pose proof (zsum_ge counted _ _ _ counted_nonneg Hi). pose proof (counted_nonneg e).
    unfold csum in *. lia.
  - intros i th Hi e. specialize (Hpos i th Hi).
    pose proof (Forall_lookup_1 _ _ _ _ (i_threads _ _ Hinv) Hi) as Hok.
    assert (Hwk : work_of th <= 0) by lia. clear Hpos Hw Hsum.
    unfold work_of, thread_ok in Hwk, Hok. rename Hwk into Hpos. split; [|intros k]; intros Hp; rewrite Hp in Hpos, Hok.
    + destruct Hok as [Hfr _]. rewrite Hfr in Hpos. cbn in Hpos. lia.
    + destruct Hok as (x & Hfr & _ & Hle & _ & Hck). rewrite Hfr in Hpos.
      cbn in Hpos, Hck. subst k. unfold unflushed in Hpos. cbn in *. lia.
Qed.

Lemma work_count_exact_witness :
  outstanding_work_ (shared demo) = 2
  /\ outstanding_work_ (shared demo)
     = tokens demo + csum (completed_ops_ (shared demo)) + zsum work_of (threads demo).
Proof.
  destruct (work_count_exact any_mode default_config 2 demo default_cfg_ok
              ltac:(lia) reactor_demo_reachable) as [H _].
  split; [reflexivity|exact H].
Defined.

(** A post while one thread is parked and another is blocked in the reactor. *)
Definition post_steps : list (nat * label) :=
  [(2, LWorkStart); (0, LEnter Run); (0, LFetch); (0, LTask);
   (1, LEnter Run); (1, LFetch); (1, LIdle); (2, LPost (op 1)); (2, LPush)]%nat.
Definition after_post : world :=
  default (init_world default_config 3) (exec post_steps (init_world default_config 3)).

(** C1: When all event-loop threads call [run], no queued entry is stranded:
    in every reachable state in which the mutex is free, the scheduler is not
    stopped, the queue is not empty and some thread sleeps (parked and not
    notified, or blocked in the reactor with no interrupt pending), another
    thread is awake and can take its next step. *)
Theorem run_never_strands_work c n w :
  cfg_ok c -> one_thread_ c = false -> Z.of_nat n < 2 ^ 62 ->
  reachable only_run c n w ->
  owner w = None -> stopped_ (shared w) = false -> completed_ops_ (shared w) <> [] ->
  asleep (tal (threads w)) (eventfd w) ->
  exists i th w', threads w !! i = Some th
    /\ (0 < awake th \/ (eventfd w = true /\ 0 < blocked th))
    /\ step i (next_label (at_pc th)) w w'.
Proof. apply run_never_strands. Qed.

Lemma run_never_strands_work_witness :
  completed_ops_ (shared after_post) = [op 1]
  /\ exists i th w', threads after_post !! i = Some th
    /\ (0 < awake th \/ (eventfd after_post = true /\ 0 < blocked th))
    /\ step i (next_label (at_pc th)) after_post w'.
Proof.
  split; [vm_compute; reflexivity|].
  apply (run_never_strands_work default_config 3).
  - apply default_cfg_ok.
  - reflexivity.
  - lia.
  - apply (steps_reachable _ _ _ post_steps (init_world default_config 3)).
    + apply rtc_refl.
    + by repeat constructor.
    + vm_compute. reflexivity.
  - vm_compute. reflexivity.
  - vm_compute. reflexivity.
  - vm_compute. discriminate.
  - right. vm_compute. split; reflexivity.
Defined.

(** * Mixing [run] with the bounded modes *)

(** [op 1] runs inside [run_one] of thread 1 and posts [op 3] while thread 0
    goes to block in the reactor. *)
Definition run_one_steps : list (nat * label) :=
  [(2, LWorkStart); (2, LPost (op 1)); (2, LPush); (2, LPost (op 2)); (2, LPush);
   (0, LEnter Run); (0, LFetch); (0, LTask);
   (1, LEnter RunOne); (1, LFetch); (1, LEntry);
   (0, LPollEnd [] false); (0, LFetch); (0, LEntry); (0, LFinish); (0, LClean);
   (0, LFetch); (0, LTask);
   (1, LPost (op 3)); (1, LFinish); (1, LClean); (1, LLeave)]%nat.
Definition after_run_one : world :=
  default (init_world default_config 3) (exec run_one_steps (init_world default_config 3)).

(** Thread 1 polls the reactor in [wait_one] while thread 0 parks in [run];
    the wait times out and thread 1 leaves. *)
Definition wait_one_steps : list (nat * label) :=
  [(2, LWorkStart); (1, LEnter (WaitOne 1000)); (1, LFetch); (1, LTask);
   (0, LEnter Run); (0, LFetch); (0, LIdle);
   (1, LPollEnd [] false); (1, LLeave)]%nat.
Definition after_wait_one : world :=
  default (init_world default_config 3) (exec wait_one_steps (init_world default_config 3)).

(** With [run_one] or [wait_one] beside [run] the guarantee fails.  Work
    posted by a handler under [run_one] is moved to the shared queue without
    waking anybody: a reachable state has an entry queued while the only
    thread in the event loop is blocked in the reactor with no interrupt
    pending.  And a [wait_one] that times out puts the sentinel back without
    signaling: a reachable state has outstanding work and nobody polling, while
    the only thread in the event loop is parked and not notified. *)
Theorem bounded_modes_can_strand :
  (reachable any_mode default_config 3 after_run_one
   /\ owner after_run_one = None /\ stopped_ (shared after_run_one) = false
   /\ completed_ops_ (shared after_run_one) = [op 3]
   /\ map at_pc (threads after_run_one) = [Polling (-1); Outside; Outside]
   /\ eventfd after_run_one = false)
  /\ (reachable any_mode default_config 3 after_wait_one
   /\ owner after_wait_one = None /\ stopped_ (shared after_wait_one) = false
   /\ outstanding_work_ (shared after_wait_one) = 1
   /\ completed_ops_ (shared after_wait_one) = [task_op]
   /\ task_running_ (shared after_wait_one) = false
   /\ map at_pc (threads after_wait_one) = [Parked false; Outside; Outside]).
Proof.
  split.
  - split; [|vm_compute; repeat split].
    apply (steps_reachable _ _ _ run_one_steps (init_world default_config 3));
      [apply rtc_refl|by repeat constructor|vm_compute; reflexivity].
  - split; [|vm_compute; repeat split].
    apply (steps_reachable _ _ _ wait_one_steps (init_world default_config 3));
      [apply rtc_refl|by repeat constructor|vm_compute; reflexivity].
Qed.

(** Thread 0 is blocked in the reactor, thread 1 waits in [wait_one(1000)]. *)
Definition timed_steps : list (nat * label) :=
  [(2, LWorkStart); (0, LEnter Run); (0, LFetch); (0, LTask);
   (1, LEnter (WaitOne 1000)); (1, LFetch); (1, LIdle)]%nat.
Definition timed_wait : world :=
  default (init_world default_config 3) (exec timed_steps (init_world default_config 3)).

(** [wait_one] does not return when its time is over if another thread
    polls the reactor: from a reachable state in which it waits, the expiry of
    the wait and the following steps of the thread lead back to the same
    state, the loop having armed the same timeout again. *)
Theorem wait_one_timeout_rearms :
  reachable any_mode default_config 3 timed_wait
  /\ (exists th, threads timed_wait !! 1%nat = Some th
        /\ at_pc th = Parked false /\ tmode th = WaitOne 1000)
  /\ exec [(1, LSpurious); (1, LWake); (1, LFetch); (1, LIdle)]%nat timed_wait = Some timed_wait.
Proof.
  split; [|split].
  - apply (steps_reachable _ _ _ timed_steps (init_world default_config 3));
      [apply rtc_refl|by repeat constructor|vm_compute; reflexivity].
  - vm_compute. by eexists.
  - vm_compute. reflexivity.
Qed.
