(* ===== verification/ReactorLocal.v ===== *)
(** The reactor scheduler seen from one thread: configuration and the inline
    budget, the drain at shutdown, and [poll] over handlers that leave the
    scheduler alone. *)

From stdpp Require Import relations.
From S2P Require Import Prelude StateMonad ReactorScheduler ReactorSteps ReactorInv.
Import reactor_scheduler.

#[local] Arguments Z.lor : simpl never.
#[local] Arguments Z.testbit : simpl never.
#[local] Arguments Z.sub : simpl never.

(** * Configuration and budget *)

Definition unsigned (z : Z) : Prop := 0 <= z < 2 ^ 32.

Lemma configure_reactor_spec me bi bm ua c :
  unsigned me -> unsigned bi -> unsigned bm -> unsigned ua ->
  configure_reactor me bi bm ua c =
    if decide (1 <= me <= int_max /\ bm <= int_max)
    then Some (mk_config me (Z.min bi bm) bm (Z.min ua bm)
                 (scheduler_locking_disabled_ c) (reactor_io_locking_ c) (one_thread_ c))
    else None.
Proof.
  intros. unfold configure_reactor. case_decide as Hd.
  - destruct Hd as [Hm Hb]. rewrite (proj2 (orb_false_iff _ _)) by lia.
    test_false (int_max <? bm). f_equal. f_equal; case_match; lia.
  - destruct ((me <? 1) || (int_max <? me)) eqn:E; [done|].
    destruct (int_max <? bm) eqn:E2; [done|]. exfalso. lia.
Qed.

(** A scheduler thread at the start of a handler, under configuration [c]. *)
Definition fresh_thread (c : config) : local :=
  mk_local (init c) [new_context self c] false [].

(** [configure_reactor] throws exactly when the event count is not in
    [1, INT_MAX] or the budget ceiling exceeds [INT_MAX], and otherwise clamps
    the initial and the unassisted budget to the ceiling.  With a ceiling of at
    most [INT_MAX / 2] every context of every reachable state keeps
    [0 <= inline_budget <= inline_budget_max <= ceiling].  Above that an
    accepted configuration makes the first [reset_inline_budget] of a thread
    double past [INT_MAX], which is undefined. *)
Theorem inline_budget_configuration :
  (forall me bi bm ua c, unsigned me -> unsigned bi -> unsigned bm -> unsigned ua ->
     configure_reactor me bi bm ua c =
       if decide (1 <= me <= int_max /\ bm <= int_max)
       then Some (mk_config me (Z.min bi bm) bm (Z.min ua bm)
                    (scheduler_locking_disabled_ c) (reactor_io_locking_ c) (one_thread_ c))
       else None)
  /\ (forall me bi bm ua c c' ok n w,
        unsigned me -> unsigned bi -> unsigned bm -> unsigned ua ->
        configure_reactor me bi bm ua c = Some c' -> bm * 2 <= int_max ->
        Z.of_nat n < 2 ^ 62 -> reachable ok c' n w ->
        forall i th x, threads w !! i = Some th -> x ∈ frames th ->
          0 <= inline_budget x <= inline_budget_max x /\ inline_budget_max x <= bm)
  /\ (exists c', configure_reactor 128 (2 ^ 30) int_max 4 default_config = Some c'
        /\ reset_inline_budget self (fresh_thread c') = Fault).
Proof.
  split; [|split].
  - intros. by apply configure_reactor_spec.
  - intros me bi bm ua c c' ok n w Hme Hbi Hbm Hua Hcf Hmax Hn Hr i th x Hth Hx.
    rewrite configure_reactor_spec in Hcf by done. case_decide; [|done]. injection Hcf as <-.
    unfold unsigned in *.
    assert (Hc : cfg_ok (mk_config me (Z.min bi bm) bm (Z.min ua bm)
              (scheduler_locking_disabled_ c) (reactor_io_locking_ c) (one_thread_ c)))
      by (constructor; cbn; lia).
    pose proof (reachable_inv _ _ _ _ Hc Hn Hr) as Hinv.
    pose proof (Forall_lookup_1 _ _ _ _ (i_threads _ _ Hinv) Hth) as Hok.
    enough (ctx_ok (mk_config me (Z.min bi bm) bm (Z.min ua bm)
              (scheduler_locking_disabled_ c) (reactor_io_locking_ c) (one_thread_ c)) x)
      as [] by done.
    destruct th as [p fr md]. cbn in Hx. unfold thread_ok, one_frame in Hok. cbn in Hok.
    destruct p as [|e|[]| |o|tmo|e cv k| |b|];
      first [subst fr | destruct Hok as (y & -> & Hy & _) | destruct Hok as [-> _]];
      apply list_elem_of_In in Hx; first [by destruct Hx | destruct Hx as [<-|[]]; exact Hy].
  - eexists. split; [reflexivity|]. vm_compute. reflexivity.
Qed.

(** * Shutdown *)

Definition handlers (q : list entry) : list entry := filter (fun e => e <> task_op) q.

Lemma shutdown_pops_spec q fuel l :
  completed_ops_ (sched l) = q -> (length q < fuel)%nat -> owns l = true ->
  shutdown_pops fuel l
    = Ok (tt, mk_local (set_queue [] (sched l)) (stack l) true
                (out l ++ map destroyed (handlers q))).
Proof.
  revert fuel l. induction q as [|e q IH]; intros [|fuel] l Hq Hf Ho; cbn in Hf; try lia;
    destruct l as [[cf G n sp tr ti st] k o t]; cbn in Hq, Ho; subst; cbn [shutdown_pops]; run_code.
  - cbn. by rewrite app_nil_r.
  - destruct (decide (e = task_op)) as [->|Hne].
    + rewrite (IH fuel) by (cbn; try done; lia). done.
    + assert (Hh : handlers (e :: q) = e :: handlers q)
        by (unfold handlers; by rewrite filter_cons_True).
      rewrite Hh. destruct e; [done|..]; rewrite (IH fuel) by (cbn; try done; lia); cbn;
        by rewrite <- app_assoc.
Qed.

(** [shutdown_drain] terminates, destroys every handler and continuation
    left in the queue exactly once and in order without running any, passes
    over the reactor sentinel, leaves the queue empty and the mutex free, and
    wakes every parked thread. *)
Theorem shutdown_drain_destroys_queue l :
  owns l = false ->
  exists l', shutdown_drain l = Ok (tt, l')
    /\ completed_ops_ (sched l') = [] /\ owns l' = false /\ stack l' = stack l
    /\ out l' = out l ++ map destroyed (handlers (completed_ops_ (sched l))) ++ [notify_all]
    /\ Z.testbit (state_ (sched l')) 0 = true.
Proof.
  destruct l as [[cf G n sp tr ti st] k o t]. cbn. intros ->. eexists.
  unfold shutdown_drain. run_code.
  rewrite (shutdown_pops_spec G) by (cbn; try done; lia).
  split; [reflexivity|]. cbn. split; [done|]. split; [done|]. split; [done|].
  rewrite <- app_assoc. split; [done|]. rewrite Z.lor_spec. apply orb_true_r.
Qed.

Lemma shutdown_drain_destroys_queue_witness :
  exists l', shutdown_drain (mk_local (set_queue [op 1; task_op; cont 2] (init default_config))
                               [] false []) = Ok (tt, l')
    /\ out l' = [destroyed (op 1); destroyed (cont 2); notify_all].
Proof.
  destruct (shutdown_drain_destroys_queue
              (mk_local (set_queue [op 1; task_op; cont 2] (init default_config)) [] false [])
              eq_refl) as (l' & H & _ & _ & _ & Ho & _).
  exists l'. split; [exact H|]. rewrite Ho. reflexivity.
Defined.

(** * Polling ready handlers *)

(** A handler that leaves the scheduler alone, and a reactor poll that finds
    no event: it releases the mutex, takes it again and runs [~task_cleanup]. *)
Definition quiet_dispatch (e : entry) : SM unit := emit (invoked e).
Definition quiet_poll (ctx : option nat) (timeout_us : Z) : SM unit :=
  release ≫= fun _ => lock ≫= fun _ => task_cleanup ctx.

(** One thread in the event loop, nobody parked: [q] is queued, [n] the work
    count, [o] what has been logged. *)
Record at_loop (q : list entry) (n : Z) (sp : bool) (o : list effect) (own : bool)
    (l : local) : Prop := {
  a_queue : completed_ops_ (sched l) = q;
  a_work : outstanding_work_ (sched l) = n;
  a_stopped : stopped_ (sched l) = sp;
  a_state : state_ (sched l) = 0 \/ state_ (sched l) = 1;
  a_stack : exists x, stack l = [x] /\ private_queue x = [] /\ private_outstanding_work x = 0;
  a_out : out l = o;
  a_owns : owns l = own
}.

(** What the last unit of work logs: the scheduler stops. *)
Definition stop_log (n : Z) : list effect := if n =? 1 then [notify_all; interrupt] else [].

Abbreviation poll_one_entry := (do_one quiet_poll quiet_dispatch skip).

Ltac close_loop :=
  unfold stop_log; constructor; cbn;
  rewrite <- ?app_assoc; cbn;
  try match goal with H : (_ =? 1) = _ |- _ => rewrite H end;
  first [done | lia | by left | by right | by (eexists; split; [reflexivity|split]) | idtac].

Lemma do_one_entry e q n o l f :
  at_loop (e :: q) n false o true l -> e <> task_op ->
  wp (poll_one_entry (S f) 0 (Some 0%nat))
     (fun r l' => r = 1
        /\ at_loop q (n - 1) (n =? 1) (o ++ [invoked e] ++ stop_log n) false l') l.
Proof.
  intros [Hq Hn Hs Hst (x & Hk & Hpq & Hpw) Ho Hown] He.
  destruct l as [[cf G w sp tr ti st] k ow t]; destruct x as [ky pq pw ib im ua].
  cbn in *. subst. unfold do_one, do_one_iter, quiet_dispatch, work_cleanup. run_code.
  destruct Hst as [-> | ->]; destruct e; try done; split_tests;
    (split; [done|]); close_loop.
Qed.

(** The sentinel with handlers behind it: the reactor is polled without
    blocking and the sentinel goes to the end of the queue. *)
Lemma do_one_sentinel q n o l f :
  at_loop (task_op :: q) n false o true l -> q <> [] ->
  exists l', at_loop (q ++ [task_op]) n false o true l'
    /\ poll_one_entry (S f) 0 (Some 0%nat) l = poll_one_entry f 0 (Some 0%nat) l'.
Proof.
  intros [Hq Hn Hs Hst (x & Hk & Hpq & Hpw) Ho Hown] Hne.
  destruct l as [[cf G w sp tr ti st] k ow t]; destruct x as [ky pq pw ib im ua].
  cbn in *. subst. destruct q as [|e q]; [done|]. clear Hne.
  cbn [do_one]. generalize (poll_one_entry f 0 (Some 0%nat)). intros rest.
  unfold do_one_iter, quiet_poll. run_code. cbn [is_empty].
  destruct Hst as [-> | ->]; split_tests; eexists; (split; [|reflexivity]); close_loop.
Qed.

(** The sentinel alone: nothing is ready, [do_one] returns 0. *)
Lemma do_one_nothing n o l f :
  at_loop [task_op] n false o true l ->
  wp (poll_one_entry (S f) 0 (Some 0%nat))
     (fun r l' => r = 0 /\ at_loop [task_op] n false o true l') l.
Proof.
  intros [Hq Hn Hs Hst (x & Hk & Hpq & Hpw) Ho Hown].
  destruct l as [[cf G w sp tr ti st] k ow t]; destruct x as [ky pq pw ib im ua].
  cbn in *. subst. unfold do_one, do_one_iter. run_code.
  destruct Hst as [-> | ->]; split_tests; (split; [done|]); close_loop.
Qed.

Lemma do_one_stopped q n o own l f :
  at_loop q n true o own l ->
  poll_one_entry (S f) 0 (Some 0%nat) l = Ok (0, l).
Proof.
  intros [Hq Hn Hs Hst (x & Hk & Hpq & Hpw) Ho Hown].
  destruct l as [[cf G w sp tr ti st] k ow t]. cbn in *. subst.
  unfold do_one, do_one_iter. run_code. done.
Qed.

Abbreviation poll_loop := (run_loop quiet_poll quiet_dispatch skip).

Lemma relock q n sp o l :
  at_loop q n sp o false l ->
  wp (if owns l then skip else lock) (fun _ l' => at_loop q n sp o true l') l.
Proof.
  intros H. destruct (H) as [_ _ _ _ _ _ Hown]. destruct l as [s k ow t]. cbn in Hown. subst ow.
  destruct H. constructor; done.
Qed.

(** One turn of the loop over a ready entry. *)
Lemma poll_loop_entry e q n k o l f Q :
  wp (poll_one_entry (S f) 0 (Some 0%nat))
     (fun r l' => r = 1 /\ at_loop q (n - 1) (n =? 1) (o ++ [invoked e] ++ stop_log n) false l') l ->
  0 <= k < size_max ->
  (forall l', at_loop q (n - 1) (n =? 1) (o ++ [invoked e] ++ stop_log n) true l' ->
     wp (poll_loop f 0 (k + 1)) Q l') ->
  wp (poll_loop (S f) 0 k) Q l.
Proof.
  intros Hone Hk Hrest. cbn [run_loop]. apply wp_bind.
  eapply wp_mono; [exact Hone|]. intros r l' [-> Hl]. cbn [Z.eqb].
  test_false (k =? size_max). cbn beta iota zeta.
  apply wp_bind, wp_get, wp_bind. eapply wp_mono; [by apply (relock _ _ _ _ _ Hl)|].
  intros u l2 H2. by apply Hrest.
Qed.

(** The loop stops at the first [do_one] that returns 0. *)
Lemma poll_loop_stop k l l' f Q :
  poll_one_entry (S f) 0 (Some 0%nat) l = Ok (0, l') -> Q k l' -> wp (poll_loop (S f) 0 k) Q l.
Proof. intros H HQ. cbn [run_loop]. apply wp_bind. unfold wp. by rewrite H. Qed.

Definition no_task (q : list entry) : Prop := Forall (fun e => e <> task_op) q.

Lemma poll_loop_drains m q1 q2 n k o l f :
  m = length (q1 ++ q2) -> at_loop (q1 ++ task_op :: q2) n false o true l ->
  no_task q1 -> no_task q2 -> Z.of_nat m <= n -> (m + 2 <= f)%nat ->
  0 <= k -> k + Z.of_nat m <= size_max ->
  wp (poll_loop f 0 k)
     (fun r l' => r = k + Z.of_nat m
        /\ exists own, at_loop [task_op] (n - Z.of_nat m) (bool_decide (0 < m)%nat && (n =? Z.of_nat m))
             (o ++ map invoked (q1 ++ q2)
                ++ (if bool_decide (0 < m)%nat && (n =? Z.of_nat m)
                    then [notify_all; interrupt] else [])) own l') l.
Proof.
  revert q1 q2 n k o l f.
  induction m as [|m IH]; intros q1 q2 n k o l f Hm Hl H1 H2 Hn Hf Hk Hmax.
  - destruct q1, q2; try done. destruct f as [|f]; [lia|]. cbn in Hl.
    pose proof (do_one_nothing _ _ _ f Hl) as Hd. apply wp_ok in Hd as (r & l' & Hd & -> & Hl').
    eapply poll_loop_stop; [exact Hd|]. split; [lia|]. exists true. cbn.
    by rewrite app_nil_r, Z.sub_0_r.
  - destruct f as [|f]; [lia|].
    assert (Hgo : exists e q1' q2', q1 ++ q2 = e :: q1' ++ q2' /\ no_task q1' /\ no_task q2'
      /\ wp (poll_one_entry (S f) 0 (Some 0%nat))
           (fun r l' => r = 1 /\ at_loop (q1' ++ task_op :: q2') (n - 1) (n =? 1)
                                  (o ++ [invoked e] ++ stop_log n) false l') l).
    { destruct q1 as [|e q1].
      - destruct q2 as [|e q2]; [done|]. apply list.Forall_cons in H2 as [He H2].
        cbn in Hl. destruct f as [|f]; [lia|].
        destruct (do_one_sentinel _ _ _ _ (S f) Hl ltac:(done)) as (l1 & Hl1 & Heq).
        exists e, q2, []. split; [by rewrite app_nil_r|]. split; [done|]. split; [constructor|].
        unfold wp. rewrite Heq. by apply do_one_entry.
      - apply list.Forall_cons in H1 as [He H1]. exists e, q1, q2.
        split; [done|]. split; [done|]. split; [done|]. by apply do_one_entry. }
    destruct Hgo as (e & q1' & q2' & Hq & H1' & H2' & Hone).
    rewrite Hq in Hm |- *. cbn in Hm. injection Hm as Hm.
    eapply poll_loop_entry; [exact Hone|lia|]. intros l1 Hl1. unfold stop_log in Hl1.
    destruct (n =? 1) eqn:E1.
    + assert (m = O) as -> by lia. destruct q1', q2'; try done.
      destruct f as [|f]; [lia|]. eapply poll_loop_stop; [by eapply do_one_stopped|].
      assert (n = 1) as -> by lia. cbn. split; [lia|]. exists true. by cbn in Hl1.
    + eapply wp_mono; [eapply IH; [exact Hm|exact Hl1|done|done|lia|lia|lia|lia]|].
      intros r l' [-> (own & Hend)]. split; [lia|]. exists own.
      rewrite bool_decide_eq_true_2 by lia. cbn [andb map].
      destruct (decide (0 < m)%nat) as [Hm0|Hm0].
      * rewrite (bool_decide_eq_true_2 (0 < m)%nat) in Hend by done. cbn [andb] in Hend.
        replace (n =? Z.of_nat (S m)) with (n - 1 =? Z.of_nat m)
          by (destruct (Z.eqb_spec (n - 1) (Z.of_nat m)); symmetry; blia).
        replace (n - Z.of_nat (S m)) with (n - 1 - Z.of_nat m) by lia.
        by rewrite <- !app_assoc in Hend.
      * rewrite (bool_decide_eq_false_2 (0 < m)%nat) in Hend by done. cbn [andb] in Hend.
        test_false (n =? Z.of_nat (S m)).
        replace (n - Z.of_nat (S m)) with (n - 1 - Z.of_nat m) by lia.
        by rewrite <- !app_assoc in Hend.
Qed.

(** Leaving the event loop: the lock goes first, then the context. *)
Lemma leave_loop q n sp o own (r : Z) l :
  at_loop q n sp o own l ->
  wp (l ← get; (if owns l then unlock else skip) ≫= fun _ => guard_leave ≫= fun _ => mret r)
     (fun r' l' => r' = r
        /\ (completed_ops_ (sched l') = q /\ outstanding_work_ (sched l') = n
            /\ stopped_ (sched l') = sp /\ out l' = o)
        /\ stack l' = [] /\ owns l' = false) l.
Proof.
  intros [Hq Hn Hs Hst (x & Hk & Hpq & Hpw) Ho Hown].
  destruct l as [[cf G w sp' tr ti st] k ow t]; destruct x as [ky pq pw ib im ua].
  cbn in *. subst. run_code. by destruct own.
Qed.

Definition ready_state (c : config) (q : list entry) (n : Z) : local :=
  mk_local (mk_scheduler c q n false false false 0) [] false [].

(** [poll] on one thread, with handlers that leave the scheduler alone,
    runs every entry that is ready exactly once and in queue order, wherever
    the reactor sentinel stands among them, and returns their number.  It
    leaves the sentinel in the queue, the mutex free, the context stack as it
    was and the work count lower by that number; it stops the scheduler
    exactly when the last handler took the last unit of work. *)
Theorem poll_runs_ready_handlers c q1 q2 n fuel :
  no_task q1 -> no_task q2 -> 0 < n ->
  Z.of_nat (length (q1 ++ q2)) <= n -> Z.of_nat (length (q1 ++ q2)) <= size_max ->
  (length (q1 ++ q2) + 2 <= fuel)%nat ->
  let m := length (q1 ++ q2) in
  let last := bool_decide (0 < m)%nat && (n =? Z.of_nat m) in
  exists l', poll quiet_poll quiet_dispatch skip self fuel (ready_state c (q1 ++ task_op :: q2) n)
               = Ok (Z.of_nat m, l')
    /\ completed_ops_ (sched l') = [task_op]
    /\ outstanding_work_ (sched l') = n - Z.of_nat m
    /\ stopped_ (sched l') = last
    /\ out l' = map invoked (q1 ++ q2) ++ (if last then [notify_all; interrupt] else [])
    /\ stack l' = [] /\ owns l' = false.
Proof.
  intros H1 H2 Hn Hle Hmax Hf m last.
  enough (H : wp (poll quiet_poll quiet_dispatch skip self fuel)
    (fun r l' => r = Z.of_nat m /\ completed_ops_ (sched l') = [task_op]
       /\ outstanding_work_ (sched l') = n - Z.of_nat m /\ stopped_ (sched l') = last
       /\ out l' = map invoked (q1 ++ q2) ++ (if last then [notify_all; interrupt] else [])
       /\ stack l' = [] /\ owns l' = false) (ready_state c (q1 ++ task_op :: q2) n)).
  { apply wp_ok in H as (r & l' & H & -> & H'). by exists l'. }
  unfold poll, with_context. apply wp_bind. unfold the_sched. wp_steps; [cbn in *; lia|].
  apply wp_bind. unfold guard_enter. wp_steps. apply wp_bind. unfold set_stack. wp_steps.
  unfold lock at 1. wp_steps; [done|]. eapply wp_mono.
  { eapply (poll_loop_drains m q1 q2 n 0 []); try done; [|lia..].
    constructor; try done; [by left|]. by eexists. }
  intros r l' [-> (own & Hl)]. eapply wp_mono; [by eapply leave_loop|].
  intros r' l2 (-> & (Hq & Hw & Hs & Ho) & Hk & Hown). by rewrite Hq, Hw, Hs, Ho, Hk, Hown.
Qed.

Lemma poll_runs_ready_handlers_witness :
  exists l', poll quiet_poll quiet_dispatch skip self 5
               (ready_state default_config ([op 1] ++ task_op :: [cont 2; op 3]) 4) = Ok (3, l')
    /\ out l' = [invoked (op 1); invoked (cont 2); invoked (op 3)].
Proof.
  assert (H1 : no_task [op 1]) by (constructor; [discriminate|constructor]).
  assert (H2 : no_task [cont 2; op 3])
    by (constructor; [discriminate|constructor; [discriminate|constructor]]).
  destruct (poll_runs_ready_handlers default_config [op 1] [cont 2; op 3] 4 5 H1 H2
              ltac:(reflexivity) ltac:(discriminate) ltac:(discriminate) ltac:(cbn; lia))
    as (l' & H & _ & _ & _ & Ho & _).
  exists l'. split; [exact H|]. rewrite Ho. reflexivity.
Defined.
