(* ===== verification/ReactorOp.v ===== *)
(** Asynchronous operations of the reactor backends: their envelope and result
    ([native/detail/coro_op.hpp], [reactor/reactor_op_base.hpp],
    [reactor/reactor_op.hpp]), the state of the descriptor they wait on (the
    data of [reactor/reactor_descriptor_state.hpp]), error codes
    ([make_err.hpp]) and completion ([coro_op_complete.hpp],
    [reactor/reactor_op_complete.hpp]).

    Calls of the system and of the scheduler are logged in order.  The answers
    of the system are a finite script: each call takes the next answer, and a
    call made when the script is used up would block.  A call that is repeated
    while it is interrupted therefore ends.  Errno, family and flag values are
    those of Linux, the system of the epoll backend. *)

From stdpp Require Import functions.
From S2P Require Import Prelude StateMonad Ipv4 Ipv6 Endpoint Sockaddr.

Module reactor_op.

(** * Error codes *)

Definition ENOENT : Z := 2.
Definition EINTR : Z := 4.
Definition EIO : Z := 5.
Definition EBADF : Z := 9.
Definition EAGAIN : Z := 11.
Definition EWOULDBLOCK : Z := 11.
Definition EINVAL : Z := 22.
Definition EINPROGRESS : Z := 115.
Definition ECANCELED : Z := 125.

Definition MSG_NOSIGNAL : Z := 16384.

(** [std::error_code]: none, of the system category, or one of [capy::error]. *)
Inductive error_code :=
| success
| system (e : Z)
| canceled
| eof.

#[export] Instance error_code_eq_dec : EqDecision error_code.
Proof. solve_decision. Defined.

Definition is_error (e : error_code) : bool :=
  match e with
  | success => false
  | _ => true
  end.

Definition make_err (errn : Z) : error_code :=
  if errn =? 0 then success
  else if errn =? ECANCELED then canceled
  else system errn.

(** * Operations *)

Record iovec := mk_iovec { iov_base : Z; iov_len : Z }.

(** The fields that the derived classes of [reactor_op] add, [iovecs] being the
    active prefix of the array. *)
Inductive payload :=
| connect_op (target_endpoint : endpoint.t)
| wait_op (wait_event : Z)
| read_op (iovecs : list iovec) (empty_buffer_read : bool)
| write_op (iovecs : list iovec)
| accept_op (accepted_fd : Z) (impl_out : option nat) (peer_storage : sockaddr_storage)
    (peer_addrlen : nat)
| send_op (iovecs : list iovec) (msg_flags : Z)
| recv_op (iovecs : list iovec) (msg_flags : Z)
| send_to_op (iovecs : list iovec) (dest_storage : sockaddr_storage) (dest_len : socklen)
    (msg_flags : Z)
| recv_from_op (iovecs : list iovec) (source_storage : sockaddr_storage) (source_addrlen : nat)
    (source_out : option nat) (msg_flags : Z).

(** [socket_impl_] and [acceptor_impl_], at most one of them set. *)
Inductive owner := no_owner | socket_owner | acceptor_owner.

(** [impl_ptr] and [stop_cb] are whether the pointer and the callback are set;
    coroutines and output locations are numbered. *)
Record op := mk_op {
  load : payload;
  fd : Z;
  errn : Z;
  bytes_transferred : Z;
  cancelled : bool;
  stop_cb : bool;
  h : nat;
  ec_out : option nat;
  bytes_out : option nat;
  impl_ptr : bool;
  owned_by : owner
}.

Definition set_load (p : payload) (o : op) : op :=
  mk_op p (fd o) (errn o) (bytes_transferred o) (cancelled o) (stop_cb o) (h o) (ec_out o)
    (bytes_out o) (impl_ptr o) (owned_by o).
Definition set_cancelled (b : bool) (o : op) : op :=
  mk_op (load o) (fd o) (errn o) (bytes_transferred o) b (stop_cb o) (h o) (ec_out o)
    (bytes_out o) (impl_ptr o) (owned_by o).
Definition set_stop_cb (b : bool) (o : op) : op :=
  mk_op (load o) (fd o) (errn o) (bytes_transferred o) (cancelled o) b (h o) (ec_out o)
    (bytes_out o) (impl_ptr o) (owned_by o).
Definition set_impl_ptr (b : bool) (o : op) : op :=
  mk_op (load o) (fd o) (errn o) (bytes_transferred o) (cancelled o) (stop_cb o) (h o) (ec_out o)
    (bytes_out o) b (owned_by o).
Definition set_errn (e : Z) (o : op) : op :=
  mk_op (load o) (fd o) e (bytes_transferred o) (cancelled o) (stop_cb o) (h o) (ec_out o)
    (bytes_out o) (impl_ptr o) (owned_by o).
Definition set_fd (f : Z) (o : op) : op :=
  mk_op (load o) f (errn o) (bytes_transferred o) (cancelled o) (stop_cb o) (h o) (ec_out o)
    (bytes_out o) (impl_ptr o) (owned_by o).
Definition set_owner (w : owner) (o : op) : op :=
  mk_op (load o) (fd o) (errn o) (bytes_transferred o) (cancelled o) (stop_cb o) (h o) (ec_out o)
    (bytes_out o) (impl_ptr o) w.
(** [op.h = h; op.ec_out = ec; op.bytes_out = bytes_out] *)
Definition set_outputs (co : nat) (ec bytes : option nat) (o : op) : op :=
  mk_op (load o) (fd o) (errn o) (bytes_transferred o) (cancelled o) (stop_cb o) co ec bytes
    (impl_ptr o) (owned_by o).

(** [reactor_op_base::complete] *)
Definition complete (err bytes : Z) (o : op) : op :=
  mk_op (load o) (fd o) err bytes (cancelled o) (stop_cb o) (h o) (ec_out o) (bytes_out o)
    (impl_ptr o) (owned_by o).

(** [coro_op::request_cancel] *)
Definition request_cancel (o : op) : op := set_cancelled true o.

(** The [reset] of each derived class: the base's, then its own fields. *)
Definition reset_load (p : payload) : payload :=
  match p with
  | connect_op _ => connect_op endpoint.default
  | wait_op _ => wait_op 0
  | read_op _ _ => read_op [] false
  | write_op _ => write_op []
  | accept_op _ _ _ _ => accept_op (-1) None ss_zero 0
  | send_op _ _ => send_op [] 0
  | recv_op _ _ => recv_op [] 0
  | send_to_op _ _ _ _ => send_to_op [] ss_zero (len_un 0) 0
  | recv_from_op _ _ _ _ _ => recv_from_op [] ss_zero 0 None 0
  end.

Definition reset (o : op) : op :=
  mk_op (reset_load (load o)) (-1) 0 0 false (stop_cb o) (h o) (ec_out o) (bytes_out o) false
    no_owner.

Definition reactor_event_read : Z := 1.
Definition reactor_event_write : Z := 4.
Definition reactor_event_error : Z := 8.

Definition is_read_operation (o : op) : bool :=
  match load o with
  | wait_op ev => ev =? reactor_event_read
  | read_op _ empty_buffer_read => negb empty_buffer_read
  | recv_op _ _ | recv_from_op _ _ _ _ _ => true
  | _ => false
  end.

(** Operations are embedded in their socket or acceptor: [conn_] to [wait_er_]
    in a stream socket, these with [recv_rd_] and [send_wr_] in a datagram
    socket, [acc_] and the waits in an acceptor. *)
Inductive op_id := conn_ | rd_ | wr_ | wait_rd_ | wait_wr_ | wait_er_ | recv_rd_ | send_wr_ | acc_.

#[export] Instance op_id_eq_dec : EqDecision op_id.
Proof. solve_decision. Defined.

(** * The descriptor state *)

(** The six operation pointers of [reactor_descriptor_state]. *)
Inductive slot := read_slot | write_slot | connect_slot | wait_read_slot | wait_write_slot
  | wait_error_slot.

#[export] Instance slot_eq_dec : EqDecision slot.
Proof. solve_decision. Defined.

(** [slots] are the pointers [read_op], ..., [wait_error_op]; [cancel_pending]
    the flags [read_cancel_pending], ..., [wait_error_cancel_pending];
    [impl_ref_] and [scheduler_] whether the pointers are set. *)
Record desc_state := mk_desc {
  slots : slot -> option op_id;
  cancel_pending : slot -> bool;
  read_ready : bool;
  write_ready : bool;
  registered_events : Z;
  desc_fd : Z;
  ready_events_ : Z;
  is_enqueued_ : bool;
  impl_ref_ : bool;
  scheduler_ : bool
}.

Definition new_desc : desc_state :=
  mk_desc (fun _ => None) (fun _ => false) false false 0 (-1) 0 false false false.

Definition set_slots (f : slot -> option op_id) (d : desc_state) : desc_state :=
  mk_desc f (cancel_pending d) (read_ready d) (write_ready d) (registered_events d) (desc_fd d)
    (ready_events_ d) (is_enqueued_ d) (impl_ref_ d) (scheduler_ d).
Definition set_slot (s : slot) (p : option op_id) (d : desc_state) : desc_state :=
  set_slots (<[s := p]> (slots d)) d.
Definition set_cancel_pending (f : slot -> bool) (d : desc_state) : desc_state :=
  mk_desc (slots d) f (read_ready d) (write_ready d) (registered_events d) (desc_fd d)
    (ready_events_ d) (is_enqueued_ d) (impl_ref_ d) (scheduler_ d).
Definition set_ready (r w : bool) (d : desc_state) : desc_state :=
  mk_desc (slots d) (cancel_pending d) r w (registered_events d) (desc_fd d) (ready_events_ d)
    (is_enqueued_ d) (impl_ref_ d) (scheduler_ d).
Definition set_desc_fd (f ev : Z) (d : desc_state) : desc_state :=
  mk_desc (slots d) (cancel_pending d) (read_ready d) (write_ready d) ev f (ready_events_ d)
    (is_enqueued_ d) (impl_ref_ d) (scheduler_ d).
Definition set_ready_events (ev : Z) (d : desc_state) : desc_state :=
  mk_desc (slots d) (cancel_pending d) (read_ready d) (write_ready d) (registered_events d)
    (desc_fd d) ev (is_enqueued_ d) (impl_ref_ d) (scheduler_ d).
Definition set_enqueued (b : bool) (d : desc_state) : desc_state :=
  mk_desc (slots d) (cancel_pending d) (read_ready d) (write_ready d) (registered_events d)
    (desc_fd d) (ready_events_ d) b (impl_ref_ d) (scheduler_ d).
Definition set_impl_ref (b : bool) (d : desc_state) : desc_state :=
  mk_desc (slots d) (cancel_pending d) (read_ready d) (write_ready d) (registered_events d)
    (desc_fd d) (ready_events_ d) (is_enqueued_ d) b (scheduler_ d).
Definition set_scheduler (b : bool) (d : desc_state) : desc_state :=
  mk_desc (slots d) (cancel_pending d) (read_ready d) (write_ready d) (registered_events d)
    (desc_fd d) (ready_events_ d) (is_enqueued_ d) (impl_ref_ d) b.

(** * System calls and effects *)

Inductive sysop :=
| sys_readv (fd : Z) (iov : list iovec)
| sys_recv (fd : Z) (buf : iovec)
| sys_send (fd : Z) (buf : iovec) (flags : Z)
| sys_sendmsg (fd : Z) (name : option (sockaddr_storage * socklen)) (iov : list iovec) (flags : Z)
| sys_recvmsg (fd : Z) (named : bool) (iov : list iovec) (flags : Z)
| sys_so_error (fd : Z)
| sys_getsockname (fd : Z)
| sys_connect (fd : Z) (name : sockaddr_storage * socklen)
| sys_bind (fd : Z) (name : sockaddr_storage * socklen)
| sys_listen (fd backlog : Z)
| sys_accept4 (fd : Z)
| sys_shutdown (fd how : Z)
| sys_close (fd : Z)
| sys_epoll_add (fd events : Z)
| sys_epoll_del (fd : Z).

(** A non-negative result, with the address the call stores if it stores one,
    or a negative one with its errno. *)
Inductive answer :=
| Ret (n : Z)
| RetAddr (n : Z) (storage : sockaddr_storage) (addrlen : nat)
| Fail (errno : Z).

Inductive effect :=
| called (c : sysop)
| wrote_ec (p : nat) (e : error_code)
| wrote_bytes (p : nat) (n : Z)
| wrote_impl (p : nat) (peer : option Z)
| wrote_endpoint (p : nat) (ep : endpoint.t)
| resumed (co : nat)
| posted (k : op_id)
| deferred (ks : list op_id)
| work_started
| work_finished
| compensating_work_started
| reset_inline_budget
| notify_reactor
| constructed (peer_fd : Z) (local remote : endpoint.t).

(** A socket or acceptor implementation: its operations, its descriptor state
    and the cached endpoints; [remote_endpoint_] is used by sockets only. *)
Record impl := mk_impl {
  ops : op_id -> op;
  desc_state_ : desc_state;
  fd_ : Z;
  local_endpoint_ : endpoint.t;
  remote_endpoint_ : endpoint.t
}.

Definition set_ops (f : op_id -> op) (i : impl) : impl :=
  mk_impl f (desc_state_ i) (fd_ i) (local_endpoint_ i) (remote_endpoint_ i).
Definition set_desc (d : desc_state) (i : impl) : impl :=
  mk_impl (ops i) d (fd_ i) (local_endpoint_ i) (remote_endpoint_ i).
Definition set_socket (f : Z) (i : impl) : impl :=
  mk_impl (ops i) (desc_state_ i) f (local_endpoint_ i) (remote_endpoint_ i).
Definition set_endpoints (l r : endpoint.t) (i : impl) : impl :=
  mk_impl (ops i) (desc_state_ i) (fd_ i) l r.

(** What the code of one thread works on; [owns] is whether it holds the
    descriptor's mutex. *)
Record st := mk_st { this : impl; owns : bool; script : list answer; log : list effect }.

Abbreviation IM := (M st).

Definition upd_impl (f : impl -> impl) : IM unit :=
  modify (fun s => mk_st (f (this s)) (owns s) (script s) (log s)).
Definition the_impl : IM impl := s ← get; mret (this s).
Definition emit (e : effect) : IM unit :=
  modify (fun s => mk_st (this s) (owns s) (script s) (log s ++ [e])).
Definition the_op (k : op_id) : IM op := i ← the_impl; mret (ops i k).
Definition upd_op (k : op_id) (f : op -> op) : IM unit :=
  upd_impl (fun i => set_ops (<[k := f (ops i k)]> (ops i)) i).
Definition the_desc : IM desc_state := i ← the_impl; mret (desc_state_ i).
Definition upd_desc (f : desc_state -> desc_state) : IM unit :=
  upd_impl (fun i => set_desc (f (desc_state_ i)) i).

Definition lock_desc : IM unit :=
  s ← get; if owns s then fault else put (mk_st (this s) true (script s) (log s)).
Definition unlock_desc : IM unit :=
  s ← get; if owns s then put (mk_st (this s) false (script s) (log s)) else fault.

(** One call: the next answer of the script. *)
Definition call (c : sysop) : IM answer :=
  s ← get;
  match script s with
  | [] => emit (called c) ≫= fun _ => mret (Fail EAGAIN)
  | a :: rest =>
      put (mk_st (this s) (owns s) rest (log s ++ [called c])) ≫= fun _ => mret a
  end.

(** [do n = call(...); while (n < 0 && errno == EINTR);] *)
Fixpoint retry_on (c : sysop) (answers : list answer) : answer * list answer * nat :=
  match answers with
  | [] => (Fail EAGAIN, [], 1%nat)
  | Fail e :: rest =>
      if e =? EINTR then let '(a, remaining, n) := retry_on c rest in (a, remaining, S n)
      else (Fail e, rest, 1%nat)
  | a :: rest => (a, rest, 1%nat)
  end.
Definition call_retry (c : sysop) : IM answer :=
  s ← get;
  let '(a, remaining, n) := retry_on c (script s) in
  put (mk_st (this s) (owns s) remaining (log s ++ replicate n (called c))) ≫= fun _ => mret a.

Definition lift {A} (r : res A) : IM A :=
  match r with
  | Ok a => mret a
  | Err e => fun _ => Err e
  | Fault => fault
  end.

Definition AF_INET : Z := 2.
Definition AF_INET6 : Z := 10.
Definition from_sockaddr_as (storage : sockaddr_storage) : res endpoint.t :=
  from_sockaddr AF_INET AF_INET6 storage.

(** * The I/O of an operation *)

Definition record_result (k : op_id) (a : answer) : IM unit :=
  match a with
  | Ret n | RetAddr n _ _ => upd_op k (complete 0 n)
  | Fail e => upd_op k (complete e 0)
  end.

(** [epoll_traits::write_policy::write] and [accept_policy::do_accept] *)
Definition policy_write (f : Z) (iov : list iovec) : IM answer :=
  call_retry (sys_sendmsg f None iov MSG_NOSIGNAL).
Definition policy_accept (f : Z) : IM answer := call_retry (sys_accept4 f).

(** The [perform_io] of each class. *)
Definition connect_perform_io (k : op_id) (f : Z) : IM unit :=
  a ← call (sys_so_error f);
  match a with
  | Ret err | RetAddr err _ _ => upd_op k (complete err 0)
  | Fail e => upd_op k (complete e 0)
  end.

Definition wait_perform_io (k : op_id) : IM unit := upd_op k (complete 0 0).

Definition read_perform_io (k : op_id) (f : Z) (iov : list iovec) : IM unit :=
  call_retry (sys_readv f iov) ≫= record_result k.

Definition write_perform_io (k : op_id) (f : Z) (iov : list iovec) : IM unit :=
  policy_write f iov ≫= record_result k.

Definition accept_perform_io (k : op_id) (f : Z) (out : option nat) (storage : sockaddr_storage)
    (len : nat) : IM unit :=
  a ← policy_accept f;
  match a with
  | Ret n => upd_op k (fun o => complete 0 0 (set_load (accept_op n out storage len) o))
  | RetAddr n peer peer_len =>
      upd_op k (fun o => complete 0 0 (set_load (accept_op n out peer peer_len) o))
  | Fail e => upd_op k (complete e 0)
  end.

Definition send_perform_io (k : op_id) (f : Z) (iov : list iovec) (flags : Z) : IM unit :=
  call_retry (sys_sendmsg f None iov (Z.lor flags MSG_NOSIGNAL)) ≫= record_result k.

Definition recv_perform_io (k : op_id) (f : Z) (iov : list iovec) (flags : Z) : IM unit :=
  call_retry (sys_recvmsg f false iov flags) ≫= record_result k.

Definition send_to_perform_io (k : op_id) (f : Z) (iov : list iovec) (dest : sockaddr_storage)
    (len : socklen) (flags : Z) : IM unit :=
  call_retry (sys_sendmsg f (Some (dest, len)) iov (Z.lor flags MSG_NOSIGNAL)) ≫= record_result k.

Definition recv_from_perform_io (k : op_id) (f : Z) (iov : list iovec) (out : option nat)
    (flags : Z) : IM unit :=
  a ← call_retry (sys_recvmsg f true iov flags);
  match a with
  | RetAddr n src src_len =>
      upd_op k (fun o => complete 0 n (set_load (recv_from_op iov src src_len out flags) o))
  | _ => record_result k a
  end.

(** The virtual call. *)
Definition perform_io (k : op_id) : IM unit :=
  o ← the_op k;
  match load o with
  | connect_op _ => connect_perform_io k (fd o)
  | wait_op _ => wait_perform_io k
  | read_op iov _ => read_perform_io k (fd o) iov
  | write_op iov => write_perform_io k (fd o) iov
  | accept_op _ out storage len => accept_perform_io k (fd o) out storage len
  | send_op iov flags => send_perform_io k (fd o) iov flags
  | recv_op iov flags => recv_perform_io k (fd o) iov flags
  | send_to_op iov dest len flags => send_to_perform_io k (fd o) iov dest len flags
  | recv_from_op iov _ _ out flags => recv_from_perform_io k (fd o) iov out flags
  end.

Definition would_block (e : Z) : bool := (e =? EAGAIN) || (e =? EWOULDBLOCK).

(** * Completion *)

(** [*p = v], through a pointer that may not be null *)
Definition store_bytes (p : option nat) (n : Z) : IM unit :=
  p ← deref p; emit (wrote_bytes p n).

Definition decode_io_result (ec_out : option nat) (cancelled : bool) (err : error_code)
    (is_read : bool) (bytes : Z) (empty_buffer : bool) : IM unit :=
  match ec_out with
  | None => skip
  | Some p =>
      if cancelled then emit (wrote_ec p canceled)
      else if is_error err then emit (wrote_ec p err)
      else if is_read && (bytes =? 0) && negb empty_buffer then emit (wrote_ec p eof)
      else emit (wrote_ec p success)
  end.

(** [coro_resume] of a coroutine whose executor is that of the [io_context]:
    [dispatch_coro] then only returns its handle, without an effect, the keepalive
    leaves the operation, and [next.resume()] runs the coroutine; the keepalive
    itself is dropped after that.  (The executor of another context may run the
    coroutine already in [dispatch_coro], before the keepalive is moved: this is not
    modelled.) *)
Definition coro_resume (k : op_id) : IM unit :=
  o ← the_op k;
  upd_op k (set_impl_ptr false) ≫= fun _ => emit (resumed (h o)).

(** [op.errn != 0 ? make_err(op.errn) : std::error_code{}] *)
Definition op_error (o : op) : error_code := if o.(errn) =? 0 then success else make_err (errn o).

(** [op.stop_cb.reset()], then [reset_inline_budget] of the scheduler, reached
    through [socket_impl_]; both pointers must be set. *)
Definition complete_prologue (k : op_id) : IM unit :=
  upd_op k (set_stop_cb false) ≫= fun _ =>
  o ← the_op k;
  d ← the_desc;
  match owned_by o with
  | socket_owner => if scheduler_ d then emit reset_inline_budget else fault
  | _ => fault
  end.

(** The same through whichever of [socket_impl_] and [acceptor_impl_] is set;
    the acceptor's scheduler may be null. *)
Definition complete_prologue_wait (k : op_id) : IM unit :=
  upd_op k (set_stop_cb false) ≫= fun _ =>
  o ← the_op k;
  d ← the_desc;
  match owned_by o with
  | socket_owner => if scheduler_ d then emit reset_inline_budget else fault
  | acceptor_owner => if scheduler_ d then emit reset_inline_budget else skip
  | no_owner => fault
  end.

Definition complete_io_op (k : op_id) : IM unit :=
  complete_prologue k ≫= fun _ =>
  o ← the_op k;
  decode_io_result (ec_out o) (cancelled o) (op_error o) (is_read_operation o)
    (bytes_transferred o) false ≫= fun _ =>
  store_bytes (bytes_out o) (bytes_transferred o) ≫= fun _ =>
  coro_resume k.

Definition complete_dgram_recv_op (k : op_id) : IM unit :=
  complete_prologue k ≫= fun _ =>
  o ← the_op k;
  decode_io_result (ec_out o) (cancelled o) (op_error o) false 0 false ≫= fun _ =>
  store_bytes (bytes_out o) (bytes_transferred o) ≫= fun _ =>
  coro_resume k.

Definition complete_wait_op (k : op_id) : IM unit :=
  complete_prologue_wait k ≫= fun _ =>
  o ← the_op k;
  decode_io_result (ec_out o) (cancelled o) (op_error o) false 0 false ≫= fun _ =>
  coro_resume k.

Definition complete_connect_op (k : op_id) : IM unit :=
  complete_prologue k ≫= fun _ =>
  o ← the_op k;
  (match load o with
   | connect_op target_endpoint =>
       if (errn o =? 0) && negb (cancelled o) then
         a ← call (sys_getsockname (fd o));
         local_ep ← (match a with
                     | RetAddr _ storage _ => lift (from_sockaddr_as storage)
                     | _ => mret endpoint.default
                     end);
         upd_impl (set_endpoints local_ep target_endpoint)
       else skip
   | _ => skip
   end) ≫= fun _ =>
  decode_io_result (ec_out o) (cancelled o) (op_error o) false 0 false ≫= fun _ =>
  coro_resume k.

(** The two overloads of [complete_datagram_op]: without a source endpoint, and
    with one when the operation is a [recv_from]. *)
Definition complete_datagram_op (k : op_id) : IM unit :=
  complete_prologue k ≫= fun _ =>
  o ← the_op k;
  decode_io_result (ec_out o) (cancelled o) (op_error o) false 0 false ≫= fun _ =>
  store_bytes (bytes_out o) (bytes_transferred o) ≫= fun _ =>
  coro_resume k.

Definition complete_datagram_op_from (k : op_id) : IM unit :=
  complete_prologue k ≫= fun _ =>
  o ← the_op k;
  decode_io_result (ec_out o) (cancelled o) (op_error o) false 0 false ≫= fun _ =>
  store_bytes (bytes_out o) (bytes_transferred o) ≫= fun _ =>
  (match load o with
   | recv_from_op _ source _ (Some p) _ =>
       if negb (cancelled o) && (errn o =? 0) then
         ep ← lift (from_sockaddr_as source); emit (wrote_endpoint p ep)
       else skip
   | _ => skip
   end) ≫= fun _ =>
  coro_resume k.

(** [register_descriptor] of the epoll scheduler.  [epoll_ctl] is taken to
    succeed: its failure throws out of the callers. *)
Definition EPOLL_EVENTS : Z := 2147483677.  (* IN | OUT | ET | ERR | HUP *)
Definition registered (f : Z) (d : desc_state) : desc_state :=
  set_ready false false (set_impl_ref false (set_ready_events 0 (set_scheduler true
    (set_desc_fd f EPOLL_EVENTS d)))).
Definition register_descriptor (f : Z) : IM unit :=
  emit (called (sys_epoll_add f EPOLL_EVENTS)) ≫= fun _ =>
  upd_desc (registered f).

(** [setup_accepted_socket]: [stream_svc] is whether the acceptor has a stream
    service.  The new implementation, which the service constructs, is the
    logged [constructed] with its descriptor registered. *)
Definition setup_accepted_socket (stream_svc : bool) (accepted_fd : Z)
    (peer_storage : sockaddr_storage) (impl_out ec_out : option nat) : IM bool :=
  if negb stream_svc then
    (p ← deref ec_out; emit (wrote_ec p (make_err ENOENT))) ≫= fun _ => mret false
  else
    i ← the_impl;
    emit (called (sys_epoll_add accepted_fd EPOLL_EVENTS)) ≫= fun _ =>
    remote ← lift (from_sockaddr_as peer_storage);
    emit (constructed accepted_fd (local_endpoint_ i) remote) ≫= fun _ =>
    (match impl_out with
     | Some p => emit (wrote_impl p (Some accepted_fd))
     | None => skip
     end) ≫= fun _ =>
    mret true.

(** [if (!success || !op.acceptor_impl_) { ... }] *)
Definition drop_accepted (k : op_id) (accepted_fd : Z) (impl_out : option nat)
    (peer_storage : sockaddr_storage) (peer_addrlen : nat) : IM unit :=
  (if 0 <=? accepted_fd then
     emit (called (sys_close accepted_fd)) ≫= fun _ =>
     upd_op k (set_load (accept_op (-1) impl_out peer_storage peer_addrlen))
   else skip) ≫= fun _ =>
  match impl_out with
  | Some p => emit (wrote_impl p None)
  | None => skip
  end.

Definition complete_accept_op (stream_svc : bool) (k : op_id) : IM unit :=
  upd_op k (set_stop_cb false) ≫= fun _ =>
  o ← the_op k;
  d ← the_desc;
  (match owned_by o with
   | acceptor_owner => if scheduler_ d then emit reset_inline_budget else skip
   | _ => fault
   end) ≫= fun _ =>
  match load o with
  | accept_op accepted_fd impl_out peer_storage peer_addrlen =>
      decode_io_result (ec_out o) (cancelled o) (op_error o) false 0 false ≫= fun _ =>
      let ok := (errn o =? 0) && negb (cancelled o) in
      ok ← (if ok && (0 <=? accepted_fd) then
              b ← setup_accepted_socket stream_svc accepted_fd peer_storage impl_out (ec_out o);
              (if b : bool
               then upd_op k (set_load (accept_op (-1) impl_out peer_storage peer_addrlen))
               else skip) ≫= fun _ => mret b
            else mret ok);
      (if ok : bool then skip else drop_accepted k accepted_fd impl_out peer_storage peer_addrlen)
        ≫= fun _ =>
      coro_resume k
  | _ => fault
  end.

(** [operator()] of the operation's class. *)
Definition invoke (k : op_id) : IM unit :=
  o ← the_op k;
  match load o with
  | connect_op _ => complete_connect_op k
  | wait_op _ => complete_wait_op k
  | read_op _ _ | write_op _ | send_op _ _ | send_to_op _ _ _ _ => complete_io_op k
  | accept_op _ _ _ _ => complete_accept_op true k
  | recv_op _ _ => complete_datagram_op k
  | recv_from_op _ _ _ _ _ => complete_datagram_op_from k
  end.

End reactor_op.
