(* ===== verification/DescriptorState.v ===== *)
(** Deferred I/O of a descriptor:
    [reactor_descriptor_state::invoke_deferred_io] of
    [include/boost/corosio/native/detail/reactor/reactor_descriptor_state.hpp].

    The reactor accumulates events with [add_ready_events] and queues the
    descriptor; when the scheduler pops it, the I/O of the operations parked in
    its slots runs under the descriptor's mutex, and the operations that
    complete are dispatched. *)

From stdpp Require Import functions.
From S2P Require Import Prelude StateMonad Ipv4 Ipv6 Endpoint Sockaddr ReactorOp.
Import reactor_op.

Module reactor_descriptor_state.

(** [fetch_or] *)
Definition add_ready_events (ev : Z) : IM unit :=
  upd_desc (fun d => set_ready_events (Z.lor (ready_events_ d) ev) d).

(** [is_enqueued_.compare_exchange_strong(expected = false, true)], by which
    the reactor decides whether to queue the descriptor *)
Definition try_enqueue : IM bool :=
  d ← the_desc;
  if is_enqueued_ d then mret false
  else upd_desc (set_enqueued true) ≫= fun _ => mret true.

(** [destroy] *)
Definition destroy : IM unit := upd_desc (set_impl_ref false).

Definition has (ev bit : Z) : bool := negb (Z.land ev bit =? 0).

(** [SO_ERROR] when the error event is set, never 0 then. *)
Definition pending_error (ev : Z) : IM Z :=
  if has ev reactor_event_error then
    d ← the_desc;
    a ← call (sys_so_error (desc_fd d));
    let err := match a with
               | Ret e | RetAddr e _ _ => e
               | Fail e => e
               end in
    mret (if err =? 0 then EIO else err)
  else mret 0.

(** The I/O of the operation in slot [s]; the list is what is pushed on
    [local_ops].  An operation that would block stays in its slot. *)
Definition io_slot (s : slot) (err : Z) (k : op_id) : IM (list op_id) :=
  (if err =? 0 then perform_io k else upd_op k (complete err 0)) ≫= fun _ =>
  o ← the_op k;
  if would_block (errn o) then
    upd_op k (set_errn 0) ≫= fun _ => mret []
  else
    upd_desc (set_slot s None) ≫= fun _ => mret [k].

(** [if (slot) { slot->complete(err, 0); push(exchange(slot, nullptr)); }] *)
Definition complete_slot (s : slot) (err : Z) : IM (list op_id) :=
  d ← the_desc;
  match slots d s with
  | None => mret []
  | Some k =>
      upd_op k (complete err 0) ≫= fun _ =>
      upd_desc (set_slot s None) ≫= fun _ => mret [k]
  end.

(** The connect operation leaves its slot whatever its result. *)
Definition connect_io (err : Z) (k : op_id) : IM (list op_id) :=
  (if err =? 0 then perform_io k else upd_op k (complete err 0)) ≫= fun _ =>
  upd_desc (set_slot connect_slot None) ≫= fun _ => mret [k].

Definition on_read (err : Z) : IM (list op_id) :=
  d ← the_desc;
  l ← (match slots d read_slot with
       | Some k => io_slot read_slot err k
       | None => upd_desc (fun d => set_ready true (write_ready d) d) ≫= fun _ => mret []
       end);
  w ← complete_slot wait_read_slot err;
  mret (l ++ w).

Definition on_write (err : Z) : IM (list op_id) :=
  d ← the_desc;
  let had_write_op := bool_decide (is_Some (slots d connect_slot))
                      || bool_decide (is_Some (slots d write_slot)) in
  c ← (match slots d connect_slot with
       | Some k => connect_io err k
       | None => mret []
       end);
  d ← the_desc;
  l ← (match slots d write_slot with
       | Some k => io_slot write_slot err k
       | None => mret []
       end);
  (if had_write_op then skip
   else upd_desc (fun d => set_ready (read_ready d) true d)) ≫= fun _ =>
  w ← complete_slot wait_write_slot err;
  mret (c ++ l ++ w).

(** The slots still occupied when there is an error. *)
Definition on_error (err : Z) : IM (list op_id) :=
  r ← complete_slot read_slot err;
  w ← complete_slot write_slot err;
  c ← complete_slot connect_slot err;
  wr ← complete_slot wait_read_slot err;
  ww ← complete_slot wait_write_slot err;
  mret (r ++ w ++ c ++ wr ++ ww).

(** The part under the mutex.  The first result is
    [prevent_impl_destruction]; the second is [local_ops], or nothing when no
    event was pending and the function returns early. *)
Definition deferred_io : IM (bool * option (list op_id)) :=
  lock_desc ≫= fun _ =>
  d ← the_desc;
  let prevent_impl_destruction := impl_ref_ d in
  let ev := ready_events_ d in
  upd_desc (fun d => set_ready_events 0 (set_enqueued false (set_impl_ref false d))) ≫= fun _ =>
  if ev =? 0 then
    (if scheduler_ d then emit compensating_work_started else fault) ≫= fun _ =>
    unlock_desc ≫= fun _ =>
    mret (prevent_impl_destruction, None)
  else
    err ← pending_error ev;
    r ← (if has ev reactor_event_read then on_read err else mret []);
    w ← (if has ev reactor_event_write then on_write err else mret []);
    e ← (if has ev reactor_event_error || negb (err =? 0)
         then complete_slot wait_error_slot err else mret []);
    x ← (if err =? 0 then mret [] else on_error err);
    unlock_desc ≫= fun _ =>
    mret (prevent_impl_destruction, Some (r ++ w ++ e ++ x)).

(** The part after the mutex: the first operation runs at once, in the place of
    the descriptor's own unit of work, and the others are posted; with none the
    unit is compensated. *)
Definition post_rest (local_ops : list op_id) : IM (option op_id) :=
  d ← the_desc;
  if negb (scheduler_ d) then fault else
  match local_ops with
  | [] => emit compensating_work_started ≫= fun _ => mret None
  | first :: rest => emit (deferred rest) ≫= fun _ => mret (Some first)
  end.

Definition dispatch (local_ops : list op_id) : IM unit :=
  first ← post_rest local_ops;
  match first with
  | Some k => invoke k
  | None => skip
  end.

Definition invoke_deferred_io : IM unit :=
  r ← deferred_io;
  match r with
  | (_, None) => skip
  | (_, Some local_ops) => dispatch local_ops
  end.

End reactor_descriptor_state.
