(* ===== verification/DescriptorSpec.v ===== *)
(** What deferred I/O does to a descriptor: the reasoning rules for the code of
    an implementation, the relation [io_step] that every piece of
    [invoke_deferred_io] satisfies, and its consequences for the slots. *)

From stdpp Require Import functions.
From S2P Require Import Prelude StateMonad Ipv4 Ipv6 Endpoint Sockaddr ReactorOp DescriptorState.
Import reactor_op reactor_descriptor_state.

(** * Reasoning rules *)

Abbreviation desc_of s := (desc_state_ (this s)).
Abbreviation op_of s k := (ops (this s) k).

Definition with_impl (f : impl -> impl) (s : st) : st :=
  mk_st (f (this s)) (owns s) (script s) (log s).
Definition with_op (k : op_id) (f : op -> op) (s : st) : st :=
  with_impl (fun i => set_ops (<[k := f (ops i k)]> (ops i)) i) s.
Definition with_desc (f : desc_state -> desc_state) (s : st) : st :=
  with_impl (fun i => set_desc (f (desc_state_ i)) i) s.
Definition with_log (e : effect) (s : st) : st :=
  mk_st (this s) (owns s) (script s) (log s ++ [e]).
Definition with_owns (b : bool) (s : st) : st :=
  mk_st (this s) b (script s) (log s).

Lemma wp_the_impl Q s : Q (this s) s -> wp the_impl Q s.
Proof. done. Qed.
Lemma wp_the_desc Q s : Q (desc_of s) s -> wp the_desc Q s.
Proof. done. Qed.
Lemma wp_the_op k Q s : Q (op_of s k) s -> wp (the_op k) Q s.
Proof. done. Qed.
Lemma wp_upd_sock f (Q : unit -> st -> Prop) s : Q tt (with_impl f s) -> wp (upd_impl f) Q s.
Proof. done. Qed.
Lemma wp_upd_op k f (Q : unit -> st -> Prop) s : Q tt (with_op k f s) -> wp (upd_op k f) Q s.
Proof. done. Qed.
Lemma wp_upd_desc f (Q : unit -> st -> Prop) s : Q tt (with_desc f s) -> wp (upd_desc f) Q s.
Proof. done. Qed.
Lemma wp_log e (Q : unit -> st -> Prop) s : Q tt (with_log e s) -> wp (emit e) Q s.
Proof. done. Qed.
Lemma wp_lock_desc (Q : unit -> st -> Prop) s :
  owns s = false -> Q tt (with_owns true s) -> wp lock_desc Q s.
Proof. intros H. unfold wp, lock_desc, mbind, M_bind, get. by rewrite H. Qed.
Lemma wp_unlock_desc (Q : unit -> st -> Prop) s :
  owns s = true -> Q tt (with_owns false s) -> wp unlock_desc Q s.
Proof. intros H. unfold wp, unlock_desc, mbind, M_bind, get. by rewrite H. Qed.

Ltac im_step :=
  lazymatch goal with
  | |- wp (_ ≫= _) _ _ => apply wp_bind
  | |- wp (mret _) _ _ => apply wp_ret
  | |- wp skip _ _ => apply wp_skip
  | |- wp get _ _ => apply wp_get
  | |- wp (put _) _ _ => apply wp_put
  | |- wp the_impl _ _ => apply wp_the_impl
  | |- wp the_desc _ _ => apply wp_the_desc
  | |- wp (the_op _) _ _ => apply wp_the_op
  | |- wp (upd_impl _) _ _ => apply wp_upd_sock
  | |- wp (upd_op _ _) _ _ => apply wp_upd_op
  | |- wp (upd_desc _) _ _ => apply wp_upd_desc
  | |- wp (emit _) _ _ => apply wp_log
  end; cbn beta.
Ltac im_steps := repeat im_step.

(** * The relation *)

Inductive op_kind := k_connect | k_wait | k_read | k_write | k_accept | k_send | k_recv
  | k_send_to | k_recv_from.

Definition kind (p : payload) : op_kind :=
  match p with
  | connect_op _ => k_connect
  | wait_op _ => k_wait
  | read_op _ _ => k_read
  | write_op _ => k_write
  | accept_op _ _ _ _ => k_accept
  | send_op _ _ => k_send
  | recv_op _ _ => k_recv
  | send_to_op _ _ _ _ => k_send_to
  | recv_from_op _ _ _ _ _ => k_recv_from
  end.

(** I/O changes only the result of an operation and what the call stores. *)
Definition keeps (o o' : op) : Prop :=
  kind (load o') = kind (load o) /\ fd o' = fd o /\ cancelled o' = cancelled o
  /\ stop_cb o' = stop_cb o /\ h o' = h o /\ ec_out o' = ec_out o /\ bytes_out o' = bytes_out o
  /\ impl_ptr o' = impl_ptr o /\ owned_by o' = owned_by o.

#[export] Instance keeps_preorder : PreOrder keeps.
Proof.
  split.
  - intros o. by repeat split.
  - intros a b c (?&?&?&?&?&?&?&?&?) (?&?&?&?&?&?&?&?&?). repeat split; congruence.
Qed.

Definition same_desc (d d' : desc_state) : Prop :=
  cancel_pending d' = cancel_pending d /\ registered_events d' = registered_events d
  /\ desc_fd d' = desc_fd d /\ is_enqueued_ d' = is_enqueued_ d /\ impl_ref_ d' = impl_ref_ d
  /\ scheduler_ d' = scheduler_ d /\ ready_events_ d' = ready_events_ d.

#[export] Instance same_desc_preorder : PreOrder same_desc.
Proof.
  split.
  - intros o. by repeat split.
  - intros a b c (?&?&?&?&?&?&?) (?&?&?&?&?&?&?). repeat split; congruence.
Qed.

Lemma slots_set_slot d sl p s :
  slots (set_slot sl p d) s = if decide (sl = s) then p else slots d s.
Proof. done. Qed.

(** A socket address holds the structure that its family announces. *)
Definition answer_ok (a : answer) : Prop :=
  match a with
  | RetAddr _ storage _ => exists ep, from_sockaddr_as storage = Ok ep
  | _ => True
  end.
Definition script_ok (l : list answer) : Prop := Forall answer_ok l.

(** So does the address that a [recv_from] has stored. *)
Definition load_ok (p : payload) : Prop :=
  match p with
  | recv_from_op _ storage _ _ _ => exists ep, from_sockaddr_as storage = Ok ep
  | _ => True
  end.

Lemma load_ok_kind p : kind p <> k_recv_from -> load_ok p.
Proof. by destruct p. Qed.

Lemma reset_load_ok p : load_ok (reset_load p).
Proof. destruct p; cbn; try done. by exists endpoint.default. Qed.

Section slots.
(** The slot an operation parks in. *)
Context (own : op_id -> option slot).

Definition slots_wf (d : desc_state) : Prop :=
  forall s k, slots d s = Some k -> own k = Some s.

(** How often [k] is parked: in its own slot or not at all. *)
Definition parked (d : desc_state) (k : op_id) : Z :=
  match own k with
  | Some s => b2z (bool_decide (slots d s = Some k))
  | None => 0
  end.

Lemma parked_slot d s k : slots_wf d -> slots d s = Some k -> parked d k = 1.
Proof. intros Hwf H. unfold parked. rewrite (Hwf _ _ H). by rewrite bool_decide_true. Qed.

Lemma parked_empty d k : (forall s, slots d s = None) -> parked d k = 0.
Proof.
  intros H. unfold parked. destruct (own k) as [s|]; [|done].
  rewrite bool_decide_false; [done|]. by rewrite H.
Qed.

(** [l] leaves the slots. *)
Record io_step (l : list op_id) (s s' : st) : Prop := mk_io_step {
  io_owns : owns s' = owns s;
  io_ops : forall k, keeps (op_of s k) (op_of s' k);
  io_desc : same_desc (desc_of s) (desc_of s');
  io_fd : fd_ (this s') = fd_ (this s);
  io_wf : slots_wf (desc_of s) -> slots_wf (desc_of s');
  io_parked : slots_wf (desc_of s) ->
              forall k, parked (desc_of s') k + occ k l = parked (desc_of s) k;
  io_only : forall k, k ∈ l -> exists sl, slots (desc_of s) sl = Some k;
  io_shrink : forall sl, slots (desc_of s') sl = slots (desc_of s) sl
                         \/ slots (desc_of s') sl = None;
  io_log : exists cs, log s' = log s ++ (called <$> cs);
  io_script : script_ok (script s) -> script_ok (script s');
  io_loads : script_ok (script s) -> forall k, load_ok (load (op_of s k)) ->
             load_ok (load (op_of s' k))
}.

Lemma io_refl s : io_step [] s s.
Proof.
  split; try done; try reflexivity; intros.
  - unfold occ. cbn. lia.
  - by apply not_elem_of_nil in H.
  - by left.
  - exists []. by rewrite app_nil_r.
Qed.

Lemma io_trans l1 l2 s1 s2 s3 :
  io_step l1 s1 s2 -> io_step l2 s2 s3 -> io_step (l1 ++ l2) s1 s3.
Proof.
  intros [] []. split; try congruence; try tauto.
  - intros k. etrans; [apply io_ops0|apply io_ops1].
  - by etrans.
  - intros Hwf k. rewrite occ_app.
    specialize (io_parked0 Hwf k). specialize (io_parked1 (io_wf0 Hwf) k). lia.
  - intros k [Hk|Hk]%elem_of_app; [by apply io_only0|].
    destruct (io_only1 _ Hk) as [sl Hsl]. exists sl.
    destruct (io_shrink0 sl) as [E|E]; congruence.
  - intros sl. destruct (io_shrink1 sl) as [E|E]; [rewrite E; apply io_shrink0|by right].
  - destruct io_log0 as [c1 E1], io_log1 as [c2 E2]. exists (c1 ++ c2).
    by rewrite E2, E1, fmap_app, app_assoc.
  - intros Hok k Hk. apply io_loads1; auto.
Qed.

(** Steps that touch only the result of operations. *)
Lemma io_with_op k f s :
  keeps (op_of s k) (f (op_of s k)) ->
  (script_ok (script s) -> load_ok (load (op_of s k)) -> load_ok (load (f (op_of s k)))) ->
  io_step [] s (with_op k f s).
Proof.
  intros Hf Hl. pose proof (io_refl s) as []. split; try done.
  - intros j. cbn. unfold insert, fn_insert. case_decide; [subst; done|reflexivity].
  - intros Hok j. cbn. unfold insert, fn_insert. case_decide; [subst; auto|done].
Qed.

(** The same after a step, whose script is the one that counts. *)
Lemma io_then_op l k f s s' :
  io_step l s s' -> keeps (op_of s' k) (f (op_of s' k)) ->
  (script_ok (script s) -> load_ok (load (op_of s' k)) -> load_ok (load (f (op_of s' k)))) ->
  io_step l s (with_op k f s').
Proof.
  intros [] Hf Hl. split; try done.
  - intros j. etrans; [apply io_ops0|]. cbn. unfold insert, fn_insert.
    case_decide; [subst; done|reflexivity].
  - intros Hok j Hj. cbn. unfold insert, fn_insert. case_decide; [subst; auto|auto].
Qed.

Lemma io_ready r w s : io_step [] s (with_desc (set_ready r w) s).
Proof. pose proof (io_refl s) as []. by split. Qed.

Lemma io_calls c n a s :
  (script_ok (script s) -> script_ok a) ->
  io_step [] s (mk_st (this s) (owns s) a (log s ++ replicate n (called c))).
Proof.
  intros Ha. pose proof (io_refl s) as []. split; try done.
  exists (replicate n c). by rewrite fmap_replicate.
Qed.

Lemma io_clear sl k s :
  slots (desc_of s) sl = Some k -> io_step [k] s (with_desc (set_slot sl None) s).
Proof.
  intros Hk. split; try done; try reflexivity; cbn [this with_desc with_impl desc_state_ set_desc].
  - intros Hwf s' k'. rewrite slots_set_slot. case_decide; [done|apply Hwf].
  - intros Hwf j. unfold parked, occ. cbn [zsum].
    destruct (own j) as [s'|] eqn:Ej.
    + rewrite slots_set_slot. destruct (decide (sl = s')) as [<-|Hs].
      * rewrite Hk. rewrite (bool_decide_false (None = _)) by done.
        destruct (decide (k = j)) as [->|Hn]; [by rewrite !bool_decide_true|].
        rewrite !bool_decide_false by congruence. done.
      * rewrite (bool_decide_false (k = j)); [cbn; lia|].
        intros ->. rewrite (Hwf _ _ Hk) in Ej. congruence.
    + rewrite bool_decide_false; [done|]. intros ->. rewrite (Hwf _ _ Hk) in Ej. done.
  - intros j ->%list_elem_of_singleton. by exists sl.
  - intros s'. rewrite slots_set_slot. case_decide; auto.
  - exists []. by rewrite app_nil_r.
Qed.

Lemma io_app_nil l s s' : io_step l s s' -> io_step (l ++ []) s s'.
Proof. by rewrite app_nil_r. Qed.

(** Sequencing: what ran so far took [l0]. *)
Lemma wp_io {A} (m : IM A) (P : A -> list op_id) (Q : A -> st -> Prop) l0 s0 s :
  wp m (fun a s' => io_step (P a) s s') s ->
  io_step l0 s0 s ->
  (forall a s', io_step (l0 ++ P a) s0 s' -> io_step (P a) s s' -> Q a s') ->
  wp m Q s.
Proof.
  intros Hm H0 HQ. eapply wp_mono; [exact Hm|]. intros a s' Hs'. apply HQ; [|done].
  eapply io_trans; eauto.
Qed.

Lemma retry_on_ok c l :
  script_ok l -> answer_ok (fst (fst (retry_on c l))) /\ script_ok (snd (fst (retry_on c l))).
Proof.
  induction l as [|a l IH]; [done|]. intros H. inversion H; subst. cbn.
  destruct a; try done. destruct (_ =? _); [|done].
  destruct (retry_on c l) as [[? ?] ?]. by apply IH.
Qed.

(** A call of the system, with the answer it takes from the script. *)
Definition io_call (a : answer) (s s' : st) : Prop :=
  io_step [] s s' /\ (script_ok (script s) -> answer_ok a).

Lemma call_io c s : wp (call c) (fun a s' => io_call a s s') s.
Proof.
  unfold call. im_steps. destruct (script s) as [|a rest] eqn:E; im_steps.
  - split; [|done]. by apply (io_calls c 1 (script s)).
  - split; [apply (io_calls c 1 rest)|]; rewrite E; intros H; by inversion H.
Qed.

Lemma call_retry_io c s : wp (call_retry c) (fun a s' => io_call a s s') s.
Proof.
  unfold call_retry. im_steps. pose proof (retry_on_ok c (script s)) as R.
  destruct (retry_on c (script s)) as [[a rest] n]. im_steps.
  split; [apply io_calls|]; apply R.
Qed.

Lemma complete_io k e n s : io_step [] s (with_op k (complete e n) s).
Proof. by apply io_with_op. Qed.

Lemma record_result_io k a s : wp (record_result k a) (fun _ s' => io_step [] s s') s.
Proof. destruct a; apply complete_io. Qed.

(** [perform_io] only records a result. *)
Lemma perform_io_step k s : wp (perform_io k) (fun _ s' => io_step [] s s') s.
Proof.
  unfold perform_io. im_steps.
  assert (R : forall c, wp (call_retry c ≫= record_result k) (fun _ s' => io_step [] s s') s).
  { intros c. im_step. eapply wp_mono; [apply call_retry_io|]. intros a s' [H _].
    eapply wp_mono; [apply record_result_io|].
    intros [] s'' H'. by apply (io_trans [] [] _ _ _ H). }
  destruct (load (op_of s k)) as [?|?|?|?|? ? ? ?|?|?|?|? ? ? ? ?] eqn:El;
    [|apply complete_io|by apply R|by apply R| |by apply R|by apply R|by apply R|].
  - unfold connect_perform_io. im_step. eapply wp_mono; [apply call_io|]. intros [] s' [H _];
      apply (io_trans [] [] _ _ _ H), complete_io.
  - unfold accept_perform_io. im_step. eapply wp_mono; [apply call_retry_io|]. intros a s' [H _].
    assert (K : kind (load (op_of s' k)) = k_accept)
      by (destruct (io_ops _ _ _ H k) as [-> _]; by rewrite El).
    destruct a; [| |]; unfold record_result; im_steps;
      apply (io_trans [] [] _ _ _ H), io_with_op; by repeat split.
  - unfold recv_from_perform_io. im_step. eapply wp_mono; [apply call_retry_io|]. intros a s' [H Ha].
    assert (K : kind (load (op_of s' k)) = k_recv_from)
      by (destruct (io_ops _ _ _ H k) as [-> _]; by rewrite El).
    destruct a; [| |]; unfold record_result; im_steps;
      (apply io_then_op; [exact H|by repeat split|]); intros Hok ?; try done. exact (Ha Hok).
Qed.

(** * Pieces of deferred I/O *)

Lemma parked_le_1 d k : 0 <= parked d k <= 1.
Proof. unfold parked, b2z. destruct (own k); [case_bool_decide|]; lia. Qed.

Lemma parked_0 d k : slots_wf d -> parked d k = 0 -> forall sl, slots d sl <> Some k.
Proof. intros Hwf H sl Hsl. rewrite (parked_slot _ _ _ Hwf Hsl) in H. done. Qed.

Lemma occ_elem (k : op_id) l : k ∈ l -> 1 <= occ k l.
Proof.
  induction l as [|x l IH]; [by intros ?%not_elem_of_nil|].
  pose proof (occ_nonneg k l) as H. unfold occ in *. cbn.
  intros [->|Hk]%elem_of_cons; [rewrite bool_decide_true by done; cbn; lia|].
  specialize (IH Hk). unfold b2z at 1. case_bool_decide; lia.
Qed.

Lemma io_nil_slot s s' sl k :
  slots_wf (desc_of s) -> io_step [] s s' -> slots (desc_of s) sl = Some k ->
  slots (desc_of s') sl = Some k.
Proof.
  intros Hwf H Hk. destruct (io_shrink _ _ _ H sl) as [E|E]; [congruence|].
  pose proof (io_parked _ _ _ H Hwf k) as Hp. rewrite (parked_slot _ _ _ Hwf Hk) in Hp.
  unfold parked in Hp. rewrite (Hwf _ _ Hk), E in Hp. rewrite bool_decide_false in Hp by done.
  done.
Qed.

(** An operation that has left the slots is not in them. *)
Lemma io_gone l s s' k :
  slots_wf (desc_of s) -> io_step l s s' -> k ∈ l -> forall sl, slots (desc_of s') sl <> Some k.
Proof.
  intros Hwf H Hk. apply parked_0; [by apply (io_wf _ _ _ H)|].
  pose proof (io_parked _ _ _ H Hwf k). pose proof (parked_le_1 (desc_of s) k).
  pose proof (parked_le_1 (desc_of s') k). pose proof (occ_elem _ _ Hk). lia.
Qed.

Lemma complete_slot_io sl err s :
  wp (complete_slot sl err) (fun l s' => io_step l s s') s.
Proof.
  unfold complete_slot. im_steps. destruct (slots (desc_of s) sl) as [k|] eqn:Hk; im_steps.
  - by apply (io_trans [] [k] _ _ _ (complete_io k err 0 s)), io_clear.
  - apply io_refl.
Qed.

Definition attempt (err : Z) (k : op_id) : IM unit :=
  if err =? 0 then perform_io k else upd_op k (complete err 0).

Lemma attempt_io err k s : wp (attempt err k) (fun _ s' => io_step [] s s') s.
Proof. unfold attempt. destruct (err =? 0); [apply perform_io_step|apply complete_io]. Qed.

Lemma io_slot_io sl err k s :
  slots_wf (desc_of s) -> slots (desc_of s) sl = Some k ->
  wp (io_slot sl err k) (fun l s' => io_step l s s') s.
Proof.
  intros Hwf Hk. unfold io_slot. im_step.
  eapply wp_mono; [apply (attempt_io err)|]. intros [] s' H. im_steps.
  destruct (would_block (errn (op_of s' k))); im_steps.
  - apply (io_trans [] [] _ _ _ H), io_with_op; by repeat split.
  - apply (io_trans [] [k] _ _ _ H), io_clear. by eapply io_nil_slot.
Qed.

Lemma connect_io_io err k s :
  slots_wf (desc_of s) -> slots (desc_of s) connect_slot = Some k ->
  wp (connect_io err k) (fun l s' => io_step l s s') s.
Proof.
  intros Hwf Hk. unfold connect_io. im_step.
  eapply wp_mono; [apply (attempt_io err)|]. intros [] s' H. im_steps.
  apply (io_trans [] [k] _ _ _ H), io_clear. by eapply io_nil_slot.
Qed.

Lemma on_read_io err s :
  slots_wf (desc_of s) -> wp (on_read err) (fun l s' => io_step l s s') s.
Proof.
  intros Hwf. unfold on_read. im_steps.
  eapply (wp_mono _ (fun l s' => io_step l s s')).
  { destruct (slots (desc_of s) read_slot) as [k|] eqn:Hk; [by apply io_slot_io|].
    im_steps. apply io_ready. }
  intros l s' H. im_steps. eapply wp_mono; [apply complete_slot_io|].
  intros w s'' H'. im_steps. by eapply io_trans.
Qed.

Lemma on_write_io err s :
  slots_wf (desc_of s) -> wp (on_write err) (fun l s' => io_step l s s') s.
Proof.
  intros Hwf. unfold on_write. im_steps.
  eapply (wp_mono _ (fun l s' => io_step l s s')).
  { destruct (slots (desc_of s) connect_slot) as [k|] eqn:Hk; [by apply connect_io_io|].
    im_steps. apply io_refl. }
  intros c s1 H1. im_steps. eapply (wp_mono _ (fun l s' => io_step l s1 s')).
  { destruct (slots (desc_of s1) write_slot) as [k|] eqn:Hk.
    - apply io_slot_io; [by apply (io_wf _ _ _ H1)|done].
    - im_steps. apply io_refl. }
  intros l s2 H2. im_steps. eapply (wp_mono _ (fun _ s' => io_step [] s2 s')).
  { destruct (_ || _); im_steps; [apply io_refl|apply io_ready]. }
  intros [] s3 H3. im_steps. eapply wp_mono; [apply complete_slot_io|].
  intros w s4 H4. im_steps. apply (io_trans _ _ _ _ _ H1).
  apply (io_trans _ _ _ _ _ H2). by apply (io_trans [] _ _ _ _ H3).
Qed.

Lemma on_error_io err s :
  wp (on_error err) (fun l s' => io_step l s s') s.
Proof.
  unfold on_error. do 4 (im_step; eapply wp_mono; [apply complete_slot_io|]; intros ? ? ?).
  im_step. eapply wp_mono; [apply complete_slot_io|]. intros. im_steps. cbn beta in *.
  repeat (eapply io_trans; [eassumption|]). done.
Qed.

Lemma pending_error_io ev s : wp (pending_error ev) (fun _ s' => io_step [] s s') s.
Proof.
  unfold pending_error. destruct (has ev _); im_steps; [|apply io_refl].
  eapply wp_mono; [apply call_io|]. intros ? ? []. by im_steps.
Qed.

(** The state at the start of the I/O: the flag, the events and the reference
    are taken. *)
Definition begun (s : st) : st :=
  with_desc (fun d => set_ready_events 0 (set_enqueued false (set_impl_ref false d)))
    (with_owns true s).

Lemma deferred_io_io s :
  owns s = false -> scheduler_ (desc_of s) = true -> slots_wf (desc_of s) ->
  wp deferred_io
    (fun r s' =>
       fst r = impl_ref_ (desc_of s) /\
       match snd r with
       | None => ready_events_ (desc_of s) = 0
                 /\ s' = with_owns false (with_log compensating_work_started (begun s))
       | Some l => ready_events_ (desc_of s) <> 0
                   /\ exists s1, io_step l (begun s) s1 /\ s' = with_owns false s1
       end) s.
Proof.
  intros Ho Hs Hwf. unfold deferred_io. im_step. apply wp_lock_desc; [done|]. im_steps.
  destruct (ready_events_ (desc_of s) =? 0) eqn:Eev; [apply Z.eqb_eq in Eev|apply Z.eqb_neq in Eev].
  { cbn [this with_owns]. rewrite Eev, Hs, Z.eqb_refl. im_steps. by apply wp_unlock_desc. }
  cbn [this with_owns]. apply Z.eqb_neq in Eev as Eev'. rewrite Eev'. clear Eev'.
  fold (begun s). set (ev := ready_events_ (desc_of s)) in *.
  im_step. eapply wp_mono; [apply pending_error_io|]. intros err s1 H1. im_step.
  assert (W1 : slots_wf (desc_of s1)) by exact (io_wf _ _ _ H1 Hwf).
  eapply (wp_mono _ (fun l s' => io_step l s1 s')).
  { destruct (has ev _); [by apply on_read_io|]. im_steps. apply io_refl. }
  intros r s2 H2. im_step.
  eapply (wp_mono _ (fun l s' => io_step l s2 s')).
  { destruct (has ev _); [apply on_write_io, (io_wf _ _ _ H2 W1)|]. im_steps. apply io_refl. }
  intros w s3 H3. im_step.
  eapply (wp_mono _ (fun l s' => io_step l s3 s')).
  { destruct (_ || _); [apply complete_slot_io|]. im_steps. apply io_refl. }
  intros e s4 H4. im_step.
  eapply (wp_mono _ (fun l s' => io_step l s4 s')).
  { destruct (err =? 0); [|apply on_error_io]. im_steps. apply io_refl. }
  intros x s5 H5. im_step.
  assert (H : io_step (r ++ w ++ e ++ x) (begun s) s5).
  { apply (io_trans [] _ _ _ _ H1). repeat (eapply io_trans; [eassumption|]). done. }
  apply wp_unlock_desc; [by rewrite (io_owns _ _ _ H)|]. im_steps. split; [done|].
  split; [done|]. by exists s5.
Qed.

(** * The error event *)

(** [l] leaves the slots with the error [err]; no other operation that is not
    parked is touched. *)
Definition err_step (err : Z) (l : list op_id) (s s' : st) : Prop :=
  io_step l s s'
  /\ (forall k, k ∈ l -> errn (op_of s' k) = err /\ bytes_transferred (op_of s' k) = 0)
  /\ (forall k, (forall sl, slots (desc_of s) sl <> Some k) -> op_of s' k = op_of s k).

Lemma err_refl err s : err_step err [] s s.
Proof.
  split; [apply io_refl|]. split; [|done]. by intros k ?%not_elem_of_nil.
Qed.

Lemma err_trans err l1 l2 s1 s2 s3 :
  slots_wf (desc_of s1) -> err_step err l1 s1 s2 -> err_step err l2 s2 s3 ->
  err_step err (l1 ++ l2) s1 s3.
Proof.
  intros Hwf (H1 & D1 & U1) (H2 & D2 & U2). split; [by eapply io_trans|]. split.
  - intros k [Hk|Hk]%elem_of_app; [|by apply D2].
    rewrite U2; [by apply D1|by eapply io_gone].
  - intros k Hk. rewrite U2, U1; [done|done|]. intros sl.
    destruct (io_shrink _ _ _ H1 sl) as [E|E]; rewrite E; [apply Hk|done].
Qed.

Lemma with_op_ne k j f s : k <> j -> op_of (with_op k f s) j = op_of s j.
Proof. intros H. cbn. by rewrite fn_lookup_insert_ne. Qed.
Lemma with_op_eq k f s : op_of (with_op k f s) k = f (op_of s k).
Proof. cbn. by rewrite fn_lookup_insert. Qed.

(** The operation in a slot completes with the error and leaves. *)
Lemma err_take err sl k s :
  slots (desc_of s) sl = Some k ->
  err_step err [k] s (with_desc (set_slot sl None) (with_op k (complete err 0) s)).
Proof.
  intros Hk. split; [|split].
  - by apply (io_trans [] [k] _ _ _ (complete_io k err 0 s)), io_clear.
  - intros j ->%list_elem_of_singleton. split.
    + change (errn (op_of (with_op k (complete err 0) s) k) = err). by rewrite with_op_eq.
    + change (bytes_transferred (op_of (with_op k (complete err 0) s) k) = 0).
      by rewrite with_op_eq.
  - intros j Hj. change (op_of (with_op k (complete err 0) s) j = op_of s j).
    apply with_op_ne. intros <-. by apply (Hj sl).
Qed.

Lemma complete_slot_err err sl s :
  wp (complete_slot sl err)
    (fun l s' => err_step err l s s' /\ slots (desc_of s') sl = None) s.
Proof.
  unfold complete_slot. im_steps. destruct (slots (desc_of s) sl) as [k|] eqn:Hk; im_steps.
  - split; [by apply err_take|]. cbn [this with_desc with_impl desc_state_ set_desc].
    rewrite slots_set_slot. by case_decide.
  - split; [apply err_refl|done].
Qed.

Lemma io_slot_err err sl k s :
  err <> 0 -> slots_wf (desc_of s) -> slots (desc_of s) sl = Some k ->
  wp (io_slot sl err k) (fun l s' => err_step err l s s') s.
Proof.
  intros He%Z.eqb_neq Hwf Hk. unfold io_slot. rewrite He. im_steps.
  destruct (would_block _) eqn:Eb; im_steps; [|by apply err_take].
  split; [|split].
  - apply (io_trans [] [] _ _ _ (complete_io k err 0 s)), io_with_op; by repeat split.
  - by intros j ?%not_elem_of_nil.
  - intros j Hj. rewrite !with_op_ne; [done| |]; intros <-; by apply (Hj sl).
Qed.

Lemma on_read_err err s :
  err <> 0 -> slots_wf (desc_of s) -> wp (on_read err) (fun l s' => err_step err l s s') s.
Proof.
  intros He Hwf. unfold on_read. im_steps.
  eapply (wp_mono _ (fun l s' => err_step err l s s')).
  { destruct (slots (desc_of s) read_slot) as [k|] eqn:Hk; [by apply io_slot_err|].
    im_steps. destruct (err_refl err s) as (_ & D & U). split; [apply io_ready|done]. }
  intros l s' H. im_steps. eapply wp_mono; [apply complete_slot_err|].
  intros w s'' [H' _]. im_steps. by eapply err_trans.
Qed.

Lemma err_wf err l s s' : slots_wf (desc_of s) -> err_step err l s s' -> slots_wf (desc_of s').
Proof. intros Hwf (H & _). by apply (io_wf _ _ _ H). Qed.

Lemma on_write_err err s :
  err <> 0 -> slots_wf (desc_of s) -> wp (on_write err) (fun l s' => err_step err l s s') s.
Proof.
  intros He Hwf. unfold on_write. im_steps.
  eapply (wp_mono _ (fun l s' => err_step err l s s')).
  { destruct (slots (desc_of s) connect_slot) as [k|] eqn:Hk; im_steps; [|apply err_refl].
    unfold connect_io. apply Z.eqb_neq in He as ->. im_steps. by apply err_take. }
  intros c s1 H1. pose proof (err_wf _ _ _ _ Hwf H1) as W1.
  im_steps. eapply (wp_mono _ (fun l s' => err_step err l s1 s')).
  { destruct (slots (desc_of s1) write_slot) as [k|] eqn:Hk; [by apply io_slot_err|].
    im_steps. apply err_refl. }
  intros l s2 H2. pose proof (err_wf _ _ _ _ W1 H2) as W2.
  im_steps. eapply (wp_mono _ (fun _ s' => err_step err [] s2 s')).
  { destruct (_ || _); im_steps; [apply err_refl|].
    destruct (err_refl err s2) as (_ & D & U). split; [apply io_ready|done]. }
  intros [] s3 H3. pose proof (err_wf _ _ _ _ W2 H3) as W3.
  im_steps. eapply wp_mono; [apply complete_slot_err|].
  intros w s4 [H4 _]. im_steps. apply (err_trans err _ _ _ _ _ Hwf H1).
  apply (err_trans err _ _ _ _ _ W1 H2). by apply (err_trans err [] _ _ _ _ W2 H3).
Qed.

Lemma err_none err l s s' sl :
  err_step err l s s' -> slots (desc_of s) sl = None -> slots (desc_of s') sl = None.
Proof. intros (H & _) E. destruct (io_shrink _ _ _ H sl); congruence. Qed.

Lemma on_error_err err s :
  slots_wf (desc_of s) ->
  wp (on_error err)
    (fun l s' => err_step err l s s'
                 /\ forall sl, sl <> wait_error_slot -> slots (desc_of s') sl = None) s.
Proof.
  intros W. unfold on_error.
  im_step. eapply wp_mono; [apply complete_slot_err|]. intros a1 s1 [H1 N1].
  pose proof (err_wf _ _ _ _ W H1) as W1.
  im_step. eapply wp_mono; [apply complete_slot_err|]. intros a2 s2 [H2 N2].
  pose proof (err_wf _ _ _ _ W1 H2) as W2.
  im_step. eapply wp_mono; [apply complete_slot_err|]. intros a3 s3 [H3 N3].
  pose proof (err_wf _ _ _ _ W2 H3) as W3.
  im_step. eapply wp_mono; [apply complete_slot_err|]. intros a4 s4 [H4 N4].
  pose proof (err_wf _ _ _ _ W3 H4) as W4.
  im_step. eapply wp_mono; [apply complete_slot_err|]. intros a5 s5 [H5 N5].
  im_steps. split.
  - apply (err_trans err _ _ _ _ _ W H1), (err_trans err _ _ _ _ _ W1 H2),
      (err_trans err _ _ _ _ _ W2 H3), (err_trans err _ _ _ _ _ W3 H4), H5.
  - intros [] Hsl; try done; eauto 10 using err_none.
Qed.

(** The error that the code reports for the answer to its [getsockopt]. *)
Definition reported_error (answers : list answer) : Z :=
  let err := match answers with
             | Ret e :: _ | RetAddr e _ _ :: _ | Fail e :: _ => e
             | [] => EAGAIN
             end in
  if err =? 0 then EIO else err.

Lemma reported_error_nonzero answers : reported_error answers <> 0.
Proof. unfold reported_error. destruct (_ =? 0) eqn:E; [done|]. by apply Z.eqb_neq in E. Qed.

Lemma pending_error_reported ev s :
  has ev reactor_event_error = true ->
  wp (pending_error ev)
    (fun err s' => err = reported_error (script s) /\ this s' = this s /\ owns s' = owns s
                   /\ err_step err [] s s') s.
Proof.
  intros He. unfold pending_error. rewrite He. im_steps. unfold call. im_steps.
  unfold reported_error.
  destruct (script s) as [|[] rest] eqn:Es; im_steps; (split; [done|]; split; [done|]; split; [done|];
    split; [|split; [by intros ? ?%not_elem_of_nil|done]]).
  - by apply (io_calls _ 1 (script s)).
  - apply (io_calls _ 1 rest). rewrite Es. intros H. by inversion H.
  - apply (io_calls _ 1 rest). rewrite Es. intros H. by inversion H.
  - apply (io_calls _ 1 rest). rewrite Es. intros H. by inversion H.
Qed.

(** With the error event pending, every slot is emptied and every operation
    that was parked is dispatched with the error. *)
Lemma deferred_io_error s :
  owns s = false -> scheduler_ (desc_of s) = true -> slots_wf (desc_of s) ->
  has (ready_events_ (desc_of s)) reactor_event_error = true ->
  wp deferred_io
    (fun r s' => exists l, snd r = Some l
       /\ (forall sl, slots (desc_of s') sl = None)
       /\ (forall k, parked (desc_of s) k = occ k l)
       /\ (forall k, k ∈ l -> errn (op_of s' k) = reported_error (script s)
                              /\ bytes_transferred (op_of s' k) = 0)) s.
Proof.
  intros Ho Hs Hwf He. unfold deferred_io. im_step. apply wp_lock_desc; [done|]. im_steps.
  destruct (ready_events_ (desc_of s) =? 0) eqn:Eev.
  { apply Z.eqb_eq in Eev. by rewrite Eev in He. }
  cbn [this with_owns]. rewrite Eev. fold (begun s).
  set (ev := ready_events_ (desc_of s)) in *.
  im_step. eapply wp_mono; [by apply pending_error_reported|].
  intros err s1 (-> & T1 & O1 & H1). im_step. rewrite He. cbn [orb].
  change (script (begun s)) with (script s). change (script (begun s)) with (script s) in H1.
  pose proof (reported_error_nonzero (script s)) as Hnz. set (err := reported_error _) in *.
  apply Z.eqb_neq in Hnz as Hnz'.
  pose proof (err_wf _ _ (begun s) _ Hwf H1) as W1.
  eapply (wp_mono _ (fun l s' => err_step err l s1 s')).
  { destruct (has ev reactor_event_read); [by apply on_read_err|]. im_steps. apply err_refl. }
  intros r s2 H2. im_step. pose proof (err_wf _ _ _ _ W1 H2) as W2.
  eapply (wp_mono _ (fun l s' => err_step err l s2 s')).
  { destruct (has ev reactor_event_write); [by apply on_write_err|]. im_steps. apply err_refl. }
  intros w s3 H3. im_step. pose proof (err_wf _ _ _ _ W2 H3) as W3.
  eapply wp_mono; [apply complete_slot_err|].
  intros e s4 [H4 N4]. im_step. pose proof (err_wf _ _ _ _ W3 H4) as W4. rewrite Hnz'.
  eapply wp_mono; [by apply on_error_err|].
  intros x s5 [H5 N5]. im_step.
  assert (H : err_step err (r ++ w ++ e ++ x) (begun s) s5).
  { apply (err_trans err [] _ (begun s) _ _ Hwf H1), (err_trans err _ _ _ _ _ W1 H2),
      (err_trans err _ _ _ _ _ W2 H3), (err_trans err _ _ _ _ _ W3 H4), H5. }
  destruct H as (H & D & _).
  apply wp_unlock_desc; [by rewrite (io_owns _ _ _ H)|]. im_steps.
  exists (r ++ w ++ e ++ x).
  assert (N : forall sl, slots (desc_of s5) sl = None).
  { intros sl. destruct (decide (sl = wait_error_slot)) as [->|]; [|by apply N5].
    by apply (err_none _ _ _ _ _ H5). }
  split; [done|]. split; [exact N|]. split; [|exact D].
  intros k. pose proof (io_parked _ (begun s) _ H Hwf k) as P.
  rewrite (parked_empty _ _ N) in P. change (parked (desc_of s) k) with (parked (desc_of (begun s)) k).
  lia.
Qed.

End slots.
