(* ===== verification/BasicSocket.v ===== *)
(** What the sockets of the reactor backends share:
    [include/boost/corosio/native/detail/reactor/reactor_basic_socket.hpp]
    (registration, cancellation, closing), the steps that the initiating
    functions of stream and datagram sockets have in common, and
    [include/boost/corosio/detail/buffer_param.hpp].

    [reactor_basic_socket] is a base class parameterised by its derived class,
    of which it calls four functions: the class [derived] below is that
    interface, with an instance in StreamSocket.v and one in DatagramSocket.v.

    An implementation is made by its service with [make_shared] and its code
    runs while it is alive, so [weak_from_this().lock()] returns a pointer:
    the branches for a null one are not followed.  Functions that release the
    descriptor's mutex before they post are split at that point, because other
    threads run there; the whole function composes the pieces. *)

From stdpp Require Import functions.
From S2P Require Import Prelude StateMonad Ipv4 Ipv6 Endpoint Sockaddr ReactorOp.
Import reactor_op.

(** [buffer_param::copy_to]: at most [n] buffers, the empty ones skipped. *)
Fixpoint copy_to (bs : list iovec) (n : nat) : list iovec :=
  match n with
  | O => []
  | S n' =>
      (fix next (bs : list iovec) : list iovec :=
         match bs with
         | [] => []
         | b :: bs' => if iov_len b =? 0 then next bs' else b :: copy_to bs' n'
         end) bs
  end.

Module basic_socket.

(** A [std::stop_token]: one that cannot be stopped, one that can and is not
    yet, one already stopped. *)
Inductive stop_token := never | stoppable | stopped.

Inductive wait_type := wait_read | wait_write | wait_error.

(** The flag [bool& ready_flag] refers to. *)
Inductive ready_ref := ref_read | ref_write | ref_dummy.

#[export] Instance ready_ref_eq_dec : EqDecision ready_ref.
Proof. solve_decision. Defined.

Definition max_buffers : nat := 16.

(** What the derived class provides: the slot and the cancel-pending flag of an
    operation (the flags are named after the slots), and the operations and
    descriptor entries that [for_each_op] and [for_each_desc_entry] visit, in
    their order. *)
Class derived := mk_derived {
  op_to_desc_slot : op_id -> option slot;
  op_to_cancel_flag : op_id -> option slot;
  all_ops : list op_id;
  desc_entries : list (op_id * slot)
}.

Section basic.
Context `{derived}.

(** * Registration *)

Definition init_and_register (f : Z) : IM unit :=
  upd_impl (set_socket f) ≫= fun _ =>
  upd_desc (fun d => set_desc_fd f (registered_events d) d) ≫= fun _ =>
  lock_desc ≫= fun _ =>
  upd_desc (fun d => set_slot connect_slot None (set_slot write_slot None
    (set_slot read_slot None d))) ≫= fun _ =>
  unlock_desc ≫= fun _ =>
  register_descriptor f.

Definition ready_flag (r : ready_ref) (d : desc_state) : bool :=
  match r with
  | ref_read => read_ready d
  | ref_write => write_ready d
  | ref_dummy => false
  end.
Definition clear_ready (r : ready_ref) (d : desc_state) : desc_state :=
  match r with
  | ref_read => set_ready false (write_ready d) d
  | ref_write => set_ready (read_ready d) false d
  | ref_dummy => d
  end.

(** [svc_.post(&op); svc_.work_finished();] *)
Definition post_counted (k : op_id) : IM unit :=
  emit (posted k) ≫= fun _ => emit work_finished.

(** A cached edge is consumed by running the I/O at once. *)
Definition consume_ready (k : op_id) (r : ready_ref) : IM bool :=
  d ← the_desc;
  if ready_flag r d then
    upd_desc (clear_ready r) ≫= fun _ =>
    perform_io k ≫= fun _ =>
    o ← the_op k;
    if would_block (errn o) then upd_op k (set_errn 0) ≫= fun _ => mret false
    else mret true
  else mret false.

Definition consume_cancel (k : op_id) (s : slot) : IM unit :=
  d ← the_desc;
  if cancel_pending d s then
    upd_desc (fun d => set_cancel_pending (<[s := false]> (cancel_pending d)) d) ≫= fun _ =>
    upd_op k (set_cancelled true)
  else skip.

(** [needs_write_notification] is the service's: true for select only. *)
Definition register_op (needs_write_notification : bool) (k : op_id) (s : slot) (r : ready_ref)
    (is_write_direction : bool) : IM unit :=
  emit work_started ≫= fun _ =>
  lock_desc ≫= fun _ =>
  io_done ← consume_ready k r;
  consume_cancel k s ≫= fun _ =>
  o ← the_op k;
  (if io_done || cancelled o then post_counted k
   else
     upd_desc (set_slot s (Some k)) ≫= fun _ =>
     if needs_write_notification && is_write_direction then emit notify_reactor else skip)
    ≫= fun _ =>
  unlock_desc.

(** * Cancellation *)

(** The critical section of [cancel_single_op]: whether the operation was
    claimed from its slot. *)
Definition claim_single (k : op_id) : IM bool :=
  match op_to_desc_slot k with
  | None => mret false
  | Some s =>
      lock_desc ≫= fun _ =>
      d ← the_desc;
      c ← (if decide (slots d s = Some k)
           then upd_desc (set_slot s None) ≫= fun _ => mret true
           else
             (match op_to_cancel_flag k with
              | Some f =>
                  upd_desc (fun d => set_cancel_pending (<[f := true]> (cancel_pending d)) d)
              | None => skip
              end) ≫= fun _ => mret false);
      unlock_desc ≫= fun _ => mret c
  end.

(** [op.impl_ptr = self; svc_.post(&op); svc_.work_finished();] *)
Definition repost (k : op_id) : IM unit :=
  upd_op k (set_impl_ptr true) ≫= fun _ => post_counted k.

Definition cancel_single_op (k : op_id) : IM unit :=
  upd_op k request_cancel ≫= fun _ =>
  claimed ← claim_single k;
  if claimed : bool then repost k else skip.

(** [op.start(token, this)]: constructing the callback of a stopped token runs
    it, and it routes to [cancel_single_op]. *)
Definition start (k : op_id) (token : stop_token) : IM unit :=
  upd_op k (fun o => set_stop_cb false (set_cancelled false (set_owner socket_owner o)))
    ≫= fun _ =>
  match token with
  | never => skip
  | stoppable => upd_op k (set_stop_cb true)
  | stopped => upd_op k (set_stop_cb true) ≫= fun _ => cancel_single_op k
  end.

Fixpoint mapM_ (f : op_id -> IM unit) (l : list op_id) : IM unit :=
  match l with
  | [] => skip
  | k :: l' => f k ≫= fun _ => mapM_ f l'
  end.

(** [for_each_op([](auto& op) { op.request_cancel(); })] *)
Definition request_cancel_all : IM unit := mapM_ (fun k => upd_op k request_cancel) all_ops.

(** The critical section of [do_cancel]: operations found in their own slots. *)
Fixpoint claim_own (l : list (op_id * slot)) : IM (list op_id) :=
  match l with
  | [] => mret []
  | (k, s) :: l' =>
      d ← the_desc;
      c ← (if decide (slots d s = Some k)
           then upd_desc (set_slot s None) ≫= fun _ => mret [k] else mret []);
      r ← claim_own l';
      mret (c ++ r)
  end.
Definition cancel_claim : IM (list op_id) :=
  lock_desc ≫= fun _ =>
  c ← claim_own desc_entries;
  unlock_desc ≫= fun _ => mret c.

Definition do_cancel : IM unit :=
  request_cancel_all ≫= fun _ =>
  claimed ← cancel_claim;
  mapM_ repost claimed.

(** The critical section of [do_close_socket] and [do_release_socket]: every
    slot is emptied, the flags are cleared and a queued descriptor keeps the
    implementation alive. *)
Fixpoint claim_any (l : list (op_id * slot)) : IM (list op_id) :=
  match l with
  | [] => mret []
  | (_, s) :: l' =>
      d ← the_desc;
      c ← (match slots d s with
           | Some k => upd_desc (set_slot s None) ≫= fun _ => mret [k]
           | None => mret []
           end);
      r ← claim_any l';
      mret (c ++ r)
  end.
Definition close_claim : IM (list op_id) :=
  lock_desc ≫= fun _ =>
  c ← claim_any desc_entries;
  upd_desc (fun d => set_cancel_pending (fun _ => false) (set_ready false false d)) ≫= fun _ =>
  d ← the_desc;
  (if is_enqueued_ d then upd_desc (set_impl_ref true) else skip) ≫= fun _ =>
  unlock_desc ≫= fun _ => mret c.

Definition deregister_descriptor (f : Z) : IM unit := emit (called (sys_epoll_del f)).

(** What [do_close_socket] does after the claimed operations are posted; with
    [keep] the descriptor is not closed, as in [do_release_socket]. *)
Definition drop_fd (keep : bool) : IM Z :=
  i ← the_impl;
  (if 0 <=? fd_ i then
     (if registered_events (desc_state_ i) =? 0 then skip else deregister_descriptor (fd_ i))
       ≫= fun _ =>
     (if keep then skip else emit (called (sys_close (fd_ i)))) ≫= fun _ =>
     upd_impl (set_socket (-1))
   else skip) ≫= fun _ =>
  upd_desc (set_desc_fd (-1) 0) ≫= fun _ =>
  upd_impl (fun j => set_endpoints endpoint.default (remote_endpoint_ j) j) ≫= fun _ =>
  mret (fd_ i).

(** Both derived classes also clear the remote endpoint. *)
Definition finish_close : IM unit :=
  drop_fd false ≫= fun _ =>
  upd_impl (fun j => set_endpoints (local_endpoint_ j) endpoint.default j).

Definition do_close_socket : IM unit :=
  request_cancel_all ≫= fun _ =>
  claimed ← close_claim;
  mapM_ repost claimed ≫= fun _ =>
  finish_close.

Definition do_release_socket : IM Z :=
  request_cancel_all ≫= fun _ =>
  claimed ← close_claim;
  mapM_ repost claimed ≫= fun _ =>
  drop_fd true.

(** * Initiating operations

    [budget] is the result of the scheduler's [try_consume_inline_budget].  The
    functions return the coroutine to resume, through [dispatch_coro], or
    [noop_coroutine] once the operation is posted; an operation that is left
    for [register_op] returns its slot, flag and direction, and then
    [noop_coroutine]. *)

Inductive outcome :=
| dispatched
| noop_coroutine
| parking (s : slot) (r : ready_ref) (is_write_direction : bool).

(** [*ec = e; op.cont.h = h; return dispatch_coro(ex, op.cont);] *)
Definition finish_inline (co : nat) (ec : nat) (e : error_code) (bytes : option (nat * Z)) :
    IM outcome :=
  emit (wrote_ec ec e) ≫= fun _ =>
  (match bytes with
   | Some (p, n) => emit (wrote_bytes p n)
   | None => skip
   end) ≫= fun _ =>
  emit (resumed co) ≫= fun _ => mret dispatched.

(** The operation is completed and posted. *)
Definition finish_posted (k : op_id) (err bytes : Z) : IM outcome :=
  upd_op k (set_impl_ptr true) ≫= fun _ =>
  upd_op k (complete err bytes) ≫= fun _ =>
  emit (posted k) ≫= fun _ => mret noop_coroutine.

(** [op.h = h; op.ex = ex; op.ec_out = ec;] leaves [bytes_out] alone. *)
Definition set_waiter (k : op_id) (co ec : nat) : IM unit :=
  upd_op k (fun o => set_outputs co (Some ec) (bytes_out o) o).
Definition set_waiter_bytes (k : op_id) (co ec bytes : nat) : IM unit :=
  upd_op k (set_outputs co (Some ec) (Some bytes)).

Definition store_local_endpoint (f : Z) : IM unit :=
  a ← call (sys_getsockname f);
  match a with
  | RetAddr _ storage _ =>
      ep ← lift (from_sockaddr_as storage);
      upd_impl (fun i => set_endpoints ep (remote_endpoint_ i) i)
  | _ => skip
  end.

Definition prepare_connect (co : nat) (ep : endpoint.t) (token : stop_token) (ec : nat) : IM unit :=
  upd_op conn_ reset ≫= fun _ =>
  set_waiter conn_ co ec ≫= fun _ =>
  i ← the_impl;
  upd_op conn_ (fun o => set_load (connect_op ep) (set_fd (fd_ i) o)) ≫= fun _ =>
  start conn_ token.

Definition zero_length (iov : list iovec) : bool :=
  match iov with
  | [] => true
  | [b] => iov_len b =? 0
  | _ => false
  end.

Definition prepare_wait (k : op_id) (ev : Z) (co : nat) (token : stop_token) (ec : nat) : IM unit :=
  upd_op k reset ≫= fun _ =>
  i ← the_impl;
  upd_op k (set_load (wait_op ev)) ≫= fun _ =>
  set_waiter k co ec ≫= fun _ =>
  upd_op k (set_fd (fd_ i)) ≫= fun _ =>
  start k token ≫= fun _ =>
  upd_op k (set_impl_ptr true).

(** Each operation followed by its registration when it has to wait. *)
Definition and_register (notify : bool) (k : op_id) (m : IM outcome) : IM unit :=
  r ← m;
  match r with
  | dispatched | noop_coroutine => skip
  | parking s f dir => register_op notify k s f dir
  end.

End basic.

(** [do_shutdown], the same in both derived classes *)
Definition do_shutdown (what : Z) : IM error_code :=
  if (what =? 0) || (what =? 1) || (what =? 2) then
    i ← the_impl;
    a ← call (sys_shutdown (fd_ i) what);
    mret (match a with
          | Fail e => make_err e
          | _ => success
          end)
  else mret (make_err EINVAL).

End basic_socket.
