(* ===== verification/StreamSocket.v ===== *)
(** Stream sockets of the reactor backends:
    [include/boost/corosio/native/detail/reactor/reactor_stream_socket.hpp],
    the speculative system call of each operation. *)

From stdpp Require Import functions.
From S2P Require Import Prelude StateMonad Ipv4 Ipv6 Endpoint Sockaddr ReactorOp BasicSocket.
Import reactor_op basic_socket.

Module stream_socket.

Definition stream_slot (k : op_id) : option slot :=
  match k with
  | conn_ => Some connect_slot
  | rd_ => Some read_slot
  | wr_ => Some write_slot
  | wait_rd_ => Some wait_read_slot
  | wait_wr_ => Some wait_write_slot
  | wait_er_ => Some wait_error_slot
  | _ => None
  end.
(** [for_each_op] and [for_each_desc_entry] *)
Definition stream_ops : list op_id := [conn_; rd_; wr_; wait_rd_; wait_wr_; wait_er_].
Definition stream_entries : list (op_id * slot) :=
  [(conn_, connect_slot); (rd_, read_slot); (wr_, write_slot); (wait_rd_, wait_read_slot);
   (wait_wr_, wait_write_slot); (wait_er_, wait_error_slot)].

#[local] Instance stream_derived : derived :=
  mk_derived stream_slot stream_slot stream_ops stream_entries.

Definition do_connect (budget : bool) (co : nat) (ep : endpoint.t) (token : stop_token) (ec : nat) :
    IM outcome :=
  i ← the_impl;
  fam ← call (sys_getsockname (fd_ i));
  let family := socket_family 0 (match fam with
                                 | RetAddr _ storage _ => Some storage
                                 | _ => None
                                 end) in
  result ← call (sys_connect (fd_ i) (to_sockaddr_family AF_INET AF_INET6 ep family));
  (match result with
   | Fail _ => skip
   | _ =>
       store_local_endpoint (fd_ i) ≫= fun _ =>
       upd_impl (fun i => set_endpoints (local_endpoint_ i) ep i)
   end) ≫= fun _ =>
  let err := match result with
             | Fail e => e
             | _ => 0
             end in
  if err =? EINPROGRESS then
    prepare_connect co ep token ec ≫= fun _ =>
    upd_op conn_ (set_impl_ptr true) ≫= fun _ =>
    mret (parking connect_slot ref_write true)
  else if budget then finish_inline co ec (make_err err) None
  else
    prepare_connect co ep token ec ≫= fun _ =>
    finish_posted conn_ err 0.

(** The speculative call: one buffer goes through [recv] or [send]. *)
Definition try_read (f : Z) (iov : list iovec) : IM answer :=
  match iov with
  | [b] => call_retry (sys_recv f b)
  | _ => call_retry (sys_readv f iov)
  end.
(** [epoll_traits::write_policy::write_one] *)
Definition policy_write_one (f : Z) (b : iovec) : IM answer :=
  call_retry (sys_send f b MSG_NOSIGNAL).
Definition try_write (f : Z) (iov : list iovec) : IM answer :=
  match iov with
  | [b] => policy_write_one f b
  | _ => policy_write f iov
  end.

Definition do_read_some (budget : bool) (co : nat) (param : list iovec) (token : stop_token)
    (ec bytes : nat) : IM outcome :=
  upd_op rd_ reset ≫= fun _ =>
  let iov := copy_to param max_buffers in
  if zero_length iov then
    upd_op rd_ (set_load (read_op [] true)) ≫= fun _ =>
    set_waiter_bytes rd_ co ec bytes ≫= fun _ =>
    start rd_ token ≫= fun _ =>
    finish_posted rd_ 0 0
  else
    upd_op rd_ (set_load (read_op iov false)) ≫= fun _ =>
    i ← the_impl;
    a ← try_read (fd_ i) iov;
    let n := match a with
             | Ret n | RetAddr n _ _ => n
             | Fail _ => -1
             end in
    let errno := match a with
                 | Fail e => e
                 | _ => 0
                 end in
    if (0 <=? n) || negb (would_block errno) then
      let err := if n <? 0 then errno else 0 in
      let count := if 0 <? n then n else 0 in
      if budget then
        finish_inline co ec
          (if negb (err =? 0) then make_err err else if n =? 0 then eof else success)
          (Some (bytes, count))
      else
        set_waiter_bytes rd_ co ec bytes ≫= fun _ =>
        start rd_ token ≫= fun _ =>
        finish_posted rd_ err count
    else
      set_waiter_bytes rd_ co ec bytes ≫= fun _ =>
      upd_op rd_ (set_fd (fd_ i)) ≫= fun _ =>
      start rd_ token ≫= fun _ =>
      upd_op rd_ (set_impl_ptr true) ≫= fun _ =>
      mret (parking read_slot ref_read false).

Definition do_write_some (budget : bool) (co : nat) (param : list iovec) (token : stop_token)
    (ec bytes : nat) : IM outcome :=
  upd_op wr_ reset ≫= fun _ =>
  let iov := copy_to param max_buffers in
  if zero_length iov then
    set_waiter_bytes wr_ co ec bytes ≫= fun _ =>
    start wr_ token ≫= fun _ =>
    finish_posted wr_ 0 0
  else
    upd_op wr_ (set_load (write_op iov)) ≫= fun _ =>
    i ← the_impl;
    a ← try_write (fd_ i) iov;
    let n := match a with
             | Ret n | RetAddr n _ _ => n
             | Fail _ => -1
             end in
    let errno := match a with
                 | Fail e => e
                 | _ => 0
                 end in
    if (0 <=? n) || negb (would_block errno) then
      let err := if n <? 0 then errno else 0 in
      let count := if 0 <? n then n else 0 in
      if budget then finish_inline co ec (make_err err) (Some (bytes, count))
      else
        set_waiter_bytes wr_ co ec bytes ≫= fun _ =>
        start wr_ token ≫= fun _ =>
        finish_posted wr_ err count
    else
      set_waiter_bytes wr_ co ec bytes ≫= fun _ =>
      upd_op wr_ (set_fd (fd_ i)) ≫= fun _ =>
      start wr_ token ≫= fun _ =>
      upd_op wr_ (set_impl_ptr true) ≫= fun _ =>
      mret (parking write_slot ref_write true).

Definition do_wait (budget : bool) (co : nat) (w : wait_type) (token : stop_token) (ec : nat) :
    IM outcome :=
  match w with
  | wait_write =>
      if budget then finish_inline co ec success None
      else
        prepare_wait wait_wr_ reactor_event_write co token ec ≫= fun _ =>
        finish_posted wait_wr_ 0 0
  | wait_read =>
      prepare_wait wait_rd_ reactor_event_read co token ec ≫= fun _ =>
      mret (parking wait_read_slot ref_read false)
  | wait_error =>
      prepare_wait wait_er_ reactor_event_error co token ec ≫= fun _ =>
      mret (parking wait_error_slot ref_dummy false)
  end.

End stream_socket.
