(* ===== verification/DatagramSocket.v ===== *)
(** Datagram sockets of the reactor backends:
    [include/boost/corosio/native/detail/reactor/reactor_datagram_socket.hpp],
    with the flags of [include/boost/corosio/native/detail/msg_flags.hpp].

    The connectionless operations [send_to] and [recv_from] use [wr_] and [rd_],
    the connected ones [send] and [recv] use [send_wr_] and [recv_rd_]: eight
    operations share the six slots of the descriptor.  The endpoints are those
    of UDP. *)

From stdpp Require Import functions.
From S2P Require Import Prelude StateMonad Ipv4 Ipv6 Endpoint Sockaddr ReactorOp BasicSocket.
Import reactor_op basic_socket.

Module datagram_socket.

Definition MSG_OOB : Z := 1.
Definition MSG_PEEK : Z := 2.
Definition MSG_DONTROUTE : Z := 4.

Definition to_native_msg_flags (flags : Z) : Z :=
  let native := if Z.land flags 1 =? 0 then 0 else MSG_PEEK in
  let native := if Z.land flags 2 =? 0 then native else Z.lor native MSG_OOB in
  if Z.land flags 4 =? 0 then native else Z.lor native MSG_DONTROUTE.

Definition datagram_slot (k : op_id) : option slot :=
  match k with
  | conn_ => Some connect_slot
  | rd_ => Some read_slot
  | wr_ => Some write_slot
  | recv_rd_ => Some read_slot
  | send_wr_ => Some write_slot
  | wait_rd_ => Some wait_read_slot
  | wait_wr_ => Some wait_write_slot
  | wait_er_ => Some wait_error_slot
  | acc_ => None
  end.
(** [for_each_op] and [for_each_desc_entry] *)
Definition datagram_ops : list op_id :=
  [conn_; rd_; wr_; recv_rd_; send_wr_; wait_rd_; wait_wr_; wait_er_].
Definition datagram_entries : list (op_id * slot) :=
  [(conn_, connect_slot); (rd_, read_slot); (wr_, write_slot); (recv_rd_, read_slot);
   (send_wr_, write_slot); (wait_rd_, wait_read_slot); (wait_wr_, wait_write_slot);
   (wait_er_, wait_error_slot)].

#[local] Instance datagram_derived : derived :=
  mk_derived datagram_slot datagram_slot datagram_ops datagram_entries.

(** The value and the errno of a call. *)
Definition returned (a : answer) : Z :=
  match a with
  | Ret n | RetAddr n _ _ => n
  | Fail _ => -1
  end.
Definition errno_of (a : answer) : Z :=
  match a with
  | Fail e => e
  | _ => 0
  end.

(** What follows the speculative call in each of the four transfers: the result
    is stored at once when the budget allows, otherwise the operation is posted,
    and when the call would block it is left for [register_op].  [capture]
    stores the source address of a datagram that was received. *)
Definition finish_transfer (k : op_id) (budget : bool) (co : nat) (token : stop_token)
    (ec bytes : nat) (a : answer) (capture : IM unit) (s : slot) (r : ready_ref) (dir : bool) :
    IM outcome :=
  let n := returned a in
  let errno := errno_of a in
  if (0 <=? n) || negb (would_block errno) then
    let err := if n <? 0 then errno else 0 in
    let count := if 0 <? n then n else 0 in
    if budget then
      emit (wrote_ec ec (make_err err)) ≫= fun _ =>
      emit (wrote_bytes bytes count) ≫= fun _ =>
      (if (err =? 0) && (0 <=? n) then capture else skip) ≫= fun _ =>
      emit (resumed co) ≫= fun _ => mret dispatched
    else
      set_waiter_bytes k co ec bytes ≫= fun _ =>
      start k token ≫= fun _ =>
      finish_posted k err count
  else
    set_waiter_bytes k co ec bytes ≫= fun _ =>
    start k token ≫= fun _ =>
    upd_op k (set_impl_ptr true) ≫= fun _ =>
    mret (parking s r dir).

(** The family of the socket, from [getsockname]. *)
Definition query_family (f : Z) : IM Z :=
  a ← call (sys_getsockname f);
  mret (socket_family 0 (match a with
                         | RetAddr _ storage _ => Some storage
                         | _ => None
                         end)).

Definition do_send_to (budget : bool) (co : nat) (param : list iovec) (dest : endpoint.t)
    (flags : Z) (token : stop_token) (ec bytes : nat) : IM outcome :=
  upd_op wr_ reset ≫= fun _ =>
  let iov := copy_to param max_buffers in
  i ← the_impl;
  family ← query_family (fd_ i);
  let '(storage, len) := to_sockaddr_family AF_INET AF_INET6 dest family in
  let native := to_native_msg_flags flags in
  upd_op wr_ (fun o => set_load (send_to_op iov storage len native) (set_fd (fd_ i) o)) ≫= fun _ =>
  a ← call_retry (sys_sendmsg (fd_ i) (Some (storage, len)) iov (Z.lor native MSG_NOSIGNAL));
  finish_transfer wr_ budget co token ec bytes a skip write_slot ref_write true.

(** [*source = from_sockaddr_as(op.source_storage, ...)] *)
Definition capture_source (source : option nat) : IM unit :=
  o ← the_op rd_;
  match source, load o with
  | Some p, recv_from_op _ storage _ _ _ =>
      ep ← lift (from_sockaddr_as storage); emit (wrote_endpoint p ep)
  | _, _ => skip
  end.

(** [recvmsg] fills in the storage of the operation. *)
Definition store_source (a : answer) (iov : list iovec) (source : option nat) (native : Z) :
    IM unit :=
  match a with
  | RetAddr _ storage len => upd_op rd_ (set_load (recv_from_op iov storage len source native))
  | _ => skip
  end.

Definition do_recv_from (budget : bool) (co : nat) (param : list iovec) (source : option nat)
    (flags : Z) (token : stop_token) (ec bytes : nat) : IM outcome :=
  upd_op rd_ reset ≫= fun _ =>
  let iov := copy_to param max_buffers in
  if zero_length iov then
    set_waiter_bytes rd_ co ec bytes ≫= fun _ =>
    start rd_ token ≫= fun _ =>
    finish_posted rd_ 0 0
  else
    i ← the_impl;
    let native := to_native_msg_flags flags in
    upd_op rd_ (fun o => set_load (recv_from_op iov ss_zero 0 source native) (set_fd (fd_ i) o))
      ≫= fun _ =>
    a ← call_retry (sys_recvmsg (fd_ i) true iov native);
    store_source a iov source native ≫= fun _ =>
    finish_transfer rd_ budget co token ec bytes a (capture_source source) read_slot ref_read false.

Definition do_connect (budget : bool) (co : nat) (ep : endpoint.t) (token : stop_token) (ec : nat) :
    IM outcome :=
  i ← the_impl;
  family ← query_family (fd_ i);
  result ← call (sys_connect (fd_ i) (to_sockaddr_family AF_INET AF_INET6 ep family));
  (match result with
   | Fail _ => skip
   | _ =>
       store_local_endpoint (fd_ i) ≫= fun _ =>
       upd_impl (fun i => set_endpoints (local_endpoint_ i) ep i)
   end) ≫= fun _ =>
  let err := errno_of result in
  if err =? EINPROGRESS then
    prepare_connect co ep token ec ≫= fun _ =>
    upd_op conn_ (set_impl_ptr true) ≫= fun _ =>
    mret (parking connect_slot ref_write false)
  else if budget then finish_inline co ec (make_err err) None
  else
    prepare_connect co ep token ec ≫= fun _ =>
    finish_posted conn_ err 0.

Definition do_send (budget : bool) (co : nat) (param : list iovec) (flags : Z)
    (token : stop_token) (ec bytes : nat) : IM outcome :=
  upd_op send_wr_ reset ≫= fun _ =>
  let iov := copy_to param max_buffers in
  i ← the_impl;
  let native := to_native_msg_flags flags in
  upd_op send_wr_ (fun o => set_load (send_op iov native) (set_fd (fd_ i) o)) ≫= fun _ =>
  a ← call_retry (sys_sendmsg (fd_ i) None iov (Z.lor native MSG_NOSIGNAL));
  finish_transfer send_wr_ budget co token ec bytes a skip write_slot ref_write true.

Definition do_recv (budget : bool) (co : nat) (param : list iovec) (flags : Z)
    (token : stop_token) (ec bytes : nat) : IM outcome :=
  upd_op recv_rd_ reset ≫= fun _ =>
  let iov := copy_to param max_buffers in
  if zero_length iov then
    set_waiter_bytes recv_rd_ co ec bytes ≫= fun _ =>
    start recv_rd_ token ≫= fun _ =>
    finish_posted recv_rd_ 0 0
  else
    i ← the_impl;
    let native := to_native_msg_flags flags in
    upd_op recv_rd_ (fun o => set_load (recv_op iov native) (set_fd (fd_ i) o)) ≫= fun _ =>
    a ← call_retry (sys_recvmsg (fd_ i) false iov native);
    finish_transfer recv_rd_ budget co token ec bytes a skip read_slot ref_read false.

Definition do_wait (budget : bool) (co : nat) (w : wait_type) (token : stop_token) (ec : nat) :
    IM outcome :=
  match w with
  | wait_write =>
      if budget then finish_inline co ec success None
      else
        prepare_wait wait_wr_ reactor_event_write co token ec ≫= fun _ =>
        finish_posted wait_wr_ 0 0
  | wait_read =>
      prepare_wait wait_rd_ reactor_event_read co token ec ≫= fun _ =>
      mret (parking wait_read_slot ref_read false)
  | wait_error =>
      prepare_wait wait_er_ reactor_event_error co token ec ≫= fun _ =>
      mret (parking wait_error_slot ref_dummy false)
  end.

(** The release also clears the remote endpoint. *)
Definition do_release_socket : IM Z :=
  f ← basic_socket.do_release_socket;
  upd_impl (fun j => set_endpoints (local_endpoint_ j) endpoint.default j) ≫= fun _ => mret f.

End datagram_socket.
