(* ===== verification/SocketSteps.v ===== *)
(** A socket under concurrency, as a transition system; stream and datagram
    sockets are its two kinds.

    A step is one thread running one piece of the code of BasicSocket.v, of the kind of socket,
    DescriptorState.v or ReactorOp.v, from one point where other threads can
    interfere to the next.  Coroutines initiate operations; the reactor reports
    events and queues the descriptor; threads of the event loop run deferred
    I/O and completion handlers; stop requests, [cancel] and [close] arrive at
    any time.  Two conditions restrict when a coroutine initiates an operation.
    No operation of the same slot is in flight ([slot_free]): for a stream socket
    this is the documented exclusion of two operations of the same type; for a
    datagram socket, where [recv] and [recv_from] share a slot and [send] and
    [send_to] share one, [local_datagram_socket.hpp] documents it, but
    [udp_socket.hpp] only excludes operations of the same type, and what happens
    without it is [overlapping_receives_lose_one] of SocketClaims.v.  And no
    [close] is in progress, nor a [cancel] that has not yet claimed the parked
    operations ([user_busy]).  A completion handler starts by destroying the stop
    callback, which waits for a callback that is running.

    The scheduler is seen through the calls it receives: its queue holds what
    was posted, and [tokens] counts the units of work that operations hold
    between [work_started] and the call that gives the unit back. *)

From stdpp Require Import functions relations.
From S2P Require Import Prelude StateMonad Ipv4 Ipv6 Endpoint Sockaddr ReactorOp DescriptorState.
From S2P Require Import BasicSocket DescriptorSpec.
Import reactor_op reactor_descriptor_state basic_socket.

(** A kind of socket: what a coroutine can ask of it, the operation each request
    uses, the code that initiates it and the class of each operation. *)
Class socket_kind := mk_kind {
  request : Type;
  op_for : request -> op_id;
  initiate : bool -> nat -> stop_token -> request -> IM outcome;
  load_of : op_id -> payload
}.

Inductive qentry := q_desc | q_op (k : op_id).

#[export] Instance qentry_eq_dec : EqDecision qentry.
Proof. solve_decision. Defined.

(** Calls in progress. *)
Inductive act :=
| Starting (k : op_id) (s : slot) (r : ready_ref) (dir : bool)  (* before [register_op] *)
| Cancelling (k : op_id)               (* stop callback, before its critical section *)
| CancelAll                            (* [do_cancel], before its critical section *)
| CloseAll                             (* [do_close_socket], likewise *)
| Claimed (l : list op_id) (closing : bool)  (* operations to post; then close *)
| Reporting                            (* the reactor, before it queues the descriptor *)
| Deferring                            (* [invoke_deferred_io], before its critical section *)
| Dispatching (l : list op_id)         (* after it *)
| Invoking (k : op_id).                (* before the completion handler *)

#[export] Instance act_eq_dec : EqDecision act.
Proof. solve_decision. Defined.

Record world := mk_world {
  sock : impl;
  queue : list qentry;
  acts : list act;
  tokens : Z;
  waiting : op_id -> option nat;
  started : list nat;
  ended : list nat
}.

Definition set_sock (i : impl) (w : world) : world :=
  mk_world i (queue w) (acts w) (tokens w) (waiting w) (started w) (ended w).

(** The effect of a logged call on the scheduler and the coroutines. *)
Definition absorb (w : world) (e : effect) : world :=
  match e with
  | posted k =>
      mk_world (sock w) (queue w ++ [q_op k]) (acts w) (tokens w) (waiting w) (started w) (ended w)
  | deferred ks =>
      mk_world (sock w) (queue w ++ (q_op <$> ks)) (acts w) (tokens w - Z.of_nat (length ks))
        (waiting w) (started w) (ended w)
  | work_started =>
      mk_world (sock w) (queue w) (acts w) (tokens w + 1) (waiting w) (started w) (ended w)
  | work_finished =>
      mk_world (sock w) (queue w) (acts w) (tokens w - 1) (waiting w) (started w) (ended w)
  | resumed co =>
      mk_world (sock w) (queue w) (acts w) (tokens w) (waiting w) (started w) (ended w ++ [co])
  | _ => w
  end.
Definition absorb_all (l : list effect) (w : world) : world := fold_left absorb l w.

Definition set_acts (l : list act) (w : world) : world :=
  mk_world (sock w) (queue w) l (tokens w) (waiting w) (started w) (ended w).
Definition set_waiting (k : op_id) (c : option nat) (w : world) : world :=
  mk_world (sock w) (queue w) (acts w) (tokens w) (<[k := c]> (waiting w)) (started w) (ended w).
Definition add_started (co : nat) (w : world) : world :=
  mk_world (sock w) (queue w) (acts w) (tokens w) (waiting w) (started w ++ [co]) (ended w).
Definition add_tokens (n : Z) (w : world) : world :=
  mk_world (sock w) (queue w) (acts w) (tokens w + n) (waiting w) (started w) (ended w).
Definition set_queue (q : list qentry) (w : world) : world :=
  mk_world (sock w) q (acts w) (tokens w) (waiting w) (started w) (ended w).

(** The socket after [open]: a new implementation with a registered descriptor. *)
Section open.
Context {SK : socket_kind}.

Definition new_op (k : op_id) : op :=
  mk_op (load_of k) (-1) 0 0 false false 0 None None false no_owner.
Definition new_impl : impl := mk_impl new_op new_desc (-1) endpoint.default endpoint.default.

Definition opened (f : Z) : impl :=
  match init_and_register f (mk_st new_impl false [] []) with
  | Ok (_, s) => this s
  | _ => new_impl
  end.
Definition init_world (f : Z) : world := mk_world (opened f) [] [] 0 (fun _ => None) [] [].

End open.

(** [close] in progress, or [cancel] before its critical section. *)
Definition user_busy (a : act) : bool :=
  match a with
  | CancelAll | CloseAll | Claimed _ true => true
  | _ => false
  end.
Definition is_starting (a : act) : bool :=
  match a with
  | Starting _ _ _ _ => true
  | _ => false
  end.
Definition is_cancelling (k : op_id) (a : act) : bool :=
  match a with
  | Cancelling k' => bool_decide (k' = k)
  | _ => false
  end.

Section steps.
Context {DV : derived} {SK : socket_kind}.
(** Whether the backend is told of parked writers. *)
Context (notify : bool).

Inductive label :=
| LInit (rq : request) (token : stop_token) (budget : bool) (co : nat)
| LRegister | LStop (k : op_id) | LClaim | LCancel | LClose | LRepost | LFinish
| LEvent (ev : Z) | LEnqueue | LPop | LDeferred | LPostRest | LInvoke.

(** The code of a step whose activity [a] is at position [j]; the result is
    the activity that replaces it. *)
Definition act_prog (lab : label) (a : act) : option (IM (option act)) :=
  match lab, a with
  | LRegister, Starting k s r dir => Some (register_op notify k s r dir ≫= fun _ => mret None)
  | LClaim, Cancelling k =>
      Some (c ← claim_single k; mret (if c : bool then Some (Claimed [k] false) else None))
  | LClaim, CancelAll => Some (c ← cancel_claim; mret (Some (Claimed c false)))
  | LClaim, CloseAll => Some (c ← close_claim; mret (Some (Claimed c true)))
  | LRepost, Claimed (k :: l) b => Some (repost k ≫= fun _ => mret (Some (Claimed l b)))
  | LFinish, Claimed [] b => Some ((if b : bool then finish_close else skip) ≫= fun _ => mret None)
  | LDeferred, Deferring =>
      Some (r ← deferred_io;
            mret (match snd r with
                  | Some l => Some (Dispatching l)
                  | None => None
                  end))
  | LPostRest, Dispatching l =>
      Some (f ← post_rest l;
            mret (match f with
                  | Some k => Some (Invoking k)
                  | None => None
                  end))
  | LInvoke, Invoking k => Some (invoke k ≫= fun _ => mret None)
  | _, _ => None
  end.

(** Run code on the socket of the world. *)
Definition exec {A} (m : IM A) (sc : list answer) (w : world) (a : A) (w' : world) : Prop :=
  exists s', m (mk_st (sock w) false sc []) = Ok (a, s') /\ owns s' = false
             /\ w' = absorb_all (log s') (set_sock (this s') w).

Definition replace_act (j : nat) (o : option act) (l : list act) : list act :=
  match o with
  | Some a => <[j := a]> l
  | None => delete j l
  end.

(** The unit of work that the first operation of a deferred batch brings to
    the descriptor's handler. *)
Definition adopted (a : act) : Z :=
  match a with
  | Dispatching (_ :: _) => 1
  | _ => 0
  end.

Definition after_act (a : act) (w : world) : world :=
  match a with
  | Invoking k => set_waiting k None w
  | _ => w
  end.

(** No operation of the slot of [k] is in flight; [op_to_desc_slot] gives the
    receives of a datagram socket one slot, and its sends another. *)
Definition slot_free (w : world) (k : op_id) : bool :=
  forallb (fun j => bool_decide (op_to_desc_slot j <> op_to_desc_slot k)
                    || bool_decide (waiting w j = None)) all_ops.

Inductive step : label -> world -> world -> Prop :=
| step_init w rq token budget co sc r w1 :
    slot_free w (op_for rq) = true ->
    existsb user_busy (acts w) = false ->
    script_ok sc ->
    exec (initiate budget co token rq) sc w r w1 ->
    step (LInit rq token budget co) w
      (add_started co (match r with
                       | dispatched => w1
                       | noop_coroutine => set_waiting (op_for rq) (Some co) w1
                       | parking s f dir =>
                           set_acts (acts w1 ++ [Starting (op_for rq) s f dir])
                             (set_waiting (op_for rq) (Some co) w1)
                       end))
| step_act lab w j a m sc o w1 :
    acts w !! j = Some a ->
    act_prog lab a = Some m ->
    (forall k, a = Invoking k -> existsb (is_cancelling k) (acts w) = false) ->
    script_ok sc ->
    exec m sc w o w1 ->
    step lab w
      (after_act a (add_tokens (- adopted a) (set_acts (replace_act j o (acts w1)) w1)))
| step_stop w k w1 :
    stop_cb (ops (sock w) k) = true ->
    exec (upd_op k request_cancel) [] w tt w1 ->
    step (LStop k) w (set_acts (acts w1 ++ [Cancelling k]) w1)
| step_cancel w w1 :
    exec request_cancel_all [] w tt w1 ->
    step LCancel w (set_acts (acts w1 ++ [CancelAll]) w1)
| step_close w w1 :
    existsb is_starting (acts w) = false ->
    exec request_cancel_all [] w tt w1 ->
    step LClose w (set_acts (acts w1 ++ [CloseAll]) w1)
| step_event w ev w1 :
    exec (add_ready_events ev) [] w tt w1 ->
    step (LEvent ev) w (set_acts (acts w1 ++ [Reporting]) w1)
| step_enqueue w j b w1 :
    acts w !! j = Some Reporting ->
    exec try_enqueue [] w b w1 ->
    step LEnqueue w
      (set_acts (delete j (acts w1))
         (if b : bool then set_queue (queue w1 ++ [q_desc]) w1 else w1))
| step_pop w j e :
    queue w !! j = Some e ->
    step LPop w
      (set_queue (delete j (queue w))
         (set_acts (acts w ++ [match e with
                               | q_desc => Deferring
                               | q_op k => Invoking k
                               end]) w)).

Definition any_step (w w' : world) : Prop := exists lab, step lab w w'.
Definition reachable (f : Z) : world -> Prop := rtc any_step (init_world f).

End steps.
