(* ===== verification/SocketSpec.v ===== *)
(** What each piece of a socket's code does: one lemma per operation, for the
    steps of SocketSteps.v.  The lemmas hold for every kind of socket; what a
    kind has to provide is the class [socket_laws]. *)

From stdpp Require Import functions.
From S2P Require Import Prelude StateMonad Ipv4 Ipv6 Endpoint Sockaddr ReactorOp DescriptorState.
From S2P Require Import BasicSocket DescriptorSpec SocketSteps.
Import reactor_op reactor_descriptor_state basic_socket.

Abbreviation own := op_to_desc_slot.

(** * Summaries of the log *)

Definition significant (e : effect) : bool :=
  match e with
  | posted _ | deferred _ | work_started | work_finished | resumed _ => true
  | _ => false
  end.
Definition summary (l : list effect) : list effect := List.filter significant l.

Lemma summary_app l1 l2 : summary (l1 ++ l2) = summary l1 ++ summary l2.
Proof. apply List.filter_app. Qed.

Lemma summary_calls (cs : list sysop) : summary (called <$> cs) = [].
Proof. by induction cs. Qed.

Lemma absorb_summary l w : absorb_all l w = absorb_all (summary l) w.
Proof.
  revert w. induction l as [|e l IH]; intros w; [done|].
  unfold absorb_all in *. cbn. rewrite IH. by destruct e.
Qed.

Section socket.
Context {DV : derived} {SK : socket_kind}.

Definition kind_of (k : op_id) : op_kind := kind (load_of k).

(** Transfers report a number of bytes. *)
Definition carries_bytes (k : op_kind) : bool :=
  match k with
  | k_connect | k_wait | k_accept => false
  | _ => true
  end.

(** * Code that works on one operation *)

Definition same_slots (d d' : desc_state) : Prop :=
  slots d' = slots d /\ is_enqueued_ d' = is_enqueued_ d /\ impl_ref_ d' = impl_ref_ d
  /\ scheduler_ d' = scheduler_ d /\ ready_events_ d' = ready_events_ d.

(** Stored addresses stay well formed as long as the system's answers are. *)
Definition loads_kept (s s' : st) : Prop :=
  script_ok (script s) ->
  script_ok (script s') /\ forall k, load_ok (load (op_of s k)) -> load_ok (load (op_of s' k)).

#[export] Instance loads_kept_preorder : PreOrder loads_kept.
Proof.
  split; [by intros s|]. intros a b c H1 H2 Hok. destruct (H1 Hok) as [Hb L1].
  destruct (H2 Hb) as [Hc L2]. split; [done|]. auto.
Qed.

Lemma loads_kept_same s s' :
  script s' = script s -> (forall k, load (op_of s' k) = load (op_of s k)) -> loads_kept s s'.
Proof. intros E1 E2 Hok. rewrite E1. split; [done|]. intros k. by rewrite E2. Qed.

Lemma loads_kept_op k f s :
  (script_ok (script s) -> load_ok (load (op_of s k)) -> load_ok (load (f (op_of s k)))) ->
  loads_kept s (with_op k f s).
Proof.
  intros H Hok. split; [done|]. intros j. destruct (decide (j = k)) as [->|Hj].
  - rewrite with_op_eq. auto.
  - by rewrite with_op_ne.
Qed.

(** Only operation [k], the endpoints and the cancel and ready flags change,
    and nothing is posted. *)
Record touches (k : op_id) (s s' : st) : Prop := {
  t_owns : owns s' = owns s;
  t_ops : forall j, j <> k -> op_of s' j = op_of s j;
  t_kind : kind (load (op_of s' k)) = kind (load (op_of s k));
  t_desc : same_slots (desc_of s) (desc_of s');
  t_fd : fd_ (this s') = fd_ (this s);
  t_log : summary (log s') = summary (log s);
  t_loads : loads_kept s s'
}.

Lemma touches_refl k s : touches k s s.
Proof. by repeat split. Qed.

Lemma touches_trans k s1 s2 s3 : touches k s1 s2 -> touches k s2 s3 -> touches k s1 s3.
Proof.
  intros [? ? ? (?&?&?&?&?) ? ? ?] [? ? ? (?&?&?&?&?) ? ? ?].
  split; try congruence; [| |by etrans].
  - intros j Hj. rewrite t_ops1, t_ops0; done.
  - repeat split; congruence.
Qed.

Lemma touches_op k f s :
  kind (load (f (op_of s k))) = kind (load (op_of s k)) ->
  (load_ok (load (op_of s k)) -> load_ok (load (f (op_of s k)))) -> touches k s (with_op k f s).
Proof.
  intros Hf Hl. split; try done.
  - intros j Hj. by apply with_op_ne.
  - by rewrite with_op_eq.
  - by apply loads_kept_op.
Qed.

Lemma touches_endpoints k f s :
  (forall i, ops (f i) = ops i /\ desc_state_ (f i) = desc_state_ i /\ fd_ (f i) = fd_ i) ->
  touches k s (with_impl f s).
Proof.
  intros H. destruct (H (this s)) as (E1 & E2 & E3). split; cbn; try done.
  - intros j _. by rewrite E1.
  - by rewrite E1.
  - by rewrite E2.
  - apply loads_kept_same; [done|]. intros j. cbn. by rewrite E1.
Qed.

Lemma touches_log k e s : significant e = false -> touches k s (with_log e s).
Proof.
  intros He. split; try done. cbn. rewrite summary_app. cbn. rewrite He. by rewrite app_nil_r.
Qed.

(** A call of the system changes neither the implementation nor what counts. *)
Definition sys_step (s s' : st) (a : answer) : Prop :=
  this s' = this s /\ owns s' = owns s /\ summary (log s') = summary (log s)
  /\ (script_ok (script s) -> answer_ok a /\ script_ok (script s')).

Lemma sys_touches k s s' a : sys_step s s' a -> touches k s s'.
Proof.
  intros (E1 & E2 & E3 & E4). split; rewrite ?E1; try done. intros H. rewrite E1.
  split; [by apply E4|done].
Qed.

Lemma call_sys c s : wp (call c) (fun a s' => sys_step s s' a) s.
Proof.
  unfold call. im_steps. destruct (script s) as [|a rest] eqn:Es; im_steps.
  - repeat split; cbn; rewrite ?summary_app, ?app_nil_r; try done.
  - repeat split; cbn; rewrite ?summary_app, ?app_nil_r; try done;
      rewrite Es in H; by inversion H.
Qed.

Lemma call_retry_sys c s : wp (call_retry c) (fun a s' => sys_step s s' a) s.
Proof.
  unfold call_retry. im_steps. pose proof (retry_on_ok c (script s)) as R.
  destruct (retry_on c (script s)) as [[a rest] n]. im_steps.
  repeat split; cbn; [|by apply R|by apply R].
  rewrite summary_app. replace (summary (replicate n (called c))) with (@nil effect);
    [apply app_nil_r|]. clear R. by induction n as [|n IH]; cbn.
Qed.

(** * Starting an operation *)

Lemma claim_single_idle k s sl :
  own k = Some sl -> owns s = false -> slots (desc_of s) sl <> Some k ->
  wp (claim_single k) (fun c s' => c = false /\ touches k s s' /\ ops (this s') = ops (this s)) s.
Proof.
  intros Hk Ho Hs. unfold claim_single. rewrite Hk.
  im_step. apply wp_lock_desc; [done|]. im_steps. rewrite decide_False by done.
  destruct (op_to_cancel_flag k); im_steps; (apply wp_unlock_desc; [done|]); im_steps;
    (split; [done|]; split; [|done]); by split.
Qed.

(** The fields a completion handler uses. *)
Definition armed (k : op_id) (co : nat) (o : op) : Prop :=
  h o = co /\ owned_by o = socket_owner /\ impl_ptr o = true /\ ec_out o = Some co
  /\ (carries_bytes (kind_of k) = true -> bytes_out o = Some co).

Definition same_request (o o' : op) : Prop :=
  load o' = load o /\ fd o' = fd o /\ h o' = h o /\ ec_out o' = ec_out o
  /\ bytes_out o' = bytes_out o /\ impl_ptr o' = impl_ptr o.

Lemma start_spec k token s sl :
  own k = Some sl -> owns s = false -> slots (desc_of s) sl <> Some k ->
  wp (start k token)
    (fun _ s' => touches k s s' /\ same_request (op_of s k) (op_of s' k)
                 /\ owned_by (op_of s' k) = socket_owner
                 /\ fd_ (this s') = fd_ (this s)) s.
Proof.
  intros Hk Ho Hs. unfold start. im_steps.
  set (s1 := with_op k _ s).
  assert (T1 : touches k s s1) by (by apply touches_op).
  assert (R1 : same_request (op_of s k) (op_of s1 k) /\ owned_by (op_of s1 k) = socket_owner)
    by (unfold s1; by rewrite with_op_eq).
  destruct R1 as [R1 W1].
  destruct token; im_steps; [done| |].
  - split; [|split; [|split; [|done]]].
    + eapply touches_trans; [exact T1|]. by apply touches_op.
    + rewrite with_op_eq. exact R1.
    + rewrite with_op_eq. exact W1.
  - unfold cancel_single_op. im_steps.
    set (s2 := with_op k request_cancel _).
    assert (T2 : touches k s s2).
    { eapply touches_trans; [exact T1|]. eapply touches_trans; by apply touches_op. }
    eapply wp_mono; [eapply claim_single_idle; [done|done|]|].
    { destruct (t_desc _ _ _ T2) as [E _]. by rewrite E. }
    intros c s' (-> & T & E). im_steps. split; [by eapply touches_trans|].
    rewrite E. unfold s2. rewrite !with_op_eq. repeat split; try apply R1; try apply W1.
    rewrite (t_fd _ _ _ T). done.
Qed.


(** * Initiating operations *)

Definition logs_of (k : op_id) (co : nat) (r : outcome) : list effect :=
  match r with
  | dispatched => [resumed co]
  | noop_coroutine => [posted k]
  | parking _ _ _ => []
  end.

(** After the code has run, [k] is finished, posted or ready to be parked. *)
Definition initiated (k : op_id) (co : nat) (r : outcome) (s s' : st) : Prop :=
  exists s1, touches k s s1 /\ this s' = this s1 /\ owns s' = owns s1
    /\ summary (log s') = summary (log s1) ++ logs_of k co r
    /\ (r = dispatched -> stop_cb (op_of s1 k) = stop_cb (op_of s k))
    /\ (r <> dispatched -> armed k co (op_of s1 k))
    /\ (forall sl f d, r = parking sl f d -> own k = Some sl).

Lemma finish_inline_spec k co e b s0 s :
  touches k s0 s -> stop_cb (op_of s k) = stop_cb (op_of s0 k) ->
  wp (finish_inline co co e b) (fun r s' => initiated k co r s0 s') s.
Proof.
  intros T Hs. unfold finish_inline. im_steps.
  assert (D : forall s1, touches k s0 s1 -> this s1 = this s ->
                initiated k co dispatched s0 (with_log (resumed co) s1)).
  { intros s1 T1 E. exists s1. split; [done|]. do 2 (split; [done|]).
    split; [apply summary_app|]. rewrite E. by repeat split. }
  destruct b as [[p n]|]; im_steps; apply D; try done.
  - do 2 (eapply touches_trans; [|by apply touches_log]). done.
  - eapply touches_trans; [|by apply touches_log]. done.
Qed.

Lemma finish_posted_spec k co err n s0 s :
  touches k s0 s -> armed k co (set_impl_ptr true (op_of s k)) ->
  wp (finish_posted k err n) (fun r s' => initiated k co r s0 s') s.
Proof.
  intros T A. unfold finish_posted. im_steps.
  exists (with_op k (complete err n) (with_op k (set_impl_ptr true) s)).
  split; [|do 2 (split; [done|])].
  - do 2 (eapply touches_trans; [|by apply touches_op]). exact T.
  - split; [apply summary_app|]. split; [done|]. split; [|done]. intros _.
    rewrite !with_op_eq. exact A.
Qed.

Lemma parking_spec k co sl f d s0 s :
  touches k s0 s -> armed k co (op_of s k) -> own k = Some sl ->
  initiated k co (parking sl f d) s0 s.
Proof.
  intros T A Hk. exists s. split; [done|]. do 2 (split; [done|]). cbn.
  rewrite app_nil_r. repeat split; try done; try apply A. by intros ? ? ? [= <- _ _].
Qed.

(** Starting, in a state reached by touching [k] only. *)
Lemma start_at k token sl s0 s :
  own k = Some sl -> owns s0 = false -> slots (desc_of s0) sl <> Some k -> touches k s0 s ->
  wp (start k token)
    (fun _ s' => touches k s0 s' /\ same_request (op_of s k) (op_of s' k)
                 /\ owned_by (op_of s' k) = socket_owner) s.
Proof.
  intros Hk Ho Hs T. eapply wp_mono.
  - eapply start_spec; [done|by rewrite (t_owns _ _ _ T)|].
    destruct (t_desc _ _ _ T) as [E _]. by rewrite E.
  - intros [] s' (T' & R & W & F). split; [by eapply touches_trans|done].
Qed.

Lemma sys_then {A} c (m : answer -> IM A) k Q s0 s :
  touches k s0 s ->
  (forall a s', touches k s0 s' -> this s' = this s ->
                (script_ok (script s) -> answer_ok a /\ script_ok (script s')) -> wp (m a) Q s') ->
  wp (call c ≫= m) Q s /\ wp (call_retry c ≫= m) Q s.
Proof.
  intros T Hm. split; im_step.
  - eapply wp_mono; [apply call_sys|]. intros a s' H. apply Hm; [|apply H|apply H].
    eapply touches_trans; [exact T|exact (sys_touches _ _ _ _ H)].
  - eapply wp_mono; [apply call_retry_sys|]. intros a s' H. apply Hm; [|apply H|apply H].
    eapply touches_trans; [exact T|exact (sys_touches _ _ _ _ H)].
Qed.

Lemma store_local_endpoint_spec k f s0 s :
  touches k s0 s -> script_ok (script s) ->
  wp (store_local_endpoint f)
    (fun _ s' => touches k s0 s' /\ ops (this s') = ops (this s)) s.
Proof.
  intros T Hok. unfold store_local_endpoint. apply (sys_then _ _ k _ s0 s T).
  intros a s1 T1 E Ha. destruct a as [|n st len|]; im_steps; [by rewrite E| |by rewrite E].
  destruct Ha as [[ep He] _]; [done|]. unfold lift. rewrite He. im_steps.
  split; [|cbn; by rewrite E]. eapply touches_trans; [exact T1|]. by apply touches_endpoints.
Qed.

(** Reads and writes set their outputs and start. *)
Lemma start_posted k sl co token err n s0 s :
  own k = Some sl -> owns s0 = false -> slots (desc_of s0) sl <> Some k -> touches k s0 s ->
  wp (set_waiter_bytes k co co co ≫= fun _ => start k token ≫= fun _ => finish_posted k err n)
    (fun r s' => initiated k co r s0 s') s.
Proof.
  intros Hk Ho Hs T. unfold set_waiter_bytes. im_steps.
  eapply wp_mono; [eapply (start_at k); [done|done|done|]|].
  - eapply touches_trans; [exact T|]. by apply touches_op.
  - intros [] s' (T' & (R1 & R2 & R3 & R4 & R5 & R6) & W).
    rewrite !with_op_eq in *. cbn in *.
    apply finish_posted_spec; [done|]. repeat split; cbn; congruence.
Qed.

(** With the outputs set, an operation is started and left for its slot. *)
Lemma park_started k sl co token r d s0 s :
  own k = Some sl -> owns s0 = false -> slots (desc_of s0) sl <> Some k -> touches k s0 s ->
  h (op_of s k) = co -> ec_out (op_of s k) = Some co -> bytes_out (op_of s k) = Some co ->
  wp (start k token ≫= fun _ => upd_op k (set_impl_ptr true) ≫= fun _ => mret (parking sl r d))
    (fun r s' => initiated k co r s0 s') s.
Proof.
  intros Hk Ho Hs T H1 H2 H3. im_steps.
  eapply wp_mono; [eapply (start_at k); [done|done|done|exact T]|].
  intros [] s' (T' & (R1 & R2 & R3 & R4 & R5 & R6) & W). im_steps.
  apply parking_spec; [| |done].
  - eapply touches_trans; [exact T'|]. by apply touches_op.
  - rewrite with_op_eq. repeat split; cbn; congruence.
Qed.

Lemma reset_touches k s : touches k s (with_op k reset s).
Proof.
  apply touches_op; cbn; [by destruct (load (op_of s k))|]. intros _. apply reset_load_ok.
Qed.

(** Changing the operation after [s0], where the answers are those of [s0]. *)
Lemma op_touches k f s0 s :
  touches k s0 s -> kind (load (f (op_of s k))) = kind (load (op_of s0 k)) ->
  (script_ok (script s0) -> load_ok (load (f (op_of s k)))) -> touches k s0 (with_op k f s).
Proof.
  intros T H Hl. destruct T. split; try done.
  - intros j Hj. rewrite with_op_ne by done. by apply t_ops0.
  - by rewrite with_op_eq.
  - intros Hok. destruct (t_loads0 Hok) as [Hs L]. split; [done|]. intros j.
    destruct (decide (j = k)) as [->|Hj]; [rewrite with_op_eq; auto|].
    rewrite with_op_ne by done. auto.
Qed.

Lemma load_touches k p s0 s :
  touches k s0 s -> kind p = kind (load (op_of s0 k)) -> load_ok p ->
  touches k s0 (with_op k (set_load p) s).
Proof. intros T H Hl. by apply op_touches. Qed.

Lemma prepare_connect_spec co ep token s0 s :
  own conn_ = Some connect_slot -> kind_of conn_ = k_connect ->
  owns s0 = false -> slots (desc_of s0) connect_slot <> Some conn_ ->
  kind (load (op_of s0 conn_)) = k_connect -> touches conn_ s0 s ->
  wp (prepare_connect co ep token co)
    (fun _ s' => touches conn_ s0 s' /\ armed conn_ co (set_impl_ptr true (op_of s' conn_))) s.
Proof.
  intros Hc Kc Ho Hs Hk T. unfold prepare_connect, set_waiter. im_steps.
  eapply wp_mono; [eapply (start_at conn_); [done|done|done|]|].
  - apply op_touches; [|by rewrite Hk|done].
    eapply touches_trans; [|by apply touches_op].
    eapply touches_trans; [exact T|apply reset_touches].
  - intros [] s' (T' & (R1 & R2 & R3 & R4 & R5 & R6) & W). split; [done|].
    rewrite !with_op_eq in *. cbn in *. repeat split; cbn; try congruence. by rewrite Kc.
Qed.

Lemma prepare_wait_spec k sl ev co token s0 :
  own k = Some sl -> owns s0 = false -> slots (desc_of s0) sl <> Some k ->
  kind (load (op_of s0 k)) = k_wait -> kind_of k = k_wait ->
  wp (prepare_wait k ev co token co)
    (fun _ s' => touches k s0 s' /\ armed k co (op_of s' k)) s0.
Proof.
  intros Hk Ho Hs Hw Kw. unfold prepare_wait, set_waiter. im_steps.
  pose proof (reset_touches k s0) as T0.
  eapply wp_mono; [eapply (start_at k); [done|done|done|]|].
  - eapply touches_trans; [|by apply touches_op]. eapply touches_trans; [|by apply touches_op].
    by apply load_touches.
  - intros [] s' (T' & (R1 & R2 & R3 & R4 & R5 & R6) & W). im_steps.
    rewrite !with_op_eq in *. cbn in *. split.
    + eapply touches_trans; [exact T'|]. by apply touches_op.
    + repeat split; cbn; try congruence. by rewrite Kw.
Qed.

(** What both kinds of sockets do after [connect] has answered: the endpoints are
    stored on success, then the operation is finished or left for its slot. *)
Lemma connected_spec res f ep s0 s :
  touches conn_ s0 s -> ops (this s) = ops (this s0) -> script_ok (script s0) ->
  wp (match res with
      | Fail _ => skip
      | _ => store_local_endpoint f ≫= fun _ =>
             upd_impl (fun i => set_endpoints (local_endpoint_ i) ep i)
      end) (fun _ s' => touches conn_ s0 s' /\ ops (this s') = ops (this s0)) s.
Proof.
  intros T E Hok. assert (Hs : script_ok (script s)) by (by apply (t_loads _ _ _ T)).
  assert (G : wp (store_local_endpoint f ≫= fun _ =>
                  upd_impl (fun i => set_endpoints (local_endpoint_ i) ep i))
                (fun _ s' => touches conn_ s0 s' /\ ops (this s') = ops (this s0)) s).
  { im_step. eapply wp_mono; [by apply (store_local_endpoint_spec conn_ _ s0)|].
    intros [] s3 [T3 E3]. im_steps. split; [|cbn; congruence].
    eapply touches_trans; [exact T3|]. by apply touches_endpoints. }
  destruct res; [exact G|exact G|by im_steps].
Qed.

Lemma connect_outcome err dir (budget : bool) co ep token s0 s :
  own conn_ = Some connect_slot -> kind_of conn_ = k_connect ->
  owns s0 = false -> slots (desc_of s0) connect_slot <> Some conn_ ->
  kind (load (op_of s0 conn_)) = k_connect -> touches conn_ s0 s ->
  ops (this s) = ops (this s0) ->
  wp (if err =? EINPROGRESS then
        prepare_connect co ep token co ≫= fun _ =>
        upd_op conn_ (set_impl_ptr true) ≫= fun _ =>
        mret (parking connect_slot ref_write dir)
      else if budget then finish_inline co co (make_err err) None
      else prepare_connect co ep token co ≫= fun _ => finish_posted conn_ err 0)
    (fun r s' => initiated conn_ co r s0 s') s.
Proof.
  intros Hc Kc Ho Hs Hk T E. destruct (err =? EINPROGRESS); [|destruct budget].
  - im_step. eapply wp_mono; [by apply (prepare_connect_spec _ _ _ s0)|].
    intros [] s4 [T4 A4]. im_steps. apply parking_spec; [|by rewrite with_op_eq|done].
    eapply touches_trans; [exact T4|]. by apply touches_op.
  - apply finish_inline_spec; [done|]. by rewrite E.
  - im_step. eapply wp_mono; [by apply (prepare_connect_spec _ _ _ s0)|].
    intros [] s4 [T4 A4]. by apply finish_posted_spec.
Qed.

(** Waiting for readiness: the operation is left for its slot, or posted. *)
Lemma wait_parking k sl ev co token r d s0 :
  own k = Some sl -> owns s0 = false -> slots (desc_of s0) sl <> Some k ->
  kind (load (op_of s0 k)) = k_wait -> kind_of k = k_wait ->
  wp (prepare_wait k ev co token co ≫= fun _ => mret (parking sl r d))
    (fun r s' => initiated k co r s0 s') s0.
Proof.
  intros Hk Ho Hs Hl Kw. im_step. eapply wp_mono; [by apply (prepare_wait_spec k sl)|].
  intros [] s' [T A]. im_steps. by apply parking_spec.
Qed.

Lemma wait_posted k sl ev co token s0 :
  own k = Some sl -> owns s0 = false -> slots (desc_of s0) sl <> Some k ->
  kind (load (op_of s0 k)) = k_wait -> kind_of k = k_wait ->
  wp (prepare_wait k ev co token co ≫= fun _ => finish_posted k 0 0)
    (fun r s' => initiated k co r s0 s') s0.
Proof.
  intros Hk Ho Hs Hl Kw. im_step. eapply wp_mono; [by apply (prepare_wait_spec k sl)|].
  intros [] s' [T A]. apply finish_posted_spec; [done|]. destruct A as (?&?&?&?&?).
  by repeat split.
Qed.

(** * What a kind of socket provides *)

(** The tables of the derived class agree; the requests use its operations, no
    operation is an accept; and the code that initiates an operation works on
    that operation only and leaves it finished, posted or ready to be parked. *)
Class socket_laws := mk_socket_laws {
  all_ops_own : forall k, k ∈ all_ops <-> own k <> None;
  all_ops_nodup : NoDup all_ops;
  entries_own : forall k sl, (k, sl) ∈ desc_entries -> own k = Some sl;
  entries_slots : forall sl, exists k, (k, sl) ∈ desc_entries;
  op_for_own : forall rq, own (op_for rq) <> None;
  kinds : forall k, kind (load_of k) = k_accept -> own k = None;
  loads_new : forall k, load_ok (load_of k);
  initiate_spec : forall budget co token rq s0,
    owns s0 = false ->
    (forall sl, own (op_for rq) = Some sl -> slots (desc_of s0) sl <> Some (op_for rq)) ->
    kind (load (op_of s0 (op_for rq))) = kind (load_of (op_for rq)) ->
    load_ok (load (op_of s0 (op_for rq))) ->
    script_ok (script s0) ->
    wp (initiate budget co token rq) (fun r s' => initiated (op_for rq) co r s0 s') s0
}.

Context {SL : socket_laws}.

(** * Registration *)

(** What every step but a start leaves alone in an operation. *)
Definition op_le (o o' : op) : Prop :=
  kind (load o') = kind (load o) /\ stop_cb o' = stop_cb o /\ h o' = h o
  /\ ec_out o' = ec_out o /\ bytes_out o' = bytes_out o /\ impl_ptr o' = impl_ptr o
  /\ owned_by o' = owned_by o /\ (cancelled o = true -> cancelled o' = true).

#[export] Instance op_le_preorder : PreOrder op_le.
Proof.
  split.
  - intros o. by repeat split.
  - intros a b c (?&?&?&?&?&?&?&?) (?&?&?&?&?&?&?&?). repeat split; try congruence. auto.
Qed.

Lemma keeps_le o o' : keeps o o' -> op_le o o'.
Proof. intros (?&?&?&?&?&?&?&?&?). repeat split; congruence. Qed.

Lemma armed_le k co o o' : op_le o o' -> armed k co o -> armed k co o'.
Proof.
  intros (?&?&?&?&?&?&?&?) (?&?&?&?&Hb). repeat split; try congruence.
  intros Hk. rewrite <- Hb by done. done.
Qed.

Definition ops_le (s s' : st) : Prop := forall j, op_le (op_of s j) (op_of s' j).

#[export] Instance ops_le_preorder : PreOrder ops_le.
Proof. split; [by intros s j|]. intros a b c H1 H2 j. etrans; [apply H1|apply H2]. Qed.

Lemma with_op_le k f s : op_le (op_of s k) (f (op_of s k)) -> ops_le s (with_op k f s).
Proof.
  intros H j. destruct (decide (j = k)) as [->|Hj]; [by rewrite with_op_eq|].
  by rewrite with_op_ne.
Qed.

(** The queue flag, the events and the registration are as before. *)
Definition same_queueing (d d' : desc_state) : Prop :=
  is_enqueued_ d' = is_enqueued_ d /\ scheduler_ d' = scheduler_ d.

Record registers (k : op_id) (sl : slot) (s s' : st) : Prop := {
  r_owns : owns s' = false;
  r_ops : ops_le s s';
  r_desc : same_queueing (desc_of s) (desc_of s');
  r_loads : loads_kept s s';
  r_slots : (forall x, slots (desc_of s') x = slots (desc_of s) x)
            /\ summary (log s') = summary (log s) ++ [work_started; posted k; work_finished]
            \/ (forall x, slots (desc_of s') x = if decide (sl = x) then Some k
                                               else slots (desc_of s) x)
               /\ summary (log s') = summary (log s) ++ [work_started]
}.

Lemma io_nil_same s s' :
  slots_wf own (desc_of s) -> io_step own [] s s' ->
  forall x, slots (desc_of s') x = slots (desc_of s) x.
Proof.
  intros W H x. destruct (slots (desc_of s) x) as [j|] eqn:E; [by eapply io_nil_slot|].
  destruct (io_shrink _ _ _ _ H x); congruence.
Qed.

Lemma io_kept own' l s s' : io_step own' l s s' -> loads_kept s s'.
Proof. intros H Hok. split; [by apply (io_script _ _ _ _ H)|]. by apply (io_loads _ _ _ _ H). Qed.

Lemma io_summary own' l s s' : io_step own' l s s' -> summary (log s') = summary (log s).
Proof.
  intros H. destruct (io_log _ _ _ _ H) as [cs ->].
  by rewrite summary_app, summary_calls, app_nil_r.
Qed.

(** The state after the cached edge was consumed, or not. *)
Definition tried (s s' : st) : Prop :=
  owns s' = owns s /\ ops_le s s' /\ same_queueing (desc_of s) (desc_of s')
  /\ (forall x, slots (desc_of s') x = slots (desc_of s) x) /\ loads_kept s s'
  /\ summary (log s') = summary (log s).

Lemma tried_refl s : tried s s.
Proof. by repeat split. Qed.

Lemma tried_trans s1 s2 s3 : tried s1 s2 -> tried s2 s3 -> tried s1 s3.
Proof.
  intros (O1 & L1 & (Q1 & Q1') & S1 & K1 & E1) (O2 & L2 & (Q2 & Q2') & S2 & K2 & E2).
  split; [congruence|]. split; [by etrans|]. split; [split; congruence|].
  split; [|split; [by etrans|congruence]]. intros x. by rewrite S2, S1.
Qed.

Lemma tried_io s s' : slots_wf own (desc_of s) -> io_step own [] s s' -> tried s s'.
Proof.
  intros W H. destruct (io_desc _ _ _ _ H) as (?&?&?&?&?&?&?).
  split; [apply H|]. split; [intros j; apply keeps_le, H|]. split; [done|].
  split; [by apply io_nil_same|]. split; [by eapply io_kept|by eapply io_summary].
Qed.

Lemma tried_op k f s :
  op_le (op_of s k) (f (op_of s k)) -> load (f (op_of s k)) = load (op_of s k) ->
  tried s (with_op k f s).
Proof.
  intros H E. split; [done|]. split; [by apply with_op_le|]. split; [done|]. split; [done|].
  split; [|done]. apply loads_kept_op. by rewrite E.
Qed.

Lemma tried_desc f s :
  (forall d, slots (f d) = slots d /\ same_queueing d (f d)) -> tried s (with_desc f s).
Proof.
  intros H. destruct (H (desc_of s)) as (E & Q). split; [done|]. split; [by intros j|].
  split; [done|]. split; [cbn; by rewrite E|]. by split; [apply loads_kept_same|].
Qed.

Lemma consume_ready_spec k r s :
  slots_wf own (desc_of s) -> wp (consume_ready k r) (fun _ s' => tried s s') s.
Proof.
  intros W. unfold consume_ready. im_steps. destruct (ready_flag _ _); im_steps; [|apply tried_refl].
  assert (T1 : tried s (with_desc (clear_ready r) s))
    by (apply tried_desc; intros d; by destruct r).
  set (s1 := with_desc _ s) in *.
  eapply wp_mono; [apply (perform_io_step own)|]. intros [] s2 H2. im_steps.
  assert (T2 : tried s s2).
  { eapply tried_trans; [exact T1|]. apply tried_io; [|exact H2]. intros x j. cbn.
    replace (slots (clear_ready r (desc_of s))) with (slots (desc_of s)) by (by destruct r).
    apply W. }
  destruct (would_block _); im_steps; [|done].
  eapply tried_trans; [exact T2|]. by apply tried_op.
Qed.

Lemma register_op_spec notify k sl r dir s :
  owns s = false -> slots_wf own (desc_of s) ->
  wp (register_op notify k sl r dir) (fun _ s' => registers k sl s s') s.
Proof.
  intros Ho W. unfold register_op. im_steps. apply wp_lock_desc; [done|]. im_step.
  set (s1 := with_owns true _).
  eapply wp_mono; [by apply consume_ready_spec|]. intros io s2 T2. im_step.
  eapply (wp_mono _ (fun _ s' => tried s1 s')).
  { unfold consume_cancel. im_steps. destruct (cancel_pending _ _); im_steps; [|done].
    eapply tried_trans; [|by apply tried_op].
    eapply tried_trans; [exact T2|by apply tried_desc]. }
  intros [] s3 (O3 & L3 & Q3 & S3 & K3 & E3). im_step.
  assert (E : summary (log s3) = summary (log s) ++ [work_started])
    by (rewrite E3; apply summary_app).
  im_steps. destruct (io || _).
  - unfold post_counted. im_steps. apply wp_unlock_desc; [done|]. split; [done|apply L3|done|exact K3|].
    left. split; [exact S3|]. cbn. rewrite !summary_app, E. cbn. by rewrite <- !app_assoc.
  - im_steps.
    assert (G : forall s4, this s4 = this (with_desc (set_slot sl (Some k)) s3) ->
                  owns s4 = true -> summary (log s4) = summary (log s3) -> script s4 = script s3 ->
                  wp unlock_desc (fun _ s' => registers k sl s s') s4).
    { intros s4 T4 O4 E4 C4. apply wp_unlock_desc; [done|]. split; [done| | | |].
      - intros j. change (op_le (op_of s j) (op_of s4 j)). rewrite T4. apply L3.
      - change (same_queueing (desc_of s) (desc_of s4)). rewrite T4. apply Q3.
      - intros Hok. destruct (K3 Hok) as [Hs K4]. cbn. rewrite C4. split; [done|].
        rewrite T4. exact K4.
      - right. split; [|rewrite <- E, <- E4; done].
        intros x. change (slots (desc_of s4) x = if decide (sl = x) then Some k
                                                 else slots (desc_of s) x).
        rewrite T4. cbn [this with_desc with_impl desc_state_ set_desc].
        rewrite slots_set_slot. case_decide; [done|apply S3]. }
    destruct (notify && dir); im_steps; apply G; try done.
    cbn. rewrite summary_app. apply app_nil_r.
Qed.

(** * Cancellation *)

Lemma io_eq_app l s s' : l = [] -> s' = s -> io_step own l s s'.
Proof. intros -> ->. apply io_refl. Qed.

Lemma claim_own_io es s : wp (claim_own es) (fun l s' => io_step own l s s') s.
Proof.
  revert s. induction es as [|[k sl] es IH]; intros s; cbn [claim_own]; [apply io_refl|].
  im_steps. eapply (wp_mono _ (fun l s' => io_step own l s s')).
  { case_decide; im_steps; [by apply io_clear|apply io_refl]. }
  intros c s1 H1. im_steps. eapply wp_mono; [apply IH|]. intros r s2 H2. im_steps.
  by eapply io_trans.
Qed.

Lemma claim_any_io es s : wp (claim_any es) (fun l s' => io_step own l s s'
    /\ forall k sl, (k, sl) ∈ es -> slots (desc_of s') sl = None) s.
Proof.
  revert s. induction es as [|[k sl] es IH]; intros s; cbn [claim_any].
  { split; [apply io_refl|]. by intros ? ? ?%not_elem_of_nil. }
  im_steps. eapply (wp_mono _ (fun l s' => io_step own l s s' /\ slots (desc_of s') sl = None)).
  { destruct (slots (desc_of s) sl) eqn:E; im_steps; [|by split; [apply io_refl|]].
    split; [by apply io_clear|]. cbn [this with_desc with_impl desc_state_ set_desc].
    rewrite slots_set_slot. by case_decide. }
  intros c s1 [H1 N1]. im_steps. eapply wp_mono; [apply IH|]. intros r s2 [H2 N2]. im_steps.
  split; [by eapply io_trans|]. intros j x [[= -> ->]|Hj]%elem_of_cons; [|by eapply N2].
  destruct (io_shrink _ _ _ _ H2 sl); congruence.
Qed.

(** The critical sections that claim operations. *)
Record claims (l : list op_id) (s s' : st) : Prop := {
  c_owns : owns s' = false;
  c_ops : ops_le s s';
  c_desc : same_queueing (desc_of s) (desc_of s');
  c_wf : slots_wf own (desc_of s) -> slots_wf own (desc_of s');
  c_parked : slots_wf own (desc_of s) ->
             forall k, parked own (desc_of s') k + occ k l = parked own (desc_of s) k;
  c_loads : loads_kept s s';
  c_log : summary (log s') = summary (log s)
}.

Lemma io_claims l s s' s'' :
  io_step own l (with_owns true s) s' -> this s'' = this s' -> owns s'' = false ->
  log s'' = log s' -> script s'' = script s' -> claims l s s''.
Proof.
  intros H E1 E2 E3 E4. destruct (io_desc _ _ _ _ H) as (?&?&?&?&?&?&?).
  split; rewrite ?E1, ?E3; try done.
  - intros j. rewrite E1. apply keeps_le, (io_ops _ _ _ _ H).
  - apply (io_wf _ _ _ _ H).
  - apply (io_parked _ _ _ _ H).
  - intros Hok. destruct (io_kept _ _ _ _ H Hok) as [Hs K]. rewrite E1, E4. by split.
  - apply (io_summary _ _ _ _ H).
Qed.

Lemma claim_single_spec k s :
  owns s = false ->
  wp (claim_single k) (fun c s' => claims (if c : bool then [k] else []) s s') s.
Proof.
  intros Ho. unfold claim_single. destruct (own k) as [sl|] eqn:Hk.
  2: { im_steps. split; try done. intros _ j.
    exact (Z.add_0_r (parked own (desc_of s) j)). }
  im_step. apply wp_lock_desc; [done|]. im_steps. case_decide as Hs; im_steps.
  - apply wp_unlock_desc; [done|]. im_steps.
    eapply io_claims; [by apply (io_clear own sl k)|done..].
  - destruct (op_to_cancel_flag k); im_steps; (apply wp_unlock_desc; [done|]); im_steps;
      (split; try done; intros _ j; exact (Z.add_0_r (parked own (desc_of s) j))).
Qed.

Lemma cancel_claim_spec s :
  owns s = false -> wp cancel_claim (fun l s' => claims l s s') s.
Proof.
  intros Ho. unfold cancel_claim. im_step. apply wp_lock_desc; [done|]. im_step.
  eapply wp_mono; [apply claim_own_io|]. intros l s1 H1. im_step.
  apply wp_unlock_desc; [by rewrite (io_owns _ _ _ _ H1)|]. im_steps.
  eapply io_claims; [exact H1|done..].
Qed.

(** Closing empties every slot, clears the flags and keeps the implementation
    alive when the descriptor is queued. *)
Lemma close_claim_spec s :
  owns s = false ->
  wp close_claim
    (fun l s' => claims l s s' /\ (forall sl, slots (desc_of s') sl = None)
       /\ (forall sl, cancel_pending (desc_of s') sl = false)
       /\ read_ready (desc_of s') = false /\ write_ready (desc_of s') = false
       /\ impl_ref_ (desc_of s') = is_enqueued_ (desc_of s) || impl_ref_ (desc_of s)) s.
Proof.
  intros Ho. unfold close_claim. im_step. apply wp_lock_desc; [done|]. im_step.
  eapply wp_mono; [apply claim_any_io|]. intros l s1 [H1 N1]. im_steps.
  assert (C : claims l s (with_owns false s1)) by (eapply io_claims; [exact H1|done..]).
  assert (N : forall sl, slots (desc_of s1) sl = None).
  { intros sl. destruct (entries_slots sl) as [k Hk]. by eapply N1. }
  destruct (io_desc _ _ _ _ H1) as (?&?&?&Q1&Q2&?&?).
  pose proof (io_owns _ _ _ _ H1) as O1. cbn in O1, Q1, Q2.
  cbn [this with_desc with_impl set_desc desc_state_ is_enqueued_ set_cancel_pending set_ready].
  rewrite Q1. destruct (is_enqueued_ (desc_of s)) eqn:Eq; im_steps;
    (apply wp_unlock_desc; [by rewrite <- O1|]); im_steps.
  - split; [|by cbn]. by destruct C.
  - split; [|by cbn; rewrite Q2]. by destruct C.
Qed.

Lemma repost_spec k s :
  wp (repost k)
    (fun _ s' => owns s' = owns s /\ desc_of s' = desc_of s
       /\ (forall j, j <> k -> op_of s' j = op_of s j)
       /\ op_of s' k = set_impl_ptr true (op_of s k)
       /\ summary (log s') = summary (log s) ++ [posted k; work_finished]) s.
Proof.
  unfold repost, post_counted. im_steps. repeat split.
  - intros j Hj. by apply with_op_ne.
  - apply with_op_eq.
  - cbn. rewrite !summary_app. cbn. by rewrite <- app_assoc.
Qed.

Lemma request_cancels l s :
  wp (mapM_ (fun k => upd_op k request_cancel) l)
    (fun _ s' => owns s' = owns s /\ desc_of s' = desc_of s /\ ops_le s s'
       /\ (forall k, k ∈ l -> cancelled (op_of s' k) = true) /\ log s' = log s) s.
Proof.
  revert s. induction l as [|k l IH]; intros s; cbn [mapM_].
  { im_steps. repeat split; try done. by intros ? ?%not_elem_of_nil. }
  im_steps. eapply wp_mono; [apply IH|]. intros [] s' (E1 & E2 & L & C & E3).
  assert (Lk : ops_le s (with_op k request_cancel s)) by (by apply with_op_le).
  split; [done|]. split; [done|]. split; [by etrans|]. split; [|done].
  intros j [->|Hj]%elem_of_cons; [|by apply C].
  apply (L k). by rewrite with_op_eq.
Qed.

Lemma request_cancels_load l s :
  wp (mapM_ (fun k => upd_op k request_cancel) l)
    (fun _ s' => forall k, load (op_of s' k) = load (op_of s k)) s.
Proof.
  revert s. induction l as [|k l IH]; intros s; cbn [mapM_]; [done|]. im_steps.
  eapply wp_mono; [apply IH|]. intros [] s' E j. rewrite E.
  destruct (decide (j = k)) as [->|Hj]; [by rewrite with_op_eq|by rewrite with_op_ne].
Qed.

Lemma post_rest_spec l s :
  scheduler_ (desc_of s) = true ->
  wp (post_rest l)
    (fun f s' => this s' = this s /\ owns s' = owns s /\ f = head l
       /\ summary (log s') = summary (log s) ++ match l with
                                                | [] => []
                                                | _ :: rest => [deferred rest]
                                                end) s.
Proof.
  intros Hs. unfold post_rest. im_steps. rewrite Hs. cbn [negb].
  destruct l; im_steps; repeat split; cbn; rewrite summary_app; done.
Qed.

Lemma finish_close_spec s :
  wp finish_close
    (fun _ s' => owns s' = owns s /\ ops (this s') = ops (this s)
       /\ slots (desc_of s') = slots (desc_of s)
       /\ same_queueing (desc_of s) (desc_of s')
       /\ fd_ (this s') = (if 0 <=? fd_ (this s) then -1 else fd_ (this s))
       /\ summary (log s') = summary (log s)) s.
Proof.
  unfold finish_close, drop_fd, deregister_descriptor. im_steps.
  destruct (0 <=? fd_ (this s)); im_steps; [|by repeat split].
  destruct (_ =? 0); im_steps; repeat split; cbn; rewrite ?summary_app, ?app_nil_r; done.
Qed.

(** * Completion *)

Definition completed (s : st) (k : op_id) (s' : st) : Prop :=
  owns s' = owns s /\ desc_of s' = desc_of s /\ (forall j, j <> k -> op_of s' j = op_of s j)
  /\ op_of s' k = set_impl_ptr false (set_stop_cb false (op_of s k))
  /\ summary (log s') = summary (log s) ++ [resumed (h (op_of s k))].

(** The tail of every handler. *)
Lemma resume_spec k s0 s :
  owns s = owns s0 -> desc_of s = desc_of s0 ->
  (forall j, j <> k -> op_of s j = op_of s0 j) -> op_of s k = set_stop_cb false (op_of s0 k) ->
  summary (log s) = summary (log s0) ->
  wp (coro_resume k) (fun _ s' => completed s0 k s') s.
Proof.
  intros E1 E2 E3 E4 E5. unfold coro_resume. im_steps. split; [done|]. split; [done|].
  split; [|split].
  - intros j Hj. rewrite <- E3 by done. by apply with_op_ne.
  - rewrite <- E4. apply with_op_eq.
  - cbn [log with_log with_op with_impl]. rewrite summary_app, E5, E4. done.
Qed.

(** The state in which a handler resumes: its stop callback is destroyed. *)
Definition prologued (k : op_id) (s s' : st) : Prop :=
  owns s' = owns s /\ desc_of s' = desc_of s /\ (forall j, j <> k -> op_of s' j = op_of s j)
  /\ op_of s' k = set_stop_cb false (op_of s k) /\ summary (log s') = summary (log s)
  /\ (script_ok (script s) -> script_ok (script s')).

Lemma prologued_log k s s' e :
  prologued k s s' -> significant e = false -> prologued k s (with_log e s').
Proof.
  intros (E1 & E2 & E3 & E4 & E5 & E6) He. repeat split; try done. cbn.
  rewrite summary_app, E5. cbn. by rewrite He, app_nil_r.
Qed.

Lemma prologued_resume k s s' :
  prologued k s s' -> wp (coro_resume k) (fun _ s'' => completed s k s'') s'.
Proof. intros (E1 & E2 & E3 & E4 & E5 & E6). by apply resume_spec. Qed.

Lemma prologue_spec k s :
  owned_by (op_of s k) = socket_owner -> scheduler_ (desc_of s) = true ->
  wp (complete_prologue k) (fun _ s' => prologued k s s') s
  /\ wp (complete_prologue_wait k) (fun _ s' => prologued k s s') s.
Proof.
  intros Ho Hs.
  assert (G : prologued k s (with_log reset_inline_budget (with_op k (set_stop_cb false) s))).
  { apply prologued_log; [|done]. split; [done|]. split; [done|].
    split; [intros; by apply with_op_ne|]. split; [apply with_op_eq|done]. }
  split; [unfold complete_prologue|unfold complete_prologue_wait]; im_steps;
    rewrite with_op_eq; cbn [owned_by set_stop_cb]; rewrite Ho;
    change (desc_of (with_op k (set_stop_cb false) s)) with (desc_of s); rewrite Hs; apply G.
Qed.

Lemma decode_prologued p c e r n b k s0 s :
  prologued k s0 s -> wp (decode_io_result p c e r n b) (fun _ s' => prologued k s0 s') s.
Proof.
  intros P. unfold decode_io_result. destruct p as [p|]; [|by im_steps].
  repeat case_match; im_steps; by apply prologued_log.
Qed.

Section handlers.
Context (k : op_id) (co : nat) (s : st).
Context (A : armed k co (op_of s k)) (Hs : scheduler_ (desc_of s) = true).

(** A completion handler: the prologue, the result, and what follows. *)
Lemma handler_spec prologue (c r : op -> bool) (e : op -> error_code) (n : op -> Z)
    (rest : op -> IM unit) :
  (prologue = complete_prologue k \/ prologue = complete_prologue_wait k) ->
  (forall s1, prologued k s s1 ->
     wp (rest (set_stop_cb false (op_of s k))) (fun _ s' => completed s k s') s1) ->
  wp (prologue ≫= fun _ => o ← the_op k;
      decode_io_result (ec_out o) (c o) (e o) (r o) (n o) false ≫= fun _ => rest o)
    (fun _ s' => completed s k s') s.
Proof using A Hs.
  intros Hp Hm. destruct A as (A1 & A2 & A3 & A4 & A5).
  destruct (prologue_spec k s A2 Hs) as [P1 P2].
  im_step. eapply wp_mono; [destruct Hp as [-> | ->]; [exact P1|exact P2]|].
  intros [] s1 P. im_steps. eapply wp_mono; [by apply decode_prologued|].
  intros [] s2 P'. assert (E : op_of s1 k = set_stop_cb false (op_of s k)) by apply P.
  rewrite E. by apply Hm.
Qed.

Lemma store_then n (rest : IM unit) s1 :
  carries_bytes (kind_of k) = true -> prologued k s s1 ->
  (forall s2, prologued k s s2 -> wp rest (fun _ s' => completed s k s') s2) ->
  wp (store_bytes (bytes_out (op_of s k)) n ≫= fun _ => rest) (fun _ s' => completed s k s') s1.
Proof using A.
  intros Hb P Hr. destruct A as (_ & _ & _ & _ & A5). rewrite (A5 Hb). unfold store_bytes.
  im_step. im_step. apply (wp_deref _ co); [done|]. im_steps. apply Hr. by apply prologued_log.
Qed.

Lemma transfer_handlers :
  carries_bytes (kind_of k) = true ->
  wp (complete_io_op k) (fun _ s' => completed s k s') s
  /\ wp (complete_datagram_op k) (fun _ s' => completed s k s') s.
Proof using A Hs.
  intros Hb. split.
  - apply (handler_spec _ cancelled is_read_operation op_error bytes_transferred); [by left|].
    intros s1 P. apply store_then; auto using prologued_resume.
  - apply (handler_spec _ cancelled (fun _ => false) op_error (fun _ => 0)); [by left|].
    intros s1 P. apply store_then; auto using prologued_resume.
Qed.

Lemma wait_handler : wp (complete_wait_op k) (fun _ s' => completed s k s') s.
Proof using A Hs.
  apply (handler_spec _ cancelled (fun _ => false) op_error (fun _ => 0)); [by right|].
  intros s1 P. by apply prologued_resume.
Qed.

Lemma recv_from_handler :
  carries_bytes (kind_of k) = true -> load_ok (load (op_of s k)) ->
  wp (complete_datagram_op_from k) (fun _ s' => completed s k s') s.
Proof using A Hs.
  intros Hb Hl.
  apply (handler_spec _ cancelled (fun _ => false) op_error (fun _ => 0)); [by left|].
  intros s1 P. apply store_then; [done|done|]. intros s2 P2. im_step. cbn [load set_stop_cb].
  destruct (load (op_of s k)) as [| | | | | | | |iov src len [p|] flags];
    try (by im_steps; apply prologued_resume).
  destruct (_ && _); [|by im_steps; apply prologued_resume].
  destruct Hl as [ep He]. unfold lift. rewrite He. im_steps. apply prologued_resume.
  by apply prologued_log.
Qed.

Lemma connect_handler :
  script_ok (script s) -> wp (complete_connect_op k) (fun _ s' => completed s k s') s.
Proof using A Hs.
  intros Hok. destruct A as (A1 & A2 & A3 & A4 & A5).
  destruct (prologue_spec k s A2 Hs) as [P1 _].
  unfold complete_connect_op. im_step. eapply wp_mono; [exact P1|].
  intros [] s1 P. im_steps. eapply (wp_mono _ (fun _ s2 => prologued k s s2)).
  { destruct (load (op_of s1 k)); try done. destruct (_ && _); [|done].
    im_step. eapply wp_mono; [apply call_sys|]. intros a s2 (S1 & S2 & S3 & S4).
    destruct P as (E1 & E2 & E3 & E4 & E5 & E6). destruct S4 as [S4 S5]; [auto|].
    assert (P2 : forall l r, prologued k s (with_impl (set_endpoints l r) s2)).
    { intros l r. repeat split; cbn [this with_impl owns log script set_endpoints ops desc_state_];
        rewrite ?S1; try done; congruence. }
    im_step. destruct a as [|n stg len|]; [by im_steps| |by im_steps].
    destruct S4 as [ep Hep]. unfold lift. rewrite Hep. by im_steps. }
  intros [] s2 P2. im_step. eapply wp_mono; [by apply decode_prologued|].
  intros [] s3 P3. by apply prologued_resume.
Qed.
End handlers.

Lemma invoke_spec k co s :
  own k <> None -> armed k co (op_of s k) -> kind (load (op_of s k)) = kind_of k ->
  load_ok (load (op_of s k)) -> scheduler_ (desc_of s) = true -> script_ok (script s) ->
  wp (invoke k) (fun _ s' => completed s k s') s.
Proof.
  intros Hk A Hl Hld Hs Hok. unfold invoke. im_steps.
  pose proof (transfer_handlers k co s A Hs) as Ht.
  destruct (load (op_of s k)) eqn:El; cbn in Hl; rewrite <- Hl in Ht.
  - by apply (connect_handler k co).
  - by apply (wait_handler k co).
  - by apply Ht.
  - by apply Ht.
  - exfalso. apply Hk. by apply kinds.
  - by apply Ht.
  - by apply Ht.
  - by apply Ht.
  - apply (recv_from_handler k co); [done|done|by rewrite <- Hl|by rewrite El].
Qed.

End socket.
