(* ===== verification/SocketInv.v ===== *)
(** The invariant of a socket of any kind under concurrency: every operation that a
    coroutine waits for is in exactly one place, the work it holds is counted
    once, and what cancellation claims is marked cancelled. *)

From stdpp Require Import functions relations.
From S2P Require Import Prelude StateMonad Ipv4 Ipv6 Endpoint Sockaddr ReactorOp DescriptorState.
From S2P Require Import BasicSocket DescriptorSpec SocketSteps SocketSpec.
Import reactor_op reactor_descriptor_state basic_socket.

(** * Tallies *)

Definition is_op (k j : op_id) : Z := b2z (bool_decide (j = k)).

Definition hold (k : op_id) (a : act) : Z :=
  match a with
  | Starting j _ _ _ | Invoking j => is_op k j
  | Claimed l _ | Dispatching l => occ k l
  | _ => 0
  end.
Definition queued (k : op_id) (e : qentry) : Z :=
  match e with
  | q_op j => is_op k j
  | q_desc => 0
  end.
(** Units of work held by the operations of an activity. *)
Definition units (a : act) : Z :=
  match a with
  | Claimed l _ | Dispatching l => Z.of_nat (length l)
  | _ => 0
  end.
Definition desc_queued (e : qentry) : Z :=
  match e with
  | q_desc => 1
  | q_op _ => 0
  end.
Definition deferring (a : act) : Z :=
  match a with
  | Deferring => 1
  | _ => 0
  end.
Definition waits_for (w : op_id -> option nat) (co : nat) (k : op_id) : Z :=
  b2z (bool_decide (w k = Some co)).

Abbreviation D w := (desc_state_ (sock w)).
Abbreviation O w k := (ops (sock w) k).

Section socket_inv.
Context {DV : derived} {SK : socket_kind} {SL : socket_laws}.

Definition act_ok (w : world) (a : act) : Prop :=
  match a with
  | Starting k s _ _ => own k = Some s
  | Claimed l _ => forall k, k ∈ l -> cancelled (O w k) = true
  | Cancelling k => cancelled (O w k) = true /\ is_Some (waiting w k)
  | CancelAll | CloseAll => forall k, k ∈ all_ops -> cancelled (O w k) = true
  | _ => True
  end.

Record inv (w : world) : Prop := mk_inv {
  i_wf : slots_wf own (D w);
  i_sched : scheduler_ (D w) = true;
  i_place : forall k, parked own (D w) k + zsum (queued k) (queue w) + zsum (hold k) (acts w)
                      = b2z (bool_decide (is_Some (waiting w k)));
  i_units : tokens w = zsum (parked own (D w)) all_ops + zsum units (acts w);
  i_desc : zsum desc_queued (queue w) + zsum deferring (acts w) = b2z (is_enqueued_ (D w));
  i_hist : forall co, occ co (started w)
                      = occ co (ended w) + zsum (waits_for (waiting w) co) all_ops;
  i_kind : forall k, kind (load (O w k)) = kind_of k;
  i_load : forall k, load_ok (load (O w k));
  i_one : forall j k, own j = own k -> is_Some (waiting w j) -> is_Some (waiting w k) -> j = k;
  i_armed : forall k co, waiting w k = Some co -> own k <> None /\ armed k co (O w k);
  i_stop : forall k, stop_cb (O w k) = true -> is_Some (waiting w k);
  i_acts : Forall (act_ok w) (acts w)
}.

(** * Counting *)

Lemma is_op_nonneg k j : 0 <= is_op k j.
Proof. unfold is_op, b2z. case_bool_decide; lia. Qed.
Lemma hold_nonneg k a : 0 <= hold k a.
Proof. destruct a; cbn; try lia; auto using is_op_nonneg, occ_nonneg. Qed.
Lemma queued_nonneg k e : 0 <= queued k e.
Proof. destruct e; cbn; [lia|apply is_op_nonneg]. Qed.
Lemma units_nonneg a : 0 <= units a.
Proof. destruct a; cbn; lia. Qed.
Lemma is_op_eq k : is_op k k = 1.
Proof. unfold is_op. by rewrite bool_decide_true. Qed.
Lemma is_op_ne k j : j <> k -> is_op k j = 0.
Proof. intros H. unfold is_op. by rewrite bool_decide_false. Qed.
Lemma zsum_replace (f : act -> Z) l j a o :
  l !! j = Some a ->
  zsum f (replace_act j o l) = zsum f l - f a + match o with
                                                | Some a' => f a'
                                                | None => 0
                                                end.
Proof.
  intros H. destruct o as [a'|]; cbn.
  - by rewrite (zsum_insert _ _ _ _ _ H).
  - rewrite (zsum_delete _ _ _ _ H). lia.
Qed.

Lemma Forall_replace (P : act -> Prop) l j o :
  Forall P l -> (forall a', o = Some a' -> P a') -> Forall P (replace_act j o l).
Proof.
  intros Hl Ho. destruct o as [a'|]; cbn.
  - apply list.Forall_insert; auto.
  - by apply list.Forall_delete.
Qed.

Lemma queued_ops k l : zsum (queued k) (q_op <$> l) = occ k l.
Proof. unfold occ. induction l as [|j l IH]; [done|]. cbn. rewrite IH. done. Qed.
Lemma desc_queued_ops l : zsum desc_queued (q_op <$> l) = 0.
Proof. induction l as [|j l IH]; [done|]. cbn. lia. Qed.

(** Summing over the operations of the socket. *)
Lemma is_op_notin k l : k ∉ l -> zsum (fun j => is_op j k) l = 0.
Proof.
  induction l as [|j l IH]; intros Hk; [done|]. apply not_elem_of_cons in Hk as [H1 H2].
  cbn. rewrite is_op_ne by done. rewrite IH by done. done.
Qed.

Lemma is_op_once k l : NoDup l -> k ∈ l -> zsum (fun j => is_op j k) l = 1.
Proof.
  induction 1 as [|j l Hj Hl IH]; intros Hk; [by apply not_elem_of_nil in Hk|]. cbn.
  apply elem_of_cons in Hk as [->|Hk].
  - rewrite is_op_eq, is_op_notin by done. lia.
  - rewrite is_op_ne, IH by (done || (intros ->; done)). lia.
Qed.

Lemma is_op_total k : own k <> None -> zsum (fun j => is_op j k) all_ops = 1.
Proof. intros Hk. apply is_op_once; [apply all_ops_nodup|by apply all_ops_own]. Qed.

Lemma zsum_all_occ l :
  (forall k, k ∈ l -> own k <> None) -> zsum (fun k => occ k l) all_ops = Z.of_nat (length l).
Proof.
  induction l as [|j l IH]; intros H; [by induction all_ops|].
  cbn [length]. rewrite Nat2Z.inj_succ, <- IH by (intros; apply H; by right).
  assert (E : forall k, occ k (j :: l) = is_op k j + occ k l) by done.
  rewrite (zsum_ext _ _ _ (fun k _ => E k)), zsum_add, is_op_total by (apply H; by left). lia.
Qed.

(** What [l] loses is what the slots lose. *)
Lemma parked_total d d' l :
  (forall k, parked own d' k + occ k l = parked own d k) -> (forall k, k ∈ l -> own k <> None) ->
  zsum (parked own d) all_ops = zsum (parked own d') all_ops + Z.of_nat (length l).
Proof.
  intros H Hl. rewrite <- (zsum_all_occ l Hl), <- zsum_add. apply zsum_ext. intros k _. auto.
Qed.

Lemma parked_owned d k : parked own d k <> 0 -> own k <> None.
Proof. unfold parked. by destruct (own k). Qed.

(** * Execution *)

Definition enter (w : world) (sc : list answer) : st := mk_st (sock w) false sc [].

Lemma exec_wp {A} (m : IM A) (Q : A -> st -> Prop) sc w a w' :
  wp m Q (enter w sc) -> exec m sc w a w' ->
  exists s', Q a s' /\ owns s' = false
             /\ w' = absorb_all (summary (log s')) (set_sock (this s') w).
Proof.
  intros Hm (s' & E & Ho & ->). unfold wp, enter in Hm. rewrite E in Hm.
  exists s'. split; [done|]. split; [done|]. apply absorb_summary.
Qed.

Definition impl_le (i i' : impl) : Prop := forall k, op_le (ops i k) (ops i' k).

Lemma act_ok_mono w w' a :
  impl_le (sock w) (sock w') -> waiting w' = waiting w -> act_ok w a -> act_ok w' a.
Proof.
  intros L Ew H. destruct a; cbn in *; try done; rewrite ?Ew.
  - split; [|apply H]. apply L, H.
  - intros k' Hk. by apply L, H.
  - intros k' Hk. by apply L, H.
  - intros k' Hk. by apply L, H.
Qed.

(** Steps that neither start nor complete an operation. *)
Lemma inv_quiet w w' :
  inv w -> impl_le (sock w) (sock w') -> waiting w' = waiting w -> started w' = started w ->
  ended w' = ended w -> slots_wf own (D w') -> scheduler_ (D w') = scheduler_ (D w) ->
  (forall k, parked own (D w') k + zsum (queued k) (queue w') + zsum (hold k) (acts w')
             = parked own (D w) k + zsum (queued k) (queue w) + zsum (hold k) (acts w)) ->
  tokens w' - zsum (parked own (D w')) all_ops - zsum units (acts w')
  = tokens w - zsum (parked own (D w)) all_ops - zsum units (acts w) ->
  zsum desc_queued (queue w') + zsum deferring (acts w') - b2z (is_enqueued_ (D w'))
  = zsum desc_queued (queue w) + zsum deferring (acts w) - b2z (is_enqueued_ (D w)) ->
  (forall k, load_ok (load (O w k)) -> load_ok (load (O w' k))) ->
  Forall (act_ok w') (acts w') ->
  inv w'.
Proof.
  intros [] L Ew Es Ee W Hs Hp Hu Hd Hld Ha. split; rewrite ?Ew, ?Es, ?Ee; try done.
  - congruence.
  - intros k. by rewrite Hp.
  - lia.
  - lia.
  - intros k. destruct (L k) as [-> _]. apply i_kind0.
  - auto.
  - intros k co Hk. destruct (i_armed0 k co Hk) as [H1 H2]. split; [done|]. eapply armed_le; [apply L|exact H2].
  - intros k Hk. apply i_stop0. by destruct (L k) as (_ & <- & _).
Qed.

(** * Steps *)

Ltac wsimpl :=
  cbn [sock queue acts tokens waiting started ended set_acts set_waiting add_tokens set_queue
       set_sock absorb_all fold_left absorb after_act adopted add_started enter this owns log script
       app] in *.

Lemma parked_ext d d' :
  (forall x, slots d' x = slots d x) -> forall k, parked own d' k = parked own d k.
Proof. intros H k. unfold parked. destruct (own k); [|done]. by rewrite H. Qed.

Lemma wf_ext d d' : (forall x, slots d' x = slots d x) -> slots_wf own d -> slots_wf own d'.
Proof. intros H W s k. rewrite H. apply W. Qed.

(** An activity that holds [k]. *)
Lemma held w j a k :
  inv w -> acts w !! j = Some a -> 1 <= hold k a ->
  exists co, waiting w k = Some co /\ own k <> None /\ armed k co (O w k)
             /\ parked own (D w) k = 0 /\ zsum (queued k) (queue w) = 0
             /\ zsum (hold k) (acts w) = 1.
Proof.
  intros I Ha Hk. pose proof (i_place w I k) as P.
  pose proof (zsum_ge (hold k) _ _ _ (hold_nonneg k) Ha).
  pose proof (zsum_nonneg (queued k) (queue w) (queued_nonneg k)).
  pose proof (parked_le_1 own (D w) k).
  destruct (waiting w k) as [co|] eqn:E.
  - exists co. destruct (i_armed w I k co E) as [Hn Hr].
    rewrite bool_decide_true in P by eauto. cbn in P.
    split; [done|]. do 2 (split; [done|]). lia.
  - rewrite bool_decide_false in P by (intros [? [=]]). cbn in P. lia.
Qed.

Lemma claims_owned l s s' k :
  slots_wf own (desc_of s) -> claims l s s' -> k ∈ l -> own k <> None.
Proof.
  intros W C Hk. apply (parked_owned (desc_of s)). pose proof (c_parked _ _ _ C W k).
  pose proof (occ_elem _ _ Hk). pose proof (parked_le_1 own (desc_of s') k). lia.
Qed.

(** A critical section that moves [l] from the slots to an activity. *)
Lemma inv_claims w sc j a o l s' :
  inv w -> script_ok sc -> acts w !! j = Some a -> claims l (enter w sc) s' ->
  (forall k, hold k a = 0) -> units a = 0 -> deferring a = 0 ->
  (forall k, match o with Some a' => hold k a' | None => 0 end = occ k l) ->
  match o with Some a' => units a' | None => 0 end = Z.of_nat (length l) ->
  match o with Some a' => deferring a' | None => 0 end = 0 ->
  (forall a' w', o = Some a' -> impl_le (sock w) (sock w') -> act_ok w' a') ->
  inv (set_acts (replace_act j o (acts w)) (set_sock (this s') w)).
Proof.
  intros I Hsc Ha C Hh Hu Hd Hh' Hu' Hd' Hok. pose proof (i_wf w I) as W.
  assert (L : impl_le (sock w) (this s')) by apply C.
  destruct (c_desc _ _ _ C) as [Q1 Q2]. wsimpl.
  eapply inv_quiet; wsimpl; try exact I; try done.
  - by apply (c_wf _ _ _ C).
  - intros k. rewrite (zsum_replace _ _ _ _ _ Ha), Hh', Hh.
    pose proof (c_parked _ _ _ C W k). wsimpl. lia.
  - rewrite (zsum_replace _ _ _ _ _ Ha), Hu', Hu.
    pose proof (parked_total _ _ l (c_parked _ _ _ C W) (fun k => claims_owned _ (enter w sc) _ k W C)).
    wsimpl. lia.
  - rewrite (zsum_replace _ _ _ _ _ Ha), Hd', Hd, Q1. lia.
  - by apply (c_loads _ _ _ C).
  - apply Forall_replace; [|intros; by apply Hok].
    eapply list.Forall_impl; [apply I|]. intros b. by apply act_ok_mono.
Qed.

Lemma absorb_nil w : absorb_all [] w = w.
Proof. done. Qed.

Section step_lemmas.
Context (notify : bool).

Lemma claim_step w j a m sc o w1 :
  inv w -> script_ok sc -> acts w !! j = Some a -> act_prog notify LClaim a = Some m ->
  exec m sc w o w1 ->
  inv (set_acts (replace_act j o (acts w1)) w1) /\ adopted a = 0 /\ (forall k, a <> Invoking k).
Proof.
  intros I Hsc Ha Hm He. pose proof (i_wf w I) as W.
  assert (Hok : act_ok w a) by (eapply list.Forall_lookup_1; [apply I|done]).
  destruct a; try done; cbn in Hm; injection Hm as <-.
  - eapply (exec_wp _ (fun o s' => exists c : bool, o = (if c then Some (Claimed [k] false) else None)
        /\ claims (if c then [k] else []) (enter w sc) s')) in He
      as (s' & (c & -> & C) & _ & ->).
    2: { im_step. eapply wp_mono; [by apply claim_single_spec|]. intros c s' C. im_steps. eauto. }
    rewrite (c_log _ _ _ C). split; [|done]. cbn in Hok.
    eapply (inv_claims w sc j _ _ _ s'); try done; try (by destruct c).
    destruct c; [|done]. intros a' w' [= <-] L k' ->%list_elem_of_singleton. by apply L, Hok.
  - eapply (exec_wp _ (fun o s' => exists l, o = Some (Claimed l false)
        /\ claims l (enter w sc) s')) in He as (s' & (l & -> & C) & _ & ->).
    2: { im_step. eapply wp_mono; [by apply cancel_claim_spec|]. intros c s' C. im_steps. eauto. }
    rewrite (c_log _ _ _ C). split; [|done]. cbn in Hok.
    eapply (inv_claims w sc j _ _ _ s'); try done. intros a' w' [= <-] L k' Hk'. apply L, Hok.
    by apply all_ops_own, (claims_owned _ (enter w sc) _ _ W C).
  - eapply (exec_wp _ (fun o s' => exists l, o = Some (Claimed l true)
        /\ claims l (enter w sc) s')) in He as (s' & (l & -> & C) & _ & ->).
    2: { im_step. eapply wp_mono; [by apply close_claim_spec|].
         intros c s' [C _]. im_steps. eauto. }
    rewrite (c_log _ _ _ C). split; [|done]. cbn in Hok.
    eapply (inv_claims w sc j _ _ _ s'); try done. intros a' w' [= <-] L k' Hk'. apply L, Hok.
    by apply all_ops_own, (claims_owned _ (enter w sc) _ _ W C).
Qed.

Lemma acts_kept w w' : 
  impl_le (sock w) (sock w') -> waiting w' = waiting w -> inv w -> Forall (act_ok w') (acts w).
Proof.
  intros L E I. eapply list.Forall_impl; [apply I|]. intros b. by apply act_ok_mono.
Qed.

(** Parking [k] in its empty slot. *)
Lemma parked_put d d' sl k :
  own k = Some sl -> slots d sl = None ->
  (forall x, slots d' x = if decide (sl = x) then Some k else slots d x) ->
  forall j, parked own d' j = parked own d j + is_op j k.
Proof.
  intros Hk H0 H j. unfold parked. destruct (own j) as [sj|] eqn:Ej.
  2: { rewrite is_op_ne; [done|]. congruence. }
  rewrite H. destruct (decide (sl = sj)) as [<-|Hn].
  - rewrite H0, (bool_decide_false (None = _)) by done. unfold is_op.
    by rewrite (bool_decide_ext (Some k = Some j) (k = j)) by (split; congruence).
  - rewrite is_op_ne by congruence. lia.
Qed.

(** The slot of an operation in flight holds no other operation. *)
Lemma slot_empty w k sl :
  inv w -> own k = Some sl -> is_Some (waiting w k) -> parked own (D w) k = 0 ->
  slots (D w) sl = None.
Proof.
  intros I Hk Hw Hp. destruct (slots (D w) sl) as [j|] eqn:E; [exfalso|done].
  pose proof (parked_slot own _ _ _ (i_wf w I) E) as Hj.
  pose proof (i_place w I j) as P.
  pose proof (zsum_nonneg (hold j) (acts w) (hold_nonneg j)).
  pose proof (zsum_nonneg (queued j) (queue w) (queued_nonneg j)).
  assert (Hwj : is_Some (waiting w j)).
  { case_bool_decide as Hb; [done|]. cbn in P. lia. }
  assert (j = k) as ->; [|lia].
  apply (i_one w I); [|done|done]. rewrite Hk. by apply (i_wf w I).
Qed.

Lemma wf_put d d' sl k :
  own k = Some sl -> slots_wf own d ->
  (forall x, slots d' x = if decide (sl = x) then Some k else slots d x) -> slots_wf own d'.
Proof.
  intros Hk W H x j. rewrite H. case_decide as E; [|apply W]. intros [= <-]. congruence.
Qed.

Lemma register_step w j k sl r dir sc o w1 :
  inv w -> script_ok sc -> acts w !! j = Some (Starting k sl r dir) ->
  exec (register_op notify k sl r dir ≫= fun _ => mret None) sc w o w1 ->
  inv (set_acts (replace_act j o (acts w1)) w1).
Proof.
  intros I Hsc Ha He. pose proof (i_wf w I) as W.
  assert (Hk : own k = Some sl) by (by apply (list.Forall_lookup_1 _ _ _ _ (i_acts w I) Ha)).
  destruct (held w j _ k I Ha) as (co & Ew & _ & A & Hp & Hq & Hh); [cbn; rewrite is_op_eq; lia|].
  eapply (exec_wp _ (fun o s' => o = None /\ registers k sl (enter w sc) s')) in He
    as (s' & [-> R] & _ & ->).
  2: { im_step. eapply wp_mono; [by apply register_op_spec|]. intros [] s' R. by im_steps. }
  assert (L : impl_le (sock w) (this s')) by apply R.
  destruct (r_desc _ _ _ _ R) as [Q1 Q2].
  destruct (r_slots _ _ _ _ R) as [[S E]|[S E]];
    change (summary (log (enter w sc))) with (@nil effect) in E; rewrite E.
  - eapply inv_quiet; wsimpl; try exact I; try done.
    + by eapply wf_ext.
    + intros i. rewrite (zsum_replace _ _ _ _ _ Ha), zsum_app, (parked_ext _ _ S). cbn. lia.
    + rewrite (zsum_replace _ _ _ _ _ Ha). cbn [units].
      rewrite (zsum_ext _ _ _ (fun x _ => parked_ext _ _ S x)). lia.
    + rewrite (zsum_replace _ _ _ _ _ Ha), zsum_app, Q1. cbn. lia.
    + by apply (r_loads _ _ _ _ R).
    + apply Forall_replace; [|done]. by eapply (acts_kept w).
  - pose proof (parked_put _ _ _ _ Hk (slot_empty w k sl I Hk (ex_intro _ _ Ew) Hp) S) as P.
    eapply inv_quiet; wsimpl; try exact I; try done.
    + by eapply wf_put.
    + intros i. rewrite (zsum_replace _ _ _ _ _ Ha), P. cbn. lia.
    + rewrite (zsum_replace _ _ _ _ _ Ha). cbn [units].
      rewrite (zsum_ext _ _ _ (fun x _ => P x)), zsum_add, is_op_total by (by rewrite Hk). lia.
    + rewrite (zsum_replace _ _ _ _ _ Ha), Q1. cbn. lia.
    + by apply (r_loads _ _ _ _ R).
    + apply Forall_replace; [|done]. by eapply (acts_kept w).
Qed.

Lemma repost_step w j k l b sc o w1 :
  inv w -> acts w !! j = Some (Claimed (k :: l) b) ->
  exec (repost k ≫= fun _ => mret (Some (Claimed l b))) sc w o w1 ->
  inv (set_acts (replace_act j o (acts w1)) w1).
Proof.
  intros I Ha He. pose proof (i_wf w I) as W.
  pose proof (list.Forall_lookup_1 _ _ _ _ (i_acts w I) Ha) as Hok. cbn in Hok.
  destruct (held w j _ k I Ha) as (co & Ew & _ & A & Hp & Hq & Hh).
  { cbn [hold]. apply occ_elem. by left. }
  eapply (exec_wp _ (fun o s' => o = Some (Claimed l b) /\ desc_of s' = D w
      /\ (forall i, i <> k -> op_of s' i = O w i) /\ op_of s' k = set_impl_ptr true (O w k)
      /\ summary (log s') = [posted k; work_finished])) in He
    as (s' & (-> & Ed & Eo & Ek & El) & _ & ->).
  2: { im_step. eapply wp_mono; [apply repost_spec|].
       intros [] s' (_ & E1 & E2 & E3 & E4). by im_steps. }
  rewrite El.
  assert (L : impl_le (sock w) (this s')).
  { intros i. destruct (decide (i = k)) as [->|Hi]; [|by rewrite Eo].
    rewrite Ek. destruct A as (?&?&A&?&?). by repeat split. }
  eapply inv_quiet; wsimpl; try exact I; try done; rewrite ?Ed; try done.
  - intros i. rewrite (zsum_replace _ _ _ _ _ Ha), zsum_app. cbn. unfold is_op, occ. cbn. lia.
  - rewrite (zsum_replace _ _ _ _ _ Ha). cbn [units length]. lia.
  - rewrite (zsum_replace _ _ _ _ _ Ha), zsum_app. cbn. lia.
  - intros i. destruct (decide (i = k)) as [->|Hi]; [by rewrite Ek|by rewrite Eo].
  - apply Forall_replace; [by eapply (acts_kept w)|]. intros a' [= <-] i Hi. apply L, Hok.
    by right.
Qed.

Lemma finish_step w j b sc o w1 :
  inv w -> acts w !! j = Some (Claimed [] b) ->
  exec ((if b : bool then finish_close else skip) ≫= fun _ => mret None) sc w o w1 ->
  inv (set_acts (replace_act j o (acts w1)) w1).
Proof.
  intros I Ha He. pose proof (i_wf w I) as W.
  eapply (exec_wp _ (fun o s' => o = None /\ ops (this s') = ops (sock w)
      /\ slots (desc_of s') = slots (D w) /\ same_queueing (D w) (desc_of s')
      /\ summary (log s') = [])) in He as (s' & (-> & Eo & Es & [Q1 Q2] & El) & _ & ->).
  2: { im_step. destruct b; [|by im_steps].
       eapply wp_mono; [apply finish_close_spec|]. intros [] s' (? & ? & ? & ? & ? & ?).
       by im_steps. }
  rewrite El. assert (S : forall x, slots (desc_of s') x = slots (D w) x) by (by rewrite Es).
  assert (L : impl_le (sock w) (this s')) by (intros i; by rewrite Eo).
  eapply inv_quiet; wsimpl; try exact I; try done.
  - by eapply wf_ext.
  - intros i. rewrite (zsum_replace _ _ _ _ _ Ha), (parked_ext _ _ S). cbn. lia.
  - rewrite (zsum_replace _ _ _ _ _ Ha), (zsum_ext _ _ _ (fun x _ => parked_ext _ _ S x)).
    cbn [units length]. lia.
  - rewrite (zsum_replace _ _ _ _ _ Ha), Q1. cbn. lia.
  - by rewrite Eo.
  - apply Forall_replace; [|done]. by eapply (acts_kept w).
Qed.

Lemma deferred_step w j sc o w1 :
  inv w -> script_ok sc -> acts w !! j = Some Deferring ->
  exec (r ← deferred_io; mret (match snd r with
                               | Some l => Some (Dispatching l)
                               | None => None
                               end)) sc w o w1 ->
  inv (set_acts (replace_act j o (acts w1)) w1).
Proof.
  intros I Hsc Ha He. pose proof (i_wf w I) as W.
  assert (Q : is_enqueued_ (D w) = true).
  { pose proof (i_desc w I) as H.
    pose proof (zsum_ge deferring _ _ _ (fun a => ltac:(by destruct a)) Ha) as H1.
    pose proof (zsum_nonneg desc_queued (queue w) (fun a => ltac:(by destruct a))) as H2.
    cbn in H1. destruct (is_enqueued_ (D w)); [done|]. cbn in H. lia. }
  eapply (exec_wp _ (fun o s' => exists l s1, io_step own l (begun (enter w sc)) s1
      /\ this s' = this s1 /\ summary (log s') = []
      /\ (o = Some (Dispatching l) \/ o = None /\ l = []))) in He
    as (s' & (l & s1 & H & E & El & Ho) & _ & ->).
  2: { im_step. eapply wp_mono; [apply (deferred_io_io own); [done|apply I|done]|].
       intros [p [l|]] s' [_ H]; im_steps.
       - destruct H as (_ & s1 & H & ->). exists l, s1. split; [done|]. split; [done|].
         split; [|by left]. exact (io_summary _ _ _ _ H).
       - destruct H as (_ & ->). exists [], (begun (enter w sc)). split; [apply io_refl|].
         split; [done|]. split; [done|by right]. }
  rewrite El. destruct (io_desc _ _ _ _ H) as (?&?&?&Q1&?&Q2&?). cbn in Q1, Q2.
  assert (L : impl_le (sock w) (this s')).
  { intros i. rewrite E. apply keeps_le, (io_ops _ _ _ _ H). }
  pose proof (io_parked _ _ _ _ H W) as P.
  assert (Hl : forall k, k ∈ l -> own k <> None).
  { intros k Hk. destruct (io_only _ _ _ _ H _ Hk) as [x Hx]. by rewrite (W _ _ Hx). }
  pose proof (parked_total _ _ l P Hl) as PT.
  change (desc_of (begun (enter w sc))) with (set_ready_events 0 (set_enqueued false
    (set_impl_ref false (D w)))) in P, PT.
  change (parked own (set_ready_events 0 _)) with (parked own (D w)) in P, PT.
  assert (F : forall f : act -> Z, (forall l, f (Dispatching l) = f (Claimed l true)) ->
    f (Claimed [] true) = 0 ->
    match o with Some a' => f a' | None => 0 end = f (Claimed l true)).
  { intros f F1 F2. destruct Ho as [->|[-> ->]]; [apply F1|done]. }
  rewrite E in *.
  eapply inv_quiet; wsimpl; try exact I; try done.
  - by apply (io_wf _ _ _ _ H).
  - intros i. rewrite (zsum_replace _ _ _ _ _ Ha), (F (hold i)) by done. cbn [hold].
    specialize (P i). lia.
  - rewrite (zsum_replace _ _ _ _ _ Ha), (F units) by done. cbn [units]. lia.
  - rewrite (zsum_replace _ _ _ _ _ Ha), (F deferring) by done. cbn. rewrite Q1, Q. cbn. lia.
  - by apply (io_loads _ _ _ _ H).
  - apply Forall_replace; [by eapply (acts_kept w)|]. intros a' Ea.
    by destruct Ho as [->|[-> ->]]; [injection Ea as <-|].
Qed.

Lemma post_rest_step w j l sc o w1 :
  inv w -> acts w !! j = Some (Dispatching l) ->
  exec (f ← post_rest l; mret (match f with
                               | Some k => Some (Invoking k)
                               | None => None
                               end)) sc w o w1 ->
  inv (add_tokens (- adopted (Dispatching l)) (set_acts (replace_act j o (acts w1)) w1)).
Proof.
  intros I Ha He. pose proof (i_wf w I) as W.
  eapply (exec_wp _ (fun o s' => this s' = sock w
      /\ o = match l with [] => None | k :: _ => Some (Invoking k) end
      /\ summary (log s') = match l with [] => [] | _ :: rest => [deferred rest] end)) in He
    as (s' & (E & -> & El) & _ & ->).
  2: { im_step. eapply wp_mono; [apply post_rest_spec, I|].
       intros f s' (? & ? & -> & ?). im_steps. by destruct l. }
  rewrite El, E. assert (L : impl_le (sock w) (sock w)) by (intros i; reflexivity).
  destruct l as [|k l]; (eapply inv_quiet; wsimpl; try exact I; try done).
  - intros i. rewrite (zsum_replace _ _ _ _ _ Ha). cbn. lia.
  - rewrite (zsum_replace _ _ _ _ _ Ha). cbn [units length]. lia.
  - rewrite (zsum_replace _ _ _ _ _ Ha). cbn. lia.
  - apply Forall_replace; [|done]. by eapply (acts_kept w).
  - intros i. rewrite (zsum_replace _ _ _ _ _ Ha), zsum_app, queued_ops. cbn.
    unfold occ, is_op. cbn. lia.
  - rewrite (zsum_replace _ _ _ _ _ Ha). cbn [units length]. lia.
  - rewrite (zsum_replace _ _ _ _ _ Ha), zsum_app, desc_queued_ops. cbn. lia.
  - apply Forall_replace; [by eapply (acts_kept w)|]. by intros a' [= <-].
Qed.

Lemma waits_insert f k v c :
  own k <> None ->
  zsum (waits_for (<[k := v]> f) c) all_ops
  = zsum (waits_for f c) all_ops - waits_for f c k + b2z (bool_decide (v = Some c)).
Proof.
  intros Hk.
  assert (E : forall i, waits_for (<[k := v]> f) c i
    = waits_for f c i + (b2z (bool_decide (v = Some c)) - waits_for f c k) * is_op i k).
  { intros i. destruct (decide (i = k)) as [->|Hi].
    - rewrite is_op_eq. unfold waits_for at 1. rewrite fn_lookup_insert. lia.
    - rewrite is_op_ne by done. unfold waits_for at 1. rewrite fn_lookup_insert_ne by done.
      unfold waits_for. lia. }
  rewrite (zsum_ext _ _ _ (fun i _ => E i)), zsum_add, zsum_mul, is_op_total by done. lia.
Qed.

Lemma invoke_step w j k sc o w1 :
  inv w -> acts w !! j = Some (Invoking k) ->
  existsb (is_cancelling k) (acts w) = false -> script_ok sc ->
  exec (invoke k ≫= fun _ => mret None) sc w o w1 ->
  inv (set_waiting k None (add_tokens 0 (set_acts (replace_act j o (acts w1)) w1))).
Proof.
  intros I Ha Hc Hok He. pose proof (i_wf w I) as W.
  destruct (held w j _ k I Ha) as (co & Ew & Hk & A & Hp & Hq & Hh); [cbn; rewrite is_op_eq; lia|].
  eapply (exec_wp _ (fun o s' => o = None /\ completed (enter w sc) k s')) in He
    as (s' & (-> & (_ & Ed & Eo & Ek & El)) & _ & ->).
  2: { im_step. eapply wp_mono; [apply (invoke_spec k co); try done; apply I|].
       intros [] s' C. by im_steps. }
  change (summary (log (enter w sc))) with (@nil effect) in El.
  assert (Eh : h (op_of (enter w sc) k) = co) by apply A. rewrite Eh in El. clear Eh.
  rewrite El. destruct I. split; wsimpl; rewrite ?Ed; try done.
  - intros i. rewrite (zsum_replace _ _ _ _ _ Ha). specialize (i_place0 i).
    destruct (decide (i = k)) as [->|Hi].
    + rewrite fn_lookup_insert, b2z_some. cbn. rewrite is_op_eq. lia.
    + rewrite fn_lookup_insert_ne by done. cbn. rewrite is_op_ne by congruence. lia.
  - rewrite (zsum_replace _ _ _ _ _ Ha). cbn [units]. lia.
  - rewrite (zsum_replace _ _ _ _ _ Ha). cbn [deferring]. lia.
  - intros c. rewrite occ_app, waits_insert by done. rewrite i_hist0.
    unfold waits_for at 3. rewrite Ew. unfold occ at 3. cbn.
    rewrite (bool_decide_false (None = Some c)) by done.
    destruct (decide (co = c)) as [->|]; [rewrite !bool_decide_true by done|
      rewrite !bool_decide_false by congruence]; cbn; lia.
  - intros i. destruct (decide (i = k)) as [->|Hi]; [rewrite Ek|rewrite Eo by done];
      apply i_kind0.
  - intros i. destruct (decide (i = k)) as [->|Hi]; [rewrite Ek|rewrite Eo by done];
      apply i_load0.
  - intros i i' Hown. destruct (decide (i = k)) as [->|Hi];
      [by rewrite fn_lookup_insert; intros []|]. rewrite fn_lookup_insert_ne by done.
    destruct (decide (i' = k)) as [->|Hi']; [by rewrite fn_lookup_insert; intros _ []|].
    rewrite fn_lookup_insert_ne by done. by apply i_one0.
  - intros i c. destruct (decide (i = k)) as [->|Hi]; [by rewrite fn_lookup_insert|].
    rewrite fn_lookup_insert_ne by done. rewrite Eo by done. apply i_armed0.
  - intros i. destruct (decide (i = k)) as [->|Hi]; [by rewrite Ek|].
    rewrite fn_lookup_insert_ne by done. rewrite Eo by done. apply i_stop0.
  - apply Forall_replace; [|done]. apply list.Forall_forall. intros b Hb.
    pose proof (proj1 (list.Forall_forall _ _) i_acts0 b Hb) as Hb'.
    assert (C : forall i, cancelled (op_of s' i) = cancelled (O w i)).
    { intros i. destruct (decide (i = k)) as [->|Hi]; [by rewrite Ek|by rewrite Eo]. }
    destruct b; cbn in *; try done; try (intros; rewrite C; by apply Hb').
    rewrite C. destruct Hb' as [H1 H2]. split; [done|].
    rewrite fn_lookup_insert_ne; [done|]. intros <-.
    assert (X : existsb (is_cancelling k) (acts w) = true).
    { apply existsb_exists. exists (Cancelling k).
      split; [by apply list_elem_of_In|]. cbn. by apply bool_decide_true. }
    congruence.
Qed.

(** What an initiation leaves alone besides its operation. *)
Lemma idle_acts w k w' :
  inv w -> waiting w k = None -> existsb user_busy (acts w) = false ->
  (forall i, i <> k -> O w' i = O w i) -> (forall i, i <> k -> waiting w' i = waiting w i) ->
  Forall (act_ok w') (acts w).
Proof.
  intros I Ew Hb Eo Ewt. apply list.Forall_forall. intros b Hin.
  pose proof (proj1 (list.Forall_forall _ _) (i_acts w I) b Hin) as Hok.
  assert (Hu : user_busy b = false).
  { destruct (user_busy b) eqn:E; [|done]. rewrite <- Hb. symmetry. apply existsb_exists.
    exists b. split; [by apply list_elem_of_In|done]. }
  destruct b as [| i | | |l [|]| | | |]; cbn in *; try done.
  - assert (i <> k) by (intros ->; destruct Hok as [_ [c Hc]]; congruence).
    by rewrite Eo, Ewt.
  - intros i Hi. apply list_elem_of_lookup in Hin as [j Hj].
    destruct (held w j _ i I Hj) as (co & Ei & _); [cbn; by apply occ_elem|].
    rewrite Eo by congruence. by apply Hok.
Qed.

(** The state of a world after operation [k] was initiated by [co]. *)
Lemma inv_started w w' k co :
  inv w -> (forall i, own i = own k -> waiting w i = None) -> own k <> None ->
  (forall i, load_ok (load (O w i)) -> load_ok (load (O w' i))) ->
  (forall i, i <> k -> O w' i = O w i) -> kind (load (O w' k)) = kind (load (O w k)) ->
  armed k co (O w' k) -> same_slots (D w) (D w') -> waiting w' = <[k := Some co]> (waiting w) ->
  started w' = started w ++ [co] -> ended w' = ended w -> tokens w' = tokens w ->
  (forall i, zsum (queued i) (queue w') + zsum (hold i) (acts w')
             = zsum (queued i) (queue w) + zsum (hold i) (acts w) + is_op i k) ->
  zsum units (acts w') = zsum units (acts w) ->
  zsum desc_queued (queue w') + zsum deferring (acts w')
  = zsum desc_queued (queue w) + zsum deferring (acts w) ->
  Forall (act_ok w') (acts w') ->
  inv w'.
Proof.
  intros [] Ews Hk Hld Eo Ekd A (S & Q1 & Q2 & Q3 & Q4) Ewt Es Ee Et Hp Hu Hd Ha.
  pose proof (Ews k eq_refl) as Ew.
  assert (S' : forall x, slots (D w') x = slots (D w) x) by (by rewrite S).
  split; rewrite ?Ewt, ?Es, ?Ee, ?Et, ?Q1, ?Q3; try done.
  - by eapply wf_ext.
  - intros i. specialize (i_place0 i). specialize (Hp i). rewrite (parked_ext _ _ S').
    destruct (decide (i = k)) as [->|Hi].
    + rewrite fn_lookup_insert, b2z_some. rewrite is_op_eq in Hp.
      rewrite Ew, b2z_some in i_place0. lia.
    + rewrite fn_lookup_insert_ne by done. rewrite is_op_ne in Hp by congruence. lia.
  - rewrite (zsum_ext _ _ _ (fun x _ => parked_ext _ _ S' x)). lia.
  - lia.
  - intros c. rewrite occ_app, waits_insert by done. rewrite i_hist0.
    unfold waits_for at 3. rewrite Ew. unfold occ at 2. cbn.
    rewrite (bool_decide_false (None = Some c)) by done.
    destruct (decide (co = c)) as [->|]; [rewrite !bool_decide_true by done|
      rewrite !bool_decide_false by congruence]; cbn; lia.
  - intros i. destruct (decide (i = k)) as [->|Hi]; [rewrite Ekd|rewrite Eo by done];
      apply i_kind0.
  - auto.
  - intros i i' Hown. destruct (decide (i = k)) as [->|Hi].
    + destruct (decide (i' = k)) as [->|Hi']; [done|]. rewrite (fn_lookup_insert_ne _ k i') by done.
      intros _ []. rewrite Ews in H by done. done.
    + rewrite (fn_lookup_insert_ne _ k i) by done.
      destruct (decide (i' = k)) as [->|Hi']; [intros []; rewrite Ews in H by done; done|].
      rewrite (fn_lookup_insert_ne _ k i') by done. by apply i_one0.
  - intros i c. destruct (decide (i = k)) as [->|Hi].
    + rewrite fn_lookup_insert. by intros [= <-].
    + rewrite fn_lookup_insert_ne by done. rewrite Eo by done. apply i_armed0.
  - intros i. destruct (decide (i = k)) as [->|Hi]; [rewrite fn_lookup_insert; eauto|].
    rewrite fn_lookup_insert_ne by done. rewrite Eo by done. apply i_stop0.
Qed.

Lemma slot_free_spec w k i :
  inv w -> slot_free w k = true -> own i = own k -> waiting w i = None.
Proof.
  intros I Hf Ho. unfold slot_free in Hf. rewrite forallb_forall in Hf.
  destruct (waiting w i) as [co|] eqn:E; [exfalso|done].
  destruct (i_armed w I i co E) as [Hi _].
  specialize (Hf i (proj1 (list_elem_of_In _ _) (proj2 (all_ops_own i) Hi))).
  rewrite E in Hf. rewrite bool_decide_false in Hf by (by intros ?).
  by rewrite bool_decide_false in Hf.
Qed.

Lemma init_step w rq token budget co sc r w1 :
  inv w -> slot_free w (op_for rq) = true -> existsb user_busy (acts w) = false -> script_ok sc ->
  exec (initiate budget co token rq) sc w r w1 ->
  inv (add_started co (match r with
                       | dispatched => w1
                       | noop_coroutine => set_waiting (op_for rq) (Some co) w1
                       | parking s f dir =>
                           set_acts (acts w1 ++ [Starting (op_for rq) s f dir])
                             (set_waiting (op_for rq) (Some co) w1)
                       end)).
Proof.
  intros I Hf Hb Hok He. pose proof (op_for_own rq) as Hk. set (k := op_for rq) in *.
  pose proof (fun i => slot_free_spec w k i I Hf) as Ews. pose proof (Ews k eq_refl) as Ew.
  assert (Hp : parked own (D w) k = 0).
  { pose proof (i_place w I k) as P. rewrite Ew, b2z_some in P.
    pose proof (zsum_nonneg (hold k) (acts w) (hold_nonneg k)).
    pose proof (zsum_nonneg (queued k) (queue w) (queued_nonneg k)).
    pose proof (parked_le_1 own (D w) k). lia. }
  eapply (exec_wp _ (fun r s' => initiated k co r (enter w sc) s')) in He
    as (s' & (s1 & T & E & _ & El & Hst & Har & Hsl) & _ & ->).
  2: { apply initiate_spec; try done; [|apply I|apply I].
       intros sl Hsl. by apply (parked_0 own); [apply I|]. }
  destruct (t_loads _ _ _ T Hok) as [_ Hld].
  rewrite (t_log _ _ _ T) in El. change (summary (log (enter w sc))) with (@nil effect) in El.
  rewrite El, E. destruct (t_desc _ _ _ T) as (S & Q1 & Q2 & Q3 & Q4).
  assert (Q : Forall (fun a => forall w', (forall i, i <> k -> O w' i = O w i) ->
      (forall i, i <> k -> waiting w' i = waiting w i) -> act_ok w' a) (acts w)).
  { apply list.Forall_forall. intros b Hin w' H1 H2.
    exact (proj1 (list.Forall_forall _ _) (idle_acts w k w' I Ew Hb H1 H2) b Hin). }
  assert (Q' : forall w', (forall i, i <> k -> O w' i = O w i) ->
      (forall i, i <> k -> waiting w' i = waiting w i) -> Forall (act_ok w') (acts w))
    by (intros; eapply list.Forall_impl; [exact Q|]; auto).
  destruct r as [| |sl f dir]; cbn [logs_of app].
  - assert (S' : forall x, slots (desc_of s1) x = slots (D w) x) by (by rewrite S).
    destruct I. split; wsimpl; rewrite ?Q1, ?Q3; try done.
    + by eapply wf_ext.
    + intros i. by rewrite (parked_ext _ _ S').
    + by rewrite (zsum_ext _ _ _ (fun x _ => parked_ext _ _ S' x)).
    + intros c. rewrite !occ_app, i_hist0. lia.
    + intros i. destruct (decide (i = k)) as [->|Hi]; [rewrite (t_kind _ _ _ T)|
        rewrite (t_ops _ _ _ T) by done]; apply i_kind0.
    + intros i. apply Hld, i_load0.
    + intros i c Hi. rewrite (t_ops _ _ _ T) by congruence. by apply i_armed0.
    + intros i. destruct (decide (i = k)) as [->|Hi]; [rewrite Hst by done|
        rewrite (t_ops _ _ _ T) by done]; apply i_stop0.
    + apply Q'; wsimpl; [apply T|done].
  - eapply (inv_started w _ k co); wsimpl; try done.
    + apply T.
    + apply T.
    + by apply Har.
    + intros i. rewrite zsum_snoc. cbn. lia.
    + rewrite zsum_snoc. cbn. lia.
    + apply Q'; wsimpl; [apply T|]. intros i Hi. by rewrite fn_lookup_insert_ne.
  - eapply (inv_started w _ k co); wsimpl; try done.
    + apply T.
    + apply T.
    + by apply Har.
    + intros i. rewrite zsum_snoc. cbn. lia.
    + rewrite zsum_snoc. cbn. lia.
    + rewrite zsum_snoc. cbn. lia.
    + apply Forall_app. split; [|repeat constructor; by eapply Hsl].
      apply Q'; wsimpl; [apply T|]. intros i Hi. by rewrite fn_lookup_insert_ne.
Qed.

(** Steps that add an activity that holds nothing. *)
Lemma inv_add_act w i a :
  inv w -> impl_le (sock w) i -> slots (desc_state_ i) = slots (D w) ->
  same_queueing (D w) (desc_state_ i) ->
  (forall k, hold k a = 0) -> units a = 0 -> deferring a = 0 ->
  (forall k, load (ops i k) = load (O w k)) ->
  act_ok (set_sock i w) a ->
  inv (set_acts (acts w ++ [a]) (set_sock i w)).
Proof.
  intros I L S [Q1 Q2] Hh Hu Hd Hld Hok.
  assert (S' : forall x, slots (desc_state_ i) x = slots (D w) x) by (by rewrite S).
  eapply inv_quiet; wsimpl; try exact I; try done.
  - eapply wf_ext; [done|apply I].
  - intros k. rewrite zsum_snoc, Hh, (parked_ext _ _ S'). lia.
  - rewrite zsum_snoc, Hu, (zsum_ext _ _ _ (fun x _ => parked_ext _ _ S' x)). lia.
  - rewrite zsum_snoc, Hd, Q1. lia.
  - intros k. by rewrite Hld.
  - apply Forall_app. split; [by eapply (acts_kept w)|]. constructor; [|constructor].
    eapply act_ok_mono; [| |exact Hok]; [|done]. intros j. reflexivity.
Qed.

(** [cancel] and [close] mark every operation first. *)
Lemma request_step w a w1 :
  inv w -> exec request_cancel_all [] w tt w1 -> a = CancelAll \/ a = CloseAll ->
  inv (set_acts (acts w1 ++ [a]) w1).
Proof.
  intros I He Ha.
  eapply (exec_wp _ (fun _ s' => (owns s' = false /\ desc_of s' = D w
      /\ impl_le (sock w) (this s') /\ (forall k, k ∈ all_ops -> cancelled (op_of s' k) = true)
      /\ log s' = []) /\ forall k, load (op_of s' k) = load (O w k))) in He
    as (s' & ((_ & Ed & L & C & El) & Eld) & _ & ->).
  2: { apply wp_and; [apply request_cancels|apply request_cancels_load]. }
  rewrite El. apply (inv_add_act w (this s')); try done; try (by rewrite Ed);
    destruct Ha as [-> | ->]; done.
Qed.

Lemma socket_step_inv lab w w' : inv w -> step notify lab w w' -> inv w'.
Proof.
  intros I H. destruct H as
    [w rq token budget co sc r w1 Hf Hb Hok He
    |lab w j a m sc o w1 Ha Hm Hc Hok He
    |w k w1 Hst He|w w1 He|w w1 Hb He|w ev w1 He|w j b w1 Ha He|w j e Hq].
  - by eapply init_step.
  - assert (Z0 : forall w, add_tokens 0 w = w)
      by (intros []; unfold add_tokens; cbn; by rewrite Z.add_0_r).
    destruct a as [k sl r dir|k| | |[|k l] b| | |l|k]; destruct lab; try done; cbn in Hm;
      injection Hm as <-; cbn [after_act]; try (cbn [adopted Z.opp]; rewrite Z0).
    + by eapply register_step.
    + by eapply claim_step.
    + by eapply claim_step.
    + by eapply claim_step.
    + by eapply finish_step.
    + by eapply repost_step.
    + by eapply deferred_step.
    + by eapply post_rest_step.
    + rewrite <- (Z0 (set_acts _ _)). eapply invoke_step; eauto.
  - destruct He as (s' & [= <-] & _ & ->). wsimpl.
    apply inv_add_act; try done.
    + intros i. destruct (decide (i = k)) as [->|Hi]; [|by cbn; rewrite fn_lookup_insert_ne].
      cbn. by rewrite fn_lookup_insert.
    + intros i. cbn. destruct (decide (i = k)) as [->|Hi]; [by rewrite fn_lookup_insert|].
      by rewrite fn_lookup_insert_ne.
    + cbn. rewrite fn_lookup_insert. split; [done|]. by apply I.
  - eapply request_step; [done|exact He|by left].
  - eapply request_step; [done|exact He|by right].
  - destruct He as (s' & [= <-] & _ & ->). wsimpl. by apply inv_add_act.
  - eapply (exec_wp _ (fun b s' => b = negb (is_enqueued_ (D w)) /\ ops (this s') = ops (sock w)
        /\ slots (desc_of s') = slots (D w) /\ is_enqueued_ (desc_of s') = true
        /\ scheduler_ (desc_of s') = scheduler_ (D w) /\ log s' = [])) in He
      as (s' & (-> & Eo & Es & Eq & Eh & El) & _ & ->).
    2: { unfold try_enqueue. im_steps. destruct (is_enqueued_ _) eqn:Eq; im_steps; done. }
    rewrite El. change (summary []) with (@nil effect).
    assert (S' : forall x, slots (desc_of s') x = slots (D w) x) by (by rewrite Es).
    assert (L : impl_le (sock w) (this s')) by (intros i; by rewrite Eo).
    assert (Hd : forall f : act -> Z, f Reporting = 0 ->
      zsum f (delete j (acts w)) = zsum f (acts w)).
    { intros f Hf. rewrite (zsum_delete _ _ _ _ Ha), Hf. lia. }
    destruct (is_enqueued_ (D w)) eqn:Eqw; cbn [negb];
      (eapply inv_quiet; wsimpl; try exact I; try done).
    + eapply wf_ext; [done|apply I].
    + intros k. by rewrite (parked_ext _ _ S'), Hd.
    + rewrite Hd, (zsum_ext _ _ _ (fun x _ => parked_ext _ _ S' x)) by done. done.
    + rewrite Hd, Eq, Eqw by done. done.
    + by rewrite Eo.
    + apply list.Forall_delete. by eapply (acts_kept w).
    + eapply wf_ext; [done|apply I].
    + intros k. rewrite (parked_ext _ _ S'), Hd, zsum_snoc by done. cbn. lia.
    + rewrite Hd, (zsum_ext _ _ _ (fun x _ => parked_ext _ _ S' x)) by done. done.
    + rewrite Hd, Eq, Eqw, zsum_snoc by done. cbn. lia.
    + by rewrite Eo.
    + apply list.Forall_delete. by eapply (acts_kept w).
  - assert (L : impl_le (sock w) (sock w)) by (intros i; reflexivity).
    eapply inv_quiet; wsimpl; try exact I; try done.
    + apply I.
    + intros k. rewrite zsum_snoc, (zsum_delete _ _ _ _ Hq). destruct e; cbn; lia.
    + rewrite zsum_snoc. destruct e; cbn [units]; lia.
    + rewrite zsum_snoc, (zsum_delete _ _ _ _ Hq). destruct e; cbn; lia.
    + apply Forall_app. split; [by eapply (acts_kept w)|]. by destruct e; repeat constructor.
Qed.

Lemma socket_init_inv f : inv (init_world f).
Proof.
  assert (P : forall k, parked own (D (init_world f)) k = 0)
    by (intros k; apply parked_empty; by intros []).
  split; try done.
  - by intros [].
  - intros k. by rewrite P.
  - cbn. by rewrite zsum_zero.
  - intros co. cbn. by rewrite zsum_zero.
  - apply loads_new.
  - by intros j k _ [].
Qed.

Lemma socket_reachable_inv f w : reachable notify f w -> inv w.
Proof.
  unfold reachable. intros H. remember (init_world f) as w0 eqn:E.
  assert (I : inv w0) by (subst; apply socket_init_inv). clear E.
  induction H as [|w0 w1 w2 [lab H] _ IH]; [done|]. apply IH. by eapply socket_step_inv.
Qed.

End step_lemmas.

End socket_inv.
