(* ===== verification/StreamSpec.v ===== *)
(** Stream sockets as a kind of socket: their requests, and what the code that
    initiates each of them does. *)

From stdpp Require Import functions sets.
From S2P Require Import Prelude StateMonad Ipv4 Ipv6 Endpoint Sockaddr ReactorOp DescriptorState.
From S2P Require Import BasicSocket StreamSocket DescriptorSpec SocketSteps SocketSpec.
Import reactor_op reactor_descriptor_state basic_socket stream_socket.

#[local] Existing Instance stream_derived.

(** What a coroutine asks for. *)
Inductive stream_request :=
| Connect (ep : endpoint.t)
| Read (buffers : list iovec)
| Write (buffers : list iovec)
| Wait (w : wait_type).

Definition stream_op (rq : stream_request) : op_id :=
  match rq with
  | Connect _ => conn_
  | Read _ => rd_
  | Write _ => wr_
  | Wait wait_read => wait_rd_
  | Wait wait_write => wait_wr_
  | Wait wait_error => wait_er_
  end.

(** The awaitable's outputs are located by its coroutine. *)
Definition stream_initiate (budget : bool) (co : nat) (token : stop_token)
    (rq : stream_request) : IM outcome :=
  match rq with
  | Connect ep => do_connect budget co ep token co
  | Read bufs => do_read_some budget co bufs token co co
  | Write bufs => do_write_some budget co bufs token co co
  | Wait w => do_wait budget co w token co
  end.

Definition stream_load (k : op_id) : payload :=
  match k with
  | conn_ => connect_op endpoint.default
  | rd_ => read_op [] false
  | wr_ => write_op []
  | wait_rd_ | wait_wr_ | wait_er_ => wait_op 0
  | recv_rd_ => recv_op [] 0
  | send_wr_ => send_op [] 0
  | acc_ => accept_op (-1) None ss_zero 0
  end.

#[local] Instance stream_kind : socket_kind :=
  mk_kind stream_request stream_op stream_initiate stream_load.

Lemma do_connect_spec budget co ep token s0 :
  owns s0 = false -> slots (desc_of s0) connect_slot <> Some conn_ ->
  kind (load (op_of s0 conn_)) = k_connect -> script_ok (script s0) ->
  wp (do_connect budget co ep token co) (fun r s' => initiated conn_ co r s0 s') s0.
Proof.
  intros Ho Hs Hk Hok. unfold do_connect. do 2 im_step.
  apply (sys_then _ _ conn_ _ s0 s0 (touches_refl _ _)). intros fam s1 T1 E1 _.
  apply (sys_then _ _ conn_ _ s0 s1 T1). intros res s2 T2 E2 _. im_step.
  eapply wp_mono; [apply (connected_spec res _ ep s0); [done|congruence|done]|].
  intros [] s3 [T3 E3]. by apply connect_outcome.
Qed.

Lemma start_parking k sl co token f r d s0 s :
  own k = Some sl -> owns s0 = false -> slots (desc_of s0) sl <> Some k -> touches k s0 s ->
  wp (set_waiter_bytes k co co co ≫= fun _ => upd_op k (set_fd f) ≫= fun _ =>
      start k token ≫= fun _ => upd_op k (set_impl_ptr true) ≫= fun _ =>
      mret (parking sl r d))
    (fun r s' => initiated k co r s0 s') s.
Proof.
  intros Hk Ho Hs T. unfold set_waiter_bytes. do 4 im_step.
  apply park_started; rewrite ?with_op_eq; try done.
  eapply touches_trans; [eapply touches_trans; [exact T|]|]; by apply touches_op.
Qed.

Lemma try_at f iov k s0 s :
  touches k s0 s ->
  wp (try_read f iov) (fun _ s' => touches k s0 s' /\ this s' = this s) s
  /\ wp (try_write f iov) (fun _ s' => touches k s0 s' /\ this s' = this s) s.
Proof.
  intros T.
  assert (R : forall c, wp (call_retry c) (fun _ s' => touches k s0 s' /\ this s' = this s) s).
  { intros c. eapply wp_mono; [apply call_retry_sys|]. intros a s' H.
    split; [|apply H]. eapply touches_trans; [exact T|exact (sys_touches _ _ _ _ H)]. }
  split; [unfold try_read|unfold try_write]; destruct iov as [|b [|]]; apply R.
Qed.

Lemma do_read_some_spec budget co bufs token s0 :
  owns s0 = false -> slots (desc_of s0) read_slot <> Some rd_ ->
  kind (load (op_of s0 rd_)) = k_read ->
  wp (do_read_some budget co bufs token co co) (fun r s' => initiated rd_ co r s0 s') s0.
Proof.
  intros Ho Hs Hk. unfold do_read_some. im_steps. cbn zeta.
  pose proof (reset_touches rd_ s0) as T0.
  assert (T1 : forall iov b, touches rd_ s0 (with_op rd_ (set_load (read_op iov b))
                                               (with_op rd_ reset s0)))
    by (intros; by apply load_touches).
  destruct (zero_length _); im_step; im_step.
  { by apply (start_posted rd_ read_slot). }
  im_steps. eapply wp_mono; [apply (try_at _ _ rd_ s0 _ (T1 _ _))|].
  intros a s1 [T E]. cbn zeta. destruct (_ || _); [destruct budget|].
  - apply finish_inline_spec; [done|]. by rewrite E.
  - by apply (start_posted rd_ read_slot).
  - by apply (start_parking rd_ read_slot).
Qed.

Lemma do_write_some_spec budget co bufs token s0 :
  owns s0 = false -> slots (desc_of s0) write_slot <> Some wr_ ->
  kind (load (op_of s0 wr_)) = k_write ->
  wp (do_write_some budget co bufs token co co) (fun r s' => initiated wr_ co r s0 s') s0.
Proof.
  intros Ho Hs Hk. unfold do_write_some. im_steps. cbn zeta.
  pose proof (reset_touches wr_ s0) as T0.
  destruct (zero_length _).
  { by apply (start_posted wr_ write_slot). }
  im_steps.
  match goal with |- wp _ _ ?s => assert (T1 : touches wr_ s0 s) by (by apply load_touches) end.
  eapply wp_mono; [apply (try_at _ _ wr_ s0 _ T1)|].
  intros a s1 [T E]. cbn zeta. destruct (_ || _); [destruct budget|].
  - apply finish_inline_spec; [done|]. by rewrite E.
  - by apply (start_posted wr_ write_slot).
  - by apply (start_parking wr_ write_slot).
Qed.

Lemma do_wait_spec budget co w token s0 :
  let k := stream_op (Wait w) in
  owns s0 = false -> (forall sl, own k = Some sl -> slots (desc_of s0) sl <> Some k) ->
  kind (load (op_of s0 k)) = k_wait ->
  wp (do_wait budget co w token co) (fun r s' => initiated k co r s0 s') s0.
Proof.
  intros k Ho Hs Hk. unfold do_wait. destruct w; cbn in k.
  - apply (wait_parking k); auto.
  - destruct budget; [by apply finish_inline_spec; [apply touches_refl|]|].
    apply (wait_posted _ wait_write_slot); auto.
  - apply (wait_parking k); auto.
Qed.

#[local] Instance stream_laws : socket_laws.
Proof.
  split.
  - intros k. split; [|destruct k; try done; intros _; cbn; repeat constructor].
    intros Hk. by destruct k; try done; exfalso; cbn in Hk; set_solver.
  - cbn. repeat constructor; set_solver.
  - intros k sl Hk. cbn in Hk. unfold stream_entries in Hk. set_solver.
  - intros []; eexists; cbn; unfold stream_entries; repeat constructor.
  - by intros [| | |[]].
  - by intros [].
  - by intros [].
  - intros budget co token rq s0 Ho Hs Hk _ Hok. destruct rq; cbn in Hs, Hk.
    + apply do_connect_spec; auto.
    + apply do_read_some_spec; auto.
    + apply do_write_some_spec; auto.
    + apply do_wait_spec; auto. by destruct w.
Qed.
