(* ===== verification/DatagramSpec.v ===== *)
(** Datagram sockets as a kind of socket: their requests, and what the code that
    initiates each of them does. *)

From stdpp Require Import functions sets.
From S2P Require Import Prelude StateMonad Ipv4 Ipv6 Endpoint Sockaddr ReactorOp DescriptorState.
From S2P Require Import BasicSocket DatagramSocket DescriptorSpec SocketSteps SocketSpec.
Import reactor_op reactor_descriptor_state basic_socket datagram_socket.

#[local] Existing Instance datagram_derived.

(** What a coroutine asks for. *)
Inductive datagram_request :=
| Dgram_connect (ep : endpoint.t)
| Send_to (buffers : list iovec) (dest : endpoint.t) (flags : Z)
| Recv_from (buffers : list iovec) (source : option nat) (flags : Z)
| Send (buffers : list iovec) (flags : Z)
| Recv (buffers : list iovec) (flags : Z)
| Dgram_wait (w : wait_type).

Definition datagram_op (rq : datagram_request) : op_id :=
  match rq with
  | Dgram_connect _ => conn_
  | Send_to _ _ _ => wr_
  | Recv_from _ _ _ => rd_
  | Send _ _ => send_wr_
  | Recv _ _ => recv_rd_
  | Dgram_wait wait_read => wait_rd_
  | Dgram_wait wait_write => wait_wr_
  | Dgram_wait wait_error => wait_er_
  end.

(** The awaitable's outputs are located by its coroutine. *)
Definition datagram_initiate (budget : bool) (co : nat) (token : stop_token)
    (rq : datagram_request) : IM outcome :=
  match rq with
  | Dgram_connect ep => do_connect budget co ep token co
  | Send_to bufs dest flags => do_send_to budget co bufs dest flags token co co
  | Recv_from bufs source flags => do_recv_from budget co bufs source flags token co co
  | Send bufs flags => do_send budget co bufs flags token co co
  | Recv bufs flags => do_recv budget co bufs flags token co co
  | Dgram_wait w => do_wait budget co w token co
  end.

Definition datagram_load (k : op_id) : payload :=
  match k with
  | conn_ => connect_op endpoint.default
  | rd_ => recv_from_op [] ss_zero 0 None 0
  | wr_ => send_to_op [] ss_zero (len_un 0) 0
  | recv_rd_ => recv_op [] 0
  | send_wr_ => send_op [] 0
  | wait_rd_ | wait_wr_ | wait_er_ => wait_op 0
  | acc_ => accept_op (-1) None ss_zero 0
  end.

#[local] Instance datagram_kind : socket_kind :=
  mk_kind datagram_request datagram_op datagram_initiate datagram_load.

Lemma query_family_spec k f s0 s :
  touches k s0 s ->
  wp (query_family f) (fun _ s' => touches k s0 s' /\ this s' = this s) s.
Proof.
  intros T. unfold query_family. im_step. eapply wp_mono; [apply call_sys|].
  intros a s' H. im_steps. split; [|apply H].
  eapply touches_trans; [exact T|exact (sys_touches _ _ _ _ H)].
Qed.

(** What may follow a speculative call: nothing, or writing the source. *)
Definition captures (k : op_id) (s0 : st) (capture : IM unit) (s : st) : Prop :=
  forall s1, touches k s0 s1 -> this s1 = this s ->
    wp capture (fun _ s' => touches k s0 s' /\ this s' = this s) s1.

Lemma finish_transfer_spec k sl budget co token a capture r dir s0 s :
  own k = Some sl -> owns s0 = false -> slots (desc_of s0) sl <> Some k -> touches k s0 s ->
  stop_cb (op_of s k) = stop_cb (op_of s0 k) -> captures k s0 capture s ->
  wp (finish_transfer k budget co token co co a capture sl r dir)
    (fun r s' => initiated k co r s0 s') s.
Proof.
  intros Hk Ho Hs T Hst Hc. unfold finish_transfer. cbn zeta.
  destruct (_ || _); [destruct budget|].
  - do 4 im_step. match goal with |- wp _ _ ?s' => set (s1 := s') end.
    assert (T1 : touches k s0 s1 /\ this s1 = this s).
    { split; [|done]. do 2 (eapply touches_trans; [|by apply touches_log]). exact T. }
    im_step. eapply (wp_mono _ (fun _ s' => touches k s0 s' /\ this s' = this s)).
    { destruct (_ && _); [apply Hc; apply T1|by im_steps]. }
    intros [] s2 [T2 E2]. im_steps. exists s2. split; [done|]. do 2 (split; [done|]).
    split; [apply summary_app|]. rewrite E2. by repeat split.
  - by apply (start_posted k sl).
  - unfold set_waiter_bytes. do 2 im_step. apply park_started; rewrite ?with_op_eq; try done.
    eapply touches_trans; [exact T|by apply touches_op].
Qed.

(** The operation is filled in, its call is made, and [rest] follows. *)
Lemma transfer_spec k p f c co (rest : answer -> IM outcome) s0 s :
  kind p = kind (load (op_of s0 k)) -> load_ok p ->
  touches k s0 s -> stop_cb (op_of s k) = stop_cb (op_of s0 k) ->
  (forall a s1, touches k s0 s1 -> stop_cb (op_of s1 k) = stop_cb (op_of s0 k) ->
     (script_ok (script s0) -> answer_ok a) -> load (op_of s1 k) = p ->
     wp (rest a) (fun r s' => initiated k co r s0 s') s1) ->
  wp (upd_op k (fun o => set_load p (set_fd f o)) ≫= fun _ => call_retry c ≫= rest)
    (fun r s' => initiated k co r s0 s') s.
Proof.
  intros Hp Hl T Hst Hrest. do 2 im_step.
  match goal with |- wp _ _ ?s' => set (s1 := s') end.
  assert (T1 : touches k s0 s1) by (by apply op_touches).
  assert (E1 : stop_cb (op_of s1 k) = stop_cb (op_of s0 k)) by (unfold s1; by rewrite with_op_eq).
  assert (L1 : load (op_of s1 k) = p) by (unfold s1; by rewrite with_op_eq).
  im_step. eapply wp_mono; [apply call_retry_sys|]. intros a s2 H2.
  assert (T2 : touches k s0 s2) by (eapply touches_trans; [exact T1|exact (sys_touches _ _ _ _ H2)]).
  destruct H2 as (E2 & _ & _ & A2). apply Hrest; rewrite ?E2; try done.
  intros Hok. apply A2, (t_loads _ _ _ T1), Hok.
Qed.

(** Sends and connected receives, which store nothing else. *)
Lemma plain_transfer k sl p f c budget co token r dir s0 s :
  own k = Some sl -> owns s0 = false -> slots (desc_of s0) sl <> Some k ->
  kind p = kind (load (op_of s0 k)) -> load_ok p ->
  touches k s0 s -> stop_cb (op_of s k) = stop_cb (op_of s0 k) ->
  wp (upd_op k (fun o => set_load p (set_fd f o)) ≫= fun _ => call_retry c ≫= fun a =>
      finish_transfer k budget co token co co a skip sl r dir)
    (fun r s' => initiated k co r s0 s') s.
Proof.
  intros. apply transfer_spec; try done. intros a s1 T1 E1 _ _.
  by apply finish_transfer_spec.
Qed.

Lemma do_send_to_spec budget co bufs dest flags token s0 :
  owns s0 = false -> slots (desc_of s0) write_slot <> Some wr_ ->
  kind (load (op_of s0 wr_)) = k_send_to ->
  wp (do_send_to budget co bufs dest flags token co co) (fun r s' => initiated wr_ co r s0 s') s0.
Proof.
  intros Ho Hs Hk. unfold do_send_to. do 2 im_step. cbn zeta. do 3 im_step.
  eapply wp_mono; [apply (query_family_spec wr_ _ s0), reset_touches|]. intros fam s1 [T1 E1].
  destruct (to_sockaddr_family _ _ _ _) as [storage len].
  apply plain_transfer; try done. rewrite E1. by rewrite with_op_eq.
Qed.

Lemma do_send_spec budget co bufs flags token s0 :
  owns s0 = false -> slots (desc_of s0) write_slot <> Some send_wr_ ->
  kind (load (op_of s0 send_wr_)) = k_send ->
  wp (do_send budget co bufs flags token co co) (fun r s' => initiated send_wr_ co r s0 s') s0.
Proof.
  intros Ho Hs Hk. unfold do_send. do 2 im_step. cbn zeta. do 2 im_step.
  apply plain_transfer; try done. apply reset_touches.
Qed.

Lemma do_recv_spec budget co bufs flags token s0 :
  owns s0 = false -> slots (desc_of s0) read_slot <> Some recv_rd_ ->
  kind (load (op_of s0 recv_rd_)) = k_recv ->
  wp (do_recv budget co bufs flags token co co) (fun r s' => initiated recv_rd_ co r s0 s') s0.
Proof.
  intros Ho Hs Hk. unfold do_recv. do 2 im_step. cbn zeta.
  destruct (zero_length _); [apply (start_posted recv_rd_ read_slot); try done; apply reset_touches|].
  do 2 im_step. apply plain_transfer; try done. apply reset_touches.
Qed.

(** The source address that the call has stored can be read. *)
Lemma captures_source source iov storage len flags s0 s :
  load (op_of s rd_) = recv_from_op iov storage len source flags ->
  (exists ep, from_sockaddr_as storage = Ok ep) -> captures rd_ s0 (capture_source source) s.
Proof.
  intros Hl [ep He] s1 T E. unfold capture_source. im_steps. rewrite E, Hl.
  destruct source as [p|]; [|by im_steps]. unfold lift. rewrite He. im_steps.
  split; [|done]. eapply touches_trans; [exact T|by apply touches_log].
Qed.

Lemma do_recv_from_spec budget co bufs source flags token s0 :
  owns s0 = false -> slots (desc_of s0) read_slot <> Some rd_ ->
  kind (load (op_of s0 rd_)) = k_recv_from -> script_ok (script s0) ->
  wp (do_recv_from budget co bufs source flags token co co)
    (fun r s' => initiated rd_ co r s0 s') s0.
Proof.
  intros Ho Hs Hk Hok. unfold do_recv_from. do 2 im_step. cbn zeta.
  destruct (zero_length _); [apply (start_posted rd_ read_slot); try done; apply reset_touches|].
  assert (Z0 : exists ep, from_sockaddr_as ss_zero = Ok ep) by (by exists endpoint.default).
  do 2 im_step. apply transfer_spec; try done; [apply reset_touches|].
  intros a s1 T1 E1 A1 L1. im_step.
  eapply (wp_mono _ (fun _ s2 => touches rd_ s0 s2 /\ stop_cb (op_of s2 rd_) = stop_cb (op_of s0 rd_)
            /\ captures rd_ s0 (capture_source source) s2)).
  - unfold store_source. destruct a as [n|n storage len|e]; im_steps.
    + split; [done|]. split; [done|]. by eapply captures_source.
    + split; [by apply load_touches; [..|apply A1]|]. rewrite with_op_eq. split; [done|].
      eapply captures_source; [by rewrite with_op_eq|by apply A1].
    + split; [done|]. split; [done|]. by eapply captures_source.
  - intros [] s2 (T2 & E2 & C2). by apply finish_transfer_spec.
Qed.

(** [connect] and [wait] are those of stream sockets. *)
Lemma dgram_connect_spec budget co ep token s0 :
  owns s0 = false -> slots (desc_of s0) connect_slot <> Some conn_ ->
  kind (load (op_of s0 conn_)) = k_connect -> script_ok (script s0) ->
  wp (do_connect budget co ep token co) (fun r s' => initiated conn_ co r s0 s') s0.
Proof.
  intros Ho Hs Hk Hok. unfold do_connect. do 3 im_step.
  eapply wp_mono; [apply (query_family_spec conn_ _ s0), touches_refl|]. intros fam s1 [T1 E1].
  apply (sys_then _ _ conn_ _ s0 s1 T1). intros res s2 T2 E2 _. im_step.
  eapply wp_mono; [apply (connected_spec res _ ep s0); [done|congruence|done]|].
  intros [] s3 [T3 E3]. by apply connect_outcome.
Qed.

Lemma dgram_wait_spec budget co w token s0 :
  let k := datagram_op (Dgram_wait w) in
  owns s0 = false -> (forall sl, own k = Some sl -> slots (desc_of s0) sl <> Some k) ->
  kind (load (op_of s0 k)) = k_wait ->
  wp (do_wait budget co w token co) (fun r s' => initiated k co r s0 s') s0.
Proof.
  intros k Ho Hs Hk. unfold do_wait. destruct w; cbn in k.
  - apply (wait_parking k); auto.
  - destruct budget; [by apply finish_inline_spec; [apply touches_refl|]|].
    apply (wait_posted _ wait_write_slot); auto.
  - apply (wait_parking k); auto.
Qed.

#[local] Instance datagram_laws : socket_laws.
Proof.
  split.
  - intros k. split; [|destruct k; try done; intros _; cbn; repeat constructor].
    intros Hk. by destruct k; try done; exfalso; cbn in Hk; set_solver.
  - cbn. repeat constructor; set_solver.
  - intros k sl Hk. cbn in Hk. unfold datagram_entries in Hk. set_solver.
  - intros []; eexists; cbn; unfold datagram_entries; repeat constructor.
  - by intros [| | | | |[]].
  - by intros [].
  - intros []; try done. by exists endpoint.default.
  - intros budget co token rq s0 Ho Hs Hk _ Hok. destruct rq; cbn in Hs, Hk.
    + apply dgram_connect_spec; auto.
    + apply do_send_to_spec; auto.
    + apply do_recv_from_spec; auto.
    + apply do_send_spec; auto.
    + apply do_recv_spec; auto.
    + apply dgram_wait_spec; auto. by destruct w.
Qed.
