(* ===== verification/SocketClaims.v ===== *)
(** Properties of the reactor backends' sockets: what holds of a socket of
    either kind in every interleaving, what deferred I/O and closing do, and where a stop
    request outlives the operation it was meant for. *)

From stdpp Require Import functions relations.
From S2P Require Import Prelude StateMonad Ipv4 Ipv6 Endpoint Sockaddr ReactorOp DescriptorState.
From S2P Require Import BasicSocket StreamSocket DatagramSocket DescriptorSpec SocketSteps SocketSpec SocketInv StreamSpec DatagramSpec.
Import reactor_op reactor_descriptor_state basic_socket stream_socket datagram_socket.

(** * Executing the transition system *)

Definition run_exec {A} (m : IM A) (sc : list answer) (w : world) : option (A * world) :=
  match m (enter w sc) with
  | Ok (a, s') => if owns s' then None
                  else Some (a, absorb_all (log s') (set_sock (this s') w))
  | _ => None
  end.

Lemma run_exec_sound {A} (m : IM A) sc w a w' :
  run_exec m sc w = Some (a, w') -> exec m sc w a w'.
Proof.
  unfold run_exec, exec, enter. intros H. destruct (m _) as [[b s']| |]; try done.
  destruct (owns s') eqn:E; [done|]. injection H as <- <-. by exists s'.
Qed.

(** Answers whose addresses can be read. *)
Definition plain (a : answer) : bool :=
  match a with
  | RetAddr _ storage _ =>
      match from_sockaddr_as storage with
      | Ok _ => true
      | _ => false
      end
  | _ => true
  end.

Lemma plain_ok sc : forallb plain sc = true -> script_ok sc.
Proof.
  intros H. apply list.Forall_forall. intros a Ha. rewrite forallb_forall in H.
  specialize (H a (proj1 (list_elem_of_In _ _) Ha)). destruct a as [|n storage len|]; try done.
  cbn in *. destruct (from_sockaddr_as storage); try done. eauto.
Qed.

Definition blocked (a : act) (w : world) : bool :=
  match a with
  | Invoking k => existsb (is_cancelling k) (acts w)
  | _ => false
  end.

Section execution.
Context {DV : derived} {SK : socket_kind}.

Definition do_act (lab : label) (j : nat) (sc : list answer) (w : world) : option world :=
  a ← acts w !! j;
  m ← act_prog false lab a;
  if blocked a w then None else
  '(o, w1) ← run_exec m sc w;
  Some (after_act a (add_tokens (- adopted a) (set_acts (replace_act j o (acts w1)) w1))).

(** One step: the activity or queue entry at [j], the answers [sc]. *)
Definition do_step (lab : label) (j : nat) (sc : list answer) (w : world) : option world :=
  if negb (forallb plain sc) then None else
  match lab with
  | LInit rq token budget co =>
      if slot_free w (op_for rq) && negb (existsb user_busy (acts w)) then
        '(r, w1) ← run_exec (initiate budget co token rq) sc w;
        Some (add_started co (match r with
                              | dispatched => w1
                              | noop_coroutine => set_waiting (op_for rq) (Some co) w1
                              | parking s f dir =>
                                  set_acts (acts w1 ++ [Starting (op_for rq) s f dir])
                                    (set_waiting (op_for rq) (Some co) w1)
                              end))
      else None
  | LStop k =>
      if stop_cb (O w k) then
        '(_, w1) ← run_exec (upd_op k request_cancel) [] w;
        Some (set_acts (acts w1 ++ [Cancelling k]) w1)
      else None
  | LCancel =>
      '(_, w1) ← run_exec request_cancel_all [] w;
      Some (set_acts (acts w1 ++ [CancelAll]) w1)
  | LClose =>
      if existsb is_starting (acts w) then None else
      '(_, w1) ← run_exec request_cancel_all [] w;
      Some (set_acts (acts w1 ++ [CloseAll]) w1)
  | LEvent ev =>
      '(_, w1) ← run_exec (add_ready_events ev) [] w;
      Some (set_acts (acts w1 ++ [Reporting]) w1)
  | LEnqueue =>
      if bool_decide (acts w !! j = Some Reporting) then
        '(b, w1) ← run_exec try_enqueue [] w;
        Some (set_acts (delete j (acts w1))
                (if b : bool then set_queue (queue w1 ++ [q_desc]) w1 else w1))
      else None
  | LPop =>
      e ← queue w !! j;
      Some (set_queue (delete j (queue w))
              (set_acts (acts w ++ [match e with
                                    | q_desc => Deferring
                                    | q_op k => Invoking k
                                    end]) w))
  | _ => do_act lab j sc w
  end.

Lemma do_act_sound lab j sc w w' :
  script_ok sc -> do_act lab j sc w = Some w' -> step false lab w w'.
Proof.
  unfold do_act. intros Hp H.
  destruct (acts w !! j) as [a|] eqn:Ha; [cbn in H|done].
  destruct (act_prog false lab a) as [m|] eqn:Hm; [cbn in H|done].
  destruct (blocked a w) eqn:Hb; [done|].
  destruct (run_exec m sc w) as [[o w1]|] eqn:He; [cbn in H|done].
  injection H as <-. eapply step_act; eauto using run_exec_sound.
  by intros k ->.
Qed.

Lemma socket_do_step_sound lab j sc w w' : do_step lab j sc w = Some w' -> any_step false w w'.
Proof.
  unfold do_step. intros H. exists lab.
  destruct (forallb plain sc) eqn:Hp; [cbn [negb] in H; apply plain_ok in Hp|done].
  destruct lab as [rq token budget co| |k| | | | | |ev| | | | |];
    try (by eapply do_act_sound).
  - destruct (slot_free _ _ && _) eqn:Hg; [|done]. apply andb_true_iff in Hg as [H1 H2].
    apply negb_true_iff in H2.
    destruct (run_exec _ _ _) as [[r w1]|] eqn:He; [cbn in H|done]. injection H as <-.
    eapply step_init; eauto using run_exec_sound.
  - destruct (stop_cb _) eqn:Hs; [|done].
    destruct (run_exec _ _ _) as [[[] w1]|] eqn:He; [cbn in H|done]. injection H as <-.
    apply step_stop; [done|]. by apply run_exec_sound.
  - destruct (run_exec _ _ _) as [[[] w1]|] eqn:He; [cbn in H|done]. injection H as <-.
    apply step_cancel. by apply run_exec_sound.
  - destruct (existsb _ _) eqn:Hs; [done|].
    destruct (run_exec _ _ _) as [[[] w1]|] eqn:He; [cbn in H|done]. injection H as <-.
    apply step_close; [done|]. by apply run_exec_sound.
  - destruct (run_exec _ _ _) as [[[] w1]|] eqn:He; [cbn in H|done]. injection H as <-.
    apply step_event. by apply run_exec_sound.
  - case_bool_decide as Ha; [|done].
    destruct (run_exec _ _ _) as [[b w1]|] eqn:He; [cbn in H|done]. injection H as <-.
    apply step_enqueue; [done|]. by apply run_exec_sound.
  - destruct (queue w !! j) as [e|] eqn:He; [cbn in H|done]. injection H as <-.
    by apply step_pop.
Qed.

Fixpoint do_steps (ls : list (label * nat * list answer)) (w : world) : option world :=
  match ls with
  | [] => Some w
  | (lab, j, sc) :: ls' => w' ← do_step lab j sc w; do_steps ls' w'
  end.

Lemma do_steps_reachable f ls w w' :
  reachable false f w -> do_steps ls w = Some w' -> reachable false f w'.
Proof.
  revert w. induction ls as [|[[lab j] sc] ls IH]; intros w Hr H; cbn in H.
  - by injection H as <-.
  - destruct (do_step lab j sc w) as [w1|] eqn:Hs; [cbn in H|done].
    eapply IH; [|exact H]. eapply rtc_r; [exact Hr|]. by eapply socket_do_step_sound.
Qed.

Definition after (ls : list (label * nat * list answer)) : world :=
  default (init_world 3) (do_steps ls (init_world 3)).

Lemma after_reachable ls :
  is_Some (do_steps ls (init_world 3)) -> reachable false 3 (after ls).
Proof.
  intros [w E]. unfold after. rewrite E. cbn. eapply do_steps_reachable; [|exact E].
  apply rtc_refl.
Qed.

End execution.

Section claims.
Context {DV : derived} {SK : socket_kind} {SL : socket_laws}.

(** * Every interleaving *)

(** C2: As long as no two operations that use one slot of the descriptor state
    are in flight together, every asynchronous operation of a socket, stream or
    datagram, completes at most once and is not lost, in any interleaving of the
    reactor, the event-loop threads, stop requests, [cancel] and [close]: the times
    a coroutine was resumed and the operations it is suspended on add up to the
    times it started one, and a suspended operation is in exactly one place, its
    slot, the scheduler's queue or the hands of one thread.  The condition
    ([slot_free]) is stronger than what [udp_socket.hpp] documents: [recv] and
    [recv_from] of a datagram socket share a slot, as [send] and [send_to] do, and
    [overlapping_receives_lose_one] shows that without it the claim fails.
    Operations are also not initiated while [close] runs or [cancel] is before its
    critical section, and [close] not while an operation is being initiated (a
    socket is documented as unsafe to share). *)
Theorem operations_complete_once notify f w :
  reachable notify f w ->
  (forall co, occ co (started w)
              = occ co (ended w) + zsum (waits_for (waiting w) co) all_ops)
  /\ (forall k, parked own (D w) k + zsum (queued k) (queue w) + zsum (hold k) (acts w)
                = match waiting w k with
                  | Some _ => 1
                  | None => 0
                  end).
Proof.
  intros R. pose proof (socket_reachable_inv notify f w R) as I. split; [apply I|].
  intros k. rewrite (i_place w I k). apply b2z_some.
Qed.

(** C7: As long as no two operations that use one slot are in flight together
    ([slot_free]; [recv] and [recv_from] share one, and so do [send] and [send_to])
    and none is initiated while [close] runs or [cancel] is before its critical
    section: the units of outstanding work that a socket holds are exactly those of
    the operations parked in its slots and of the operations its threads have
    claimed and not yet handed on, so a [work_finished] or a deferred
    completion never gives back a unit that was not taken.  Without the condition a
    unit is kept forever ([overlapping_receives_lose_one]). *)
Theorem socket_work_balanced notify f w :
  reachable notify f w ->
  tokens w = zsum (parked own (D w)) all_ops + zsum units (acts w) /\ 0 <= tokens w.
Proof.
  intros R. pose proof (i_units w (socket_reachable_inv notify f w R)) as E. split; [exact E|].
  rewrite E. apply Z.add_nonneg_nonneg; apply zsum_nonneg; [|apply units_nonneg].
  intros k. apply parked_le_1.
Qed.

(** A descriptor is in the scheduler's queues at most once, and it is there, or
    popped with its deferred I/O not begun, exactly when its flag
    [is_enqueued_] is set. *)
Theorem descriptor_queued_once notify f w :
  reachable notify f w ->
  zsum desc_queued (queue w) + zsum deferring (acts w)
  = (if is_enqueued_ (D w) then 1 else 0).
Proof. intros R. exact (i_desc w (socket_reachable_inv notify f w R)). Qed.

Lemma wp_exec {A} (m : IM A) sc w :
  wp m (fun _ s' => owns s' = false) (enter w sc) -> exists a w', exec m sc w a w'.
Proof.
  unfold wp. destruct (m (enter w sc)) as [[a s']| |] eqn:E; try done.
  intros H. by exists a, (absorb_all (log s') (set_sock (this s') w)), s'.
Qed.

Lemma prog_runs notify w j a lab m sc :
  inv w -> acts w !! j = Some a -> act_prog notify lab a = Some m -> script_ok sc ->
  exists o w1, exec m sc w o w1.
Proof.
  intros I Ha Hm Hok. pose proof (i_wf w I) as W. apply wp_exec.
  destruct a as [k sl r dir|k| | |[|k l] b| | |l|k]; destruct lab; try done; cbn in Hm;
    injection Hm as <-; im_step.
  - eapply wp_mono; [by apply register_op_spec|]. intros [] s' R. apply R.
  - eapply wp_mono; [by apply claim_single_spec|]. intros c s' C. apply C.
  - eapply wp_mono; [by apply cancel_claim_spec|]. intros c s' C. apply C.
  - eapply wp_mono; [by apply close_claim_spec|]. intros c s' [C _]. apply C.
  - destruct b; [|done]. eapply wp_mono; [apply finish_close_spec|]. intros [] s' (E & _). exact E.
  - eapply wp_mono; [apply repost_spec|]. intros [] s' (E & _). exact E.
  - eapply wp_mono; [apply (deferred_io_io own); [done|apply I|done]|].
    intros [p [l|]] s' [_ H]; im_steps; [by destruct H as (_ & s1 & _ & ->)|].
    by destruct H as (_ & ->).
  - eapply wp_mono; [apply post_rest_spec, I|]. intros f s' (_ & E & _). exact E.
  - destruct (held w j _ k I Ha) as (co & Ew & Hk & A & _); [cbn; rewrite is_op_eq; lia|].
    eapply wp_mono; [apply (invoke_spec k co); try done; apply I|]. intros [] s' (E & _). exact E.
Qed.

(** C10: No thread that runs the code of a socket gets stuck in it.  In every
    state that is reached with at most one operation per slot in flight
    ([slot_free]) and no operation initiated while [close] runs or [cancel] is
    before its critical section, and whatever the system answers (socket addresses
    holding the structure of their family): every call in progress can take its
    next step, and every operation that may be initiated runs to its end, without
    using a null slot or scheduler pointer, locking the descriptor's mutex twice or
    leaving it locked, resuming an operation without a coroutine or writing a result
    through a missing output location.  The lifetime of the socket and of its
    descriptor state and data races between threads are not part of the claim. *)
Theorem socket_code_never_faults notify f w sc :
  reachable notify f w -> script_ok sc ->
  (forall j a lab m, acts w !! j = Some a -> act_prog notify lab a = Some m ->
                     exists o w1, exec m sc w o w1)
  /\ (forall rq token budget co, waiting w (op_for rq) = None ->
                     exists r w1, exec (initiate budget co token rq) sc w r w1).
Proof.
  intros R Hok. pose proof (socket_reachable_inv notify f w R) as I. split.
  - intros j a lab m Ha Hm. by eapply prog_runs.
  - intros rq token budget co Ew. apply wp_exec. eapply wp_mono.
    + apply initiate_spec; try done; [|apply I|apply I]. intros sl Hsl.
      apply (parked_0 own); [apply I|]. pose proof (i_place w I (op_for rq)) as P.
      rewrite Ew, b2z_some in P.
      pose proof (zsum_nonneg (hold (op_for rq)) (acts w) (hold_nonneg _)).
      pose proof (zsum_nonneg (queued (op_for rq)) (queue w) (queued_nonneg _)).
      pose proof (parked_le_1 own (D w) (op_for rq)). cbn in *. lia.
    + intros r s' (s1 & T & _ & -> & _). by rewrite (t_owns _ _ _ T).
Qed.

(** * Results *)

(** What a completed operation reports: cancellation first, then its error, then
    the end of the stream for a read of no bytes. *)
Definition report (o : op) : error_code :=
  if cancelled o then canceled
  else if negb (errn o =? 0) then make_err (errn o)
  else match load o with
       | read_op _ empty => if (bytes_transferred o =? 0) && negb empty then eof else success
       | _ => success
       end.

(** A connection that succeeded looks up its local endpoint. *)
Definition lookups (o : op) : list effect :=
  match load o with
  | connect_op _ =>
      if (errn o =? 0) && negb (cancelled o) then [called (sys_getsockname (fd o))] else []
  | _ => []
  end.

(** The source address that a [recv_from] hands out with its datagram. *)
Definition source_of (o : op) : list effect :=
  match load o with
  | recv_from_op _ storage _ (Some p) _ =>
      if negb (cancelled o) && (errn o =? 0) then
        match from_sockaddr_as storage with
        | Ok ep => [wrote_endpoint p ep]
        | _ => []
        end
      else []
  | _ => []
  end.

(** A transfer stores its byte count and, for [recv_from], the source. *)
Definition outputs (co : nat) (o : op) : list effect :=
  if carries_bytes (kind (load o)) then wrote_bytes co (bytes_transferred o) :: source_of o else [].

Definition handled (co : nat) (o : op) : list effect :=
  [reset_inline_budget] ++ lookups o ++ [wrote_ec co (report o)] ++ outputs co o ++ [resumed co].

Lemma make_err_nonzero e : e <> 0 -> is_error (make_err e) = true.
Proof. intros H%Z.eqb_neq. unfold make_err. rewrite H. by destruct (e =? ECANCELED). Qed.

Lemma decode_log p o r n s :
  r && (n =? 0) = match load o with
                  | read_op _ empty => (bytes_transferred o =? 0) && negb empty
                  | _ => false
                  end ->
  wp (decode_io_result (Some p) (cancelled o) (op_error o) r n false)
    (fun _ s' => this s' = this s /\ log s' = log s ++ [wrote_ec p (report o)]) s.
Proof.
  intros Hr. unfold decode_io_result, report, op_error. rewrite andb_true_r, Hr.
  destruct (cancelled o); im_steps; [done|].
  destruct (errn o =? 0) eqn:E; cbn [negb is_error].
  - destruct (load o); try (by im_steps).
    destruct ((bytes_transferred o =? 0) && negb _); by im_steps.
  - apply Z.eqb_neq in E. rewrite (make_err_nonzero _ E). by im_steps.
Qed.

Lemma prologue_log k s :
  owned_by (op_of s k) = socket_owner -> scheduler_ (desc_of s) = true ->
  let Q := fun (_ : unit) s' => op_of s' k = set_stop_cb false (op_of s k)
             /\ script s' = script s /\ log s' = log s ++ [reset_inline_budget] in
  wp (complete_prologue k) Q s /\ wp (complete_prologue_wait k) Q s.
Proof.
  intros Ho Hs Q.
  assert (G : Q tt (with_log reset_inline_budget (with_op k (set_stop_cb false) s)))
    by (by split; [apply with_op_eq|]).
  split; [unfold complete_prologue|unfold complete_prologue_wait]; im_steps;
    rewrite with_op_eq; cbn [owned_by set_stop_cb]; rewrite Ho;
    change (desc_of (with_op k (set_stop_cb false) s)) with (desc_of s); rewrite Hs; apply G.
Qed.

Section reports.
Context (k : op_id) (co : nat) (s : st).
Context (A : armed k co (op_of s k)) (Hs : scheduler_ (desc_of s) = true).
Context (Hlog : log s = []).

(** The state between the pieces of a handler. *)
Definition logged (l : list effect) (s' : st) : Prop :=
  op_of s' k = set_stop_cb false (op_of s k) /\ log s' = l.

Lemma resume_logged l s1 :
  logged l s1 -> wp (coro_resume k) (fun _ s' => log s' = l ++ [resumed co]) s1.
Proof using A.
  intros [E <-]. unfold coro_resume. im_steps. rewrite E. cbn [h set_stop_cb log with_log with_op with_impl].
  destruct A as [-> _]. done.
Qed.

Lemma store_logged l n (m : IM unit) Q s1 :
  carries_bytes (kind_of k) = true -> logged l s1 ->
  (forall s2, logged (l ++ [wrote_bytes co n]) s2 -> wp m Q s2) ->
  wp (store_bytes (bytes_out (op_of s k)) n ≫= fun _ => m) Q s1.
Proof using A.
  intros Hb [E <-] Hm. destruct A as (_ & _ & _ & _ & A5). rewrite (A5 Hb). unfold store_bytes.
  im_step. im_step. apply (wp_deref _ co); [done|]. im_steps. by apply Hm.
Qed.

(** A handler without a look-up: the result, then what follows. *)
Lemma handler_logs prologue r n (rest : op -> IM unit) Q :
  (prologue = complete_prologue k \/ prologue = complete_prologue_wait k) ->
  (let o := set_stop_cb false (op_of s k) in
   r o && (n o =? 0) = match load o with
                       | read_op _ empty => (bytes_transferred o =? 0) && negb empty
                       | _ => false
                       end) ->
  (forall s1, logged [reset_inline_budget; wrote_ec co (report (op_of s k))] s1 ->
     wp (rest (set_stop_cb false (op_of s k))) Q s1) ->
  wp (prologue ≫= fun _ => o ← the_op k;
      decode_io_result (ec_out o) (cancelled o) (op_error o) (r o) (n o) false ≫= fun _ => rest o)
    Q s.
Proof using A Hs Hlog.
  intros Hp Hr Hrest. destruct A as (A1 & A2 & A3 & A4 & A5). im_step.
  eapply wp_mono; [destruct (prologue_log k s A2 Hs); destruct Hp as [-> | ->]; eassumption|].
  intros [] s1 (E1 & _ & L1). im_steps. rewrite E1. cbn [ec_out set_stop_cb]. rewrite A4.
  eapply wp_mono; [by apply decode_log|]. intros [] s2 [E2 L2]. apply Hrest.
  split; [by rewrite E2|]. by rewrite L2, L1, Hlog.
Qed.

Lemma wait_logs :
  kind (load (op_of s k)) = k_wait ->
  wp (complete_wait_op k) (fun _ s' => log s' = handled co (op_of s k)) s.
Proof using A Hs Hlog.
  intros Hl. apply (handler_logs _ (fun _ => false) (fun _ => 0));
    [by right|cbn; by destruct (load (op_of s k))|].
  intros s1 L1. eapply wp_mono; [by apply resume_logged|]. intros [] s2 ->.
  unfold handled, lookups, outputs. by destruct (load (op_of s k)).
Qed.

Lemma io_logs :
  carries_bytes (kind_of k) = true ->
  match load (op_of s k) with
  | read_op _ _ | write_op _ | send_op _ _ | send_to_op _ _ _ _ => True
  | _ => False
  end ->
  wp (complete_io_op k) (fun _ s' => log s' = handled co (op_of s k)) s.
Proof using A Hs Hlog.
  intros Hb Hl. apply (handler_logs _ is_read_operation bytes_transferred); [by left| |].
  - cbn. unfold is_read_operation. cbn. destruct (load (op_of s k)); try done. apply andb_comm.
  - intros s1 L1. eapply store_logged; [done|exact L1|]. intros s2 L2.
    eapply wp_mono; [by apply resume_logged|]. intros [] s3 ->.
    unfold handled, lookups, outputs, source_of. by destruct (load (op_of s k)).
Qed.

Lemma recv_logs :
  carries_bytes (kind_of k) = true -> kind (load (op_of s k)) = k_recv ->
  wp (complete_datagram_op k) (fun _ s' => log s' = handled co (op_of s k)) s.
Proof using A Hs Hlog.
  intros Hb Hl. apply (handler_logs _ (fun _ => false) (fun _ => 0));
    [by left|cbn; by destruct (load (op_of s k))|].
  intros s1 L1. eapply store_logged; [done|exact L1|]. intros s2 L2.
  eapply wp_mono; [by apply resume_logged|]. intros [] s3 ->.
  unfold handled, lookups, outputs, source_of. by destruct (load (op_of s k)).
Qed.

Lemma recv_from_logs :
  carries_bytes (kind_of k) = true -> kind (load (op_of s k)) = k_recv_from ->
  load_ok (load (op_of s k)) ->
  wp (complete_datagram_op_from k) (fun _ s' => log s' = handled co (op_of s k)) s.
Proof using A Hs Hlog.
  intros Hb Hl Hld. apply (handler_logs _ (fun _ => false) (fun _ => 0));
    [by left|cbn; by destruct (load (op_of s k))|].
  intros s1 L1. eapply store_logged; [done|exact L1|]. intros s2 L2. im_step.
  eapply (wp_mono _ (fun _ s' => logged ([reset_inline_budget; wrote_ec co (report (op_of s k));
    wrote_bytes co (bytes_transferred (op_of s k))] ++ source_of (op_of s k)) s')).
  - unfold source_of. cbn [load set_stop_cb cancelled errn].
    destruct (load (op_of s k)) as [| | | | | | | |? src ? [p|] ?]; try done.
    destruct (_ && _); [|done]. destruct Hld as [ep He]. unfold lift. rewrite He. im_steps.
    destruct L2 as [E2 L2]. split; [done|]. cbn. by rewrite L2.
  - intros [] s3 L3. eapply wp_mono; [by apply resume_logged|]. intros [] s4 ->.
    unfold handled, lookups, outputs. by destruct (load (op_of s k)).
Qed.

Lemma connect_logs :
  kind (load (op_of s k)) = k_connect -> script_ok (script s) ->
  wp (complete_connect_op k) (fun _ s' => log s' = handled co (op_of s k)) s.
Proof using A Hs Hlog.
  intros Hl Hok. destruct A as (A1 & A2 & A3 & A4 & A5). unfold complete_connect_op. im_step.
  eapply wp_mono; [apply (prologue_log k s A2 Hs)|]. intros [] s1 (E1 & S1 & L1). im_steps.
  eapply (wp_mono _ (fun _ s' => logged ([reset_inline_budget] ++ lookups (op_of s k)) s')).
  { unfold lookups. rewrite E1. cbn [load set_stop_cb errn cancelled fd].
    destruct (load (op_of s k)); try done. rewrite Hlog in L1. destruct (_ && _); [|by split].
    im_step. unfold call. im_steps. rewrite <- S1 in Hok.
    destruct (script s1) as [|a rest] eqn:Es; im_steps.
    - by split; [|cbn; rewrite L1].
    - destruct a as [|m stg len|]; im_steps; try (by split; [|cbn; rewrite L1]).
      unfold script_ok in Hok. apply list.Forall_cons in Hok as [[ep Hep] _].
      unfold lift. rewrite Hep.
      im_steps. by split; [|cbn; rewrite L1]. }
  intros [] s2 [E2 L2]. im_step. rewrite E1. cbn [ec_out set_stop_cb]. rewrite A4.
  eapply wp_mono; [by apply decode_log; cbn; destruct (load (op_of s k))|].
  intros [] s3 [E3 L3]. eapply wp_mono.
  - apply (resume_logged (log s3)). by split; [rewrite E3|].
  - intros [] s4 ->. rewrite L3, L2. unfold handled, outputs.
    destruct (load (op_of s k)); try done. cbn. by rewrite <- !app_assoc.
Qed.
End reports.

(** C34: A completion handler does exactly this, in this order: it resets the inline
    budget, looks up the local endpoint of a connection that succeeded, writes
    the error code once, stores the byte count of a transfer and the source
    address of a datagram that was received, and resumes the coroutine once.
    The code is [canceled] if the operation was cancelled, otherwise the mapped
    errno of its last I/O, otherwise end of file for a stream read of no bytes
    into a non-empty buffer, otherwise success: an empty datagram is no end of
    file. *)
Theorem completion_reports_result notify f w k co sc :
  reachable notify f w -> waiting w k = Some co -> script_ok sc ->
  wp (invoke k) (fun _ s' => log s' = handled co (O w k)) (enter w sc).
Proof.
  intros R Hw Hok. pose proof (socket_reachable_inv notify f w R) as I.
  destruct (i_armed w I k co Hw) as [Hk A]. pose proof (i_kind w I k) as Hl.
  pose proof (i_sched w I) as Hs. pose proof (i_load w I k) as Hld. unfold invoke. im_steps.
  pose proof (io_logs k co (enter w sc) A Hs eq_refl) as Hio.
  pose proof (recv_logs k co (enter w sc) A Hs eq_refl) as Hr.
  pose proof (recv_from_logs k co (enter w sc) A Hs eq_refl) as Hf.
  pose proof (connect_logs k co (enter w sc) A Hs eq_refl) as Hc.
  pose proof (wait_logs k co (enter w sc) A Hs eq_refl) as Hwt.
  cbn [this enter] in *. rewrite <- Hl in Hio, Hr, Hf.
  destruct (load (O w k)) eqn:El; auto.
  exfalso. apply Hk, kinds. symmetry. exact Hl.
Qed.

(** What cancellation takes is reported as cancelled: in every interleaving, an
    operation that [cancel], [close] or a stop request has claimed from its
    slot has its flag set until its handler runs, which then reports
    [canceled]. *)
Theorem claimed_operations_report_canceled notify f w l b k :
  reachable notify f w -> Claimed l b ∈ acts w -> k ∈ l ->
  report (O w k) = canceled /\ is_Some (waiting w k).
Proof.
  intros R Ha Hk. pose proof (socket_reachable_inv notify f w R) as I. split.
  - pose proof (proj1 (list.Forall_forall _ _) (i_acts w I) _ Ha k Hk) as H.
    unfold report. cbn in H. by rewrite H.
  - apply list_elem_of_lookup in Ha as [j Hj].
    destruct (held w j _ k I Hj) as (co & Ew & _); [cbn; by apply occ_elem|]. eauto.
Qed.

(** * Closing *)

Definition handed_back (l : list op_id) : list effect :=
  concat ((fun k => [posted k; work_finished]) <$> l).

Lemma reposts l s :
  wp (mapM_ repost l)
    (fun _ s' => owns s' = owns s /\ desc_of s' = desc_of s /\ fd_ (this s') = fd_ (this s)
       /\ (forall k, cancelled (op_of s' k) = cancelled (op_of s k))
       /\ (forall k, k ∈ l \/ impl_ptr (op_of s k) = true -> impl_ptr (op_of s' k) = true)
       /\ summary (log s') = summary (log s) ++ handed_back l) s.
Proof.
  revert s. induction l as [|k l IH]; intros s; cbn [mapM_].
  { im_steps. repeat split; try done; [by intros k [?%not_elem_of_nil|]|].
    symmetry. apply app_nil_r. }
  im_step. eapply (wp_mono _ (fun _ s' => (owns s' = owns s /\ desc_of s' = desc_of s
    /\ (forall j, j <> k -> op_of s' j = op_of s j) /\ op_of s' k = set_impl_ptr true (op_of s k)
    /\ summary (log s') = summary (log s) ++ [posted k; work_finished])
    /\ fd_ (this s') = fd_ (this s))).
  { by apply wp_and; [apply repost_spec|]. }
  intros [] s1 [(E1 & E2 & E3 & E4 & E5) E6].
  eapply wp_mono; [apply IH|]. intros [] s2 (F1 & F2 & F3 & F4 & F5 & F6).
  split; [congruence|]. split; [congruence|]. split; [congruence|]. split; [|split].
  - intros j. rewrite F4. destruct (decide (j = k)) as [->|Hj]; [by rewrite E4|by rewrite E3].
  - intros j Hj. apply F5. destruct (decide (j = k)) as [->|Hjk]; [right; by rewrite E4|].
    rewrite E3 by done. destruct Hj as [[->|]%elem_of_cons|]; [done|by left|by right].
  - rewrite F6, E5. unfold handed_back. cbn. by rewrite <- !app_assoc.
Qed.

Lemma request_cancels_fd l s :
  wp (mapM_ (fun k => upd_op k request_cancel) l) (fun _ s' => fd_ (this s') = fd_ (this s)) s.
Proof.
  revert s. induction l as [|k l IH]; intros s; cbn [mapM_]; [done|].
  im_steps. eapply wp_mono; [apply IH|]. by intros [] s' ->.
Qed.

Lemma close_claim_fd s :
  owns s = false -> wp close_claim (fun _ s' => fd_ (this s') = fd_ (this s)) s.
Proof.
  intros Ho. unfold close_claim. im_step. apply wp_lock_desc; [done|]. im_step.
  eapply wp_mono; [apply claim_any_io|]. intros l s1 [H1 _]. im_steps.
  pose proof (io_owns _ _ _ _ H1) as O1. pose proof (io_fd _ _ _ _ H1) as F1.
  destruct (is_enqueued_ _); im_steps; (apply wp_unlock_desc; [exact O1|]); im_steps;
    exact F1.
Qed.

(** The descriptor is dropped and the endpoints are cleared. *)
Lemma finish_close_full s :
  wp finish_close
    (fun _ s' => owns s' = owns s /\ ops (this s') = ops (this s)
       /\ desc_of s' = set_desc_fd (-1) 0 (desc_of s)
       /\ fd_ (this s') = (if 0 <=? fd_ (this s) then -1 else fd_ (this s))
       /\ summary (log s') = summary (log s)) s.
Proof.
  unfold finish_close, drop_fd, deregister_descriptor. im_steps.
  destruct (0 <=? fd_ (this s)); im_steps; [|by repeat split].
  destruct (_ =? 0); im_steps; repeat split; cbn; rewrite ?summary_app, ?app_nil_r; done.
Qed.

Definition closed_fd (f : Z) : Z := if 0 <=? f then -1 else f.

(** C35: Closing a socket takes every parked operation, and only those, marks
    it cancelled, keeps its implementation alive and posts it exactly once with
    its unit of work given back; it empties all slots, clears the cached edges
    and pending cancellations, drops the descriptor, and keeps the
    implementation referenced while the descriptor is queued. *)
Theorem close_cancels_everything s :
  owns s = false -> slots_wf own (desc_of s) ->
  wp do_close_socket
    (fun _ s' => exists l,
       (forall k, occ k l = parked own (desc_of s) k)
       /\ summary (log s') = summary (log s) ++ handed_back l
       /\ (forall k, k ∈ l -> cancelled (op_of s' k) = true /\ impl_ptr (op_of s' k) = true)
       /\ (forall sl, slots (desc_of s') sl = None /\ cancel_pending (desc_of s') sl = false)
       /\ read_ready (desc_of s') = false /\ write_ready (desc_of s') = false
       /\ impl_ref_ (desc_of s') = is_enqueued_ (desc_of s) || impl_ref_ (desc_of s)
       /\ fd_ (this s') = closed_fd (fd_ (this s)) /\ registered_events (desc_of s') = 0
       /\ owns s' = false) s.
Proof.
  intros Ho W. unfold do_close_socket. im_step.
  eapply wp_mono; [apply wp_and; [apply request_cancels|apply request_cancels_fd]|].
  intros [] s1 [(O1 & D1 & L1 & C1 & G1) F1]. im_step.
  assert (W1 : slots_wf own (desc_of s1)) by (by rewrite D1).
  eapply wp_mono; [apply wp_and; [apply close_claim_spec|apply close_claim_fd]; congruence|].
  intros l s2 [(K & N & F & R1 & R2 & I2) F2]. im_step.
  eapply wp_mono; [apply reposts|]. intros [] s3 (O3 & D3 & F3 & C3 & P3 & G3).
  eapply wp_mono; [apply finish_close_full|].
  intros [] s4 (O4 & E4 & T4 & F4 & G4). exists l.
  pose proof (c_parked _ _ _ K W1) as P.
  split; [|split; [|split; [|split]]].
  - intros k. specialize (P k). rewrite (parked_empty own _ k N), D1 in P. lia.
  - rewrite G4, G3, (c_log _ _ _ K), G1. done.
  - intros k Hk. rewrite E4. split; [|by apply P3; left]. rewrite C3. apply (c_ops _ _ _ K).
    apply C1. by apply all_ops_own, (claims_owned _ _ _ _ W1 K).
  - intros sl. rewrite T4, D3. split; [apply N|apply F].
  - rewrite T4. cbn. rewrite D3, R1, R2, I2, D1, F4. unfold closed_fd.
    rewrite F3, F2, F1, O4, O3, (c_owns _ _ _ K). done.
Qed.

(** * Deferred I/O *)

(** When the reactor reports an error on a descriptor, its deferred I/O empties
    all six slots: each operation that was parked is dispatched exactly once,
    with the socket's pending error, or [EIO] when the system reports none, as
    its result and no bytes transferred. *)
Theorem error_event_completes_all_slots s :
  owns s = false -> scheduler_ (desc_of s) = true -> slots_wf own (desc_of s) ->
  has (ready_events_ (desc_of s)) reactor_event_error = true ->
  wp deferred_io
    (fun r s' => exists l, snd r = Some l
       /\ (forall sl, slots (desc_of s') sl = None)
       /\ (forall k, occ k l = parked own (desc_of s) k)
       /\ (forall k, k ∈ l -> errn (op_of s' k) = reported_error (script s)
                              /\ bytes_transferred (op_of s' k) = 0)
       /\ reported_error (script s) <> 0) s.
Proof.
  intros Ho Hs W He. eapply wp_mono; [by apply (deferred_io_error own)|].
  intros r s' (l & E & N & P & D). exists l. split; [exact E|]. split; [exact N|].
  split; [intros k; by rewrite P|]. split; [exact D|]. apply reported_error_nonzero.
Qed.

End claims.

(** * Runs of a stream socket *)

Section stream_runs.
#[local] Existing Instances stream_derived stream_kind stream_laws.

Definition buf (n : Z) : list iovec := [mk_iovec 0 n].

(** A read that would block parks; the reactor reports an edge; the deferred
    I/O reads 5 bytes; the handler resumes the coroutine. *)
Definition read_trace : list (label * nat * list answer) :=
  [(LInit (Read (buf 64)) never false 7, 0, [Fail EAGAIN]);
   (LRegister, 0, []);
   (LEvent reactor_event_read, 0, []);
   (LEnqueue, 0, []);
   (LPop, 0, []);
   (LDeferred, 0, [Ret 5]);
   (LPostRest, 0, []);
   (LInvoke, 0, [])]%nat.

Example read_trace_ends :
  (w ← do_steps read_trace (init_world 3); Some (started w, ended w, tokens w, acts w, queue w))
  = Some ([7%nat], [7%nat], 0, [], []).
Proof. vm_compute. reflexivity. Qed.

(** The trace up to the dispatch: the operation is held by a thread. *)
Definition in_flight : world := after (take 6 read_trace).

Lemma in_flight_reachable : reachable false 3 in_flight.
Proof. apply after_reachable. vm_compute. eauto. Qed.

Lemma operations_complete_once_witness :
  zsum (waits_for (waiting in_flight) 7) all_ops = 1
  /\ occ 7%nat (started in_flight)
     = occ 7%nat (ended in_flight) + zsum (waits_for (waiting in_flight) 7) all_ops.
Proof.
  split; [vm_compute; reflexivity|].
  apply (operations_complete_once false 3 in_flight in_flight_reachable).
Defined.

Lemma socket_work_balanced_witness :
  tokens in_flight = 1 /\ tokens in_flight
    = zsum (parked own (D in_flight)) all_ops + zsum units (acts in_flight).
Proof.
  split; [vm_compute; reflexivity|].
  apply (socket_work_balanced false 3 in_flight in_flight_reachable).
Defined.

Definition desc_popped : world := after (take 5 read_trace).

Lemma desc_popped_reachable : reachable false 3 desc_popped.
Proof. apply after_reachable. vm_compute. eauto. Qed.

Lemma descriptor_queued_once_witness :
  is_enqueued_ (D desc_popped) = true
  /\ zsum desc_queued (queue desc_popped) + zsum deferring (acts desc_popped) = 1.
Proof.
  assert (E : is_enqueued_ (D desc_popped) = true) by (vm_compute; reflexivity).
  split; [exact E|].
  pose proof (descriptor_queued_once false 3 desc_popped desc_popped_reachable) as H.
  rewrite E in H. exact H.
Defined.

Lemma socket_code_never_faults_witness :
  exists r w1, exec (initiate true 9 stopped (Write (buf 10))) [Ret 10] in_flight r w1.
Proof.
  apply (socket_code_never_faults false 3 in_flight [Ret 10] in_flight_reachable).
  - repeat constructor.
  - vm_compute. reflexivity.
Defined.

(** A parked read, and [cancel] past its critical section. *)
Definition cancel_trace : list (label * nat * list answer) :=
  [(LInit (Read (buf 64)) never false 7, 0, [Fail EAGAIN]);
   (LRegister, 0, []);
   (LCancel, 0, []);
   (LClaim, 0, [])]%nat.
Definition being_cancelled : world := after cancel_trace.

Lemma being_cancelled_reachable : reachable false 3 being_cancelled.
Proof. apply after_reachable. vm_compute. eauto. Qed.

Lemma claimed_operations_report_canceled_witness :
  acts being_cancelled = [Claimed [rd_] false]
  /\ report (O being_cancelled rd_) = canceled /\ is_Some (waiting being_cancelled rd_).
Proof.
  assert (E : acts being_cancelled = [Claimed [rd_] false]) by (vm_compute; reflexivity).
  split; [exact E|].
  apply (claimed_operations_report_canceled false 3 being_cancelled [rd_] false rd_
           being_cancelled_reachable).
  - rewrite E. apply list_elem_of_here.
  - apply list_elem_of_here.
Defined.

Definition parked_world : world := after (take 2 read_trace).

Definition parked_st : st := enter parked_world [].

Lemma close_cancels_everything_witness :
  parked own (desc_of parked_st) rd_ = 1 /\ fd_ (this parked_st) = 3
  /\ wp do_close_socket
       (fun _ s' => exists l, (forall k, occ k l = parked own (desc_of parked_st) k)
          /\ summary (log s') = summary (log parked_st) ++ handed_back l
          /\ (forall k, k ∈ l -> cancelled (op_of s' k) = true /\ impl_ptr (op_of s' k) = true)
          /\ fd_ (this s') = closed_fd (fd_ (this parked_st))) parked_st.
Proof.
  split; [vm_compute; reflexivity|]. split; [vm_compute; reflexivity|].
  eapply wp_mono; [apply (close_cancels_everything parked_st)|].
  - reflexivity.
  - intros [] k; vm_compute; intros [= <-]; reflexivity.
  - intros [] s' (l & H1 & H2 & H3 & _ & _ & _ & _ & H4 & _). exists l.
    split; [exact H1|]. split; [exact H2|]. split; [exact H3|]. exact H4.
Defined.

(** A parked read and a reported hang-up. *)
Definition error_world : world :=
  after (take 2 read_trace ++ [(LEvent reactor_event_error, 0, [])]%nat).

Definition error_st : st := enter error_world [Ret 104].

Lemma error_event_completes_all_slots_witness :
  parked own (desc_of error_st) rd_ = 1 /\ reported_error (script error_st) = 104
  /\ wp deferred_io (fun r s' => exists l, snd r = Some l
       /\ (forall k, occ k l = parked own (desc_of error_st) k)
       /\ (forall k, k ∈ l -> errn (op_of s' k) = reported_error (script error_st)
                              /\ bytes_transferred (op_of s' k) = 0)) error_st.
Proof.
  split; [vm_compute; reflexivity|]. split; [vm_compute; reflexivity|].
  eapply wp_mono; [apply (error_event_completes_all_slots error_st)|].
  - reflexivity.
  - vm_compute. reflexivity.
  - intros [] k; vm_compute; intros [= <-]; reflexivity.
  - vm_compute. reflexivity.
  - intros r s' (l & H1 & _ & H2 & H3 & _). exists l. split; [exact H1|]. split; [exact H2|].
    exact H3.
Defined.

(** * A stop request that outlives its operation *)

(** A read is parked, the deferred I/O takes it, and only then its token is
    stopped: the callback finds the slot empty and leaves a pending
    cancellation.  The read completes.  The next read has a token that can not
    be stopped, would block, and is registered. *)
Definition stale_trace : list (label * nat * list answer) :=
  [(LInit (Read (buf 64)) stoppable false 7, 0, [Fail EAGAIN]);
   (LRegister, 0, []);
   (LEvent reactor_event_read, 0, []);
   (LEnqueue, 0, []);
   (LPop, 0, []);
   (LDeferred, 0, [Ret 5]);
   (LStop rd_, 0, []);
   (LClaim, 1, []);
   (LPostRest, 0, []);
   (LInvoke, 0, []);
   (LInit (Read (buf 64)) never false 8, 0, [Fail EAGAIN]);
   (LRegister, 0, [])]%nat.
Definition stale_world : world := after stale_trace.

(** A stop request that reaches an operation after deferred I/O has taken it from
    its slot cancels the next operation of the same kind: coroutine 8 reads
    with a token that can never be stopped, nobody cancels or closes the
    socket, and its read is posted as cancelled at once and reports
    [canceled]. *)
Theorem stale_stop_cancels_next_read :
  reachable false 3 stale_world
  /\ started stale_world = [7; 8]%nat /\ ended stale_world = [7%nat]
  /\ waiting stale_world rd_ = Some 8%nat /\ stop_cb (O stale_world rd_) = false
  /\ queue stale_world = [q_op rd_] /\ report (O stale_world rd_) = canceled.
Proof.
  split; [apply after_reachable; vm_compute; eauto|]. vm_compute. done.
Qed.

End stream_runs.

(** * Runs of a datagram socket *)

Section datagram_runs.
#[local] Existing Instances datagram_derived datagram_kind datagram_laws.

Definition peer : endpoint.t := endpoint.of_v4 (ipv4_address.of_uint 0x7F000001) 8080.

(** A [recv_from] that would block parks; an empty datagram arrives. *)
Definition recv_from_trace : list (label * nat * list answer) :=
  [(LInit (Recv_from (buf 64) (Some 40%nat) 0) never false 7, 0, [Fail EAGAIN]);
   (LRegister, 0, []);
   (LEvent reactor_event_read, 0, []);
   (LEnqueue, 0, []);
   (LPop, 0, []);
   (LDeferred, 0, [RetAddr 0 (fst (to_sockaddr AF_INET AF_INET6 peer)) 16]);
   (LPostRest, 0, [])]%nat.

Definition datagram_arrived : world := after recv_from_trace.

Lemma datagram_arrived_reachable : reachable false 3 datagram_arrived.
Proof. apply after_reachable. vm_compute. eauto. Qed.

Lemma completion_reports_result_witness :
  handled 7 (O datagram_arrived rd_)
  = [reset_inline_budget; wrote_ec 7 success; wrote_bytes 7 0; wrote_endpoint 40 peer; resumed 7]
  /\ wp (invoke rd_) (fun _ s' => log s' = handled 7 (O datagram_arrived rd_))
       (enter datagram_arrived []).
Proof.
  split; [vm_compute; reflexivity|].
  apply (completion_reports_result false 3 datagram_arrived rd_ 7 [] datagram_arrived_reachable).
  - vm_compute. reflexivity.
  - constructor.
Defined.

(** * Operations that share a slot *)

(** A [recv_from] is parked; then a [recv] of the same socket is initiated,
    would block too, and is registered; then the socket is closed. *)
Definition overlapping : IM unit :=
  and_register false rd_ (do_recv_from false 7 (buf 64) None 0 never 7 7) ≫= fun _ =>
  and_register false recv_rd_ (do_recv false 8 (buf 64) 0 never 8 8) ≫= fun _ =>
  do_close_socket.

Definition overlapped : option st :=
  match overlapping (mk_st (opened 3) false [Fail EAGAIN; Fail EAGAIN] []) with
  | Ok (_, s') => Some s'
  | _ => None
  end.

(** A [recv] that is initiated while a [recv_from] is parked takes its slot: the
    [recv_from] is in no slot and was never posted, closing the socket hands
    back the [recv] only, and one of the two units of work is kept forever, so
    the coroutine is never resumed and [run] does not return. *)
Theorem overlapping_receives_lose_one :
  match overlapped with
  | Some s' =>
      summary (log s') = [work_started; work_started; posted recv_rd_; work_finished]
      /\ forall sl, slots (desc_of s') sl = None
  | None => False
  end.
Proof. vm_compute. split; [done|]. by intros []. Qed.

End datagram_runs.
