(* ===== verification/Acceptor.v ===== *)
(** Stream acceptors of the reactor backends:
    [include/boost/corosio/native/detail/reactor/reactor_acceptor.hpp] and the
    [accept] of [reactor_backend.hpp].

    As for sockets, the code runs on a live implementation, so
    [weak_from_this().lock()] returns a pointer. *)

From stdpp Require Import functions.
From S2P Require Import Prelude StateMonad Ipv4 Ipv6 Endpoint Sockaddr ReactorOp DescriptorState.
From S2P Require Import BasicSocket StreamSocket DescriptorSpec SocketSteps SocketSpec StreamSpec.
Import reactor_op reactor_descriptor_state.

Module acceptor.
Import basic_socket stream_socket.

(** * Set-up *)

Definition init_acceptor_fd (f : Z) : IM unit :=
  upd_impl (set_socket f) ≫= fun _ =>
  upd_desc (fun d => set_desc_fd f (registered_events d) d) ≫= fun _ =>
  lock_desc ≫= fun _ =>
  upd_desc (fun d => set_slot wait_error_slot None (set_slot wait_write_slot None
    (set_slot wait_read_slot None (set_slot read_slot None d)))) ≫= fun _ =>
  unlock_desc.

Definition do_bind (ep : endpoint.t) : IM error_code :=
  i ← the_impl;
  a ← call (sys_bind (fd_ i) (to_sockaddr AF_INET AF_INET6 ep));
  match a with
  | Fail e => mret (make_err e)
  | _ =>
      a ← call (sys_getsockname (fd_ i));
      (match a with
       | RetAddr _ storage _ =>
           local ← lift (from_sockaddr_as storage);
           upd_impl (fun j => set_endpoints local (remote_endpoint_ j) j)
       | _ => skip
       end) ≫= fun _ => mret success
  end.

Definition do_listen (backlog : Z) : IM error_code :=
  i ← the_impl;
  a ← call (sys_listen (fd_ i) backlog);
  match a with
  | Fail e => mret (make_err e)
  | _ => register_descriptor (fd_ i) ≫= fun _ => mret success
  end.

(** * Cancellation *)

(** The slots an acceptor's operations park in. *)
Definition slot_of (k : op_id) : option slot :=
  match k with
  | acc_ => Some read_slot
  | wait_rd_ => Some wait_read_slot
  | wait_wr_ => Some wait_write_slot
  | wait_er_ => Some wait_error_slot
  | _ => None
  end.

(** [try_claim] on each slot in turn *)
Fixpoint try_claim (k : op_id) (l : list slot) : IM bool :=
  match l with
  | [] => mret false
  | sl :: l' =>
      d ← the_desc;
      if decide (slots d sl = Some k)
      then upd_desc (set_slot sl None) ≫= fun _ => mret true
      else try_claim k l'
  end.
Definition acceptor_slots : list slot := [read_slot; wait_read_slot; wait_write_slot; wait_error_slot].

Definition claim_single (k : op_id) : IM bool :=
  lock_desc ≫= fun _ =>
  c ← try_claim k acceptor_slots;
  unlock_desc ≫= fun _ => mret c.

Definition cancel_single_op (k : op_id) : IM unit :=
  upd_op k request_cancel ≫= fun _ =>
  claimed ← claim_single k;
  if claimed : bool then repost k else skip.

Definition do_cancel : IM unit :=
  cancel_single_op acc_ ≫= fun _ =>
  cancel_single_op wait_rd_ ≫= fun _ =>
  cancel_single_op wait_wr_ ≫= fun _ =>
  cancel_single_op wait_er_.

Definition acceptor_ops : list op_id := [acc_; wait_rd_; wait_wr_; wait_er_].

(** The critical section of [do_close_socket] and [do_release_socket]; a
    claimed slot stands for its own operation. *)
Definition take_slot (sl : slot) (k : op_id) : IM (list op_id) :=
  d ← the_desc;
  upd_desc (set_slot sl None) ≫= fun _ =>
  mret (match slots d sl with
        | Some _ => [k]
        | None => []
        end).
Definition close_claim : IM (list op_id) :=
  lock_desc ≫= fun _ =>
  a ← take_slot read_slot acc_;
  r ← take_slot wait_read_slot wait_rd_;
  w ← take_slot wait_write_slot wait_wr_;
  e ← take_slot wait_error_slot wait_er_;
  upd_desc (set_ready false false) ≫= fun _ =>
  d ← the_desc;
  (if is_enqueued_ d then upd_desc (set_impl_ref true) else skip) ≫= fun _ =>
  unlock_desc ≫= fun _ => mret (a ++ r ++ w ++ e).

Definition do_close_socket : IM unit :=
  mapM_ (fun k => upd_op k request_cancel) acceptor_ops ≫= fun _ =>
  claimed ← close_claim;
  mapM_ repost claimed ≫= fun _ =>
  drop_fd false ≫= fun _ => skip.

Definition do_release_socket : IM Z :=
  mapM_ (fun k => upd_op k request_cancel) acceptor_ops ≫= fun _ =>
  claimed ← close_claim;
  mapM_ repost claimed ≫= fun _ =>
  drop_fd true.

(** * Operations *)

(** [op.start(token, this)], with the acceptor as the owner *)
Definition start (k : op_id) (token : stop_token) : IM unit :=
  upd_op k (fun o => set_stop_cb false (set_cancelled false (set_owner acceptor_owner o)))
    ≫= fun _ =>
  match token with
  | never => skip
  | stoppable => upd_op k (set_stop_cb true)
  | stopped => upd_op k (set_stop_cb true) ≫= fun _ => cancel_single_op k
  end.

Definition prepare_wait (k : op_id) (ev : Z) (co : nat) (token : stop_token) (ec : nat) : IM unit :=
  upd_op k reset ≫= fun _ =>
  i ← the_impl;
  upd_op k (set_load (wait_op ev)) ≫= fun _ =>
  set_waiter k co ec ≫= fun _ =>
  upd_op k (set_fd (fd_ i)) ≫= fun _ =>
  start k token ≫= fun _ =>
  upd_op k (set_impl_ptr true).

(** Parking a wait: the cached edge is not looked at. *)
Definition register_wait (k : op_id) (sl : slot) : IM unit :=
  emit work_started ≫= fun _ =>
  lock_desc ≫= fun _ =>
  o ← the_op k;
  (if cancelled o then post_counted k else upd_desc (set_slot sl (Some k))) ≫= fun _ =>
  unlock_desc.

Definition do_wait (co : nat) (w : wait_type) (token : stop_token) (ec : nat) : IM unit :=
  match w with
  | wait_write =>
      prepare_wait wait_wr_ reactor_event_write co token ec ≫= fun _ =>
      upd_op wait_wr_ (complete 0 0) ≫= fun _ =>
      emit (posted wait_wr_)
  | wait_read =>
      prepare_wait wait_rd_ reactor_event_read co token ec ≫= fun _ =>
      register_wait wait_rd_ wait_read_slot
  | wait_error =>
      prepare_wait wait_er_ reactor_event_error co token ec ≫= fun _ =>
      register_wait wait_er_ wait_error_slot
  end.

(** [op.impl_ptr = shared_from_this(); op.complete(err, 0); svc_.post(&op);] *)
Definition post_accept (err : Z) : IM unit :=
  upd_op acc_ (fun o => set_impl_ptr true (complete err 0 o)) ≫= fun _ => emit (posted acc_).

(** Parking an accept that would block, unless an edge was cached. *)
Definition park_accept : IM unit :=
  upd_op acc_ (set_impl_ptr true) ≫= fun _ =>
  emit work_started ≫= fun _ =>
  lock_desc ≫= fun _ =>
  io_done ← consume_ready acc_ ref_read;
  o ← the_op acc_;
  (if io_done || cancelled o then post_counted acc_
   else upd_desc (set_slot read_slot (Some acc_))) ≫= fun _ =>
  unlock_desc.

(** The accepted descriptor when the result is delivered without suspending. *)
Definition accept_inline (stream_svc : bool) (accepted : Z) (peer : sockaddr_storage)
    (co : nat) (ec : nat) (impl_out : option nat) : IM unit :=
  i ← the_impl;
  (if stream_svc then
     emit (called (sys_epoll_add accepted EPOLL_EVENTS)) ≫= fun _ =>
     remote ← lift (from_sockaddr_as peer);
     emit (constructed accepted (local_endpoint_ i) remote) ≫= fun _ =>
     emit (wrote_ec ec success) ≫= fun _ =>
     (match impl_out with
      | Some p => emit (wrote_impl p (Some accepted))
      | None => skip
      end)
   else
     emit (called (sys_close accepted)) ≫= fun _ =>
     emit (wrote_ec ec (make_err ENOENT)) ≫= fun _ =>
     (match impl_out with
      | Some p => emit (wrote_impl p None)
      | None => skip
      end)) ≫= fun _ =>
  emit (resumed co).

Definition accepted_answer (a : answer) : option (Z * sockaddr_storage * nat) :=
  match a with
  | Ret n => Some (n, ss_zero, 0%nat)
  | RetAddr n peer len => Some (n, peer, len)
  | Fail _ => None
  end.

Definition accept (stream_svc budget : bool) (co : nat) (token : stop_token) (ec : nat)
    (impl_out : option nat) : IM unit :=
  upd_op acc_ reset ≫= fun _ =>
  set_waiter acc_ co ec ≫= fun _ =>
  i ← the_impl;
  upd_op acc_ (fun o => set_fd (fd_ i) (set_load (accept_op (-1) impl_out ss_zero 0) o)) ≫= fun _ =>
  start acc_ token ≫= fun _ =>
  a ← policy_accept (fd_ i);
  match accepted_answer a with
  | Some (accepted, peer, len) =>
      lock_desc ≫= fun _ =>
      upd_desc (fun d => set_ready false (write_ready d) d) ≫= fun _ =>
      unlock_desc ≫= fun _ =>
      if budget then accept_inline stream_svc accepted peer co ec impl_out
      else
        upd_op acc_ (set_load (accept_op accepted impl_out peer len)) ≫= fun _ =>
        post_accept 0
  | None =>
      let errno := match a with
                   | Fail e => e
                   | _ => 0
                   end in
      if would_block errno then park_accept else post_accept errno
  end.

End acceptor.

Import basic_socket stream_socket acceptor.

(** * An accepted descriptor has one owner *)

(** The descriptors that a run hands to new sockets, with the peers they are
    given, the descriptors it closes, what it tells the coroutines about the new
    socket, and the coroutines it resumes. *)
Definition constructions (l : list effect) : list (Z * endpoint.t) :=
  omap (fun e => match e with constructed n _ remote => Some (n, remote) | _ => None end) l.
Definition closes (l : list effect) : list Z :=
  omap (fun e => match e with called (sys_close n) => Some n | _ => None end) l.
Definition told (l : list effect) : list (nat * option Z) :=
  omap (fun e => match e with wrote_impl p r => Some (p, r) | _ => None end) l.
Definition resumptions (l : list effect) : list nat :=
  omap (fun e => match e with resumed co => Some co | _ => None end) l.

Definition tell (out : option nat) (r : option Z) : list effect :=
  match out with Some p => [wrote_impl p r] | None => [] end.

(** An accept that has taken descriptor [n] from the system. *)
Definition accepted_op (n : Z) (out : option nat) (peer : sockaddr_storage) (o : op) : Prop :=
  exists len, load o = accept_op n out peer len /\ owned_by o = acceptor_owner
              /\ is_Some (ec_out o).

Definition fd_cleared (o : op) : Prop :=
  exists out peer len, load o = accept_op (-1) out peer len.

(** A run that appends [l] to the log. *)
Definition appends (l : list effect) (s s' : st) : Prop := log s' = log s ++ l.

Lemma decode_appends q c e s :
  wp (decode_io_result (Some q) c e false 0 false)
    (fun _ s' => this s' = this s
       /\ appends [wrote_ec q (if c then canceled else if is_error e then e else success)] s s') s.
Proof. unfold decode_io_result. repeat case_match; im_steps; done. Qed.

Lemma setup_appends n peer out p svc s ep :
  from_sockaddr_as peer = Ok ep ->
  wp (setup_accepted_socket svc n peer out (Some p))
    (fun b s' => b = svc /\ this s' = this s
       /\ appends (if svc then [called (sys_epoll_add n EPOLL_EVENTS);
                                constructed n (local_endpoint_ (this s)) ep] ++ tell out (Some n)
                   else [wrote_ec p (make_err ENOENT)]) s s') s.
Proof.
  intros Hep. unfold setup_accepted_socket, appends. destruct svc; cbn [negb]; im_steps.
  - unfold lift. rewrite Hep. im_steps.
    destruct out; im_steps; (split; [done|]; split; [done|]); cbn; by rewrite <- !app_assoc.
  - apply (wp_deref _ p); [done|]. im_steps. done.
Qed.

Lemma drop_appends k n out peer len s :
  0 <= n ->
  wp (drop_accepted k n out peer len)
    (fun _ s' => fd_cleared (op_of s' k) /\ h (op_of s' k) = h (op_of s k)
       /\ appends (called (sys_close n) :: tell out None) s s') s.
Proof.
  intros Hn%Z.leb_le. unfold drop_accepted. rewrite Hn. im_steps.
  assert (F : forall s', ops (this s') = ops (this (with_op k (set_load (accept_op (-1) out peer len)) s)) ->
    fd_cleared (op_of s' k) /\ h (op_of s' k) = h (op_of s k)).
  { intros s' E. rewrite E, with_op_eq. split; [|done]. unfold fd_cleared. cbn. eauto. }
  unfold appends. destruct out; im_steps; (split; [by apply F|split; [by apply F|]]); cbn; [by rewrite <- app_assoc|done].
Qed.

Lemma resume_appends k s :
  wp (coro_resume k) (fun _ s' => load (op_of s' k) = load (op_of s k)
                                  /\ appends [resumed (h (op_of s k))] s s') s.
Proof.
  unfold coro_resume. im_steps. split; [|done].
  change (load (op_of (with_op k (set_impl_ptr false) s) k) = load (op_of s k)).
  by rewrite with_op_eq.
Qed.

(** The connection becomes a socket. *)
Definition served (svc : bool) (o : op) : bool := (errn o =? 0) && negb (cancelled o) && svc.

(** What the completion of an accept appends to the log, after the budget. *)
Definition accept_log (svc : bool) (n : Z) (local remote : endpoint.t) (q : nat) (out : option nat)
    (o : op) : list effect :=
  wrote_ec q (if cancelled o then canceled else if is_error (op_error o) then op_error o else success)
  :: (if served svc o
      then [called (sys_epoll_add n EPOLL_EVENTS); constructed n local remote] ++ tell out (Some n)
      else (if (errn o =? 0) && negb (cancelled o) then [wrote_ec q (make_err ENOENT)] else [])
           ++ called (sys_close n) :: tell out None)
  ++ [resumed (h o)].

(** The end of [complete_accept_op], once it is known whether the connection
    became a socket. *)
Lemma accept_tail n out peer len (ok : bool) co s :
  0 <= n -> h (op_of s acc_) = co -> (ok = true -> fd_cleared (op_of s acc_)) ->
  wp ((if ok then skip else drop_accepted acc_ n out peer len) ≫= fun _ => coro_resume acc_)
    (fun _ s' => fd_cleared (op_of s' acc_)
       /\ appends ((if ok then [] else called (sys_close n) :: tell out None) ++ [resumed co]) s s') s.
Proof.
  intros Hn Hh Hc. im_step.
  eapply (wp_mono _ (fun _ s' => fd_cleared (op_of s' acc_) /\ h (op_of s' acc_) = co
            /\ appends (if ok then [] else called (sys_close n) :: tell out None) s s')).
  - destruct ok; [im_steps; split; [auto|]; split; [done|]; unfold appends; by rewrite app_nil_r|].
    eapply wp_mono; [by apply drop_appends|]. intros [] s1 (F & -> & A). done.
  - intros [] s1 (F & Hh1 & A). eapply wp_mono; [apply resume_appends|]. intros [] s2 [E A2].
    unfold fd_cleared, appends in *. rewrite E. split; [done|]. by rewrite A2, A, Hh1, <- app_assoc.
Qed.

Lemma accept_appends svc n out peer ep s :
  0 <= n -> accepted_op n out peer (op_of s acc_) -> from_sockaddr_as peer = Ok ep ->
  wp (complete_accept_op svc acc_)
    (fun _ s' => fd_cleared (op_of s' acc_) /\ exists q,
       appends ((if scheduler_ (desc_of s) then [reset_inline_budget] else [])
                ++ accept_log svc n (local_endpoint_ (this s)) ep q out (op_of s acc_)) s s') s.
Proof.
  intros Hn (len & Hl & Ho & [q Hq]) Hep. unfold complete_accept_op. im_steps.
  rewrite with_op_eq. cbn [owned_by set_stop_cb load ec_out cancelled errn]. rewrite Ho, Hl, Hq.
  set (b := if scheduler_ (desc_of s) then [reset_inline_budget] else []).
  set (o := op_of s acc_). set (s0 := with_op acc_ (set_stop_cb false) s).
  eapply (wp_mono _ (fun _ s' => this s' = this s0 /\ appends b s s')).
  { change (desc_of s0) with (desc_of s). unfold b, appends.
    destruct (scheduler_ (desc_of s)); im_steps; [done|]. by rewrite app_nil_r. }
  intros [] s1 [T1 A1]. im_step. eapply wp_mono; [apply decode_appends|].
  intros [] s2 [T2 A2]. cbn zeta. im_step. apply Z.leb_le in Hn as Hn'. rewrite Hn', andb_true_r.
  assert (H2 : h (op_of s2 acc_) = h o) by (rewrite T2, T1; unfold s0; by rewrite with_op_eq).
  unfold appends, accept_log, served in *. fold o.
  change (op_error (set_stop_cb false o)) with (op_error o) in A2.
  destruct ((errn o =? 0) && negb (cancelled o)) eqn:Ok.
  - im_step. eapply wp_mono; [by apply setup_appends|]. intros c s3 (-> & T3 & A3).
    unfold appends in A3.
    replace (local_endpoint_ (this s2)) with (local_endpoint_ (this s)) in A3 by (by rewrite T2, T1).
    destruct svc; do 3 im_step.
    + eapply wp_mono; [apply (accept_tail n out peer len true (h o)); [done| |]|].
      * by rewrite with_op_eq, T3.
      * intros _. rewrite with_op_eq. unfold fd_cleared. cbn. eauto.
      * intros [] s4 [F4 A4]. split; [done|]. exists q. unfold appends in A4.
        rewrite A4. cbn [log with_op with_impl]. rewrite A3, A2, A1. cbn. by rewrite <- !app_assoc.
    + eapply wp_mono; [apply (accept_tail n out peer len false (h o)); [done|by rewrite T3|done]|].
      intros [] s4 [F4 A4]. split; [done|]. exists q. unfold appends in A4.
      rewrite A4, A3, A2, A1. cbn. by rewrite <- !app_assoc.
  - im_step. eapply wp_mono; [by apply (accept_tail n out peer len false (h o))|].
    intros [] s4 [F4 A4]. split; [done|]. exists q. unfold appends in A4.
    rewrite A4, A2, A1. cbn. by rewrite <- !app_assoc.
Qed.

(** C36: A connection that was accepted is neither leaked nor owned twice.  If
    the accept neither failed nor was cancelled and the acceptor has a stream
    service, its completion hands the descriptor to exactly one new socket, with
    the peer's endpoint, tells the coroutine so and closes nothing; otherwise it
    constructs no socket, closes the descriptor exactly once and tells the coroutine
    that there is no socket.  Either way the operation forgets the descriptor and
    the coroutine is resumed once.  (The peer's address is one that the system
    writes, which [from_sockaddr_as] can read.) *)
Theorem accepted_descriptor_has_one_owner svc n out peer ep s :
  0 <= n -> accepted_op n out peer (op_of s acc_) -> from_sockaddr_as peer = Ok ep ->
  wp (complete_accept_op svc acc_)
    (fun _ s' => fd_cleared (op_of s' acc_) /\ exists l, log s' = log s ++ l
       /\ constructions l = (if served svc (op_of s acc_) then [(n, ep)] else [])
       /\ closes l = (if served svc (op_of s acc_) then [] else [n])
       /\ told l = match out with
                   | Some p => [(p, if served svc (op_of s acc_) then Some n else None)]
                   | None => []
                   end
       /\ resumptions l = [h (op_of s acc_)]) s.
Proof.
  intros Hn Ha Hep. eapply wp_mono; [by eapply accept_appends|].
  intros [] s' [F [q A]]. split; [done|]. eexists. split; [exact A|].
  unfold accept_log. destruct (scheduler_ (desc_of s)), (served svc (op_of s acc_)), out; try done;
    by destruct ((errn (op_of s acc_) =? 0) && negb (cancelled (op_of s acc_))).
Qed.

(** A finished accept of descriptor 9 from 127.0.0.1:80, not cancelled. *)
Definition loopback_peer : sockaddr_storage :=
  ss_in (mk_in AF_INET (htons 80) (ipv4_address.to_bytes ipv4_address.loopback)).
Definition accepted_st : st :=
  mk_st (mk_impl (fun _ => mk_op (accept_op 9 (Some 1%nat) loopback_peer 16) 3 0 0 false false 7
                             (Some 7%nat) None true acceptor_owner)
           (set_scheduler true new_desc) 3 endpoint.default endpoint.default) false [] [].

(** The same accept, cancelled. *)
Definition cancelled_st : st :=
  mk_st (mk_impl (fun _ => set_cancelled true (op_of accepted_st acc_))
           (set_scheduler true new_desc) 3 endpoint.default endpoint.default) false [] [].

Lemma accepted_descriptor_has_one_owner_witness :
  wp (complete_accept_op true acc_)
    (fun _ s' => exists l, log s' = log accepted_st ++ l
       /\ map fst (constructions l) = [9] /\ closes l = []) accepted_st
  /\ wp (complete_accept_op true acc_)
       (fun _ s' => exists l, log s' = log cancelled_st ++ l
          /\ constructions l = [] /\ closes l = [9] /\ told l = [(1%nat, None)]) cancelled_st.
Proof.
  split.
  - eapply wp_mono; [eapply (accepted_descriptor_has_one_owner true 9 (Some 1%nat) loopback_peer)|].
    + lia.
    + exists 16%nat. repeat split. eexists. reflexivity.
    + vm_compute. reflexivity.
    + intros [] s' (_ & l & A & C & D & _). exists l. rewrite C, D. done.
  - eapply wp_mono; [eapply (accepted_descriptor_has_one_owner true 9 (Some 1%nat) loopback_peer)|].
    + lia.
    + exists 16%nat. repeat split. eexists. reflexivity.
    + vm_compute. reflexivity.
    + intros [] s' (_ & l & A & C & D & E & _). exists l. rewrite C, D, E. done.
Defined.

(** * A wait that misses its edge *)

Definition usable (token : stop_token) : Prop :=
  match token with
  | stopped => False
  | _ => True
  end.

Lemma acceptor_start_spec k token s :
  usable token ->
  wp (start k token)
    (fun _ s' => cancelled (op_of s' k) = false /\ desc_of s' = desc_of s
                 /\ owns s' = owns s /\ log s' = log s) s.
Proof.
  intros Ht. unfold start. im_steps. destruct token; [| |done]; im_steps.
  - split; [by rewrite with_op_eq|done].
  - split; [by rewrite !with_op_eq|done].
Qed.

(** A wait for an incoming connection on an acceptor does not see an edge that
    was cached before it: with [read_ready] set, because a connection arrived
    while nothing was parked, [do_wait] parks the operation, posts nothing and
    leaves the edge unused, so the wait ends only when a further event comes. *)
Theorem acceptor_wait_misses_cached_edge co token ec s :
  usable token -> owns s = false -> read_ready (desc_of s) = true ->
  wp (do_wait co wait_read token ec)
    (fun _ s' => slots (desc_of s') wait_read_slot = Some wait_rd_
                 /\ read_ready (desc_of s') = true /\ owns s' = false
                 /\ log s' = log s ++ [work_started]) s.
Proof.
  intros Ht Ho Hr. unfold do_wait, prepare_wait, set_waiter. im_steps.
  eapply wp_mono; [by apply acceptor_start_spec|]. intros [] s1 (C1 & D1 & O1 & L1). im_steps.
  unfold register_wait. im_steps. apply wp_lock_desc; [cbn; by rewrite O1|]. im_steps.
  change (op_of (with_owns true (with_log work_started (with_op wait_rd_ (set_impl_ptr true) s1))) wait_rd_)
    with (op_of (with_op wait_rd_ (set_impl_ptr true) s1) wait_rd_).
  rewrite with_op_eq. cbn [cancelled set_impl_ptr]. rewrite C1. im_steps.
  apply wp_unlock_desc; [done|]. cbn. rewrite D1, L1. rewrite fn_lookup_insert. done.
Qed.

#[local] Existing Instances stream_derived stream_kind.

(** A listening acceptor on which a connection has arrived. *)
Definition listening_st : st :=
  mk_st (mk_impl (ops new_impl) (set_ready true false (registered 3 new_desc)) 3 endpoint.default
           endpoint.default) false [] [].

Lemma acceptor_wait_misses_cached_edge_witness :
  wp (do_wait 7 wait_read never 7)
    (fun _ s' => slots (desc_of s') wait_read_slot = Some wait_rd_
                 /\ read_ready (desc_of s') = true /\ owns s' = false
                 /\ log s' = log listening_st ++ [work_started]) listening_st.
Proof. by apply (acceptor_wait_misses_cached_edge 7 never 7 listening_st). Defined.

(** The same wait on a stream socket consumes the edge and is posted. *)
Example stream_wait_uses_cached_edge :
  wp (and_register false wait_rd_ (stream_socket.do_wait false 7 wait_read never 7))
    (fun _ s' => slots (desc_of s') wait_read_slot = None
                 /\ read_ready (desc_of s') = false
                 /\ log s' = [work_started; posted wait_rd_; work_finished]) listening_st.
Proof. vm_compute. done. Qed.
