(* ===== verification/EventQueue.v ===== *)
(** The hand-over of events from a reactor to the threads that serve them, as the
    epoll, select and kqueue schedulers use it: [ready_events_] and [is_enqueued_] of
    [reactor_descriptor_state], the reactor's [local_ops], [completed_ops_], and
    the beginning of [invoke_deferred_io].

    One step per access to what threads share: the reactor adds events and only
    then tries to enqueue the descriptor state; the thread that has popped it
    clears [is_enqueued_] and only then takes the events. *)

From stdpp Require Import gmap.
From S2P Require Import Prelude.

Module event_queue.

(** [running] are the descriptor states that a thread has popped, [taking] those
    whose [invoke_deferred_io] has cleared [is_enqueued_] and not yet taken the
    events. *)
Record event_queue := mk_queue {
  ready_events_ : gmap nat Z;
  is_enqueued_ : gset nat;
  local_ops : list nat;
  completed_ops_ : list nat;
  running : list nat;
  taking : list nat
}.

Definition set_ready (m : gmap nat Z) (q : event_queue) : event_queue :=
  mk_queue m (is_enqueued_ q) (local_ops q) (completed_ops_ q) (running q) (taking q).
Definition set_enqueued (s : gset nat) (l : list nat) (q : event_queue) : event_queue :=
  mk_queue (ready_events_ q) s l (completed_ops_ q) (running q) (taking q).

(** The events of a descriptor state. *)
Definition ready_of (q : event_queue) (d : nat) : Z := default 0 (ready_events_ q !! d).

(** [ready_events_.store(0)] of [register_descriptor] *)
Definition forget_events (d : nat) (q : event_queue) : event_queue :=
  set_ready (<[d := 0]> (ready_events_ q)) q.

(** [add_ready_events] *)
Definition add_ready_events (d : nat) (flags : Z) (q : event_queue) : event_queue :=
  set_ready (<[d := Z.lor (ready_of q d) flags]> (ready_events_ q)) q.

(** The exchange of [is_enqueued_], and the push. *)
Definition enqueue (d : nat) (q : event_queue) : event_queue :=
  if decide (d ∈ is_enqueued_ q) then q
  else set_enqueued ({[d]} ∪ is_enqueued_ q) (local_ops q ++ [d]) q.

(** [completed_ops_.splice(local_ops)] *)
Definition splice (q : event_queue) : event_queue :=
  mk_queue (ready_events_ q) (is_enqueued_ q) [] (completed_ops_ q ++ local_ops q)
    (running q) (taking q).

(** The threads that serve descriptors; [locked] when another thread holds the
    mutex of the scheduler. *)
Inductive worker_step (locked : bool) (q : event_queue) : event_queue -> Prop :=
| w_pop d l :
    locked = false -> completed_ops_ q = d :: l ->
    worker_step locked q (mk_queue (ready_events_ q) (is_enqueued_ q) (local_ops q) l
                            (d :: running q) (taking q))
| w_clear d u v :  (* [is_enqueued_.store(false)] *)
    running q = u ++ d :: v ->
    worker_step locked q (mk_queue (ready_events_ q) (is_enqueued_ q ∖ {[d]}) (local_ops q)
                            (completed_ops_ q) (u ++ v) (d :: taking q))
| w_take d u v :  (* [ready_events_.exchange(0)] *)
    taking q = u ++ d :: v ->
    worker_step locked q (mk_queue (<[d := 0]> (ready_events_ q)) (is_enqueued_ q) (local_ops q)
                            (completed_ops_ q) (running q) (u ++ v)).

Definition empty_queue : event_queue := mk_queue ∅ ∅ [] [] [] [].

(** The descriptor states that are in a queue or popped from one. *)
Definition queued (q : event_queue) : list nat := local_ops q ++ completed_ops_ q ++ running q.

(** Somebody will look at the events of [d]; [adding] is the descriptor state that
    the reactor is about to enqueue. *)
Definition attended (adding : option nat) (q : event_queue) (d : nat) : Prop :=
  d ∈ is_enqueued_ q \/ d ∈ taking q \/ adding = Some d.

Record queue_inv (adding : option nat) (q : event_queue) : Prop := {
  i_nodup : NoDup (queued q);
  i_enqueued : forall d, d ∈ is_enqueued_ q <-> d ∈ queued q;
  i_ready : forall d, ready_of q d <> 0 -> attended adding q d
}.

End event_queue.
Import event_queue.

Lemma queue_inv_empty : queue_inv None empty_queue.
Proof. split; unfold queued; cbn; [by apply list.NoDup_nil|set_solver|done]. Qed.

Lemma ready_insert q m d x d' :
  ready_events_ q = <[d := x]> m -> ready_of q d' = if decide (d' = d) then x else default 0 (m !! d').
Proof.
  intros E. unfold ready_of. rewrite E. case_decide as H; [by subst; rewrite lookup_insert_eq|].
  by rewrite lookup_insert_ne.
Qed.

Lemma queue_inv_forget a d q : queue_inv a q -> queue_inv a (forget_events d q).
Proof.
  intros [In Ie Ir]. split; [done..|]. intros d'. rewrite (ready_insert _ (ready_events_ q) d 0) by done.
  case_decide; [done|apply Ir].
Qed.

Lemma queue_inv_add d flags q : queue_inv None q -> queue_inv (Some d) (add_ready_events d flags q).
Proof.
  intros [In Ie Ir]. split; [done..|]. intros d'. unfold attended; cbn.
  rewrite (ready_insert _ (ready_events_ q) d (Z.lor (ready_of q d) flags)) by done.
  case_decide as Hd; [by subst; auto|]. intros Hr. by destruct (Ir d' Hr) as [?|[?|?]]; auto.
Qed.

Lemma queue_inv_enqueue d q : queue_inv (Some d) q -> queue_inv None (enqueue d q).
Proof.
  intros [In Ie Ir]. unfold enqueue. case_decide as Hd.
  - split; [done..|]. intros d' Hr. by destruct (Ir d' Hr) as [?|[?|[= <-]]]; [left|right; left|left].
  - split; unfold queued; cbn.
    + rewrite <- app_assoc. cbn. rewrite <- Permutation_middle. apply list.NoDup_cons; split; [|done].
      fold (queued q). by rewrite <- Ie.
    + intros d'. rewrite elem_of_union, Ie. unfold queued. set_solver.
    + intros d' Hr. unfold attended; cbn. rewrite elem_of_union, elem_of_singleton.
      destruct (Ir d' Hr) as [?|[?|[= <-]]]; auto.
Qed.

Lemma queue_inv_splice q : queue_inv None q -> queue_inv None (splice q).
Proof.
  intros [In Ie Ir]. assert (P : queued (splice q) ≡ₚ queued q).
  { unfold queued; cbn. by rewrite <- app_assoc, Permutation_app_swap_app. }
  split; [by rewrite P|intros d; rewrite P; apply Ie|apply Ir].
Qed.

Lemma queue_inv_worker locked a q q' : worker_step locked q q' -> queue_inv a q -> queue_inv a q'.
Proof.
  intros S [In Ie Ir]. destruct S as [d l _ E|d u v E|d u v E].
  - set (q' := mk_queue _ _ _ _ _ _). assert (P : queued q' ≡ₚ queued q).
    { unfold queued; cbn. rewrite E. cbn. by rewrite <- Permutation_middle. }
    split; [by rewrite P|intros d'; rewrite P; apply Ie|apply Ir].
  - assert (P : queued q ≡ₚ d :: local_ops q ++ completed_ops_ q ++ u ++ v).
    { unfold queued. rewrite E. by rewrite !Permutation_middle. }
    rewrite P in In. apply list.NoDup_cons in In as [Hd In]. split; unfold queued; cbn; [done| |].
    + intros d'. rewrite elem_of_difference, Ie, P, elem_of_singleton, list.elem_of_cons.
      split; [by intros [[?|?] ?]|]. intros Hi. split; [by right|]. by intros ->.
    + intros d' Hr. unfold attended; cbn. rewrite elem_of_difference, elem_of_singleton, list.elem_of_cons.
      destruct (decide (d' = d)) as [->|]; [by auto|]. by destruct (Ir d' Hr) as [?|[?|?]]; auto.
  - split; [done..|]. intros d' Hr. rewrite (ready_insert _ (ready_events_ q) d 0) in Hr by done.
    case_decide as Hd; [done|]. unfold attended; cbn.
    destruct (Ir d' Hr) as [?|[Ht|?]]; [by auto| |by auto]. right; left. rewrite E in Ht. set_solver.
Qed.

Create HintDb event_queue.
#[export] Hint Resolve queue_inv_empty queue_inv_forget queue_inv_add queue_inv_enqueue queue_inv_splice
  queue_inv_worker : event_queue.
