(* ===== verification/Epoll.v ===== *)
(** The epoll backend around the scheduler:
    [include/boost/corosio/native/detail/epoll/epoll_scheduler.hpp] — the poll
    time-out, the timer descriptor, the interrupt descriptor and the delivery
    of events to descriptor states — and the bounded waits of
    [include/boost/corosio/io_context.hpp] that call it.

    Time points and durations are nanoseconds in 64 bits; the monotonic clock
    is not negative.  [run_task] is a step relation, one step per atomic
    access, between the thread that runs it and every thread that changes the
    timers or interrupts the reactor. *)

From stdpp Require Import gmap relations.
From S2P Require Import Prelude EventQueue.
Import event_queue.

Module epoll_scheduler.

(** * The poll time-out *)

Definition int_of (z : Z) : Z := (z + 2 ^ 31) mod 2 ^ 32 - 2 ^ 31.

(** [timeout_ms] of [run_task]; [long] division truncates. *)
Definition timeout_ms (task_interrupted : bool) (timeout_us : Z) : Z :=
  if task_interrupted then 0
  else if timeout_us <? 0 then -1
  else int_of (Z.quot (timeout_us + 999) 1000).

(** [io_context::run_one_until]: the microseconds passed to [wait_one], for a
    deadline [abs_time] at the time [now]. *)
Definition wait_usec (abs_time now : Z) : Z :=
  let rel_time := abs_time - now in
  let rel_time := if rel_time <? 0 then 0
                  else if 1000000000 <? rel_time then 1000000000
                  else rel_time in
  Z.quot rel_time 1000.

(** The loop of [run_one_until]: [clock] are the readings of the clock, the
    first one taken before the loop, and [outcomes] the results of [wait_one]
    with the [stopped] flag after it.  Running out of either is a loop still
    going on. *)
Fixpoint run_one_until (abs_time : Z) (clock : list Z) (outcomes : list (nat * bool)) :
    option nat :=
  match clock, outcomes with
  | now :: clock', (s, stopped) :: outcomes' =>
      if (0 <? s)%nat || stopped then Some s
      else match clock' with
           | [] => None
           | now' :: _ => if abs_time <=? now' then Some 0%nat
                          else run_one_until abs_time clock' outcomes'
           end
  | _, _ => None
  end.

(** * The timer descriptor *)

(** [time_point::max()] *)
Definition time_point_max : Z := int64_max.

(** [itimerspec::it_value]; both fields zero disarm the timer. *)
Record timespec := mk_timespec { tv_sec : Z; tv_nsec : Z }.

Definition update_timerfd (nearest now : Z) : timespec :=
  if nearest =? time_point_max then mk_timespec 0 0
  else if nearest <=? now then mk_timespec 0 1
  else
    let nsec := nearest - now in
    let sec := Z.quot nsec 1000000000 in
    let ns := Z.rem nsec 1000000000 in
    if (sec =? 0) && (ns =? 0) then mk_timespec sec 1 else mk_timespec sec ns.

(** * Interrupting the reactor and delivering events *)

(** [data.ptr] of an event: null for the interrupt descriptor, the address of
    the timer descriptor, or a descriptor state with the [events] reported. *)
Inductive event_ptr := event_fd | timer_fd | desc_ptr (d : nat) (events : Z).

#[export] Instance event_ptr_eq_dec : EqDecision event_ptr.
Proof. solve_decision. Defined.

(** Where [update_timerfd] was called from. *)
Inductive caller := before_wait | after_timers.

(** The program counter of the thread that runs the reactor. *)
Inductive phase :=
| outside                                       (* not in [run_task] *)
| update_begins (k : caller)                    (* calls [update_timerfd] *)
| update_read (nearest : Z) (k : caller)        (* has read [nearest_expiry()] *)
| polling                                       (* in [epoll_wait] *)
| handling (evs : list event_ptr) (check_timers : bool)
| drained (evs : list event_ptr) (check_timers : bool)  (* read [event_fd_] *)
| adding (d : nat) (evs : list event_ptr) (check_timers : bool)
    (* between [add_ready_events] and the exchange of [is_enqueued_] *)
| expiring.                                     (* in [process_expired] *)

(** [pending] and [edge] are the counter of the interrupt descriptor and the
    edge that [epoll] has not reported yet; [programmed] is the expiry the
    timer descriptor was last set for ([time_point_max] when disarmed).
    [nearest] is [cached_nearest_ns_].  Threads on their way through the
    callback of the timer service or [interrupt_reactor] are counted: [changed]
    have an earlier [nearest] and not yet stored [timerfd_stale_],
    [interrupting] are before the exchange of [eventfd_armed_] and [writing]
    between the exchange and the [write].  [queue] is how the descriptor states
    travel from the reactor to the threads that serve them. *)
Record reactor := mk_reactor {
  eventfd_armed_ : bool;
  timerfd_stale_ : bool;
  pending : Z;
  edge : bool;
  programmed : Z;
  nearest : Z;
  changed : nat;
  interrupting : nat;
  writing : nat;
  queue : event_queue;
  at_phase : phase
}.

Definition initial : reactor :=
  mk_reactor false false 0 false time_point_max time_point_max 0 0 0 empty_queue outside.

Definition set_phase (p : phase) (r : reactor) : reactor :=
  mk_reactor (eventfd_armed_ r) (timerfd_stale_ r) (pending r) (edge r) (programmed r) (nearest r)
    (changed r) (interrupting r) (writing r) (queue r) p.
Definition set_stale (b : bool) (r : reactor) : reactor :=
  mk_reactor (eventfd_armed_ r) b (pending r) (edge r) (programmed r) (nearest r)
    (changed r) (interrupting r) (writing r) (queue r)
    (at_phase r).
Definition set_armed (b : bool) (r : reactor) : reactor :=
  mk_reactor b (timerfd_stale_ r) (pending r) (edge r) (programmed r) (nearest r)
    (changed r) (interrupting r) (writing r) (queue r)
    (at_phase r).
Definition set_counter (n : Z) (e : bool) (r : reactor) : reactor :=
  mk_reactor (eventfd_armed_ r) (timerfd_stale_ r) n e (programmed r) (nearest r)
    (changed r) (interrupting r) (writing r) (queue r)
    (at_phase r).
Definition set_programmed (t : Z) (r : reactor) : reactor :=
  mk_reactor (eventfd_armed_ r) (timerfd_stale_ r) (pending r) (edge r) t (nearest r)
    (changed r) (interrupting r) (writing r) (queue r)
    (at_phase r).
Definition set_nearest (t : Z) (r : reactor) : reactor :=
  mk_reactor (eventfd_armed_ r) (timerfd_stale_ r) (pending r) (edge r) (programmed r) t
    (changed r) (interrupting r) (writing r) (queue r)
    (at_phase r).
Definition set_threads (c i w : nat) (r : reactor) : reactor :=
  mk_reactor (eventfd_armed_ r) (timerfd_stale_ r) (pending r) (edge r) (programmed r) (nearest r)
    c i w (queue r) (at_phase r).
Definition set_queue (q : event_queue) (r : reactor) : reactor :=
  mk_reactor (eventfd_armed_ r) (timerfd_stale_ r) (pending r) (edge r) (programmed r) (nearest r)
    (changed r) (interrupting r) (writing r) q (at_phase r).

(** [epoll_wait] can report the interrupt descriptor: an edge not reported
    yet, of a descriptor that is still readable. *)
Definition signalled (r : reactor) : bool := edge r && (0 <? pending r).

(** The exchange of [interrupt_reactor]: whether the caller goes on to
    [write]. *)
Definition interrupt_exchange (r : reactor) : reactor * bool :=
  if eventfd_armed_ r then (r, false) else (set_armed true r, true).

(** The end of the loop over the events. *)
Definition after_events (check_timers : bool) (r : reactor) : reactor :=
  if check_timers then set_phase expiring r
  else set_phase outside (set_queue (splice (queue r)) r).

Definition after_update (k : caller) (r : reactor) : reactor :=
  match k with
  | before_wait => set_phase polling r
  | after_timers => after_events false r
  end.

(** One step of the thread in [run_task]. *)
Inductive task_step (r : reactor) : reactor -> Prop :=
| task_flush :          (* [timerfd_stale_.exchange(false)] *)
    at_phase r = outside ->
    task_step r (set_stale false
                   (set_phase (if timerfd_stale_ r then update_begins before_wait else polling) r))
| task_read_nearest k :
    at_phase r = update_begins k ->
    task_step r (set_phase (update_read (nearest r) k) r)
| task_settime n k :    (* [timerfd_settime] *)
    at_phase r = update_read n k ->
    task_step r (after_update k (set_programmed n r))
| task_epoll_wait evs : (* [epoll_wait] returns some of the ready descriptors *)
    at_phase r = polling ->
    (event_fd ∈ evs -> signalled r = true) ->
    task_step r (set_phase (handling evs false)
                   (if decide (event_fd ∈ evs) then set_counter (pending r) false r else r))
| task_event_fd evs b : (* [read(event_fd_)] resets the counter *)
    at_phase r = handling (event_fd :: evs) b ->
    task_step r (set_phase (drained evs b) (set_counter 0 (edge r) r))
| task_disarm evs b :   (* [eventfd_armed_.store(false)] *)
    at_phase r = drained evs b ->
    task_step r (set_phase (handling evs b) (set_armed false r))
| task_timer_fd evs b : (* an expired one-shot timer descriptor is disarmed *)
    at_phase r = handling (timer_fd :: evs) b ->
    task_step r (set_phase (handling evs true) (set_programmed time_point_max r))
| task_desc d ev evs b :   (* [add_ready_events] *)
    at_phase r = handling (desc_ptr d ev :: evs) b ->
    task_step r (set_phase (adding d evs b) (set_queue (add_ready_events d ev (queue r)) r))
| task_enqueue d evs b :   (* the exchange of [is_enqueued_], and the push *)
    at_phase r = adding d evs b ->
    task_step r (set_phase (handling evs b) (set_queue (enqueue d (queue r)) r))
| task_events_done b :
    at_phase r = handling [] b -> task_step r (after_events b r)
| task_expired t :      (* [process_expired] removes the timers that are due *)
    at_phase r = expiring -> nearest r <= t -> t <= time_point_max ->
    task_step r (set_phase (update_begins after_timers) (set_nearest t r)).

(** One step of any other thread: a timer operation, the callback given to
    [set_on_earliest_changed], [interrupt_reactor], the registration of a
    descriptor, or a thread that pops a descriptor state, clears its
    [is_enqueued_] and takes its events, each a step of its own. *)
Inductive other_step (r : reactor) : reactor -> Prop :=
| other_earlier t :     (* an expiry before the earliest one is published *)
    t < nearest r ->
    other_step r (set_threads (S (changed r)) (interrupting r) (writing r) (set_nearest t r))
| other_later t :       (* a timer is removed or moved back *)
    nearest r <= t -> t <= time_point_max -> other_step r (set_nearest t r)
| other_notify :        (* a callback for an expiry that did not change *)
    other_step r (set_threads (S (changed r)) (interrupting r) (writing r) r)
| other_store_stale n : (* [timerfd_stale_.store(true)] *)
    changed r = S n ->
    other_step r (set_stale true (set_threads n (S (interrupting r)) (writing r) r))
| other_interrupt :     (* the scheduler calls [interrupt_reactor] *)
    other_step r (set_threads (changed r) (S (interrupting r)) (writing r) r)
| other_exchange n r' b :
    interrupting r = S n -> interrupt_exchange r = (r', b) ->
    other_step r (set_threads (changed r) n (if b then S (writing r) else writing r) r')
| other_write n :       (* [write(event_fd_, 1)] *)
    writing r = S n ->
    other_step r (set_counter (pending r + 1) true
                    (set_threads (changed r) (interrupting r) n r))
| other_register d :    (* [ready_events_.store(0)] of [register_descriptor] *)
    other_step r (set_queue (forget_events d (queue r)) r)
| other_worker q :
    worker_step false (queue r) q -> other_step r (set_queue q r).

Definition step (r r' : reactor) : Prop := task_step r r' \/ other_step r r'.

Definition reachable : reactor -> Prop := rtc step initial.

End epoll_scheduler.
Import epoll_scheduler.

(** * The poll time-out and the timer descriptor *)

Lemma int_of_small z : - 2 ^ 31 <= z < 2 ^ 31 -> int_of z = z.
Proof. intros. unfold int_of. rewrite Z.mod_small; lia. Qed.

(** A bounded wait neither ends early nor overflows.  For fewer than
    [2 ^ 31 - 1] milliseconds the time-out that reaches [epoll_wait] fits an
    [int], is at least the microseconds asked for and exceeds them by less than
    a millisecond; only a negative request blocks without a limit, and an
    interrupted poll does not block.  [run_one_until] never asks for a negative
    time or for more than a second, so its request is always in that range,
    and is the time that is left, rounded down, when that is at most a second. *)
Theorem poll_timeout_exact :
  (forall us, 0 <= us <= (2 ^ 31 - 1) * 1000 ->
     us <= 1000 * timeout_ms false us < us + 1000 /\ 0 <= timeout_ms false us < 2 ^ 31)
  /\ (forall us, us < 0 -> timeout_ms false us = -1)
  /\ (forall us, timeout_ms true us = 0)
  /\ (forall abs_time now, 0 <= wait_usec abs_time now <= 1000000)
  /\ (forall abs_time now, 0 <= abs_time - now <= 1000000000 ->
        1000 * wait_usec abs_time now <= abs_time - now < 1000 * wait_usec abs_time now + 1000).
Proof.
  split; [|split; [|split; [|split]]].
  - intros us H. unfold timeout_ms. destruct (Z.ltb_spec us 0); [lia|].
    rewrite Z.quot_div_nonneg by lia.
    pose proof (Z.div_mod (us + 999) 1000 ltac:(lia)).
    pose proof (Z.mod_pos_bound (us + 999) 1000 ltac:(lia)).
    rewrite int_of_small; lia.
  - intros us H. unfold timeout_ms. destruct (Z.ltb_spec us 0); lia.
  - done.
  - intros a n. unfold wait_usec.
    repeat case_match; rewrite Z.quot_div_nonneg by lia;
      try (split; [apply Z.div_pos; lia|]; apply Z.div_le_upper_bound; lia).
  - intros a n H. unfold wait_usec.
    destruct (Z.ltb_spec (a - n) 0); [lia|]. destruct (Z.ltb_spec 1000000000 (a - n)); [lia|].
    rewrite Z.quot_div_nonneg by lia.
    pose proof (Z.div_mod (a - n) 1000 ltac:(lia)).
    pose proof (Z.mod_pos_bound (a - n) 1000 ltac:(lia)). lia.
Qed.

(** The time an armed timer descriptor waits. *)
Definition nanoseconds (t : timespec) : Z := 1000000000 * tv_sec t + tv_nsec t.

(** The timer descriptor is armed for exactly the time left until the
    nearest expiry, one nanosecond when that has passed; the value is always a
    valid [timespec], and is the zero that disarms the descriptor if and only
    if no timer is pending. *)
Theorem timerfd_armed_exactly nearest now :
  0 <= now -> nearest <= time_point_max ->
  let t := update_timerfd nearest now in
  0 <= tv_sec t /\ 0 <= tv_nsec t < 1000000000
  /\ (nanoseconds t = 0 <-> nearest = time_point_max)
  /\ (nearest <> time_point_max -> nanoseconds t = Z.max 1 (nearest - now)).
Proof.
  intros Hn Hm. unfold update_timerfd.
  destruct (Z.eqb_spec nearest time_point_max) as [E|E]; [cbn; unfold nanoseconds; cbn; lia|].
  destruct (Z.leb_spec nearest now); [unfold nanoseconds; cbn; lia|].
  cbn zeta. rewrite Z.quot_div_nonneg, Z.rem_mod_nonneg by lia.
  pose proof (Z.div_mod (nearest - now) 1000000000 ltac:(lia)).
  pose proof (Z.mod_pos_bound (nearest - now) 1000000000 ltac:(lia)).
  pose proof (Z.div_pos (nearest - now) 1000000000 ltac:(lia) ltac:(lia)).
  destruct (Z.eqb_spec ((nearest - now) / 1000000000) 0);
    destruct (Z.eqb_spec ((nearest - now) mod 1000000000) 0); cbn; unfold nanoseconds; cbn; lia.
Qed.

Lemma timerfd_armed_exactly_witness :
  update_timerfd 2500000007 500000000 = mk_timespec 2 7
  /\ nanoseconds (update_timerfd 2500000007 500000000) = Z.max 1 (2500000007 - 500000000).
Proof.
  split; [reflexivity|].
  apply (timerfd_armed_exactly 2500000007 500000000); vm_compute; discriminate.
Defined.

(** [run_one_until] returns once the clock has reached the deadline, and
    never early: a result of zero means that the context was stopped or that a
    reading of the clock was at or past the deadline; any other result is the
    first non-zero count of [wait_one]. *)
Theorem run_one_until_waits abs_time clock outcomes :
  (forall i t, (i < length outcomes)%nat -> clock !! S i = Some t -> abs_time <= t ->
     is_Some (run_one_until abs_time clock outcomes))
  /\ (run_one_until abs_time clock outcomes = Some 0%nat ->
        (exists i, outcomes !! i = Some (0%nat, true))
        \/ (exists i t, clock !! S i = Some t /\ abs_time <= t))
  /\ (forall n, run_one_until abs_time clock outcomes = Some (S n) ->
        exists i b, outcomes !! i = Some (S n, b)
          /\ forall j, (j < i)%nat -> outcomes !! j = Some (0%nat, false)).
Proof.
  revert outcomes. induction clock as [|now clock IH]; intros [|[s b] outcomes]; cbn.
  1-3: split; [|split]; intros; (done || (exfalso; lia)).
  destruct s as [|s]; cbn; cycle 1.
  { split; [by eauto|]. split; [done|]. intros n [= ->]. exists 0%nat, b. split; [done|lia]. }
  destruct b.
  { split; [by eauto|]. split; [|done]. left. by exists 0%nat. }
  destruct clock as [|now' clock]; [by split; [|split]|]. destruct (Z.leb_spec abs_time now').
  { split; [by eauto|]. split; [|done]. right. by exists 0%nat, now'. }
  destruct (IH outcomes) as (T & Z & N). split; [|split].
  - intros [|i] t Hi Ht Ha; [cbn in Ht; injection Ht as ->; lia|].
    apply (T i t); [lia|done..].
  - intros E. destruct (Z E) as [[i Hi]|(i & t & Hi & Ha)].
    + left. by exists (S i).
    + right. by exists (S i), t.
  - intros n E. destruct (N n E) as (i & b & Hi & Hj). exists (S i), b. split; [done|].
    intros [|j] Hl; [done|]. apply Hj. lia.
Qed.

(** * The reactor sleeps only while it may *)

(** Between the flush of [timerfd_stale_] and the return of [epoll_wait]. *)
Definition going_to_wait (p : phase) : bool :=
  match p with
  | update_begins before_wait | update_read _ before_wait | polling => true
  | _ => false
  end.

(** The thread has an interrupt in hand and will clear [eventfd_armed_]. *)
Definition draining (p : phase) : Prop :=
  match p with
  | handling evs _ | adding _ evs _ => event_fd ∈ evs
  | drained _ _ => True
  | _ => False
  end.

(** The descriptor state that the reactor is about to enqueue. *)
Definition adding_of (p : phase) : option nat :=
  match p with adding d _ _ => Some d | _ => None end.

(** [t] is not after the nearest expiry, or a thread has announced that the
    timer descriptor must be set again. *)
Definition in_time (t : Z) (r : reactor) : Prop :=
  t <= nearest r \/ timerfd_stale_ r = true \/ (0 < changed r)%nat.

Definition timer_covered (r : reactor) : Prop :=
  match at_phase r with
  | update_begins _ | expiring | handling _ true | drained _ true | adding _ _ true => True
  | update_read n _ => in_time n r
  | _ => in_time (programmed r) r
  end.

Record poll_inv (r : reactor) : Prop := {
  i_pending : 0 <= pending r;
  i_armed : eventfd_armed_ r = true ->
    signalled r = true \/ (0 < writing r)%nat \/ draining (at_phase r);
  i_stale : going_to_wait (at_phase r) = true -> timerfd_stale_ r = true ->
    signalled r = true \/ (0 < interrupting r)%nat \/ (0 < writing r)%nat;
  i_timer : timer_covered r
}.

Lemma poll_inv_initial : poll_inv initial.
Proof. constructor; cbn; try done. by left. Qed.

(** The fields of a state spelled out in the hypotheses and the goal. *)
Ltac open_reactor :=
  unfold timer_covered, in_time, signalled in *; cbn in *.
Ltac split_reactor I r :=
  destruct I as [P A S T], r as [ar st pe ed pr ne ch it wr qu ph]; open_reactor; subst ph.

Lemma poll_inv_flush r :
  poll_inv r -> at_phase r = outside ->
  poll_inv (set_stale false
         (set_phase (if timerfd_stale_ r then update_begins before_wait else polling) r)).
Proof.
  intros I H. split_reactor I r. constructor; open_reactor; try done; destruct st; try done; tauto.
Qed.

Lemma poll_inv_after_events r b :
  poll_inv r -> at_phase r = handling [] b -> poll_inv (after_events b r).
Proof.
  intros I H. split_reactor I r. unfold after_events.
  destruct b; constructor; open_reactor; try done;
    intros Ha; (destruct (A Ha) as [?|[?|?]]; [by left|by right; left|set_solver]).
Qed.

Lemma poll_inv_settime r n k :
  poll_inv r -> at_phase r = update_read n k -> poll_inv (after_update k (set_programmed n r)).
Proof. intros I H. split_reactor I r. destruct k; constructor; open_reactor; done. Qed.

Lemma poll_inv_epoll_wait r evs :
  poll_inv r -> at_phase r = polling -> (event_fd ∈ evs -> signalled r = true) ->
  poll_inv (set_phase (handling evs false)
         (if decide (event_fd ∈ evs) then set_counter (pending r) false r else r)).
Proof.
  intros I H _. split_reactor I r. case_decide; constructor; open_reactor; try done; tauto.
Qed.

(** An event that is not an interrupt leaves the interrupt in hand. *)
Lemma draining_tail {A : Prop} {W : Prop} {e evs} :
  e <> event_fd -> A \/ W \/ event_fd ∈ e :: evs -> A \/ W \/ event_fd ∈ evs.
Proof. intros He [?|[?|?]]; [tauto..|set_solver]. Qed.

Lemma poll_inv_task r r' : poll_inv r -> task_step r r' -> poll_inv r'.
Proof.
  intros I H.
  destruct H as [H|k H|n k H|evs H He|evs b H|evs b H|evs b H|d ev evs b H|d evs b H|b H|t H].
  - by apply poll_inv_flush.
  - split_reactor I r. destruct k; constructor; open_reactor; try done; by left.
  - by apply poll_inv_settime.
  - by apply poll_inv_epoll_wait.
  - split_reactor I r. constructor; open_reactor; try done. tauto.
  - split_reactor I r. constructor; open_reactor; done.
  - split_reactor I r. constructor; open_reactor; try done.
    intros Ha. by apply (draining_tail (e := timer_fd)), A.
  - split_reactor I r. constructor; open_reactor; try done.
    intros Ha. by apply (draining_tail (e := desc_ptr d ev)), A.
  - split_reactor I r. constructor; open_reactor; done.
  - by apply poll_inv_after_events.
  - split_reactor I r. constructor; open_reactor; done.
Qed.

Lemma timer_covered_weaken r r' :
  at_phase r' = at_phase r -> programmed r' = programmed r ->
  (forall t, in_time t r -> in_time t r') -> timer_covered r -> timer_covered r'.
Proof.
  unfold timer_covered. intros -> -> H. destruct (at_phase r) as [| | | |? []|? []|? ? []|]; auto.
Qed.

Lemma covered_other r r' : timer_covered r -> other_step r r' -> timer_covered r'.
Proof.
  intros T H. revert T. destruct H as [t H|t H H'| |n H| |n r' b H X|n H|d|q H];
    try (unfold interrupt_exchange in X; destruct (eventfd_armed_ r); simplify_eq);
    apply timer_covered_weaken; try done; unfold in_time; cbn;
    intros u [L|[L|L]]; first [left; lia|right; left; done|right; right; lia].
Qed.

Lemma poll_inv_exchange r n r' b :
  poll_inv r -> interrupting r = S n -> interrupt_exchange r = (r', b) ->
  poll_inv (set_threads (changed r) n (if b then S (writing r) else writing r) r').
Proof.
  intros I H X. pose proof (covered_other _ _ (i_timer r I) (other_exchange r n r' b H X)) as C.
  destruct I as [P A S _]. unfold interrupt_exchange in X.
  destruct (eventfd_armed_ r) eqn:Ar; injection X as <- <-; constructor; try done.
  - intros _. exact (A eq_refl).
  - change (going_to_wait (at_phase r) = true -> timerfd_stale_ r = true ->
            signalled r = true \/ (0 < n)%nat \/ (0 < writing r)%nat).
    intros W _. destruct (A eq_refl) as [?|[?|D]]; [by left|by right; right|].
    by destruct (at_phase r) as [|[]|? []| | | | |].
  - intros _. right. left. cbn. lia.
  - intros _ _. right. right. cbn. lia.
Qed.

Lemma poll_inv_other r r' : poll_inv r -> other_step r r' -> poll_inv r'.
Proof.
  intros I H. pose proof (covered_other _ _ (i_timer r I) H) as C.
  destruct H as [t H|t H H'| |n H| |n r' b H X|n H|d|q H]; [..|by apply poll_inv_exchange| | |];
    destruct I as [P A S _]; try (by constructor).
  - constructor; try done. intros _ _. right. left. cbn. lia.
  - constructor; try done.
    intros W St. destruct (S W St) as [?|[?|?]]; [by left|right; left; cbn; lia|by right; right].
  - assert (Sg : signalled (set_counter (pending r + 1) true
                   (set_threads (changed r) (interrupting r) n r)) = true)
      by (unfold signalled; cbn; apply Z.ltb_lt; lia).
    constructor; try done; [cbn; lia|by left|by left].
Qed.

(** The queues, against what the reactor is about to enqueue. *)
Lemma events_task r r' :
  task_step r r' -> queue_inv (adding_of (at_phase r)) (queue r) ->
  queue_inv (adding_of (at_phase r')) (queue r').
Proof.
  intros H I. destruct H as [H|k H|n k H|evs H He|evs b H|evs b H|evs b H|d ev evs b H|d evs b H|b H|t H];
    rewrite H in I; cbn in *; try done; try (eauto with event_queue; fail).
  - by destruct (timerfd_stale_ r).
  - destruct k; cbn; auto with event_queue.
  - by case_decide.
  - destruct b; cbn; auto with event_queue.
Qed.

Lemma events_other r r' :
  other_step r r' -> queue_inv (adding_of (at_phase r)) (queue r) ->
  queue_inv (adding_of (at_phase r')) (queue r').
Proof.
  intros H I. destruct H as [| | | | |n r' b H X| |d|q H]; cbn in *; try done; eauto with event_queue.
  unfold interrupt_exchange in X. destruct (eventfd_armed_ r); by simplify_eq.
Qed.

Lemma reachable_poll_inv r :
  reachable r -> poll_inv r /\ queue_inv (adding_of (at_phase r)) (queue r).
Proof.
  intros H. refine (rtc_ind_r (fun r => poll_inv r /\ queue_inv (adding_of (at_phase r)) (queue r))
    _ (conj poll_inv_initial queue_inv_empty) _ r H).
  intros r1 r2 _ [St|St] [I Q]; eauto using poll_inv_task, poll_inv_other, events_task, events_other.
Qed.

(** C3: The reactor never sleeps past a timer or an interrupt.  In every
    interleaving of [run_task] with threads that start, move and remove timers,
    interrupt the reactor, register descriptors and serve them: while the reactor
    is in [epoll_wait] and no other thread is inside the callback or
    [interrupt_reactor], either the interrupt descriptor is about to wake it,
    or the timer descriptor is set for a time no later than the nearest expiry;
    and if [eventfd_armed_] is set, which makes later interrupts skip the
    [write], the interrupt is about to wake it.  A descriptor state that has
    events is enqueued, or the reactor is about to enqueue it, or a thread is
    about to take its events; [is_enqueued_] is set exactly while the state is in
    one of the two queues or popped by a thread that has not cleared the flag yet;
    and the state is in only one of these places, once. *)
Theorem reactor_wakes_in_time r :
  reachable r ->
  (at_phase r = polling -> changed r = 0%nat -> interrupting r = 0%nat -> writing r = 0%nat ->
     (signalled r = true \/ (timerfd_stale_ r = false /\ programmed r <= nearest r))
     /\ (eventfd_armed_ r = true -> signalled r = true))
  /\ (forall d, ready_of (queue r) d <> 0 ->
        d ∈ is_enqueued_ (queue r) \/ adding_of (at_phase r) = Some d \/ d ∈ taking (queue r))
  /\ (forall d, d ∈ is_enqueued_ (queue r) <->
        d ∈ local_ops (queue r) \/ d ∈ completed_ops_ (queue r) \/ d ∈ running (queue r))
  /\ NoDup (local_ops (queue r) ++ completed_ops_ (queue r) ++ running (queue r)).
Proof.
  intros [[P A S T] [In Ie Ir]]%reachable_poll_inv. split; [|split; [|split; [|exact In]]].
  - intros Hp Hc Hi Hw. unfold timer_covered in T. rewrite Hp in A, S, T. split.
    + destruct (timerfd_stale_ r) eqn:St.
      * destruct (S eq_refl eq_refl) as [?|[?|?]]; [by left|lia|lia].
      * right. split; [done|]. destruct T as [?|[?|?]]; [done|congruence|lia].
    + intros Ha. destruct (A Ha) as [?|[?|[]]]; [done|lia].
  - intros d Hd. destruct (Ir d Hd) as [?|[?|?]]; auto.
  - intros d. rewrite Ie. unfold queued. by rewrite !elem_of_app.
Qed.

(** * Runs *)

Lemma epoll_reach_task r r' : reachable r -> task_step r r' -> reachable r'.
Proof. intros R S. eapply rtc_r; [exact R|by left]. Qed.

Lemma epoll_reach_other r r' : reachable r -> other_step r r' -> reachable r'.
Proof. intros R S. eapply rtc_r; [exact R|by right]. Qed.

(** The reactor is in [epoll_wait]; an event of the descriptor state 7 was
    delivered and a thread has popped the state. *)
Definition first_events : reactor :=
  mk_reactor false false 0 false time_point_max time_point_max 0 0 0 empty_queue
    (handling [desc_ptr 7 1] false).
Definition popped_event : event_queue := mk_queue {[7%nat := 1]} {[7%nat]} [] [] [7%nat] [].
Definition served_event : reactor :=
  mk_reactor false false 0 false time_point_max time_point_max 0 0 0 popped_event polling.

Lemma first_events_reachable : reachable first_events.
Proof.
  pose proof (rtc_refl step initial : reachable initial) as R.
  eapply epoll_reach_task in R; [|by apply task_flush].
  eapply epoll_reach_task in R; [|apply (task_epoll_wait _ [desc_ptr 7 1]); [done|set_solver]].
  rewrite decide_False in R by set_solver. exact R.
Qed.

Lemma served_event_reachable : reachable served_event.
Proof.
  pose proof first_events_reachable as R.
  eapply epoll_reach_task in R; [|by eapply (task_desc _ 7 1)].
  eapply epoll_reach_task in R; [|by eapply (task_enqueue _ 7)].
  eapply epoll_reach_task in R; [|by eapply task_events_done].
  eapply epoll_reach_other in R; [|by eapply other_worker, (w_pop _ _ 7)].
  eapply epoll_reach_task in R; [|by apply task_flush].
  refine (eq_ind_r reachable R _). vm_compute. reflexivity.
Qed.

(** A timer is started while the reactor is already in [epoll_wait]. *)
Definition timer_during_wait : reactor :=
  mk_reactor true true 1 true time_point_max 500 0 0 0 popped_event polling.

Lemma timer_during_wait_reachable : reachable timer_during_wait.
Proof.
  pose proof served_event_reachable as R.
  eapply epoll_reach_other in R; [|by apply (other_earlier _ 500)].
  eapply epoll_reach_other in R; [|by eapply (other_store_stale _ 0)].
  eapply epoll_reach_other in R; [|by eapply (other_exchange _ 0 _ true)].
  eapply epoll_reach_other in R; [|by eapply (other_write _ 0)].
  exact R.
Qed.

Lemma reactor_wakes_in_time_witness :
  (signalled timer_during_wait = true
   \/ (timerfd_stale_ timer_during_wait = false
       /\ programmed timer_during_wait <= nearest timer_during_wait))
  /\ 7%nat ∈ is_enqueued_ (queue timer_during_wait).
Proof.
  destruct (reactor_wakes_in_time timer_during_wait timer_during_wait_reachable) as (W & _ & E & _).
  split; [by apply W|]. apply E. right. right. cbn. set_solver.
Defined.
