(* ===== verification/TimerReactor.v ===== *)
(** The timer service as the environment of the epoll reactor: every operation
    of [detail/timer_service.hpp] is, for
    [native/detail/epoll/epoll_scheduler.hpp], a change of the nearest expiry
    that is announced by [on_earliest_changed_] whenever it moves forward. *)

From stdpp Require Import gmap relations.
From S2P Require Import Prelude StateMonad TimerHeap TimerService TimerServiceInv TimerServiceSpec.
From S2P Require Import TimerSteps TimerClaims Epoll.

(** * The nearest expiry moves forward only through one timer *)

(** Every timer armed in [s'] was armed in [s] for the same time, [id] apart. *)
Definition armed_before (id : option nat) (s s' : service) : Prop :=
  forall k v, timers s' !! k = Some v -> v_armed v = true -> Some k <> id ->
    exists u, timers s !! k = Some u /\ v_armed u = true /\ v_expiry u = v_expiry v.

Lemma nearest_le s id v :
  inv s -> timers s !! id = Some v -> v_armed v = true -> nearest_expiry s <= v_expiry v.
Proof.
  intros Hi V A. unfold nearest_expiry. rewrite (inv_cached s Hi).
  destruct (armed_entry _ id v (inv_heap s Hi) (inv_times s Hi) V A) as (e & He & _ & <-).
  destruct (heap_ (hst s)) as [|r l] eqn:R; [by apply not_elem_of_nil in He|].
  cbn. eapply root_is_min; [apply Hi|exact R|by rewrite R].
Qed.

(** The root of the heap, when there is one, is the nearest timer. *)
Lemma nearest_root s :
  inv s -> nearest_expiry s = int64_max \/
    exists id p, impls (hst s) !! id = Some p /\ in_heap p = true /\ at_root p = true /\
      expiry_ p = nearest_expiry s.
Proof.
  intros Hi. unfold nearest_expiry. rewrite (inv_cached s Hi).
  destruct (heap_ (hst s)) as [|r l] eqn:R; [by left|right].
  destruct (entry_armed _ r (inv_heap s Hi) (inv_times s Hi)) as (p & P & A & X); [rewrite R; set_solver|].
  exists (timer_ r), p. split; [done|]. split; [done|]. split; [|done].
  destruct (ix_entry _ (proj1 (inv_heap s Hi)) 0%nat r) as (p' & P' & I); [by rewrite R|].
  unfold at_root. by replace p with p' by congruence; rewrite I.
Qed.

Lemma nearest_forward s s' id :
  inv s -> inv s' -> nearest_expiry s <= int64_max -> armed_before id s s' ->
  nearest_expiry s <= nearest_expiry s' \/
  exists k p, id = Some k /\ impls (hst s') !! k = Some p /\ at_root p = true.
Proof.
  intros Hi Hi' Hm Hb. destruct (nearest_root s' Hi') as [->|(k & p & P & A & R & X)]; [by left|].
  destruct (decide (id = Some k)) as [->|Hk]; [right; by exists k, p|left].
  destruct (Hb k (view p)) as (u & U & Au & Xu); [by apply hview_lookup|done|congruence|].
  rewrite <- X. change (expiry_ p) with (v_expiry (view p)). rewrite <- Xu. by eapply nearest_le.
Qed.

(** What a step tells the reactor. *)
Definition announces (s s' : service) : Prop :=
  exists ev, trace s' = trace s ++ ev
    /\ (nearest_expiry s <= nearest_expiry s' /\ (count Earliest_changed ev <= 1)%nat
        \/ count Earliest_changed ev = 1%nat).

Lemma announces_silent s s' ev :
  inv s -> inv s' -> nearest_expiry s <= int64_max -> armed_before None s s' ->
  trace s' = trace s ++ ev -> count Earliest_changed ev = O -> announces s s'.
Proof.
  intros Hi Hi' Hm Hb Tr Hc. exists ev. split; [done|left].
  destruct (nearest_forward s s' None Hi Hi' Hm Hb) as [?|(k & p & [=] & _)]. split; [done|lia].
Qed.

Lemma announces_one id s s' p' b ev :
  inv s -> inv s' -> nearest_expiry s <= int64_max -> armed_before (Some id) s s' ->
  impls (hst s') !! id = Some p' -> on_earliest_changed_ s = true ->
  (at_root p' = true -> b = false -> nearest_expiry s <= nearest_expiry s') ->
  trace s' = trace s ++ ev ++ notice b s -> count Earliest_changed ev = O -> announces s s'.
Proof.
  intros Hi Hi' Hm Hb P' Hcb Hr Tr Hc. exists (ev ++ notice b s). split; [done|].
  rewrite count_app, Hc. unfold notice. rewrite Hcb. destruct b; cbn.
  - by right.
  - left. split; [|lia].
    destruct (nearest_forward s s' (Some id) Hi Hi' Hm Hb) as [?|(k & p & [= <-] & P & R)]; [done|].
    apply Hr; [by replace p' with p by congruence|done].
Qed.

Lemma armed_insert s s' id v v' :
  timers s !! id = Some v -> timers s' = <[id := v']> (timers s) ->
  (v_armed v' = true -> v_armed v = true /\ v_expiry v = v_expiry v') -> armed_before None s s'.
Proof.
  intros V T Hv k u. rewrite T. intros [[<- <-]|[_ U]]%lookup_insert_Some A _; [|by exists u].
  exists v. destruct (Hv A) as [A' X]. done.
Qed.

Lemma armed_insert_one s s' id v' :
  timers s' = <[id := v']> (timers s) -> armed_before (Some id) s s'.
Proof.
  intros T k u. rewrite T. intros [[<- <-]|[_ U]]%lookup_insert_Some A N; [congruence|by exists u].
Qed.

Lemma count_posts_earliest L : count Earliest_changed (map Post L) = O.
Proof. by apply count_map_posts. Qed.

Lemma effect_announces id v v' L e s s' :
  inv s -> nearest_expiry s <= int64_max -> timers s !! id = Some v ->
  (v_armed v' = true -> v_armed v = true /\ v_expiry v = v_expiry v') ->
  effect id v' L e (map Post L) s s' -> announces s s'.
Proof.
  intros Hi Hm V Hv [E T N Tr Hi']. eapply announces_silent; try done.
  - by eapply armed_insert.
  - apply count_posts_earliest.
Qed.

Lemma announces_refl s : announces s s.
Proof. exists []. split; [by rewrite app_nil_r|]. left. cbn. split; lia. Qed.

Lemma retire_armed ws v :
  v_armed (retire_view (with_waiters ws v)) = true ->
  v_armed v = true /\ v_expiry v = v_expiry (retire_view (with_waiters ws v)).
Proof. unfold retire_view. by destruct ws. Qed.

(** * Every step of the timer service *)

Lemma lookup_timer s id p : impls (hst s) !! id = Some p -> timers s !! id = Some (view p).
Proof. by apply hview_lookup. Qed.

Lemma count_silent l :
  (forall x, x ∈ l -> x <> Earliest_changed) -> count Earliest_changed l = O.
Proof. apply count_none. Qed.

Section steps.
Context (c : world) (W : wf c).
Context (Hm : nearest_expiry (svc c) <= int64_max) (Hcb : on_earliest_changed_ (svc c) = true).

Lemma cancel_announces id :
  id ∈ live c -> wp (cancel id) (fun _ s' => announces (svc c) s') (svc c).
Proof using W Hm.
  intros Hid. destruct (wf_live c id W Hid) as (p & l & P & _).
  unfold cancel. do 2 svc_step. destruct (might_have_pending_waits_ p) eqn:Hp; cbn [negb].
  2: { svc_step. apply announces_refl. }
  eapply cancel_timer_wp; [apply W|done|]. rewrite Hp. intros s' Ef.
  eapply (effect_announces id (view p)); [apply W|done|by apply lookup_timer| |exact Ef]. done.
Qed.

Lemma cancel_one_announces id :
  id ∈ live c -> wp (cancel_one id) (fun _ s' => announces (svc c) s') (svc c).
Proof using W Hm.
  intros Hid. destruct (wf_live c id W Hid) as (p & l & P & _).
  unfold cancel_one. do 2 svc_step. destruct (might_have_pending_waits_ p) eqn:Hp; cbn [negb].
  2: { svc_step. apply announces_refl. }
  eapply cancel_one_waiter_wp; [apply W|done|]. rewrite Hp.
  destruct (waiters_ p) as [|w ws] eqn:Wp; [apply announces_refl|]. intros s' Ef.
  eapply (effect_announces id (view p) _ [w]);
    [apply W|done|by apply lookup_timer| |exact Ef]. apply retire_armed.
Qed.

Lemma canceller_announces w n :
  nodes (svc c) !! w = Some n -> wp (canceller w) (fun _ s' => announces (svc c) s') (svc c).
Proof using W Hm.
  intros N. eapply cancel_waiter_wp; [apply W|done|].
  destruct (impl_ n) as [id|]; [|apply announces_refl]. intros p s' P Hw Ef.
  eapply (effect_announces id (view p) _ [w]);
    [apply W|done|by apply lookup_timer| |exact Ef]. apply retire_armed.
Qed.

Lemma expires_at_announces id t :
  id ∈ live c -> wp (expires_at id t) (fun _ s' => announces (svc c) s') (svc c).
Proof using W Hm Hcb.
  intros Hid. destruct (wf_live c id W Hid) as (p & l & P & _).
  eapply expires_at_wp; [apply W|done|]. intros p' s' P' [E T N Tr Hi'].
  eapply (announces_one id _ _ p' (at_root p')); try done.
  - apply W.
  - by eapply armed_insert_one.
  - congruence.
  - apply count_posts_earliest.
Qed.

Lemma insert_waiter_announces id w :
  window c !! w = Some id -> wp (insert_waiter id w) (fun _ s' => announces (svc c) s') (svc c).
Proof using W Hm Hcb.
  intros Hw. destruct (wf_window c W w id Hw) as (Hid & n & N & I).
  destruct (wf_live c id W Hid) as (p & l & P & _). pose proof (wf_inv c W) as Hi.
  pose proof (lookup_timer _ _ _ P) as V. pose proof (lo_armed _ _ (inv_lists _ Hi) _ _ V) as La.
  assert (Same : v_armed (view p) = true -> forall s' v', timers s' = <[id := v']> (timers (svc c)) ->
            v_expiry v' = v_expiry (view p) -> armed_before None (svc c) s').
  { intros A s' v' T X. eapply armed_insert; [exact V|exact T|]. by rewrite X. }
  eapply insert_waiter_wp; [done..|]. destruct (stop_requested n (svc c)).
  - intros s' [E T Nd Tr Hi']. eapply announces_silent; try done.
    destruct (v_waiters (view p)) as [|x xs] eqn:Wv.
    + eapply armed_insert; [exact V|exact T|]. unfold retire_view. cbn in *. by rewrite Wv.
    + eapply Same; [by apply La|exact T|]. unfold retire_view. cbn in *. by rewrite Wv.
  - intros p' s' P' [E T Nd Tr Hi'].
    eapply (announces_one id _ _ p' (negb (in_heap p) && at_root p') []); try done.
    + by eapply armed_insert_one.
    + intros R. rewrite R, andb_true_r. intros A%negb_false_iff.
      destruct (nearest_forward (svc c) s' None Hi Hi' Hm) as [?|(k & q & [=] & _)]; [|done].
      by eapply Same; [|exact T|].
Qed.

Lemma process_announces now : wp (process_expired now) (fun _ s' => announces (svc c) s') (svc c).
Proof using W Hm.
  apply process_expired_wp; [apply W|]. intros ts s' [D E Tr T N Hi'].
  eapply announces_silent; [apply W|done..| |exact Tr|apply count_posts_earliest].
  intros k v. rewrite T. case_decide; [|by intros V A _; exists v].
  destruct (timers (svc c) !! k); [|done]. by intros [= <-].
Qed.
End steps.

Lemma armed_before_same s s' :
  (forall k v, timers s' !! k = Some v -> v_armed v = true -> timers s !! k = Some v) ->
  armed_before None s s'.
Proof. intros H k v V A _. exists v. by rewrite (H k v V A). Qed.

Lemma step_announces c c' :
  wf c -> nearest_expiry (svc c) <= int64_max -> on_earliest_changed_ (svc c) = true ->
  step c c' -> announces (svc c) (svc c').
Proof.
  intros W Hm Hcb St. pose proof (wf_inv c W) as Hi. pose proof (wf_step c c' W St) as W'.
  destruct St as [c tid fresh id s' F E|c tid id v s' Hid Hw V Wv E|c id t n s' Hid Hw E
    |c id n s' Hid Hw E|c id n s' Hid Hw E|c id w tok now now' s' Hid N M E
    |c id w tok now now' s' s'' Hid N M E E2|c id w s' Hw E|c k s' E|c w n s' N A S E
    |c now n s' E|c w s' s'' Hp Hr E E2]; cbn [svc].
  - destruct (wf_pool c W) as (l & Hp & _).
    refine (wp_result _ (fun _ s' => announces (svc c) s') _ _ _ _ E).
    apply (construct_wp tid fresh l); [done..|]. intros id0 s0 l0 Cn.
    destruct (cn_posts _ _ _ _ _ Cn) as [ids Tr].
    eapply announces_silent; [done|apply Cn|done| |exact Tr|].
    + apply armed_before_same, Cn.
    + apply count_silent. intros x (k & -> & _)%list_elem_of_fmap. done.
  - apply hview_inv in V as (p & P & <-). destruct (wf_pool c W) as (l & Hp & _).
    refine (wp_result (destroy tid id) (fun _ s' => announces (svc c) s') _ _ _ _ E).
    eapply (destroy_wp tid id p l); [done|done|apply W|done|by eapply live_not_pooled| |]; cbn in Wv.
    + exact Wv.
    + intros s0 l0 D. eapply announces_silent; [done|apply D|done| |apply D|apply count_posts_earliest].
      apply armed_before_same, D.
  - exact (wp_result _ _ _ _ _ (expires_at_announces c W Hm Hcb id t Hid) E).
  - exact (wp_result _ _ _ _ _ (cancel_announces c W Hm id Hid) E).
  - exact (wp_result _ _ _ _ _ (cancel_one_announces c W Hm id Hid) E).
  - destruct (wf_live c id W Hid) as (p & l & P & _).
    refine (wp_result _ (fun b s' => b = true -> announces (svc c) s') _ _ _ _ E eq_refl).
    eapply begin_wait_wp; [done..| |]; [|done]. intros s0 [E0 T0 N0 Tr0 Hi0] _.
    eapply announces_silent; [done..| |exact Tr0|done].
    by eapply armed_insert; [by apply lookup_timer|exact T0|].
  - destruct (wf_live c id W Hid) as (p & l & P & _). injection E2 as <-.
    refine (wp_result _ (fun b s' => b = false ->
      announces (svc c) (set_nodes (delete w (nodes s')) s')) _ _ _ _ E eq_refl).
    eapply begin_wait_wp; [done..| |]; [done|]. intros _ n s0 E0 T0 N0 Tr0 I0 X0 Hi0 _.
    exists [Resume w]. split; [done|]. left. split; [|rewrite count_silent; [lia|set_solver]].
    destruct (nearest_forward (svc c) s0 None Hi Hi0 Hm) as [?|(k & q & [=] & _)]; [|done].
    apply armed_before_same. by rewrite T0.
  - exact (wp_result _ _ _ _ _ (insert_waiter_announces c W Hm Hcb id w Hw) E).
  - injection E as <-. exact (announces_refl (svc c)).
  - exact (wp_result _ _ _ _ _ (canceller_announces c W Hm w n N) E).
  - exact (wp_result _ _ _ _ _ (process_announces c W Hm now) E).
  - destruct (posted_node c w W Hp Hr) as (n & N & I & Hw). injection E2 as <-.
    refine (wp_result _ (fun _ s' => announces (svc c) (set_nodes (delete w (nodes s')) s')) _ _ _ _ E).
    eapply completion_op_wp; [done|]. exists [Resume w; Work_finished]. split; [done|].
    left. split; [apply Z.le_refl|rewrite count_silent; [lia|set_solver]].
Qed.

(** * The reactor's environment *)

(** [n] callbacks have been called for an expiry that is now [t]. *)
Definition informed (t : Z) (n : nat) (r : epoll_scheduler.reactor) : epoll_scheduler.reactor :=
  epoll_scheduler.set_threads (epoll_scheduler.changed r + n)
    (epoll_scheduler.interrupting r) (epoll_scheduler.writing r) (epoll_scheduler.set_nearest t r).

Lemma other_informed r t n :
  t <= int64_max ->
  (epoll_scheduler.nearest r <= t /\ (n <= 1)%nat \/ n = 1%nat) ->
  rtc epoll_scheduler.other_step r (informed t n r).
Proof.
  intros Hm H. destruct r as [ar st pe ed pr ne ch it wr en lo co ph]. unfold informed. cbn in *.
  destruct (Z.leb_spec ne t) as [L|L].
  - eapply rtc_l; [by apply (epoll_scheduler.other_later _ t)|]. cbn.
    assert (n = 0 \/ n = 1)%nat as [->| ->] by lia.
    + rewrite Nat.add_0_r. apply rtc_refl.
    + eapply rtc_l; [apply epoll_scheduler.other_notify|]. cbn. rewrite Nat.add_1_r. apply rtc_refl.
  - assert (n = 1)%nat as -> by lia.
    eapply rtc_l; [by apply (epoll_scheduler.other_earlier _ t)|]. cbn.
    rewrite Nat.add_1_r. apply rtc_refl.
Qed.

(** C9: The timer service and the reactor fit together: every operation of the
    timer service, in every reachable state, is a sequence of steps the reactor
    allows its environment.  The nearest expiry moves to an earlier time only
    together with exactly one call of [on_earliest_changed_], so the guarantee
    that the reactor never sleeps past a timer holds for the timers of the
    service. *)
Theorem timer_steps_inform_reactor self c c' r :
  reachable self true c -> step c c' -> on_earliest_changed_ (svc c) = true ->
  nearest_expiry (svc c) <= int64_max -> nearest_expiry (svc c') <= int64_max ->
  epoll_scheduler.nearest r = nearest_expiry (svc c) ->
  let n := (count Earliest_changed (trace (svc c')) - count Earliest_changed (trace (svc c)))%nat in
  rtc epoll_scheduler.other_step r (informed (nearest_expiry (svc c')) n r)
  /\ (nearest_expiry (svc c') < nearest_expiry (svc c) -> n = 1%nat).
Proof.
  intros R St Hcb Hm Hm' Hr.
  destruct (step_announces c c' (reachable_wf _ _ _ R) Hm Hcb St) as (ev & Tr & H). cbn zeta.
  rewrite Tr, count_app.
  replace (count Earliest_changed (trace (svc c)) + count Earliest_changed ev
           - count Earliest_changed (trace (svc c)))%nat with (count Earliest_changed ev) by lia.
  split; [|lia]. apply other_informed; [done|]. by rewrite Hr.
Qed.

(** The last step of [demo]: the wait on timer 101 brings the nearest expiry
    from 50 to 20. *)
Definition before_last : world :=
  default (init_world 0 true) (exec (take 9 demo_ops) (init_world 0 true)).

Lemma before_last_reachable : reachable 0 true before_last.
Proof.
  apply (exec_reachable (take 9 demo_ops) 0 true (init_world 0 true)); [constructor|cbn; step_ops|].
  vm_compute. reflexivity.
Qed.

Lemma timer_steps_inform_reactor_witness :
  let r := epoll_scheduler.set_nearest 50 epoll_scheduler.initial in
  nearest_expiry (svc before_last) = 50 /\ nearest_expiry (svc demo) = 20 /\
  rtc epoll_scheduler.other_step r
    (informed (nearest_expiry (svc demo))
       (count Earliest_changed (trace (svc demo)) - count Earliest_changed (trace (svc before_last))) r).
Proof.
  cbn zeta. split; [vm_compute; reflexivity|]. split; [vm_compute; reflexivity|].
  apply (timer_steps_inform_reactor 0 before_last demo);
    [exact before_last_reachable|apply (do_insert_step 101 9)|..];
    vm_compute; (reflexivity || discriminate).
Defined.
