(* ===== verification/DoublyLinked.v ===== *)
(** Hand-written doubly linked lists, as the code links its objects: a link is
    the pair of pointers of an object, and the objects are found by their
    address.  [seg] says which elements a pointer leads to. *)

From stdpp Require Import gmap.
From S2P Require Import Prelude.

Module dll.

Record link := mk_link { next : option nat; prev : option nat }.
Abbreviation links := (gmap nat link).

(** [x->next = head; x->prev = nullptr; if (head) head->prev = x; head = x;] *)
Definition push_front (x : nat) (head : option nat) (L : links) : res (option nat * links) :=
  let L := <[x := mk_link head None]> L in
  match head with
  | None => Ok (Some x, L)
  | Some h =>
      match L !! h with
      | Some k => Ok (Some x, <[h := mk_link (next k) (Some x)]> L)
      | None => Fault
      end
  end.

(** [if (head == x) head = x->next; if (x->prev) x->prev->next = x->next;
    if (x->next) x->next->prev = x->prev;] *)
Definition unlink (x : nat) (head : option nat) (L : links) : res (option nat * links) :=
  match L !! x with
  | None => Fault
  | Some k =>
      let head := if decide (head = Some x) then next k else head in
      let* L := match prev k with
                | None => Ok L
                | Some p => match L !! p with
                            | Some j => Ok (<[p := mk_link (next k) (prev j)]> L)
                            | None => Fault
                            end
                end in
      let* L := match next k with
                | None => Ok L
                | Some n => match L !! n with
                            | Some j => Ok (<[n := mk_link (next j) (prev k)]> L)
                            | None => Fault
                            end
                end in
      Ok (head, L)
  end.

End dll.

Import dll.

(** * The linked structures *)

(** From the pointer [o] the elements [l] follow one another, the first with
    the previous element [p], up to the pointer [q]. *)
Fixpoint seg (L : links) (p o : option nat) (l : list nat) (q : option nat) : Prop :=
  match l with
  | [] => o = q
  | x :: l' => o = Some x /\ exists k, L !! x = Some k /\ prev k = p /\ seg L (Some x) (next k) l' q
  end.

(** The whole list that starts at [o]. *)
Definition chain (L : links) (o : option nat) (l : list nat) : Prop := seg L None o l None.

Definition last_of (p : option nat) (l : list nat) : option nat :=
  match list.last l with
  | Some z => Some z
  | None => p
  end.

Lemma seg_frame L L' p o l q :
  (forall x, x ∈ l -> L' !! x = L !! x) -> seg L p o l q -> seg L' p o l q.
Proof.
  revert p o. induction l as [|x l IH]; intros p o HL; [done|]. cbn. intros (-> & k & Hk & Hp & Hc).
  split; [done|]. exists k. rewrite HL by set_solver. split; [done|]. split; [done|].
  apply IH; [set_solver|done].
Qed.

Lemma last_of_cons p x l : last_of p (x :: l) = last_of (Some x) l.
Proof.
  unfold last_of. destruct l as [|y l]; [done|]. rewrite last_cons_cons.
  by destruct (list.last (y :: l)) eqn:E; [|apply last_None in E].
Qed.

Lemma seg_app L p o l1 l2 q :
  seg L p o (l1 ++ l2) q <-> exists m, seg L p o l1 m /\ seg L (last_of p l1) m l2 q.
Proof.
  revert p o. induction l1 as [|x l1 IH]; intros p o; cbn [app seg].
  - split; [by exists o|]. by intros (m & -> & ?).
  - split.
    + intros (-> & k & Hk & Hp & (m & H1 & H2)%IH). exists m. rewrite last_of_cons.
      split; [|done]. split; [done|]. by exists k.
    + intros (m & (-> & k & Hk & Hp & H1) & H2). rewrite last_of_cons in H2. split; [done|].
      exists k. do 2 (split; [done|]). apply IH. by exists m.
Qed.

Lemma seg_member L p o l q x : seg L p o l q -> x ∈ l -> is_Some (L !! x).
Proof.
  revert p o. induction l as [|y l IH]; intros p o; [by intros _ ?%not_elem_of_nil|].
  cbn. intros (_ & k & Hk & _ & Hc) [->|Hx]%elem_of_cons; [by eexists|by eapply IH].
Qed.

Lemma seg_set_prev L p p' o y k l q :
  seg L p o (y :: l) q -> L !! y = Some k -> y ∉ l ->
  seg (<[y := mk_link (next k) p']> L) p' o (y :: l) q.
Proof.
  cbn. intros (-> & k' & Hk' & _ & Hc) Hk Hy. split; [done|]. exists (mk_link (next k) p').
  rewrite lookup_insert_eq. do 2 (split; [done|]). cbn. assert (k' = k) as -> by congruence.
  eapply seg_frame; [|exact Hc]. intros x Hx. apply lookup_insert_ne. by intros ->.
Qed.

Lemma seg_set_next L p o l z k q v :
  seg L p o (l ++ [z]) q -> L !! z = Some k -> z ∉ l ->
  seg (<[z := mk_link v (prev k)]> L) p o (l ++ [z]) v.
Proof.
  intros (m & H1 & H2)%seg_app Hk Hz. apply seg_app. exists m. split.
  - eapply seg_frame; [|exact H1]. intros x Hx. apply lookup_insert_ne. by intros ->.
  - cbn in *. destruct H2 as (-> & k' & Hk' & Hp & _). split; [done|].
    exists (mk_link v (prev k)). rewrite lookup_insert_eq. by replace k with k' by congruence.
Qed.

Lemma push_front_chain L h l x :
  chain L h l -> x ∉ l -> NoDup l ->
  exists L', push_front x h L = Ok (Some x, L') /\ chain L' (Some x) (x :: l)
    /\ forall y, y ∉ x :: l -> L' !! y = L !! y.
Proof.
  unfold chain. intros Hc Hx Hd. unfold push_front.
  assert (H0 : seg (<[x := mk_link h None]> L) None h l None).
  { eapply seg_frame; [|exact Hc]. intros y Hy. apply lookup_insert_ne. by intros ->. }
  destruct l as [|y l].
  - cbn in Hc. subst h. eexists. split; [done|]. split.
    + cbn. split; [done|]. eexists. by rewrite lookup_insert_eq.
    + intros y Hy. apply lookup_insert_ne. set_solver.
  - assert (h = Some y) as -> by apply Hc. assert (x <> y) by set_solver.
    destruct (seg_member _ _ _ _ _ y Hc) as [k Hk]; [set_solver|].
    rewrite lookup_insert_ne, Hk by done. eexists. split; [done|].
    apply list.NoDup_cons in Hd as [Hy _]. split.
    + split; [done|]. exists (mk_link (Some y) None).
      rewrite lookup_insert_ne, lookup_insert_eq by done. do 2 (split; [done|]).
      eapply seg_set_prev; [exact H0| |done]. by rewrite lookup_insert_ne.
    + intros z Hz. rewrite !lookup_insert_ne; [done| |]; set_solver.
Qed.

Lemma unlink_chain L h l1 x l2 :
  chain L h (l1 ++ x :: l2) -> NoDup (l1 ++ x :: l2) ->
  exists h' L', unlink x h L = Ok (h', L') /\ chain L' h' (l1 ++ l2)
    /\ forall y, y ∉ l1 ++ x :: l2 -> L' !! y = L !! y.
Proof.
  unfold chain. intros (m & H1 & (-> & k & Hk & Hp & H2))%seg_app Hd. unfold unlink. rewrite Hk.
  apply list.NoDup_app in Hd as (Hd1 & Hdj & [Hx2 Hd2]%list.NoDup_cons).
  assert (Hn : forall p' L2, (forall y, y ∈ l2 -> L2 !! y = L !! y) ->
    exists L3, match next k with
               | None => Ok L2
               | Some n => match L2 !! n with
                           | Some j => Ok (<[n := mk_link (next j) p']> L2)
                           | None => Fault
                           end
               end = Ok L3 /\ seg L3 p' (next k) l2 None
               /\ forall y, y ∉ l2 -> L3 !! y = L2 !! y).
  { intros p' L2 HL. assert (H2' := seg_frame L L2 _ _ _ _ HL H2).
    destruct l2 as [|y l2]; [cbn in H2'; rewrite H2'; by exists L2|].
    destruct (seg_member _ _ _ _ _ y H2') as [j Hj]; [set_solver|].
    assert (E : next k = Some y) by apply H2. rewrite E in *. rewrite Hj. eexists. split; [done|].
    apply list.NoDup_cons in Hd2 as [Hy _]. split; [by eapply seg_set_prev|].
    intros z Hz. apply lookup_insert_ne. set_solver. }
  destruct l1 as [|z l1 _] using rev_ind.
  - cbn in H1, Hp. subst h. rewrite decide_True by done. rewrite Hp. cbn [res_bind].
    destruct (Hn None L) as (L3 & E & H3 & HF); [done|].
    rewrite E. cbn [res_bind]. exists (next k), L3. split; [done|].
    split; [done|]. intros y Hy. apply HF. set_solver.
  - assert (Hz : z ∉ l1).
    { intros Hz. apply list.NoDup_app in Hd1 as (_ & Hd1 & _). apply (Hd1 z Hz). set_solver. }
    assert (Hp' : prev k = Some z) by (rewrite Hp; unfold last_of; by rewrite last_snoc).
    assert (Hh : h <> Some x).
    { intros ->. destruct l1 as [|y l1]; cbn in H1; destruct H1 as [[= ->] _].
      - apply (Hdj z); set_solver.
      - apply (Hdj y); set_solver. }
    rewrite decide_False, Hp' by done.
    destruct (seg_member _ _ _ _ _ z H1) as [j Hj]; [set_solver|]. rewrite Hj. cbn [res_bind].
    destruct (Hn (Some z) (<[z := mk_link (next k) (prev j)]> L)) as (L3 & E & H3 & HF).
    { intros y Hy. apply lookup_insert_ne. intros ->. apply (Hdj y); set_solver. }
    rewrite E. cbn [res_bind]. exists h, L3. split; [done|]. split.
    + apply seg_app. exists (next k). unfold last_of. rewrite last_snoc. split; [|done].
      eapply seg_frame; [|by eapply seg_set_next]. intros y Hy. apply HF. intros Hy2.
      apply (Hdj y); set_solver.
    + intros y Hy. rewrite HF by set_solver. apply lookup_insert_ne. set_solver.
Qed.
