(* ===== verification/Signals.v ===== *)
(** Signal sets on POSIX:
    [include/boost/corosio/native/detail/posix/posix_signal_service.hpp],
    [posix_signal.hpp] and the flags of [signal_set.hpp].

    One process-wide [signal_state], one service per context, one
    [posix_signal] per [signal_set].  Registrations are heap objects linked
    twice: in the sorted, singly linked list of their set and in the doubly
    linked list of their signal number in the service.  Both are kept at the
    level of their pointers: a pointer is the identity of an object, and
    following one to an object that was deleted is a [Fault].

    Every function that holds the locks for its whole body is one step.  What
    the system calls answer is an argument: [fds] for [open_signal_pipe] and a
    boolean for [sigaction].  The registration counts are those of live objects
    and cannot overflow; the count of queued signals wraps at 64 bits. *)

From stdpp Require Import gmap.
From S2P Require Import Prelude StateMonad DoublyLinked.

Module posix_signal_service.
Import dll.

Definition max_signal_number : Z := 64.

(** * Flags *)

Definition none : Z := 0.
Definition restart : Z := 1.
Definition no_child_stop : Z := 2.
Definition no_child_wait : Z := 4.
Definition no_defer : Z := 8.
Definition reset_handler : Z := 16.
Definition dont_care : Z := 65536.

Definition SA_NOCLDSTOP : Z := 1.
Definition SA_NOCLDWAIT : Z := 2.
Definition SA_RESTART : Z := 268435456.
Definition SA_NODEFER : Z := 1073741824.
Definition SA_RESETHAND : Z := 2147483648.

Definition has (flags bit : Z) : bool := negb (Z.land flags bit =? 0).

(** [nocldwait]: the platform defines [SA_NOCLDWAIT]. *)
Definition flags_supported (nocldwait : bool) (flags : Z) : bool :=
  negb (negb nocldwait && has flags no_child_wait).

Definition to_sigaction_flags (nocldwait : bool) (flags : Z) : Z :=
  let sa := 0 in
  let sa := if has flags restart then Z.lor sa SA_RESTART else sa in
  let sa := if has flags no_child_stop then Z.lor sa SA_NOCLDSTOP else sa in
  let sa := if nocldwait && has flags no_child_wait then Z.lor sa SA_NOCLDWAIT else sa in
  let sa := if has flags no_defer then Z.lor sa SA_NODEFER else sa in
  if has flags reset_handler then Z.lor sa SA_RESETHAND else sa.

Definition flags_compatible (existing requested : Z) : bool :=
  if has existing dont_care || has requested dont_care then true
  else
    let mask := 2 ^ 32 - 1 - dont_care in
    Z.land existing mask =? Z.land requested mask.

(** * State *)

Inductive error_code :=
| success | invalid_argument | operation_not_supported | io_error | canceled.

#[export] Instance error_code_eq_dec : EqDecision error_code.
Proof. solve_decision. Defined.

Record registration := mk_reg {
  signal_number : Z;
  flags : Z;
  owner : nat;
  undelivered : Z;
  next_in_set : option nat
}.

(** [ec_out] and [signal_out] tell whether the pointer is not null; [h] is the
    coroutine and [op_svc] the service to tell that the work is finished. *)
Record signal_op := mk_op {
  h : option nat;
  ec_out : bool;
  signal_out : bool;
  op_number : Z;
  op_svc : option nat
}.

Record posix_signal := mk_signal {
  svc_ : nat;
  signals_ : option nat;
  pending_op_ : signal_op;
  waiting_ : bool;
  cancelled_ : bool
}.

Record service := mk_service {
  reader_once_ : bool;
  impl_list_ : list nat;
  registrations_ : list (option nat);
  registration_count_ : list Z
}.

Record signal_state := mk_state {
  service_list : option nat;
  registration_count : list Z;
  registered_flags : list Z;
  read_fd : Z;
  write_fd : Z
}.

(** What the code does to the outside: an operation given to the scheduler, a
    coroutine posted to its executor with the results written for it, the work
    count, and the reader registered with the scheduler. *)
Inductive effect :=
| Post (op : nat)
| Resume (co : option nat) (ec : option error_code) (signal : option Z)
| Work_started (svc : nat)
| Work_finished (svc : nat)
| Register_reader (svc : nat) (fd : Z).

(** [dispositions] is what the last successful [sigaction] asked for each
    signal: the handler with its flags, or nothing for [SIG_DFL]. *)
Record st := mk_st {
  state : signal_state;
  services : gmap nat service;
  impls : gmap nat posix_signal;
  regs : gmap nat registration;
  table_links : links;
  service_links : links;
  dispositions : list (option Z);
  log : list effect
}.

Abbreviation SM := (M st).

Definition set_state (g : signal_state) (s : st) : st :=
  mk_st g (services s) (impls s) (regs s) (table_links s) (service_links s) (dispositions s) (log s).
Definition set_services (m : gmap nat service) (s : st) : st :=
  mk_st (state s) m (impls s) (regs s) (table_links s) (service_links s) (dispositions s) (log s).
Definition set_impls (m : gmap nat posix_signal) (s : st) : st :=
  mk_st (state s) (services s) m (regs s) (table_links s) (service_links s) (dispositions s) (log s).
Definition set_regs (m : gmap nat registration) (s : st) : st :=
  mk_st (state s) (services s) (impls s) m (table_links s) (service_links s) (dispositions s) (log s).
Definition set_table_links (l : links) (s : st) : st :=
  mk_st (state s) (services s) (impls s) (regs s) l (service_links s) (dispositions s) (log s).
Definition set_service_links (l : links) (s : st) : st :=
  mk_st (state s) (services s) (impls s) (regs s) (table_links s) l (dispositions s) (log s).
Definition set_dispositions (d : list (option Z)) (s : st) : st :=
  mk_st (state s) (services s) (impls s) (regs s) (table_links s) (service_links s) d (log s).
Definition add_log (e : effect) (s : st) : st :=
  mk_st (state s) (services s) (impls s) (regs s) (table_links s) (service_links s)
    (dispositions s) (log s ++ [e]).

Definition set_next_in_set (o : option nat) (r : registration) : registration :=
  mk_reg (signal_number r) (flags r) (owner r) (undelivered r) o.
Definition set_undelivered (n : Z) (r : registration) : registration :=
  mk_reg (signal_number r) (flags r) (owner r) n (next_in_set r).
Definition set_signals (o : option nat) (p : posix_signal) : posix_signal :=
  mk_signal (svc_ p) o (pending_op_ p) (waiting_ p) (cancelled_ p).
Definition set_pending (op : signal_op) (p : posix_signal) : posix_signal :=
  mk_signal (svc_ p) (signals_ p) op (waiting_ p) (cancelled_ p).
Definition set_waiting (b : bool) (p : posix_signal) : posix_signal :=
  mk_signal (svc_ p) (signals_ p) (pending_op_ p) b (cancelled_ p).
Definition set_cancelled (b : bool) (p : posix_signal) : posix_signal :=
  mk_signal (svc_ p) (signals_ p) (pending_op_ p) (waiting_ p) b.
Definition set_op_number (n : Z) (op : signal_op) : signal_op :=
  mk_op (h op) (ec_out op) (signal_out op) n (op_svc op).
Definition set_op_svc (o : option nat) (op : signal_op) : signal_op :=
  mk_op (h op) (ec_out op) (signal_out op) (op_number op) o.

(** Access to an object by its address. *)
Definition the_reg (r : nat) : SM registration := s ← get; deref (regs s !! r).
Definition upd_reg (r : nat) (f : registration -> registration) : SM unit :=
  x ← the_reg r; modify (fun s => set_regs (<[r := f x]> (regs s)) s).
Definition the_impl (i : nat) : SM posix_signal := s ← get; deref (impls s !! i).
Definition upd_impl (i : nat) (f : posix_signal -> posix_signal) : SM unit :=
  p ← the_impl i; modify (fun s => set_impls (<[i := f p]> (impls s)) s).
Definition the_service (v : nat) : SM service := s ← get; deref (services s !! v).
Definition upd_service (v : nat) (f : service -> service) : SM unit :=
  x ← the_service v; modify (fun s => set_services (<[v := f x]> (services s)) s).
Definition emit (e : effect) : SM unit := modify (add_log e).
Definition lift {A} (r : res A) : SM A := fun s =>
  match r with
  | Ok a => Ok (a, s)
  | Err e => Err e
  | Fault => Fault
  end.

(** [a[n]], with a fault outside the array. *)
Definition at_ {A} (l : list A) (n : Z) : SM A :=
  if n <? 0 then fault else deref (l !! Z.to_nat n).

(** [state->registration_count[n] += d], [state->registered_flags[n] = f] and
    the counter of the service. *)
Definition set_count (n c : Z) : SM unit :=
  modify (fun s => let g := state s in
    set_state (mk_state (service_list g) (<[Z.to_nat n := c]> (registration_count g))
                 (registered_flags g) (read_fd g) (write_fd g)) s).
Definition set_flags (n f : Z) : SM unit :=
  modify (fun s => let g := state s in
    set_state (mk_state (service_list g) (registration_count g)
                 (<[Z.to_nat n := f]> (registered_flags g)) (read_fd g) (write_fd g)) s).
Definition set_table (v : nat) (n : Z) (o : option nat) : SM unit :=
  upd_service v (fun x => mk_service (reader_once_ x) (impl_list_ x)
    (<[Z.to_nat n := o]> (registrations_ x)) (registration_count_ x)).
Definition set_svc_count (v : nat) (n c : Z) : SM unit :=
  upd_service v (fun x => mk_service (reader_once_ x) (impl_list_ x)
    (registrations_ x) (<[Z.to_nat n := c]> (registration_count_ x))).

(** [sigaction(n, ...)]: the new disposition takes effect when it succeeds. *)
Definition sigaction (ok : bool) (n : Z) (d : option Z) : SM bool :=
  if ok then
    modify (fun s => set_dispositions (<[Z.to_nat n := d]> (dispositions s)) s) ≫= fun _ => mret true
  else mret false.

(** * Services *)

Definition new_service : service :=
  mk_service false [] (replicate 64 None) (replicate 64 0).

Definition add_service (v : nat) : SM unit :=
  s ← get;
  '(hd, L) ← lift (push_front v (service_list (state s)) (service_links s));
  modify (set_service_links L) ≫= fun _ =>
  modify (fun s => let g := state s in
    set_state (mk_state hd (registration_count g) (registered_flags g) (read_fd g) (write_fd g)) s).

Definition remove_service (v : nat) : SM unit :=
  s ← get;
  k ← deref (service_links s !! v);
  if bool_decide (is_Some (next k)) || bool_decide (is_Some (prev k))
     || bool_decide (service_list (state s) = Some v)
  then
    '(hd, L) ← lift (unlink v (service_list (state s)) (service_links s));
    modify (set_service_links (<[v := mk_link None None]> L)) ≫= fun _ =>
    modify (fun s => let g := state s in
      set_state (mk_state hd (registration_count g) (registered_flags g) (read_fd g) (write_fd g)) s)
  else skip.

(** The constructor and the destructor of the service. *)
Definition make_service (v : nat) : SM unit :=
  s ← get;
  (if bool_decide (is_Some (services s !! v)) then fault else skip) ≫= fun _ =>
  modify (fun s => set_services (<[v := new_service]> (services s)) s) ≫= fun _ =>
  add_service v.

Definition delete_service (v : nat) : SM unit :=
  the_service v ≫= fun _ =>
  remove_service v ≫= fun _ =>
  modify (fun s => set_service_links (delete v (service_links s))
                     (set_services (delete v (services s)) s)).

Definition set_impl_list (l : list nat) (x : service) : service :=
  mk_service (reader_once_ x) l (registrations_ x) (registration_count_ x).

Definition empty_op : signal_op := mk_op None false false 0 None.

Definition construct (v i : nat) : SM unit :=
  s ← get;
  (if bool_decide (is_Some (impls s !! i)) then fault else skip) ≫= fun _ =>
  modify (fun s => set_impls (<[i := mk_signal v None empty_op false false]> (impls s)) s) ≫= fun _ =>
  upd_service v (fun x => set_impl_list (impl_list_ x ++ [i]) x).

Definition destroy_impl (v i : nat) : SM unit :=
  upd_service v (fun x => set_impl_list (filter (fun j => j <> i) (impl_list_ x)) x) ≫= fun _ =>
  modify (fun s => set_impls (delete i (impls s)) s).

(** [while (auto* reg = impl->signals_) { impl->signals_ = reg->next_in_set;
    delete reg; }] *)
Fixpoint delete_regs (fuel : nat) (i : nat) : SM unit :=
  match fuel with
  | O => fault
  | S fuel =>
      p ← the_impl i;
      match signals_ p with
      | None => skip
      | Some r =>
          x ← the_reg r;
          upd_impl i (set_signals (next_in_set x)) ≫= fun _ =>
          modify (fun s => set_table_links (delete r (table_links s))
                             (set_regs (delete r (regs s)) s)) ≫= fun _ =>
          delete_regs fuel i
      end
  end.

Fixpoint shutdown_loop (fuel : nat) (v : nat) : SM unit :=
  match fuel with
  | O => fault
  | S fuel =>
      x ← the_service v;
      match impl_list_ x with
      | [] => skip
      | i :: l =>
          upd_service v (set_impl_list l) ≫= fun _ =>
          s ← get;
          delete_regs (S (size (regs s))) i ≫= fun _ =>
          modify (fun s => set_impls (delete i (impls s)) s) ≫= fun _ =>
          shutdown_loop fuel v
      end
  end.

Definition shutdown (v : nat) : SM unit :=
  x ← the_service v; shutdown_loop (S (length (impl_list_ x))) v.

(** * Registering signals *)

(** [fds]: the descriptors of [pipe] once [fcntl] succeeded on both. *)
Definition open_signal_pipe (fds : option (Z * Z)) : SM bool :=
  s ← get;
  let g := state s in
  if 0 <=? read_fd g then mret true
  else match fds with
       | None => mret false
       | Some (r, w) =>
           modify (set_state (mk_state (service_list g) (registration_count g)
                                (registered_flags g) r w)) ≫= fun _ => mret true
       end.

(** [std::call_once(reader_once_, ...)] *)
Definition register_reader (v : nat) : SM unit :=
  x ← the_service v;
  if reader_once_ x then skip
  else
    s ← get;
    upd_service v (fun x => mk_service true (impl_list_ x) (registrations_ x)
                              (registration_count_ x)) ≫= fun _ =>
    emit (Register_reader v (read_fd (state s))).

(** The walk along the sorted list of a set: the pointer to change ([None] is
    [&impl.signals_]) and the first registration not below [n]. *)
Fixpoint find_point (fuel : nat) (n : Z) (point reg : option nat) :
    SM (option nat * option nat) :=
  match fuel with
  | O => fault
  | S fuel =>
      match reg with
      | None => mret (point, None)
      | Some r =>
          x ← the_reg r;
          if signal_number x <? n then find_point fuel n (Some r) (next_in_set x)
          else mret (point, Some r)
      end
  end.

Definition find_in_set (i : nat) (n : Z) : SM (option nat * option nat) :=
  p ← the_impl i; s ← get; find_point (S (size (regs s))) n None (signals_ p).

(** [*point = o] *)
Definition write_point (i : nat) (point o : option nat) : SM unit :=
  match point with
  | None => upd_impl i (set_signals o)
  | Some r => upd_reg r (set_next_in_set o)
  end.

(** [reg && reg->signal_number == n]: the flags of that registration *)
Definition same_number (reg : option nat) (n : Z) : SM (option registration) :=
  match reg with
  | None => mret None
  | Some r => x ← the_reg r; mret (if signal_number x =? n then Some x else None)
  end.

(** The new registration [r] is linked into the set at [point] before [reg]
    and at the front of the table, and counted. *)
Definition link_registration (v i r : nat) (n fl : Z) (point reg : option nat) : SM unit :=
  s ← get;
  (if bool_decide (is_Some (regs s !! r)) then fault else skip) ≫= fun _ =>
  modify (fun s => set_regs (<[r := mk_reg n fl i 0 reg]> (regs s)) s) ≫= fun _ =>
  write_point i point (Some r) ≫= fun _ =>
  x ← the_service v;
  head ← at_ (registrations_ x) n;
  s ← get;
  '(hd, L) ← lift (push_front r head (table_links s));
  modify (set_table_links L) ≫= fun _ =>
  set_table v n hd ≫= fun _ =>
  s ← get;
  c ← at_ (registration_count (state s)) n;
  set_count n (c + 1) ≫= fun _ =>
  x ← the_service v;
  c ← at_ (registration_count_ x) n;
  set_svc_count v n (c + 1).

(** The part of [add_signal] under both locks; [r] is the address [new]
    returns. *)
Definition add_locked (nocldwait sigaction_ok : bool) (v i r : nat) (n fl : Z) : SM error_code :=
  '(point, reg) ← find_in_set i n;
  same ← same_number reg n;
  match same with
  | Some x => mret (if flags_compatible (flags x) fl then success else invalid_argument)
  | None =>
      s ← get;
      count ← at_ (registration_count (state s)) n;
      existing ← at_ (registered_flags (state s)) n;
      if (0 <? count) && negb (flags_compatible existing fl) then mret invalid_argument
      else
        ok ← (if count =? 0 then
                ok ← sigaction sigaction_ok n (Some (to_sigaction_flags nocldwait fl));
                (if ok : bool then set_flags n fl else skip) ≫= fun _ => mret ok
              else mret true);
        if ok : bool then link_registration v i r n fl point reg ≫= fun _ => mret success
        else mret invalid_argument
  end.

Definition add_signal (nocldwait : bool) (fds : option (Z * Z)) (sigaction_ok : bool)
    (i r : nat) (n fl : Z) : SM error_code :=
  p ← the_impl i;
  let v := svc_ p in
  if (n <? 0) || (max_signal_number <=? n) then mret invalid_argument
  else if negb (flags_supported nocldwait fl) then mret operation_not_supported
  else
    opened ← open_signal_pipe fds;
    if negb (opened : bool) then mret io_error
    else
      register_reader v ≫= fun _ =>
      add_locked nocldwait sigaction_ok v i r n fl.

(** [reg] leaves the table of its number and is deleted. *)
Definition unlink_registration (v r : nat) (n : Z) : SM unit :=
  x ← the_service v;
  head ← at_ (registrations_ x) n;
  s ← get;
  '(hd, L) ← lift (unlink r head (table_links s));
  modify (set_table_links L) ≫= fun _ =>
  set_table v n hd ≫= fun _ =>
  s ← get;
  c ← at_ (registration_count (state s)) n;
  set_count n (c - 1) ≫= fun _ =>
  x ← the_service v;
  c ← at_ (registration_count_ x) n;
  set_svc_count v n (c - 1) ≫= fun _ =>
  modify (fun s => set_table_links (delete r (table_links s)) (set_regs (delete r (regs s)) s)).

Definition remove_signal (sigaction_ok : bool) (i : nat) (n : Z) : SM error_code :=
  p ← the_impl i;
  let v := svc_ p in
  if (n <? 0) || (max_signal_number <=? n) then mret invalid_argument
  else
    '(point, reg) ← find_in_set i n;
    same ← same_number reg n;
    match same, reg with
    | Some x, Some r =>
        s ← get;
        count ← at_ (registration_count (state s)) n;
        ok ← (if count =? 1 then
                ok ← sigaction sigaction_ok n None;
                (if ok : bool then set_flags n none else skip) ≫= fun _ => mret ok
              else mret true);
        if ok : bool then
          write_point i point (next_in_set x) ≫= fun _ =>
          unlink_registration v r n ≫= fun _ => mret success
        else mret invalid_argument
    | _, _ => mret success
    end.

(** [sigaction_ok n] answers the call for signal [n]. *)
Fixpoint clear_loop (fuel : nat) (sigaction_ok : Z -> bool) (v i : nat) (first_error : error_code) :
    SM error_code :=
  match fuel with
  | O => fault
  | S fuel =>
      p ← the_impl i;
      match signals_ p with
      | None => mret first_error
      | Some r =>
          x ← the_reg r;
          let n := signal_number x in
          s ← get;
          count ← at_ (registration_count (state s)) n;
          first_error ← (if count =? 1 then
                           ok ← sigaction (sigaction_ok n) n None;
                           set_flags n none ≫= fun _ =>
                           mret (if negb (ok : bool) && bool_decide (first_error = success)
                                 then invalid_argument else first_error)
                         else mret first_error);
          upd_impl i (set_signals (next_in_set x)) ≫= fun _ =>
          unlink_registration v r n ≫= fun _ =>
          clear_loop fuel sigaction_ok v i first_error
      end
  end.

Definition clear_signals (sigaction_ok : Z -> bool) (i : nat) : SM error_code :=
  p ← the_impl i;
  s ← get;
  clear_loop (S (size (regs s))) sigaction_ok (svc_ p) i success.

(** * Waiting and delivery *)

(** The results written for the coroutine of [op], which is then posted to its
    executor. *)
Definition finish (op : signal_op) (ec : error_code) (n : Z) : SM unit :=
  emit (Resume (h op) (if ec_out op then Some ec else None) (if signal_out op then Some n else None)).

Definition cancel_wait (i : nat) : SM unit :=
  p ← the_impl i;
  upd_impl i (set_cancelled true) ≫= fun _ =>
  if waiting_ p then
    upd_impl i (set_waiting false) ≫= fun _ =>
    finish (pending_op_ p) canceled 0 ≫= fun _ =>
    emit (Work_finished (svc_ p))
  else skip.

(** The first registration of the set with a queued signal. *)
Fixpoint find_queued (fuel : nat) (reg : option nat) : SM (option (nat * registration)) :=
  match fuel with
  | O => fault
  | S fuel =>
      match reg with
      | None => mret None
      | Some r =>
          x ← the_reg r;
          if 0 <? undelivered x then mret (Some (r, x))
          else find_queued fuel (next_in_set x)
      end
  end.

Definition start_wait (i : nat) : SM unit :=
  p ← the_impl i;
  if cancelled_ p then
    upd_impl i (set_cancelled false) ≫= fun _ =>
    finish (pending_op_ p) canceled 0
  else
    s ← get;
    q ← find_queued (S (size (regs s))) (signals_ p);
    match q with
    | Some (r, x) =>
        upd_reg r (set_undelivered (undelivered x - 1)) ≫= fun _ =>
        upd_impl i (fun p => set_pending (set_op_svc None
                               (set_op_number (signal_number x) (pending_op_ p))) p) ≫= fun _ =>
        emit (Post i)
    | None =>
        upd_impl i (fun p => set_waiting true
                               (set_pending (set_op_svc (Some (svc_ p)) (pending_op_ p)) p)) ≫= fun _ =>
        emit (Work_started (svc_ p))
    end.

(** [co] is the suspended coroutine and [stopped] whether its stop token was
    triggered before the call. *)
Definition wait (i co : nat) (stopped ec signal : bool) : SM unit :=
  p ← the_impl i;
  upd_impl i (set_pending (mk_op (Some co) ec signal 0 (op_svc (pending_op_ p)))) ≫= fun _ =>
  if stopped then finish (mk_op (Some co) ec signal 0 None) canceled 0
  else start_wait i.

(** [signal_op::operator()] *)
Definition invoke (i : nat) : SM unit :=
  p ← the_impl i;
  let op := pending_op_ p in
  upd_impl i (set_pending (set_op_svc None op)) ≫= fun _ =>
  finish op success (op_number op) ≫= fun _ =>
  match op_svc op with
  | Some v => emit (Work_finished v)
  | None => skip
  end.

(** The loop over the registrations of one signal in one service. *)
Fixpoint deliver_table (fuel : nat) (n : Z) (reg : option nat) : SM unit :=
  match fuel with
  | O => fault
  | S fuel =>
      match reg with
      | None => skip
      | Some r =>
          x ← the_reg r;
          p ← the_impl (owner x);
          (if waiting_ p then
             upd_impl (owner x) (fun p => set_pending (set_op_number n (pending_op_ p))
                                            (set_waiting false p)) ≫= fun _ =>
             emit (Post (owner x))
           else upd_reg r (set_undelivered (u64 (undelivered x + 1)))) ≫= fun _ =>
          s ← get;
          k ← deref (table_links s !! r);
          deliver_table fuel n (next k)
      end
  end.

Fixpoint deliver_services (fuel : nat) (n : Z) (svc : option nat) : SM unit :=
  match fuel with
  | O => fault
  | S fuel =>
      match svc with
      | None => skip
      | Some v =>
          x ← the_service v;
          head ← at_ (registrations_ x) n;
          s ← get;
          deliver_table (S (size (regs s))) n head ≫= fun _ =>
          s ← get;
          k ← deref (service_links s !! v);
          deliver_services fuel n (next k)
      end
  end.

Definition deliver_signal (n : Z) : SM unit :=
  if (n <? 0) || (max_signal_number <=? n) then skip
  else s ← get; deliver_services (S (size (services s))) n (service_list (state s)).

(** [destroy] of a signal set: [clear], [cancel], [destroy_impl] *)
Definition destroy (sigaction_ok : Z -> bool) (i : nat) : SM unit :=
  p ← the_impl i;
  clear_signals sigaction_ok i ≫= fun _ =>
  cancel_wait i ≫= fun _ =>
  destroy_impl (svc_ p) i.

(** The records of the self-pipe, up to the first that is not there. *)
Fixpoint drain_signal_pipe (records : list Z) : SM unit :=
  match records with
  | [] => skip
  | n :: records => deliver_signal n ≫= fun _ => drain_signal_pipe records
  end.

Definition initial : st :=
  mk_st (mk_state None (replicate 64 0) (replicate 64 none) (-1) (-1)) ∅ ∅ ∅ ∅ ∅
    (replicate 64 None) [].

End posix_signal_service.
