(* ===== verification/SignalInv.v ===== *)
(** The registry of signal sets: what its linked structures represent, and
    that every operation keeps them consistent. *)

From stdpp Require Import gmap sorting functions.
From S2P Require Import Prelude StateMonad DoublyLinked Signals.
Import dll posix_signal_service.

(** * The lists of the sets *)

(** From [o] the registrations [l] follow one another up to [q]. *)
Fixpoint sseg (R : gmap nat registration) (o : option nat) (l : list nat) (q : option nat) : Prop :=
  match l with
  | [] => o = q
  | r :: l' => o = Some r /\ exists x, R !! r = Some x /\ sseg R (next_in_set x) l' q
  end.

Definition number (R : gmap nat registration) (r : nat) : Z :=
  match R !! r with
  | Some x => signal_number x
  | None => 0
  end.

Definition ordered (R : gmap nat registration) (l : list nat) : Prop :=
  StronglySorted Z.lt (map (number R) l).

Lemma sseg_app R o l1 l2 q :
  sseg R o (l1 ++ l2) q <-> exists m, sseg R o l1 m /\ sseg R m l2 q.
Proof.
  revert o. induction l1 as [|r l1 IH]; intros o; cbn [app sseg].
  - split; [by exists o|]. by intros (m & -> & ?).
  - split.
    + intros (-> & x & Hx & (m & H1 & H2)%IH). exists m. split; [|done]. split; [done|]. by exists x.
    + intros (m & (-> & x & Hx & H1) & H2). split; [done|]. exists x. split; [done|].
      apply IH. by exists m.
Qed.

Lemma sseg_frame R R' o l q :
  (forall r, r ∈ l -> next_in_set <$> R' !! r = next_in_set <$> R !! r) ->
  sseg R o l q -> sseg R' o l q.
Proof.
  revert o. induction l as [|r l IH]; intros o HR; [done|]. cbn. intros (-> & x & Hx & Hc).
  split; [done|]. pose proof (HR r ltac:(set_solver)) as E. rewrite Hx in E.
  destruct (R' !! r) as [x'|] eqn:Hx'; [|done]. exists x'. split; [done|]. injection E as ->.
  apply IH; [set_solver|done].
Qed.

Lemma ordered_frame R R' l :
  (forall r, r ∈ l -> number R' r = number R r) -> ordered R l -> ordered R' l.
Proof.
  unfold ordered. intros H. rewrite (map_ext_in (number R') (number R)); [done|].
  intros r Hr. apply H. by apply list_elem_of_In.
Qed.

Lemma sseg_member R o l q r : sseg R o l q -> r ∈ l -> is_Some (R !! r).
Proof.
  revert o. induction l as [|y l IH]; intros o; [by intros _ ?%not_elem_of_nil|].
  cbn. intros (_ & x & Hx & Hc) [->|Hr]%elem_of_cons; [by eexists|by eapply IH].
Qed.

(** The next pointer of the last registration. *)
Lemma sseg_set_next R o l z x q v :
  sseg R o (l ++ [z]) q -> R !! z = Some x -> z ∉ l ->
  sseg (<[z := set_next_in_set v x]> R) o (l ++ [z]) v.
Proof.
  intros (m & H1 & H2)%sseg_app Hx Hz. apply sseg_app. exists m. split.
  - eapply sseg_frame; [|exact H1]. intros r Hr. rewrite lookup_insert_ne; [done|]. by intros ->.
  - cbn in *. destruct H2 as [-> _]. split; [done|]. eexists. by rewrite lookup_insert_eq.
Qed.

Lemma ordered_nodup R l : ordered R l -> NoDup l.
Proof.
  unfold ordered. induction l as [|r l IH]; cbn; [constructor|]. intros H.
  apply StronglySorted_inv in H as [Hs Hf]. apply list.NoDup_cons. split; [|by apply IH].
  intros Hr. rewrite list.Forall_forall in Hf.
  specialize (Hf (number R r)). apply Z.lt_irrefl with (number R r). apply Hf.
  apply list_elem_of_In, in_map, list_elem_of_In, Hr.
Qed.

(** A position in an ordered list, as the walk of [find_point] finds it. *)
Record position (R : gmap nat registration) (n : Z) (l l1 l2 : list nat) : Prop := {
  po_split : l = l1 ++ l2;
  po_before : forall r, r ∈ l1 -> number R r < n;
  po_after : forall r l', l2 = r :: l' -> n <= number R r
}.

Lemma number_lookup R r x : R !! r = Some x -> number R r = signal_number x.
Proof. unfold number. by intros ->. Qed.

Lemma ordered_app R l1 l2 :
  ordered R (l1 ++ l2) <->
  ordered R l1 /\ ordered R l2 /\ forall a b, a ∈ l1 -> b ∈ l2 -> number R a < number R b.
Proof.
  unfold ordered. rewrite map_app. induction l1 as [|r l1 IH]; cbn.
  - split; [|by intros (_ & ? & _)]. intros H. split; [constructor|]. split; [done|].
    by intros a b ?%not_elem_of_nil.
  - split.
    + intros H. apply StronglySorted_inv in H as [Hs Hf]. rewrite list.Forall_app in Hf.
      destruct Hf as [Hf1 Hf2]. apply IH in Hs as (H1 & H2 & H3). split; [by constructor|].
      split; [done|]. intros a b [->|Ha]%elem_of_cons Hb; [|by apply H3].
      rewrite list.Forall_forall in Hf2. apply Hf2, list_elem_of_In, in_map, list_elem_of_In, Hb.
    + intros (H1 & H2 & H3). apply StronglySorted_inv in H1 as [Hs Hf]. constructor.
      * apply IH. split; [done|]. split; [done|]. intros a b Ha Hb. apply H3; [set_solver|done].
      * apply list.Forall_app. split; [done|]. apply list.Forall_forall.
        intros z (b & -> & Hb)%list_elem_of_fmap. apply H3; [set_solver|done].
Qed.

Lemma ordered_cons R r l :
  ordered R (r :: l) <-> ordered R l /\ forall b, b ∈ l -> number R r < number R b.
Proof.
  rewrite (ordered_app R [r] l). split.
  - intros (_ & H1 & H2). split; [done|]. intros b Hb. apply H2; set_solver.
  - intros (H1 & H2). split; [repeat constructor|]. split; [done|].
    intros a b ->%list_elem_of_singleton. apply H2.
Qed.

(** Everything after the position is not below it. *)
Lemma position_after R n l l1 l2 r :
  ordered R l -> position R n l l1 l2 -> r ∈ l2 -> n <= number R r.
Proof.
  intros Ho [-> _ Ha]. apply ordered_app in Ho as (_ & Ho & _).
  destruct l2 as [|y l2]; [by intros ?%not_elem_of_nil|]. specialize (Ha y l2 eq_refl).
  apply ordered_cons in Ho as [_ Ho]. intros [->|Hr]%elem_of_cons; [done|].
  specialize (Ho r Hr). lia.
Qed.

(** * Access *)

Lemma wp_reg r x (Q : registration -> st -> Prop) s :
  regs s !! r = Some x -> Q x s -> wp (the_reg r) Q s.
Proof. intros. unfold the_reg. by wp_steps. Qed.
Lemma wp_upd_reg r f x (Q : unit -> st -> Prop) s :
  regs s !! r = Some x -> Q tt (set_regs (<[r := f x]> (regs s)) s) -> wp (upd_reg r f) Q s.
Proof. intros. unfold upd_reg. wp_step. eapply wp_reg; [done|]. by wp_step. Qed.
Lemma wp_signal i p (Q : posix_signal -> st -> Prop) s :
  impls s !! i = Some p -> Q p s -> wp (the_impl i) Q s.
Proof. intros. unfold the_impl. by wp_steps. Qed.
Lemma wp_upd_signal i f p (Q : unit -> st -> Prop) s :
  impls s !! i = Some p -> Q tt (set_impls (<[i := f p]> (impls s)) s) -> wp (upd_impl i f) Q s.
Proof. intros. unfold upd_impl. wp_step. eapply wp_signal; [done|]. by wp_step. Qed.
Lemma wp_service v x (Q : service -> st -> Prop) s :
  services s !! v = Some x -> Q x s -> wp (the_service v) Q s.
Proof. intros. unfold the_service. by wp_steps. Qed.
Lemma wp_upd_service v f x (Q : unit -> st -> Prop) s :
  services s !! v = Some x -> Q tt (set_services (<[v := f x]> (services s)) s) ->
  wp (upd_service v f) Q s.
Proof. intros. unfold upd_service. wp_step. eapply wp_service; [done|]. by wp_step. Qed.
Lemma wp_at {A} (l : list A) n a (Q : A -> st -> Prop) s :
  0 <= n -> l !! Z.to_nat n = Some a -> Q a s -> wp (at_ l n) Q s.
Proof. intros. unfold at_. test_false (n <? 0). by wp_steps. Qed.
Lemma wp_lift {A} (r : res A) a (Q : A -> st -> Prop) s : r = Ok a -> Q a s -> wp (lift r) Q s.
Proof. by intros ->. Qed.
Lemma wp_effect e (Q : unit -> st -> Prop) s : Q tt (add_log e s) -> wp (emit e) Q s.
Proof. done. Qed.

Ltac sig_step :=
  first [ wp_step
        | lazymatch goal with
          | |- wp (the_reg _) _ _ => eapply wp_reg; [eassumption|]
          | |- wp (upd_reg _ _) _ _ => eapply wp_upd_reg; [eassumption|]
          | |- wp (the_impl _) _ _ => eapply wp_signal; [eassumption|]
          | |- wp (upd_impl _ _) _ _ => eapply wp_upd_signal; [eassumption|]
          | |- wp (the_service _) _ _ => eapply wp_service; [eassumption|]
          | |- wp (upd_service _ _) _ _ => eapply wp_upd_service; [eassumption|]
          | |- wp (emit _) _ _ => apply wp_effect
          end ].

Lemma find_point_wp fuel n point o l (Q : option nat * option nat -> st -> Prop) s :
  (length l < fuel)%nat -> sseg (regs s) o l None ->
  (forall l1 l2, position (regs s) n l l1 l2 -> Q (last_of point l1, head l2) s) ->
  wp (find_point fuel n point o) Q s.
Proof.
  revert point o l Q. induction fuel as [|fuel IH]; intros point o l Q Hf Hc HQ; [lia|].
  destruct l as [|r l]; cbn in Hc.
  - subst o. cbn [find_point]. wp_step. apply (HQ [] []). constructor; try done. by intros ? ?%not_elem_of_nil.
  - destruct Hc as (-> & x & Hx & Hc). cbn [find_point]. do 2 sig_step.
    pose proof (number_lookup _ _ _ Hx) as Hnum. destruct (Z.ltb_spec (signal_number x) n) as [Hlt|Hge].
    + eapply (IH _ _ l); [cbn in Hf; lia|done|]. intros l1 l2 [-> Hb Ha].
      rewrite <- (last_of_cons point). apply HQ. constructor; [done| |done].
      intros y [->|Hy]%elem_of_cons; [lia|by apply Hb].
    + wp_step. apply (HQ [] (r :: l)). constructor; [done| |].
      * by intros ? ?%not_elem_of_nil.
      * intros y l' [= <- <-]. lia.
Qed.

(** * The registry *)

Definition sig (n : Z) : Prop := 0 <= n < max_signal_number.

(** Registrations of [n] in all services. *)
Definition total (T : nat -> Z -> list nat) (L : list nat) (n : Z) : Z :=
  zsum (fun v => Z.of_nat (length (T v n))) L.

(** [L] are the services, [T v n] the table of signal [n] in service [v] and
    [S i] the list of set [i]; the flags and the handler are in step with the
    registrations for the signals [ok]. *)
Record rep (nocldwait : bool) (ok : Z -> Prop) (S : nat -> list nat) (T : nat -> Z -> list nat) (L : list nat)
    (s : st) : Prop := {
  r_svcs : chain (service_links s) (service_list (state s)) L;
  r_svcs_nodup : NoDup L;
  r_svcs_dom : forall v, v ∈ L <-> is_Some (services s !! v);
  r_table : forall v x n, services s !! v = Some x -> sig n ->
    exists h, registrations_ x !! Z.to_nat n = Some h /\ chain (table_links s) h (T v n);
  r_svc_count : forall v x n, services s !! v = Some x -> sig n ->
    registration_count_ x !! Z.to_nat n = Some (Z.of_nat (length (T v n)));
  r_count : forall n, sig n -> registration_count (state s) !! Z.to_nat n = Some (total T L n);
  r_flags : forall n, sig n -> exists f, registered_flags (state s) !! Z.to_nat n = Some f /\
    (ok n -> 0 < total T L n ->
       dispositions s !! Z.to_nat n = Some (Some (to_sigaction_flags nocldwait f)));
  r_disps : length (dispositions s) = 64%nat;
  r_nodup : forall v n, NoDup (T v n);
  r_mem : forall v n r, r ∈ T v n <-> exists x p, regs s !! r = Some x /\ signal_number x = n /\
    impls s !! owner x = Some p /\ svc_ p = v;
  r_set : forall i p, impls s !! i = Some p ->
    sseg (regs s) (signals_ p) (S i) None /\ ordered (regs s) (S i);
  r_set_mem : forall i r, r ∈ S i <-> exists x, regs s !! r = Some x /\ owner x = i;
  r_reg : forall r x, regs s !! r = Some x -> is_Some (impls s !! owner x) /\ sig (signal_number x) /\
    exists f, registered_flags (state s) !! Z.to_nat (signal_number x) = Some f /\
      (ok (signal_number x) -> flags_compatible f (flags x) = true);
  r_impl : forall i p, impls s !! i = Some p ->
    exists x, services s !! svc_ p = Some x /\ i ∈ impl_list_ x
}.

(** What the registry sees of a set and of a registration. *)
Definition set_view (p : posix_signal) : nat * option nat := (svc_ p, signals_ p).
Definition reg_view (x : registration) : Z * Z * nat * option nat :=
  (signal_number x, flags x, owner x, next_in_set x).

Lemma view_lookup {A B} (f : A -> B) (m m' : gmap nat A) k a :
  (forall k, f <$> m' !! k = f <$> m !! k) -> m !! k = Some a ->
  exists a', m' !! k = Some a' /\ f a' = f a.
Proof.
  intros H Ha. specialize (H k). rewrite Ha in H. destruct (m' !! k) as [a'|]; [|done].
  injection H as H. by exists a'.
Qed.

(** The registry does not depend on the rest. *)
Lemma rep_frame nw ok S T L s s' :
  state s' = state s -> services s' = services s -> table_links s' = table_links s ->
  service_links s' = service_links s -> dispositions s' = dispositions s ->
  (forall i, set_view <$> impls s' !! i = set_view <$> impls s !! i) ->
  (forall r, reg_view <$> regs s' !! r = reg_view <$> regs s !! r) ->
  rep nw ok S T L s -> rep nw ok S T L s'.
Proof.
  intros Eg Ev Et El Ed Hi Hr R.
  assert (Hi' : forall i, set_view <$> impls s !! i = set_view <$> impls s' !! i) by done.
  assert (Hr' : forall r, reg_view <$> regs s !! r = reg_view <$> regs s' !! r) by done.
  destruct R as [R1 R2 R3 R4 R5 R6 R7 R8 R9 R10 R11 R12 R13 R14].
  constructor; rewrite ?Eg, ?Ev, ?Et, ?El, ?Ed; try done.
  - intros v n r. rewrite R10. split.
    + intros (x & p & Hx & Hn & Hp & Hv).
      destruct (view_lookup _ _ _ _ _ Hr Hx) as (x' & Hx' & [= E1 E2 E3 E4]).
      destruct (view_lookup _ _ _ _ _ Hi Hp) as (p' & Hp' & [= E5 E6]).
      exists x', p'. rewrite E1, E3, E5. done.
    + intros (x & p & Hx & Hn & Hp & Hv).
      destruct (view_lookup _ _ _ _ _ Hr' Hx) as (x' & Hx' & [= E1 E2 E3 E4]).
      destruct (view_lookup _ _ _ _ _ Hi' Hp) as (p' & Hp' & [= E5 E6]).
      exists x', p'. rewrite E1, E3, E5. done.
  - intros i p' Hp'. destruct (view_lookup _ _ _ _ _ Hi' Hp') as (p & Hp & [= E5 E6]).
    rewrite <- E6. destruct (R11 i p Hp) as [H1 H2]. split.
    + eapply sseg_frame; [|exact H1]. intros r _. specialize (Hr r).
      destruct (regs s' !! r), (regs s !! r); try done. cbn. f_equal. by injection Hr.
    + eapply ordered_frame; [|exact H2]. intros r _. specialize (Hr r). unfold number.
      destruct (regs s' !! r), (regs s !! r); try done. by injection Hr.
  - intros i r. rewrite R12. split.
    + intros (x & Hx & Ho). destruct (view_lookup _ _ _ _ _ Hr Hx) as (x' & Hx' & [= E1 E2 E3 E4]).
      exists x'. by rewrite E3.
    + intros (x & Hx & Ho). destruct (view_lookup _ _ _ _ _ Hr' Hx) as (x' & Hx' & [= E1 E2 E3 E4]).
      exists x'. by rewrite E3.
  - intros r x' Hx'. destruct (view_lookup _ _ _ _ _ Hr' Hx') as (x & Hx & [= E1 E2 E3 E4]).
    rewrite <- E1, <- E2, <- E3. destruct (R13 r x Hx) as ([p Hp] & H2). split; [|done].
    destruct (view_lookup _ _ _ _ _ Hi Hp) as (p' & Hp' & _). by exists p'.
  - intros i p' Hp'. destruct (view_lookup _ _ _ _ _ Hi' Hp') as (p & Hp & [= E5 E6]).
    rewrite <- E5. by apply (R14 i p).
Qed.

Lemma rep_initial nw ok : rep nw ok (fun _ => []) (fun _ _ => []) [] initial.
Proof.
  assert (H64 : forall n, sig n -> (Z.to_nat n < 64)%nat) by (unfold sig, max_signal_number; lia).
  constructor; cbn -[replicate]; try done.
  - constructor.
  - intros v. split; [by intros ?%not_elem_of_nil|]. rewrite lookup_empty. by intros [? ?].
  - intros n Hn. apply lookup_replicate_2. by apply H64.
  - intros n Hn. exists none. split; [by apply lookup_replicate_2, H64|]. done.
  - by constructor.
  - intros v n r. split; [by intros ?%not_elem_of_nil|]. by intros (x & p & Hx & _).
  - intros i r. split; [by intros ?%not_elem_of_nil|]. by intros (x & Hx & _).
Qed.

(** The length of a list of existing registrations is at most their number. *)
Lemma regs_bound (R : gmap nat registration) l :
  NoDup l -> (forall r, r ∈ l -> is_Some (R !! r)) -> (length l <= size R)%nat.
Proof.
  intros Hd Hl. rewrite <- (size_dom R). rewrite <- (size_list_to_set (C := gset nat)) by done.
  apply subseteq_size. intros r Hr%elem_of_list_to_set. apply elem_of_dom. by apply Hl.
Qed.

Section registry.
Context (nw : bool) (ok : Z -> Prop) (S : nat -> list nat) (T : nat -> Z -> list nat) (L : list nat) (s : st).
Context (R : rep nw ok S T L s).

Lemma set_bound i p : impls s !! i = Some p -> (length (S i) <= size (regs s))%nat.
Proof using R.
  intros Hp. destruct (r_set _ _ _ _ _ _ R i p Hp) as [H1 H2]. apply regs_bound; [by eapply ordered_nodup|].
  intros r Hr. by eapply sseg_member.
Qed.

Lemma table_bound v n : (length (T v n) <= size (regs s))%nat.
Proof using R.
  apply regs_bound; [apply R|]. intros r (x & p & Hx & _)%(r_mem _ _ _ _ _ _ R). by exists x.
Qed.

Lemma find_in_set_wp i p n (Q : option nat * option nat -> st -> Prop) :
  impls s !! i = Some p ->
  (forall l1 l2, position (regs s) n (S i) l1 l2 -> Q (last_of None l1, head l2) s) ->
  wp (find_in_set i n) Q s.
Proof using R.
  intros Hp HQ. unfold find_in_set. do 4 sig_step.
  eapply find_point_wp; [|apply (r_set _ _ _ _ _ _ R i p Hp)|done].
  pose proof (set_bound i p Hp). lia.
Qed.

(** Whether the registration at the position has the number. *)
Lemma same_number_wp i p n l1 l2 (Q : option registration -> st -> Prop) :
  impls s !! i = Some p -> position (regs s) n (S i) l1 l2 ->
  (forall r x l2', l2 = r :: l2' -> regs s !! r = Some x -> signal_number x = n -> Q (Some x) s) ->
  ((forall r, r ∈ S i -> number (regs s) r <> n) -> Q None s) ->
  wp (same_number (head l2) n) Q s.
Proof using R.
  intros Hp Po Hs Hn. destruct (r_set _ _ _ _ _ _ R i p Hp) as [Hc Ho]. unfold same_number.
  destruct l2 as [|r l2]; cbn [head].
  - wp_step. apply Hn. intros r Hr. destruct Po as [E Hb _]. rewrite E, app_nil_r in Hr.
    specialize (Hb r Hr). lia.
  - assert (Hr : r ∈ S i) by (rewrite (po_split _ _ _ _ _ Po); set_solver).
    destruct (sseg_member _ _ _ _ r Hc Hr) as [x Hx]. do 3 sig_step.
    destruct (Z.eqb_spec (signal_number x) n) as [E|E]; [by eapply Hs|]. apply Hn.
    intros y Hy. rewrite (po_split _ _ _ _ _ Po) in Hy, Ho. apply elem_of_app in Hy as [Hy|Hy].
    + pose proof (po_before _ _ _ _ _ Po y Hy). lia.
    + pose proof (po_after _ _ _ _ _ Po r l2 eq_refl) as Ha. rewrite (number_lookup _ _ _ Hx) in Ha.
      apply ordered_app in Ho as (_ & [_ Ho]%ordered_cons & _).
      apply elem_of_cons in Hy as [->|Hy]; [rewrite (number_lookup _ _ _ Hx); done|].
      specialize (Ho y Hy). rewrite (number_lookup _ _ _ Hx) in Ho. lia.
Qed.
End registry.

(** * Updating the flags of a signal *)

Lemma rep_ok_mono nw (ok ok' : Z -> Prop) S T L s :
  (forall n, ok' n -> ok n) -> rep nw ok S T L s -> rep nw ok' S T L s.
Proof.
  intros H R. destruct R. constructor; try done.
  - intros n Hn. destruct (r_flags0 n Hn) as (f & Hf & Hd). exists f. auto.
  - intros r x Hx. destruct (r_reg0 r x Hx) as (H1 & H2 & f & Hf & Hc). eauto 10.
Qed.

Lemma table_total T L v n : v ∈ L -> T v n <> [] -> 0 < total T L n.
Proof.
  intros [j Hv]%list_elem_of_lookup HT. unfold total.
  pose proof (zsum_ge (fun v => Z.of_nat (length (T v n))) L j v (fun y => Nat2Z.is_nonneg _) Hv) as H.
  cbn in H. destruct (T v n); [done|]. cbn in H. lia.
Qed.

Lemma rep_number_total nw ok S T L s r x :
  rep nw ok S T L s -> regs s !! r = Some x -> 0 < total T L (signal_number x).
Proof.
  intros R Hx. destruct (r_reg _ _ _ _ _ _ R r x Hx) as ([p Hp] & _).
  destruct (r_impl _ _ _ _ _ _ R _ p Hp) as (v & Hv & _).
  apply (table_total T L (svc_ p)); [apply (r_svcs_dom _ _ _ _ _ _ R); by exists v|].
  assert (Hr : r ∈ T (svc_ p) (signal_number x)) by (apply (r_mem _ _ _ _ _ _ R); by exists x, p).
  intros E. rewrite E in Hr. by apply not_elem_of_nil in Hr.
Qed.

(** A signal without registrations can have any flags and handler. *)
Lemma rep_ok_unused nw S T L s n :
  rep nw (fun m => m <> n) S T L s -> total T L n = 0 -> rep nw (fun _ => True) S T L s.
Proof.
  intros R H0. pose proof (fun r x => rep_number_total _ _ _ _ _ _ r x R) as Hpos.
  destruct R. constructor; try done.
  - intros m Hm. destruct (r_flags0 m Hm) as (f & Hf & Hd). exists f. split; [done|].
    intros _ Hp. apply Hd; [|done]. intros ->. lia.
  - intros r x Hx. destruct (r_reg0 r x Hx) as (H1 & H2 & f & Hf & Hc). split; [done|].
    split; [done|]. exists f. split; [done|]. intros _. apply Hc. intros E. specialize (Hpos r x Hx).
    rewrite E in Hpos. lia.
Qed.

Definition with_flags (n f : Z) (d : option (option Z)) (s : st) : st :=
  let g := state s in
  mk_st (mk_state (service_list g) (registration_count g) (<[Z.to_nat n := f]> (registered_flags g))
           (read_fd g) (write_fd g))
    (services s) (impls s) (regs s) (table_links s) (service_links s)
    (match d with Some d => <[Z.to_nat n := d]> (dispositions s) | None => dispositions s end)
    (log s).

Lemma lookup_insert_sig {A} (l : list A) n m a b :
  sig n -> sig m -> l !! Z.to_nat m = Some b ->
  <[Z.to_nat n := a]> l !! Z.to_nat m = Some (if decide (m = n) then a else b).
Proof.
  intros Hn Hm Hb. unfold sig in *. case_decide as E.
  - subst. apply list_lookup_insert_eq. by eapply lookup_lt_Some.
  - rewrite list_lookup_insert_ne; [done|]. lia.
Qed.

Lemma rep_with_flags nw S T L s n f d :
  sig n -> rep nw (fun _ => True) S T L s -> rep nw (fun m => m <> n) S T L (with_flags n f d s).
Proof.
  intros Hn R. destruct R. constructor; try done.
  - intros m Hm. destruct (r_flags0 m Hm) as (g & Hg & Hd).
    exists (if decide (m = n) then f else g). split; [by apply lookup_insert_sig|].
    intros Hne Hp. rewrite decide_False by done. specialize (Hd I Hp).
    destruct d as [d|]; cbn; [|done]. erewrite lookup_insert_sig by done. by rewrite decide_False.
  - destruct d; cbn; [by rewrite length_insert|done].
  - intros r x Hx. destruct (r_reg0 r x Hx) as (H1 & H2 & g & Hg & Hc). split; [done|].
    split; [done|]. exists (if decide (signal_number x = n) then f else g).
    split; [by apply lookup_insert_sig|]. intros Hne. rewrite decide_False by done. by apply Hc.
Qed.

(** Flags and handler that are already in step. *)
Lemma rep_ok_fresh nw S T L s n f :
  rep nw (fun m => m <> n) S T L s -> registered_flags (state s) !! Z.to_nat n = Some f ->
  dispositions s !! Z.to_nat n = Some (Some (to_sigaction_flags nw f)) ->
  (forall r x, regs s !! r = Some x -> signal_number x = n -> flags_compatible f (flags x) = true) ->
  rep nw (fun _ => True) S T L s.
Proof.
  intros R Hf Hd Hc. destruct R. constructor; try done.
  - intros m Hm. destruct (r_flags0 m Hm) as (g & Hg & Hdg). exists g. split; [done|].
    intros _ Hp. destruct (decide (m = n)) as [->|Hne]; [|by apply Hdg].
    rewrite Hd. by replace g with f by congruence.
  - intros r x Hx. destruct (r_reg0 r x Hx) as (H1 & H2 & g & Hg & Hcg). split; [done|].
    split; [done|]. exists g. split; [done|]. intros _.
    destruct (decide (signal_number x = n)) as [E|Hne]; [|by apply Hcg].
    replace g with f by congruence. by apply (Hc r).
Qed.

(** * Changing the lists *)

(** What an operation on the registry leaves alone. *)
Definition wait_view (p : posix_signal) : nat * signal_op * bool * bool :=
  (svc_ p, pending_op_ p, waiting_ p, cancelled_ p).
Definition core (x : registration) : Z * Z * nat * Z :=
  (signal_number x, flags x, owner x, undelivered x).

Lemma sseg_head R m l : sseg R m l None -> m = head l.
Proof. destruct l; cbn; [done|]. by intros [-> _]. Qed.

Lemma write_point_wp i p l1 m v (Q : unit -> st -> Prop) s :
  impls s !! i = Some p -> sseg (regs s) (signals_ p) l1 m -> NoDup l1 ->
  (forall R' p', sseg R' (signals_ p') l1 v -> (forall r, r ∉ l1 -> R' !! r = regs s !! r) ->
     (forall r, core <$> R' !! r = core <$> regs s !! r) -> wait_view p' = wait_view p ->
     Q tt (set_regs R' (set_impls (<[i := p']> (impls s)) s))) ->
  wp (write_point i (last_of None l1) v) Q s.
Proof.
  intros Hp Hc Hd HQ. destruct l1 as [|z l0 _] using rev_ind.
  - cbn [last_of list.last write_point]. sig_step.
    apply (HQ (regs s) (set_signals v p)); done.
  - unfold last_of. rewrite last_snoc. cbn [write_point].
    destruct (sseg_member _ _ _ _ z Hc) as [x Hx]; [set_solver|]. sig_step.
    apply list.NoDup_app in Hd as (_ & Hd & _).
    specialize (HQ (<[z := set_next_in_set v x]> (regs s)) p). rewrite (insert_id (impls s)) in HQ by done.
    apply HQ; try done.
    + eapply sseg_set_next; [done..|]. intros Hz. apply (Hd z Hz). set_solver.
    + intros r Hr. apply lookup_insert_ne. set_solver.
    + intros r. rewrite lookup_insert. case_decide as E; [|done]. subst. by rewrite Hx.
Qed.

Definition put_table (T : nat -> Z -> list nat) (v : nat) (n : Z) (l : list nat) :
    nat -> Z -> list nat := <[v := <[n := l]> (T v)]> T.

Lemma put_table_eq T v n l : put_table T v n l v n = l.
Proof. unfold put_table. by rewrite !fn_lookup_insert. Qed.
Lemma put_table_ne T v n l v' n' : (v', n') <> (v, n) -> put_table T v n l v' n' = T v' n'.
Proof.
  intros H. unfold put_table. destruct (decide (v = v')) as [->|].
  - rewrite fn_lookup_insert, fn_lookup_insert_ne; [done|]. congruence.
  - by rewrite fn_lookup_insert_ne.
Qed.

Lemma zsum_change {A} `{EqDecision A} (f g : A -> Z) L v d :
  NoDup L -> v ∈ L -> g v = f v + d -> (forall u, u <> v -> g u = f u) ->
  zsum g L = zsum f L + d.
Proof.
  intros Hd Hv Hg Hu. induction Hd as [|u L Hn Hd IH]; [by apply not_elem_of_nil in Hv|].
  cbn. apply elem_of_cons in Hv as [->|Hv].
  - rewrite Hg. assert (E : zsum g L = zsum f L); [|lia].
    clear -Hn Hu. induction L as [|w L IH]; [done|]. cbn. rewrite Hu by set_solver. f_equal.
    apply IH. set_solver.
  - rewrite IH by done. rewrite Hu; [lia|]. by intros ->.
Qed.

Lemma total_put T L v n l m :
  NoDup L -> v ∈ L -> total (put_table T v n l) L m =
    total T L m + (if decide (m = n) then Z.of_nat (length l) - Z.of_nat (length (T v n)) else 0).
Proof.
  intros Hd Hv. apply (zsum_change _ _ _ v); [done|done| |].
  - case_decide as E; [subst; rewrite put_table_eq; lia|]. rewrite put_table_ne by congruence. lia.
  - intros u Hu. by rewrite put_table_ne by congruence.
Qed.

(** Service [v] with another table for signal [n]. *)
Definition with_table (n : Z) (h : option nat) (c : Z) (x : service) : service :=
  mk_service (reader_once_ x) (impl_list_ x) (<[Z.to_nat n := h]> (registrations_ x))
    (<[Z.to_nat n := c]> (registration_count_ x)).

(** The state once a registration was linked or unlinked. *)
Definition relinked (v i : nat) (n : Z) (h : option nat) (c c' : Z) (p' : posix_signal)
    (R' : gmap nat registration) (K' : links) (x : service) (s : st) : st :=
  let g := state s in
  mk_st (mk_state (service_list g) (<[Z.to_nat n := c]> (registration_count g)) (registered_flags g)
           (read_fd g) (write_fd g))
    (<[v := with_table n h c' x]> (services s)) (<[i := p']> (impls s)) R' K' (service_links s)
    (dispositions s) (log s).

(** The parts of [rep] about services and tables, for any change of one
    table. *)
Section relink.
Context (nw : bool) (ok : Z -> Prop) (S : nat -> list nat) (T : nat -> Z -> list nat) (L : list nat).
Context (s : st) (R : rep nw ok S T L s).
Context (v i : nat) (n : Z) (h : option nat) (p p' : posix_signal) (x : service).
Context (R' : gmap nat registration) (K' : links) (t : list nat).
Context (Hn : sig n) (Hx : services s !! v = Some x) (Hp : impls s !! i = Some p).
Context (Hv : svc_ p = v) (Hv' : svc_ p' = v).
Context (Hh : chain K' h t) (Ht : NoDup t).
Context (HK : forall y, y ∉ t -> y ∉ T v n -> K' !! y = table_links s !! y).

Let c := total T L n + (Z.of_nat (length t) - Z.of_nat (length (T v n))).
Let s' := relinked v i n h c (Z.of_nat (length t)) p' R' K' x s.
Let T' := put_table T v n t.
Context (S' : nat -> list nat).
Context (Hmem : forall u m r, r ∈ T' u m <-> exists y q, R' !! r = Some y /\ signal_number y = m /\
    impls s' !! owner y = Some q /\ svc_ q = u).
Context (Hother : forall u m r, (u, m) <> (v, n) -> r ∈ T u m -> r ∉ t /\ r ∉ T v n).
Context (Hset : forall j q, impls s' !! j = Some q ->
    sseg R' (signals_ q) (S' j) None /\ ordered R' (S' j)).
Context (Hset_mem : forall j r, r ∈ S' j <-> exists y, R' !! r = Some y /\ owner y = j).
Context (Hreg : forall r y, R' !! r = Some y -> is_Some (impls s' !! owner y) /\ sig (signal_number y) /\
    exists f, registered_flags (state s) !! Z.to_nat (signal_number y) = Some f /\
      (ok (signal_number y) -> flags_compatible f (flags y) = true)).
Context (Hdisp : forall f, ok n -> 0 < total T' L n -> registered_flags (state s) !! Z.to_nat n = Some f ->
    dispositions s !! Z.to_nat n = Some (Some (to_sigaction_flags nw f))).

Lemma rep_relinked : rep nw ok S' T' L s'.
Proof using All.
  assert (HvL : v ∈ L) by (apply (r_svcs_dom _ _ _ _ _ _ R); by exists x).
  assert (Tot : forall m, total T' L m = if decide (m = n) then c else total T L m).
  { intros m. unfold T'. rewrite total_put by (done || apply R). case_decide; subst; unfold c; lia. }
  assert (Svc : forall u y, services s' !! u = Some y ->
    exists y0, services s !! u = Some y0 /\ impl_list_ y = impl_list_ y0
      /\ (u <> v -> y = y0) /\ (u = v -> y = with_table n h (Z.of_nat (length t)) x /\ y0 = x)).
  { intros u y. unfold s'. cbn. intros [[<- <-]|[Hne Hy]]%lookup_insert_Some; [by exists x|by exists y]. }
  constructor.
  - apply R.
  - apply R.
  - intros u. rewrite (r_svcs_dom _ _ _ _ _ _ R). unfold s'. cbn. rewrite lookup_insert_is_Some'.
    split; [tauto|]. intros [->|]; [by exists x|done].
  - intros u y m Hy Hm. destruct (Svc u y Hy) as (y0 & Hy0 & _ & Hne & Heq).
    destruct (decide ((u, m) = (v, n))) as [[= -> ->]|Hum].
    + destruct (Heq eq_refl) as [-> ->]. exists h. unfold T'. rewrite put_table_eq. split; [|done].
      destruct (r_table _ _ _ _ _ _ R v x n Hx Hn) as (h0 & Hh0 & _). cbn.
      erewrite lookup_insert_sig by done. by rewrite decide_True.
    + destruct (r_table _ _ _ _ _ _ R u y0 m Hy0 Hm) as (h0 & Hh0 & Hc0). exists h0.
      unfold T'. rewrite put_table_ne by done. split.
      * destruct (decide (u = v)) as [->|Hu]; [|by rewrite (Hne Hu)].
        destruct (Heq eq_refl) as [-> ->]. cbn. erewrite lookup_insert_sig by done.
        rewrite decide_False; [done|]. congruence.
      * eapply seg_frame; [|exact Hc0]. intros z Hz. destruct (Hother u m z Hum Hz). by apply HK.
  - intros u y m Hy Hm. destruct (Svc u y Hy) as (y0 & Hy0 & _ & Hne & Heq).
    pose proof (r_svc_count _ _ _ _ _ _ R u y0 m Hy0 Hm) as Hc0.
    destruct (decide ((u, m) = (v, n))) as [[= -> ->]|Hum].
    + destruct (Heq eq_refl) as [-> ->]. unfold T'. rewrite put_table_eq. cbn.
      erewrite lookup_insert_sig by done. by rewrite decide_True.
    + unfold T'. rewrite put_table_ne by done.
      destruct (decide (u = v)) as [->|Hu]; [|by rewrite (Hne Hu)].
      destruct (Heq eq_refl) as [-> ->]. cbn. erewrite lookup_insert_sig by done.
      rewrite decide_False; [done|]. congruence.
  - intros m Hm. rewrite Tot. cbn. by apply lookup_insert_sig, (r_count _ _ _ _ _ _ R).
  - intros m Hm. destruct (r_flags _ _ _ _ _ _ R m Hm) as (f & Hf & Hd). exists f. split; [done|].
    intros Hok Hpos. destruct (decide (m = n)) as [->|Hne]; [by apply Hdisp|]. apply Hd; [done|].
    rewrite Tot, decide_False in Hpos by done. done.
  - apply R.
  - intros u m. destruct (decide ((u, m) = (v, n))) as [[= -> ->]|Hum]; unfold T'.
    + by rewrite put_table_eq.
    + rewrite put_table_ne by done. apply R.
  - done.
  - done.
  - done.
  - done.
  - intros j q Hq. assert (exists q0, impls s !! j = Some q0 /\ svc_ q = svc_ q0) as (q0 & Hq0 & ->).
    { unfold s' in Hq. cbn in Hq. apply lookup_insert_Some in Hq as [[<- <-]|[_ Hq]]; [|by exists q].
      exists p. split; [done|congruence]. }
    destruct (r_impl _ _ _ _ _ _ R j q0 Hq0) as (y & Hy & Hj). unfold s'. cbn.
    destruct (decide (svc_ q0 = v)) as [Eq|Hne].
    + rewrite Eq in *. eexists. rewrite lookup_insert_eq. split; [done|]. cbn.
      by replace x with y by congruence.
    + exists y. by rewrite lookup_insert_ne.
Qed.
End relink.

(** The log and the waiting state stay; a registration that is there before
    and after keeps its queued signals. *)
Record quiet (s s' : st) : Prop := {
  q_log : log s' = log s;
  q_impls : forall i, wait_view <$> impls s' !! i = wait_view <$> impls s !! i;
  q_regs : forall r x x', regs s !! r = Some x -> regs s' !! r = Some x' -> core x' = core x
}.

Lemma quiet_refl s : quiet s s.
Proof. constructor; congruence. Qed.

Lemma impls_put_svc (M : gmap nat posix_signal) i p p' j q :
  M !! i = Some p -> svc_ p' = svc_ p ->
  (exists q', <[i := p']> M !! j = Some q' /\ svc_ q' = q) <-> (exists q', M !! j = Some q' /\ svc_ q' = q).
Proof.
  intros Hp Hv. split.
  - intros (q' & [[<- <-]|[_ Hq]]%lookup_insert_Some & <-); [exists p; by rewrite Hv|by exists q'].
  - intros (q' & Hq & <-). destruct (decide (i = j)) as [->|Hne].
    + exists p'. rewrite lookup_insert_eq. replace q' with p by congruence. done.
    + exists q'. by rewrite lookup_insert_ne.
Qed.

(** Membership in a table, with the set and its service in one place. *)
Lemma mem_split (R : gmap nat registration) (M : gmap nat posix_signal) u m r :
  (exists x p, R !! r = Some x /\ signal_number x = m /\ M !! owner x = Some p /\ svc_ p = u) <->
  (exists x, R !! r = Some x /\ signal_number x = m /\ exists p, M !! owner x = Some p /\ svc_ p = u).
Proof. naive_solver. Qed.

Section link.
Context (nw : bool) (S : nat -> list nat) (T : nat -> Z -> list nat) (L : list nat).
Context (s : st) (R : rep nw (fun _ => True) S T L s).
Context (i r : nat) (n fl f : Z) (p : posix_signal) (l1 l2 : list nat).
Context (Hp : impls s !! i = Some p) (Hn : sig n) (Hr : regs s !! r = None).
Context (Po : position (regs s) n (S i) l1 l2).
Context (Hnone : forall y, y ∈ S i -> number (regs s) y <> n).
Context (Hf : registered_flags (state s) !! Z.to_nat n = Some f).
Context (Hc : flags_compatible f fl = true).
Context (Hd : dispositions s !! Z.to_nat n = Some (Some (to_sigaction_flags nw f))).

Let v := svc_ p.
Let new := mk_reg n fl i 0 (head l2).

(** The registrations and the set once the new one is linked at its position. *)
Context (R' : gmap nat registration) (p' : posix_signal).
Context (HR1 : sseg R' (signals_ p') l1 (Some r)).
Context (HR2 : forall y, y ∉ l1 -> R' !! y = <[r := new]> (regs s) !! y).
Context (HR3 : forall y, core <$> R' !! y = core <$> <[r := new]> (regs s) !! y).
Context (Hw : wait_view p' = wait_view p).

Lemma fresh_not_in_set : r ∉ S i.
Proof using R Hr. rewrite (r_set_mem _ _ _ _ _ _ R). intros (x & Hx & _). congruence. Qed.

Lemma linked_lookup y x : R' !! y = Some x ->
  (y = r /\ core x = core new) \/ (y <> r /\ exists x0, regs s !! y = Some x0 /\ core x = core x0).
Proof using HR3.
  intros Hx. destruct (view_lookup core _ _ _ _ (fun k => eq_sym (HR3 k)) Hx) as (x0 & Hx0 & E).
  apply lookup_insert_Some in Hx0 as [[<- <-]|[Hne Hx0]]; [by left|right]. split; [done|]. by exists x0.
Qed.

Lemma linked_new : exists x, R' !! r = Some x /\ core x = core new.
Proof using HR3. apply (view_lookup core _ _ _ _ HR3), lookup_insert_eq. Qed.

Lemma linked_old y x : regs s !! y = Some x -> exists x', R' !! y = Some x' /\ core x' = core x.
Proof using HR3 Hr.
  intros Hx. apply (view_lookup core _ _ _ _ HR3). rewrite lookup_insert_ne; [done|]. congruence.
Qed.

Lemma linked_number y : y <> r -> number R' y = number (regs s) y.
Proof using HR3.
  intros Hy. unfold number. specialize (HR3 y). rewrite lookup_insert_ne in HR3 by done.
  destruct (R' !! y), (regs s !! y); try done. by injection HR3.
Qed.

Lemma linked_set :
  sseg R' (signals_ p') (l1 ++ r :: l2) None /\ ordered R' (l1 ++ r :: l2).
Proof using All.
  destruct (r_set _ _ _ _ _ _ R i p Hp) as [Hs Ho]. pose proof Po as [E Hb _].
  pose proof fresh_not_in_set as Hri. rewrite E in Hs, Hri.
  pose proof (ordered_nodup _ _ Ho) as Hdn. rewrite E in Hdn.
  apply list.NoDup_app in Hdn as (_ & Hdj & _).
  apply sseg_app in Hs as (m & _ & Hs2). pose proof (sseg_head _ _ _ Hs2) as ->.
  assert (Hr1 : R' !! r = Some new) by (rewrite HR2, lookup_insert_eq by set_solver; done).
  split.
  - apply sseg_app. exists (Some r). split; [done|]. split; [done|]. exists new. split; [done|].
    eapply sseg_frame; [|exact Hs2]. intros y Hy. rewrite HR2 by (intros Hy1; by apply (Hdj y)).
    rewrite lookup_insert_ne; [done|]. set_solver.
  - assert (Hrn : number R' r = n) by (unfold number; by rewrite Hr1).
    rewrite E in Ho. apply ordered_app in Ho as (Ho1 & Ho2 & Ho3).
    assert (Hsame : forall y, y ∈ l1 \/ y ∈ l2 -> number R' y = number (regs s) y).
    { intros y Hy. apply linked_number. set_solver. }
    assert (Hafter : forall b, b ∈ l2 -> n < number (regs s) b).
    { intros b Hb2. pose proof (position_after _ _ _ _ _ b ltac:(apply (r_set _ _ _ _ _ _ R i p Hp)) Po Hb2).
      specialize (Hnone b ltac:(rewrite E; set_solver)). lia. }
    apply ordered_app. split; [|split].
    + eapply ordered_frame; [|exact Ho1]. auto.
    + apply ordered_cons. split; [eapply ordered_frame; [|exact Ho2]; auto|].
      intros b Hb2. rewrite Hrn, Hsame by auto. by apply Hafter.
    + intros a b Ha [->|Hb2]%elem_of_cons.
      * rewrite Hrn, Hsame by auto. by apply Hb.
      * rewrite !Hsame by auto. by apply Ho3.
Qed.

Lemma linked_svc : svc_ p' = v.
Proof using Hw. injection Hw. done. Qed.

Lemma fresh_not_in_table u m : r ∉ T u m.
Proof using R Hr. rewrite (r_mem _ _ _ _ _ _ R). intros (y & q & Hy & _). congruence. Qed.

Lemma linked_table_mem u m y :
  y ∈ put_table T v n (r :: T v n) u m <->
  exists z q, R' !! y = Some z /\ signal_number z = m /\ <[i := p']> (impls s) !! owner z = Some q /\
    svc_ q = u.
Proof using All.
  pose proof linked_svc as Hv'. pose proof fresh_not_in_table as Hrt. rewrite mem_split. split.
  + intros Hy. destruct (decide (y = r)) as [->|Hne].
    * destruct linked_new as (z & Hz & [= E1 E2 E3 E4]). exists z. split; [done|].
      destruct (decide ((u, m) = (v, n))) as [[= -> ->]|Hum].
      -- split; [done|]. exists p'. rewrite E3. cbn. by rewrite lookup_insert_eq.
      -- rewrite put_table_ne in Hy by done. by apply Hrt in Hy.
    * assert (Hy' : y ∈ T u m).
      { destruct (decide ((u, m) = (v, n))) as [[= -> ->]|Hum];
          [rewrite put_table_eq in Hy; set_solver|by rewrite put_table_ne in Hy]. }
      apply (r_mem _ _ _ _ _ _ R), mem_split in Hy' as (z & Hz & Hm & Hq).
      destruct (linked_old y z Hz) as (z' & Hz' & [= E1 E2 E3 E4]). exists z'.
      rewrite E1, E3. do 2 (split; [done|]). by apply (impls_put_svc _ i p p').
  + intros (z & Hz & Hm & Hq). destruct (linked_lookup y z Hz) as [[-> [= E1 E2 E3 E4]]|(Hne & z0 & Hz0 & [= E1 E2 E3 E4])].
    * assert ((u, m) = (v, n)) as [= -> ->]; [|rewrite put_table_eq; set_solver].
      destruct Hq as (q & Hq & <-). rewrite E3 in Hq. cbn in Hq. rewrite lookup_insert_eq in Hq.
      injection Hq as <-. congruence.
    * assert (Hy : y ∈ T u m).
      { apply (r_mem _ _ _ _ _ _ R), mem_split. exists z0. rewrite <- E1, <- E3.
        do 2 (split; [done|]). by eapply (impls_put_svc _ i p p'). }
      destruct (decide ((u, m) = (v, n))) as [[= -> ->]|Hum];
        [rewrite put_table_eq; set_solver|by rewrite put_table_ne].
Qed.

Lemma linked_set_mem j y :
  y ∈ <[i := l1 ++ r :: l2]> S j <-> exists z, R' !! y = Some z /\ owner z = j.
Proof using All.
  destruct (decide (i = j)) as [<-|Hne].
  + rewrite fn_lookup_insert. split.
    * intros Hy. destruct (decide (y = r)) as [->|Hyr].
      -- destruct linked_new as (z & Hz & [= E1 E2 E3 E4]). by exists z.
      -- assert (Hyi : y ∈ S i) by (rewrite (po_split _ _ _ _ _ Po); set_solver).
         apply (r_set_mem _ _ _ _ _ _ R) in Hyi as (z & Hz & Ho).
         destruct (linked_old y z Hz) as (z' & Hz' & [= E1 E2 E3 E4]). exists z'. by rewrite E3.
    * intros (z & Hz & Ho). destruct (linked_lookup y z Hz) as [[-> _]|(Hyr & z0 & Hz0 & [= E1 E2 E3 E4])].
      -- set_solver.
      -- assert (Hyi : y ∈ S i) by (apply (r_set_mem _ _ _ _ _ _ R); exists z0; by rewrite <- E3).
         rewrite (po_split _ _ _ _ _ Po) in Hyi. set_solver.
  + rewrite fn_lookup_insert_ne by done. rewrite (r_set_mem _ _ _ _ _ _ R). split.
    * intros (z & Hz & Ho). destruct (linked_old y z Hz) as (z' & Hz' & [= E1 E2 E3 E4]). exists z'. by rewrite E3.
    * intros (z & Hz & Ho). destruct (linked_lookup y z Hz) as [[-> [= E1 E2 E3 E4]]|(Hyr & z0 & Hz0 & [= E1 E2 E3 E4])].
      -- exfalso. apply Hne. rewrite <- Ho. done.
      -- exists z0. by rewrite <- E3.
Qed.

Lemma rep_linked x h K' :
  services s !! v = Some x -> chain K' h (r :: T v n) ->
  (forall y, y ∉ r :: T v n -> K' !! y = table_links s !! y) ->
  rep nw (fun _ => True) (<[i := l1 ++ r :: l2]> S) (put_table T v n (r :: T v n)) L
    (relinked v i n h (total T L n + 1) (Z.of_nat (length (T v n)) + 1) p' R' K' x s).
Proof using All.
  intros Hx Hch HK. pose proof linked_svc as Hv'.
  pose proof fresh_not_in_table as Hrt.
  replace (total T L n + 1) with (total T L n + (Z.of_nat (length (r :: T v n)) - Z.of_nat (length (T v n))))
    by (cbn; lia).
  replace (Z.of_nat (length (T v n)) + 1) with (Z.of_nat (length (r :: T v n))) by (cbn; lia).
  apply (rep_relinked nw (fun _ => True) S T L s R v i n h p p' x R' K' (r :: T v n)); try done.
  - apply list.NoDup_cons. split; [apply Hrt|apply R].
  - intros y Hy _. by apply HK.
  - apply linked_table_mem.
  - intros u m y Hum Hy. assert (Hne : y ∉ T v n).
    { apply (r_mem _ _ _ _ _ _ R) in Hy as (z & q & Hz & Hm & Hq & Hu). rewrite (r_mem _ _ _ _ _ _ R).
      intros (z' & q' & Hz' & Hm' & Hq' & Hu'). apply Hum.
      assert (z' = z) as -> by congruence. assert (q' = q) as -> by congruence. congruence. }
    split; [|done]. specialize (Hrt u m). set_solver.
  - intros j q. unfold relinked. cbn [impls]. intros [[<- <-]|[Hne Hq]]%lookup_insert_Some.
    + rewrite fn_lookup_insert. apply linked_set.
    + rewrite fn_lookup_insert_ne by done. destruct (r_set _ _ _ _ _ _ R j q Hq) as [H1 H2].
      assert (Hdj : forall y, y ∈ S j -> y <> r /\ y ∉ l1).
      { intros y Hy. apply (r_set_mem _ _ _ _ _ _ R) in Hy as (z & Hz & Ho). split; [congruence|].
        intros Hy. assert (Hyi : y ∈ S i) by (rewrite (po_split _ _ _ _ _ Po); set_solver).
        apply (r_set_mem _ _ _ _ _ _ R) in Hyi as (z' & Hz' & Ho'). congruence. }
      split.
      * eapply sseg_frame; [|exact H1]. intros y Hy. destruct (Hdj y Hy).
        by rewrite HR2, lookup_insert_ne.
      * eapply ordered_frame; [|exact H2]. intros y Hy. apply linked_number. by apply Hdj.
  - apply linked_set_mem.
  - intros y z Hz. destruct (linked_lookup y z Hz) as [[-> [= E1 E2 E3 E4]]|(Hyr & z0 & Hz0 & [= E1 E2 E3 E4])].
    + rewrite E1, E2, E3. cbn. rewrite lookup_insert_eq. split; [by eexists|]. split; [done|]. by exists f.
    + rewrite E1, E2, E3. destruct (r_reg _ _ _ _ _ _ R y z0 Hz0) as (H1 & H2 & H3). split; [|done].
      unfold relinked. cbn [impls]. apply lookup_insert_is_Some'. by right.
  - intros f' _ _ Hf'. by replace f' with f by congruence.
Qed.
End link.

Section unlink.
Context (nw : bool) (ok : Z -> Prop) (S : nat -> list nat) (T : nat -> Z -> list nat) (L : list nat).
Context (s : st) (R : rep nw ok S T L s).
Context (i r : nat) (p : posix_signal) (x : registration) (l1 l2 t1 t2 : list nat).
Context (Hp : impls s !! i = Some p) (Hr : regs s !! r = Some x).
Context (Hl : S i = l1 ++ r :: l2).

Let v := svc_ p.
Let n := signal_number x.
Context (Ht : T v n = t1 ++ r :: t2).

(** The registrations and the set once [r] was taken out and deleted. *)
Context (R1 : gmap nat registration) (p' : posix_signal).
Context (HR1 : sseg R1 (signals_ p') l1 (head l2)).
Context (HR2 : forall y, y ∉ l1 -> R1 !! y = regs s !! y).
Context (HR3 : forall y, core <$> R1 !! y = core <$> regs s !! y).
Context (Hw : wait_view p' = wait_view p).

Let R' := delete r R1.

Lemma unlinked_lookup y z : R' !! y = Some z ->
  y <> r /\ exists z0, regs s !! y = Some z0 /\ core z = core z0.
Proof using HR3.
  intros [Hy Hz]%lookup_delete_Some. split; [done|].
  destruct (view_lookup core _ _ _ _ (fun k => eq_sym (HR3 k)) Hz) as (z0 & Hz0 & E). by exists z0.
Qed.

Lemma unlinked_old y z : y <> r -> regs s !! y = Some z -> exists z', R' !! y = Some z' /\ core z' = core z.
Proof using HR3.
  intros Hy Hz. destruct (view_lookup core _ _ _ _ HR3 Hz) as (z' & Hz' & E). exists z'.
  unfold R'. by rewrite lookup_delete_ne.
Qed.

Lemma unlinked_number y : y <> r -> number R' y = number (regs s) y.
Proof using HR3.
  intros Hy. unfold number, R'. rewrite lookup_delete_ne by done. specialize (HR3 y).
  destruct (R1 !! y), (regs s !! y); try done. by injection HR3.
Qed.

Lemma set_nodup : NoDup (l1 ++ r :: l2).
Proof using R Hp Hl.
  destruct (r_set _ _ _ _ _ _ R i p Hp) as [_ Ho]. rewrite Hl in Ho. by eapply ordered_nodup.
Qed.

Lemma unlinked_set : sseg R' (signals_ p') (l1 ++ l2) None /\ ordered R' (l1 ++ l2).
Proof using All.
  destruct (r_set _ _ _ _ _ _ R i p Hp) as [Hs Ho]. pose proof set_nodup as Hd. rewrite Hl in Hs, Ho.
  apply list.NoDup_app in Hd as (_ & Hdj & [Hr2 _]%list.NoDup_cons).
  assert (Hr1 : r ∉ l1) by (intros H1; apply (Hdj r H1); set_solver).
  apply sseg_app in Hs as (m & _ & -> & z & Hz & Hs2). pose proof (sseg_head _ _ _ Hs2) as Hh.
  rewrite Hh in Hs2. split.
  - apply sseg_app. exists (head l2). split.
    + eapply sseg_frame; [|exact HR1]. intros y Hy. unfold R'.
      rewrite lookup_delete_ne; [done|]. by intros ->.
    + eapply sseg_frame; [|exact Hs2]. intros y Hy. unfold R'.
      rewrite lookup_delete_ne by (by intros ->).
      rewrite HR2; [done|]. intros Hy1. apply (Hdj y Hy1). set_solver.
  - apply ordered_app in Ho as (Ho1 & [Ho2 _]%ordered_cons & Ho3).
    assert (Hsame : forall y, y ∈ l1 \/ y ∈ l2 -> number R' y = number (regs s) y).
    { intros y [Hy|Hy]; apply unlinked_number; by intros ->. }
    apply ordered_app. split; [eapply ordered_frame; [|exact Ho1]; auto|].
    split; [eapply ordered_frame; [|exact Ho2]; auto|]. intros a b Ha Hb.
    rewrite !Hsame by auto. apply Ho3; set_solver.
Qed.

Lemma unlinked_table_mem u m y :
  y ∈ put_table T v n (t1 ++ t2) u m <->
  exists z q, R' !! y = Some z /\ signal_number z = m /\ <[i := p']> (impls s) !! owner z = Some q /\
    svc_ q = u.
Proof using All.
  assert (Hv' : svc_ p' = svc_ p) by (by injection Hw).
  pose proof (r_nodup _ _ _ _ _ _ R v n) as Hd. rewrite Ht in Hd.
  apply list.NoDup_app in Hd as (_ & Hdj & [Hr2 _]%list.NoDup_cons).
  assert (Hrt : r ∉ t1 ++ t2) by (intros [H1|H1]%elem_of_app; [apply (Hdj r H1); set_solver|done]).
  rewrite mem_split. split.
  - intros Hy. assert (Hy' : y <> r /\ y ∈ T u m).
    { destruct (decide ((u, m) = (v, n))) as [[= -> ->]|Hum].
      - rewrite put_table_eq in Hy. split; [by intros ->|]. rewrite Ht. set_solver.
      - rewrite put_table_ne in Hy by done. split; [|done]. intros ->. apply Hum.
        apply (r_mem _ _ _ _ _ _ R) in Hy as (z & q & Hz & Hm & Hq & Hu).
        assert (Hrv : r ∈ T v n) by (rewrite Ht; set_solver).
        apply (r_mem _ _ _ _ _ _ R) in Hrv as (z' & q' & Hz' & Hm' & Hq' & Hu').
        assert (z' = z) as -> by congruence. assert (q' = q) as -> by congruence. congruence. }
    destruct Hy' as [Hyr Hy'].
    apply (r_mem _ _ _ _ _ _ R), mem_split in Hy' as (z & Hz & Hm & Hq).
    destruct (unlinked_old y z Hyr Hz) as (z' & Hz' & [= E1 E2 E3 E4]). exists z'.
    rewrite E1, E3. do 2 (split; [done|]). by apply (impls_put_svc _ i p p').
  - intros (z & Hz & Hm & Hq). destruct (unlinked_lookup y z Hz) as (Hyr & z0 & Hz0 & [= E1 E2 E3 E4]).
    assert (Hy : y ∈ T u m).
    { apply (r_mem _ _ _ _ _ _ R), mem_split. exists z0. rewrite <- E1, <- E3.
      do 2 (split; [done|]). by eapply (impls_put_svc _ i p p'). }
    destruct (decide ((u, m) = (v, n))) as [[= -> ->]|Hum]; [|by rewrite put_table_ne].
    rewrite put_table_eq. rewrite Ht in Hy. set_solver.
Qed.

Lemma unlinked_set_mem j y :
  y ∈ <[i := l1 ++ l2]> S j <-> exists z, R' !! y = Some z /\ owner z = j.
Proof using All.
  pose proof set_nodup as Hd. apply list.NoDup_app in Hd as (_ & Hdj & [Hr2 _]%list.NoDup_cons).
  assert (Hro : owner x = i).
  { assert (H : r ∈ S i) by (rewrite Hl; set_solver).
    apply (r_set_mem _ _ _ _ _ _ R) in H as (z & Hz & Ho). congruence. }
  assert (Hiff : y ∈ <[i := l1 ++ l2]> S j <-> y <> r /\ y ∈ S j).
  { destruct (decide (i = j)) as [<-|Hne].
    - rewrite fn_lookup_insert, Hl. split; [|set_solver]. intros Hy. split; [|set_solver].
      intros ->. apply elem_of_app in Hy as [Hy|Hy]; [|done]. apply (Hdj r Hy). set_solver.
    - rewrite fn_lookup_insert_ne by done. split; [|tauto]. intros Hy. split; [|done]. intros ->.
      apply (r_set_mem _ _ _ _ _ _ R) in Hy as (z & Hz & Ho). congruence. }
  rewrite Hiff, (r_set_mem _ _ _ _ _ _ R). split.
  - intros (Hyr & z & Hz & Ho). destruct (unlinked_old y z Hyr Hz) as (z' & Hz' & [= E1 E2 E3 E4]).
    exists z'. by rewrite E3.
  - intros (z & Hz & Ho). destruct (unlinked_lookup y z Hz) as (Hyr & z0 & Hz0 & [= E1 E2 E3 E4]).
    split; [done|]. exists z0. by rewrite <- E3.
Qed.

Lemma rep_unlinked sv h K1 :
  services s !! v = Some sv -> chain K1 h (t1 ++ t2) ->
  (forall y, y ∉ t1 ++ r :: t2 -> K1 !! y = table_links s !! y) ->
  (forall f, ok n -> 0 < total T L n - 1 -> registered_flags (state s) !! Z.to_nat n = Some f ->
    dispositions s !! Z.to_nat n = Some (Some (to_sigaction_flags nw f))) ->
  rep nw ok (<[i := l1 ++ l2]> S) (put_table T v n (t1 ++ t2)) L
    (relinked v i n h (total T L n - 1) (Z.of_nat (length (T v n)) - 1) p' R' (delete r K1) sv s).
Proof using All.
  intros Hx Hch HK Hdisp. assert (Hv' : svc_ p' = svc_ p) by (by injection Hw).
  destruct (r_reg _ _ _ _ _ _ R r x Hr) as (_ & Hn & _).
  pose proof (r_nodup _ _ _ _ _ _ R v n) as Hd. rewrite Ht in Hd.
  apply list.NoDup_app in Hd as (Hd1 & Hdj & [Hr2 Hd2]%list.NoDup_cons).
  assert (Hrt : r ∉ t1 ++ t2) by (intros [H1|H1]%elem_of_app; [apply (Hdj r H1); set_solver|done]).
  assert (HvL : v ∈ L) by (apply (r_svcs_dom _ _ _ _ _ _ R); by exists sv).
  assert (Hlen : Z.of_nat (length (t1 ++ t2)) = Z.of_nat (length (T v n)) - 1).
  { rewrite Ht, !length_app. cbn. lia. }
  rewrite <- Hlen. replace (total T L n - 1)
    with (total T L n + (Z.of_nat (length (t1 ++ t2)) - Z.of_nat (length (T v n)))) by lia.
  apply (rep_relinked nw ok S T L s R v i n h p p' sv R' (delete r K1) (t1 ++ t2)); try done.
  - eapply seg_frame; [|exact Hch]. intros y Hy. apply lookup_delete_ne. by intros ->.
  - apply list.NoDup_app. split; [done|]. split; [|done]. intros y Hy Hy2. apply (Hdj y Hy). set_solver.
  - intros y Hy Hy2. rewrite Ht in Hy2. rewrite lookup_delete_ne by set_solver. by apply HK.
  - apply unlinked_table_mem.
  - intros u m y Hum Hy. assert (Hne : y ∉ T v n).
    { apply (r_mem _ _ _ _ _ _ R) in Hy as (z & q & Hz & Hm & Hq & Hu). rewrite (r_mem _ _ _ _ _ _ R).
      intros (z' & q' & Hz' & Hm' & Hq' & Hu'). apply Hum.
      assert (z' = z) as -> by congruence. assert (q' = q) as -> by congruence. congruence. }
    split; [|done]. rewrite Ht in Hne. set_solver.
  - intros j q. unfold relinked. cbn [impls]. intros [[<- <-]|[Hne Hq]]%lookup_insert_Some.
    + rewrite fn_lookup_insert. apply unlinked_set.
    + rewrite fn_lookup_insert_ne by done. destruct (r_set _ _ _ _ _ _ R j q Hq) as [H1 H2].
      assert (Hdj' : forall y, y ∈ S j -> y <> r /\ y ∉ l1).
      { intros y Hy. assert (Hyi : y ∉ S i).
        { rewrite (r_set_mem _ _ _ _ _ _ R) in *. destruct Hy as (z & Hz & Ho).
          intros (z' & Hz' & Ho'). congruence. }
        rewrite Hl in Hyi. set_solver. }
      split.
      * eapply sseg_frame; [|exact H1]. intros y Hy. destruct (Hdj' y Hy). unfold R'.
        rewrite lookup_delete_ne by done. by rewrite HR2.
      * eapply ordered_frame; [|exact H2]. intros y Hy. apply unlinked_number. by apply Hdj'.
  - apply unlinked_set_mem.
  - intros y z Hz. destruct (unlinked_lookup y z Hz) as (Hyr & z0 & Hz0 & [= E1 E2 E3 E4]).
    rewrite E1, E2, E3. destruct (r_reg _ _ _ _ _ _ R y z0 Hz0) as (H1 & H2 & H3). split; [|done].
    unfold relinked. cbn [impls]. apply lookup_insert_is_Some'. by right.
  - intros f Hok Hpos Hf. apply Hdisp; try done. rewrite total_put, decide_True in Hpos by (done || apply R).
    rewrite Hlen in Hpos. lia.
Qed.
End unlink.
