(* ===== verification/SignalSpec.v ===== *)
(** What the operations of the signal service do to its registry. *)

From stdpp Require Import gmap sorting functions.
From S2P Require Import Prelude StateMonad DoublyLinked Signals SignalInv.
Import dll posix_signal_service.

(** The registry, with some lists. *)
Definition registry (nw : bool) (s : st) : Prop :=
  exists S T L, rep nw (fun _ => True) S T L s.

Lemma core_regs (R R1 : gmap nat registration) r x x' :
  (forall y, core <$> R1 !! y = core <$> R !! y) ->
  R !! r = Some x -> R1 !! r = Some x' -> core x' = core x.
Proof. intros H Hx Hx'. specialize (H r). rewrite Hx, Hx' in H. by apply (inj Some) in H. Qed.

Lemma wait_view_put (M : gmap nat posix_signal) i p p' j :
  M !! i = Some p -> wait_view p' = wait_view p ->
  wait_view <$> <[i := p']> M !! j = wait_view <$> M !! j.
Proof.
  intros Hp Hw. rewrite lookup_insert. case_decide as E; [|done]. subst. rewrite Hp. cbn. by f_equal.
Qed.

(** * Linking *)

Lemma link_registration_wp nw S T L i r n fl f p l1 l2 (Q : unit -> st -> Prop) s :
  rep nw (fun _ => True) S T L s -> impls s !! i = Some p -> sig n -> regs s !! r = None ->
  position (regs s) n (S i) l1 l2 -> (forall y, y ∈ S i -> number (regs s) y <> n) ->
  registered_flags (state s) !! Z.to_nat n = Some f -> flags_compatible f fl = true ->
  dispositions s !! Z.to_nat n = Some (Some (to_sigaction_flags nw f)) ->
  (forall s', rep nw (fun _ => True) (<[i := l1 ++ r :: l2]> S)
                (put_table T (svc_ p) n (r :: T (svc_ p) n)) L s' ->
     quiet s s' -> is_Some (regs s' !! r) -> Q tt s') ->
  wp (link_registration (svc_ p) i r n fl (last_of None l1) (head l2)) Q s.
Proof.
  intros R Hp Hn Hr Po Hnone Hf Hc Hd HQ. unfold link_registration.
  destruct (r_impl _ _ _ _ _ _ R i p Hp) as (x & Hx & _).
  destruct (r_table _ _ _ _ _ _ R _ x n Hx Hn) as (h & Hh & Hch).
  pose proof (fresh_not_in_set nw S T L s R i r Hr) as Hri.
  do 4 sig_step.
  { rewrite bool_decide_eq_true, Hr in Heqb. by destruct Heqb. }
  do 4 sig_step. eapply (write_point_wp i p l1 (head l2)); [done| |..].
  - destruct (r_set _ _ _ _ _ _ R i p Hp) as [Hs _]. rewrite (po_split _ _ _ _ _ Po) in Hs, Hri.
    apply sseg_app in Hs as (m & Hs1 & Hs2). rewrite <- (sseg_head _ _ _ Hs2). cbn.
    eapply sseg_frame; [|exact Hs1]. intros y Hy. rewrite lookup_insert_ne; [done|]. set_solver.
  - destruct (r_set _ _ _ _ _ _ R i p Hp) as [_ Ho]. apply ordered_nodup in Ho.
    rewrite (po_split _ _ _ _ _ Po) in Ho. by apply list.NoDup_app in Ho as [? _].
  - intros R' p' H1 H2 H3 Hw. cbn [regs set_regs set_impls impls] in *. sig_step.
    eapply wp_service; [exact Hx|]. sig_step. eapply wp_at; [apply Hn|exact Hh|]. do 3 sig_step.
    destruct (push_front_chain (table_links s) h (T (svc_ p) n) r) as (K' & EK & HK1 & HK2);
      [done| |apply R|].
    { rewrite (r_mem _ _ _ _ _ _ R). intros (y & q & Hy & _). congruence. }
    eapply wp_lift; [exact EK|]. lazy iota beta. do 3 sig_step. unfold set_table. eapply wp_upd_service; [exact Hx|].
    do 3 sig_step. eapply wp_at; [apply Hn|by apply (r_count _ _ _ _ _ _ R)|]. sig_step.
    unfold set_count. do 2 sig_step. eapply wp_service; [cbn; apply lookup_insert_eq|]. sig_step.
    eapply wp_at; [apply Hn|exact (r_svc_count _ _ _ _ _ _ R _ x n Hx Hn)|].
    unfold set_svc_count. eapply wp_upd_service; [cbn; apply lookup_insert_eq|].
    pose proof (rep_linked nw S T L s R i r n fl f p l1 l2 Hp Hn Hr Po Hnone Hf Hc Hd R' p' H1 H2 H3 Hw
                  x (Some r) K' Hx HK1 HK2) as Rl.
    cbn. rewrite insert_insert_eq. apply HQ; [exact Rl| |].
    + constructor; [done| |].
      * intros j. cbn. by apply wait_view_put with p.
      * intros y z z' Hz Hz'. cbn in Hz'. eapply (core_regs (<[r := mk_reg n fl i 0 (head l2)]> (regs s)));
          [exact H3| |exact Hz']. rewrite lookup_insert_ne; [done|]. congruence.
    + cbn. destruct (view_lookup core _ _ _ _ H3 (lookup_insert_eq (regs s) r (mk_reg n fl i 0 (head l2))))
        as (z & Hz & _). by exists z.
Qed.

(** [r] leaves its set and its table and is deleted. *)
Lemma unlink_wp {A} nw ok S T L i p r x l1 l2 (k : SM A) Q s :
  rep nw ok S T L s -> impls s !! i = Some p -> regs s !! r = Some x -> S i = l1 ++ r :: l2 ->
  (forall f, ok (signal_number x) -> 0 < total T L (signal_number x) - 1 ->
     registered_flags (state s) !! Z.to_nat (signal_number x) = Some f ->
     dispositions s !! Z.to_nat (signal_number x) = Some (Some (to_sigaction_flags nw f))) ->
  (forall s' t1 t2, T (svc_ p) (signal_number x) = t1 ++ r :: t2 ->
     rep nw ok (<[i := l1 ++ l2]> S) (put_table T (svc_ p) (signal_number x) (t1 ++ t2)) L s' ->
     quiet s s' -> regs s' !! r = None -> wp k Q s') ->
  wp (write_point i (last_of None l1) (next_in_set x) ≫= fun _ =>
      unlink_registration (svc_ p) r (signal_number x) ≫= fun _ => k) Q s.
Proof.
  intros R Hp Hr Hl Hdisp HQ. destruct (r_reg _ _ _ _ _ _ R r x Hr) as (_ & Hn & _).
  destruct (r_set _ _ _ _ _ _ R i p Hp) as [Hs Ho]. rewrite Hl in Hs, Ho.
  apply ordered_nodup, list.NoDup_app in Ho as (Ho1 & Hoj & _).
  apply sseg_app in Hs as (m & Hs1 & -> & x' & Hx' & Hs2). assert (x' = x) as -> by congruence.
  rewrite (sseg_head _ _ _ Hs2). set (n := signal_number x) in *.
  destruct (r_impl _ _ _ _ _ _ R i p Hp) as (sv & Hsv & _).
  destruct (r_table _ _ _ _ _ _ R _ sv n Hsv Hn) as (h & Hh & Hch).
  assert (Hrt : r ∈ T (svc_ p) n).
  { apply (r_mem _ _ _ _ _ _ R). exists x, p. do 2 (split; [done|]).
    assert (Hri : r ∈ S i) by (rewrite Hl; set_solver).
    apply (r_set_mem _ _ _ _ _ _ R) in Hri as (y & Hy & Hy'). split; [congruence|done]. }
  apply list_elem_of_split in Hrt as (t1 & t2 & Ht).
  pose proof (r_nodup _ _ _ _ _ _ R (svc_ p) n) as Hd. rewrite Ht in Hch, Hd.
  destruct (unlink_chain _ _ _ _ _ Hch Hd) as (h' & K1 & EK & HK1 & HK2).
  sig_step. eapply (write_point_wp i p l1 (Some r)); [done..|]. intros R1 p' H1 H2 H3 Hw.
  sig_step. unfold unlink_registration. sig_step. eapply wp_service; [exact Hsv|]. sig_step.
  eapply wp_at; [apply Hn|exact Hh|]. do 3 sig_step. eapply wp_lift; [exact EK|]. lazy iota beta.
  do 3 sig_step. unfold set_table. eapply wp_upd_service; [exact Hsv|]. do 3 sig_step.
  eapply wp_at; [apply Hn|by apply (r_count _ _ _ _ _ _ R)|]. sig_step. unfold set_count.
  do 2 sig_step. eapply wp_service; [cbn; apply lookup_insert_eq|]. sig_step.
  eapply wp_at; [apply Hn|exact (r_svc_count _ _ _ _ _ _ R _ sv n Hsv Hn)|]. sig_step.
  unfold set_svc_count. eapply wp_upd_service; [cbn; apply lookup_insert_eq|]. sig_step.
  pose proof (rep_unlinked nw ok S T L s R i r p x l1 l2 t1 t2 Hp Hr Hl Ht R1 p' H1 H2 H3 Hw
                sv h' K1 Hsv HK1 HK2 Hdisp) as Ru.
  cbn. rewrite insert_insert_eq. apply (HQ _ t1 t2); [done|exact Ru| |].
  - constructor; [done| |].
    + intros j. cbn. by apply wait_view_put with p.
    + intros y z z' Hz Hz'. cbn in Hz'. apply lookup_delete_Some in Hz' as [_ Hz']. by eapply core_regs.
  - apply lookup_delete_eq.
Qed.

(** * Adding *)

Lemma quiet_trans s1 s2 s3 :
  quiet s1 s2 -> quiet s2 s3 -> (forall r, is_Some (regs s1 !! r) -> is_Some (regs s3 !! r) -> is_Some (regs s2 !! r)) ->
  quiet s1 s3.
Proof.
  intros [A1 A2 A3] [B1 B2 B3] Hr. constructor; [congruence| |].
  - intros i. by rewrite B2, A2.
  - intros r x x' Hx Hx'. destruct (Hr r) as [y Hy]; [by eexists..|].
    rewrite (B3 r y x' Hy Hx'). by apply (A3 r).
Qed.

Lemma flags_compatible_refl f : flags_compatible f f = true.
Proof. unfold flags_compatible. case_match; [done|]. apply Z.eqb_refl. Qed.

(** How a set changes when signal [n] is added: the answer, and the lists. *)
Definition added (S S' : nat -> list nat) (i r : nat) (e : error_code) : Prop :=
  match e with
  | success => S' = S \/ (forall j, j <> i -> S' j = S j) /\ (forall y, y ∈ S' i <-> y = r \/ y ∈ S i)
  | _ => S' = S
  end.

Lemma rep_no_number nw ok S T L s r x :
  rep nw ok S T L s -> total T L (signal_number x) = 0 -> regs s !! r <> Some x.
Proof. intros R H0 Hx. pose proof (rep_number_total _ _ _ _ _ _ _ _ R Hx). lia. Qed.

(** The handler for the first registration of a signal. *)
Lemma install_wp nw ok S T L n fl f (Q : bool -> st -> Prop) s :
  rep nw (fun _ => True) S T L s -> sig n -> registered_flags (state s) !! Z.to_nat n = Some f ->
  (0 < total T L n -> flags_compatible f fl = true) ->
  (forall s' f', rep nw (fun _ => True) S T L s' -> registered_flags (state s') !! Z.to_nat n = Some f' ->
     flags_compatible f' fl = true ->
     dispositions s' !! Z.to_nat n = Some (Some (to_sigaction_flags nw f')) ->
     log s' = log s -> impls s' = impls s -> regs s' = regs s -> (total T L n = 0 -> ok = true) -> Q true s') ->
  (total T L n = 0 -> ok = false -> Q false s) ->
  wp (if total T L n =? 0 then
        sigaction ok n (Some (to_sigaction_flags nw fl)) ≫= fun ok =>
        (if ok : bool then set_flags n fl else skip) ≫= fun _ => mret ok
      else mret true) Q s.
Proof.
  intros R Hn Hf Hc HQ Hno. destruct (Z.eqb_spec (total T L n) 0) as [E|E].
  - sig_step. unfold sigaction. destruct ok.
    + do 4 sig_step. unfold set_flags. do 2 sig_step.
      pose proof (rep_with_flags nw S T L s n fl (Some (Some (to_sigaction_flags nw fl))) Hn R) as R1.
      change (Q true (with_flags n fl (Some (Some (to_sigaction_flags nw fl))) s)).
      assert (F1 : registered_flags (state (with_flags n fl (Some (Some (to_sigaction_flags nw fl))) s))
                     !! Z.to_nat n = Some fl).
      { cbn. erewrite lookup_insert_sig by done. by rewrite decide_True. }
      assert (D1 : dispositions (with_flags n fl (Some (Some (to_sigaction_flags nw fl))) s)
                     !! Z.to_nat n = Some (Some (to_sigaction_flags nw fl))).
      { cbn. apply list_lookup_insert_eq. rewrite (r_disps _ _ _ _ _ _ R). unfold sig, max_signal_number in Hn. lia. }
      apply (HQ _ fl); try done; [|apply flags_compatible_refl].
      apply (rep_ok_fresh nw S T L _ n fl R1 F1 D1). intros r x Hx <-.
      by apply (rep_no_number _ _ _ _ _ _ _ _ R E) in Hx.
    + do 3 sig_step. by apply Hno.
  - destruct (r_flags _ _ _ _ _ _ R n Hn) as (g & Hg & Hd). assert (g = f) as -> by congruence.
    assert (0 < total T L n) by (pose proof (zsum_nonneg (fun v => Z.of_nat (length (T v n))) L
      (fun y => Nat2Z.is_nonneg _)); unfold total in *; lia).
    sig_step. apply (HQ s f); auto.
Qed.

(** What [add] answers once its arguments are accepted: the flags have to be
    compatible with those of the set, or with those of the signal, and
    [sigaction] has to succeed for the first registration. *)
Definition add_result (ok : bool) (i : nat) (n fl : Z) (s : st) (e : error_code) : Prop :=
  (forall y x, regs s !! y = Some x -> owner x = i -> signal_number x = n ->
     e = if flags_compatible (flags x) fl then success else invalid_argument) /\
  ((forall y x, regs s !! y = Some x -> owner x = i -> signal_number x <> n) ->
   forall c f, registration_count (state s) !! Z.to_nat n = Some c ->
     registered_flags (state s) !! Z.to_nat n = Some f ->
     e = if (0 <? c) && negb (flags_compatible f fl) then invalid_argument
         else if (c =? 0) && negb ok then invalid_argument else success).

(** A set has one registration of a signal. *)
Lemma one_registration nw ok S T L s r r' x x' :
  rep nw ok S T L s ->
  regs s !! r = Some x -> regs s !! r' = Some x' -> owner x = owner x' ->
  signal_number x = signal_number x' -> r = r'.
Proof.
  intros R Hx Hx' Ho Hn.
  assert (H1 : r ∈ S (owner x)) by (apply (r_set_mem _ _ _ _ _ _ R); by exists x).
  assert (H2 : r' ∈ S (owner x)) by (apply (r_set_mem _ _ _ _ _ _ R); by exists x').
  destruct (r_reg _ _ _ _ _ _ R r x Hx) as ([p Hp] & _).
  destruct (r_set _ _ _ _ _ _ R _ p Hp) as [_ Hord].
  apply list_elem_of_split in H1 as (l1 & l2 & E). rewrite E in H2, Hord.
  apply ordered_app in Hord as (_ & [_ Ho2]%ordered_cons & Ho3).
  apply number_lookup in Hx, Hx'. apply elem_of_app in H2 as [H2|[->|H2]%elem_of_cons]; [|done|].
  - specialize (Ho3 r' r H2 ltac:(set_solver)). lia.
  - specialize (Ho2 r' H2). lia.
Qed.

Lemma add_result_same nw okS S T L ok i n fl s r x :
  rep nw okS S T L s -> regs s !! r = Some x -> owner x = i -> signal_number x = n ->
  add_result ok i n fl s (if flags_compatible (flags x) fl then success else invalid_argument).
Proof.
  intros R Hx Ho Hn. split.
  - intros y z Hz Ho' Hn'. assert (y = r) as -> by (eapply one_registration; [exact R|done..|congruence|congruence]).
    by replace z with x by congruence.
  - intros H. by destruct (H r x Hx Ho).
Qed.

Lemma add_result_new ok i n fl s c f e :
  (forall y x, regs s !! y = Some x -> owner x = i -> signal_number x <> n) ->
  registration_count (state s) !! Z.to_nat n = Some c -> registered_flags (state s) !! Z.to_nat n = Some f ->
  e = (if (0 <? c) && negb (flags_compatible f fl) then invalid_argument
       else if (c =? 0) && negb ok then invalid_argument else success) ->
  add_result ok i n fl s e.
Proof.
  intros Hno Hc Hf ->. split; [intros y x Hx Ho Hn; by destruct (Hno y x Hx Ho)|].
  intros _ c' f' Hc' Hf'. by replace c' with c by congruence; replace f' with f by congruence.
Qed.

Lemma add_locked_wp nw ok S T L i r n fl p (Q : error_code -> st -> Prop) s :
  rep nw (fun _ => True) S T L s -> impls s !! i = Some p -> sig n -> regs s !! r = None ->
  (forall e s' S' T', rep nw (fun _ => True) S' T' L s' -> quiet s s' ->
     (e = success -> exists y, y ∈ S' i /\ number (regs s') y = n) -> added S S' i r e ->
     (e <> success -> s' = s) -> add_result ok i n fl s e -> Q e s') ->
  wp (add_locked nw ok (svc_ p) i r n fl) Q s.
Proof.
  intros R Hp Hn Hr HQ. unfold add_locked. sig_step. eapply find_in_set_wp; [done..|].
  intros l1 l2 Po. lazy iota beta. sig_step. eapply same_number_wp; [done|done|exact Po| |].
  - intros y x l2' El Hy Hyn. assert (HyS : y ∈ S i) by (rewrite (po_split _ _ _ _ _ Po), El; set_solver).
    sig_step. apply (HQ _ s S T); [done|apply quiet_refl| |by destruct (flags_compatible _ _); [left|]|done|].
    + intros _. exists y. split; [done|]. by rewrite (number_lookup _ _ _ Hy).
    + apply (r_set_mem _ _ _ _ _ _ R) in HyS as (z & Hz & Ho). assert (z = x) as -> by congruence.
      by eapply add_result_same.
  - intros Hnone. do 3 sig_step. pose proof (r_count _ _ _ _ _ _ R n Hn) as Hcount.
    eapply wp_at; [apply Hn|exact Hcount|]. sig_step.
    assert (Hno : forall y x, regs s !! y = Some x -> owner x = i -> signal_number x <> n).
    { intros y x Hx Ho. rewrite <- (number_lookup _ _ _ Hx). apply Hnone, (r_set_mem _ _ _ _ _ _ R). by exists x. }
    destruct (r_flags _ _ _ _ _ _ R n Hn) as (f & Hf & Hd). eapply wp_at; [apply Hn|exact Hf|].
    sig_step.
    { sig_step. apply (HQ _ s S T); [done|apply quiet_refl|done..|]. eapply add_result_new; [done..|].
      by rewrite Heqb. }
    sig_step. eapply install_wp; [done|done|done| | |].
    + intros Hpos. apply andb_false_iff in Heqb as [Hb|Hb]; [lia|by apply negb_false_iff in Hb].
    + intros s1 f1 R1 Hf1 Hc1 Hd1 E1 E2 E3 Hok. sig_step.
      eapply (link_registration_wp nw S T L); rewrite ?E2, ?E3; try done.
      intros s2 R2 Hq2 [z Hz]. sig_step. apply (HQ _ s2 _ _ R2).
      * destruct Hq2 as [Q1 Q2 Q3]. rewrite E1, E2, E3 in *. by constructor.
      * intros _. exists r. rewrite fn_lookup_insert. split; [set_solver|].
        assert (Hrt : r ∈ put_table T (svc_ p) n (r :: T (svc_ p) n) (svc_ p) n)
          by (rewrite put_table_eq; set_solver).
        apply (r_mem _ _ _ _ _ _ R2) in Hrt as (x & q & Hx & Hxn & _). by rewrite (number_lookup _ _ _ Hx).
      * right. split; [intros j Hj; by rewrite fn_lookup_insert_ne|]. intros y. rewrite fn_lookup_insert.
        rewrite (po_split _ _ _ _ _ Po). set_solver.
      * done.
      * eapply add_result_new; [done..|]. rewrite Heqb.
        destruct (Z.eqb_spec (total T L n) 0) as [E|E]; [|done]. by rewrite (Hok E).
    + intros E ->. sig_step. apply (HQ _ s S T); [done|apply quiet_refl|done..|].
      eapply add_result_new; [done..|]. by rewrite Heqb, E.
Qed.

(** A signal number the code accepts. *)
Lemma sig_checked n : (n <? 0) || (max_signal_number <=? n) = false -> sig n.
Proof. unfold sig. intros [?%Z.ltb_ge ?%Z.leb_gt]%orb_false_iff. lia. Qed.

(** * Changes beside the lists *)

Lemma rep_fds nw ok S T L s r w :
  rep nw ok S T L s ->
  rep nw ok S T L
    (set_state (mk_state (service_list (state s)) (registration_count (state s))
                  (registered_flags (state s)) r w) s).
Proof. intros R. by destruct R. Qed.

(** Another record for service [v], with the same tables and all its sets. *)
Lemma rep_service nw ok S T L s v x x' :
  rep nw ok S T L s -> services s !! v = Some x ->
  registrations_ x' = registrations_ x -> registration_count_ x' = registration_count_ x ->
  (forall i p, impls s !! i = Some p -> svc_ p = v -> i ∈ impl_list_ x -> i ∈ impl_list_ x') ->
  rep nw ok S T L (set_services (<[v := x']> (services s)) s).
Proof.
  intros R Hx Hr Hc Hi. destruct R as [R1 R2 R3 R4 R5 R6 R7 R8 R9 R10 R11 R12 R13 R14].
  constructor; cbn; try done.
  - intros u. rewrite lookup_insert_is_Some', R3. split; [by right|].
    intros [->|]; [by exists x|done].
  - intros u y n [[<- <-]|[_ Hy]]%lookup_insert_Some Hn; [rewrite Hr|]; by eapply R4.
  - intros u y n [[<- <-]|[_ Hy]]%lookup_insert_Some Hn; [rewrite Hc|]; by eapply R5.
  - intros i p Hp. destruct (R14 i p Hp) as (y & Hy & Hiy).
    destruct (decide (svc_ p = v)) as [E|E].
    + exists x'. rewrite E, lookup_insert_eq. split; [done|]. eapply Hi; [done|done|congruence].
    + exists y. by rewrite lookup_insert_ne.
Qed.

(** What the answer of [add] depends on, beside the registrations. *)
Definition registry_view (s : st) : list Z * list Z :=
  (registration_count (state s), registered_flags (state s)).

(** The reader of the pipe is registered by the first [add] of a service. *)
Definition same_sets (s s' : st) : Prop :=
  impls s' = impls s /\ regs s' = regs s /\ registry_view s' = registry_view s /\
  dispositions s' = dispositions s /\ exists l, log s' = log s ++ l /\ forall e, e ∈ l ->
    exists v fd, e = Register_reader v fd.

Lemma same_sets_refl s : same_sets s s.
Proof.
  do 4 (split; [done|]). exists []. split; [by rewrite app_nil_r|]. by intros ? ?%not_elem_of_nil.
Qed.

Lemma same_sets_trans s1 s2 s3 : same_sets s1 s2 -> same_sets s2 s3 -> same_sets s1 s3.
Proof.
  intros (A1 & A2 & A3 & A4 & l & A5 & A6) (B1 & B2 & B3 & B4 & m & B5 & B6).
  do 4 (split; [congruence|]). exists (l ++ m). rewrite B5, A5, app_assoc. split; [done|].
  intros e [He|He]%elem_of_app; auto.
Qed.

Lemma register_reader_wp nw ok S T L v (Q : unit -> st -> Prop) s :
  rep nw ok S T L s -> is_Some (services s !! v) ->
  (forall s', rep nw ok S T L s' -> same_sets s s' -> Q tt s') -> wp (register_reader v) Q s.
Proof.
  intros R [x Hx] HQ. unfold register_reader. do 3 sig_step.
  - sig_step. apply HQ; [done|apply same_sets_refl].
  - do 4 sig_step. apply HQ.
    + pose proof (rep_service nw ok S T L s v x (mk_service true (impl_list_ x) (registrations_ x)
                    (registration_count_ x)) R Hx eq_refl eq_refl (fun _ _ _ _ H => H)) as R1.
      by refine (rep_frame nw ok S T L _ _ _ _ _ _ _ _ _ R1).
    + do 4 (split; [done|]). eexists. split; [reflexivity|].
      intros e ->%list_elem_of_singleton. by eexists _, _.
Qed.

Lemma open_signal_pipe_wp nw ok S T L fds (Q : bool -> st -> Prop) s :
  rep nw ok S T L s ->
  (forall s', rep nw ok S T L s' -> same_sets s s' -> services s' = services s ->
     Q ((0 <=? read_fd (state s)) || bool_decide (is_Some fds)) s') ->
  wp (open_signal_pipe fds) Q s.
Proof.
  intros R HQ. unfold open_signal_pipe. do 2 sig_step.
  sig_step; [sig_step; apply HQ; [done|apply same_sets_refl|done]|]. cbn [orb] in HQ.
  destruct fds as [[r w]|].
  - rewrite bool_decide_eq_true_2 in HQ by (by eexists). do 3 sig_step. apply HQ; [by apply rep_fds| |done].
    do 4 (split; [done|]). exists []. split; [by rewrite app_nil_r|]. by intros ? ?%not_elem_of_nil.
  - rewrite bool_decide_eq_false_2 in HQ by (by intros [? ?]). sig_step. apply HQ; [done|apply same_sets_refl|done].
Qed.

(** Like [quiet], but the reader may be registered. *)
Definition silent (s s' : st) : Prop := exists s1, same_sets s s1 /\ quiet s1 s'.

Lemma same_sets_silent s s' : same_sets s s' -> silent s s'.
Proof. intros H. exists s'. split; [done|apply quiet_refl]. Qed.

(** What [add] answers, in the order of its tests. *)
Definition add_answer (nw : bool) (fds : option (Z * Z)) (ok : bool) (i : nat) (n fl : Z) (s : st)
    (e : error_code) : Prop :=
  if (n <? 0) || (max_signal_number <=? n) then e = invalid_argument
  else if negb (flags_supported nw fl) then e = operation_not_supported
  else if negb ((0 <=? read_fd (state s)) || bool_decide (is_Some fds)) then e = io_error
  else add_result ok i n fl s e.

Lemma add_result_frame ok i n fl s s' e :
  same_sets s s' -> add_result ok i n fl s' e -> add_result ok i n fl s e.
Proof. intros (_ & E2 & [= E3 E4] & _). unfold add_result. by rewrite E2, E3, E4. Qed.

Lemma add_signal_wp nw fds ok S T L i r n fl p (Q : error_code -> st -> Prop) s :
  rep nw (fun _ => True) S T L s -> impls s !! i = Some p -> regs s !! r = None ->
  (forall e s' S' T', rep nw (fun _ => True) S' T' L s' -> silent s s' ->
     (e = success -> exists y, y ∈ S' i /\ number (regs s') y = n) -> added S S' i r e ->
     (e <> success -> same_sets s s') -> add_answer nw fds ok i n fl s e -> Q e s') ->
  wp (add_signal nw fds ok i r n fl) Q s.
Proof.
  intros R Hp Hr HQ. unfold add_answer in HQ. unfold add_signal. do 2 sig_step.
  assert (Hfail : forall e s', e <> success -> rep nw (fun _ => True) S T L s' -> same_sets s s' ->
    add_answer nw fds ok i n fl s e -> Q e s').
  { intros e s' He R' Hs Ha. apply (HQ e s' S T R'); auto; [by apply same_sets_silent|done|].
    by destruct e. }
  unfold add_answer in Hfail.
  sig_step; [sig_step; by apply Hfail; [|done|apply same_sets_refl|]|].
  sig_step; [sig_step; by apply Hfail; [|done|apply same_sets_refl|]|].
  sig_step. eapply open_signal_pipe_wp; [done|]. intros s1 R1 F1 E4.
  sig_step; [sig_step; by apply Hfail|].
  sig_step. eapply register_reader_wp; [done| |].
  { rewrite E4. destruct (r_impl _ _ _ _ _ _ R i p Hp) as (x & Hx & _). by exists x. }
  intros s2 R2 F2. assert (F : same_sets s s2) by (by eapply same_sets_trans).
  pose proof F as (G1 & G2 & _). eapply add_locked_wp; [done|congruence|by apply sig_checked|congruence|].
  intros e s3 S3 T3 R3 Q3 He Ha Hsame Hres. apply (HQ e s3 S3 T3 R3); [by exists s2|done|done| |].
  - intros Hne. by rewrite (Hsame Hne).
  - by eapply add_result_frame.
Qed.

(** * Removing *)

(** How a set changes when the registrations that satisfy [P] go. *)
Definition removed (S S' : nat -> list nat) (i : nat) (P : nat -> Prop) : Prop :=
  (forall j, j <> i -> S' j = S j) /\ forall y, y ∈ S' i <-> y ∈ S i /\ ~ P y.

(** The handler of a signal goes with its last registration: [r] is taken out
    of its set once flags and handler are those for the signal without it. *)
Definition ready (nw : bool) (S : nat -> list nat) (T : nat -> Z -> list nat) (L : list nat) (n : Z)
    (s : st) : Prop :=
  rep nw (fun _ => True) S T L s \/ total T L n = 1 /\ rep nw (fun m => m <> n) S T L s.

Lemma ready_rep nw S T L n s : ready nw S T L n s -> rep nw (fun m => m <> n) S T L s.
Proof. intros [R|[_ R]]; [|done]. by eapply rep_ok_mono; [|exact R]. Qed.

Lemma take_out_wp {A} nw S T L i p r x l1 l2 (k : SM A) Q s :
  ready nw S T L (signal_number x) s ->
  impls s !! i = Some p -> regs s !! r = Some x -> S i = l1 ++ r :: l2 ->
  (forall s' T', rep nw (fun _ => True) (<[i := l1 ++ l2]> S) T' L s' ->
     quiet s s' -> regs s' !! r = None -> wp k Q s') ->
  wp (write_point i (last_of None l1) (next_in_set x) ≫= fun _ =>
      unlink_registration (svc_ p) r (signal_number x) ≫= fun _ => k) Q s.
Proof.
  intros HR Hp Hr HSi HQ. pose proof (ready_rep _ _ _ _ _ _ HR) as R0.
  destruct (r_reg _ _ _ _ _ _ R0 r x Hr) as (_ & Hn & _). destruct HR as [R|[Ht R]].
  - eapply (unlink_wp nw _ S T L i p r x l1 l2); [exact R|done..| |].
    + intros f _ Hpos Hf. destruct (r_flags _ _ _ _ _ _ R _ Hn) as (g & Hg & Hd).
      replace f with g by congruence. apply Hd; [done|lia].
    + intros s2 t1 t2 _ R2 Q2 Hg. by eapply HQ.
  - eapply (unlink_wp nw _ S T L i p r x l1 l2); [exact R|done..|lia|].
    intros s2 t1 t2 Ht12 R2 Q2 Hg. eapply HQ; [|done|done].
    apply (rep_ok_unused _ _ _ _ _ (signal_number x) R2).
    destruct (r_impl _ _ _ _ _ _ R i p Hp) as (sv & Hsv & _).
    rewrite total_put, decide_True; [|done|apply R|apply (r_svcs_dom _ _ _ _ _ _ R); by exists sv].
    rewrite Ht12, !length_app. cbn. lia.
Qed.

(** The rest of a set once the registration of [n] is taken out. *)
Lemma removed_number nw ok S T L s i p r x l1 l2 :
  rep nw ok S T L s -> impls s !! i = Some p -> regs s !! r = Some x -> S i = l1 ++ r :: l2 ->
  removed S (<[i := l1 ++ l2]> S) i (fun y => number (regs s) y = signal_number x).
Proof.
  intros R Hp Hr HSi. destruct (r_set _ _ _ _ _ _ R i p Hp) as [_ Ho].
  split; [intros j Hj; by rewrite fn_lookup_insert_ne|]. intros y. rewrite fn_lookup_insert, HSi in *.
  pose proof (number_lookup _ _ _ Hr) as Hrn. split.
  - intros Hy. split; [set_solver|]. apply ordered_app in Ho as (_ & [_ Ho2]%ordered_cons & Ho3).
    apply elem_of_app in Hy as [Hy|Hy]; [specialize (Ho3 y r Hy ltac:(set_solver))|specialize (Ho2 y Hy)]; lia.
  - intros [Hy Hne]. assert (y <> r) by (intros ->; congruence). set_solver.
Qed.

Lemma quiet_same s s1 s2 :
  log s1 = log s -> impls s1 = impls s -> regs s1 = regs s -> quiet s1 s2 -> quiet s s2.
Proof. intros E1 E2 E3 [H1 H2 H3]. rewrite E1, E2, E3 in *. by constructor. Qed.

Lemma remove_signal_wp nw ok S T L i n p (Q : error_code -> st -> Prop) s :
  rep nw (fun _ => True) S T L s -> impls s !! i = Some p ->
  (forall e s' S' T', rep nw (fun _ => True) S' T' L s' -> quiet s s' ->
     (e <> success -> S' = S) ->
     (e = success -> removed S S' i (fun y => number (regs s) y = n)) -> Q e s') ->
  wp (remove_signal ok i n) Q s.
Proof.
  intros R Hp HQ. unfold remove_signal. do 2 sig_step.
  sig_step; [sig_step; by apply (HQ _ s S T); [|apply quiet_refl|..]|].
  pose proof (sig_checked n Heqb) as Hn.
  sig_step. eapply find_in_set_wp; [done..|]. intros l1 l2 Po. lazy iota beta. sig_step.
  eapply same_number_wp; [done|done|exact Po| |].
  2: { intros Hnone. sig_step. apply (HQ _ s S T); [done|apply quiet_refl|done|]. intros _.
       split; [done|]. intros y. split; [|tauto]. auto. }
  intros r x l2' -> Hr <-. cbn [head].
  assert (HSi : S i = l1 ++ r :: l2') by apply Po.
  do 3 sig_step. eapply wp_at; [apply Hn|by apply (r_count _ _ _ _ _ _ R)|]. sig_step.
  assert (Hfin : forall s1, ready nw S T L (signal_number x) s1 ->
    log s1 = log s -> impls s1 = impls s -> regs s1 = regs s ->
    wp (write_point i (last_of None l1) (next_in_set x) ≫= fun _ =>
        unlink_registration (svc_ p) r (signal_number x) ≫= fun _ => mret success) Q s1).
  { intros s1 HR1 E1 E2 E3.
    eapply (take_out_wp nw S T L i p r x l1 l2'); [exact HR1|congruence..|done|].
    intros s2 T2 R2 Q2 _. sig_step. apply (HQ _ s2 _ _ R2); [by eapply quiet_same|done|]. intros _.
    by eapply removed_number. }
  destruct (Z.eqb_spec (total T L (signal_number x)) 1) as [E|E].
  - sig_step. unfold sigaction. destruct ok.
    + do 4 sig_step. unfold set_flags. do 2 sig_step.
      apply (Hfin (with_flags (signal_number x) none (Some None) s)); try done. right.
      split; [done|]. by apply rep_with_flags.
    + do 3 sig_step. sig_step. by apply (HQ _ s S T); [|apply quiet_refl|..].
  - sig_step. apply Hfin; try done. by left.
Qed.

Lemma rep_member nw ok S T L s r :
  rep nw ok S T L s -> is_Some (regs s !! r) <-> exists i, r ∈ S i.
Proof.
  intros R. split.
  - intros [x Hx]. exists (owner x). apply (r_set_mem _ _ _ _ _ _ R). by exists x.
  - intros (i & (x & Hx & _)%(r_set_mem _ _ _ _ _ _ R)). by exists x.
Qed.

Lemma quiet_impl s s' i p :
  quiet s s' -> impls s !! i = Some p -> exists p', impls s' !! i = Some p' /\ wait_view p' = wait_view p.
Proof. intros [_ Hq _] Hp. by eapply view_lookup. Qed.

Lemma clear_loop_wp nw ok L i v fuel (Q : error_code -> st -> Prop) : forall S T e s p,
  rep nw (fun _ => True) S T L s -> impls s !! i = Some p -> svc_ p = v ->
  (length (S i) < fuel)%nat ->
  (forall e' s' S' T', rep nw (fun _ => True) S' T' L s' -> quiet s s' ->
     removed S S' i (fun _ => True) -> Q e' s') ->
  wp (clear_loop fuel ok v i e) Q s.
Proof.
  induction fuel as [|fuel IH]; intros S T e s p R Hp Hv Hf HQ; [lia|]. cbn [clear_loop]. do 2 sig_step.
  destruct (r_set _ _ _ _ _ _ R i p Hp) as [Hs Ho]. destruct (S i) as [|r l] eqn:HSi.
  { cbn in Hs. rewrite Hs. sig_step. apply (HQ _ s S T R); [apply quiet_refl|]. split; [done|].
    intros y. rewrite HSi. set_solver. }
  cbn in Hs. destruct Hs as (E & x & Hx & _). rewrite E. do 5 sig_step.
  destruct (r_reg _ _ _ _ _ _ R r x Hx) as (_ & Hn & _).
  eapply wp_at; [apply Hn|by apply (r_count _ _ _ _ _ _ R)|]. sig_step.
  assert (Hfin : forall e1 s1, ready nw S T L (signal_number x) s1 ->
    log s1 = log s -> impls s1 = impls s -> regs s1 = regs s ->
    wp (upd_impl i (set_signals (next_in_set x)) ≫= fun _ =>
        unlink_registration v r (signal_number x) ≫= fun _ => clear_loop fuel ok v i e1) Q s1).
  { intros e1 s1 HR1 E1 E2 E3. subst v.
    eapply (take_out_wp nw S T L i p r x [] l); [exact HR1|congruence..|done|].
    intros s2 T2 R2 Q2 Hg. assert (Hq : quiet s s2) by (by eapply quiet_same).
    destruct (quiet_impl _ _ _ _ Hq Hp) as (p2 & Hp2 & [= Hw _ _ _]).
    eapply IH; [exact R2|exact Hp2|done|rewrite fn_lookup_insert; cbn in *; lia|].
    intros e' s3 S3 T3 R3 Q3 Hrm. apply (HQ _ s3 S3 T3 R3).
    - eapply quiet_trans; [exact Hq|exact Q3|]. intros y _ [j Hj]%(rep_member _ _ _ _ _ _ _ R3).
      apply (rep_member _ _ _ _ _ _ _ R2). exists j. destruct Hrm as [Hr1 Hr2].
      destruct (decide (j = i)) as [->|]; [by apply Hr2 in Hj as [? _]|by rewrite <- Hr1].
    - destruct Hrm as [Hr1 Hr2]. split; [intros j Hj; rewrite Hr1 by done; by rewrite fn_lookup_insert_ne|].
      intros y. rewrite Hr2. tauto. }
  destruct (Z.eqb_spec (total T L (signal_number x)) 1) as [Et|Et].
  - sig_step. unfold sigaction. assert (Hready : forall d, ready nw S T L (signal_number x)
      (with_flags (signal_number x) none d s)) by (right; split; [done|]; by apply rep_with_flags).
    destruct (ok (signal_number x)).
    all: repeat sig_step; unfold set_flags; do 2 sig_step.
    + by apply (Hfin _ _ (Hready (Some None))).
    + by apply (Hfin _ _ (Hready None)).
  - sig_step. apply Hfin; try done. by left.
Qed.

Lemma clear_signals_wp nw ok S T L i p (Q : error_code -> st -> Prop) s :
  rep nw (fun _ => True) S T L s -> impls s !! i = Some p ->
  (forall e' s' S' T', rep nw (fun _ => True) S' T' L s' -> quiet s s' ->
     removed S S' i (fun _ => True) -> Q e' s') ->
  wp (clear_signals ok i) Q s.
Proof.
  intros R Hp HQ. unfold clear_signals. do 4 sig_step. eapply clear_loop_wp; [done..| |done].
  pose proof (set_bound _ _ _ _ _ _ R i p Hp). lia.
Qed.

(** * Sets and services come and go *)

Lemma rep_no_set nw ok S T L s i : rep nw ok S T L s -> impls s !! i = None -> S i = [].
Proof.
  intros R Hi. destruct (S i) as [|r l] eqn:E; [done|].
  assert (H : r ∈ S i) by (rewrite E; set_solver). apply (r_set_mem _ _ _ _ _ _ R) in H as (x & Hx & Ho).
  destruct (r_reg _ _ _ _ _ _ R r x Hx) as ([p Hp] & _). congruence.
Qed.

Lemma rep_no_table nw ok S T L s v n :
  rep nw ok S T L s -> (forall i p, impls s !! i = Some p -> svc_ p <> v) -> T v n = [].
Proof.
  intros R Hi. destruct (T v n) as [|r l] eqn:E; [done|].
  assert (H : r ∈ T v n) by (rewrite E; set_solver).
  apply (r_mem _ _ _ _ _ _ R) in H as (x & p & _ & _ & Hp & Hv). by apply (Hi _ p) in Hp.
Qed.

Lemma construct_set_wp nw ok S T L v i (Q : unit -> st -> Prop) s :
  rep nw ok S T L s -> impls s !! i = None -> is_Some (services s !! v) ->
  (forall s', rep nw ok S T L s' -> log s' = log s -> regs s' = regs s ->
     impls s' = <[i := mk_signal v None empty_op false false]> (impls s) -> Q tt s') ->
  wp (construct v i) Q s.
Proof.
  intros R Hi [x Hx] HQ. unfold construct. do 4 sig_step.
  { rewrite bool_decide_eq_true, Hi in Heqb. by destruct Heqb. }
  do 3 sig_step. eapply wp_upd_service; [exact Hx|]. apply HQ; try done.
  assert (R1 := rep_service nw ok S T L s v x (set_impl_list (impl_list_ x ++ [i]) x) R Hx eq_refl eq_refl
    ltac:(cbn; set_solver)).
  pose proof (rep_no_set _ _ _ _ _ _ i R Hi) as HSi.
  destruct R1 as [R1 R2 R3 R4 R5 R6 R7 R8 R9 R10 R11 R12 R13 R14]. constructor; try done.
  all: cbn [impls services regs set_services set_impls] in *.
  - intros u n r. rewrite R10. split; intros (y & q & Hy & Hn & Hq & Hu); exists y, q; cbn in *.
    + rewrite lookup_insert_ne; [done|]. congruence.
    + destruct (r_reg _ _ _ _ _ _ R r y Hy) as ([q' Hq'] & _).
      rewrite lookup_insert_ne in Hq; [done|]. congruence.
  - intros j q [[<- <-]|[_ Hq]]%lookup_insert_Some; [|by apply R11]. rewrite HSi. split; [done|]. constructor.
  - intros r y Hy. destruct (R13 r y Hy) as (H1 & H2). split; [|done]. apply lookup_insert_is_Some'. by right.
  - intros j q [[<- <-]|[_ Hq]]%lookup_insert_Some; [|by apply R14]. cbn. eexists. rewrite lookup_insert_eq.
    split; [done|]. cbn. set_solver.
Qed.

Lemma destroy_set_wp nw ok S T L i p (Q : unit -> st -> Prop) s :
  rep nw ok S T L s -> impls s !! i = Some p -> S i = [] ->
  (forall s', rep nw ok S T L s' -> log s' = log s -> regs s' = regs s ->
     impls s' = delete i (impls s) -> Q tt s') ->
  wp (destroy_impl (svc_ p) i) Q s.
Proof.
  intros R Hp HSi HQ. unfold destroy_impl. destruct (r_impl _ _ _ _ _ _ R i p Hp) as (x & Hx & Hix).
  sig_step. eapply wp_upd_service; [exact Hx|]. sig_step. apply HQ; try done.
  assert (Hne : forall r y, regs s !! r = Some y -> owner y <> i).
  { intros r y Hy Ho. assert (H : r ∈ S i) by (apply (r_set_mem _ _ _ _ _ _ R); by exists y).
    rewrite HSi in H. by apply not_elem_of_nil in H. }
  destruct R as [R1 R2 R3 R4 R5 R6 R7 R8 R9 R10 R11 R12 R13 R14]. constructor; try done.
  all: cbn [impls services regs set_services set_impls] in *.
  - intros u. cbn. rewrite lookup_insert_is_Some', R3. split; [by right|]. intros [<-|]; [by exists x|done].
  - intros u y n [[<- <-]|[_ Hy]]%lookup_insert_Some Hn; cbn; by eapply R4.
  - intros u y n [[<- <-]|[_ Hy]]%lookup_insert_Some Hn; cbn; by eapply R5.
  - intros u n r. rewrite R10. split; intros (y & q & Hy & Hn & Hq & Hu); exists y, q; cbn in *.
    + rewrite lookup_delete_ne; [done|]. apply not_eq_sym. by eapply Hne.
    + by apply lookup_delete_Some in Hq as [_ Hq].
  - intros j q [_ Hq]%lookup_delete_Some. by apply R11.
  - intros r y Hy. destruct (R13 r y Hy) as (H1 & H2). split; [|done]. cbn. rewrite lookup_delete_ne; [done|].
    apply not_eq_sym. by eapply Hne.
  - intros j q [Hj Hq]%lookup_delete_Some. destruct (R14 j q Hq) as (y & Hy & Hjy). cbn.
    destruct (decide (svc_ q = svc_ p)) as [E|E].
    + rewrite E, lookup_insert_eq. eexists. split; [done|]. cbn. apply list_elem_of_filter.
      split; [done|]. by replace x with y by congruence.
    + rewrite lookup_insert_ne by done. by exists y.
Qed.

Lemma total_other T L L' v n : (forall u, u ∈ L <-> u = v \/ u ∈ L') -> T v n = [] -> v ∉ L' ->
  NoDup L -> NoDup L' -> total T L n = total T L' n.
Proof.
  intros HL HT Hv Hd Hd'. unfold total.
  assert (HP : L ≡ₚ v :: L').
  { apply NoDup_Permutation; [done|by apply list.NoDup_cons|]. intros u. rewrite HL. set_solver. }
  transitivity (zsum (fun v => Z.of_nat (length (T v n))) (v :: L')); [|cbn; rewrite HT; cbn; lia].
  clear -HP. induction HP; cbn; lia.
Qed.

(** The services [L'] instead of [L], where only [v] differs and it has no
    registrations. *)
Lemma rep_services nw ok S T L L' s s' v :
  rep nw ok S T L s -> NoDup L' -> (forall u, v <> u -> u ∈ L' <-> u ∈ L) -> v ∉ L \/ v ∉ L' ->
  (forall n, T v n = []) ->
  chain (service_links s') (service_list (state s')) L' ->
  registration_count (state s') = registration_count (state s) ->
  registered_flags (state s') = registered_flags (state s) ->
  impls s' = impls s -> regs s' = regs s -> table_links s' = table_links s -> dispositions s' = dispositions s ->
  (forall u, v <> u -> services s' !! u = services s !! u) ->
  (v ∈ L' <-> is_Some (services s' !! v)) ->
  (forall x n, services s' !! v = Some x -> sig n ->
     registrations_ x !! Z.to_nat n = Some None /\ registration_count_ x !! Z.to_nat n = Some 0) ->
  (forall i p, impls s !! i = Some p -> svc_ p <> v) ->
  rep nw ok S T L' s'.
Proof.
  intros R Hd HL Hv HT Hch E1 E2 E3 E4 E5 E6 Hsv Hvd Hnew Hno.
  assert (Ht : forall n, total T L' n = total T L n).
  { intros n. pose proof (r_svcs_nodup _ _ _ _ _ _ R) as HdL.
    destruct (decide (v ∈ L)) as [H1|H1], (decide (v ∈ L')) as [H2|H2]; [tauto| | |].
    - symmetry. apply (total_other _ _ _ v); auto. intros u. destruct (decide (v = u)) as [->|Hne]; [tauto|].
      rewrite (HL u) by done. split; [by right|]. by intros [->|].
    - apply (total_other _ _ _ v); auto. intros u. destruct (decide (v = u)) as [->|Hne]; [tauto|].
      rewrite (HL u) by done. split; [by right|]. by intros [->|].
    - unfold total. assert (HP : L' ≡ₚ L).
      { apply NoDup_Permutation; [done..|]. intros u. destruct (decide (v = u)) as [->|Hne]; [tauto|by apply HL]. }
      clear -HP. induction HP; cbn; lia. }
  destruct R as [R1 R2 R3 R4 R5 R6 R7 R8 R9 R10 R11 R12 R13 R14].
  constructor; rewrite ?E1, ?E2, ?E3, ?E4, ?E5, ?E6; try done.
  - intros u. destruct (decide (v = u)) as [<-|Hne]; [done|]. by rewrite HL, Hsv.
  - intros u x n Hx Hn. destruct (decide (v = u)) as [<-|Hne].
    + destruct (Hnew x n Hx Hn) as [H1 _]. exists None. by rewrite HT.
    + rewrite Hsv in Hx by done. by eapply R4.
  - intros u x n Hx Hn. destruct (decide (v = u)) as [<-|Hne].
    + destruct (Hnew x n Hx Hn) as [_ H1]. by rewrite HT.
    + rewrite Hsv in Hx by done. by eapply R5.
  - intros n Hn. rewrite Ht. by apply R6.
  - intros n Hn. rewrite Ht. by apply R7.
  - intros i p Hp. rewrite Hsv by (apply not_eq_sym; by eapply Hno). by apply R14.
Qed.

Lemma make_service_wp nw ok S T L v (Q : unit -> st -> Prop) s :
  rep nw ok S T L s -> services s !! v = None ->
  (forall s', rep nw ok S T (v :: L) s' -> log s' = log s -> regs s' = regs s -> impls s' = impls s -> Q tt s') ->
  wp (make_service v) Q s.
Proof.
  intros R Hv HQ. unfold make_service. do 4 sig_step.
  { rewrite bool_decide_eq_true, Hv in Heqb. by destruct Heqb. }
  do 3 sig_step. unfold add_service. do 3 sig_step.
  assert (HvL : v ∉ L) by (rewrite (r_svcs_dom _ _ _ _ _ _ R), Hv; by intros [? ?]).
  destruct (push_front_chain _ _ _ v (r_svcs _ _ _ _ _ _ R) HvL (r_svcs_nodup _ _ _ _ _ _ R))
    as (K & EK & HK1 & _).
  eapply wp_lift; [exact EK|]. lazy iota beta. do 3 sig_step. apply HQ; try done.
  assert (Hno : forall i p, impls s !! i = Some p -> svc_ p <> v).
  { intros i p Hp <-. destruct (r_impl _ _ _ _ _ _ R i p Hp) as (x & Hx & _). congruence. }
  eapply (rep_services nw ok S T L (v :: L) s _ v); try done.
  - apply list.NoDup_cons. split; [done|apply R].
  - set_solver.
  - by left.
  - intros n. by eapply rep_no_table.
  - intros u Hu. cbn. by rewrite lookup_insert_ne.
  - cbn. rewrite lookup_insert_eq. split; [by eexists|set_solver].
  - intros x n Hx Hn. cbn in Hx. rewrite lookup_insert_eq in Hx. injection Hx as <-. cbn -[replicate].
    unfold sig, max_signal_number in Hn. split; apply lookup_replicate_2; lia.
Qed.

(** A listed service is recognised by its links or by the head of the list. *)
Lemma listed_service L o l1 v l2 k :
  chain L o (l1 ++ v :: l2) -> L !! v = Some k ->
  bool_decide (is_Some (next k)) || bool_decide (is_Some (prev k)) || bool_decide (o = Some v) = true.
Proof.
  intros (m & H1 & -> & k' & Hk' & Hp & _)%seg_app Hk. assert (k' = k) as -> by congruence.
  destruct l1 as [|z l1 _] using rev_ind.
  - cbn in H1. subst o. by rewrite (bool_decide_eq_true_2 (Some v = Some v)), !orb_true_r.
  - unfold last_of in Hp. rewrite last_snoc in Hp. rewrite Hp.
    by rewrite (bool_decide_eq_true_2 (is_Some (Some z))), orb_true_r by (by eexists).
Qed.

Lemma delete_service_wp nw ok S T L v x (Q : unit -> st -> Prop) s :
  rep nw ok S T L s -> services s !! v = Some x -> impl_list_ x = [] ->
  (forall s' L', rep nw ok S T L' s' -> log s' = log s -> regs s' = regs s -> impls s' = impls s -> Q tt s') ->
  wp (delete_service v) Q s.
Proof.
  intros R Hv Hx HQ. unfold delete_service. do 2 sig_step.
  assert (HvL : v ∈ L) by (apply (r_svcs_dom _ _ _ _ _ _ R); by exists x).
  apply list_elem_of_split in HvL as (l1 & l2 & HL). pose proof (r_svcs _ _ _ _ _ _ R) as Hch.
  pose proof (r_svcs_nodup _ _ _ _ _ _ R) as Hd. rewrite HL in Hch, Hd.
  destruct (seg_member _ _ _ _ _ v Hch) as [k Hk]; [set_solver|].
  sig_step. unfold remove_service. do 5 sig_step; [|by rewrite (listed_service _ _ _ _ _ _ Hch Hk) in Heqb].
  destruct (unlink_chain _ _ _ _ _ Hch Hd) as (h' & K & EK & HK1 & HK2).
  sig_step. eapply wp_lift; [exact EK|]. lazy iota beta. do 4 sig_step.
  assert (Hno : forall i p, impls s !! i = Some p -> svc_ p <> v).
  { intros i p Hp <-. destruct (r_impl _ _ _ _ _ _ R i p Hp) as (y & Hy & Hi).
    assert (y = x) as -> by congruence. rewrite Hx in Hi. by apply not_elem_of_nil in Hi. }
  assert (Hvl : v ∉ l1 ++ l2).
  { apply list.NoDup_app in Hd as (_ & Hdj & [Hv2 _]%list.NoDup_cons).
    intros [H|H]%elem_of_app; [apply (Hdj v H); set_solver|done]. }
  apply (HQ _ (l1 ++ l2)); try done. eapply (rep_services nw ok S T L (l1 ++ l2) s _ v); try done.
  - apply list.NoDup_app in Hd as (Hd1 & Hdj & [_ Hd2]%list.NoDup_cons). apply list.NoDup_app.
    split; [done|]. split; [|done]. intros u Hu1 Hu2. apply (Hdj u Hu1). set_solver.
  - intros u Hu. rewrite HL. set_solver.
  - by right.
  - intros n. by eapply rep_no_table.
  - cbn. eapply seg_frame; [|exact HK1]. intros u Hu. assert (v <> u) by (by intros ->).
    by rewrite lookup_delete_ne, lookup_insert_ne.
  - intros u Hu. cbn. by rewrite lookup_delete_ne.
  - cbn. rewrite lookup_delete_eq. split; [done|by intros [? ?]].
  - intros y n Hy. cbn in Hy. by rewrite lookup_delete_eq in Hy.
Qed.
