(* ===== verification/SignalDeliver.v ===== *)
(** Waiting on a signal set and delivering signals to it. *)

From stdpp Require Import gmap sorting functions.
From S2P Require Import Prelude StateMonad DoublyLinked Signals SignalInv SignalSpec.
Import dll posix_signal_service.

(** * What a delivery does *)

Definition waiting (s : st) (i : nat) : bool :=
  match impls s !! i with
  | Some p => waiting_ p
  | None => false
  end.

Definition owner_of (s : st) (r : nat) : nat :=
  match regs s !! r with
  | Some x => owner x
  | None => 0
  end.

(** A waiting set gets the number and stops waiting. *)
Definition hit (n : Z) (p : posix_signal) : posix_signal :=
  if waiting_ p then set_pending (set_op_number n (pending_op_ p)) (set_waiting false p) else p.

(** Signal [n] reaches the registrations [l]: the operation of each waiting
    owner is posted, and a registration of a set that does not wait counts it. *)
Record delivered (n : Z) (l : list nat) (s s' : st) : Prop := {
  dl_state : state s' = state s;
  dl_services : services s' = services s;
  dl_tables : table_links s' = table_links s;
  dl_links : service_links s' = service_links s;
  dl_disps : dispositions s' = dispositions s;
  dl_impls : forall i, impls s' !! i =
    (if decide (i ∈ map (owner_of s) l) then hit n else id) <$> impls s !! i;
  dl_regs : forall r, regs s' !! r =
    (fun x => if bool_decide (r ∈ l) && negb (waiting s (owner x))
              then set_undelivered (u64 (undelivered x + 1)) x else x) <$> regs s !! r;
  dl_log : log s' = log s ++ map Post (filter (fun i => waiting s i) (map (owner_of s) l))
}.

Lemma delivered_nil n s : delivered n [] s s.
Proof.
  constructor; try done.
  - intros i. rewrite decide_False by (by intros ?%not_elem_of_nil). by destruct (impls s !! i).
  - intros r. rewrite bool_decide_eq_false_2 by (by intros ?%not_elem_of_nil). cbn.
    by destruct (regs s !! r).
  - cbn. by rewrite app_nil_r.
Qed.

Lemma delivered_owner n l s s' r : delivered n l s s' -> owner_of s' r = owner_of s r.
Proof.
  intros D. unfold owner_of. rewrite (dl_regs _ _ _ _ D). destruct (regs s !! r); [|done]. cbn.
  by destruct (_ && _).
Qed.

Lemma delivered_waiting n l s s' i :
  delivered n l s s' -> i ∉ map (owner_of s) l -> waiting s' i = waiting s i.
Proof.
  intros D Hi. unfold waiting. rewrite (dl_impls _ _ _ _ D), decide_False by done.
  by destruct (impls s !! i).
Qed.

Lemma delivered_app n l1 l2 s s1 s2 :
  NoDup (map (owner_of s) (l1 ++ l2)) -> delivered n l1 s s1 -> delivered n l2 s1 s2 ->
  delivered n (l1 ++ l2) s s2.
Proof.
  intros Hd D1 D2. rewrite map_app in Hd. apply list.NoDup_app in Hd as (_ & Hdj & _).
  assert (Em : map (owner_of s1) l2 = map (owner_of s) l2).
  { apply map_ext. intros r. by eapply delivered_owner. }
  assert (Hw : forall i, i ∈ map (owner_of s) l2 -> waiting s1 i = waiting s i).
  { intros i Hi. eapply delivered_waiting; [done|]. intros H1. by apply (Hdj i). }
  assert (Hr : forall r x, regs s !! r = Some x -> forall l, r ∈ l -> owner x ∈ map (owner_of s) l).
  { intros r x Hx l Hl. apply list_elem_of_In, in_map_iff. exists r. unfold owner_of at 1. rewrite Hx.
    by rewrite <- list_elem_of_In. }
  constructor.
  - by rewrite (dl_state _ _ _ _ D2), (dl_state _ _ _ _ D1).
  - by rewrite (dl_services _ _ _ _ D2), (dl_services _ _ _ _ D1).
  - by rewrite (dl_tables _ _ _ _ D2), (dl_tables _ _ _ _ D1).
  - by rewrite (dl_links _ _ _ _ D2), (dl_links _ _ _ _ D1).
  - by rewrite (dl_disps _ _ _ _ D2), (dl_disps _ _ _ _ D1).
  - intros i. rewrite (dl_impls _ _ _ _ D2), (dl_impls _ _ _ _ D1), Em, map_app.
    destruct (impls s !! i) as [p|]; [|done]. cbn. f_equal.
    destruct (decide (i ∈ map (owner_of s) l1)) as [H1|H1], (decide (i ∈ map (owner_of s) l2)) as [H2|H2].
    + by apply (Hdj i) in H1.
    + rewrite decide_True; [done|]. set_solver.
    + rewrite decide_True; [done|]. set_solver.
    + rewrite decide_False; [done|]. set_solver.
  - intros r. rewrite (dl_regs _ _ _ _ D2), (dl_regs _ _ _ _ D1).
    destruct (regs s !! r) as [x|] eqn:Hx; [|done]. cbn. f_equal.
    destruct (decide (r ∈ l1)) as [H1|H1], (decide (r ∈ l2)) as [H2|H2].
    + exfalso. by apply (Hdj (owner x)); eapply Hr.
    + rewrite (bool_decide_eq_false_2 (r ∈ l2)), !(bool_decide_eq_true_2 (r ∈ _)) by set_solver. done.
    + rewrite (bool_decide_eq_false_2 (r ∈ l1)), !(bool_decide_eq_true_2 (r ∈ _)) by set_solver. cbn.
      by rewrite Hw by (by eapply Hr).
    + rewrite !(bool_decide_eq_false_2 (r ∈ _)) by set_solver. done.
  - rewrite (dl_log _ _ _ _ D2), (dl_log _ _ _ _ D1), Em, map_app, list.filter_app, map_app, app_assoc. f_equal.
    f_equal. clear -Hw. induction (map (owner_of s) l2) as [|i l IH]; [done|].
    rewrite !list.filter_cons, Hw by set_solver. rewrite IH by (intros; apply Hw; set_solver). done.
Qed.

Lemma delivered_one n r x p s :
  regs s !! r = Some x -> impls s !! owner x = Some p ->
  wp (if waiting_ p then
        upd_impl (owner x) (fun p => set_pending (set_op_number n (pending_op_ p))
                                       (set_waiting false p)) ≫= fun _ =>
        emit (Post (owner x))
      else upd_reg r (set_undelivered (u64 (undelivered x + 1)))) (fun _ s' => delivered n [r] s s') s.
Proof.
  intros Hx Hp.
  assert (Eo : owner_of s r = owner x) by (unfold owner_of; by rewrite Hx).
  assert (Ew : waiting s (owner x) = waiting_ p) by (unfold waiting; by rewrite Hp).
  sig_step.
  - do 3 sig_step. constructor; try done.
    + intros i. cbn. rewrite Eo. destruct (decide (i = owner x)) as [->|Hne].
      * rewrite lookup_insert_eq, Hp. rewrite decide_True by set_solver. cbn. unfold hit. by rewrite Heqb.
      * rewrite lookup_insert_ne by done. rewrite decide_False by set_solver. by destruct (impls s !! i).
    + intros y. cbn. destruct (regs s !! y) as [z|] eqn:Hz; [|done]. cbn. f_equal.
      case_bool_decide as E; [|done]. apply list_elem_of_singleton in E as ->.
      assert (z = x) as -> by congruence. by rewrite Ew.
    + cbn [map add_log log]. rewrite Eo, list.filter_cons, Ew. done.
  - sig_step. constructor; try done.
    + intros i. cbn. rewrite Eo. case_decide as E; [|by destruct (impls s !! i)].
      apply list_elem_of_singleton in E as ->. rewrite Hp. cbn. unfold hit. by rewrite Heqb.
    + intros y. cbn. destruct (decide (y = r)) as [->|Hne].
      * rewrite lookup_insert_eq, Hx. cbn. rewrite bool_decide_eq_true_2 by set_solver. by rewrite Ew.
      * rewrite lookup_insert_ne by done. rewrite bool_decide_eq_false_2 by set_solver. cbn.
        by destruct (regs s !! y).
    + cbn [map add_log log]. rewrite Eo, list.filter_cons, Ew. cbn. by rewrite app_nil_r.
Qed.

Lemma delivered_owned n l s s' r :
  delivered n l s s' ->
  (exists x p, regs s !! r = Some x /\ impls s !! owner x = Some p) ->
  exists x p, regs s' !! r = Some x /\ impls s' !! owner x = Some p.
Proof.
  intros D (x & p & Hx & Hp). eexists _, _. rewrite (dl_regs _ _ _ _ D), Hx. split; [done|].
  rewrite (dl_impls _ _ _ _ D). replace (impls s !! _) with (Some p); [done|]. rewrite <- Hp.
  by destruct (_ && _).
Qed.

Lemma deliver_table_wp n l : forall fuel p o s,
  seg (table_links s) p o l None -> (length l < fuel)%nat -> NoDup (map (owner_of s) l) ->
  (forall r, r ∈ l -> exists x p, regs s !! r = Some x /\ impls s !! owner x = Some p) ->
  wp (deliver_table fuel n o) (fun _ s' => delivered n l s s') s.
Proof.
  induction l as [|r l IH]; intros fuel q o s Hc Hf Hd Hl; (destruct fuel as [|fuel]; [cbn in Hf; lia|]).
  - cbn in Hc. subst o. cbn [deliver_table]. sig_step. apply delivered_nil.
  - destruct Hc as (-> & k & Hk & _ & Hc). destruct (Hl r) as (x & p & Hx & Hp); [set_solver|].
    cbn [deliver_table]. do 4 sig_step. sig_step. eapply wp_mono; [by apply delivered_one|].
    intros [] s1 D1. assert (Et := dl_tables _ _ _ _ D1). do 3 sig_step.
    eapply wp_deref; [by rewrite Et|].
    assert (Em : map (owner_of s1) l = map (owner_of s) l).
    { apply map_ext. intros y. by eapply delivered_owner. }
    eapply wp_mono; [apply (IH fuel (Some r))|].
    + by rewrite Et.
    + cbn in Hf. lia.
    + rewrite Em. by apply list.NoDup_cons in Hd as [_ ?].
    + intros y Hy. eapply delivered_owned; [exact D1|]. apply Hl. set_solver.
    + intros [] s2 D2. by apply (delivered_app n [r] l s s1 s2).
Qed.

(** * The registrations of a signal *)

(** All the registrations of [n], in the order of the walk. *)
Definition subscribers (T : nat -> Z -> list nat) (L : list nat) (n : Z) : list nat :=
  flat_map (fun v => T v n) L.

Section subscribers.
Context (nw : bool) (ok : Z -> Prop) (S : nat -> list nat) (T : nat -> Z -> list nat) (L : list nat) (s : st).
Context (R : rep nw ok S T L s).

Lemma table_reg v n r : r ∈ T v n -> exists x p, regs s !! r = Some x /\ impls s !! owner x = Some p
  /\ signal_number x = n /\ svc_ p = v.
Proof using R. intros (x & p & Hx & Hn & Hp & Hv)%(r_mem _ _ _ _ _ _ R). by exists x, p. Qed.

Lemma subscribers_spec n l r : r ∈ subscribers T l n <-> exists v, v ∈ l /\ r ∈ T v n.
Proof.
  unfold subscribers. rewrite list_elem_of_In, in_flat_map. setoid_rewrite <- list_elem_of_In. done.
Qed.

Lemma owners_nodup l n : NoDup l -> NoDup (map (owner_of s) (subscribers T l n)).
Proof using R.
  intros Hd. apply (NoDup_fmap_2_strong (owner_of s)).
  - intros r r' (v & _ & Hr)%subscribers_spec (v' & _ & Hr')%subscribers_spec E.
    destruct (table_reg _ _ _ Hr) as (x & p & Hx & _ & Hn & _).
    destruct (table_reg _ _ _ Hr') as (x' & p' & Hx' & _ & Hn' & _).
    unfold owner_of in E. rewrite Hx, Hx' in E. eapply (one_registration _ _ _ _ _ _ _ _ _ _ R); [done..|congruence].
  - induction Hd as [|v l Hv Hd IH]; cbn; [constructor|]. apply list.NoDup_app.
    split; [apply R|]. split; [|done]. intros r Hr (u & Hu & Hr')%subscribers_spec.
    destruct (table_reg _ _ _ Hr) as (x & p & Hx & Hp & _ & <-).
    destruct (table_reg _ _ _ Hr') as (x' & p' & Hx' & Hp' & _ & <-). apply Hv.
    assert (x' = x) as -> by congruence. assert (p' = p) as -> by congruence. done.
Qed.

(** The owners reached are the sets with a registration of [n]. *)
Lemma subscriber_owner n i :
  i ∈ map (owner_of s) (subscribers T L n) <-> exists r x, regs s !! r = Some x /\ owner x = i /\ signal_number x = n.
Proof using R.
  rewrite list_elem_of_fmap. split.
  - intros (r & -> & (v & _ & Hr)%subscribers_spec). destruct (table_reg _ _ _ Hr) as (x & p & Hx & _ & Hn & _).
    exists r, x. unfold owner_of. by rewrite Hx.
  - intros (r & x & Hx & <- & <-). exists r. split; [unfold owner_of; by rewrite Hx|].
    destruct (r_reg _ _ _ _ _ _ R r x Hx) as ([p Hp] & _).
    destruct (r_impl _ _ _ _ _ _ R _ p Hp) as (y & Hy & _).
    apply subscribers_spec. exists (svc_ p). split; [apply (r_svcs_dom _ _ _ _ _ _ R); by exists y|].
    apply (r_mem _ _ _ _ _ _ R). by exists x, p.
Qed.
End subscribers.

Lemma rep_delivered nw ok S T L n l s s' :
  delivered n l s s' -> rep nw ok S T L s -> rep nw ok S T L s'.
Proof.
  intros D. apply rep_frame; try apply D.
  - intros i. rewrite (dl_impls _ _ _ _ D). destruct (impls s !! i) as [p|]; [|done]. cbn. f_equal.
    case_decide; [|done]. unfold hit. by destruct (waiting_ p).
  - intros r. rewrite (dl_regs _ _ _ _ D). destruct (regs s !! r) as [x|]; [|done]. cbn. f_equal.
    by destruct (_ && _).
Qed.

Lemma deliver_services_wp nw ok S T L n l : forall fuel p o s,
  rep nw ok S T L s -> sig n -> seg (service_links s) p o l None -> (length l < fuel)%nat -> NoDup l ->
  (forall v, v ∈ l -> v ∈ L) ->
  wp (deliver_services fuel n o) (fun _ s' => delivered n (subscribers T l n) s s') s.
Proof.
  induction l as [|v l IH]; intros fuel q o s R Hn Hc Hf Hd Hl; (destruct fuel as [|fuel]; [cbn in Hf; lia|]).
  - cbn in Hc. subst o. cbn [deliver_services]. sig_step. apply delivered_nil.
  - destruct Hc as (-> & k & Hk & _ & Hc).
    destruct (proj1 (r_svcs_dom _ _ _ _ _ _ R v)) as [x Hx]; [apply Hl; set_solver|].
    destruct (r_table _ _ _ _ _ _ R v x n Hx Hn) as (h & Hh & Hch).
    pose proof (owners_nodup _ _ _ _ _ _ R (v :: l) n Hd) as Hown. cbn [subscribers flat_map] in Hown.
    cbn [deliver_services]. do 3 sig_step. eapply wp_at; [apply Hn|exact Hh|]. do 3 sig_step.
    eapply wp_mono; [apply (deliver_table_wp n (T v n) _ None); [exact Hch| | |]|].
    + pose proof (table_bound _ _ _ _ _ _ R v n). lia.
    + rewrite map_app in Hown. by apply list.NoDup_app in Hown as [? _].
    + intros r Hr. destruct (table_reg _ _ _ _ _ _ R _ _ _ Hr) as (y & p & Hy & Hp & _). by exists y, p.
    + intros [] s1 D1. assert (El := dl_links _ _ _ _ D1). do 3 sig_step.
      eapply wp_deref; [by rewrite El|]. pose proof (rep_delivered _ _ _ _ _ _ _ _ _ D1 R) as R1.
      eapply wp_mono; [apply (IH fuel (Some v) (next k) s1 R1 Hn)|].
      * by rewrite El.
      * cbn in Hf. lia.
      * by apply list.NoDup_cons in Hd as [_ ?].
      * intros u Hu. apply Hl. set_solver.
      * intros [] s2 D2. by eapply delivered_app.
Qed.

Lemma services_bound nw ok S T L s : rep nw ok S T L s -> (length L <= size (services s))%nat.
Proof.
  intros R. rewrite <- (size_dom (services s)). rewrite <- (size_list_to_set (C := gset nat)) by apply R.
  apply subseteq_size. intros v Hv%elem_of_list_to_set. by apply elem_of_dom, (r_svcs_dom _ _ _ _ _ _ R).
Qed.

Lemma deliver_signal_wp nw ok S T L n s :
  rep nw ok S T L s -> sig n ->
  wp (deliver_signal n) (fun _ s' => delivered n (subscribers T L n) s s') s.
Proof.
  intros R Hn. unfold deliver_signal. destruct Hn as [H1 H2].
  test_false ((n <? 0) || (max_signal_number <=? n)). do 2 sig_step.
  eapply (deliver_services_wp nw ok S T L n L _ None); [done|done|apply R| |apply R|done].
  pose proof (services_bound _ _ _ _ _ _ R). lia.
Qed.

(** * Waiting *)

Definition queued_at (s : st) (r : nat) : Z :=
  match regs s !! r with
  | Some x => undelivered x
  | None => 0
  end.

(** The first registration of the list with a queued signal, or none. *)
Lemma find_queued_wp l : forall fuel o (Q : option (nat * registration) -> st -> Prop) s,
  sseg (regs s) o l None -> (length l < fuel)%nat ->
  (forall l1 r l2 x, l = l1 ++ r :: l2 -> (forall y, y ∈ l1 -> queued_at s y <= 0) ->
     regs s !! r = Some x -> 0 < undelivered x -> Q (Some (r, x)) s) ->
  ((forall y, y ∈ l -> queued_at s y <= 0) -> Q None s) ->
  wp (find_queued fuel o) Q s.
Proof.
  induction l as [|r l IH]; intros fuel o Q s Hc Hf Hs Hn; (destruct fuel as [|fuel]; [cbn in Hf; lia|]).
  - cbn in Hc. subst o. cbn [find_queued]. sig_step. apply Hn. by intros ? ?%not_elem_of_nil.
  - destruct Hc as (-> & x & Hx & Hc). cbn [find_queued]. do 2 sig_step.
    assert (Ex : queued_at s r = undelivered x) by (unfold queued_at; by rewrite Hx).
    destruct (Z.ltb_spec 0 (undelivered x)) as [Hp|Hp].
    + sig_step. eapply (Hs []); try done. by intros ? ?%not_elem_of_nil.
    + apply (IH fuel _ Q s Hc); [cbn in Hf; lia| |].
      * intros l1 r' l2 y -> Hl Hy Hpos. apply (Hs (r :: l1) r' l2 y); [done| |done|done].
        intros z [->|Hz]%elem_of_cons; [lia|by apply Hl].
      * intros Hl. apply Hn. intros z [->|Hz]%elem_of_cons; [lia|by apply Hl].
Qed.

Section waiting.
Context (nw : bool) (ok : Z -> Prop) (S : nat -> list nat) (T : nat -> Z -> list nat) (L : list nat) (s : st).
Context (R : rep nw ok S T L s).

(** The set with another operation, and the state after it. *)
Lemma rep_op i p p' s' :
  impls s !! i = Some p -> impls s' = <[i := p']> (impls s) -> set_view p' = set_view p ->
  (forall r, reg_view <$> regs s' !! r = reg_view <$> regs s !! r) ->
  state s' = state s -> services s' = services s -> table_links s' = table_links s ->
  service_links s' = service_links s -> dispositions s' = dispositions s ->
  rep nw ok S T L s'.
Proof using R.
  intros Hp E6 Hv Hr E1 E2 E3 E4 E5. apply (rep_frame nw ok S T L s); try done. intros j. rewrite E6.
  rewrite lookup_insert. case_decide as E; [|done]. subst. rewrite Hp. cbn. by f_equal.
Qed.

Lemma cancel_wait_wp i p (Q : unit -> st -> Prop) :
  impls s !! i = Some p ->
  (forall s', rep nw ok S T L s' -> regs s' = regs s ->
     impls s' = <[i := set_waiting false (set_cancelled true p)]> (impls s) ->
     log s' = log s ++ (if waiting_ p then
                          [Resume (h (pending_op_ p)) (if ec_out (pending_op_ p) then Some canceled else None)
                             (if signal_out (pending_op_ p) then Some 0 else None); Work_finished (svc_ p)]
                        else []) -> Q tt s') ->
  wp (cancel_wait i) Q s.
Proof using R.
  intros Hp HQ. unfold cancel_wait, finish. do 4 sig_step. sig_step.
  - sig_step. eapply wp_upd_signal; [cbn; apply lookup_insert_eq|]. do 3 sig_step. apply HQ.
    + eapply rep_op; [exact Hp|cbn; by rewrite insert_insert_eq|..]; done.
    + done.
    + cbn. by rewrite insert_insert_eq.
    + cbn. by rewrite <- app_assoc.
  - sig_step. apply HQ; [|done| |by rewrite app_nil_r].
    + by eapply rep_op.
    + cbn. f_equal. unfold set_waiting, set_cancelled. cbn. by rewrite Heqb.
Qed.

Lemma invoke_wp i p (Q : unit -> st -> Prop) :
  impls s !! i = Some p ->
  (forall s', rep nw ok S T L s' -> regs s' = regs s ->
     impls s' = <[i := set_pending (set_op_svc None (pending_op_ p)) p]> (impls s) ->
     log s' = log s ++ Resume (h (pending_op_ p)) (if ec_out (pending_op_ p) then Some success else None)
                         (if signal_out (pending_op_ p) then Some (op_number (pending_op_ p)) else None)
                       :: (match op_svc (pending_op_ p) with Some v => [Work_finished v] | None => [] end) -> Q tt s') ->
  wp (invoke i) Q s.
Proof using R.
  intros Hp HQ. unfold invoke, finish. do 6 sig_step.
  destruct (op_svc (pending_op_ p)) as [v|] eqn:E; sig_step; apply HQ; try done.
  - by eapply rep_op.
  - cbn. by rewrite <- app_assoc.
  - by eapply rep_op.
Qed.
End waiting.

(** The three ways a wait starts. *)
Inductive waited (S : nat -> list nat) (i co : nat) (stopped ec sg : bool) (p : posix_signal) (s s' : st) : Prop :=
| W_canceled p' :
    stopped = true \/ cancelled_ p = true ->
    p' = set_cancelled (cancelled_ p && stopped)
           (set_pending (mk_op (Some co) ec sg 0 (op_svc (pending_op_ p))) p) ->
    impls s' = <[i := p']> (impls s) -> regs s' = regs s ->
    log s' = log s ++ [Resume (Some co) (if ec then Some canceled else None) (if sg then Some 0 else None)] ->
    waited S i co stopped ec sg p s s'
| W_queued l1 r l2 x :
    stopped = false -> cancelled_ p = false ->
    S i = l1 ++ r :: l2 -> (forall y, y ∈ l1 -> queued_at s y <= 0) ->
    regs s !! r = Some x -> 0 < undelivered x ->
    impls s' = <[i := set_pending (mk_op (Some co) ec sg (signal_number x) None) p]> (impls s) ->
    regs s' = <[r := set_undelivered (undelivered x - 1) x]> (regs s) ->
    log s' = log s ++ [Post i] ->
    waited S i co stopped ec sg p s s'
| W_waiting :
    stopped = false -> cancelled_ p = false -> (forall y, y ∈ S i -> queued_at s y <= 0) ->
    impls s' = <[i := set_waiting true (set_pending (mk_op (Some co) ec sg 0 (Some (svc_ p))) p)]> (impls s) ->
    regs s' = regs s -> log s' = log s ++ [Work_started (svc_ p)] ->
    waited S i co stopped ec sg p s s'.

Lemma wait_signal_wp nw ok S T L i co stopped ec sg p s :
  rep nw ok S T L s -> impls s !! i = Some p ->
  wp (wait i co stopped ec sg) (fun _ s' => rep nw ok S T L s' /\ waited S i co stopped ec sg p s s') s.
Proof.
  intros R Hp. unfold wait. do 4 sig_step. sig_step.
  { unfold finish. sig_step. split; [by eapply (rep_op _ _ _ _ _ _ R i p)|]. eapply W_canceled; [by left|done| |done|done].
    cbn. by rewrite andb_true_r. }
  unfold start_wait. sig_step. eapply wp_signal; [apply lookup_insert_eq|]. sig_step.
  { sig_step. eapply wp_upd_signal; [apply lookup_insert_eq|]. unfold finish. sig_step. cbn in Heqb0.
    split; [eapply (rep_op _ _ _ _ _ _ R i p); [done|cbn; by rewrite insert_insert_eq|..]; done|].
    eapply W_canceled; [by right|done| |done|done]. cbn. by rewrite insert_insert_eq, andb_false_r. }
  do 3 sig_step. cbn in Heqb0. destruct (r_set _ _ _ _ _ _ R i p Hp) as [Hs _].
  eapply (find_queued_wp (S i)); [exact Hs|pose proof (set_bound _ _ _ _ _ _ R i p Hp); cbn; lia| |].
  - intros l1 r l2 x Hl Hq Hx Hpos. sig_step. eapply wp_upd_reg; [exact Hx|]. sig_step.
    eapply wp_upd_signal; [apply lookup_insert_eq|]. sig_step.
    split; [|eapply W_queued; try done; cbn; by rewrite insert_insert_eq].
    eapply (rep_op _ _ _ _ _ _ R i p); [done|cbn; by rewrite insert_insert_eq|try done..].
    intros y. cbn. rewrite lookup_insert. case_decide as E; [|done]. subst. cbn in Hx. by rewrite Hx.
  - intros Hq. sig_step. eapply wp_upd_signal; [apply lookup_insert_eq|]. sig_step.
    split; [|eapply W_waiting; try done; cbn; by rewrite insert_insert_eq].
    eapply (rep_op _ _ _ _ _ _ R i p); [done|cbn; by rewrite insert_insert_eq|done..].
Qed.
