(* ===== verification/SignalSteps.v ===== *)
(** Programs that use signal sets: every interleaving of the operations of the
    service with the delivery of signals and the scheduler that runs the
    posted operations. *)

From stdpp Require Import gmap sorting functions.
From S2P Require Import Prelude StateMonad DoublyLinked Signals SignalInv SignalSpec SignalDeliver.
Import dll posix_signal_service.

(** * Histories *)

Definition posts (l : list effect) : list nat :=
  omap (fun e => match e with Post i => Some i | _ => None end) l.
Definition resumed (l : list effect) : list nat :=
  omap (fun e => match e with Resume co _ _ => co | _ => None end) l.
Definition work_started (l : list effect) : list nat :=
  omap (fun e => match e with Work_started v => Some v | _ => None end) l.
Definition work_finished (l : list effect) : list nat :=
  omap (fun e => match e with Work_finished v => Some v | _ => None end) l.

(** * Worlds *)

(** [w_queue] are the sets whose operation is in the queue of a scheduler, in
    the order of posting; [w_history] is everything the service did so far and
    [w_waits] the coroutines that started a wait. *)
Record world := mk_world {
  w_st : st;
  w_queue : list nat;
  w_history : list effect;
  w_waits : list nat
}.

(** Each operation starts with an empty log. *)
Definition set_log (l : list effect) (s : st) : st :=
  mk_st (state s) (services s) (impls s) (regs s) (table_links s) (service_links s)
    (dispositions s) l.

Definition advance (q : list nat) (co : list nat) (w : world) (s' : st) : world :=
  mk_world (set_log [] s') (q ++ posts (log s')) (w_history w ++ log s') (w_waits w ++ co).

Inductive op :=
| O_make_service (v : nat)
| O_shutdown (v : nat)
| O_delete_service (v : nat)
| O_construct (v i : nat)
| O_destroy (sigaction_ok : Z -> bool) (i : nat)
| O_add (fds : option (Z * Z)) (sigaction_ok : bool) (i r : nat) (n fl : Z)
| O_remove (sigaction_ok : bool) (i : nat) (n : Z)
| O_clear (sigaction_ok : Z -> bool) (i : nat)
| O_cancel (i : nat)
| O_wait (i co : nat) (stopped ec sg : bool)
| O_deliver (n : Z)
| O_invoke (i : nat).

Definition discard {A} (m : SM A) : SM unit := m ≫= fun _ => skip.

Definition run_op (nocldwait : bool) (o : op) : SM unit :=
  match o with
  | O_make_service v => make_service v
  | O_shutdown v => shutdown v
  | O_delete_service v => delete_service v
  | O_construct v i => construct v i
  | O_destroy ok i => destroy ok i
  | O_add fds ok i r n fl => discard (add_signal nocldwait fds ok i r n fl)
  | O_remove ok i n => discard (remove_signal ok i n)
  | O_clear ok i => discard (clear_signals ok i)
  | O_cancel i => cancel_wait i
  | O_wait i co stopped ec sg => wait i co stopped ec sg
  | O_deliver n => deliver_signal n
  | O_invoke i => invoke i
  end.

(** What the program and the scheduler respect: [new] returns a fresh address,
    an operation is called on a live set, one wait at a time is in progress on
    a set, and the scheduler runs its queue in order.  Two conditions are not
    documented, and the code is wrong without them: a set is not destroyed while its
    operation is in the queue ([queued_operation_outlives_set] of SignalClaims.v),
    and a service is shut down and destroyed after its sets
    ([shutdown_leaves_tables]). *)
Definition allowed (o : op) (w : world) : Prop :=
  let s := w_st w in
  match o with
  | O_make_service v => services s !! v = None
  | O_shutdown v | O_delete_service v => exists x, services s !! v = Some x /\ impl_list_ x = []
  | O_construct v i => is_Some (services s !! v) /\ impls s !! i = None
  | O_destroy _ i => is_Some (impls s !! i) /\ i ∉ w_queue w
  | O_add _ _ i r _ _ => is_Some (impls s !! i) /\ regs s !! r = None
  | O_remove _ i _ | O_clear _ i | O_cancel i => is_Some (impls s !! i)
  | O_wait i _ _ _ _ => (exists p, impls s !! i = Some p /\ waiting_ p = false) /\ i ∉ w_queue w
  | O_deliver _ => True
  | O_invoke i => head (w_queue w) = Some i
  end.

Definition queue_after (o : op) (w : world) : list nat :=
  match o with
  | O_invoke _ => tail (w_queue w)
  | _ => w_queue w
  end.

Definition waits_of (o : op) : list nat :=
  match o with
  | O_wait _ co _ _ _ => [co]
  | _ => []
  end.

Inductive sstep (nocldwait : bool) (w : world) : op -> world -> Prop :=
| SStep o s' :
    allowed o w -> run_op nocldwait o (w_st w) = Ok (tt, s') ->
    sstep nocldwait w o (advance (queue_after o w) (waits_of o) w s').

Inductive sreachable (nocldwait : bool) : world -> Prop :=
| SR_initial : sreachable nocldwait (mk_world initial [] [] [])
| SR_step w o w' : sreachable nocldwait w -> sstep nocldwait w o w' -> sreachable nocldwait w'.

(** * Waits in progress *)

Definition in_progress (M : gmap nat posix_signal) (q : list nat) (i : nat) : Prop :=
  exists p, M !! i = Some p /\ (waiting_ p = true \/ i ∈ q).

Definition waiter (M : gmap nat posix_signal) (i : nat) : option nat :=
  M !! i ≫= fun p => h (pending_op_ p).
Definition work_of (M : gmap nat posix_signal) (i : nat) : option nat :=
  M !! i ≫= fun p => op_svc (pending_op_ p).

(** [B] are the sets with a wait in progress: the coroutines that started a
    wait are those that were resumed and those of [B], and the work started is
    the work finished and that of [B]. *)
Record balance (B : list nat) (M : gmap nat posix_signal) (q : list nat) (hist : list effect) (ws : list nat) :
    Prop := {
  ba_nodup : NoDup B;
  ba_mem : forall i, i ∈ B <-> in_progress M q i;
  ba_waiter : forall i, i ∈ B -> is_Some (waiter M i);
  ba_waits : ws ≡ₚ resumed hist ++ omap (waiter M) B;
  ba_work : work_started hist ≡ₚ work_finished hist ++ omap (work_of M) B
}.

Lemma omap_ext_in {A B} (f g : A -> option B) (l : list A) :
  (forall x, x ∈ l -> f x = g x) -> omap f l = omap g l.
Proof.
  induction l as [|x l IH]; intros H; [done|]. cbn. rewrite H by set_solver.
  rewrite IH by (intros; apply H; set_solver). done.
Qed.

Lemma omap_opt {A B} (f : A -> option B) x (l : list A) : omap f (x :: l) = option_list (f x) ++ omap f l.
Proof. cbn. by destruct (f x). Qed.

(** A part of the history without waits or work. *)
Definition plain (l : list effect) : Prop :=
  resumed l = [] /\ work_started l = [] /\ work_finished l = [].

Lemma balance_frame B M M' q q' hist ws l :
  balance B M q hist ws -> plain l ->
  (forall i, i ∈ B -> waiter M' i = waiter M i /\ work_of M' i = work_of M i) ->
  (forall i, in_progress M' q' i <-> in_progress M q i) ->
  balance B M' q' (hist ++ l) ws.
Proof.
  intros [B1 B2 B0 B3 B4] (P1 & P2 & P3) Hv Hp. unfold resumed, work_started, work_finished in *.
  constructor; [done| | | |].
  - intros i. by rewrite Hp.
  - intros i Hi. rewrite (proj1 (Hv i Hi)). by apply B0.
  - unfold resumed. rewrite omap_app, P1, app_nil_r.
    by rewrite (omap_ext_in (waiter M') (waiter M)) by (intros i Hi; apply Hv, Hi).
  - unfold work_started, work_finished. rewrite !omap_app, P2, P3, !app_nil_r.
    by rewrite (omap_ext_in (work_of M') (work_of M)) by (intros i Hi; apply Hv, Hi).
Qed.

(** A wait that starts and is not completed at once. *)
Lemma balance_start B M M' q q' hist ws l i co :
  balance B M q hist ws -> i ∉ B -> (forall j, j <> i -> M' !! j = M !! j) ->
  (forall j, in_progress M' q' j <-> j = i \/ in_progress M q j) ->
  resumed l = [] -> work_finished l = [] -> waiter M' i = Some co ->
  work_started l = option_list (work_of M' i) ->
  balance (i :: B) M' q' (hist ++ l) (ws ++ [co]).
Proof.
  intros [B1 B2 B0 B3 B4] Hi HM Hp P1 P2 Hco Hw. unfold resumed, work_started, work_finished in *.
  assert (Hne : forall j, j ∈ B -> M' !! j = M !! j) by (intros j Hj; apply HM; by intros ->).
  constructor.
  - by apply list.NoDup_cons.
  - intros j. rewrite elem_of_cons, Hp, B2. done.
  - intros j [->|Hj]%elem_of_cons; [by eexists|]. unfold waiter. rewrite Hne by done. by apply B0.
  - unfold resumed. rewrite omap_app, P1, app_nil_r, omap_opt, Hco. cbn.
    rewrite (omap_ext_in (waiter M') (waiter M)) by (intros j Hj; unfold waiter; by rewrite Hne).
    rewrite B3. by rewrite <- Permutation_cons_append, Permutation_middle.
  - unfold work_started, work_finished. rewrite !omap_app, P2, app_nil_r, omap_opt, Hw.
    rewrite (omap_ext_in (work_of M') (work_of M)) by (intros j Hj; unfold work_of; by rewrite Hne).
    rewrite B4. rewrite <- app_assoc. apply Permutation_app_head, Permutation_app_comm.
Qed.

(** A wait in progress that completes. *)
Lemma balance_finish B M M' q q' hist ws l i :
  balance B M q hist ws -> i ∈ B -> (forall j, j <> i -> M' !! j = M !! j) ->
  (forall j, in_progress M' q' j <-> j <> i /\ in_progress M q j) ->
  resumed l = option_list (waiter M i) -> work_started l = [] ->
  work_finished l = option_list (work_of M i) ->
  exists B', balance B' M' q' (hist ++ l) ws.
Proof.
  intros [B1 B2 B0 B3 B4] Hi HM Hp P1 P2 P3. unfold resumed, work_started, work_finished in *.
  apply elem_of_Permutation in Hi as (B' & HB). rewrite HB in B1, B3, B4.
  apply list.NoDup_cons in B1 as [Hi B1].
  assert (Hne : forall j, j ∈ B' -> M' !! j = M !! j) by (intros j Hj; apply HM; by intros ->).
  exists B'. constructor; [done| | | |].
  - intros j. rewrite Hp, <- B2, HB, elem_of_cons. split; [|tauto]. intros Hj. split; [by intros ->|by right].
  - intros j Hj. unfold waiter. rewrite Hne by done. apply B0. rewrite HB. by right.
  - unfold resumed. rewrite omap_app, P1.
    rewrite (omap_ext_in (waiter M') (waiter M)) by (intros j Hj; unfold waiter; by rewrite Hne).
    by rewrite B3, omap_opt, app_assoc.
  - unfold work_started, work_finished. rewrite !omap_app, P2, P3, app_nil_r.
    rewrite (omap_ext_in (work_of M') (work_of M)) by (intros j Hj; unfold work_of; by rewrite Hne).
    by rewrite B4, omap_opt, app_assoc.
Qed.

(** * The invariant *)

Record sinv (nw : bool) (s : st) (q : list nat) (hist : list effect) (ws : list nat) : Prop := {
  si_registry : registry nw s;
  si_queue : NoDup q;
  si_queued : forall i, i ∈ q -> exists p, impls s !! i = Some p /\ waiting_ p = false;
  si_waiting : forall i p, impls s !! i = Some p -> waiting_ p = true ->
    op_svc (pending_op_ p) = Some (svc_ p);
  si_balance : exists B, balance B (impls s) q hist ws
}.

(** An operation that starts the waits [co] while the queue is [q]. *)
Definition keeps (nw : bool) (q : list nat) (hist : list effect) (ws : list nat) (s s' : st) : Prop :=
  exists l, log s' = log s ++ l /\ sinv nw s' (q ++ posts l) (hist ++ l) ws.

Lemma rep_set_log nw ok S T L s l : rep nw ok S T L s -> rep nw ok S T L (set_log l s).
Proof. by apply rep_frame. Qed.

Lemma signals_set_log nw s q hist ws l : sinv nw s q hist ws -> sinv nw (set_log l s) q hist ws.
Proof.
  intros [(S & T & L & R) I2 I3 I4 I5]. constructor; try done. exists S, T, L. by apply rep_set_log.
Qed.

Lemma sinv_initial nw : sinv nw initial [] [] [].
Proof.
  constructor; cbn; try done.
  - do 3 eexists. apply rep_initial.
  - constructor.
  - intros i ?%not_elem_of_nil. done.
  - exists []. constructor; try done; [constructor|..].
    + intros i. split; [by intros ?%not_elem_of_nil|]. by intros (p & Hp & _).
    + intros i ?%not_elem_of_nil. done.
Qed.

(** An operation that leaves the waits alone. *)
Lemma sinv_quiet nw s s' q hist ws l :
  sinv nw s q hist ws -> registry nw s' -> plain l ->
  (forall i, wait_view <$> impls s' !! i = wait_view <$> impls s !! i) ->
  sinv nw s' q (hist ++ l) ws.
Proof.
  intros I (S & T & L & R) Hpl Hv. pose proof (fun i => eq_sym (Hv i)) as Hv'.
  destruct I as [_ I2 I3 I4 (B & HB)]. constructor; try done.
  - exists S, T, L. done.
  - intros i Hi. destruct (I3 i Hi) as (p & Hp & Hw).
    destruct (view_lookup _ _ _ _ _ Hv Hp) as (p' & Hp' & [= E1 E2 E3 E4]). exists p'. by rewrite E3.
  - intros i p' Hp' Hw. destruct (view_lookup _ _ _ _ _ Hv' Hp') as (p & Hp & [= E1 E2 E3 E4]).
    rewrite <- E2, <- E1. apply (I4 i); congruence.
  - exists B. eapply balance_frame; [exact HB|done| |].
    + intros i _. specialize (Hv i). unfold waiter, work_of.
      destruct (impls s' !! i), (impls s !! i); try done. injection Hv as _ E _ _. cbn. by rewrite E.
    + intros i. unfold in_progress. split; intros (p & Hp & Hw).
      * destruct (view_lookup _ _ _ _ _ Hv' Hp) as (p' & Hp' & [= E1 E2 E3 E4]). exists p'. by rewrite E3.
      * destruct (view_lookup _ _ _ _ _ Hv Hp) as (p' & Hp' & [= E1 E2 E3 E4]). exists p'. by rewrite E3.
Qed.

Lemma keeps_quiet nw s s' q hist ws l :
  sinv nw s q hist ws -> registry nw s' -> log s' = log s ++ l -> plain l -> posts l = [] ->
  (forall i, wait_view <$> impls s' !! i = wait_view <$> impls s !! i) ->
  keeps nw q hist ws s s'.
Proof.
  intros I HR El Hp Hpo Hv. exists l. split; [done|]. rewrite Hpo, app_nil_r. by eapply sinv_quiet.
Qed.

Lemma silent_log s s' :
  silent s s' -> exists l, log s' = log s ++ l /\ plain l /\ posts l = [].
Proof.
  intros (s1 & (_ & _ & _ & _ & l & El & Hl) & [Eq _ _]). exists l. split; [by rewrite Eq, El|]. clear -Hl.
  induction l as [|e l IH]; [done|]. destruct (Hl e) as (v & fd & ->); [set_solver|].
  destruct IH as [(H1 & H2 & H3) H4]; [intros; apply Hl; set_solver|]. done.
Qed.

(** The set [i] becomes [p']. *)
Lemma in_progress_put (M : gmap nat posix_signal) i p' q q' j :
  (forall j, j <> i -> j ∈ q' <-> j ∈ q) -> j <> i -> in_progress (<[i := p']> M) q' j <-> in_progress M q j.
Proof.
  intros Hq Hj. unfold in_progress. rewrite lookup_insert_ne by done. by setoid_rewrite (Hq j Hj).
Qed.

(** * A delivery, seen from the waits *)

Section delivery.
Context (nw : bool) (ok : Z -> Prop) (S : nat -> list nat) (T : nat -> Z -> list nat) (L : list nat).
Context (n : Z) (s s' : st) (R : rep nw ok S T L s) (D : delivered n (subscribers T L n) s s').

(** The sets that were waiting for the signal. *)
Definition hits : list nat := filter (fun i => waiting s i) (map (owner_of s) (subscribers T L n)).

Lemma hits_nodup : NoDup hits.
Proof using R. apply list.NoDup_filter. by eapply owners_nodup; [|apply R]. Qed.

Lemma hits_spec i : i ∈ hits <-> waiting s i = true /\ i ∈ map (owner_of s) (subscribers T L n).
Proof. unfold hits. rewrite list_elem_of_filter. split; (intros [H ?]; split; [|done]; by destruct (waiting s i)). Qed.

Lemma hits_waiting i : i ∈ hits -> exists p, impls s !! i = Some p /\ waiting_ p = true.
Proof.
  intros [Hw _]%hits_spec. unfold waiting in Hw. destruct (impls s !! i) as [p|]; [|done]. by exists p.
Qed.

Lemma hits_posts : posts (map Post hits) = hits /\ plain (map Post hits).
Proof.
  clear. induction hits as [|i l IH]; [done|]. destruct IH as (H1 & H2 & H3 & H4). split; [cbn; by f_equal|done].
Qed.

Lemma delivered_view i p' : impls s' !! i = Some p' ->
  exists p, impls s !! i = Some p /\ svc_ p' = svc_ p /\ h (pending_op_ p') = h (pending_op_ p) /\
    op_svc (pending_op_ p') = op_svc (pending_op_ p) /\ waiting_ p' = waiting_ p && bool_decide (i ∉ hits).
Proof using D.
  rewrite (dl_impls _ _ _ _ D). destruct (impls s !! i) as [p|] eqn:Hp; [|done].
  intros [= <-]. exists p. split; [done|].
  assert (Ew : waiting s i = waiting_ p) by (unfold waiting; by rewrite Hp).
  unfold hit. case_decide as Ho; cbn.
  - destruct (waiting_ p) eqn:Hw; cbn; rewrite ?bool_decide_eq_false_2; rewrite ?Hw; try done.
    intros Hni. by apply Hni, hits_spec.
  - rewrite bool_decide_eq_true_2; [by rewrite andb_true_r|]. rewrite hits_spec. tauto.
Qed.

Lemma delivered_back i p : impls s !! i = Some p -> exists p', impls s' !! i = Some p' /\
  waiting_ p' = waiting_ p && bool_decide (i ∉ hits).
Proof using D.
  intros Hp. assert (is_Some (impls s' !! i)) as [p' Hp'] by (rewrite (dl_impls _ _ _ _ D), Hp; by eexists).
  exists p'. split; [done|]. destruct (delivered_view i p' Hp') as (p2 & Hp2 & _ & _ & _ & ->). congruence.
Qed.

Lemma delivered_ops i : waiter (impls s') i = waiter (impls s) i /\ work_of (impls s') i = work_of (impls s) i.
Proof using D.
  unfold waiter, work_of. destruct (impls s' !! i) as [p'|] eqn:Hp'.
  - destruct (delivered_view i p' Hp') as (p & Hp & _ & E1 & E2 & _). rewrite Hp. done.
  - destruct (impls s !! i) as [p|] eqn:Hp; [|done]. destruct (delivered_back i p Hp) as (? & ? & _). congruence.
Qed.

(** The wait of a set that was hit goes on as a queued operation. *)
Lemma delivered_in_progress q i :
  in_progress (impls s') (q ++ hits) i <-> in_progress (impls s) q i.
Proof using All.
  unfold in_progress. split.
  - intros (p' & Hp' & Hw). destruct (delivered_view i p' Hp') as (p & Hp & _ & _ & _ & E). exists p. split; [done|].
    rewrite E in Hw. destruct Hw as [[Hw _]%andb_true_iff|[Hq|Hq]%elem_of_app]; [by left|by right|].
    left. apply hits_waiting in Hq as (p2 & Hp2 & Hw). congruence.
  - intros (p & Hp & Hw). destruct (delivered_back i p Hp) as (p' & Hp' & E). exists p'. split; [done|]. rewrite E.
    destruct (decide (i ∈ hits)) as [Hh|Hh]; [right; set_solver|].
    rewrite bool_decide_eq_true_2, andb_true_r by done. set_solver.
Qed.
End delivery.

Section preservation.
Context (nw : bool) (s : st) (q : list nat) (hist : list effect) (ws : list nat).
Context (I : sinv nw s q hist ws).

(** The queue [q'] and the set [i] changed, and nothing else. *)
Lemma sinv_put i p' s' q' hist' ws' :
  registry nw s' -> impls s' = <[i := p']> (impls s) -> NoDup q' ->
  (forall j, j <> i -> j ∈ q' -> j ∈ q) -> (i ∈ q' -> waiting_ p' = false) ->
  (waiting_ p' = true -> op_svc (pending_op_ p') = Some (svc_ p')) ->
  (exists B, balance B (impls s') q' hist' ws') ->
  sinv nw s' q' hist' ws'.
Proof using I.
  intros HR E Hd Hq Hiq Hw HB. constructor; try done; rewrite E.
  - intros j Hj. destruct (decide (j = i)) as [->|Hne].
    + exists p'. rewrite lookup_insert_eq. auto.
    + rewrite lookup_insert_ne by done. apply (si_queued _ _ _ _ _ I). auto.
  - intros j p [[<- <-]|[_ Hp]]%lookup_insert_Some; [done|by apply (si_waiting _ _ _ _ _ I j)].
Qed.

Lemma keep_make_service v :
  services s !! v = None -> wp (make_service v) (fun _ => keeps nw q hist ws s) s.
Proof using I.
  intros Hv. destruct (si_registry _ _ _ _ _ I) as (S & T & L & R). eapply make_service_wp; [done..|].
  intros s' R' E1 E2 E3. eapply (keeps_quiet _ _ _ _ _ _ []); try done; [by do 3 eexists|by rewrite app_nil_r|].
  by rewrite E3.
Qed.

Lemma keep_delete_service v x :
  services s !! v = Some x -> impl_list_ x = [] -> wp (delete_service v) (fun _ => keeps nw q hist ws s) s.
Proof using I.
  intros Hv Hx. destruct (si_registry _ _ _ _ _ I) as (S & T & L & R). eapply delete_service_wp; [done..|].
  intros s' L' R' E1 E2 E3. eapply (keeps_quiet _ _ _ _ _ _ []); try done; [by do 3 eexists|by rewrite app_nil_r|].
  by rewrite E3.
Qed.

Lemma keep_add fds ok i r n fl :
  is_Some (impls s !! i) -> regs s !! r = None ->
  wp (add_signal nw fds ok i r n fl) (fun _ => keeps nw q hist ws s) s.
Proof using I.
  intros [p Hp] Hr. destruct (si_registry _ _ _ _ _ I) as (S & T & L & R). eapply add_signal_wp; [done..|].
  intros e s' S' T' R' Hs _ _ _ _. destruct (silent_log _ _ Hs) as (l & El & Hpl & Hpo).
  destruct Hs as (s1 & (E1 & _) & [_ Hv _]). rewrite E1 in Hv.
  eapply (keeps_quiet _ _ _ _ _ _ l); try done. by do 3 eexists.
Qed.

Lemma keep_remove ok i n :
  is_Some (impls s !! i) -> wp (remove_signal ok i n) (fun _ => keeps nw q hist ws s) s.
Proof using I.
  intros [p Hp]. destruct (si_registry _ _ _ _ _ I) as (S & T & L & R). eapply remove_signal_wp; [done..|].
  intros e s' S' T' R' [Hq1 Hq2 _] _ _.
  eapply (keeps_quiet _ _ _ _ _ _ []); try done; [by do 3 eexists|by rewrite app_nil_r].
Qed.

Lemma keep_clear ok i :
  is_Some (impls s !! i) -> wp (clear_signals ok i) (fun _ => keeps nw q hist ws s) s.
Proof using I.
  intros [p Hp]. destruct (si_registry _ _ _ _ _ I) as (S & T & L & R). eapply clear_signals_wp; [done..|].
  intros e s' S' T' R' [Hq1 Hq2 _] _.
  eapply (keeps_quiet _ _ _ _ _ _ []); try done; [by do 3 eexists|by rewrite app_nil_r].
Qed.

Lemma keep_construct v i :
  is_Some (services s !! v) -> impls s !! i = None -> wp (construct v i) (fun _ => keeps nw q hist ws s) s.
Proof using I.
  intros Hv Hi. destruct (si_registry _ _ _ _ _ I) as (S & T & L & R).
  destruct (si_balance _ _ _ _ _ I) as (B & HB).
  assert (Hiq : i ∉ q) by (intros (p & Hp & _)%(si_queued _ _ _ _ _ I); congruence).
  eapply construct_set_wp; [done..|]. intros s' R' E1 E2 E3. exists []. rewrite E1, !app_nil_r. split; [done|].
  eapply sinv_put; [by do 3 eexists|done|apply I|done|done|done|]. exists B. rewrite <- (app_nil_r hist), E3.
  eapply balance_frame; [exact HB|done| |].
  - intros j Hj. apply (ba_mem _ _ _ _ _ HB) in Hj as (p & Hp & _). unfold waiter, work_of.
    rewrite lookup_insert_ne; [done|]. intros <-. congruence.
  - intros j. destruct (decide (j = i)) as [->|Hj]; [|by apply in_progress_put].
    unfold in_progress. rewrite lookup_insert_eq, Hi. split; [|by intros (p & ? & _)].
    by intros (p & [= <-] & [?|Hq]).
Qed.

Lemma keep_deliver n : wp (deliver_signal n) (fun _ => keeps nw q hist ws s) s.
Proof using I.
  destruct (decide (sig n)) as [Hn|Hn].
  2: { unfold deliver_signal. assert ((n <? 0) || (max_signal_number <=? n) = true) as ->.
       - unfold sig in Hn. apply orb_true_iff. rewrite Z.ltb_lt, Z.leb_le. lia.
       - sig_step. eapply (keeps_quiet _ _ _ _ _ _ []); try done; [apply I|by rewrite app_nil_r]. }
  destruct I as [(S & T & L & R) I2 I3 I4 (B & HB)].
  eapply wp_mono; [by eapply deliver_signal_wp|]. intros [] s' D. cbn beta.
  destruct (hits_posts T L n s) as [Epo Epl].
  pose proof (delivered_view _ _ _ _ _ D) as Hview. pose proof (delivered_back _ _ _ _ _ D) as Hback.
  exists (map Post (hits T L n s)). split; [apply D|]. rewrite Epo. set (hs := hits T L n s) in *. constructor.
  - exists S, T, L. by eapply rep_delivered.
  - apply list.NoDup_app. split; [done|]. split; [|by eapply hits_nodup].
    intros i Hq (p & Hp & Hw)%hits_waiting. destruct (I3 i Hq) as (p2 & Hp2 & Hw2). congruence.
  - intros i [Hi|Hi]%elem_of_app.
    + destruct (I3 i Hi) as (p & Hp & Hw). destruct (Hback i p Hp) as (p' & Hp' & E). exists p'. by rewrite E, Hw.
    + destruct (hits_waiting _ _ _ _ _ Hi) as (p & Hp & _). destruct (Hback i p Hp) as (p' & Hp' & E). exists p'.
      split; [done|]. by rewrite E, bool_decide_eq_false_2, andb_false_r by tauto.
  - intros i p' Hp' Hw. destruct (Hview i p' Hp') as (p & Hp & -> & _ & -> & E). apply (I4 i p Hp).
    rewrite E in Hw. by apply andb_true_iff in Hw as [? _].
  - exists B. eapply balance_frame; [exact HB|done| |].
    + intros i _. by eapply delivered_ops.
    + intros i. by eapply delivered_in_progress.
Qed.
(** A set with a wait in progress, without it. *)
Lemma keep_finish i p p' s' q' l :
  impls s !! i = Some p -> in_progress (impls s) q i ->
  registry nw s' -> impls s' = <[i := p']> (impls s) -> log s' = log s ++ l -> posts l = [] ->
  NoDup q' -> i ∉ q' -> (forall j, j <> i -> j ∈ q' <-> j ∈ q) -> waiting_ p' = false ->
  resumed l = option_list (h (pending_op_ p)) -> work_started l = [] ->
  work_finished l = option_list (op_svc (pending_op_ p)) ->
  keeps nw q' hist ws s s'.
Proof using I.
  intros Hp Hin HR E El Hpo Hd Hiq Hq Hw L1 L2 L3. exists l. split; [done|]. rewrite Hpo, app_nil_r.
  destruct (si_balance _ _ _ _ _ I) as (B & HB).
  eapply sinv_put; [done|done|done|intros j Hj; by apply Hq|done|by rewrite Hw|].
  apply (ba_mem _ _ _ _ _ HB) in Hin as Hi. rewrite E.
  apply (balance_finish B (impls s) _ q _ _ _ _ i HB Hi).
  - intros j Hj. by rewrite lookup_insert_ne.
  - intros j. destruct (decide (j = i)) as [->|Hj].
    + unfold in_progress. rewrite lookup_insert_eq. split; [|tauto]. intros (y & [= <-] & [?|?]); [congruence|done].
    + rewrite in_progress_put by done. tauto.
  - unfold waiter. by rewrite Hp.
  - done.
  - unfold work_of. by rewrite Hp.
Qed.

Lemma keep_cancel i :
  is_Some (impls s !! i) -> wp (cancel_wait i) (fun _ => keeps nw q hist ws s) s.
Proof using I.
  intros [p Hp]. destruct (si_registry _ _ _ _ _ I) as (S & T & L & R).
  eapply cancel_wait_wp; [done..|]. intros s' R' E1 E2 E3. destruct (waiting_ p) eqn:Hw.
  - assert (Hiq : i ∉ q) by (intros (p2 & Hp2 & Hw2)%(si_queued _ _ _ _ _ I); congruence).
    eapply keep_finish; [exact Hp|exists p; auto|by do 3 eexists|exact E2|exact E3|done|apply I|done|done|done|..].
    + cbn. by destruct (h (pending_op_ p)).
    + done.
    + cbn. by rewrite (si_waiting _ _ _ _ _ I i p Hp Hw).
  - rewrite app_nil_r in E3. exists []. rewrite !app_nil_r. split; [done|].
    destruct (si_balance _ _ _ _ _ I) as (B & HB).
    eapply sinv_put; [by do 3 eexists|done|apply I|done|done|done|]. exists B.
    rewrite E2, <- (app_nil_r hist). eapply balance_frame; [exact HB|done| |].
    + intros j _. unfold waiter, work_of. rewrite lookup_insert. case_decide; subst; [|done]. by rewrite Hp.
    + intros j. destruct (decide (j = i)) as [->|Hj]; [|by apply in_progress_put].
      unfold in_progress. rewrite lookup_insert_eq, Hp. split.
      * intros (y & [= <-] & [H|H]); [done|eauto].
      * intros (y & [= <-] & [H|H]); [congruence|eauto].
Qed.

Lemma keep_invoke i q' :
  q = i :: q' -> wp (invoke i) (fun _ => keeps nw q' hist ws s) s.
Proof using I.
  intros Eq. destruct (si_registry _ _ _ _ _ I) as (S & T & L & R).
  destruct (si_queued _ _ _ _ _ I i) as (p & Hp & Hw); [rewrite Eq; set_solver|].
  pose proof (si_queue _ _ _ _ _ I) as Hd. rewrite Eq in Hd. apply list.NoDup_cons in Hd as [Hi Hd].
  eapply invoke_wp; [done..|]. intros s' R' E1 E2 E3.
  eapply keep_finish; [exact Hp| |by do 3 eexists|exact E2|exact E3|..]; try done.
  - exists p. split; [done|]. right. rewrite Eq. set_solver.
  - by destruct (op_svc (pending_op_ p)).
  - rewrite Eq. set_solver.
  - cbn. by destruct (h (pending_op_ p)), (op_svc (pending_op_ p)).
  - by destruct (op_svc (pending_op_ p)).
  - by destruct (op_svc (pending_op_ p)).
Qed.

(** A set without a wait in progress, with one. *)
Lemma keep_wait_start i p' co s' l :
  ~ in_progress (impls s) q i -> i ∉ q ->
  registry nw s' -> impls s' = <[i := p']> (impls s) -> log s' = log s ++ l ->
  resumed l = [] -> work_finished l = [] -> h (pending_op_ p') = Some co ->
  work_started l = option_list (op_svc (pending_op_ p')) ->
  posts l = [i] /\ waiting_ p' = false \/
  posts l = [] /\ waiting_ p' = true /\ op_svc (pending_op_ p') = Some (svc_ p') ->
  keeps nw q hist (ws ++ [co]) s s'.
Proof using I.
  intros Hout Hiq HR E El L1 L2 Hco L3 Hor. exists l. split; [done|].
  destruct (si_balance _ _ _ _ _ I) as (B & HB).
  assert (HiB : i ∉ B) by (by rewrite (ba_mem _ _ _ _ _ HB)).
  assert (Hpo : posts l = [i] \/ posts l = []) by tauto.
  eapply sinv_put; [done|done| | | | |].
  - destruct Hpo as [->| ->]; [|rewrite app_nil_r; apply I].
    apply list.NoDup_app. split; [apply I|]. split; [set_solver|]. apply NoDup_singleton.
  - destruct Hpo as [->| ->]; set_solver.
  - destruct Hor as [[_ ?]|[-> _]]; [done|]. by rewrite app_nil_r.
  - destruct Hor as [[_ H]|(_ & _ & H)]; [congruence|done].
  - exists (i :: B). rewrite E. eapply balance_start; [exact HB|done| | |done|done| |].
    + intros j Hj. by rewrite lookup_insert_ne.
    + intros j. destruct (decide (j = i)) as [->|Hj].
      * split; [by left|]. intros _. exists p'. rewrite lookup_insert_eq. split; [done|].
        destruct Hor as [[-> _]|(_ & ? & _)]; [right; set_solver|by left].
      * rewrite (in_progress_put _ _ _ q) by (done || destruct Hpo as [->| ->]; set_solver). tauto.
    + unfold waiter. by rewrite lookup_insert_eq.
    + unfold work_of. by rewrite lookup_insert_eq.
Qed.

Lemma keep_wait i co stopped ec sg :
  (exists p, impls s !! i = Some p /\ waiting_ p = false) -> i ∉ q ->
  wp (wait i co stopped ec sg) (fun _ => keeps nw q hist (ws ++ [co]) s) s.
Proof using I.
  intros (p & Hp & Hw) Hiq. destruct (si_registry _ _ _ _ _ I) as (S & T & L & R).
  destruct (si_balance _ _ _ _ _ I) as (B & HB).
  assert (Hout : ~ in_progress (impls s) q i) by (intros (p2 & Hp2 & [?|?]); congruence).
  assert (HiB : i ∉ B) by (by rewrite (ba_mem _ _ _ _ _ HB)).
  eapply wp_mono; [by eapply wait_signal_wp|]. intros [] s' [R' W].
  assert (HR : registry nw s') by (by do 3 eexists).
  destruct W as [p' Hc -> E1 E2 E3|l1 r l2 x _ _ _ _ _ _ E1 E2 E3|_ _ _ E1 E2 E3].
  - exists [Resume (Some co) (if ec then Some canceled else None) (if sg then Some 0 else None)].
    split; [done|]. cbn [posts omap list_omap]. rewrite app_nil_r.
    eapply sinv_put; [done|done|apply I|done|done|cbn; congruence|]. exists B. rewrite E1.
    assert (HB' : balance B (<[i := set_cancelled (cancelled_ p && stopped) (set_pending
        (mk_op (Some co) ec sg 0 (op_svc (pending_op_ p))) p)]> (impls s)) q (hist ++ []) ws).
    { eapply balance_frame; [exact HB|done| |].
      - intros j Hj. unfold waiter, work_of. rewrite lookup_insert_ne; [done|]. by intros ->.
      - intros j. destruct (decide (j = i)) as [->|Hj]; [|by apply in_progress_put].
        split; [|done]. intros (y & Hy & [?|?]); [|done]. rewrite lookup_insert_eq in Hy.
        injection Hy as <-. cbn in *. congruence. }
    rewrite app_nil_r in HB'. destruct HB' as [H1 H2 H3 H4 H5]. constructor; try done.
    + unfold resumed in *. rewrite omap_app. cbn. rewrite H4, <- !app_assoc.
      apply Permutation_app_head, Permutation_app_comm.
    + unfold work_started, work_finished in *. rewrite !omap_app. cbn. by rewrite !app_nil_r.
  - eapply keep_wait_start; [done|done|done|exact E1|exact E3|done|done|done|done|]. by left.
  - eapply keep_wait_start; [done|done|done|exact E1|exact E3|done|done|done|done|]. by right.
Qed.

(** A set without a wait goes. *)
Lemma sinv_delete i p s' :
  impls s !! i = Some p -> waiting_ p = false -> i ∉ q -> registry nw s' ->
  impls s' = delete i (impls s) -> sinv nw s' q hist ws.
Proof using I.
  intros Hp Hw Hiq HR E. destruct I as [_ I2 I3 I4 (B & HB)].
  assert (Hne : forall j, j ∈ B -> i <> j).
  { intros j Hj <-. apply (ba_mem _ _ _ _ _ HB) in Hj as (p2 & Hp2 & [?|?]); congruence. }
  constructor; try done; rewrite E.
  - intros j Hj. rewrite lookup_delete_ne by (by intros ->). auto.
  - intros j y [_ Hy]%lookup_delete_Some. by apply (I4 j).
  - exists B. rewrite <- (app_nil_r hist). eapply balance_frame; [exact HB|done| |].
    + intros j Hj. unfold waiter, work_of. by rewrite lookup_delete_ne by (by apply Hne).
    + intros j. unfold in_progress. split.
      * intros (y & [_ Hy]%lookup_delete_Some & H). by exists y.
      * intros (y & Hy & H). exists y. rewrite lookup_delete_ne; [done|]. intros <-.
        assert (y = p) as -> by congruence. destruct H; congruence.
Qed.
End preservation.

(** [destroy] clears the set, completes its wait and deletes it. *)
Lemma keep_destroy nw s q hist ws ok i :
  sinv nw s q hist ws -> is_Some (impls s !! i) -> i ∉ q ->
  wp (destroy ok i) (fun _ => keeps nw q hist ws s) s.
Proof.
  intros I [p Hp] Hiq. destruct (si_registry _ _ _ _ _ I) as (S & T & L & R). unfold destroy.
  do 3 sig_step. eapply clear_signals_wp; [done..|]. intros e s1 S1 T1 R1 [Q1 Q2 _] [_ Hrm].
  assert (I1 : sinv nw s1 q hist ws).
  { rewrite <- (app_nil_r hist). eapply sinv_quiet; [exact I|by do 3 eexists|done|done]. }
  destruct (view_lookup _ _ _ _ _ Q2 Hp) as (p1 & Hp1 & [= Ev _ _ _]).
  assert (HS1 : S1 i = []).
  { destruct (S1 i) as [|r l] eqn:E; [done|]. destruct (Hrm r) as [H _]. destruct H as [_ H]; [set_solver|].
    by destruct H. }
  sig_step. eapply wp_mono.
  { apply wp_and; [apply (keep_cancel nw s1 q hist ws I1 i); by exists p1|].
    eapply (cancel_wait_wp nw _ S1 T1 L s1 R1 i p1
              (fun _ s' => rep nw (fun _ => True) S1 T1 L s' /\
                 impls s' !! i = Some (set_waiting false (set_cancelled true p1)) /\
                 exists l, log s' = log s1 ++ l /\ posts l = [])); [done|].
    intros s' R' _ E El. split; [done|]. split; [rewrite E; apply lookup_insert_eq|].
    eexists. split; [exact El|]. by destruct (waiting_ p1). }
  intros [] s2 [(l & El & I2) (R2 & Hp2 & l' & El' & Hpo)]. rewrite <- Ev.
  assert (l' = l) as -> by (eapply app_inv_head; by rewrite <- El, <- El').
  eapply (destroy_set_wp nw _ S1 T1 L i (set_waiting false (set_cancelled true p1))); [done..|].
  intros s3 R3 E1 E2 E3. exists l. split; [congruence|].
  eapply (sinv_delete nw s2); [exact I2|exact Hp2|done|by rewrite Hpo, app_nil_r|by do 3 eexists|done].
Qed.

(** [shutdown] of a service whose sets are gone has nothing to do. *)
Lemma keep_shutdown nw s q hist ws v x :
  sinv nw s q hist ws -> services s !! v = Some x -> impl_list_ x = [] ->
  wp (shutdown v) (fun _ => keeps nw q hist ws s) s.
Proof.
  intros I Hx Hl. unfold shutdown. do 2 sig_step. rewrite Hl. cbn [length shutdown_loop].
  do 2 sig_step. rewrite Hl. sig_step.
  exists []. by rewrite !app_nil_r.
Qed.

(** * Every step *)

Definition winv (nw : bool) (w : world) : Prop :=
  log (w_st w) = [] /\ sinv nw (w_st w) (w_queue w) (w_history w) (w_waits w).

Lemma signals_advance nw w q co s' :
  winv nw w -> keeps nw q (w_history w) (w_waits w ++ co) (w_st w) s' -> winv nw (advance q co w s').
Proof.
  intros [El _] (l & Es & I). rewrite El in Es. cbn in Es. split; [done|].
  unfold advance. cbn. rewrite Es. by apply signals_set_log.
Qed.

Lemma signals_step_ok nw w o :
  winv nw w -> allowed o w ->
  wp (run_op nw o) (fun _ s' => winv nw (advance (queue_after o w) (waits_of o) w s')) (w_st w).
Proof.
  intros W Ha. pose proof (proj2 W) as I.
  apply (wp_mono _ (fun _ => keeps nw (queue_after o w) (w_history w) (w_waits w ++ waits_of o) (w_st w)));
    [|intros [] s' Hk; by apply signals_advance].
  destruct o; cbn [run_op allowed queue_after waits_of] in *; rewrite ?app_nil_r; unfold discard.
  - by apply keep_make_service.
  - destruct Ha as (x & Hx & Hl). by eapply keep_shutdown.
  - destruct Ha as (x & Hx & Hl). by eapply keep_delete_service.
  - destruct Ha. by apply keep_construct.
  - destruct Ha. by apply keep_destroy.
  - destruct Ha. sig_step. eapply wp_mono; [by apply keep_add|]. intros e s' Hk. by sig_step.
  - sig_step. eapply wp_mono; [by apply keep_remove|]. intros e s' Hk. by sig_step.
  - sig_step. eapply wp_mono; [by apply keep_clear|]. intros e s' Hk. by sig_step.
  - by apply keep_cancel.
  - destruct Ha. by apply keep_wait.
  - apply keep_deliver. exact I.
  - destruct (w_queue w) as [|j q'] eqn:Eq; [done|]. injection Ha as ->. cbn [tail].
    eapply keep_invoke; [exact I|done].
Qed.

Lemma sreachable_inv nw w : sreachable nw w -> winv nw w.
Proof.
  induction 1 as [|w o w' _ IH Hs]; [split; [done|apply sinv_initial]|].
  destruct Hs as [o s' Ha Hrun]. pose proof (signals_step_ok nw w o IH Ha) as Hk. unfold wp in Hk. by rewrite Hrun in Hk.
Qed.

(** * Running programs *)

#[export] Instance signals_allowed_dec o w : Decision (allowed o w).
Proof.
  destruct o; cbn [allowed]; try apply _.
  1, 2: destruct (services (w_st w) !! v) as [x|]; [|by right; intros (? & ? & _)];
    destruct (decide (impl_list_ x = [])) as [E|E]; [left; by exists x|right];
    by intros (y & [= <-] & ?).
  - apply and_dec; [|apply _].
    destruct (impls (w_st w) !! i) as [p|]; [|by right; intros (? & ? & _)].
    destruct (waiting_ p) eqn:E; [right|left; by exists p]. intros (y & [= <-] & ?). congruence.
Defined.

Definition perform (nw : bool) (o : op) (w : world) : option world :=
  if decide (allowed o w) then
    match run_op nw o (w_st w) with
    | Ok (_, s') => Some (advance (queue_after o w) (waits_of o) w s')
    | _ => None
    end
  else None.

Fixpoint performs (nw : bool) (l : list op) (w : world) : option world :=
  match l with
  | [] => Some w
  | o :: l => w' ← perform nw o w; performs nw l w'
  end.

Lemma signals_performs nw l : forall w w',
  sreachable nw w -> performs nw l w = Some w' -> sreachable nw w'.
Proof.
  induction l as [|o l IH]; intros w w' Hw; cbn; [by intros [= <-]|]. unfold perform.
  destruct (decide (allowed o w)) as [Ha|]; [|done].
  destruct (run_op nw o (w_st w)) as [[[] s']| |] eqn:E; [|done..]. cbn. apply IH.
  eapply SR_step; [done|]. by constructor.
Qed.
