(* ===== verification/SignalClaims.v ===== *)
(** What signal sets promise: the registry is consistent, every signal reaches
    every set that registered it, and every wait completes once. *)

From stdpp Require Import gmap sorting functions.
From S2P Require Import Prelude StateMonad DoublyLinked Signals SignalInv SignalSpec SignalDeliver SignalSteps.
Import dll posix_signal_service.

(** Set [i] registered signal [n]. *)
Definition subscribed (s : st) (i : nat) (n : Z) : Prop :=
  exists r x, regs s !! r = Some x /\ owner x = i /\ signal_number x = n.

Lemma total_length T L n : total T L n = Z.of_nat (length (subscribers T L n)).
Proof. unfold total, subscribers. induction L as [|v L IH]; cbn; [done|]. rewrite length_app, IH. lia. Qed.

Lemma subscribers_nodup nw ok S T L s n : rep nw ok S T L s -> NoDup (subscribers T L n).
Proof.
  intros R. pose proof (owners_nodup _ _ _ _ _ _ R L n (r_svcs_nodup _ _ _ _ _ _ R)) as H.
  by apply NoDup_fmap_1 in H.
Qed.

Lemma subscribers_regs nw ok S T L s n r :
  rep nw ok S T L s -> r ∈ subscribers T L n <-> exists x, regs s !! r = Some x /\ signal_number x = n.
Proof.
  intros R. rewrite subscribers_spec. split.
  - intros (v & _ & Hr). destruct (table_reg _ _ _ _ _ _ R _ _ _ Hr) as (x & p & Hx & _ & Hn & _). by exists x.
  - intros (x & Hx & <-). destruct (r_reg _ _ _ _ _ _ R r x Hx) as ([p Hp] & _).
    destruct (r_impl _ _ _ _ _ _ R _ p Hp) as (y & Hy & _). exists (svc_ p).
    split; [apply (r_svcs_dom _ _ _ _ _ _ R); by exists y|]. apply (r_mem _ _ _ _ _ _ R). by exists x, p.
Qed.

Lemma bool_decide_Z_eqb a b : bool_decide (a = b) = (a =? b).
Proof. destruct (Z.eqb_spec a b); [by apply bool_decide_eq_true_2|by apply bool_decide_eq_false_2]. Qed.

(** C13: As long as no service is shut down or destroyed before its sets, and no
    set while its operation is in the queue of the scheduler: whatever services and
    sets come and go, whatever is added, removed, delivered or cancelled and whatever
    the system calls answer, the registry of signals is well formed: the lists of
    the sets are sorted by signal number and hold one registration per number,
    the tables and the list of services are linked in both directions and
    agree with the sets, and for each signal the global count is the number of
    its registrations; while there is one, the last [sigaction] for the signal
    installed the handler with the flags on record, and the flags of every
    registration are compatible with those. *)
Theorem signal_registry_consistent nw w :
  sreachable nw w ->
  registry nw (w_st w) /\
  forall n, 0 <= n < max_signal_number -> exists l f,
    NoDup l /\
    (forall r, r ∈ l <-> exists x, regs (w_st w) !! r = Some x /\ signal_number x = n) /\
    registration_count (state (w_st w)) !! Z.to_nat n = Some (Z.of_nat (length l)) /\
    registered_flags (state (w_st w)) !! Z.to_nat n = Some f /\
    (l <> [] -> dispositions (w_st w) !! Z.to_nat n = Some (Some (to_sigaction_flags nw f))) /\
    (forall r x, r ∈ l -> regs (w_st w) !! r = Some x -> flags_compatible f (flags x) = true).
Proof.
  intros [_ I]%sreachable_inv. split; [apply I|]. intros n Hn.
  destruct (si_registry _ _ _ _ _ I) as (S & T & L & R).
  destruct (r_flags _ _ _ _ _ _ R n Hn) as (f & Hf & Hd). exists (subscribers T L n), f.
  split; [by eapply subscribers_nodup|]. split; [intros r; by eapply subscribers_regs|].
  rewrite <- total_length. split; [by apply R|]. split; [done|]. split.
  - intros Hl. apply Hd; [done|]. rewrite total_length. destruct (subscribers T L n); [done|]. cbn. lia.
  - intros r x (y & Hy & <-)%(subscribers_regs _ _ _ _ _ _ _ _ R) Hx. assert (y = x) as -> by congruence.
    destruct (r_reg _ _ _ _ _ _ R r x Hx) as (_ & _ & g & Hg & Hc). replace f with g by congruence. by apply Hc.
Qed.

(** C12: A delivered signal reaches every set that registered it, in every
    service, and nothing else: a set that waits stops waiting, its operation
    takes the number and is posted exactly once; a set that does not wait
    counts the signal in its registration; every other set, every registration
    of another signal, the handlers and the counts are as before.  A number
    that is not a signal changes nothing. *)
Theorem signal_reaches_every_set nw w n :
  sreachable nw w ->
  exists s' posted, deliver_signal n (w_st w) = Ok (tt, s') /\
    log s' = map Post posted /\ NoDup posted /\
    (forall i, i ∈ posted <-> waiting (w_st w) i = true /\ subscribed (w_st w) i n) /\
    (forall i p, impls (w_st w) !! i = Some p -> impls s' !! i =
       Some (if bool_decide (i ∈ posted)
             then mk_signal (svc_ p) (signals_ p)
                    (mk_op (h (pending_op_ p)) (ec_out (pending_op_ p)) (signal_out (pending_op_ p)) n
                       (op_svc (pending_op_ p))) false (cancelled_ p)
             else p)) /\
    (forall r x, regs (w_st w) !! r = Some x -> regs s' !! r =
       Some (if (signal_number x =? n) && negb (waiting (w_st w) (owner x))
             then mk_reg (signal_number x) (flags x) (owner x) (u64 (undelivered x + 1)) (next_in_set x)
             else x)) /\
    state s' = state (w_st w) /\ services s' = services (w_st w) /\ dispositions s' = dispositions (w_st w).
Proof.
  intros [El I]%sreachable_inv. set (s := w_st w) in *.
  destruct (si_registry _ _ _ _ _ I) as (S & T & L & R).
  destruct (decide (sig n)) as [Hn|Hn].
  - pose proof (deliver_signal_wp nw _ S T L n s R Hn) as Hwp. apply wp_ok in Hwp as ([] & s' & Hrun & D).
    exists s', (hits T L n s). split; [done|]. split; [by rewrite (dl_log _ _ _ _ D), El|].
    split; [by eapply hits_nodup|].
    assert (Hh : forall i, i ∈ hits T L n s <-> waiting s i = true /\ subscribed s i n).
    { intros i. rewrite hits_spec. by rewrite (subscriber_owner _ _ _ _ _ _ R). }
    split; [done|]. split; [|split; [|by split; [|split]; apply D]].
    + intros i p Hp. rewrite (dl_impls _ _ _ _ D), Hp. cbn. f_equal.
      assert (Ew : waiting s i = waiting_ p) by (unfold waiting; by rewrite Hp).
      case_decide as Ho; [|rewrite bool_decide_eq_false_2; [done|]; rewrite hits_spec; tauto].
      unfold hit. destruct (waiting_ p) eqn:Hw.
      * rewrite bool_decide_eq_true_2; [done|]. by rewrite hits_spec.
      * rewrite bool_decide_eq_false_2; [done|]. rewrite hits_spec. intros [? _]. congruence.
    + intros r x Hx. rewrite (dl_regs _ _ _ _ D), Hx. cbn. f_equal.
      rewrite (bool_decide_ext (r ∈ subscribers T L n) (signal_number x = n)).
      * by rewrite (bool_decide_Z_eqb (signal_number x) n).
      * rewrite (subscribers_regs _ _ _ _ _ _ _ _ R). split; [by intros (y & Hy & <-); replace x with y by congruence|].
        intros <-. by exists x.
  - exists s, []. split.
    { unfold deliver_signal. assert ((n <? 0) || (max_signal_number <=? n) = true) as ->; [|done].
      unfold sig in Hn. apply orb_true_iff. rewrite Z.ltb_lt, Z.leb_le. lia. }
    split; [done|]. split; [constructor|]. split.
    { intros i. split; [by intros ?%not_elem_of_nil|]. intros (_ & r & x & Hx & _ & <-).
      destruct (r_reg _ _ _ _ _ _ R r x Hx) as (_ & ? & _). done. }
    split; [intros i p Hp; by rewrite bool_decide_eq_false_2 by (by intros ?%not_elem_of_nil)|].
    split; [|done]. intros r x Hx. destruct (r_reg _ _ _ _ _ _ R r x Hx) as (_ & ? & _).
    destruct (Z.eqb_spec (signal_number x) n) as [<-|]; [done|]. done.
Qed.

(** C11: No wait on a signal set is lost or completed twice, as long as no set is
    destroyed while its operation is in the queue of the scheduler and no service is
    shut down or destroyed before its sets; a set may be destroyed while it waits.
    At any point the
    coroutines that started a wait are those that were resumed together with
    one for each set whose wait is in progress, which is a set that waits or
    whose operation is in the queue of the scheduler.  The work the service
    announced to its scheduler is the work it took back together with that of
    the waits in progress, so a context neither stops early nor runs for ever
    because of a signal set. *)
Theorem signal_wait_completes_once nw w :
  sreachable nw w ->
  exists B, NoDup B /\
    (forall i, i ∈ B <-> in_progress (impls (w_st w)) (w_queue w) i) /\
    (forall i, i ∈ B -> is_Some (waiter (impls (w_st w)) i)) /\
    w_waits w ≡ₚ resumed (w_history w) ++ omap (waiter (impls (w_st w))) B /\
    work_started (w_history w) ≡ₚ work_finished (w_history w) ++ omap (work_of (impls (w_st w))) B.
Proof.
  intros [_ I]%sreachable_inv. destruct (si_balance _ _ _ _ _ I) as (B & [H1 H2 H3 H4 H5]). by exists B.
Qed.

(** No operation of a signal set follows a dangling pointer, reads outside a
    table or fails to terminate: every operation a program may call, and every
    delivery and completion, returns normally from every reachable state. *)
Theorem signal_service_never_faults nw w o :
  sreachable nw w -> allowed o w -> exists s', run_op nw o (w_st w) = Ok (tt, s').
Proof.
  intros Hr%sreachable_inv Ha. pose proof (signals_step_ok nw w o Hr Ha) as H.
  apply wp_ok in H as ([] & s' & H & _). by exists s'.
Qed.

(** A wait takes a queued signal before it waits for a new one, and the
    lowest number first: if a registration of the set has a queued signal, one
    signal is taken from the queued registration with the lowest number, the
    operation carries that number and is posted, and the set does not wait;
    otherwise the set waits, and the work is announced to the scheduler. *)
Theorem wait_takes_lowest_queued nw w i p co ec sg :
  sreachable nw w -> impls (w_st w) !! i = Some p -> cancelled_ p = false ->
  exists s', wait i co false ec sg (w_st w) = Ok (tt, s') /\
    ((exists r x, regs (w_st w) !! r = Some x /\ owner x = i /\ 0 < undelivered x /\
        (forall r' x', regs (w_st w) !! r' = Some x' -> owner x' = i -> 0 < undelivered x' ->
           signal_number x <= signal_number x') /\
        regs s' = <[r := set_undelivered (undelivered x - 1) x]> (regs (w_st w)) /\
        impls s' = <[i := set_pending (mk_op (Some co) ec sg (signal_number x) None) p]> (impls (w_st w)) /\
        log s' = [Post i]) \/
     ((forall r x, regs (w_st w) !! r = Some x -> owner x = i -> undelivered x <= 0) /\
        regs s' = regs (w_st w) /\
        impls s' = <[i := set_waiting true (set_pending (mk_op (Some co) ec sg 0 (Some (svc_ p))) p)]>
                     (impls (w_st w)) /\
        log s' = [Work_started (svc_ p)])).
Proof.
  intros [El I]%sreachable_inv Hp Hc. set (s := w_st w) in *.
  destruct (si_registry _ _ _ _ _ I) as (S & T & L & R).
  pose proof (wait_signal_wp nw _ S T L i co false ec sg p s R Hp) as Hwp. apply wp_ok in Hwp as ([] & s' & Hrun & _ & W).
  exists s'. split; [done|].
  assert (Hq : forall r x, regs s !! r = Some x -> queued_at s r = undelivered x)
    by (intros r x Hx; unfold queued_at; by rewrite Hx).
  assert (Hin : forall r x, regs s !! r = Some x -> owner x = i -> r ∈ S i)
    by (intros r x Hx Ho; apply (r_set_mem _ _ _ _ _ _ R); by exists x).
  destruct W as [p' [?|?] _ _ _ _|l1 r l2 x _ _ HS Hl Hx Hpos E1 E2 E3|_ _ Hl E1 E2 E3]; [done|congruence| |].
  - left. exists r, x. split; [done|]. assert (Hr : r ∈ S i) by (rewrite HS; set_solver).
    apply (r_set_mem _ _ _ _ _ _ R) in Hr as (y & Hy & Ho). assert (y = x) as -> by congruence.
    split; [done|]. split; [done|]. split; [|by rewrite El in E3].
    intros r' x' Hx' Ho' Hpos'. pose proof (Hin r' x' Hx' Ho') as Hr'.
    destruct (r_set _ _ _ _ _ _ R i p Hp) as [_ Hord]. rewrite HS in Hord, Hr'.
    apply elem_of_app in Hr' as [Hr'|[->|Hr']%elem_of_cons].
    + specialize (Hl r' Hr'). rewrite (Hq r' x' Hx') in Hl. lia.
    + assert (x' = x) as -> by congruence. lia.
    + apply ordered_app in Hord as (_ & [_ Ho2]%ordered_cons & _). specialize (Ho2 r' Hr').
      rewrite (number_lookup _ _ _ Hx), (number_lookup _ _ _ Hx') in Ho2. lia.
  - right. split; [|by rewrite El in E3]. intros r x Hx Ho. rewrite <- (Hq r x Hx). apply Hl. by eapply Hin.
Qed.

(** [add] answers by its arguments in this order: a number that is not a
    signal is an invalid argument, flags the platform lacks are not supported,
    a pipe that cannot be opened is an input/output error; a signal the set has
    already is accepted exactly when the flags agree with those it was added
    with; a new one is refused when other sets registered it with different
    flags, or when it is the first and the system refuses the handler.  A
    refused [add] leaves every set, registration and handler as it was, and an
    accepted one leaves the set registered for the signal. *)
Theorem add_signal_exact nw w fds ok i r n fl :
  sreachable nw w -> is_Some (impls (w_st w) !! i) -> regs (w_st w) !! r = None ->
  exists e s', add_signal nw fds ok i r n fl (w_st w) = Ok (e, s') /\
    add_answer nw fds ok i n fl (w_st w) e /\
    (e <> success -> impls s' = impls (w_st w) /\ regs s' = regs (w_st w) /\
       dispositions s' = dispositions (w_st w) /\ registry_view s' = registry_view (w_st w)) /\
    (e = success -> subscribed s' i n).
Proof.
  intros [_ I]%sreachable_inv [p Hp] Hr. destruct (si_registry _ _ _ _ _ I) as (S & T & L & R).
  assert (Hwp : wp (add_signal nw fds ok i r n fl) (fun e s' => add_answer nw fds ok i n fl (w_st w) e /\
    (e <> success -> same_sets (w_st w) s') /\ (e = success -> subscribed s' i n)) (w_st w)).
  { eapply add_signal_wp; [done..|]. intros e s' S' T' R' _ Hs _ Hf Ha. split; [done|]. split; [done|].
    intros He. destruct (Hs He) as (y & Hy & Hn). apply (r_set_mem _ _ _ _ _ _ R') in Hy as (x & Hx & Ho).
    exists y, x. by rewrite <- (number_lookup _ _ _ Hx). }
  apply wp_ok in Hwp as (e & s' & Hrun & Ha & Hf & Hs). exists e, s'. split; [done|]. split; [done|].
  split; [|done]. intros He. destruct (Hf He) as (H1 & H2 & H3 & H4 & _). done.
Qed.

(** * A program *)

(** Two sets of one context, one of them waiting for signals 2 and 15 and the
    other with a signal 15 queued. *)
Definition program : list op :=
  [O_make_service 0; O_construct 0 1; O_construct 0 2;
   O_add (Some (3, 4)) true 1 10 15 0; O_add None true 1 11 2 0; O_add None true 2 12 15 dont_care;
   O_deliver 15; O_wait 1 77 false true true; O_invoke 1; O_wait 1 78 false true true].

Definition program_world : world :=
  default (mk_world initial [] [] []) (performs true program (mk_world initial [] [] [])).

Lemma program_reachable : sreachable true program_world.
Proof.
  apply (signals_performs true program (mk_world initial [] [] [])); [constructor|].
  vm_compute. reflexivity.
Qed.

Lemma signal_registry_consistent_witness :
  exists l : list nat, NoDup l /\ (12%nat ∈ l) /\
    registration_count (state (w_st program_world)) !! 15%nat = Some (Z.of_nat (length l)).
Proof.
  destruct (signal_registry_consistent true program_world program_reachable) as [_ H].
  destruct (H 15) as (l & f & H1 & H2 & H3 & _); [split; [lia|reflexivity]|].
  exists l. split; [exact H1|]. split; [|exact H3]. apply H2. eexists. split; [vm_compute; reflexivity|reflexivity].
Defined.

Lemma signal_reaches_every_set_witness :
  exists s', deliver_signal 2 (w_st program_world) = Ok (tt, s') /\ waiting (w_st program_world) 1 = true.
Proof.
  destruct (signal_reaches_every_set true program_world 2 program_reachable) as (s' & l & H & _).
  exists s'. split; [exact H|]. vm_compute. reflexivity.
Defined.

Lemma signal_wait_completes_once_witness :
  exists B : list nat, (1%nat ∈ B) /\
    w_waits program_world ≡ₚ resumed (w_history program_world) ++ omap (waiter (impls (w_st program_world))) B.
Proof.
  destruct (signal_wait_completes_once true program_world program_reachable) as (B & _ & H2 & _ & H4 & _).
  exists B. split; [|exact H4]. apply H2. eexists. split; [vm_compute; reflexivity|]. left. reflexivity.
Defined.

Lemma signal_service_never_faults_witness :
  exists s', run_op true (O_destroy (fun _ => false) 1) (w_st program_world) = Ok (tt, s').
Proof.
  apply (signal_service_never_faults true program_world (O_destroy (fun _ => false) 1) program_reachable).
  apply (bool_decide_eq_true_1 _). vm_compute. reflexivity.
Defined.

Lemma wait_takes_lowest_queued_witness :
  exists s', wait 2 5 false true true (w_st program_world) = Ok (tt, s').
Proof.
  destruct (impls (w_st program_world) !! 2%nat) as [p|] eqn:E; [|vm_compute in E; discriminate].
  destruct (wait_takes_lowest_queued true program_world 2 p 5 true true program_reachable E) as (s' & H & _).
  - vm_compute in E. injection E as <-. reflexivity.
  - exists s'. exact H.
Defined.

Lemma add_signal_exact_witness :
  exists s', add_signal true None true 2 20 64 restart (w_st program_world)
               = Ok (posix_signal_service.invalid_argument, s') /\ regs s' = regs (w_st program_world).
Proof.
  destruct (add_signal_exact true program_world None true 2 20 64 restart program_reachable)
    as (e & s' & H & Ha & Hf & _).
  - eexists. vm_compute. reflexivity.
  - vm_compute. reflexivity.
  - exists s'. rewrite H, (Ha : e = posix_signal_service.invalid_argument). split; [reflexivity|]. apply Hf.
    rewrite (Ha : e = posix_signal_service.invalid_argument). discriminate.
Defined.

(** * Two corners *)

(** [cancel] marks the set as cancelled also when it completes a pending wait,
    so the next wait on the set completes as canceled as well. *)
Theorem cancel_also_cancels_next_wait nw w i p co :
  sreachable nw w -> impls (w_st w) !! i = Some p -> waiting_ p = true ->
  exists s1 s2, cancel_wait i (w_st w) = Ok (tt, s1) /\ wait i co false true true s1 = Ok (tt, s2) /\
    log s2 = log s1 ++ [Resume (Some co) (Some canceled) (Some 0)].
Proof.
  intros [El I]%sreachable_inv Hp Hw. destruct (si_registry _ _ _ _ _ I) as (S & T & L & R).
  assert (Hc : wp (cancel_wait i) (fun _ s' => rep nw (fun _ => True) S T L s' /\
    impls s' !! i = Some (set_waiting false (set_cancelled true p))) (w_st w)).
  { eapply cancel_wait_wp; [done..|]. intros s' R' _ E _. split; [done|]. rewrite E. apply lookup_insert_eq. }
  apply wp_ok in Hc as ([] & s1 & Hrun & R1 & Hp1).
  pose proof (wait_signal_wp nw _ S T L i co false true true _ s1 R1 Hp1) as Hwp.
  apply wp_ok in Hwp as ([] & s2 & Hrun2 & _ & W). exists s1, s2. split; [done|]. split; [done|].
  by destruct W as [p' _ _ _ _ E3|l1 r l2 x _ Hcc|_ Hcc].
Qed.

(** A set that is destroyed after a signal has completed its wait and before the
    scheduler has run the operation is deleted with the operation in it: the queue
    of the scheduler is left with a dangling pointer, and the coroutine is never
    resumed, although the destructor is documented to cancel pending operations. *)
Example queued_operation_outlives_set :
  match performs true [O_deliver 2] program_world with
  | Some w =>
      w_queue w = [1%nat]
      /\ match destroy (fun _ => true) 1 (w_st w) with
         | Ok (_, s') => log s' = [] /\ invoke 1 s' = Fault
         | _ => False
         end
  | None => False
  end.
Proof. vm_compute. done. Qed.

(** [shutdown] deletes the registrations of a service and leaves its tables and
    its place in the list of services: until the service is destroyed, a signal
    another context delivers follows a dangling pointer. *)
Example shutdown_leaves_tables :
  match shutdown 0 (w_st program_world) with
  | Ok (_, s') => deliver_signal 15 s' = Fault
  | _ => False
  end.
Proof. vm_compute. reflexivity. Qed.
