(* ===== verification/TcpServer.v ===== *)
(** The multi-worker server: [include/boost/corosio/tcp_server.hpp] and
    [src/corosio/src/tcp_server.cpp].

    Workers are objects of the user; the server links them into a list of idle
    workers (forward links) and a list of active ones (links in both
    directions), both through the same two pointers of the worker.  An accept
    loop is a coroutine on the executor of the server: its frame holds the
    [waiter] by which it waits for a worker, and the address of the waiter is
    the number of the loop.  Each function below is the part of a coroutine or
    callback between two suspensions; all of them run on the executor of the
    server, one at a time.

    What the acceptor answers, and what the [run] of a worker does with its
    launcher, are arguments. *)

From stdpp Require Import gmap.
From S2P Require Import Prelude StateMonad DoublyLinked.
Import dll.

Module tcp_server.

(** [w] is the worker a waiting loop was given. *)
Record waiter := mk_waiter { wait_next : option nat; wait_w : option nat }.

Record server := mk_server {
  waiters_ : option nat;
  idle_head_ : option nat;
  active_head_ : option nat;
  active_tail_ : option nat;
  active_accepts_ : Z;
  running_ : bool
}.

(** What the server asks of the executor and of the threads in [join]. *)
Inductive effect :=
| Post_waiter (l : nat)
| Post_worker (w : nat)
| Run_accept (l : nat)
| Run_stop
| Notify_join.

(** [next_], [prev_] of a worker are its link and [stops] whether the token of
    its stop source was requested; [waits] are the waiters in the frames of the
    loops; [ports] is the number of acceptors and [stop_requested] the stop
    source of the session. *)
Record st := mk_st {
  srv : server;
  ports : nat;
  stop_requested : bool;
  workers : links;
  stops : gmap nat bool;
  waits : gmap nat waiter;
  log : list effect
}.

Abbreviation SM := (M st).

Definition set_srv (x : server) (s : st) : st :=
  mk_st x (ports s) (stop_requested s) (workers s) (stops s) (waits s) (log s).
Definition set_stop (b : bool) (s : st) : st :=
  mk_st (srv s) (ports s) b (workers s) (stops s) (waits s) (log s).
Definition set_links (m : links) (s : st) : st :=
  mk_st (srv s) (ports s) (stop_requested s) m (stops s) (waits s) (log s).
Definition set_stops (m : gmap nat bool) (s : st) : st :=
  mk_st (srv s) (ports s) (stop_requested s) (workers s) m (waits s) (log s).
Definition set_waits (m : gmap nat waiter) (s : st) : st :=
  mk_st (srv s) (ports s) (stop_requested s) (workers s) (stops s) m (log s).
Definition add_log (e : effect) (s : st) : st :=
  mk_st (srv s) (ports s) (stop_requested s) (workers s) (stops s) (waits s) (log s ++ [e]).

Definition set_waiters (o : option nat) (x : server) : server :=
  mk_server o (idle_head_ x) (active_head_ x) (active_tail_ x) (active_accepts_ x) (running_ x).
Definition set_idle (o : option nat) (x : server) : server :=
  mk_server (waiters_ x) o (active_head_ x) (active_tail_ x) (active_accepts_ x) (running_ x).
Definition set_head (o : option nat) (x : server) : server :=
  mk_server (waiters_ x) (idle_head_ x) o (active_tail_ x) (active_accepts_ x) (running_ x).
Definition set_tail (o : option nat) (x : server) : server :=
  mk_server (waiters_ x) (idle_head_ x) (active_head_ x) o (active_accepts_ x) (running_ x).
Definition set_accepts (n : Z) (x : server) : server :=
  mk_server (waiters_ x) (idle_head_ x) (active_head_ x) (active_tail_ x) n (running_ x).
Definition set_running (b : bool) (x : server) : server :=
  mk_server (waiters_ x) (idle_head_ x) (active_head_ x) (active_tail_ x) (active_accepts_ x) b.

Definition upd_srv (f : server -> server) : SM unit := modify (fun s => set_srv (f (srv s)) s).
Definition the_link (w : nat) : SM link := s ← get; deref (workers s !! w).
Definition upd_link (w : nat) (f : link -> link) : SM unit :=
  k ← the_link w; modify (fun s => set_links (<[w := f k]> (workers s)) s).
Definition the_waiter (l : nat) : SM waiter := s ← get; deref (waits s !! l).
Definition upd_waiter (l : nat) (f : waiter -> waiter) : SM unit :=
  x ← the_waiter l; modify (fun s => set_waits (<[l := f x]> (waits s)) s).
Definition emit (e : effect) : SM unit := modify (add_log e).

Definition set_next (o : option nat) (k : link) : link := mk_link o (prev k).
Definition set_prev (o : option nat) (k : link) : link := mk_link (next k) o.

(** * The lists of workers *)

Definition idle_push (w : nat) : SM unit :=
  s ← get;
  upd_link w (set_next (idle_head_ (srv s))) ≫= fun _ =>
  upd_srv (set_idle (Some w)).

Definition idle_pop : SM (option nat) :=
  s ← get;
  match idle_head_ (srv s) with
  | None => mret None
  | Some w =>
      k ← the_link w;
      upd_srv (set_idle (next k)) ≫= fun _ => mret (Some w)
  end.

Definition idle_empty : SM bool := s ← get; mret (bool_decide (idle_head_ (srv s) = None)).

Definition active_push (w : nat) : SM unit :=
  upd_link w (set_next None) ≫= fun _ =>
  s ← get;
  upd_link w (set_prev (active_tail_ (srv s))) ≫= fun _ =>
  match active_tail_ (srv s) with
  | Some t => upd_link t (set_next (Some w))
  | None => upd_srv (set_head (Some w))
  end ≫= fun _ =>
  upd_srv (set_tail (Some w)).

Definition active_remove (w : nat) : SM unit :=
  s ← get;
  k ← the_link w;
  if bool_decide (active_head_ (srv s) <> Some w) && bool_decide (prev k = None) then skip
  else
    match prev k with
    | Some p => upd_link p (set_next (next k))
    | None => upd_srv (set_head (next k))
    end ≫= fun _ =>
    match next k with
    | Some n => upd_link n (set_prev (prev k))
    | None => upd_srv (set_tail (prev k))
    end ≫= fun _ =>
    upd_link w (set_prev None).

(** * Waiting for a worker and giving one back *)

(** Wake a waiter or add to the idle list. *)
Definition wake_or_idle (w : nat) : SM unit :=
  s ← get;
  match waiters_ (srv s) with
  | Some l =>
      x ← the_waiter l;
      upd_srv (set_waiters (wait_next x)) ≫= fun _ =>
      upd_waiter l (fun x => mk_waiter (wait_next x) (Some w)) ≫= fun _ =>
      emit (Post_waiter l)
  | None => idle_push w
  end.

(** [push_awaitable::await_resume] and [push_sync] *)
Definition push_sync (w : nat) : SM unit :=
  active_remove w ≫= fun _ => wake_or_idle w.

(** [pop_awaitable]: its constructor, [await_ready], [await_suspend] and
    [await_resume]; the object goes with the end of the expression. *)
Definition pop_construct (l : nat) : SM unit :=
  s ← get;
  (if bool_decide (is_Some (waits s !! l)) then fault else skip) ≫= fun _ =>
  modify (fun s => set_waits (<[l := mk_waiter None None]> (waits s)) s).

Definition pop_ready : SM bool := b ← idle_empty; mret (negb b).

Definition pop_suspend (l : nat) : SM unit :=
  s ← get;
  upd_waiter l (fun _ => mk_waiter (waiters_ (srv s)) None) ≫= fun _ =>
  upd_srv (set_waiters (Some l)).

Definition pop_resume (l : nat) : SM nat :=
  x ← the_waiter l;
  w ← match wait_w x with
      | Some w => mret w
      | None => o ← idle_pop; deref o
      end;
  modify (fun s => set_waits (delete l (waits s)) s) ≫= fun _ => mret w.

(** * Dispatching a worker *)

(** [launcher::operator()]; [throws] is whether setting up the coroutine throws
    after the worker was added to the active list.  The launcher without a
    worker was invoked before, and throws. *)
Definition launch (throws : bool) (launcher : option nat) : SM bool :=
  match launcher with
  | None => mret false
  | Some w =>
      active_push w ≫= fun _ =>
      modify (fun s => set_stops (<[w := false]> (stops s)) s) ≫= fun _ =>
      if throws then push_sync w ≫= fun _ => mret false
      else emit (Post_worker w) ≫= fun _ => mret true
  end.

(** What [run] of a worker does with its launcher: it launches the connection,
    fails to, or returns without invoking it, and the destructor gives the
    worker back.  [run] is the user's code: [Launch_throws] is a launcher whose
    setup throws and a [run] that handles the exception, after which the accept
    loop continues.  An exception that leaves [run] ends the coroutine of
    [do_accept], and what [capy::run_async] then does is not in the sources: no
    outcome of the model. *)
Inductive outcome := Launched | Launch_throws | Not_launched.

Definition run_worker (u : outcome) (w : nat) : SM unit :=
  match u with
  | Launched => launch false (Some w) ≫= fun _ => skip
  | Launch_throws => launch true (Some w) ≫= fun _ => skip
  | Not_launched => push_sync w
  end.

(** * The accept loop *)

(** Where a loop is suspended: not yet started, in [pop], in [accept], in
    [push], or at its end. *)
Inductive phase :=
| Started
| Waiting
| Accepting (w : nat)
| Returning (w : nat)
| Done.

#[export] Instance phase_eq_dec : EqDecision phase.
Proof. solve_decision. Defined.

(** The completion handler of a loop. *)
Definition accept_done : SM unit :=
  s ← get;
  upd_srv (set_accepts (active_accepts_ (srv s) - 1)) ≫= fun _ =>
  if active_accepts_ (srv s) - 1 =? 0 then emit Notify_join else skip.

(** From the head of the loop to its next suspension. *)
Definition accept_top (l : nat) : SM phase :=
  s ← get;
  if stop_requested s then accept_done ≫= fun _ => mret Done
  else
    pop_construct l ≫= fun _ =>
    ready ← pop_ready;
    if ready : bool then w ← pop_resume l; mret (Accepting w)
    else pop_suspend l ≫= fun _ => mret Waiting.

(** Woken in [pop]. *)
Definition accept_woken (l : nat) : SM phase := w ← pop_resume l; mret (Accepting w).

(** [accept] returned; [ec] is whether it failed. *)
Definition accept_returned (l w : nat) (ec : bool) (u : outcome) : SM phase :=
  if ec then mret (Returning w)
  else run_worker u w ≫= fun _ => accept_top l.

(** [push] resumes on the executor of the server. *)
Definition accept_pushed (l w : nat) : SM phase :=
  push_sync w ≫= fun _ => accept_top l.

(** The end of a connection: [launch_coro] after its task. *)
Definition worker_done (w : nat) : SM unit := push_sync w.

(** * Sessions *)

(** [false] is the exception of a session that was not joined. *)
Definition start : SM bool :=
  s ← get;
  if running_ (srv s) then mret true
  else if negb (active_accepts_ (srv s) =? 0) then mret false
  else
    upd_srv (set_running true) ≫= fun _ =>
    modify (set_stop false) ≫= fun _ =>
    upd_srv (set_accepts (Z.of_nat (ports s))) ≫= fun _ =>
    foldr (fun l m => emit (Run_accept l) ≫= fun _ => m) skip (seq 0 (ports s)) ≫= fun _ =>
    mret true.

Definition stop : SM unit :=
  s ← get;
  if negb (running_ (srv s)) then skip
  else
    upd_srv (set_running false) ≫= fun _ =>
    modify (set_stop true) ≫= fun _ =>
    emit Run_stop.

(** [for (auto* w = active_head_; w; w = w->next_) w->stop_.request_stop();] *)
Fixpoint stop_workers (fuel : nat) (o : option nat) : SM unit :=
  match fuel with
  | O => fault
  | S fuel =>
      match o with
      | None => skip
      | Some w =>
          modify (fun s => set_stops (<[w := true]> (stops s)) s) ≫= fun _ =>
          k ← the_link w;
          stop_workers fuel (next k)
      end
  end.

Definition do_stop : SM unit :=
  s ← get; stop_workers (S (size (workers s))) (active_head_ (srv s)).

(** Whether [join] returns. *)
Definition joined (s : st) : bool := active_accepts_ (srv s) =? 0.

(** [set_workers]: [ws] are the addresses of the new workers. *)
Definition set_workers (ws : list nat) : SM unit :=
  upd_srv (fun x => set_tail None (set_head None (set_idle None x))) ≫= fun _ =>
  modify (set_links (foldr (fun w m => <[w := mk_link None None]> m) ∅ ws)) ≫= fun _ =>
  modify (set_stops (foldr (fun w m => <[w := false]> m) ∅ ws)) ≫= fun _ =>
  foldr (fun w m => idle_push w ≫= fun _ => m) skip ws.

(** [bind] that succeeds adds an acceptor. *)
Definition bind (ok : bool) : SM bool :=
  (if ok then modify (fun s => mk_st (srv s) (S (ports s)) (stop_requested s) (workers s) (stops s)
                                 (waits s) (log s)) else skip) ≫= fun _ => mret ok.

(** The moves: the new object takes everything, the old one is left without an
    implementation, lists and session. *)
Definition moved_from (s : st) : st :=
  mk_st (mk_server None None None None 0 false) 0 false ∅ ∅ ∅ (log s).
Definition move_construct (o : st) : st * st := (o, moved_from o).

Definition initial : st :=
  mk_st (mk_server None None None None 0 false) 0 false ∅ ∅ ∅ [].

End tcp_server.
