(* ===== verification/TcpServerSpec.v ===== *)
(** The lists of the server: what its pointers represent, and what each part of
    a coroutine does to them. *)

From stdpp Require Import gmap.
From S2P Require Import Prelude StateMonad DoublyLinked TcpServer.
Import dll tcp_server.

(** * Forward lists *)

(** From [o] the elements [l] follow one another by the pointer [nx]. *)
Fixpoint fseg (nx : nat -> option (option nat)) (o : option nat) (l : list nat) : Prop :=
  match l with
  | [] => o = None
  | x :: l' => o = Some x /\ exists n, nx x = Some n /\ fseg nx n l'
  end.

Lemma fseg_frame nx nx' o l :
  (forall x, x ∈ l -> nx' x = nx x) -> fseg nx o l -> fseg nx' o l.
Proof.
  revert o. induction l as [|x l IH]; intros o H; [done|]. cbn. intros (-> & n & Hn & Hl).
  split; [done|]. exists n. rewrite H by set_solver. split; [done|]. apply IH; [set_solver|done].
Qed.

Definition next_of (s : st) (w : nat) : option (option nat) := next <$> workers s !! w.
Definition wait_of (s : st) (l : nat) : option (option nat) :=
  x ← waits s !! l; if wait_w x then None else Some (wait_next x).

(** * The lists of a server *)

(** [I] are the idle workers, [A] the active ones and [W] the loops that wait
    for a worker. *)
Record rep (I A W : list nat) (s : st) : Prop := {
  t_idle : fseg (next_of s) (idle_head_ (srv s)) I;
  t_active : chain (workers s) (active_head_ (srv s)) A;
  t_tail : active_tail_ (srv s) = last_of None A;
  t_waiters : fseg (wait_of s) (waiters_ (srv s)) W;
  t_nodup : NoDup (I ++ A);
  t_wnodup : NoDup W;
  t_prev : forall w k, workers s !! w = Some k -> w ∉ A -> prev k = None;
  t_ready : W <> [] -> I = []
}.

(** What the operations on the lists leave alone. *)
Record frame (s s' : st) : Prop := {
  f_ports : ports s' = ports s;
  f_stop : stop_requested s' = stop_requested s;
  f_accepts : active_accepts_ (srv s') = active_accepts_ (srv s);
  f_running : running_ (srv s') = running_ (srv s);
  f_dom : forall w, is_Some (workers s' !! w) <-> is_Some (workers s !! w)
}.

Lemma server_frame_refl s : frame s s.
Proof. by constructor. Qed.
Lemma server_frame_trans s1 s2 s3 : frame s1 s2 -> frame s2 s3 -> frame s1 s3.
Proof. intros [] []. constructor; try congruence. intros w. by rewrite f_dom1, f_dom0. Qed.

Lemma dom_insert (L : links) w k k' :
  L !! w = Some k -> forall x, is_Some (<[w := k']> L !! x) <-> is_Some (L !! x).
Proof. intros Hk x. rewrite lookup_insert_is_Some'. split; [|by right]. intros [->|]; [by exists k|done]. Qed.

(** * Access *)

Lemma wp_link w k (Q : link -> st -> Prop) s : workers s !! w = Some k -> Q k s -> wp (the_link w) Q s.
Proof. intros. unfold the_link. by wp_steps. Qed.
Lemma wp_upd_link w f k (Q : unit -> st -> Prop) s :
  workers s !! w = Some k -> Q tt (set_links (<[w := f k]> (workers s)) s) -> wp (upd_link w f) Q s.
Proof. intros. unfold upd_link. wp_step. eapply wp_link; [done|]. by wp_step. Qed.
Lemma wp_waiter l x (Q : waiter -> st -> Prop) s : waits s !! l = Some x -> Q x s -> wp (the_waiter l) Q s.
Proof. intros. unfold the_waiter. by wp_steps. Qed.
Lemma wp_upd_waiter l f x (Q : unit -> st -> Prop) s :
  waits s !! l = Some x -> Q tt (set_waits (<[l := f x]> (waits s)) s) -> wp (upd_waiter l f) Q s.
Proof. intros. unfold upd_waiter. wp_step. eapply wp_waiter; [done|]. by wp_step. Qed.
Lemma wp_srv f (Q : unit -> st -> Prop) s : Q tt (set_srv (f (srv s)) s) -> wp (upd_srv f) Q s.
Proof. done. Qed.
Lemma wp_event e (Q : unit -> st -> Prop) s : Q tt (add_log e s) -> wp (emit e) Q s.
Proof. done. Qed.

Ltac srv_step :=
  first [ wp_step
        | lazymatch goal with
          | |- wp (the_link _) _ _ => eapply wp_link; [eassumption|]
          | |- wp (upd_link _ _) _ _ => eapply wp_upd_link; [eassumption|]
          | |- wp (the_waiter _) _ _ => eapply wp_waiter; [eassumption|]
          | |- wp (upd_waiter _ _) _ _ => eapply wp_upd_waiter; [eassumption|]
          | |- wp (upd_srv _) _ _ => apply wp_srv
          | |- wp (emit _) _ _ => apply wp_event
          end ].

(** * The idle list *)

Lemma idle_push_wp I A w (Q : unit -> st -> Prop) s :
  rep I A [] s -> is_Some (workers s !! w) -> w ∉ I -> w ∉ A ->
  (forall s', rep (w :: I) A [] s' -> frame s s' -> waits s' = waits s -> stops s' = stops s ->
     log s' = log s -> Q tt s') ->
  wp (idle_push w) Q s.
Proof.
  intros R [k Hk] HI HA HQ. unfold idle_push. do 3 srv_step. srv_step. srv_step.
  apply HQ; try done; [|constructor; try done; cbn; by eapply dom_insert].
  destruct R as [R1 R2 R3 R4 R5 R6 R7 R8]. constructor; try done; cbn.
  - split; [done|]. exists (idle_head_ (srv s)). unfold next_of. cbn. rewrite lookup_insert_eq. split; [done|].
    eapply fseg_frame; [|exact R1]. intros x Hx. unfold next_of. cbn. rewrite lookup_insert_ne; [done|]. by intros ->.
  - eapply seg_frame; [|exact R2]. intros x Hx. apply lookup_insert_ne. by intros ->.
  - cbn. apply list.NoDup_cons. split; [|done]. rewrite elem_of_app. tauto.
  - intros x y [[<- <-]|[_ Hy]]%lookup_insert_Some Hx; cbn; by eapply R7.
Qed.

Lemma idle_pop_wp w I A (Q : option nat -> st -> Prop) s :
  rep (w :: I) A [] s ->
  (forall s', rep I A [] s' -> frame s s' -> waits s' = waits s -> stops s' = stops s -> log s' = log s ->
     is_Some (workers s !! w) -> w ∉ I -> w ∉ A -> Q (Some w) s') ->
  wp idle_pop Q s.
Proof.
  intros [R1 R2 R3 R4 R5 R6 R7 R8] HQ. destruct R1 as (E & n & Hn & R1). unfold idle_pop. do 2 srv_step. rewrite E.
  unfold next_of in Hn. destruct (workers s !! w) as [k|] eqn:Hk; [|done]. injection Hn as Hn.
  do 4 srv_step. apply list.NoDup_cons in R5 as [Hw R5]. rewrite elem_of_app in Hw.
  apply HQ; try done; [|tauto|tauto]. constructor; try done. cbn. by rewrite Hn.
Qed.

(** * The active list *)

Lemma active_push_wp I A W w (Q : unit -> st -> Prop) s :
  rep I A W s -> is_Some (workers s !! w) -> w ∉ I -> w ∉ A ->
  (forall s', rep I (A ++ [w]) W s' -> frame s s' -> waits s' = waits s -> stops s' = stops s ->
     log s' = log s -> Q tt s') ->
  wp (active_push w) Q s.
Proof.
  intros R [k Hk] HI HA HQ. unfold active_push. do 4 srv_step.
  srv_step. eapply wp_upd_link; [cbn; apply lookup_insert_eq|]. cbn [workers set_links]. rewrite insert_insert_eq. cbn [set_next set_prev prev next srv set_links].
  destruct R as [R1 R2 R3 R4 R5 R6 R7 R8]. rewrite R3.
  assert (Hid : forall (K : links), (forall x, x ∉ A -> x <> w -> K !! x = workers s !! x) ->
    (forall x k', K !! x = Some k' -> x ∉ A ++ [w] -> prev k' = None) /\ NoDup (I ++ A ++ [w]) /\
    forall x, x ∈ I -> next <$> K !! x = next <$> workers s !! x).
  { intros K HK. split; [|split].
    - intros x k' Hx Hxa. rewrite HK in Hx by set_solver. eapply R7; [done|]. set_solver.
    - rewrite app_assoc. apply list.NoDup_app. split; [done|]. split; [|apply NoDup_singleton].
      intros x [Hx|Hx]%elem_of_app ->%list_elem_of_singleton; done.
    - intros x Hx. rewrite HK; [done| |by intros ->]. intros Hxa.
      apply list.NoDup_app in R5 as (_ & Hdj & _). by apply (Hdj x). }
  srv_step. destruct A as [|t A' _] using rev_ind.
  - cbn [last_of list.last]. srv_step. srv_step. cbn in R2.
    destruct (Hid (<[w := mk_link None None]> (workers s))) as (H1 & H2 & H3).
    { intros x _ Hx. by rewrite lookup_insert_ne. }
    apply HQ; try done; [|constructor; try done; cbn; by eapply dom_insert].
    constructor; try done; cbn.
    + eapply fseg_frame; [|exact R1]. intros x Hx. by apply H3.
    + split; [done|]. eexists. by rewrite lookup_insert_eq.
  - unfold last_of. rewrite last_snoc. destruct (seg_member _ _ _ _ _ t R2) as [j Hj]; [set_solver|].
    assert (Htw : t <> w) by (intros ->; apply HA; set_solver).
    eapply wp_upd_link; [cbn; rewrite lookup_insert_ne by done; exact Hj|]. srv_step. cbn [workers set_links].
    apply list.NoDup_app in R5 as R5'. destruct R5' as (_ & _ & Hd).
    assert (Hta : t ∉ A').
    { apply list.NoDup_app in Hd as (_ & Hd & _). intros Ht. apply (Hd t Ht). set_solver. }
    destruct (Hid (<[t := set_next (Some w) j]> (<[w := mk_link None (Some t)]> (workers s)))) as (H1 & H2 & H3).
    { intros x Hx Hxw. rewrite !lookup_insert_ne; [done|done|]. intros ->. apply Hx. set_solver. }
    apply HQ; try done.
    + constructor; try done; cbn.
      * eapply fseg_frame; [|exact R1]. intros x Hx. by apply H3.
      * unfold chain. apply seg_app. exists (Some w). split.
        -- eapply (seg_frame (<[t := mk_link (Some w) (prev j)]> (workers s))).
           ++ intros x Hx. rewrite !(lookup_insert _ t). case_decide; [done|].
              rewrite lookup_insert_ne; [done|]. intros ->. done.
           ++ by eapply seg_set_next.
        -- unfold last_of. rewrite last_snoc. cbn. split; [done|]. eexists.
           rewrite lookup_insert_ne, lookup_insert_eq by done. done.
      * unfold last_of. by rewrite last_snoc.
    + constructor; try done. intros x. cbn. rewrite (dom_insert _ t j); [by eapply dom_insert|].
      by rewrite lookup_insert_ne.
Qed.

Lemma last_of_app p l1 x l2 : last_of p (l1 ++ x :: l2) = last_of (Some x) l2.
Proof. revert p. induction l1 as [|y l1 IH]; intros p; cbn [app]; rewrite last_of_cons; [done|apply IH]. Qed.

(** A worker that is not active stays as it is. *)
Lemma active_remove_other I A W w (Q : unit -> st -> Prop) s :
  rep I A W s -> is_Some (workers s !! w) -> w ∉ A -> Q tt s -> wp (active_remove w) Q s.
Proof.
  intros R [k Hk] HA HQ. unfold active_remove. do 4 srv_step.
  assert (Hh : active_head_ (srv s) <> Some w).
  { pose proof (t_active _ _ _ _ R) as H. destruct A as [|x A]; cbn in H; [by rewrite H|].
    destruct H as [-> _]. intros [= ->]. apply HA. set_solver. }
  rewrite bool_decide_eq_true_2 by done. rewrite (bool_decide_eq_true_2 (prev k = None)); [by srv_step|].
  by eapply R.
Qed.

(** The links once [w] was taken out of the active list, and its pointers to
    the neighbours' ends. *)
Lemma unlink_active L h A1 w A2 k :
  chain L h (A1 ++ w :: A2) -> NoDup (A1 ++ w :: A2) -> L !! w = Some k ->
  prev k = last_of None A1 /\ next k = head A2 /\
  (A1 = [] -> h = Some w) /\
  (forall p, last_of None A1 = Some p -> h <> Some w /\ is_Some (L !! p) /\ p <> w) /\
  (forall n, head A2 = Some n -> is_Some (L !! n) /\ n <> w /\ last_of None A1 <> Some n).
Proof.
  intros (m & H1 & -> & k' & Hk' & Hp & H2)%seg_app Hd Hk. assert (k' = k) as -> by congruence.
  apply list.NoDup_app in Hd as (Hd1 & Hdj & [Hw Hd2]%list.NoDup_cons).
  assert (Hl : forall p, last_of None A1 = Some p -> p ∈ A1).
  { intros p. unfold last_of. destruct (list.last A1) as [z|] eqn:E; [|done]. intros [= <-].
    apply last_Some in E as (A' & ->). set_solver. }
  split; [done|]. split.
  { destruct A2 as [|n A2]; cbn in H2; [done|]. by destruct H2 as [-> _]. }
  split; [intros ->; exact H1|]. split.
  - intros p Hpl. specialize (Hl p Hpl). split; [|split; [eapply seg_member; [exact H1|done]|intros ->; apply (Hdj w Hl); set_solver]].
    destruct A1 as [|x A1]; [done|]. destruct H1 as [-> _]. intros [= ->]. apply (Hdj w); set_solver.
  - intros n Hn. destruct A2 as [|y A2]; [done|]. injection Hn as ->.
    split; [eapply seg_member; [exact H2|set_solver]|]. split; [set_solver|].
    intros E%Hl. apply (Hdj n E). set_solver.
Qed.

(** The branches of [active_remove] are those of [unlink], with the tail. *)
Lemma active_remove_unlink w k h' L' (Q : unit -> st -> Prop) s :
  workers s !! w = Some k -> (prev k = None <-> active_head_ (srv s) = Some w) ->
  next k <> Some w -> prev k <> Some w ->
  unlink w (active_head_ (srv s)) (workers s) = Ok (h', L') ->
  (forall s' k', workers s' = <[w := set_prev None k']> L' -> srv s' =
     mk_server (waiters_ (srv s)) (idle_head_ (srv s)) h'
       (if next k then active_tail_ (srv s) else prev k) (active_accepts_ (srv s)) (running_ (srv s)) ->
     frame s s' -> waits s' = waits s -> stops s' = stops s -> log s' = log s -> Q tt s') ->
  wp (active_remove w) Q s.
Proof.
  intros Hk Hh Hn Hp EU HQ. unfold unlink in EU. rewrite Hk in EU. unfold active_remove. do 4 srv_step.
  destruct (prev k) as [p|] eqn:Ep.
  - assert (active_head_ (srv s) <> Some w) as Hne by (intros ?%Hh; done).
    rewrite (bool_decide_eq_false_2 (Some p = None)), andb_false_r by done. rewrite decide_False in EU by done.
    destruct (workers s !! p) as [j|] eqn:Hj; [|done]. cbn [res_bind] in EU. srv_step. eapply wp_upd_link; [exact Hj|].
    assert (Hkp : <[p := mk_link (next k) (prev j)]> (workers s) !! w = Some k) by (rewrite lookup_insert_ne; [done|congruence]).
    destruct (next k) as [n|] eqn:En.
    + destruct (<[p := mk_link (Some n) (prev j)]> (workers s) !! n) as [i|] eqn:Hi; [|done].
      injection EU as <- <-. srv_step. eapply wp_upd_link; [exact Hi|].
      eapply wp_upd_link; [cbn; rewrite lookup_insert_ne by congruence; exact Hkp|]. eapply HQ; [done|cbn; by destruct (srv s)| |done..].
      constructor; try done. intros x. cbn.
      erewrite dom_insert by (rewrite lookup_insert_ne by congruence; exact Hkp).
      erewrite dom_insert by exact Hi. by eapply dom_insert.
    + injection EU as <- <-. do 2 srv_step. eapply wp_upd_link; [exact Hkp|]. eapply HQ; [done|cbn; by destruct (srv s)| |done..].
      constructor; try done. intros x. cbn. erewrite dom_insert by exact Hkp. by eapply dom_insert.
  - assert (active_head_ (srv s) = Some w) as Hhd by (by apply Hh).
    rewrite (bool_decide_eq_false_2 (active_head_ (srv s) <> Some w)) by tauto. cbn [andb].
    rewrite decide_True in EU by done. cbn [res_bind] in EU. do 2 srv_step.
    destruct (next k) as [n|] eqn:En.
    + destruct (workers s !! n) as [i|] eqn:Hi; [|done]. injection EU as <- <-. srv_step.
      eapply wp_upd_link; [exact Hi|]. eapply wp_upd_link; [cbn; rewrite lookup_insert_ne by congruence; exact Hk|].
      eapply HQ; [done|cbn; by destruct (srv s)| |done..]. constructor; try done. intros x. cbn.
      erewrite dom_insert by (rewrite lookup_insert_ne by congruence; exact Hk). by eapply dom_insert.
    + injection EU as <- <-. do 2 srv_step. eapply wp_upd_link; [exact Hk|]. eapply HQ; [done|cbn; by destruct (srv s)| |done..].
      constructor; try done. cbn. by eapply dom_insert.
Qed.

Lemma active_remove_wp I A1 w A2 W (Q : unit -> st -> Prop) s :
  rep I (A1 ++ w :: A2) W s ->
  (forall s', rep I (A1 ++ A2) W s' -> frame s s' -> waits s' = waits s -> stops s' = stops s ->
     log s' = log s -> Q tt s') ->
  wp (active_remove w) Q s.
Proof.
  intros [R1 R2 R3 R4 R5 R6 R7 R8] HQ.
  destruct (seg_member _ _ _ _ _ w R2) as [k Hk]; [set_solver|].
  apply list.NoDup_app in R5 as (Rd1 & Rdj & Rd2).
  destruct (unlink_active _ _ _ _ _ _ R2 Rd2 Hk) as (Ep & En & U1 & U2 & U3).
  destruct (unlink_chain _ _ _ _ _ R2 Rd2) as (h' & L' & EU & Hch & HF).
  apply list.NoDup_app in Rd2 as (Hd1 & Hdj & [Hw2 Hd2]%list.NoDup_cons).
  assert (Hw : w ∉ A1 ++ A2).
  { intros [H|H]%elem_of_app; [apply (Hdj w H); set_solver|done]. }
  eapply active_remove_unlink; [exact Hk| | | |exact EU|].
  - rewrite Ep. split.
    + intros E. destruct A1 as [|z A1' _] using rev_ind; [by apply U1|]. by rewrite last_of_app in E.
    + intros E. destruct (last_of None A1) as [p|] eqn:El; [|done]. by destruct (U2 p eq_refl) as [? _].
  - rewrite En. intros E. by destruct (U3 w E) as (_ & ? & _).
  - rewrite Ep. intros E. by destruct (U2 w E) as (_ & _ & ?).
  - intros s' k' E1 E2 Hf E6 E7 E8. apply HQ; try done. constructor; rewrite ?E2; cbn; try done.
    + eapply fseg_frame; [|exact R1]. intros x Hx. unfold next_of. rewrite E1.
      assert (x ∉ A1 ++ w :: A2) by (by apply Rdj). rewrite lookup_insert_ne by set_solver. by rewrite HF.
    + rewrite E1. eapply seg_frame; [|exact Hch]. intros x Hx. apply lookup_insert_ne. by intros ->.
    + rewrite En, Ep. destruct A2 as [|n A2]; [by rewrite app_nil_r|]. cbn [head].
      by rewrite R3, !last_of_app, last_of_cons.
    + eapply fseg_frame; [|exact R4]. intros x _. unfold wait_of. by rewrite E6.
    + apply list.NoDup_app. split; [done|]. split; [|apply list.NoDup_app; split; [done|]; split; [|done]].
      * intros x Hx Hx2. apply (Rdj x Hx). set_solver.
      * intros x Hx Hx2. apply (Hdj x Hx). set_solver.
    + intros x y. rewrite E1. intros [[<- <-]|[Hne Hy]]%lookup_insert_Some Hx; [done|].
      assert (x ∉ A1 ++ w :: A2) by set_solver. rewrite HF in Hy by done. by eapply R7.
Qed.

(** * Giving a worker back *)

Definition without (w : nat) (A A' : list nat) : Prop := forall x, x ∈ A' <-> x ∈ A /\ x <> w.

(** The first waiting loop gets the worker, or it becomes idle. *)
Lemma wake_or_idle_wp I A W w (Q : unit -> st -> Prop) s :
  rep I A W s -> is_Some (workers s !! w) -> w ∉ I -> w ∉ A ->
  (forall s' l W' nx, W = l :: W' -> rep I A W' s' -> frame s s' -> stops s' = stops s ->
     waits s' = <[l := mk_waiter nx (Some w)]> (waits s) -> log s' = log s ++ [Post_waiter l] -> Q tt s') ->
  (forall s', W = [] -> rep (w :: I) A [] s' -> frame s s' -> stops s' = stops s -> waits s' = waits s ->
     log s' = log s -> Q tt s') ->
  wp (wake_or_idle w) Q s.
Proof.
  intros R Hw HI HA HQ1 HQ2. unfold wake_or_idle. srv_step. srv_step. destruct W as [|l W].
  - rewrite (t_waiters _ _ _ _ R). eapply idle_push_wp; [done..|]. intros s' R' Hf E1 E2 E3. by apply HQ2.
  - destruct R as [R1 R2 R3 R4 R5 R6 R7 R8]. destruct R4 as (-> & n & Hn & R4). unfold wait_of in Hn.
    destruct (waits s !! l) as [x|] eqn:Hx; [|done]. cbn in Hn. destruct (wait_w x) eqn:Ew; [done|].
    injection Hn as Hn. do 4 srv_step. srv_step. eapply wp_upd_waiter; [exact Hx|]. srv_step.
    apply list.NoDup_cons in R6 as [Hl R6].
    eapply HQ1; [done| |by constructor|done|done|done]. constructor; try done.
    + cbn. rewrite Hn. eapply fseg_frame; [|exact R4]. intros y Hy. unfold wait_of. cbn.
      rewrite lookup_insert_ne; [done|]. by intros ->.
    + intros _. by apply R8.
Qed.

Lemma push_sync_wp I A W w (Q : unit -> st -> Prop) s :
  rep I A W s -> is_Some (workers s !! w) -> w ∉ I ->
  (forall s' A' l W' nx, W = l :: W' -> rep I A' W' s' -> without w A A' -> frame s s' -> stops s' = stops s ->
     waits s' = <[l := mk_waiter nx (Some w)]> (waits s) -> log s' = log s ++ [Post_waiter l] -> Q tt s') ->
  (forall s' A', W = [] -> rep (w :: I) A' [] s' -> without w A A' -> frame s s' -> stops s' = stops s ->
     waits s' = waits s -> log s' = log s -> Q tt s') ->
  wp (push_sync w) Q s.
Proof.
  intros R Hw HI HQ1 HQ2. unfold push_sync. srv_step.
  assert (Hgo : forall s1 A1, rep I A1 W s1 -> w ∉ A1 -> without w A A1 -> frame s s1 -> waits s1 = waits s ->
    stops s1 = stops s -> log s1 = log s ->
    wp (wake_or_idle w) Q s1).
  { intros s1 A1 R1 HA1 Hwo Hf E1 E2 E3. eapply wake_or_idle_wp; [done| |done|done| |].
    - by apply (f_dom _ _ Hf).
    - intros s' l W' nx HW R' Hf' E4 E5 E6. rewrite E1 in E5. rewrite E3 in E6.
      eapply HQ1; [done|done|done|by eapply server_frame_trans|congruence|done|done].
    - intros s' HW R' Hf' E4 E5 E6. eapply HQ2; [done|done|done|by eapply server_frame_trans|congruence..]. }
  destruct (decide (w ∈ A)) as [HA|HA].
  - apply list_elem_of_split in HA as (A1 & A2 & ->). eapply active_remove_wp; [done|].
    intros s1 R1 Hf E1 E2 E3. pose proof (t_nodup _ _ _ _ R) as Hd.
    apply list.NoDup_app in Hd as (_ & _ & Hd). apply list.NoDup_app in Hd as (_ & Hdj & [Hw2 _]%list.NoDup_cons).
    assert (HwA : w ∉ A1 ++ A2).
    { intros [H|H]%elem_of_app; [apply (Hdj w H); set_solver|done]. }
    apply (Hgo s1 (A1 ++ A2)); try done. intros x. split; [|set_solver].
    intros Hx. split; [set_solver|]. by intros ->.
  - eapply active_remove_other; [done..|]. apply (Hgo s A); try done.
    intros x. split; [|tauto]. intros Hx. split; [done|]. by intros ->.
Qed.

(** * Taking a worker *)

Lemma rep_waits I A W s m :
  rep I A W s -> (forall l, l ∈ W -> m !! l = waits s !! l) -> rep I A W (set_waits m s).
Proof.
  intros [R1 R2 R3 R4 R5 R6 R7 R8] Hm. constructor; try done.
  eapply fseg_frame; [|exact R4]. intros l Hl. unfold wait_of. cbn. by rewrite Hm.
Qed.

Lemma waiting_known I A W s l : rep I A W s -> l ∈ W -> is_Some (waits s !! l).
Proof.
  intros R. pose proof (t_waiters _ _ _ _ R) as H. revert H. generalize (waiters_ (srv s)). clear R.
  induction W as [|z W IH]; intros o H Hl; [by apply not_elem_of_nil in Hl|]. destruct H as (_ & n & Hn & H).
  apply elem_of_cons in Hl as [->|Hl]; [|by eapply IH]. unfold wait_of in Hn. destruct (waits s !! z); [by eexists|done].
Qed.

Lemma accept_top_wp I A W l (Q : phase -> st -> Prop) s :
  rep I A W s -> waits s !! l = None ->
  (forall s', stop_requested s = true -> rep I A W s' -> ports s' = ports s -> stop_requested s' = true ->
     running_ (srv s') = running_ (srv s) -> workers s' = workers s -> waits s' = waits s -> stops s' = stops s ->
     active_accepts_ (srv s') = active_accepts_ (srv s) - 1 ->
     log s' = log s ++ (if active_accepts_ (srv s) - 1 =? 0 then [Notify_join] else []) -> Q Done s') ->
  (forall s' w I', stop_requested s = false -> I = w :: I' -> rep I' A W s' -> frame s s' -> waits s' = waits s ->
     stops s' = stops s -> log s' = log s -> is_Some (workers s !! w) -> w ∉ I' -> w ∉ A -> Q (Accepting w) s') ->
  (forall s' nx, stop_requested s = false -> I = [] -> rep [] A (l :: W) s' -> frame s s' ->
     waits s' = <[l := mk_waiter nx None]> (waits s) -> stops s' = stops s -> log s' = log s -> Q Waiting s') ->
  wp (accept_top l) Q s.
Proof.
  intros R Hl HD HA HW. unfold accept_top. do 2 srv_step. srv_step.
  - srv_step. unfold accept_done. do 4 srv_step. 
    assert (R' : rep I A W (set_srv (set_accepts (active_accepts_ (srv s) - 1) (srv s)) s)) by (by destruct R).
    srv_step; srv_step; srv_step; apply (HD _ eq_refl); try done; cbn.
    + by destruct R'.
    + by rewrite app_nil_r.
  - assert (HlW : l ∉ W) by (intros H%(waiting_known _ _ _ _ _ R); rewrite Hl in H; by destruct H).
    unfold pop_construct. srv_step. do 3 srv_step. srv_step; [rewrite bool_decide_eq_true, Hl in Heqb0; by destruct Heqb0|].
    do 2 srv_step. unfold pop_ready, idle_empty. do 6 srv_step.
    assert (R0 : rep I A W (set_waits (<[l := mk_waiter None None]> (waits s)) s)).
    { apply rep_waits; [done|]. intros y Hy. apply lookup_insert_ne. by intros ->. }
    destruct I as [|w I].
    + cbn [srv set_waits]. rewrite (bool_decide_eq_true_2 (idle_head_ (srv s) = None)) by apply R. cbn [negb].
      srv_step. unfold pop_suspend. do 3 srv_step. eapply wp_upd_waiter; [apply lookup_insert_eq|]. do 2 srv_step.
      eapply HW; try done; [|cbn; by rewrite insert_insert_eq]. clear R0.
      destruct R as [R1 R2 R3 R4 R5 R6 R7 R8]. constructor; try done; cbn.
      * split; [done|]. exists (waiters_ (srv s)). unfold wait_of at 1. cbn. rewrite insert_insert_eq, lookup_insert_eq.
        split; [done|]. eapply fseg_frame; [|exact R4]. intros y Hy. unfold wait_of. cbn.
        rewrite lookup_insert_ne; [done|]. by intros ->.
      * by apply list.NoDup_cons.
    + assert (W = []) as -> by (destruct W; [done|]; by pose proof (t_ready _ _ _ _ R ltac:(done))).
      assert (idle_head_ (srv s) = Some w) as E by apply (t_idle _ _ _ _ R). cbn [srv set_waits]. rewrite E. cbn.
      srv_step. unfold pop_resume. srv_step. eapply wp_waiter; [apply lookup_insert_eq|]. srv_step. cbn [wait_w].
      srv_step. eapply idle_pop_wp; [exact R0|]. intros s' R' Hf E1 E2 E3 Hw HI' HA'. eapply wp_deref; [done|]. do 4 srv_step.
      cbn in *. rewrite E1. apply (HA _ w I); try done.
      * apply rep_waits; [done|]. by intros y ?%not_elem_of_nil.
      * destruct Hf. by constructor.
      * cbn. by rewrite delete_insert_id.
Qed.
