(* ===== verification/TcpServerSteps.v ===== *)
(** Sessions of a server: every order in which the executor of the server can
    resume its accept loops and connections, with any answers of the acceptors
    and any behaviour of the workers. *)

From stdpp Require Import gmap.
From S2P Require Import Prelude StateMonad DoublyLinked TcpServer TcpServerSpec.
Import dll tcp_server.

(** * Worlds *)

(** [w_loops] are the loops that have not ended and where they are suspended,
    [w_tasks] the workers whose connection is running and [w_dostops] the
    number of [do_stop] coroutines the executor has not run. *)
Record world := mk_world {
  w_st : st;
  w_loops : gmap nat phase;
  w_tasks : list nat;
  w_dostops : nat
}.

(** The worker a loop has: the one it accepts for or gives back, or the one it
    was given while it waits. *)
Definition held (s : st) (loops : gmap nat phase) (l : nat) : option nat :=
  match loops !! l with
  | Some (Accepting w) | Some (Returning w) => Some w
  | Some Waiting => waits s !! l ≫= wait_w
  | _ => None
  end.

Definition set_phase (l : nat) (ph : phase) (loops : gmap nat phase) : gmap nat phase :=
  if decide (ph = Done) then delete l loops else <[l := ph]> loops.

Definition set_log (e : list effect) (s : st) : st :=
  mk_st (srv s) (ports s) (stop_requested s) (workers s) (stops s) (waits s) e.

Definition launched (e : list effect) : list nat :=
  omap (fun x => match x with Post_worker w => Some w | _ => None end) e.
Definition stop_runs (e : list effect) : nat :=
  length (omap (fun x => match x with Run_stop => Some tt | _ => None end) e).
Definition new_loops (e : list effect) : list nat :=
  omap (fun x => match x with Run_accept l => Some l | _ => None end) e.

(** One step: the user calls the server, or the executor of the server runs a
    coroutine up to its next suspension. *)
Inductive op :=
| T_set_workers (ws : list nat)
| T_bind (ok : bool)
| T_start
| T_stop
| T_do_stop
| T_loop (l : nat) (ec : bool) (u : outcome)
| T_worker_done (w : nat).

(** What is asked of the program: [set_workers] and [bind] while nothing runs,
    and the executor only resumes what can be resumed. *)
Definition allowed (o : op) (w : world) : Prop :=
  match o with
  | T_set_workers ws => w_loops w = ∅ /\ w_tasks w = [] /\ NoDup ws
  | T_bind _ => w_loops w = ∅
  | T_start | T_stop => True
  | T_do_stop => w_dostops w <> O
  | T_loop l _ _ =>
      match w_loops w !! l with
      | None => False
      | Some Waiting => is_Some (held (w_st w) (w_loops w) l)
      | Some _ => True
      end
  | T_worker_done x => x ∈ w_tasks w
  end.

(** The loop [l] runs from where it is suspended. *)
Definition run_loop (ph : phase) (l : nat) (ec : bool) (u : outcome) : SM phase :=
  match ph with
  | Started => accept_top l
  | Waiting => accept_woken l
  | Accepting w => accept_returned l w ec u
  | Returning w => accept_pushed l w
  | Done => fault
  end.

Definition run_op (o : op) (w : world) : SM (gmap nat phase * list nat) :=
  match o with
  | T_set_workers ws => set_workers ws ≫= fun _ => mret (w_loops w, w_tasks w)
  | T_bind ok => bind ok ≫= fun _ => mret (w_loops w, w_tasks w)
  | T_start => start ≫= fun _ => mret (w_loops w, w_tasks w)
  | T_stop => stop ≫= fun _ => mret (w_loops w, w_tasks w)
  | T_do_stop => do_stop ≫= fun _ => mret (w_loops w, w_tasks w)
  | T_loop l ec u =>
      match w_loops w !! l with
      | Some ph => ph' ← run_loop ph l ec u; mret (set_phase l ph' (w_loops w), w_tasks w)
      | None => fault
      end
  | T_worker_done x =>
      worker_done x ≫= fun _ => mret (w_loops w, filter (fun y => y <> x) (w_tasks w))
  end.

Definition advance (o : op) (w : world) (r : gmap nat phase * list nat) (s' : st) : world :=
  mk_world (set_log [] s')
    (foldr (fun l m => <[l := Started]> m) (fst r) (new_loops (log s')))
    (snd r ++ launched (log s'))
    (w_dostops w - match o with T_do_stop => 1 | _ => 0 end + stop_runs (log s')).

Definition initial_world : world := mk_world initial ∅ [] 0.

Inductive treachable : world -> Prop :=
| TR_initial : treachable initial_world
| TR_step w o r s' :
    treachable w -> allowed o w -> run_op o w (w_st w) = Ok (r, s') -> treachable (advance o w r s').

(** * Where the workers are *)

(** Every worker of [D] is in one place: idle, active, or held by one loop. *)
Record places (I A : list nat) (H : nat -> option nat) (D : nat -> Prop) : Prop := {
  pl_known : forall x, x ∈ I \/ x ∈ A -> D x;
  pl_held : forall l x, H l = Some x -> D x /\ x ∉ I /\ x ∉ A;
  pl_one : forall l l' x, H l = Some x -> H l' = Some x -> l = l';
  pl_all : forall x, D x -> x ∈ I \/ x ∈ A \/ exists l, H l = Some x
}.

(** All but one of [D]. *)
Definition but (w : nat) (D : nat -> Prop) (x : nat) : Prop := D x /\ x <> w.

Lemma places_ext I A H H' (D D' : nat -> Prop) :
  (forall l, H' l = H l) -> (forall x, D' x <-> D x) -> places I A H D -> places I A H' D'.
Proof.
  intros HH HD [P1 P2 P3 P4]. constructor.
  - intros x Hx. by apply HD, P1.
  - intros l x. rewrite HH, HD. apply P2.
  - intros l l' x. rewrite !HH. apply P3.
  - intros x. rewrite HD. intros Hx. destruct (P4 x Hx) as [?|[?|[l Hl]]]; [by left|by right; left|].
    right; right. exists l. by rewrite HH.
Qed.

Section moves.
Context (I A : list nat) (H : nat -> option nat) (D : nat -> Prop) (w : nat).

Lemma detach_held l H' :
  places I A H D -> H l = Some w -> H' l = None -> (forall l', l' <> l -> H' l' = H l') ->
  places I A H' (but w D) /\ w ∉ I /\ w ∉ A /\ D w.
Proof.
  intros [P1 P2 P3 P4] Hl Hn Ho. destruct (P2 l w Hl) as (Hw & HI & HA).
  assert (Hb : forall l' x, H' l' = Some x -> H l' = Some x /\ l' <> l).
  { intros l' x Hx. destruct (decide (l' = l)) as [->|Hne]; [congruence|]. by rewrite <- Ho. }
  split; [|done]. constructor.
  - intros x Hx. split; [by apply P1|]. intros ->. tauto.
  - intros l' x [Hx Hne]%Hb. destruct (P2 l' x Hx) as (? & ? & ?). split; [|done]. split; [done|].
    intros ->. by eapply Hne, P3.
  - intros l1 l2 x [H1 _]%Hb [H2 _]%Hb. by eapply P3.
  - intros x [Hx Hne]. destruct (P4 x Hx) as [?|[?|[l' Hl']]]; [by left|by right; left|].
    right; right. exists l'. rewrite Ho; [done|]. intros ->. congruence.
Qed.

Lemma detach_active A' :
  places I A H D -> w ∈ A -> w ∉ I -> without w A A' -> places I A' H (but w D) /\ w ∉ A' /\ D w.
Proof.
  intros [P1 P2 P3 P4] Hw HI HA'. split; [|split; [intros [_ ?]%HA'; done|by apply P1; right]]. constructor.
  - intros x [Hx|Hx].
    + split; [by apply P1; left|]. by intros ->.
    + apply HA' in Hx as [Hx Hne]. split; [by apply P1; right|done].
  - intros l x Hx. destruct (P2 l x Hx) as (? & ? & HA). split; [split; [done|by intros ->]|]. split; [done|].
    intros [? _]%HA'. done.
  - done.
  - intros x [Hx Hne]. destruct (P4 x Hx) as [?|[?|?]]; [by left|right; left; by apply HA'|by right; right].
Qed.

Lemma detach_idle :
  places (w :: I) A H D -> w ∉ I -> w ∉ A -> places I A H (but w D) /\ D w.
Proof.
  intros [P1 P2 P3 P4] HI HA. split; [|apply P1; left; set_solver]. constructor.
  - intros x Hx. split; [apply P1; set_solver|]. intros ->. tauto.
  - intros l x Hx. destruct (P2 l x Hx) as (? & HI2 & ?). split; [split; [done|intros ->; set_solver]|].
    split; [set_solver|done].
  - done.
  - intros x [Hx Hne]. destruct (P4 x Hx) as [?|[?|?]]; [left; set_solver|by right; left|by right; right].
Qed.

Context (P : places I A H (but w D)) (Hw : D w) (HI : w ∉ I) (HA : w ∉ A).

Lemma attach_idle : places (w :: I) A H D.
Proof using All.
  destruct P as [P1 P2 P3 P4]. constructor.
  - intros x [[->|Hx]%elem_of_cons|Hx]; [done|by apply P1; left|by apply P1; right].
  - intros l x Hx. destruct (P2 l x Hx) as ([? ?] & ? & ?). split; [done|]. split; [set_solver|done].
  - done.
  - intros x Hx. destruct (decide (x = w)) as [->|Hne]; [left; set_solver|].
    destruct (P4 x (conj Hx Hne)) as [?|[?|?]]; [left; set_solver|by right; left|by right; right].
Qed.

Lemma attach_active : places I (A ++ [w]) H D.
Proof using All.
  destruct P as [P1 P2 P3 P4]. constructor.
  - intros x [Hx|[Hx| ->%list_elem_of_singleton]%elem_of_app]; [by apply P1; left|by apply P1; right|done].
  - intros l x Hx. destruct (P2 l x Hx) as ([? ?] & ? & ?). split; [done|]. split; [done|set_solver].
  - done.
  - intros x Hx. destruct (decide (x = w)) as [->|Hne]; [right; left; set_solver|].
    destruct (P4 x (conj Hx Hne)) as [?|[?|?]]; [by left|right; left; set_solver|by right; right].
Qed.

Lemma attach_held l H' :
  H l = None -> H' l = Some w -> (forall l', l' <> l -> H' l' = H l') -> places I A H' D.
Proof using All.
  intros Hl Hl' Ho. destruct P as [P1 P2 P3 P4].
  assert (Hb : forall l' x, H' l' = Some x -> l' = l /\ x = w \/ H l' = Some x /\ x <> w).
  { intros l' x Hx. destruct (decide (l' = l)) as [->|Hne]; [left; split; [done|congruence]|right].
    rewrite Ho in Hx by done. split; [done|]. by destruct (P2 l' x Hx) as ([_ ?] & _). }
  constructor.
  - intros x Hx. by apply P1.
  - intros l' x [[-> ->]|[Hx _]]%Hb; [done|]. destruct (P2 l' x Hx) as ([? _] & ? & ?). done.
  - intros l1 l2 x [[-> ->]|[H1 N1]]%Hb [[-> E]|[H2 N2]]%Hb; try congruence. by eapply P3.
  - intros x Hx. destruct (decide (x = w)) as [->|Hne]; [right; right; by exists l|].
    destruct (P4 x (conj Hx Hne)) as [?|[?|[l' H1]]]; [by left|by right; left|].
    right; right. exists l'. rewrite Ho; [done|]. intros ->. congruence.
Qed.
End moves.

(** * The invariant *)

Record binv (I A W : list nat) (s : st) (loops : gmap nat phase) (tasks : list nat) : Prop := {
  b_rep : rep I A W s;
  b_tasks : forall x, x ∈ tasks <-> x ∈ A;
  b_waits : forall l, is_Some (waits s !! l) <-> loops !! l = Some Waiting;
  b_waiting : forall l, l ∈ W <-> exists x, waits s !! l = Some x /\ wait_w x = None;
  b_places : places I A (held s loops) (fun x => is_Some (workers s !! x));
  b_done : forall l, loops !! l <> Some Done
}.

Definition sinv (s : st) (loops : gmap nat phase) (tasks : list nat) : Prop :=
  exists I A W, binv I A W s loops tasks.

(** The counter of [join] and the flags of the session. *)
Record session (s : st) (loops : gmap nat phase) : Prop := {
  se_accepts : active_accepts_ (srv s) = Z.of_nat (size loops);
  se_running : running_ (srv s) = true -> stop_requested s = false;
  se_stopped : running_ (srv s) = false -> loops <> ∅ -> stop_requested s = true
}.

Lemma held_ne s s' loops loops' l :
  loops' !! l = loops !! l -> waits s' !! l = waits s !! l -> held s' loops' l = held s loops l.
Proof. unfold held. by intros -> ->. Qed.

Lemma held_phase s loops l ph :
  held s (<[l := ph]> loops) l = match ph with
                                 | Accepting w | Returning w => Some w
                                 | Waiting => waits s !! l ≫= wait_w
                                 | _ => None
                                 end.
Proof. unfold held. by rewrite lookup_insert_eq. Qed.

(** How many resumptions a loop has left once the server is stopped. *)
Definition rank (ph : phase) : nat :=
  match ph with
  | Waiting => 3
  | Accepting _ => 2
  | Returning _ | Started => 1
  | Done => 0
  end.

(** * The parts of a step *)

(** What a part does beside the lists: the counter goes down with the end of
    the loop, and the launched workers are in the log. *)
Record part (s s' : st) (ended : bool) (launches : list nat) : Prop := {
  p_ports : ports s' = ports s;
  p_stop : stop_requested s' = stop_requested s;
  p_accepts : active_accepts_ (srv s') = active_accepts_ (srv s) - b2z ended;
  p_running : running_ (srv s') = running_ (srv s);
  p_ended : ended = true -> stop_requested s = true;
  p_log : exists e, log s' = log s ++ e /\ launched e = launches /\ new_loops e = [] /\ stop_runs e = O
}.

Lemma part_frame s s' e :
  frame s s' -> log s' = log s ++ e -> new_loops e = [] -> stop_runs e = O -> part s s' false (launched e).
Proof. intros [] El. constructor; try done; [cbn; lia|]. by exists e. Qed.

Lemma part_trans s1 s2 s3 b l1 l2 : part s1 s2 false l1 -> part s2 s3 b l2 -> part s1 s3 b (l1 ++ l2).
Proof.
  intros [A1 A2 A3 A4 A5 (e1 & A6 & A7 & A8 & A9)] [B1 B2 B3 B4 B5 (e2 & B6 & B7 & B8 & B9)].
  constructor; try congruence; [cbn in *; lia|rewrite <- A2; done|]. exists (e1 ++ e2).
  unfold launched, new_loops, stop_runs in *. rewrite !omap_app, length_app, B6, A6, A7, A8, B7, B8, app_assoc.
  split; [done|]. split; [done|]. split; [done|]. lia.
Qed.

Lemma set_phase_ne l ph loops l' : l' <> l -> set_phase l ph loops !! l' = loops !! l'.
Proof. intros H. unfold set_phase. case_decide; [by rewrite lookup_delete_ne|by rewrite lookup_insert_ne]. Qed.

Lemma part_quiet s s' : frame s s' -> log s' = log s -> part s s' false [].
Proof. intros Hf E. apply (part_frame s s' [] Hf); [by rewrite app_nil_r|done|done]. Qed.

Lemma keep_top s loops tasks l :
  sinv s loops tasks -> loops !! l = Some Started ->
  wp (accept_top l) (fun ph s' => sinv s' (set_phase l ph loops) tasks /\
    part s s' (bool_decide (ph = Done)) [] /\ (stop_requested s = true -> ph = Done)) s.
Proof.
  intros (I & A & W & [R B1 B2 B3 B4 B8]) Hl.
  assert (Hwl : waits s !! l = None).
  { destruct (waits s !! l) eqn:E; [|done]. assert (H : is_Some (waits s !! l)) by (by eexists).
    apply B2 in H. congruence. }
  assert (Hhl : held s loops l = None) by (unfold held; by rewrite Hl).
  eapply accept_top_wp; [done|done|..].
  - intros s' Hst R' E1 E2 E3 E4 E5 E6 E7 E8. split.
    2: { split; [|done]. constructor; try done; [congruence|]. eexists. split; [exact E8|]. by destruct (_ =? 0). }
    exists I, A, W. unfold set_phase. rewrite decide_True by done. constructor; rewrite ?E4, ?E5; try done.
    + intros l'. destruct (decide (l' = l)) as [->|Hne]; [|by rewrite lookup_delete_ne].
      rewrite lookup_delete_eq, Hwl. split; [by intros [? ?]|done].
    + refine (places_ext _ _ _ _ _ _ _ _ B4); [|done]. intros l'. destruct (decide (l' = l)) as [->|Hne].
      * rewrite Hhl. unfold held. by rewrite lookup_delete_eq.
      * apply held_ne; [by rewrite lookup_delete_ne|by rewrite E5].
    + intros l' [_ H]%lookup_delete_Some. by apply B8 in H.
  - intros s' w I' Hst -> R' Hf E1 E2 E3 Hw HI HA. split; [|split; [by apply part_quiet|congruence]].
    exists I', A, W. unfold set_phase. rewrite decide_False by done. constructor; rewrite ?E1; try done.
    + intros l'. destruct (decide (l' = l)) as [->|Hne]; [|by rewrite lookup_insert_ne].
      rewrite lookup_insert_eq, Hwl. split; [by intros [? ?]|done].
    + destruct (detach_idle _ _ _ _ _ B4 HI HA) as [P _].
      eapply (places_ext _ _ (held s' (<[l := Accepting w]> loops))); [done|apply Hf|].
      apply (attach_held _ _ _ _ _ P Hw HI HA l); [done|by rewrite held_phase|].
      intros l' Hne. apply held_ne; [by rewrite lookup_insert_ne|by rewrite E1].
    + intros l' [[_ ?]|[_ H]]%lookup_insert_Some; [done|by apply B8 in H].
  - intros s' nx Hst -> R' Hf E1 E2 E3. split; [|split; [by apply part_quiet|congruence]].
    exists [], A, (l :: W). unfold set_phase. rewrite decide_False by done. constructor; rewrite ?E1; try done.
    + intros l'. destruct (decide (l' = l)) as [->|Hne]; [|by rewrite !lookup_insert_ne].
      rewrite !lookup_insert_eq. split; [done|by eexists].
    + intros l'. rewrite elem_of_cons. destruct (decide (l' = l)) as [->|Hne].
      * rewrite lookup_insert_eq. split; [by eexists|by left].
      * rewrite lookup_insert_ne by done. rewrite B3. split; [by intros [?|?]|by right].
    + refine (places_ext _ _ _ _ _ _ _ (f_dom _ _ Hf) B4). intros l'. destruct (decide (l' = l)) as [->|Hne].
      * by rewrite Hhl, held_phase, E1, lookup_insert_eq.
      * apply held_ne; [by rewrite lookup_insert_ne|by rewrite E1, lookup_insert_ne].
    + intros l' [[_ ?]|[_ H]]%lookup_insert_Some; [done|by apply B8 in H].
Qed.

(** A worker that is in no place is given back. *)
Lemma keep_push I A W s loops tasks w :
  rep I A W s ->
  (forall l, is_Some (waits s !! l) <-> loops !! l = Some Waiting) ->
  (forall l, l ∈ W <-> exists x, waits s !! l = Some x /\ wait_w x = None) ->
  (forall l, loops !! l <> Some Done) ->
  is_Some (workers s !! w) -> w ∉ I ->
  (forall A', without w A A' -> places I A' (held s loops) (but w (fun x => is_Some (workers s !! x))) /\ w ∉ A') ->
  (forall x, x ∈ tasks <-> x ∈ A /\ x <> w) ->
  wp (push_sync w) (fun _ s' => sinv s' loops tasks /\ part s s' false []) s.
Proof.
  intros R B2 B3 B8 Hw HI HP Ht. eapply push_sync_wp; [done..| |].
  - intros s' A' l W' nx HW R' HA' Hf E1 E2 E3. destruct (HP A' HA') as [P HwA].
    destruct (proj1 (B3 l)) as (x & Hx & Hxw); [rewrite HW; set_solver|].
    assert (Hll : loops !! l = Some Waiting) by (apply B2; by eexists).
    assert (Hhl : held s loops l = None) by (unfold held; rewrite Hll, Hx; done).
    split; [|by apply (part_frame s s' [Post_waiter l])].
    exists I, A', W'. constructor; rewrite ?E2; try done.
    + intros y. by rewrite Ht, (HA' y).
    + intros l'. rewrite <- B2, lookup_insert_is_Some'. split; [|by right]. intros [->|]; [by eexists|done].
    + intros l'. pose proof (t_wnodup _ _ _ _ R) as Hd. rewrite HW in Hd. apply list.NoDup_cons in Hd as [HlW _].
      destruct (decide (l' = l)) as [->|Hne].
      * rewrite lookup_insert_eq. split; [done|]. by intros (y & [= <-] & ?).
      * rewrite lookup_insert_ne by done. rewrite <- B3, HW, elem_of_cons. split; [by right|]. by intros [?|?].
    + eapply (places_ext _ _ (held s' loops)); [done|apply Hf|].
      apply (attach_held _ _ _ _ _ P Hw HI HwA l); [done| |].
      * unfold held. by rewrite Hll, E2, lookup_insert_eq.
      * intros l' Hne. apply held_ne; [done|]. by rewrite E2, lookup_insert_ne.
  - intros s' A' HW R' HA' Hf E1 E2 E3. destruct (HP A' HA') as [P HwA].
    split; [|by apply part_quiet]. exists (w :: I), A', []. rewrite HW in B3.
    constructor; rewrite ?E2; try done.
    + intros y. by rewrite Ht, (HA' y).
    + eapply (places_ext _ _ (held s loops)); [|apply Hf|by apply attach_idle].
      intros l'. apply held_ne; [done|by rewrite E2].
Qed.

Lemma keep_push_loop s loops tasks l ph w :
  sinv s loops tasks -> loops !! l = Some ph -> ph = Accepting w \/ ph = Returning w ->
  wp (push_sync w) (fun _ s' => sinv s' (<[l := Started]> loops) tasks /\ part s s' false []) s.
Proof.
  intros (I & A & W & [R B1 B2 B3 B4 B8]) Hl Hph.
  assert (Hh : held s loops l = Some w) by (unfold held; rewrite Hl; by destruct Hph as [->| ->]).
  assert (Hnw : ph <> Waiting) by (by destruct Hph as [->| ->]).
  destruct (detach_held _ _ _ _ w l (held s (<[l := Started]> loops)) B4 Hh) as (P & HI & HA & Hw).
  { by rewrite held_phase. }
  { intros l' Hne. apply held_ne; [by rewrite lookup_insert_ne|done]. }
  eapply keep_push; [exact R| |exact B3| |done|done| |].
  - intros l'. rewrite B2. destruct (decide (l' = l)) as [->|Hne]; [|by rewrite lookup_insert_ne].
    rewrite lookup_insert_eq, Hl. split; congruence.
  - intros l' [[_ ?]|[_ H]]%lookup_insert_Some; [done|by apply B8 in H].
  - intros A' HA'. split; [|intros [? _]%HA'; done].
    assert (HAA : forall x, x ∈ A' <-> x ∈ A) by (intros x; rewrite (HA' x); split; [tauto|]; intros Hx; split; [done|by intros ->]).
    destruct P as [P1 P2 P3 P4]. constructor.
    + intros x. rewrite HAA. apply P1.
    + intros l' x Hx. rewrite HAA. by eapply P2.
    + done.
    + intros x. rewrite HAA. apply P4.
  - intros x. rewrite B1. split; [|tauto]. intros Hx. split; [done|by intros ->].
Qed.

Lemma keep_worker_done s loops tasks w :
  sinv s loops tasks -> w ∈ tasks ->
  wp (worker_done w) (fun _ s' => sinv s' loops (filter (fun y => y <> w) tasks) /\ part s s' false []) s.
Proof.
  intros (I & A & W & [R B1 B2 B3 B4 B8]) Hw. apply B1 in Hw.
  assert (HI : w ∉ I).
  { pose proof (t_nodup _ _ _ _ R) as Hd. apply list.NoDup_app in Hd as (_ & Hd & _). intros Hi. by apply (Hd w). }
  unfold worker_done. eapply keep_push; [exact R|done..| |done| |].
  - apply (pl_known _ _ _ _ B4). by right.
  - intros A' HA'. destruct (detach_active _ _ _ _ w A' B4 Hw HI HA') as (P & HwA & _). done.
  - intros x. rewrite list_elem_of_filter, B1. tauto.
Qed.

(** The worker is dispatched. *)
Lemma keep_launch s loops tasks l w :
  sinv s loops tasks -> loops !! l = Some (Accepting w) ->
  wp (launch false (Some w)) (fun _ s' => sinv s' (<[l := Started]> loops) (tasks ++ [w]) /\ part s s' false [w]) s.
Proof.
  intros (I & A & W & [R B1 B2 B3 B4 B8]) Hl.
  assert (Hh : held s loops l = Some w) by (unfold held; by rewrite Hl).
  destruct (detach_held _ _ _ _ w l (held s (<[l := Started]> loops)) B4 Hh) as (P & HI & HA & Hw).
  { by rewrite held_phase. }
  { intros l' Hne. apply held_ne; [by rewrite lookup_insert_ne|done]. }
  unfold launch. srv_step. eapply active_push_wp; [done..|]. intros s' R' Hf E1 E2 E3. do 5 srv_step.
  split; [|by apply (part_frame s _ [Post_worker w]); [destruct Hf; by constructor|cbn; by rewrite E3|..]].
  exists I, (A ++ [w]), W. constructor; cbn; rewrite ?E1; try done.
  - by destruct R'.
  - intros x. rewrite !elem_of_app, B1. done.
  - intros l'. rewrite B2. destruct (decide (l' = l)) as [->|Hne]; [|by rewrite lookup_insert_ne].
    rewrite lookup_insert_eq, Hl. split; congruence.
  - eapply (places_ext _ _ (held s (<[l := Started]> loops))); [|apply Hf|by apply attach_active].
    intros l'. apply held_ne; [done|]. cbn. by rewrite E1.
  - intros l' [[_ ?]|[_ H]]%lookup_insert_Some; [done|by apply B8 in H].
Qed.

Lemma sinv_tasks s loops tasks tasks' :
  (forall x, x ∈ tasks' <-> x ∈ tasks) -> sinv s loops tasks -> sinv s loops tasks'.
Proof.
  intros Ht (I & A & W & []). exists I, A, W. constructor; try done. intros x. by rewrite Ht.
Qed.

Lemma sinv_stops s loops tasks m : sinv s loops tasks -> sinv (set_stops m s) loops tasks.
Proof. intros (I & A & W & [[] B1 B2 B3 B4 B8]). exists I, A, W. by constructor. Qed.

(** Setting up the coroutine throws: the worker was active for a moment. *)
Lemma keep_launch_throws s loops tasks l w :
  sinv s loops tasks -> loops !! l = Some (Accepting w) ->
  wp (launch true (Some w)) (fun _ s' => sinv s' (<[l := Started]> loops) tasks /\ part s s' false []) s.
Proof.
  intros B Hl. destruct B as (I & A & W & [R B1 B2 B3 B4 B8]).
  assert (Hh : held s loops l = Some w) by (unfold held; by rewrite Hl).
  destruct (detach_held _ _ _ _ w l (held s (<[l := Started]> loops)) B4 Hh) as (P & HI & HA & Hw).
  { by rewrite held_phase. }
  { intros l' Hne. apply held_ne; [by rewrite lookup_insert_ne|done]. }
  unfold launch. srv_step. eapply active_push_wp; [done..|]. intros s1 R1 Hf E1 E2 E3. do 3 srv_step.
  assert (Hf' : frame s (set_stops (<[w := false]> (stops s1)) s1)) by (destruct Hf; by constructor).
  eapply wp_mono.
  - eapply (keep_push I (A ++ [w]) W _ (<[l := Started]> loops) tasks w).
    + by destruct R1.
    + intros l'. cbn. rewrite E1, B2. destruct (decide (l' = l)) as [->|Hne]; [|by rewrite lookup_insert_ne].
      rewrite lookup_insert_eq, Hl. split; congruence.
    + cbn. by rewrite E1.
    + intros l' [[_ ?]|[_ H]]%lookup_insert_Some; [done|by apply B8 in H].
    + by apply (f_dom _ _ Hf').
    + done.
    + intros A' HA'. split; [|intros [_ ?]%HA'; done].
      assert (HAA : forall x, x ∈ A' <-> x ∈ A).
      { intros x. rewrite (HA' x). split; [set_solver|]. intros Hx. split; [set_solver|by intros ->]. }
      destruct P as [P1 P2 P3 P4].
      assert (Hheld : forall l', held (set_stops (<[w := false]> (stops s1)) s1) (<[l := Started]> loops) l'
                       = held s (<[l := Started]> loops) l') by (intros l'; apply held_ne; [done|cbn; by rewrite E1]).
      refine (places_ext _ _ _ _ (but w (fun x => is_Some (workers s !! x))) _ Hheld _ _).
      { intros x. unfold but. by rewrite (f_dom _ _ Hf'). }
      constructor.
      * intros x. rewrite HAA. apply P1.
      * intros l' x Hx. rewrite HAA. by eapply P2.
      * done.
      * intros x. rewrite HAA. apply P4.
    + intros x. rewrite B1. split; [|set_solver]. intros Hx. split; [set_solver|by intros ->].
  - intros [] s2 [B' Hp]. srv_step. split; [done|].
    assert (Hp1 : part s (set_stops (<[w := false]> (stops s1)) s1) false []) by (by apply part_quiet).
    by apply (part_trans _ _ _ _ [] [] Hp1).
Qed.

Lemma keep_run s loops tasks l w u :
  sinv s loops tasks -> loops !! l = Some (Accepting w) ->
  wp (run_worker u w) (fun _ s' => exists ls, sinv s' (<[l := Started]> loops) (tasks ++ ls) /\ part s s' false ls) s.
Proof.
  intros B Hl. destruct u; cbn [run_worker].
  - srv_step. eapply wp_mono; [by eapply keep_launch|]. intros b s' [B' Hp]. srv_step. by exists [w].
  - srv_step. eapply wp_mono; [by eapply keep_launch_throws|]. intros b s' [B' Hp]. srv_step. exists [].
    by rewrite app_nil_r.
  - eapply wp_mono; [eapply keep_push_loop; [done|done|by left]|]. intros [] s' [B' Hp]. exists []. by rewrite app_nil_r.
Qed.

Lemma set_phase_insert l ph ph' loops : set_phase l ph' (<[l := ph]> loops) = set_phase l ph' loops.
Proof. unfold set_phase. case_decide; [apply delete_insert_eq|apply insert_insert_eq]. Qed.

(** The top of the loop, after a part that gave its worker away. *)
Lemma keep_top_after s0 s loops tasks l ls :
  sinv s (<[l := Started]> loops) (tasks ++ ls) -> part s0 s false ls ->
  wp (accept_top l) (fun ph s' => exists ls, sinv s' (set_phase l ph loops) (tasks ++ ls) /\
    part s0 s' (bool_decide (ph = Done)) ls /\ (stop_requested s0 = true -> ph = Done)) s.
Proof.
  intros B Hp. eapply wp_mono; [eapply keep_top; [exact B|apply lookup_insert_eq]|].
  intros ph s' (B' & Hp' & Hd). exists ls. rewrite set_phase_insert in B'. split; [done|].
  split; [rewrite <- (app_nil_r ls); by eapply part_trans|]. rewrite <- (p_stop _ _ _ _ Hp). done.
Qed.

Lemma keep_woken s loops tasks l w :
  sinv s loops tasks -> loops !! l = Some Waiting -> held s loops l = Some w ->
  wp (accept_woken l) (fun ph s' => ph = Accepting w /\ sinv s' (set_phase l ph loops) tasks /\
    part s s' (bool_decide (ph = Done)) []) s.
Proof.
  intros (I & A & W & [R B1 B2 B3 B4 B8]) Hl Hh.
  assert (exists x, waits s !! l = Some x /\ wait_w x = Some w) as (x & Hx & Hxw).
  { unfold held in Hh. rewrite Hl in Hh. destruct (waits s !! l) as [x|]; [|done]. by exists x. }
  unfold accept_woken, pop_resume. do 4 srv_step. rewrite Hxw. do 5 srv_step.
  split; [done|]. split; [|by apply part_quiet]. exists I, A, W. unfold set_phase. rewrite decide_False by done.
  constructor; cbn; try done.
  - apply rep_waits; [done|]. intros y Hy. apply lookup_delete_ne. intros ->.
    apply B3 in Hy as (z & Hz & Hzw). congruence.
  - intros l'. destruct (decide (l' = l)) as [->|Hne].
    + rewrite lookup_delete_eq, lookup_insert_eq. split; [by intros [? ?]|done].
    + by rewrite lookup_delete_ne, lookup_insert_ne.
  - intros l'. rewrite B3. destruct (decide (l' = l)) as [->|Hne]; [|by rewrite lookup_delete_ne].
    rewrite lookup_delete_eq. split; [|by intros (? & ? & _)]. intros (z & Hz & Hzw). congruence.
  - refine (places_ext _ _ _ _ _ _ _ (fun _ => iff_refl _) B4). intros l'. destruct (decide (l' = l)) as [->|Hne].
    + by rewrite held_phase, Hh.
    + apply held_ne; [by rewrite lookup_insert_ne|by cbn; rewrite lookup_delete_ne].
  - intros l' [[_ ?]|[_ H]]%lookup_insert_Some; [done|by apply B8 in H].
Qed.

(** A loop runs to its next suspension. *)
Lemma keep_loop s loops tasks l ph ec u :
  sinv s loops tasks -> loops !! l = Some ph -> (ph = Waiting -> is_Some (held s loops l)) ->
  wp (run_loop ph l ec u) (fun ph' s' => exists ls, sinv s' (set_phase l ph' loops) (tasks ++ ls) /\
    part s s' (bool_decide (ph' = Done)) ls /\ (stop_requested s = true -> (rank ph' < rank ph)%nat)) s.
Proof.
  intros B Hl Hh. destruct ph as [| |w|w|]; cbn [run_loop].
  - eapply wp_mono; [by apply keep_top|]. intros ph s' (B' & Hp & Hd). exists []. rewrite app_nil_r.
    split; [done|]. split; [done|]. intros Hs. rewrite (Hd Hs). cbn. lia.
  - destruct (Hh eq_refl) as [w Hw]. eapply wp_mono; [by eapply keep_woken|]. intros ph s' (-> & B' & Hp). exists [].
    rewrite app_nil_r. split; [done|]. split; [done|]. cbn. lia.
  - unfold accept_returned. srv_step.
    + srv_step. exists []. rewrite app_nil_r. split; [|split; [by apply part_quiet; [apply server_frame_refl|]|cbn; lia]].
      destruct B as (I & A & W & [R B1 B2 B3 B4 B8]). exists I, A, W. unfold set_phase. rewrite decide_False by done.
      constructor; try done.
      * intros l'. rewrite B2. destruct (decide (l' = l)) as [->|Hne]; [|by rewrite lookup_insert_ne].
        rewrite lookup_insert_eq, Hl. split; congruence.
      * refine (places_ext _ _ _ _ _ _ _ (fun _ => iff_refl _) B4). intros l'. destruct (decide (l' = l)) as [->|Hne].
        -- rewrite held_phase. unfold held. by rewrite Hl.
        -- apply held_ne; [by rewrite lookup_insert_ne|done].
      * intros l' [[_ ?]|[_ H]]%lookup_insert_Some; [done|by apply B8 in H].
    + srv_step. eapply wp_mono; [by eapply keep_run|]. intros [] s1 (ls & B1 & Hp).
      eapply wp_mono; [by eapply keep_top_after|]. intros ph s' (ls' & B' & Hp' & Hd). exists ls'.
      split; [done|]. split; [done|]. intros Hs. rewrite (Hd Hs). cbn. lia.
  - unfold accept_pushed. srv_step. eapply wp_mono; [eapply keep_push_loop; [done|done|by right]|].
    intros [] s1 [B1 Hp]. eapply wp_mono; [apply (keep_top_after s s1 loops tasks l []); [by rewrite app_nil_r|done]|].
    intros ph s' (ls' & B' & Hp' & Hd). exists ls'. split; [done|]. split; [done|]. intros Hs. rewrite (Hd Hs). cbn. lia.
  - destruct B as (I & A & W & []). by apply b_done0 in Hl.
Qed.

(** * Sessions *)

Lemma start_wp s (Q : bool -> st -> Prop) :
  (running_ (srv s) = true -> Q true s) ->
  (running_ (srv s) = false -> active_accepts_ (srv s) <> 0 -> Q false s) ->
  (running_ (srv s) = false -> active_accepts_ (srv s) = 0 ->
     Q true (mk_st (mk_server (waiters_ (srv s)) (idle_head_ (srv s)) (active_head_ (srv s)) (active_tail_ (srv s))
                      (Z.of_nat (ports s)) true) (ports s) false (workers s) (stops s) (waits s)
               (log s ++ map Run_accept (seq 0 (ports s))))) ->
  wp start Q s.
Proof.
  intros H1 H2 H3. unfold start. do 2 srv_step. srv_step; [srv_step; auto|].
  destruct (Z.eqb_spec (active_accepts_ (srv s)) 0) as [E|E]; cbn [negb]; [|srv_step; auto].
  do 7 srv_step. specialize (H3 eq_refl E). cbn.
  assert (Hl : forall l s1 (Q1 : unit -> st -> Prop),
    Q1 tt (mk_st (srv s1) (ports s1) (stop_requested s1) (workers s1) (stops s1) (waits s1) (log s1 ++ map Run_accept l)) ->
    wp (foldr (fun l m => emit (Run_accept l) ≫= fun _ => m) skip l) Q1 s1).
  { clear. induction l as [|x l IH]; intros s1 Q1 HQ; cbn [foldr].
    - srv_step. cbn in HQ. rewrite app_nil_r in HQ. by destruct s1.
    - do 2 srv_step. apply IH. cbn. by rewrite <- app_assoc. }
  apply Hl. srv_step. exact H3.
Qed.

Lemma stop_workers_wp l : forall fuel p o s,
  seg (workers s) p o l None -> (length l < fuel)%nat ->
  wp (stop_workers fuel o) (fun _ s' => exists m, s' = set_stops m s /\
    (forall w, w ∈ l -> m !! w = Some true) /\ forall w, w ∉ l -> m !! w = stops s !! w) s.
Proof.
  induction l as [|x l IH]; intros fuel p o s Hc Hf; (destruct fuel as [|fuel]; [cbn in Hf; lia|]).
  - cbn in Hc. subst o. cbn [stop_workers]. srv_step. exists (stops s). split; [by destruct s|].
    split; [by intros ? ?%not_elem_of_nil|done].
  - destruct Hc as (-> & k & Hk & _ & Hc). cbn [stop_workers]. do 3 srv_step. eapply wp_link; [exact Hk|].
    eapply wp_mono; [apply (IH fuel (Some x) (next k)); [exact Hc|cbn in Hf; lia]|].
    intros [] s' (m & -> & H1 & H2). exists m. split; [done|]. split.
    + intros w Hw. destruct (decide (w ∈ l)) as [Hl|Hl]; [by apply H1|]. rewrite H2 by done. cbn.
      apply elem_of_cons in Hw as [->|?]; [apply lookup_insert_eq|done].
    + intros w Hw. rewrite H2 by set_solver. cbn. apply lookup_insert_ne. set_solver.
Qed.

Lemma active_bound I A W s : rep I A W s -> (length A <= size (workers s))%nat.
Proof.
  intros R. rewrite <- (size_dom (workers s)). pose proof (t_nodup _ _ _ _ R) as Hd.
  apply list.NoDup_app in Hd as (_ & _ & Hd). rewrite <- (size_list_to_set (C := gset nat)) by done.
  apply subseteq_size. intros x Hx%elem_of_list_to_set. apply elem_of_dom.
  eapply seg_member; [apply R|done].
Qed.

Lemma do_stop_wp I A W s :
  rep I A W s -> wp do_stop (fun _ s' => exists m, s' = set_stops m s /\
    (forall w, w ∈ A -> m !! w = Some true) /\ forall w, w ∉ A -> m !! w = stops s !! w) s.
Proof.
  intros R. unfold do_stop. do 2 srv_step. eapply stop_workers_wp; [apply R|].
  pose proof (active_bound _ _ _ _ R). lia.
Qed.

Lemma foldr_insert_lookup {A} (a : A) ws (m : gmap nat A) x :
  foldr (fun w m => <[w := a]> m) m ws !! x = if decide (x ∈ ws) then Some a else m !! x.
Proof.
  induction ws as [|w ws IH]; cbn [foldr].
  - rewrite decide_False by (by intros ?%not_elem_of_nil). done.
  - rewrite lookup_insert, IH. destruct (decide (w = x)) as [->|Hne].
    + rewrite decide_True by set_solver. done.
    + destruct (decide (x ∈ ws)); [rewrite decide_True by set_solver|rewrite decide_False by set_solver]; done.
Qed.

Lemma foldr_insert_size {A} (a : A) ws : NoDup ws -> size (foldr (fun w m => <[w := a]> m) (∅ : gmap nat A) ws) = length ws.
Proof.
  induction 1 as [|w ws Hw Hd IH]; cbn [foldr]; [apply map_size_empty|].
  rewrite map_size_insert_None; [cbn; by rewrite IH|]. by rewrite foldr_insert_lookup, decide_False.
Qed.

(** The new workers become idle one after the other. *)
Lemma idle_all_wp ws : forall I s (Q : unit -> st -> Prop),
  rep I [] [] s -> NoDup ws -> (forall x, x ∈ ws -> is_Some (workers s !! x) /\ x ∉ I) ->
  (forall s' I', rep I' [] [] s' -> (forall x, x ∈ I' <-> x ∈ ws \/ x ∈ I) -> frame s s' -> waits s' = waits s ->
     log s' = log s -> Q tt s') ->
  wp (foldr (fun w m => idle_push w ≫= fun _ => m) skip ws) Q s.
Proof.
  induction ws as [|w ws IH]; intros I s Q R Hd Hws HQ; cbn [foldr].
  - srv_step. apply (HQ s I); try done. set_solver.
  - apply list.NoDup_cons in Hd as [Hw Hd]. destruct (Hws w) as [Hk HI]; [set_solver|].
    srv_step. eapply idle_push_wp; [done..|by intros ?%not_elem_of_nil|]. intros s1 R1 Hf E1 E2 E3.
    eapply (IH (w :: I)); [done|done| |].
    + intros x Hx. destruct (Hws x) as [Hkx HIx]; [set_solver|]. split; [by apply (f_dom _ _ Hf)|set_solver].
    + intros s2 I2 R2 H2 Hf2 E4 E5. apply (HQ s2 I2); try congruence; [|by eapply server_frame_trans].
      intros x. rewrite H2. set_solver.
Qed.

Lemma set_workers_wp ws s (Q : unit -> st -> Prop) :
  waiters_ (srv s) = None -> NoDup ws ->
  (forall s' I', rep I' [] [] s' -> (forall x, x ∈ I' <-> x ∈ ws) -> waits s' = waits s -> log s' = log s ->
     (forall x, is_Some (workers s' !! x) <-> x ∈ ws) -> ports s' = ports s -> stop_requested s' = stop_requested s ->
     active_accepts_ (srv s') = active_accepts_ (srv s) -> running_ (srv s') = running_ (srv s) -> Q tt s') ->
  wp (set_workers ws) Q s.
Proof.
  intros HW Hd HQ. unfold set_workers. do 6 srv_step.
  assert (Hlook := fun x => foldr_insert_lookup (mk_link None None) ws (∅ : links) x).
  eapply (idle_all_wp ws []); [|done| |].
  - constructor; try done; cbn; [by constructor|by constructor|].
    intros w k. rewrite Hlook. case_decide; [|done]. by intros [= <-].
  - intros x Hx. cbn. rewrite Hlook, decide_True by done. split; [by eexists|by intros ?%not_elem_of_nil].
  - intros s' I' R' H' Hf E1 E2. apply (HQ s' I'); try done.
    + intros x. rewrite H'. split; [|by left]. intros [?|?%not_elem_of_nil]; done.
    + intros x. rewrite (f_dom _ _ Hf). cbn. rewrite Hlook. case_decide; [by split; [|eexists]|].
      rewrite lookup_empty. split; [by intros [? ?]|done].
    + apply Hf.
    + apply Hf.
    + apply Hf.
    + apply Hf.
Qed.

(** * Every step *)

Record winv (w : world) : Prop := {
  wi_log : log (w_st w) = [];
  wi_inv : sinv (w_st w) (w_loops w) (w_tasks w);
  wi_session : session (w_st w) (w_loops w)
}.

Lemma server_set_log s loops tasks e : sinv s loops tasks -> sinv (set_log e s) loops tasks.
Proof. intros (I & A & W & [[] B1 B2 B3 B4 B8]). exists I, A, W. by constructor. Qed.

Lemma session_set_log s loops e : session s loops -> session (set_log e s) loops.
Proof. by intros []. Qed.

Lemma winv_initial : winv initial_world.
Proof.
  constructor; [done| |].
  - exists [], [], []. constructor; try done.
    + constructor; try done; constructor.
    + intros l. cbn. rewrite lookup_empty. split; [by intros [? ?]|done].
    + intros l. split; [by intros ?%not_elem_of_nil|]. by intros (x & Hx & _).
    + constructor; try done.
      * by intros x [?%not_elem_of_nil|?%not_elem_of_nil].
      * intros x [k Hk]. done.
  - by constructor.
Qed.

(** A part of a loop, from the point of view of the session. *)
Lemma session_part s s' loops l ph ph' ls :
  session s loops -> loops !! l = Some ph -> part s s' (bool_decide (ph' = Done)) ls ->
  session s' (set_phase l ph' loops).
Proof.
  intros [S1 S2 S3] Hl [P1 P2 P3 P4 P5 _].
  assert (Hne : loops <> ∅) by (intros ->; done).
  assert (Hsz : (0 < size loops)%nat).
  { destruct (size loops) eqn:E; [|lia]. by apply map_size_empty_inv in E. }
  constructor.
  - rewrite P3, S1. unfold set_phase. destruct (decide (ph' = Done)) as [E|E].
    + rewrite bool_decide_eq_true_2, map_size_delete_Some by (done || by eexists). cbn. lia.
    + rewrite bool_decide_eq_false_2, map_size_insert_Some by (done || by eexists). cbn. lia.
  - by rewrite P2, P4.
  - rewrite P2, P4. auto.
Qed.

(** A part outside the loops. *)
Lemma session_quiet s s' loops ls : session s loops -> part s s' false ls -> session s' loops.
Proof. intros [S1 S2 S3] [P1 P2 P3 P4 P5 _]. constructor; rewrite ?P2, ?P4; try done. rewrite P3, S1. cbn. lia. Qed.

Lemma server_advance o w s' loops tasks ls :
  sinv s' loops (tasks ++ ls) -> session s' loops ->
  (exists e, log s' = log (w_st w) ++ e /\ launched e = ls /\ new_loops e = [] /\ stop_runs e = O) ->
  log (w_st w) = [] -> winv (advance o w (loops, tasks) s').
Proof.
  intros B S (e & E & E1 & E2 & E3) E0. rewrite E0 in E. cbn in E. unfold advance. rewrite E, E1, E2. cbn.
  constructor; [done|by apply server_set_log|by apply session_set_log].
Qed.

Lemma winv_quiet o w s' ls tasks :
  winv w -> sinv s' (w_loops w) (tasks ++ ls) -> part (w_st w) s' false ls ->
  winv (advance o w (w_loops w, tasks) s').
Proof.
  intros [El _ S] B Hp. eapply server_advance; [exact B|by eapply session_quiet|apply Hp|done].
Qed.

Lemma sinv_no_loops s tasks : sinv s ∅ tasks -> waits s = ∅ /\ waiters_ (srv s) = None.
Proof.
  intros (I & A & W & [R B1 B2 B3 B4 B8]).
  assert (Hw : waits s = ∅).
  { apply map_eq. intros l. rewrite lookup_empty. destruct (waits s !! l) eqn:E; [|done].
    assert (H : is_Some (waits s !! l)) by (by eexists). by apply B2 in H. }
  split; [done|]. pose proof (t_waiters _ _ _ _ R) as H. destruct W as [|l W]; [done|].
  destruct (proj1 (B3 l)) as (x & Hx & _); [set_solver|]. by rewrite Hw in Hx.
Qed.

Lemma keep_set_workers w ws :
  winv w -> allowed (T_set_workers ws) w ->
  wp (set_workers ws) (fun _ s' => winv (advance (T_set_workers ws) w (w_loops w, w_tasks w) s')) (w_st w).
Proof.
  intros [El B S] (Hl & Ht & Hd). rewrite Hl in *. destruct (sinv_no_loops _ _ B) as [Hw Hws].
  eapply set_workers_wp; [done|done|]. intros s' I' R' HI' E1 E2 Hdom E3 E4 E5 E6.
  eapply (server_advance _ _ _ _ _ []); [| |exists []; by rewrite E2, El|done].
  - rewrite Ht. exists I', [], []. rewrite Hw in E1. constructor; try done.
    + intros l. rewrite E1, !lookup_empty. split; [by intros [? ?]|done].
    + intros l. rewrite E1. split; [by intros ?%not_elem_of_nil|]. by intros (x & Hx & _).
    + assert (Hn : forall l, held s' ∅ l = None) by (intros l; unfold held; by rewrite lookup_empty).
      constructor.
      * intros x [Hx|Hx]; [by apply Hdom, HI'|by apply not_elem_of_nil in Hx].
      * intros l x. by rewrite Hn.
      * intros l l' x. by rewrite Hn.
      * intros x Hx%Hdom. left. by apply HI'.
  - destruct S as [S1 S2 S3]. constructor; rewrite ?E4, ?E5, ?E6; done.
Qed.

Lemma new_loops_map l : new_loops (map Run_accept l) = l.
Proof. unfold new_loops. induction l as [|x l IH]; [done|]. cbn. by f_equal. Qed.

Lemma keep_session_start w :
  winv w -> wp start (fun _ s' => winv (advance T_start w (w_loops w, w_tasks w) s')) (w_st w).
Proof.
  intros [El B S]. apply start_wp.
  - intros Hr. apply (winv_quiet _ _ _ []); [by constructor|by rewrite app_nil_r|by apply part_quiet; [apply server_frame_refl|]].
  - intros _ _. apply (winv_quiet _ _ _ []); [by constructor|by rewrite app_nil_r|by apply part_quiet; [apply server_frame_refl|]].
  - intros Hr Ha. assert (Hl : w_loops w = ∅).
    { apply map_size_empty_inv. pose proof (se_accepts _ _ S). lia. }
    destruct (sinv_no_loops (w_st w) (w_tasks w)) as [Hw _]; [by rewrite <- Hl|].
    destruct B as (I & A & W & [R B1 B2 B3 B4 B8]). rewrite Hl in *. unfold advance. cbn [log]. rewrite El. cbn [app].
    rewrite new_loops_map. assert (Hla : launched (map Run_accept (seq 0 (ports (w_st w)))) = []).
    { generalize 0%nat. generalize (ports (w_st w)). induction n as [|n IH]; intros k; [done|]. cbn. apply IH. }
    rewrite Hla, app_nil_r. set (loops' := foldr (fun l (m : gmap nat phase) => <[l := Started]> m) ∅ (seq 0 (ports (w_st w)))).
    assert (Hlook : forall l, loops' !! l = if decide (l ∈ seq 0 (ports (w_st w))) then Some Started else None).
    { intros l. unfold loops'. rewrite (foldr_insert_lookup Started). by rewrite lookup_empty. }
    constructor; cbn; [done| |].
    + exists I, A, W. constructor; cbn; try done.
      * by destruct R.
      * intros l. rewrite Hw, lookup_empty, Hlook. case_decide; (split; [by intros [? ?]|done]).
      * refine (places_ext _ _ _ _ _ _ _ (fun _ => iff_refl _) B4).
        intros l. unfold held. rewrite lookup_empty, Hlook. by case_decide.
      * intros l. rewrite Hlook. by case_decide.
    + constructor; cbn; [|done|done]. unfold loops'. rewrite foldr_insert_size, length_seq; [done|apply NoDup_seq].
Qed.

Lemma keep_stop w :
  winv w -> wp stop (fun _ s' => winv (advance T_stop w (w_loops w, w_tasks w) s')) (w_st w).
Proof.
  intros [El B S]. unfold stop. do 2 srv_step. srv_step.
  - srv_step. apply (winv_quiet _ _ _ []); [by constructor|by rewrite app_nil_r|by apply part_quiet; [apply server_frame_refl|]].
  - apply negb_false_iff in Heqb. do 5 srv_step. unfold advance. cbn. rewrite El. cbn. rewrite app_nil_r.
    constructor; cbn; [done| |].
    + destruct B as (I & A & W & [R B1 B2 B3 B4 B8]). exists I, A, W. constructor; try done. by destruct R.
    + destruct S as [S1 S2 S3]. by constructor.
Qed.

Lemma keep_do_stop w :
  winv w -> wp do_stop (fun _ s' => winv (advance T_do_stop w (w_loops w, w_tasks w) s') /\
    (forall x, x ∈ w_tasks w -> stops s' !! x = Some true)) (w_st w).
Proof.
  intros V. pose proof (wi_inv _ V) as (I & A & W & B). pose proof B as [R B1 _ _ _ _].
  eapply wp_mono; [by eapply do_stop_wp|]. intros [] s' (m & -> & H1 & H2). split.
  - apply (winv_quiet _ _ _ []); [done| |by apply part_quiet].
    rewrite app_nil_r. apply sinv_stops. by exists I, A, W.
  - intros x Hx. by apply H1, B1.
Qed.

Lemma server_step_ok w o :
  winv w -> allowed o w ->
  wp (run_op o w) (fun r s' => winv (advance o w r s')) (w_st w).
Proof.
  intros V Ha. destruct o; cbn [run_op].
  - srv_step. eapply wp_mono; [by apply keep_set_workers|]. intros [] s' V'. by srv_step.
  - unfold bind. srv_step. srv_step. pose proof V as [El B S]. cbn [allowed] in Ha.
    assert (Hb : forall s', workers s' = workers (w_st w) -> srv s' = srv (w_st w) -> waits s' = waits (w_st w) ->
      stop_requested s' = stop_requested (w_st w) -> log s' = log (w_st w) ->
      winv (advance (T_bind ok) w (w_loops w, w_tasks w) s')).
    { intros s' E1 E2 E3 E4 E5. eapply (server_advance _ _ _ _ _ []); [| |exists []; by rewrite E5, app_nil_r|done].
      - rewrite app_nil_r. destruct B as (I & A & W & [[T1 T2 T3 T4 T5 T6 T7 T8] B1 B2 B3 B4 B8]). exists I, A, W.
        assert (En : forall x, next_of s' x = next_of (w_st w) x) by (intros x; unfold next_of; by rewrite E1).
        assert (Ew : forall x, wait_of s' x = wait_of (w_st w) x) by (intros x; unfold wait_of; by rewrite E3).
        constructor; rewrite ?E3; try done.
        + constructor; rewrite ?E1, ?E2; try done; (eapply fseg_frame; [intros x _; apply En || apply Ew|done]).
        + rewrite E1. refine (places_ext _ _ _ _ _ _ _ (fun _ => iff_refl _) B4).
          intros l. apply held_ne; [done|by rewrite E3].
      - destruct S as [S1 S2 S3]. by constructor; rewrite ?E2, ?E4. }
    destruct ok; srv_step; srv_step; srv_step; by apply Hb.
  - srv_step. eapply wp_mono; [by apply keep_session_start|]. intros b s' V'. by srv_step.
  - srv_step. eapply wp_mono; [by apply keep_stop|]. intros [] s' V'. by srv_step.
  - srv_step. eapply wp_mono; [by apply keep_do_stop|]. intros [] s' [V' _]. by srv_step.
  - cbn [allowed] in Ha. destruct (w_loops w !! l) as [ph|] eqn:Hl; [|done]. srv_step.
    pose proof V as [El B S]. eapply wp_mono; [eapply keep_loop; [exact B|exact Hl|by intros ->]|].
    intros ph' s' (ls & B' & Hp & _). srv_step.
    eapply server_advance; [exact B'|by eapply session_part|apply Hp|done].
  - srv_step. pose proof V as [El B S]. eapply wp_mono; [by eapply keep_worker_done|].
    intros [] s' [B' Hp]. srv_step. eapply (winv_quiet _ _ _ []); [done|by rewrite app_nil_r|done].
Qed.

Lemma treachable_inv w : treachable w -> winv w.
Proof.
  induction 1 as [|w o r s' _ IH Ha Hrun]; [apply winv_initial|].
  pose proof (server_step_ok w o IH Ha) as H. unfold wp in H. by rewrite Hrun in H.
Qed.

(** * Running programs *)

#[export] Instance server_allowed_dec o w : Decision (allowed o w).
Proof.
  destruct o; cbn [allowed]; try apply _. destruct (w_loops w !! l) as [ph|]; [|apply _].
  destruct ph; apply _.
Defined.

Fixpoint performs (l : list op) (w : world) : option world :=
  match l with
  | [] => Some w
  | o :: l =>
      if decide (allowed o w) then
        match run_op o w (w_st w) with
        | Ok (r, s') => performs l (advance o w r s')
        | _ => None
        end
      else None
  end.

Lemma server_performs l : forall w w', treachable w -> performs l w = Some w' -> treachable w'.
Proof.
  induction l as [|o l IH]; intros w w' Hw; cbn; [by intros [= <-]|].
  destruct (decide (allowed o w)) as [Ha|]; [|done].
  destruct (run_op o w (w_st w)) as [[r s']| |] eqn:E; [|done..]. apply IH. by eapply TR_step.
Qed.
