(* ===== verification/TcpServerClaims.v ===== *)
(** What the server promises: no worker is lost or used twice, no accept loop
    waits while a worker is free, and a stopped server can be joined. *)

From stdpp Require Import gmap.
From S2P Require Import Prelude StateMonad DoublyLinked TcpServer TcpServerSpec TcpServerSteps.
Import dll tcp_server.

(** C14: However connections arrive, fail and end, no worker is lost or used
    twice: in every reachable state each worker is in exactly one place, on the
    idle list, on the active list with its connection running, or held by
    exactly one accept loop; both lists are well linked through the shared
    pointers of the workers, so the list a worker is on is the list the
    pointers of the server lead to. *)
Theorem server_workers_conserved w :
  treachable w ->
  exists I A, NoDup (I ++ A) /\
    fseg (next_of (w_st w)) (idle_head_ (srv (w_st w))) I /\
    chain (workers (w_st w)) (active_head_ (srv (w_st w))) A /\
    active_tail_ (srv (w_st w)) = last_of None A /\
    (forall x, x ∈ A <-> x ∈ w_tasks w) /\
    (forall x, is_Some (workers (w_st w) !! x) <->
       x ∈ I \/ x ∈ A \/ exists l, held (w_st w) (w_loops w) l = Some x) /\
    (forall l x, held (w_st w) (w_loops w) l = Some x -> x ∉ I /\ x ∉ A) /\
    (forall l l' x, held (w_st w) (w_loops w) l = Some x -> held (w_st w) (w_loops w) l' = Some x -> l = l').
Proof.
  intros [_ (I & A & W & [R B1 B2 B3 [P1 P2 P3 P4] B8]) _]%treachable_inv. exists I, A.
  split; [apply R|]. split; [apply R|]. split; [apply R|]. split; [apply R|].
  split; [intros x; by rewrite B1|]. split; [|split; [|done]].
  - intros x. split; [apply P4|]. intros [Hx|[Hx|[l Hl]]]; [by apply P1; left|by apply P1; right|by destruct (P2 l x Hl)].
  - intros l x Hl. by destruct (P2 l x Hl) as (_ & ? & ?).
Qed.

(** C15: No accept loop waits while a worker is free: when a loop waits for a
    worker and has not been given one, the idle list is empty and every worker
    handles a connection or is held by a loop; and every loop that is suspended
    elsewhere, or has been given a worker, can be resumed. *)
Theorem no_idle_worker_while_loop_waits w l ph :
  treachable w -> w_loops w !! l = Some ph ->
  (forall ec u, allowed (T_loop l ec u) w) \/
  (idle_head_ (srv (w_st w)) = None /\
   forall x, is_Some (workers (w_st w) !! x) ->
     x ∈ w_tasks w \/ exists l', l' <> l /\ held (w_st w) (w_loops w) l' = Some x).
Proof.
  intros [_ (I & A & W & [R B1 B2 B3 [P1 P2 P3 P4] B8]) _]%treachable_inv Hl.
  destruct (held (w_st w) (w_loops w) l) as [x|] eqn:Hh; [left|].
  { intros ec u. cbn. rewrite Hl, Hh. by destruct ph. }
  destruct (decide (ph = Waiting)) as [->|Hne]; [right|left; intros ec u; cbn; rewrite Hl; by destruct ph].
  assert (HlW : l ∈ W).
  { apply B3. assert (Hs : is_Some (waits (w_st w) !! l)) by (by apply B2). destruct Hs as [x Hx]. exists x.
    split; [done|]. unfold held in Hh. rewrite Hl, Hx in Hh. exact Hh. }
  assert (HI : I = []) by (apply (t_ready _ _ _ _ R); intros ->; by apply not_elem_of_nil in HlW).
  split; [pose proof (t_idle _ _ _ _ R) as H; rewrite HI in H; exact H|].
  intros x Hx. destruct (P4 x Hx) as [Hi|[Ha|[l' Hl']]].
  - rewrite HI in Hi. by apply not_elem_of_nil in Hi.
  - left. by apply B1.
  - right. exists l'. split; [|done]. intros ->. congruence.
Qed.

(** C16: Once the server is stopped every accept loop ends: each resumption of a
    loop brings it closer to its end, which it reaches after at most three, and
    a loop that ends takes itself off the counter; the counter [join] waits for
    is the number of loops that have not ended, so [join] returns exactly when
    all of them have.  The [run] of a worker lets no exception out. *)
Theorem stopped_loops_end w l ph ec u :
  treachable w -> w_loops w !! l = Some ph -> allowed (T_loop l ec u) w ->
  stop_requested (w_st w) = true ->
  (exists ph' s', run_loop ph l ec u (w_st w) = Ok (ph', s') /\ (rank ph' < rank ph <= 3)%nat /\
     active_accepts_ (srv s') = Z.of_nat (size (set_phase l ph' (w_loops w)))) /\
  (joined (w_st w) = true <-> w_loops w = ∅).
Proof.
  intros V%treachable_inv Hl Ha Hs. pose proof V as [_ B S]. cbn [allowed] in Ha. rewrite Hl in Ha. split.
  - assert (Hw : ph = Waiting -> is_Some (held (w_st w) (w_loops w) l)) by (by intros ->).
    pose proof (keep_loop _ _ _ l ph ec u B Hl Hw) as Hk. apply wp_ok in Hk as (ph' & s' & Hrun & ls & B' & Hp & Hr).
    exists ph', s'. split; [done|]. split; [split; [by apply Hr|destruct ph; cbn; lia]|].
    by apply (se_accepts _ _ (session_part _ _ _ _ _ _ _ S Hl Hp)).
  - unfold joined. rewrite (se_accepts _ _ S), Z.eqb_eq. split.
    + intros E. apply map_size_empty_inv. lia.
    + intros ->. by rewrite map_size_empty.
Qed.

(** The server never follows a pointer to a worker or waiter that is not
    there and its walks terminate: every call of the user and every resumption
    by the executor returns normally from every reachable state. *)
Theorem server_never_faults w o :
  treachable w -> allowed o w -> exists r s', run_op o w (w_st w) = Ok (r, s').
Proof.
  intros V%treachable_inv Ha. pose proof (server_step_ok w o V Ha) as H.
  apply wp_ok in H as (r & s' & H & _). by exists r, s'.
Qed.

(** [start] on a running server does nothing; on a stopped one it throws
    exactly when a loop of the previous session has not ended, and otherwise
    launches one loop for each bound port with a fresh stop source.  [stop]
    followed by the coroutine it launches requests the stop token of every
    worker whose connection is running at that time. *)
Theorem sessions_start_and_stop w :
  treachable w ->
  (exists b s', start (w_st w) = Ok (b, s') /\
     (running_ (srv (w_st w)) = true -> b = true /\ s' = w_st w) /\
     (running_ (srv (w_st w)) = false -> b = bool_decide (w_loops w = ∅)) /\
     (b = false -> s' = w_st w) /\
     (running_ (srv (w_st w)) = false -> b = true ->
        running_ (srv s') = true /\ stop_requested s' = false /\
        log s' = map Run_accept (seq 0 (ports (w_st w))))) /\
  (exists s', do_stop (w_st w) = Ok (tt, s') /\ forall x, x ∈ w_tasks w -> stops s' !! x = Some true).
Proof.
  intros V%treachable_inv. pose proof V as [El B S]. split.
  - assert (Hwp : wp start (fun b s' =>
      (running_ (srv (w_st w)) = true -> b = true /\ s' = w_st w) /\
      (running_ (srv (w_st w)) = false -> b = bool_decide (w_loops w = ∅)) /\
      (b = false -> s' = w_st w) /\
      (running_ (srv (w_st w)) = false -> b = true ->
         running_ (srv s') = true /\ stop_requested s' = false /\
         log s' = map Run_accept (seq 0 (ports (w_st w))))) (w_st w)).
    { pose proof (se_accepts _ _ S) as Hacc. apply start_wp.
      - intros Hr. rewrite Hr. done.
      - intros Hr Hne. rewrite Hr. split; [done|]. split; [|done]. intros _.
        rewrite bool_decide_eq_false_2; [done|]. intros E. rewrite E, map_size_empty in Hacc. done.
      - intros Hr Hz. rewrite Hr. split; [done|]. split; [|split; [done|intros _ _; cbn; by rewrite El]]. intros _.
        rewrite bool_decide_eq_true_2; [done|]. apply map_size_empty_inv. lia. }
    apply wp_ok in Hwp as (b & s' & Hrun & H). by exists b, s'.
  - pose proof (keep_do_stop w V) as Hwp. apply wp_ok in Hwp as ([] & s' & Hrun & _ & H). by exists s'.
Qed.

(** * A session *)

(** One port and two workers: a connection is accepted and its worker runs, the
    next accept fails, the server is stopped while the loop accepts again. *)
Definition session_ops : list op :=
  [T_set_workers [1%nat; 2%nat]; T_bind true; T_start; T_loop 0 false Launched;
   T_loop 0 false Launched; T_loop 0 true Launched; T_loop 0 false Launched; T_stop].

Definition session_world : world := default initial_world (performs session_ops initial_world).

Lemma session_reachable : treachable session_world.
Proof.
  apply (server_performs session_ops initial_world); [constructor|]. vm_compute. reflexivity.
Qed.

Lemma server_workers_conserved_witness :
  exists I A : list nat, NoDup (I ++ A) /\ (2%nat ∈ A \/ 1%nat ∈ A).
Proof.
  destruct (server_workers_conserved session_world session_reachable) as (I & A & H1 & _ & _ & _ & H5 & _).
  exists I, A. split; [exact H1|]. left. apply H5. vm_compute. repeat constructor.
Defined.

Lemma no_idle_worker_while_loop_waits_witness :
  (forall ec u, allowed (T_loop 0 ec u) session_world) \/ idle_head_ (srv (w_st session_world)) = None.
Proof.
  destruct (no_idle_worker_while_loop_waits session_world 0 (Accepting 1) session_reachable) as [H|[H _]];
    [vm_compute; reflexivity|left; exact H|right; exact H].
Defined.

Lemma stopped_loops_end_witness :
  joined (w_st session_world) = true <-> w_loops session_world = ∅.
Proof.
  destruct (stopped_loops_end session_world 0 (Accepting 1) false Launched session_reachable) as [_ H];
    [vm_compute; reflexivity|apply (bool_decide_eq_true_1 _); vm_compute; reflexivity|vm_compute; reflexivity|exact H].
Defined.

Lemma server_never_faults_witness :
  exists r s', run_op (T_loop 0 false Launched) session_world (w_st session_world) = Ok (r, s').
Proof.
  apply (server_never_faults session_world (T_loop 0 false Launched) session_reachable).
  apply (bool_decide_eq_true_1 _). vm_compute. reflexivity.
Defined.

Lemma sessions_start_and_stop_witness :
  exists s', do_stop (w_st session_world) = Ok (tt, s') /\ stops s' !! 2%nat = Some true.
Proof.
  destruct (sessions_start_and_stop session_world session_reachable) as [_ (s' & H1 & H2)].
  exists s'. split; [exact H1|]. apply H2. vm_compute. repeat constructor.
Defined.

(** * A corner *)

(** A connection that is accepted after [do_stop] ran is handled by a worker
    whose stop token is not requested, although the server is stopped. *)
Example late_connection_is_not_stopped :
  match performs (session_ops ++ [T_do_stop; T_loop 0 false Launched]) initial_world with
  | Some w =>
      stop_requested (w_st w) = true /\ w_dostops w = O /\ w_loops w = ∅ /\
      w_tasks w = [2%nat; 1%nat] /\ stops (w_st w) !! 1%nat = Some false
  | None => False
  end.
Proof. vm_compute. repeat split. Qed.
