(* ===== verification/ThreadPool.v ===== *)
(** The pool of threads for blocking calls:
    [include/boost/corosio/detail/thread_pool.hpp].

    A step is one critical section of the mutex, one call of the condition
    variable, or the execution of an item outside the lock.  The queue is the
    [intrusive_queue] of Intrusive.v, seen as the sequence of its items. *)

From stdpp Require Import sets list.
From S2P Require Import Prelude.

Module thread_pool.

(** Where a thread is: before the lock, blocked on the condition variable,
    executing an item, or returned. *)
Inductive thread := Awake | Parked | Running (w : nat) | Exited.

#[export] Instance thread_eq_dec : EqDecision thread.
Proof. solve_decision. Defined.

(** The progress of [shutdown]: not called, the flag is set, all threads are
    notified and being joined, and returned. *)
Inductive stage := Open | Flagged | Joining | Closed.

#[export] Instance stage_eq_dec : EqDecision stage.
Proof. solve_decision. Defined.

(** [notifies] are the calls of [post] that have not notified yet.  [accepted],
    [started] and [finished] record the items [post] accepted, those a thread
    took, in order, and those executed. *)
Record pool := mk_pool {
  work_queue_ : list nat;
  threads_ : list thread;
  shutdown_ : bool;
  stage_ : stage;
  notifies : nat;
  accepted : list nat;
  started : list nat;
  finished : list nat
}.

Definition set_thread (i : nat) (t : thread) (s : pool) : pool :=
  mk_pool (work_queue_ s) (<[i := t]> (threads_ s)) (shutdown_ s) (stage_ s) (notifies s)
    (accepted s) (started s) (finished s).

(** [thread_pool(ctx, num_threads)]; no threads is an exception. *)
Definition construct (num_threads : nat) : option pool :=
  match num_threads with
  | O => None
  | _ => Some (mk_pool [] (replicate num_threads Awake) false Open 0 [] [] [])
  end.

(** One turn of [worker_loop] under the lock. *)
Definition worker_turn (i : nat) (s : pool) : pool :=
  if shutdown_ s || negb (bool_decide (work_queue_ s = [])) then
    match work_queue_ s with
    | w :: q =>
        mk_pool q (<[i := Running w]> (threads_ s)) (shutdown_ s) (stage_ s) (notifies s)
          (accepted s) (started s ++ [w]) (finished s)
    | [] => if shutdown_ s then set_thread i Exited s else s
    end
  else set_thread i Parked s.

(** [w->func_(w)] *)
Definition execute (i w : nat) (s : pool) : pool :=
  mk_pool (work_queue_ s) (<[i := Awake]> (threads_ s)) (shutdown_ s) (stage_ s) (notifies s)
    (accepted s) (started s) (finished s ++ [w]).

(** [post]: its critical section, and the notification that follows. *)
Definition post (w : nat) (s : pool) : bool * pool :=
  if shutdown_ s then (false, s)
  else (true, mk_pool (work_queue_ s ++ [w]) (threads_ s) (shutdown_ s) (stage_ s) (S (notifies s))
                (accepted s ++ [w]) (started s) (finished s)).

Definition notify_one (i : option nat) (s : pool) : pool :=
  mk_pool (work_queue_ s) (match i with Some i => <[i := Awake]> (threads_ s) | None => threads_ s end)
    (shutdown_ s) (stage_ s) (pred (notifies s)) (accepted s) (started s) (finished s).

(** [shutdown]: the flag, the notification, and what follows the joins. *)
Definition shutdown_flag (s : pool) : pool :=
  mk_pool (work_queue_ s) (threads_ s) true Flagged (notifies s) (accepted s) (started s) (finished s).

Definition unpark (t : thread) : thread :=
  match t with
  | Parked => Awake
  | _ => t
  end.

Definition shutdown_notify (s : pool) : pool :=
  mk_pool (work_queue_ s) (map unpark (threads_ s)) (shutdown_ s) Joining (notifies s)
    (accepted s) (started s) (finished s).

Definition shutdown_drain (s : pool) : pool :=
  mk_pool [] [] (shutdown_ s) Closed (notifies s) (accepted s) (started s) (finished s).

(** * Steps *)

Inductive pstep (s : pool) : pool -> Prop :=
| P_turn i : threads_ s !! i = Some Awake -> pstep s (worker_turn i s)
| P_spurious i : threads_ s !! i = Some Parked -> pstep s (set_thread i Awake s)
| P_execute i w : threads_ s !! i = Some (Running w) -> pstep s (execute i w s)
| P_post w : pstep s (snd (post w s))
| P_notify i : notifies s <> O -> threads_ s !! i = Some Parked -> pstep s (notify_one (Some i) s)
| P_notify_none : notifies s <> O -> Parked ∉ threads_ s -> pstep s (notify_one None s)
| P_flag : stage_ s = Open -> pstep s (shutdown_flag s)
| P_notify_all : stage_ s = Flagged -> pstep s (shutdown_notify s)
| P_drain : stage_ s = Joining -> Forall (eq Exited) (threads_ s) -> pstep s (shutdown_drain s).

Inductive preachable : pool -> Prop :=
| PR_initial n s : construct n = Some s -> preachable s
| PR_step s s' : preachable s -> pstep s s' -> preachable s'.

(** * The invariant *)

Definition awake (t : thread) : Z := b2z (bool_decide (t = Awake)).
Definition item (t : thread) : list nat := match t with Running w => [w] | _ => [] end.
Definition running (s : pool) : list nat := flat_map item (threads_ s).

Record pinv (s : pool) : Prop := {
  pi_order : accepted s = started s ++ work_queue_ s;
  pi_items : started s ≡ₚ finished s ++ running s;
  pi_wakes : Parked ∈ threads_ s ->
    Z.of_nat (length (work_queue_ s)) <= Z.of_nat (notifies s) + zsum awake (threads_ s);
  pi_flag : shutdown_ s = negb (bool_decide (stage_ s = Open));
  pi_exited : Exited ∈ threads_ s -> shutdown_ s = true /\ work_queue_ s = [];
  pi_parked : stage_ s = Joining -> Parked ∉ threads_ s;
  pi_closed : stage_ s = Closed -> work_queue_ s = [] /\ threads_ s = [];
  pi_threads : stage_ s <> Closed -> threads_ s <> []
}.

Lemma items_insert ts i t t' :
  ts !! i = Some t -> flat_map item (<[i := t']> ts) ++ item t ≡ₚ flat_map item ts ++ item t'.
Proof.
  revert i. induction ts as [|u ts IH]; intros [|i] Hi; cbn in *; try done.
  - injection Hi as ->. rewrite <- !app_assoc. rewrite (Permutation_app_comm (item t')).
    rewrite <- !app_assoc. rewrite Permutation_app_comm, <- app_assoc. apply Permutation_app_head.
    apply Permutation_app_comm.
  - rewrite <- !app_assoc. apply Permutation_app_head. by apply IH.
Qed.

Lemma elem_of_put {A} (ts : list A) i t x : x ∈ <[i := t]> ts -> x = t \/ x ∈ ts.
Proof.
  intros [j Hj]%list_elem_of_lookup. destruct (decide (i = j)) as [<-|Hne].
  - left. by apply list_lookup_insert_Some in Hj as [(_ & <- & _)|[? _]].
  - right. rewrite list_lookup_insert_ne in Hj by done. by eapply list_elem_of_lookup_2.
Qed.

Lemma put_nil {A} (ts : list A) i t : ts <> [] -> <[i := t]> ts <> [].
Proof. intros H E. apply H. destruct ts, i; done. Qed.

Lemma awake_nonneg t : 0 <= awake t.
Proof. unfold awake. case_bool_decide; cbn; lia. Qed.

Lemma awake_put ts i t t' : ts !! i = Some t -> zsum awake (<[i := t']> ts) = zsum awake ts - awake t + awake t'.
Proof. apply zsum_insert. Qed.

(** A thread that is not awake, and one that is. *)
Lemma awake_other t : t <> Awake -> awake t = 0.
Proof. intros H. unfold awake. by rewrite bool_decide_eq_false_2. Qed.
Lemma awake_awake : awake Awake = 1.
Proof. done. Qed.

Lemma pinv_construct n s : construct n = Some s -> pinv s.
Proof.
  destruct n as [|n]; [done|]. intros [= <-].
  assert (Hin : forall t, t ∈ replicate (S n) Awake -> t = Awake) by (intros t [? _]%elem_of_replicate; done).
  constructor; try done; cbn [work_queue_ threads_ notifies finished started shutdown_].
  - clear. unfold running. cbn [threads_]. by induction n.
  - intros H%Hin. done.
  - intros H%Hin. done.
Qed.

Lemma pinv_turn s i : pinv s -> threads_ s !! i = Some Awake -> pinv (worker_turn i s).
Proof.
  intros [I1 I2 I3 I4 I5 I6 I7 I8] Hi.
  assert (Hcl : stage_ s <> Closed) by (intros E; destruct (I7 E) as [_ ET]; by rewrite ET in Hi).
  unfold worker_turn. destruct (work_queue_ s) as [|w q] eqn:Eq.
  - rewrite bool_decide_eq_true_2 by done. cbn [negb]. rewrite orb_false_r.
    assert (Hit : forall t, item t = [] -> flat_map item (<[i := t]> (threads_ s)) ≡ₚ flat_map item (threads_ s)).
    { intros t Ht. pose proof (items_insert _ _ _ t Hi) as H. rewrite Ht in H. cbn in H.
      by rewrite !app_nil_r in H. }
    destruct (shutdown_ s) eqn:Es.
    + constructor; cbn; rewrite ?Eq, ?Es; try done.
      * rewrite I2. unfold running. cbn. by rewrite Hit.
      * intros _. pose proof (zsum_nonneg awake (<[i := Exited]> (threads_ s)) awake_nonneg). cbn [length]. lia.
      * intros E [?|H]%elem_of_put; [done|]. by apply I6 in H.
      * intros _. by apply put_nil, I8.
    + constructor; cbn; rewrite ?Eq, ?Es; try done.
      * rewrite I2. unfold running. cbn. by rewrite Hit.
      * intros _. pose proof (zsum_nonneg awake (<[i := Parked]> (threads_ s)) awake_nonneg). cbn [length]. lia.
      * intros [?|H]%elem_of_put; [done|]. apply I5 in H as [? _]. congruence.
      * intros E. rewrite E in I4. rewrite bool_decide_eq_false_2 in I4 by done. done.
      * intros _. by apply put_nil, I8.
  - rewrite bool_decide_eq_false_2 by done. rewrite orb_true_r. constructor; cbn; try done.
    + by rewrite I1, <- app_assoc.
    + unfold running. cbn. pose proof (items_insert _ _ _ (Running w) Hi) as H. cbn in H. rewrite app_nil_r in H.
      rewrite H, I2. unfold running. by rewrite app_assoc.
    + intros [?|H]%elem_of_put; [done|]. apply I3 in H. rewrite (awake_put _ _ _ _ Hi).
      rewrite awake_awake, awake_other by done. cbn [length] in H. lia.
    + intros [?|H]%elem_of_put; [done|]. apply I5 in H as [_ ?]. congruence.
    + intros E [?|H]%elem_of_put; [done|]. by apply I6 in H.
    + intros _. by apply put_nil, I8.
Qed.

Lemma pinv_step s s' : pinv s -> pstep s s' -> pinv s'.
Proof.
  intros I Hs. destruct Hs as [i Hi|i Hi|i w Hi|w|i Hn Hi|Hn Hi|Hst|Hst|Hst Hall]; [by apply pinv_turn|..].
  all: destruct I as [I1 I2 I3 I4 I5 I6 I7 I8].
  - assert (Hcl : stage_ s <> Closed) by (intros E; destruct (I7 E) as [_ ET]; by rewrite ET in Hi).
    assert (Hpk : Parked ∈ threads_ s) by (by eapply list_elem_of_lookup_2).
    constructor; cbn; try done.
    + rewrite I2. unfold running. cbn. pose proof (items_insert _ _ _ Awake Hi) as H. cbn in H.
      by rewrite !app_nil_r in H; rewrite H.
    + intros _. specialize (I3 Hpk). rewrite (awake_put _ _ _ _ Hi), awake_awake, awake_other by done. lia.
    + intros [?|H]%elem_of_put; [done|by apply I5].
    + intros E [?|H]%elem_of_put; [done|]. by apply I6 in H.
    + intros _. by apply put_nil, I8.
  - assert (Hcl : stage_ s <> Closed) by (intros E; destruct (I7 E) as [_ ET]; by rewrite ET in Hi).
    constructor; cbn; try done.
    + rewrite I2. unfold running. cbn. pose proof (items_insert _ _ _ Awake Hi) as H. cbn in H.
      rewrite app_nil_r in H. rewrite <- app_assoc, <- H. apply Permutation_app_head, Permutation_app_comm.
    + intros [?|H]%elem_of_put; [done|]. apply I3 in H. rewrite (awake_put _ _ _ _ Hi), awake_awake, awake_other by done. lia.
    + intros [?|H]%elem_of_put; [done|by apply I5].
    + intros E [?|H]%elem_of_put; [done|]. by apply I6 in H.
    + intros _. by apply put_nil, I8.
  - unfold post. destruct (shutdown_ s) eqn:Es; cbn; [by constructor; rewrite ?Es|].
    constructor; cbn; rewrite ?Es; try done.
    + by rewrite I1, app_assoc.
    + intros H. specialize (I3 H). rewrite length_app. cbn. lia.
    + intros H. by destruct (I5 H).
    + intros E. by rewrite E in I4.
  - assert (Hcl : stage_ s <> Closed) by (intros E; destruct (I7 E) as [_ ET]; by rewrite ET in Hi).
    assert (Hpk : Parked ∈ threads_ s) by (by eapply list_elem_of_lookup_2).
    constructor; cbn; try done.
    + rewrite I2. unfold running. cbn. pose proof (items_insert _ _ _ Awake Hi) as H. cbn in H.
      by rewrite !app_nil_r in H; rewrite H.
    + intros _. specialize (I3 Hpk). rewrite (awake_put _ _ _ _ Hi), awake_awake, awake_other by done. lia.
    + intros [?|H]%elem_of_put; [done|by apply I5].
    + intros E [?|H]%elem_of_put; [done|]. by apply I6 in H.
    + intros _. by apply put_nil, I8.
  - constructor; cbn; try done.
  - constructor; cbn; try done.
    + intros H. split; [done|]. by apply I5.
    + intros _. apply I8. by rewrite Hst.
  - assert (Hin : forall t, t ∈ map unpark (threads_ s) -> t <> Parked /\ (t = Exited -> Exited ∈ threads_ s)).
    { intros t (u & -> & Hu)%list_elem_of_fmap. by destruct u. }
    constructor; cbn; try done.
    + rewrite I2. unfold running. cbn. clear. apply Permutation_app_head.
      induction (threads_ s) as [|t ts IH]; cbn; [done|]. by rewrite IH; destruct t.
    + intros H%Hin. by destruct H.
    + by rewrite I4, Hst.
    + intros H%Hin. apply I5. tauto.
    + intros _ H%Hin. by destruct H.
    + intros _ E. apply I8; [by rewrite Hst|]. by destruct (threads_ s).
  - assert (Hex : Exited ∈ threads_ s).
    { destruct (threads_ s) as [|t ts]; [by destruct I8; [rewrite Hst|]|]. apply list.Forall_cons in Hall as [<- _]. set_solver. }
    destruct (I5 Hex) as [Hsh Hq]. constructor; cbn; try done.
    + by rewrite I1, Hq.
    + rewrite I2. unfold running. cbn. rewrite app_nil_r. clear -Hall.
      induction (threads_ s) as [|t ts IH]; cbn; [by rewrite app_nil_r|]. apply list.Forall_cons in Hall as [<- Hall].
      by apply IH.
    + by intros ?%not_elem_of_nil.
Qed.

Lemma preachable_inv s : preachable s -> pinv s.
Proof. induction 1; [by eapply pinv_construct|by eapply pinv_step]. Qed.

(** C17: The pool executes every accepted item exactly once, in the order of
    [post]: the accepted items are those the threads took, in order, followed
    by the queue, and those they took are the executed ones and the ones being
    executed.  When [shutdown] has returned nothing is left: every item [post]
    accepted was executed, and the loop that empties the queue found it
    empty. *)
Theorem pool_executes_each_item_once s :
  preachable s ->
  accepted s = started s ++ work_queue_ s /\
  started s ≡ₚ finished s ++ running s /\
  (stage_ s = Joining -> Forall (eq Exited) (threads_ s) -> work_queue_ s = []) /\
  (stage_ s = Closed -> accepted s ≡ₚ finished s).
Proof.
  intros [I1 I2 I3 I4 I5 I6 I7 I8]%preachable_inv. split; [done|]. split; [done|]. split.
  - intros Hst Hall. apply I5. destruct (threads_ s) as [|t ts]; [by destruct I8; [rewrite Hst|]|].
    apply list.Forall_cons in Hall as [<- _]. set_solver.
  - intros Hst. destruct (I7 Hst) as [Hq Ht]. rewrite I1, Hq, app_nil_r, I2. unfold running. rewrite Ht. cbn.
    by rewrite app_nil_r.
Qed.

(** C18: No item waits for a thread that sleeps: while a thread is parked on the
    condition variable, every queued item has a thread that is about to look at
    the queue or a notification that is about to be sent; in particular, if
    nothing is about to be sent, a queued item is never left to sleeping
    threads. *)
Theorem pool_never_sleeps_on_work s :
  preachable s ->
  (Parked ∈ threads_ s ->
     Z.of_nat (length (work_queue_ s)) <= Z.of_nat (notifies s) + zsum awake (threads_ s)) /\
  (work_queue_ s <> [] -> notifies s = O -> stage_ s <> Flagged ->
     exists i t, threads_ s !! i = Some t /\ (t = Awake \/ exists w, t = Running w)).
Proof.
  intros I%preachable_inv. split; [apply I|]. destruct I as [I1 I2 I3 I4 I5 I6 I7 I8]. intros Hq Hn Hst.
  destruct (decide (Parked ∈ threads_ s)) as [Hp|Hp].
  - specialize (I3 Hp). destruct (work_queue_ s) as [|w q] eqn:Eq; [done|]. cbn [length] in I3.
    destruct (zsum_pos awake (threads_ s) awake_nonneg) as (i & t & Hi & Ht); [lia|]. exists i, t. split; [done|]. left.
    unfold awake in Ht. case_bool_decide; [done|]. cbn in Ht. lia.
  - assert (Hcl : stage_ s <> Closed) by (intros E; destruct (I7 E) as [? _]; congruence).
    specialize (I8 Hcl). destruct (threads_ s) as [|t ts] eqn:Et; [done|]. exists O, t. split; [done|].
    destruct t as [| |w|]; [by left|set_solver|right; by exists w|].
    destruct I5 as [_ ?]; [set_solver|congruence].
Qed.

(** * Shutdown terminates *)

(** What is left once all threads are notified: a queued item is taken and
    executed, and a thread that is not executing returns. *)
Definition weight (t : thread) : Z :=
  match t with
  | Awake | Parked => 1
  | Running _ => 2
  | Exited => 0
  end.
Definition remaining (s : pool) : Z := 2 * Z.of_nat (length (work_queue_ s)) + zsum weight (threads_ s).

(** [shutdown] returns: after the threads are notified every step of a
    thread takes the pool closer to the state where all of them have returned,
    no other call can move it away, and as long as a thread has not returned
    one of them can take a step. *)
Theorem pool_shutdown_terminates s s' :
  preachable s -> stage_ s = Joining -> pstep s s' ->
  (remaining s' < remaining s \/ (remaining s' = remaining s /\ work_queue_ s' = work_queue_ s /\
     threads_ s' = threads_ s) \/ stage_ s' = Closed) /\
  (Forall (eq Exited) (threads_ s) \/
   exists i t, threads_ s !! i = Some t /\ (t = Awake \/ exists w, t = Running w)).
Proof.
  intros I%preachable_inv Hst Hs. destruct I as [I1 I2 I3 I4 I5 I6 I7 I8]. specialize (I6 Hst).
  assert (Hsh : shutdown_ s = true) by (by rewrite I4, Hst). split.
  - destruct Hs as [i Hi|i Hi|i w Hi|w|i Hn Hi|Hn Hi|E|E|_ Hall]; try congruence; [..|by right; right].
    + left. unfold worker_turn, remaining. rewrite Hsh. cbn [orb].
      destruct (work_queue_ s) as [|w q] eqn:Eq; cbn.
      * rewrite Eq, (zsum_insert weight _ _ _ Exited Hi). cbn. lia.
      * rewrite (zsum_insert weight _ _ _ (Running w) Hi). cbn. lia.
    + by apply list_elem_of_lookup_2 in Hi.
    + left. unfold remaining. cbn. rewrite (zsum_insert weight _ _ _ Awake Hi). cbn. lia.
    + right; left. unfold post. by rewrite Hsh.
    + by apply list_elem_of_lookup_2 in Hi.
    + by right; left.
  - destruct (decide (Forall (eq Exited) (threads_ s))) as [|Hne]; [by left|right].
    apply not_Forall_Exists in Hne; [|intros t; apply _]. apply list.Exists_exists in Hne as (t & Ht & Hne).
    apply list_elem_of_lookup in Ht as [i Hi]. exists i, t. split; [done|].
    destruct t as [| |w|]; [by left|by apply list_elem_of_lookup_2 in Hi|right; by exists w|done].
Qed.

(** * A pool of one thread *)

(** One item was posted while the thread slept, and the pool is shut down. *)
Definition joining_pool : pool := mk_pool [7%nat] [Awake] true Joining 1 [7%nat] [] [].
Definition closed_pool : pool := mk_pool [] [] true Closed 1 [7%nat] [7%nat] [7%nat].

Definition posted_pool : pool := mk_pool [7%nat] [Parked] false Open 1 [7%nat] [] [].

Lemma posted_reachable : preachable posted_pool.
Proof.
  eapply PR_step; [eapply PR_step; [apply (PR_initial 1); reflexivity|]|].
  - apply (P_turn _ 0). reflexivity.
  - apply (P_post (mk_pool [] [Parked] false Open 0 [] [] []) 7).
Qed.

Lemma joining_reachable : preachable joining_pool.
Proof.
  eapply PR_step; [eapply PR_step; [apply posted_reachable|]|].
  - apply (P_flag posted_pool). reflexivity.
  - apply (P_notify_all (mk_pool [7%nat] [Parked] true Flagged 1 [7%nat] [] [])). reflexivity.
Qed.

Lemma closed_reachable : preachable closed_pool.
Proof.
  eapply PR_step; [eapply PR_step; [eapply PR_step; [eapply PR_step; [apply joining_reachable|]|]|]|].
  - apply (P_turn _ 0). reflexivity.
  - apply (P_execute _ 0 7). reflexivity.
  - apply (P_turn _ 0). reflexivity.
  - apply (P_drain (mk_pool [] [Exited] true Joining 1 [7%nat] [7%nat] [7%nat])); [reflexivity|].
    constructor; [reflexivity|constructor].
Qed.

Lemma pool_executes_each_item_once_witness : accepted closed_pool ≡ₚ finished closed_pool.
Proof.
  destruct (pool_executes_each_item_once closed_pool closed_reachable) as (_ & _ & _ & H). apply H. reflexivity.
Defined.

Lemma pool_never_sleeps_on_work_witness :
  Z.of_nat (length (work_queue_ posted_pool)) <= Z.of_nat (notifies posted_pool) + zsum awake (threads_ posted_pool).
Proof. apply (pool_never_sleeps_on_work posted_pool posted_reachable). apply list_elem_of_here. Defined.

Lemma pool_shutdown_terminates_witness :
  remaining (worker_turn 0 joining_pool) < remaining joining_pool \/ remaining joining_pool = 3.
Proof.
  destruct (pool_shutdown_terminates joining_pool (worker_turn 0 joining_pool) joining_reachable) as [[H|[H|H]] _];
    [reflexivity|apply P_turn; reflexivity|left; exact H|right; reflexivity|discriminate].
Defined.
End thread_pool.
