(* ===== verification/PoolFlow.v ===== *)
(** Operations that run on the thread pool: the life of an operation as an
    abstract specification, and the world in which the stream files, the
    random-access files and the resolvers are executed.

    Such an operation is posted to the pool (ThreadPool.v), taken by a thread,
    posted to the scheduler when its blocking call has returned, and completed
    or, at shutdown, destroyed there.  [fstep] says just this; StreamFileSteps,
    RandomFileSteps and ResolverSteps show that their code refines it, and
    inherit the theorems of this file. *)

From stdpp Require Import relations functions list_tactics.
From S2P Require Import Prelude StateMonad.

(** * The specification *)

Section flow.
Context {K : Type} `{!EqDecision K}.

(** What is where, the units of work that the scheduler counts, and the
    coroutine that waits for each operation.  [f_started], [f_ended] and
    [f_dropped] record the coroutines whose operations were started, resumed
    and destroyed. *)
Record flow := mk_flow {
  f_pool : list K;
  f_running : list K;
  f_queue : list K;
  f_work : Z;
  f_waiting : K -> option nat;
  f_started : list nat;
  f_ended : list nat;
  f_dropped : list nat
}.

(** [retained] is the work that a destroyed operation leaves counted. *)
Context (retained : Z).

Inductive fstep (f : flow) : flow -> Prop :=
| F_immediate co :
    fstep f (mk_flow (f_pool f) (f_running f) (f_queue f) (f_work f) (f_waiting f)
               (f_started f ++ [co]) (f_ended f ++ [co]) (f_dropped f))
| F_start k co :
    f_waiting f k = None ->
    fstep f (mk_flow (f_pool f ++ [k]) (f_running f) (f_queue f) (f_work f + 1)
               (<[k := Some co]> (f_waiting f)) (f_started f ++ [co]) (f_ended f) (f_dropped f))
| F_refused k co :
    f_waiting f k = None ->
    fstep f (mk_flow (f_pool f) (f_running f) (f_queue f ++ [k]) (f_work f + 1)
               (<[k := Some co]> (f_waiting f)) (f_started f ++ [co]) (f_ended f) (f_dropped f))
| F_take j k :
    f_pool f !! j = Some k ->
    fstep f (mk_flow (delete j (f_pool f)) (f_running f ++ [k]) (f_queue f) (f_work f)
               (f_waiting f) (f_started f) (f_ended f) (f_dropped f))
| F_post j k :
    f_running f !! j = Some k ->
    fstep f (mk_flow (f_pool f) (delete j (f_running f)) (f_queue f ++ [k]) (f_work f)
               (f_waiting f) (f_started f) (f_ended f) (f_dropped f))
| F_complete j k co :
    f_queue f !! j = Some k -> f_waiting f k = Some co ->
    fstep f (mk_flow (f_pool f) (f_running f) (delete j (f_queue f)) (f_work f - 1)
               (<[k := None]> (f_waiting f)) (f_started f) (f_ended f ++ [co]) (f_dropped f))
| F_drop j k co :
    f_queue f !! j = Some k -> f_waiting f k = Some co ->
    fstep f (mk_flow (f_pool f) (f_running f) (delete j (f_queue f)) (f_work f - 1 + retained)
               (<[k := None]> (f_waiting f)) (f_started f) (f_ended f) (f_dropped f ++ [co])).

Definition f_initial : flow := mk_flow [] [] [] 0 (fun _ => None) [] [] [].

(** * Its invariant *)

Definition places (f : flow) : list K := f_pool f ++ f_running f ++ f_queue f.
Definition waits (f : flow) (co : nat) (k : K) : Z := b2z (bool_decide (f_waiting f k = Some co)).

Record finv (f : flow) : Prop := mk_finv {
  fi_once : NoDup (places f);
  fi_waits : forall k, k ∈ places f <-> is_Some (f_waiting f k);
  fi_work : f_work f = Z.of_nat (length (places f)) + retained * Z.of_nat (length (f_dropped f));
  fi_hist : forall co, occ co (f_started f)
              = occ co (f_ended f) + occ co (f_dropped f) + zsum (waits f co) (places f)
}.

Lemma zsum_perm {A} (g : A -> Z) l l' : l ≡ₚ l' -> zsum g l = zsum g l'.
Proof. induction 1; cbn; lia. Qed.

Lemma occ_one {A} `{!EqDecision A} (x y : A) : occ x [y] = b2z (bool_decide (y = x)).
Proof. unfold occ. cbn. lia. Qed.

(** An operation that moves. *)
Lemma finv_move f f' :
  finv f -> places f' ≡ₚ places f -> f_work f' = f_work f -> f_waiting f' = f_waiting f ->
  f_started f' = f_started f -> f_ended f' = f_ended f -> f_dropped f' = f_dropped f -> finv f'.
Proof.
  intros [] P Ew Ea Es Ee Ed. split; unfold waits; rewrite ?Ew, ?Ea, ?Es, ?Ee, ?Ed, ?P; try done.
  - intros k. by rewrite P.
  - intros co. rewrite (zsum_perm _ _ _ P). apply fi_hist0.
Qed.

(** An operation that starts. *)
Lemma finv_enter f f' k co :
  finv f -> f_waiting f k = None -> places f' ≡ₚ k :: places f -> f_work f' = f_work f + 1 ->
  f_waiting f' = <[k := Some co]> (f_waiting f) -> f_started f' = f_started f ++ [co] ->
  f_ended f' = f_ended f -> f_dropped f' = f_dropped f -> finv f'.
Proof.
  intros [] Hk P Ew Ea Es Ee Ed.
  assert (Hn : k ∉ places f) by (intros [? E]%fi_waits0; congruence).
  split; unfold waits; rewrite ?Ew, ?Ea, ?Es, ?Ee, ?Ed, ?P.
  - by constructor.
  - intros i. rewrite P, elem_of_cons, fi_waits0.
    destruct (decide (i = k)) as [->|Hi]; [rewrite fn_lookup_insert|rewrite fn_lookup_insert_ne by done];
      naive_solver.
  - cbn [length]. lia.
  - intros c. rewrite (zsum_perm _ _ _ P), occ_app, occ_one, fi_hist0. cbn [zsum].
    rewrite fn_lookup_insert.
    rewrite (zsum_ext (fun i => b2z (bool_decide (<[k:=Some co]> (f_waiting f) i = Some c))) (waits f c)).
    2: { intros i Hi. rewrite fn_lookup_insert_ne by (intros ->; done). done. }
    rewrite (bool_decide_ext (Some co = Some c) (co = c)) by naive_solver. lia.
Qed.

(** An operation that leaves, completed or destroyed. *)
Lemma finv_leave f f' k co n :
  finv f -> f_waiting f k = Some co -> places f ≡ₚ k :: places f' ->
  f_work f' = f_work f - 1 + retained * n ->
  f_waiting f' = <[k := None]> (f_waiting f) -> f_started f' = f_started f ->
  Z.of_nat (length (f_dropped f')) = Z.of_nat (length (f_dropped f)) + n ->
  (forall c, occ c (f_ended f') + occ c (f_dropped f')
             = occ c (f_ended f) + occ c (f_dropped f) + occ c [co]) -> finv f'.
Proof.
  intros [] Hk P Ew Ea Es Ed Eo. rewrite P in fi_once0. apply list.NoDup_cons in fi_once0 as [Hn Hd].
  split; unfold waits; rewrite ?Ew, ?Ea, ?Es; try done.
  - intros i. specialize (fi_waits0 i). rewrite P, elem_of_cons in fi_waits0.
    destruct (decide (i = k)) as [->|Hi]; [rewrite fn_lookup_insert|rewrite fn_lookup_insert_ne by done].
    + split; [done|by intros [? [=]]].
    + naive_solver.
  - rewrite fi_work0, P, Ed. cbn [length]. lia.
  - intros c. specialize (fi_hist0 c). rewrite (zsum_perm _ _ _ P) in fi_hist0. cbn [zsum] in fi_hist0.
    specialize (Eo c). rewrite occ_one in Eo. unfold waits in fi_hist0 at 1. rewrite Hk in fi_hist0.
    rewrite (bool_decide_ext (Some co = Some c) (co = c)) in fi_hist0 by naive_solver.
    rewrite (zsum_ext (fun i => b2z (bool_decide (<[k:=None]> (f_waiting f) i = Some c))) (waits f c)).
    2: { intros i Hi. rewrite fn_lookup_insert_ne by (intros ->; done). done. }
    lia.
Qed.

Lemma f_initial_inv : finv f_initial.
Proof.
  split; cbn; try done; [by apply list.NoDup_nil| |lia]. intros k. split; [by intros ?%not_elem_of_nil|by intros [? [=]]].
Qed.

Lemma delete_app_perm (l : list K) j k : l !! j = Some k -> l ≡ₚ k :: delete j l.
Proof. apply delete_Permutation. Qed.

Ltac fsimpl :=
  cbn [f_pool f_running f_queue f_work f_waiting f_started f_ended f_dropped] in *.

Lemma fstep_inv f f' : finv f -> fstep f f' -> finv f'.
Proof.
  intros I H. destruct H as [co|k co Hk|k co Hk|j k Hj|j k Hj|j k co Hj Hk|j k co Hj Hk].
  - destruct I. split; try done. intros c. fsimpl.
    rewrite !occ_app, fi_hist0. change (places _) with (places f) at 2. unfold waits. cbn. lia.
  - eapply finv_enter; try done. unfold places. cbn. rewrite <- app_assoc. cbn.
    symmetry. apply Permutation_middle.
  - eapply finv_enter; try done. unfold places. cbn. rewrite !app_assoc, Permutation_app_comm. done.
  - eapply finv_move; try done. unfold places. cbn. rewrite (delete_app_perm _ _ _ Hj) at 2.
    solve_Permutation.
  - eapply finv_move; try done. unfold places. cbn. rewrite (delete_app_perm _ _ _ Hj) at 2.
    solve_Permutation.
  - eapply (finv_leave f _ k co 0); fsimpl; try done; try lia.
    + unfold places. cbn. rewrite (delete_app_perm _ _ _ Hj) at 1. solve_Permutation.
    + intros c. rewrite occ_app. lia.
  - eapply (finv_leave f _ k co 1); fsimpl; try done; try lia.
    + unfold places. cbn. rewrite (delete_app_perm _ _ _ Hj) at 1. solve_Permutation.
    + rewrite length_app. cbn. lia.
    + intros c. rewrite occ_app. lia.
Qed.

End flow.
Arguments flow : clear implicits.
