(* ===== verification/PoolWorld.v ===== *)
(** The world of an object whose operations run on the thread pool: the object,
    what the pool, its threads and the scheduler hold for it, and its history.
    It is shared by the stream files, the random-access files and the resolvers,
    whose code is executed in it and refines the specification of PoolFlow.v.

    The pool is seen through the items it was given, of which its threads take
    any: ThreadPool.v shows that each is taken once.  The scheduler is seen
    through its queue, of which it completes or destroys any item. *)

From stdpp Require Import relations functions list_tactics.
From S2P Require Import Prelude StateMonad PoolFlow.

(** * Code that acts on an object and logs what it asks of others *)

Record st (F E : Type) := mk_st { self : F; log : list E }.
Arguments mk_st {_ _}.
Arguments self {_ _}.
Arguments log {_ _}.

Section code.
Context {F E : Type}.

Definition this : M (st F E) F := s ← get; mret (self s).
Definition upd (f : F -> F) : M (st F E) unit := modify (fun s => mk_st (f (self s)) (log s)).
Definition emit (e : E) : M (st F E) unit := modify (fun s => mk_st (self s) (log s ++ [e])).
End code.

(** Unfolds the monad in the execution [E] of a piece of code. *)
Ltac unfold_run E :=
  cbv [mbind M_bind mret M_ret modify get put skip this upd emit self log] in E.

Ltac unfold_run_goal :=
  cbv [mbind M_bind mret M_ret modify get put skip this upd emit self log].

(** What a logged call means to the pool and the scheduler. *)
Inductive effect (K : Type) :=
| e_pooled (k : K)
| e_posted (k : K)
| e_work (n : Z)
| e_resumed (co : nat)
| e_none.
Arguments e_pooled {_}.
Arguments e_posted {_}.
Arguments e_work {_}.
Arguments e_resumed {_}.
Arguments e_none {_}.

Class effects (E K : Type) := effect_of : E -> effect K.

(** * The world *)

Section world.
Context {K F E P G : Type} `{!EqDecision K} `{!effects E K}.

(** [in_service]: the service of the object holds it.  A thread of the pool is
    at a phase of the work of its item. *)
Record world := mk_world {
  obj : F;
  in_service : bool;
  pool : list K;
  workers : list (K * P);
  queue : list K;
  work : Z;
  waiting : K -> option nat;
  started : list nat;
  ended : list nat;
  dropped : list nat;
  trace : list E;
  ghost : G
}.

Definition set_obj (x : F) (w : world) : world :=
  mk_world x (in_service w) (pool w) (workers w) (queue w) (work w) (waiting w) (started w)
    (ended w) (dropped w) (trace w) (ghost w).
Definition set_service (b : bool) (w : world) : world :=
  mk_world (obj w) b (pool w) (workers w) (queue w) (work w) (waiting w) (started w)
    (ended w) (dropped w) (trace w) (ghost w).
Definition set_pool (l : list K) (w : world) : world :=
  mk_world (obj w) (in_service w) l (workers w) (queue w) (work w) (waiting w) (started w)
    (ended w) (dropped w) (trace w) (ghost w).
Definition set_workers (l : list (K * P)) (w : world) : world :=
  mk_world (obj w) (in_service w) (pool w) l (queue w) (work w) (waiting w) (started w)
    (ended w) (dropped w) (trace w) (ghost w).
Definition set_queue (l : list K) (w : world) : world :=
  mk_world (obj w) (in_service w) (pool w) (workers w) l (work w) (waiting w) (started w)
    (ended w) (dropped w) (trace w) (ghost w).
Definition add_work (n : Z) (w : world) : world :=
  mk_world (obj w) (in_service w) (pool w) (workers w) (queue w) (work w + n) (waiting w)
    (started w) (ended w) (dropped w) (trace w) (ghost w).
Definition set_waiting (k : K) (c : option nat) (w : world) : world :=
  mk_world (obj w) (in_service w) (pool w) (workers w) (queue w) (work w)
    (<[k := c]> (waiting w)) (started w) (ended w) (dropped w) (trace w) (ghost w).
Definition add_started (co : nat) (w : world) : world :=
  mk_world (obj w) (in_service w) (pool w) (workers w) (queue w) (work w) (waiting w)
    (started w ++ [co]) (ended w) (dropped w) (trace w) (ghost w).
Definition add_ended (co : nat) (w : world) : world :=
  mk_world (obj w) (in_service w) (pool w) (workers w) (queue w) (work w) (waiting w)
    (started w) (ended w ++ [co]) (dropped w) (trace w) (ghost w).
Definition add_dropped (o : option nat) (w : world) : world :=
  mk_world (obj w) (in_service w) (pool w) (workers w) (queue w) (work w) (waiting w)
    (started w) (ended w) (dropped w ++ match o with Some co => [co] | None => [] end) (trace w)
    (ghost w).
Definition set_ghost (g : G) (w : world) : world :=
  mk_world (obj w) (in_service w) (pool w) (workers w) (queue w) (work w) (waiting w)
    (started w) (ended w) (dropped w) (trace w) g.
Definition add_trace (e : E) (w : world) : world :=
  mk_world (obj w) (in_service w) (pool w) (workers w) (queue w) (work w) (waiting w)
    (started w) (ended w) (dropped w) (trace w ++ [e]) (ghost w).

(** The effect of a logged call. *)
Definition perform (e : effect K) (w : world) : world :=
  match e with
  | e_pooled k => set_pool (pool w ++ [k]) w
  | e_posted k => set_queue (queue w ++ [k]) w
  | e_work n => add_work n w
  | e_resumed co => add_ended co w
  | e_none => w
  end.
Definition absorb (w : world) (e : E) : world := add_trace e (perform (effect_of e) w).
Definition absorb_all (l : list E) (w : world) : world := fold_left absorb l w.

(** [m] is executed on the object, returns and does not fault. *)
Definition exec {A} (m : M (st F E) A) (w : world) (a : A) (w' : world) : Prop :=
  exists s', m (mk_st (obj w) []) = Ok (a, s') /\ w' = absorb_all (log s') (set_obj (self s') w).

(** The same as a function, for concrete runs. *)
Definition after {A} (m : M (st F E) A) (w : world) : world :=
  match m (mk_st (obj w) []) with
  | Ok (_, s') => absorb_all (log s') (set_obj (self s') w)
  | _ => w
  end.

Lemma exec_after {A} (m : M (st F E) A) w a :
  match m (mk_st (obj w) []) with
  | Ok (b, _) => b = a
  | _ => False
  end -> exec m w a (after m w).
Proof. unfold exec, after. destruct (m _) as [[b s]| |]; intros H; [subst; eauto|done|done]. Qed.

(** The life of the operations in a world. *)
Definition flow_of (w : world) : flow K :=
  mk_flow (pool w) (fst <$> workers w) (queue w) (work w) (waiting w) (started w) (ended w)
    (dropped w).

(** The steps that are common to all objects: a thread of the pool takes an
    item, and moves on in its work. *)
Definition take (j : nat) (k : K) (p : P) (w : world) : world :=
  set_workers (workers w ++ [(k, p)]) (set_pool (delete j (pool w)) w).
Definition advance (j : nat) (k : K) (p : P) (w : world) : world :=
  set_workers (<[j := (k, p)]> (workers w)) w.
Definition leave (j : nat) (w : world) : world := set_workers (delete j (workers w)) w.

(** * Refinement *)

Lemma exec_ok {A} (m : M (st F E) A) w a w' s' :
  m (mk_st (obj w) []) = Ok (a, s') -> exec m w a w' ->
  w' = absorb_all (log s') (set_obj (self s') w).
Proof. intros E1 (s2 & E2 & ->). rewrite E1 in E2. by injection E2 as <-. Qed.

Lemma exec_run {A} (m : M (st F E) A) (Q : A -> st F E -> Prop) w a w' :
  wp m Q (mk_st (obj w) []) -> exec m w a w' ->
  exists s', Q a s' /\ w' = absorb_all (log s') (set_obj (self s') w).
Proof. intros Hm (s' & E1 & ->). unfold wp in Hm. rewrite E1 in Hm. eauto. Qed.

(** Calls that mean nothing to the pool and the scheduler. *)
Lemma absorb_none l w :
  Forall (fun e => effect_of e = e_none) l ->
  flow_of (absorb_all l w) = flow_of w /\ ghost (absorb_all l w) = ghost w
  /\ workers (absorb_all l w) = workers w /\ obj (absorb_all l w) = obj w.
Proof.
  intros H. revert w. induction H as [|e l He Hl IH]; intros w; [done|].
  change (absorb_all (e :: l) w) with (absorb_all l (absorb w e)).
  destruct (IH (absorb w e)) as (-> & -> & -> & ->). unfold absorb. by rewrite He.
Qed.

Lemma flow_take w j k p (r : Z) :
  pool w !! j = Some k -> fstep r (flow_of w) (flow_of (take j k p w)).
Proof.
  intros Hj. unfold flow_of, take. cbn. rewrite fmap_app. by apply (F_take r (flow_of w)).
Qed.

Lemma flow_advance w j k p p' :
  workers w !! j = Some (k, p) -> flow_of (advance j k p' w) = flow_of w.
Proof.
  intros Hj. unfold flow_of, advance. cbn. rewrite list_fmap_insert. f_equal.
  apply list_insert_id. cbn. by rewrite list_lookup_fmap, Hj.
Qed.

Lemma flow_leave w w1 j k p (r : Z) :
  workers w !! j = Some (k, p) ->
  flow_of w1 = mk_flow (pool w) (fst <$> workers w) (queue w ++ [k]) (work w) (waiting w)
                 (started w) (ended w) (dropped w) ->
  workers w1 = workers w -> fstep r (flow_of w) (flow_of (leave j w1)).
Proof.
  intros Hj E1 E2. unfold flow_of, leave in *. cbn. injection E1 as -> _ -> -> -> -> -> ->.
  rewrite E2, list_fmap_delete. apply (F_post r (flow_of w)). cbn. by rewrite list_lookup_fmap, Hj.
Qed.

(** ** The operations in flight, with their phases *)

(** An operation that waits in the pool is as a thread finds it, at [p0]; one in
    the queue of the scheduler is as the thread left it, at [p1]. *)
Definition entries (p0 p1 : P) (w : world) : list (K * P) :=
  ((fun k => (k, p0)) <$> pool w) ++ workers w ++ ((fun k => (k, p1)) <$> queue w).

Lemma entries_places p0 p1 w : fst <$> entries p0 p1 w = places (flow_of w).
Proof.
  unfold entries, places. cbn. rewrite !fmap_app, <- !list_fmap_compose. by rewrite !list_fmap_id.
Qed.

Lemma insert_perm {A} (l : list A) j x y : l !! j = Some x -> <[j := y]> l ≡ₚ y :: delete j l.
Proof.
  revert j. induction l as [|z l IH]; intros [|j] H; cbn in *; try done.
  rewrite (IH j H). apply Permutation_swap.
Qed.

Lemma entries_worker p0 p1 w j k p :
  workers w !! j = Some (k, p) ->
  entries p0 p1 w ≡ₚ (k, p) :: ((fun k => (k, p0)) <$> pool w) ++ delete j (workers w)
                                ++ ((fun k => (k, p1)) <$> queue w).
Proof.
  intros H. unfold entries. rewrite (delete_Permutation _ _ _ H) at 1. solve_Permutation.
Qed.

Lemma entries_advance p0 p1 (w w1 : world) j k p p' rest :
  workers w !! j = Some (k, p) -> entries p0 p1 w ≡ₚ (k, p) :: rest ->
  pool w1 = pool w -> workers w1 = workers w -> queue w1 = queue w ->
  entries p0 p1 (advance j k p' w1) ≡ₚ (k, p') :: rest.
Proof.
  intros H E0 E1 E2 E3. rewrite (entries_worker p0 p1 w j k p H) in E0.
  apply Permutation.Permutation_cons_inv in E0.
  rewrite <- E0. unfold entries. cbn. rewrite E1, E2, E3, (insert_perm _ _ _ _ H). solve_Permutation.
Qed.

Lemma entries_leave p0 p1 (w w1 : world) j k rest :
  workers w !! j = Some (k, p1) -> entries p0 p1 w ≡ₚ (k, p1) :: rest ->
  pool w1 = pool w -> workers w1 = workers w -> queue w1 = queue w ++ [k] ->
  entries p0 p1 (leave j w1) ≡ₚ (k, p1) :: rest.
Proof.
  intros H E0 E1 E2 E3. rewrite (entries_worker p0 p1 w j k p1 H) in E0.
  apply Permutation.Permutation_cons_inv in E0.
  rewrite <- E0. unfold entries. cbn. rewrite E1, E2, E3, fmap_app. cbn. solve_Permutation.
Qed.

Lemma entries_take p0 p1 w j k :
  pool w !! j = Some k -> entries p0 p1 (take j k p0 w) ≡ₚ entries p0 p1 w.
Proof.
  intros H. unfold entries. cbn. rewrite (delete_Permutation _ _ _ H) at 2. cbn. solve_Permutation.
Qed.

Lemma entries_queue p0 p1 w j k :
  queue w !! j = Some k ->
  entries p0 p1 w ≡ₚ (k, p1) :: entries p0 p1 (set_queue (delete j (queue w)) w).
Proof.
  intros H. unfold entries. cbn. rewrite (delete_Permutation _ _ _ H) at 1. cbn. solve_Permutation.
Qed.

(** What holds of the other operations still does. *)
Lemma entries_rest p0 p1 (ok ok' : K * P -> Prop) (r : Z) w k p rest :
  finv r (flow_of w) -> Forall ok (entries p0 p1 w) -> entries p0 p1 w ≡ₚ (k, p) :: rest ->
  (forall y, fst y <> k -> ok y -> ok' y) -> Forall ok' rest.
Proof.
  intros I Hf E0 H. pose proof (fi_once _ _ I) as N.
  rewrite <- (entries_places p0 p1), E0 in N. cbn in N. apply list.NoDup_cons in N as [N _].
  rewrite E0 in Hf. apply list.Forall_cons in Hf as [_ Hf]. apply list.Forall_forall. intros y Hy.
  apply H; [|by eapply list.Forall_forall]. intros <-. apply N. by apply list_elem_of_fmap_2.
Qed.

End world.
Arguments world : clear implicits.

(** A step that leaves the life of the operations alone or is one of theirs. *)
Definition refines {K} `{!EqDecision K} (retained : Z) (f f' : flow K) : Prop :=
  f' = f \/ fstep retained f f'.

Lemma refines_inv {K} `{!EqDecision K} (retained : Z) (f f' : flow K) :
  finv retained f -> refines retained f f' -> finv retained f'.
Proof. intros I [->|H]; [done|]. by eapply fstep_inv. Qed.
