(* ===== verification/StreamFile.v ===== *)
(** Stream files on POSIX:
    [include/boost/corosio/native/detail/posix/posix_stream_file.hpp],
    [posix_stream_file_service.hpp] and [include/boost/corosio/file_base.hpp].

    A file embeds one read and one write operation.  A transfer is posted to the
    thread pool (ThreadPool.v), where a thread runs the blocking call; the
    operation is then posted to the scheduler, whose thread resumes the
    coroutine.  [ref_] of the pool item and [impl_ref] of the operation share
    the ownership of the file with the service.

    The work of a pool thread is cut where other threads can interfere: after
    the test of [cancelled], and between the evaluation of the arguments of the
    call and the call itself.  Answers of the system are arguments.  Flag values
    are those of Linux; [off_t] has 64 bits. *)

From S2P Require Import Prelude StateMonad ReactorOp BasicSocket PoolWorld.
Import reactor_op PoolWorld.

Module stream_file.

(** * Data *)

Definition EOVERFLOW : Z := 75.

(** [std::numeric_limits<off_t>::max()] *)
Definition off_max : Z := int64_max.

Definition in_int64 (z : Z) : bool := (int64_min <=? z) && (z <=? int64_max).

(** [file_base::flags] *)
Definition read_only : Z := 1.
Definition write_only : Z := 2.
Definition read_write : Z := 3.
Definition append : Z := 4.
Definition create : Z := 8.
Definition exclusive : Z := 16.
Definition truncate : Z := 32.
Definition sync_all_on_write : Z := 64.

Inductive seek_basis := seek_set | seek_cur | seek_end.

Definition O_RDONLY : Z := 0.
Definition O_WRONLY : Z := 1.
Definition O_RDWR : Z := 2.
Definition O_CREAT : Z := 64.
Definition O_EXCL : Z := 128.
Definition O_TRUNC : Z := 512.
Definition O_APPEND : Z := 1024.
Definition O_SYNC : Z := 1052672.

(** The operation of each direction. *)
Inductive dir := reading | writing.

#[export] Instance dir_eq_dec : EqDecision dir.
Proof. solve_decision. Defined.

(** [impl_ref] and [stop_cb] are whether the pointer and the callback are set;
    coroutines and output locations are numbered. *)
Record file_op := mk_file_op {
  h : nat;
  ec_out : option nat;
  bytes_out : option nat;
  iovecs : list iovec;
  errn : Z;
  bytes_transferred : Z;
  is_read : bool;
  cancelled : bool;
  stop_cb : bool;
  impl_ref : bool
}.

(** [ref_] is that of [read_pool_op_] and [write_pool_op_]. *)
Record file := mk_file {
  fd_ : Z;
  offset_ : Z;
  ops : dir -> file_op;
  ref_ : dir -> bool
}.

Definition new_op : file_op := mk_file_op 0 None None [] 0 0 false false false false.
Definition new_file : file := mk_file (-1) 0 (fun _ => new_op) (fun _ => false).

Definition set_fd (f : Z) (x : file) : file := mk_file f (offset_ x) (ops x) (ref_ x).
Definition set_offset (o : Z) (x : file) : file := mk_file (fd_ x) o (ops x) (ref_ x).
Definition set_op (d : dir) (o : file_op) (x : file) : file :=
  mk_file (fd_ x) (offset_ x) (fun e => if decide (e = d) then o else ops x e) (ref_ x).
Definition set_ref (d : dir) (b : bool) (x : file) : file :=
  mk_file (fd_ x) (offset_ x) (ops x) (fun e => if decide (e = d) then b else ref_ x e).

Definition set_cancelled (b : bool) (o : file_op) : file_op :=
  mk_file_op (h o) (ec_out o) (bytes_out o) (iovecs o) (errn o) (bytes_transferred o) (is_read o) b
    (stop_cb o) (impl_ref o).
Definition set_stop_cb (b : bool) (o : file_op) : file_op :=
  mk_file_op (h o) (ec_out o) (bytes_out o) (iovecs o) (errn o) (bytes_transferred o) (is_read o)
    (cancelled o) b (impl_ref o).
Definition set_impl_ref (b : bool) (o : file_op) : file_op :=
  mk_file_op (h o) (ec_out o) (bytes_out o) (iovecs o) (errn o) (bytes_transferred o) (is_read o)
    (cancelled o) (stop_cb o) b.
Definition set_result (e n : Z) (o : file_op) : file_op :=
  mk_file_op (h o) (ec_out o) (bytes_out o) (iovecs o) e n (is_read o) (cancelled o) (stop_cb o)
    (impl_ref o).
Definition set_request (co : nat) (ec bytes : nat) (iov : list iovec) (o : file_op) : file_op :=
  mk_file_op co (Some ec) (Some bytes) iov (errn o) (bytes_transferred o) (is_read o) (cancelled o)
    (stop_cb o) (impl_ref o).
Definition set_is_read (b : bool) (o : file_op) : file_op :=
  mk_file_op (h o) (ec_out o) (bytes_out o) (iovecs o) (errn o) (bytes_transferred o) b
    (cancelled o) (stop_cb o) (impl_ref o).

(** [file_op::reset] leaves [h] *)
Definition reset (o : file_op) : file_op := mk_file_op (h o) None None [] 0 0 false false false false.

(** [file_op::request_cancel] *)
Definition request_cancel (o : file_op) : file_op := set_cancelled true o.

(** What the code asks of the system, the executor, the scheduler and the
    pool. *)
Inductive event :=
| opened (oflags : Z)
| stat_of (fd : Z)
| fadvised (fd : Z)
| truncated (fd size : Z)
| data_synced (fd : Z)
| synced (fd : Z)
| closed (fd : Z)
| preadv (fd : Z) (iov : list iovec) (off : Z)
| pwritev (fd : Z) (iov : list iovec) (off : Z)
| wrote_ec (p : nat) (e : error_code)
| wrote_bytes (p : nat) (n : Z)
| resumed (co : nat)
| work_started
| work_finished
| pooled (d : dir)
| posted (d : dir).

Abbreviation FM := (M (st file event)).

Definition the_op (d : dir) : FM file_op := x ← this; mret (ops x d).
Definition upd_op (d : dir) (f : file_op -> file_op) : FM unit :=
  upd (fun x => set_op d (f (ops x d)) x).

(** A function that throws returns the error that the exception carries. *)
Abbreviation throws A := (error_code + A)%type.

#[export] Instance event_effects : effects event dir := fun e =>
  match e with
  | pooled d => e_pooled d
  | posted d => e_posted d
  | work_started => e_work 1
  | work_finished => e_work (-1)
  | resumed co => e_resumed co
  | _ => e_none
  end.

(** * Opening and closing *)

Definition close_file : FM unit :=
  x ← this;
  if 0 <=? fd_ x then emit (closed (fd_ x)) ≫= fun _ => upd (set_fd (-1)) else skip.

Definition with_flag (mode flag o oflags : Z) : Z :=
  if Z.land mode flag =? 0 then oflags else Z.lor oflags o.

Definition access_flags (mode : Z) : Z :=
  let access := Z.land mode 3 in
  if access =? read_write then O_RDWR else if access =? write_only then O_WRONLY else O_RDONLY.

(** [mode & file_base::append] is honoured for stream files only. *)
Definition open_flags (mode : Z) : Z :=
  with_flag mode sync_all_on_write O_SYNC
    (with_flag mode append O_APPEND
      (with_flag mode truncate O_TRUNC
        (with_flag mode exclusive O_EXCL (with_flag mode create O_CREAT (access_flags mode))))).

(** [open] answers with a descriptor or an errno, [fstat] with the size or an
    errno. *)
Definition open_file (mode : Z) (open_answer fstat_answer : answer) : FM error_code :=
  close_file ≫= fun _ =>
  emit (opened (open_flags mode)) ≫= fun _ =>
  match open_answer with
  | Fail e => mret (make_err e)
  | Ret fd | RetAddr fd _ _ =>
      upd (fun x => set_offset 0 (set_fd fd x)) ≫= fun _ =>
      let finish := emit (fadvised fd) ≫= fun _ => mret success in
      if Z.land mode append =? 0 then finish
      else
        emit (stat_of fd) ≫= fun _ =>
        match fstat_answer with
        | Fail e =>
            emit (closed fd) ≫= fun _ => upd (set_fd (-1)) ≫= fun _ => mret (make_err e)
        | Ret size | RetAddr size _ _ => upd (set_offset (wrap 64 size)) ≫= fun _ => finish
        end
  end.

(** * Synchronous functions *)

(** [fstat(fd_, &st)] and its failure *)
Definition file_size (a : answer) : FM (throws Z) :=
  x ← this;
  emit (stat_of (fd_ x)) ≫= fun _ =>
  match a with
  | Fail e => mret (inl (make_err e))
  | Ret size | RetAddr size _ _ => mret (inr size)
  end.

Definition size (a : answer) : FM (throws Z) :=
  r ← file_size a;
  mret (match r with
        | inl e => inl e
        | inr n => inr (wrap 64 n)
        end).

Definition thrown (a : answer) : throws unit :=
  match a with
  | Fail e => inl (make_err e)
  | _ => inr tt
  end.

Definition resize (new_size : Z) (a : answer) : FM (throws unit) :=
  if off_max <? new_size then mret (inl (make_err EOVERFLOW))
  else
    x ← this;
    emit (truncated (fd_ x) new_size) ≫= fun _ => mret (thrown a).

Definition sync_data (a : answer) : FM (throws unit) :=
  x ← this; emit (data_synced (fd_ x)) ≫= fun _ => mret (thrown a).
Definition sync_all (a : answer) : FM (throws unit) :=
  x ← this; emit (synced (fd_ x)) ≫= fun _ => mret (thrown a).

Definition release : FM Z :=
  x ← this;
  upd (fun x => set_offset 0 (set_fd (-1) x)) ≫= fun _ => mret (fd_ x).

Definition assign (handle : Z) : FM unit :=
  close_file ≫= fun _ => upd (fun x => set_offset 0 (set_fd handle x)).

(** [static_cast<std::int64_t>] of a 64-bit value, and a sum of two
    [std::int64_t]: out of range it is undefined. *)
Definition to_int64 (z : Z) : Z := if z <? 2 ^ 63 then z else z - 2 ^ 64.
Definition add_int64 (a b : Z) : FM Z := if in_int64 (a + b) then mret (a + b) else fault.

(** The end of [seek], once the new position is known. *)
Definition move_to (new_pos : Z) : FM (throws Z) :=
  if new_pos <? 0 then mret (inl (make_err EINVAL))
  else if off_max <? new_pos then mret (inl (make_err EOVERFLOW))
  else upd (set_offset new_pos) ≫= fun _ => mret (inr new_pos).

Definition seek (offset : Z) (origin : seek_basis) (a : answer) : FM (throws Z) :=
  match origin with
  | seek_set => move_to offset
  | seek_cur =>
      x ← this;
      p ← add_int64 (to_int64 (offset_ x)) offset;
      move_to p
  | seek_end =>
      r ← file_size a;
      match r with
      | inl e => mret (inl e)
      | inr n => p ← add_int64 n offset; move_to p
      end
  end.

(** * Transfers *)

Inductive token := never | stoppable | stopped.

#[export] Instance token_eq_dec : EqDecision token.
Proof. solve_decision. Defined.

Definition max_buffers : nat := 16.

(** [file_op::start]: a callback on a stopped token runs at once. *)
Definition start (d : dir) (t : token) : FM unit :=
  upd_op d (fun o => set_stop_cb false (set_cancelled false o)) ≫= fun _ =>
  match t with
  | never => skip
  | stoppable => upd_op d (set_stop_cb true)
  | stopped => upd_op d (fun o => request_cancel (set_stop_cb true o))
  end.

Inductive outcome := dispatched | noop_coroutine.

(** [read_some] and [write_some] differ in the direction.  [accepts] is the
    result of the pool's [post]. *)
Definition transfer_some (d : dir) (accepts : bool) (co : nat) (param : list iovec) (t : token)
    (ec bytes : nat) : FM outcome :=
  upd_op d (fun o => set_is_read (bool_decide (d = reading)) (reset o)) ≫= fun _ =>
  let iov := copy_to param max_buffers in
  match iov with
  | [] =>
      emit (wrote_ec ec success) ≫= fun _ =>
      emit (wrote_bytes bytes 0) ≫= fun _ =>
      emit (resumed co) ≫= fun _ => mret dispatched
  | _ =>
      upd_op d (set_request co ec bytes iov) ≫= fun _ =>
      start d t ≫= fun _ =>
      emit work_started ≫= fun _ =>
      upd (set_ref d true) ≫= fun _ =>
      (if accepts then emit (pooled d)
       else
         upd (fun x => set_ref d false (set_op d (set_cancelled true (set_impl_ref true (ops x d))) x))
           ≫= fun _ =>
         emit (posted d)) ≫= fun _ =>
      mret noop_coroutine
  end.
Definition read_some := transfer_some reading.
Definition write_some := transfer_some writing.

(** [do_read_work] and [do_write_work], in four pieces: the test of
    [cancelled]; the arguments of the call, of which the last is
    [static_cast<off_t>(offset_)]; the call and its result, where [None] is a
    call that was interrupted and is repeated with new arguments; the post. *)
Definition work_check (d : dir) : FM bool :=
  o ← the_op d; mret (negb (cancelled o)).

Definition work_arguments (d : dir) : FM (Z * list iovec * Z) :=
  x ← this; mret (fd_ x, iovecs (ops x d), to_int64 (offset_ x)).

Definition work_call (d : dir) (args : Z * list iovec * Z) (a : answer) : FM bool :=
  let '(fd, iov, off) := args in
  emit (match d with
        | reading => preadv fd iov off
        | writing => pwritev fd iov off
        end) ≫= fun _ =>
  match a with
  | Ret n | RetAddr n _ _ =>
      upd_op d (set_result 0 n) ≫= fun _ =>
      upd (fun x => set_offset (wrap 64 (offset_ x + n)) x) ≫= fun _ => mret true
  | Fail e =>
      if e =? EINTR then mret false
      else upd_op d (set_result e 0) ≫= fun _ => mret true
  end.

Definition work_post (d : dir) : FM unit :=
  upd (fun x => set_ref d false (set_op d (set_impl_ref (ref_ x d) (ops x d)) x)) ≫= fun _ =>
  emit (posted d).

(** [cancel] *)
Definition cancel : FM unit := upd_op reading request_cancel ≫= fun _ => upd_op writing request_cancel.

(** [file_op::operator()] *)
Definition result (o : file_op) : error_code :=
  if cancelled o then canceled
  else if negb (errn o =? 0) then make_err (errn o)
  else if is_read o && (bytes_transferred o =? 0) then eof
  else success.

Definition complete (d : dir) : FM unit :=
  upd_op d (set_stop_cb false) ≫= fun _ =>
  o ← the_op d;
  (match ec_out o with
   | Some p => emit (wrote_ec p (result o))
   | None => skip
   end) ≫= fun _ =>
  (match bytes_out o with
   | Some p => emit (wrote_bytes p (if cancelled o then 0 else bytes_transferred o))
   | None => skip
   end) ≫= fun _ =>
  upd_op d (set_impl_ref false) ≫= fun _ =>
  emit work_finished ≫= fun _ =>
  emit (resumed (h o)).

(** [file_op::destroy] *)
Definition destroy_op (d : dir) : FM unit :=
  upd_op d (set_stop_cb false) ≫= fun _ =>
  upd_op d (set_impl_ref false) ≫= fun _ =>
  emit work_finished.

End stream_file.
