(* ===== verification/StreamFileSteps.v ===== *)
(** A stream file under concurrency: its operations on the threads of the pool
    and of the scheduler, stop requests, [cancel], [close] and the destruction
    of the file, in every interleaving.

    As its documentation requires, one operation is in flight at a time and the
    synchronous functions are not called meanwhile; [cancel], the closing of the
    descriptor and the release of the file by its service are allowed at any
    time. *)

From stdpp Require Import relations functions list_tactics.
From S2P Require Import Prelude StateMonad ReactorOp BasicSocket PoolFlow PoolWorld StreamFile.
Import stream_file.

(** Where the thread of a pool is in [do_read_work] or [do_write_work]. *)
Inductive phase :=
| Checking
| Preparing
| Calling (args : Z * list reactor_op.iovec * Z)
| Posting.

(** The ghost state is the position that was set last and the offset and length
    of the transfers since. *)
Abbreviation fworld := (world dir file event phase (Z * list (Z * Z))).

Definition base (w : fworld) : Z := fst (ghost w).
Definition transfers (w : fworld) : list (Z * Z) := snd (ghost w).

(** A call returns a number of bytes or fails. *)
Definition answer_ok (a : reactor_op.answer) : Prop :=
  match a with
  | reactor_op.Ret n | reactor_op.RetAddr n _ _ => 0 <= n
  | reactor_op.Fail _ => True
  end.

(** The bytes that a call has moved. *)
Definition moved (args : Z * list reactor_op.iovec * Z) (a : reactor_op.answer) : list (Z * Z) :=
  match a with
  | reactor_op.Ret n | reactor_op.RetAddr n _ _ => [(snd args, n)]
  | reactor_op.Fail _ => []
  end.

(** The synchronous functions that set the position. *)
Inductive sync_fn :=
| Open (mode : Z) (open_answer fstat_answer : reactor_op.answer)
| Release
| Assign (handle : Z)
| Seek (offset : Z) (origin : seek_basis) (a : reactor_op.answer).

Definition run_sync (f : sync_fn) : FM unit :=
  match f with
  | Open mode a b => open_file mode a b ≫= fun _ => skip
  | Release => release ≫= fun _ => skip
  | Assign handle => assign handle
  | Seek o b a => seek o b a ≫= fun _ => skip
  end.

Definition idle (w : fworld) : Prop := waiting w reading = None /\ waiting w writing = None.

Inductive step (w : fworld) : fworld -> Prop :=
| S_init d t accepts co param r w1 :
    in_service w = true -> idle w ->
    exec (transfer_some d accepts co param t co co) w r w1 ->
    step w (add_started co (match r with
                            | dispatched => w1
                            | noop_coroutine => set_waiting d (Some co) w1
                            end))
| S_take j d : pool w !! j = Some d -> step w (take j d Checking w)
| S_check j d b w1 :
    workers w !! j = Some (d, Checking) -> exec (work_check d) w b w1 ->
    step w (advance j d (if b : bool then Preparing else Posting) w1)
| S_arguments j d args w1 :
    workers w !! j = Some (d, Preparing) -> exec (work_arguments d) w args w1 ->
    step w (advance j d (Calling args) w1)
| S_call j d args a b w1 :
    workers w !! j = Some (d, Calling args) -> answer_ok a -> exec (work_call d args a) w b w1 ->
    step w (advance j d (if b : bool then Posting else Preparing)
              (set_ghost (base w, transfers w ++ moved args a) w1))
| S_post j d w1 :
    workers w !! j = Some (d, Posting) -> exec (work_post d) w tt w1 -> step w (leave j w1)
| S_complete j d w1 :
    queue w !! j = Some d -> exec (complete d) (set_queue (delete j (queue w)) w) tt w1 ->
    step w (set_waiting d None w1)
| S_destroy_op j d w1 :
    queue w !! j = Some d -> exec (destroy_op d) (set_queue (delete j (queue w)) w) tt w1 ->
    step w (add_dropped (waiting w d) (set_waiting d None w1))
| S_stop d w1 :
    stop_cb (ops (obj w) d) = true -> exec (upd_op d request_cancel) w tt w1 -> step w w1
| S_cancel w1 : in_service w = true -> exec cancel w tt w1 -> step w w1
| S_close w1 : in_service w = true -> exec close_file w tt w1 -> step w w1
| S_release : in_service w = true -> step w (set_service false w)
| S_sync f w1 :
    in_service w = true -> idle w -> exec (run_sync f) w tt w1 ->
    step w (set_ghost (offset_ (obj w1), []) w1).

(** A file that its service has just made. *)
Definition initial : fworld :=
  mk_world new_file true [] [] [] 0 (fun _ => None) [] [] [] [] (0, []).

Definition reachable : fworld -> Prop := rtc step initial.

(** * The invariant *)

(** The owners of the file. *)
Definition refs (w : fworld) : Z :=
  b2z (in_service w)
  + (b2z (ref_ (obj w) reading) + b2z (impl_ref (ops (obj w) reading)))
  + (b2z (ref_ (obj w) writing) + b2z (impl_ref (ops (obj w) writing))).

(** Each transfer starts where the one before ended. *)
Fixpoint contiguous (pos : Z) (l : list (Z * Z)) : Prop :=
  match l with
  | [] => True
  | (o, n) :: l' => o = to_int64 pos /\ 0 <= n /\ contiguous (wrap 64 (pos + n)) l'
  end.
Fixpoint end_position (pos : Z) (l : list (Z * Z)) : Z :=
  match l with
  | [] => pos
  | (_, n) :: l' => end_position (wrap 64 (pos + n)) l'
  end.

(** The fields that the handler of an operation in flight uses. *)
Definition armed (d : dir) (co : nat) (o : file_op) : Prop :=
  h o = co /\ ec_out o = Some co /\ bytes_out o = Some co /\ is_read o = bool_decide (d = reading).

Definition call_ok (x : file) (y : dir * phase) : Prop :=
  match snd y with
  | Calling args => snd args = to_int64 (offset_ x)
  | _ => True
  end.

Record inv (w : fworld) : Prop := mk_inv {
  i_flow : finv 0 (flow_of w);
  i_one : waiting w reading = None \/ waiting w writing = None;
  i_ref : forall d, ref_ (obj w) d = bool_decide (d ∈ pool w ++ (fst <$> workers w));
  i_impl_ref : forall d, impl_ref (ops (obj w) d) = bool_decide (d ∈ queue w);
  i_armed : forall d co, waiting w d = Some co -> armed d co (ops (obj w) d);
  i_stop : forall d, stop_cb (ops (obj w) d) = true -> is_Some (waiting w d);
  i_moves : contiguous (base w) (transfers w);
  i_position : offset_ (obj w) = end_position (base w) (transfers w);
  i_calls : Forall (call_ok (obj w)) (workers w)
}.

Lemma initial_inv : inv initial.
Proof.
  split; cbn; try done; [apply f_initial_inv|by left].
Qed.

(** ** What is in flight *)

Lemma one_place w d : inv w -> d ∈ places (flow_of w) -> places (flow_of w) = [d].
Proof.
  intros I Hd. pose proof (i_flow w I) as F. pose proof (fi_once _ _ F) as N.
  assert (H : forall e, e ∈ places (flow_of w) -> e = d).
  { intros e He. apply (fi_waits _ _ F) in He, Hd. cbn in He, Hd.
    destruct (i_one w I) as [E|E], e, d; try done; rewrite E in *; by destruct He, Hd. }
  destruct (places (flow_of w)) as [|x l]; [by apply not_elem_of_nil in Hd|].
  assert (x = d) as -> by (apply H; by left). f_equal.
  destruct l as [|y l]; [done|]. assert (y = d) as -> by (apply H; right; by left).
  apply list.NoDup_cons in N as [N _]. exfalso. apply N. by left.
Qed.

Lemma in_pool w j d :
  inv w -> pool w !! j = Some d -> j = O /\ pool w = [d] /\ workers w = [] /\ queue w = [].
Proof.
  intros I Hj. assert (Hd : d ∈ places (flow_of w)).
  { unfold places. apply elem_of_app. left. by eapply list_elem_of_lookup_2. }
  apply (one_place w d I) in Hd. unfold places in Hd. cbn in Hd.
  destruct (pool w) as [|x l]; [done|]. injection Hd as -> Hl.
  apply app_eq_nil in Hl as [-> [Hl ->]%app_eq_nil]. apply fmap_nil_inv in Hl.
  by destruct j as [|[]].
Qed.

Lemma in_workers w j d p :
  inv w -> workers w !! j = Some (d, p) ->
  j = O /\ pool w = [] /\ workers w = [(d, p)] /\ queue w = [].
Proof.
  intros I Hj. assert (Hd : d ∈ places (flow_of w)).
  { unfold places. rewrite !elem_of_app. right. left. apply list_elem_of_fmap.
    exists (d, p). split; [done|]. by eapply list_elem_of_lookup_2. }
  apply (one_place w d I) in Hd. unfold places in Hd. cbn in Hd.
  destruct (workers w) as [|[e q] l]; [done|].
  destruct (pool w) as [|x l']; cbn in Hd; [|by injection Hd as _ [_ [=]]%app_eq_nil].
  injection Hd as -> [Hl ->]%app_eq_nil. apply fmap_nil_inv in Hl as ->.
  destruct j as [|[]]; [|done|done]. by injection Hj as ->.
Qed.

Lemma file_in_queue w j d :
  inv w -> queue w !! j = Some d ->
  j = O /\ pool w = [] /\ workers w = [] /\ queue w = [d].
Proof.
  intros I Hj. assert (Hd : d ∈ places (flow_of w)).
  { unfold places. rewrite !elem_of_app. right. right. by eapply list_elem_of_lookup_2. }
  apply (one_place w d I) in Hd. unfold places in Hd. cbn in Hd.
  destruct (queue w) as [|x l] eqn:Eq; [done|].
  destruct (pool w) as [|y l']; cbn in Hd.
  - destruct (workers w) as [|y l']; cbn in Hd.
    + injection Hd as -> ->. by destruct j as [|[]].
    + by injection Hd as _ [_ [=]]%app_eq_nil.
  - by injection Hd as _ [_ [_ [=]]%app_eq_nil]%app_eq_nil.
Qed.

Lemma nothing w : inv w -> idle w -> pool w = [] /\ workers w = [] /\ queue w = [].
Proof.
  intros I [H1 H2]. pose proof (fi_waits _ _ (i_flow w I)) as F.
  assert (E : places (flow_of w) = []).
  { destruct (places (flow_of w)) as [|x l] eqn:E; [done|]. exfalso.
    assert (Hx : is_Some (f_waiting (flow_of w) x)) by (apply F; by left).
    cbn in Hx. destruct x; rewrite ?H1, ?H2 in Hx; by destruct Hx. }
  unfold places in E. cbn in E. apply app_eq_nil in E as [-> [E ->]%app_eq_nil].
  by apply fmap_nil_inv in E.
Qed.

(** ** Steps *)

Ltac run He :=
  let s := fresh "s" in let E := fresh "E" in
  destruct He as (s & E & ->); cbn in E.

(** Steps in which no operation moves and the position stays. *)
Lemma file_inv_still w w' :
  inv w -> flow_of w' = flow_of w -> ghost w' = ghost w ->
  (forall d, ref_ (obj w') d = ref_ (obj w) d
             /\ impl_ref (ops (obj w') d) = impl_ref (ops (obj w) d)) ->
  (forall d co, armed d co (ops (obj w) d) -> armed d co (ops (obj w') d)) ->
  (forall d, stop_cb (ops (obj w') d) = stop_cb (ops (obj w) d)) ->
  offset_ (obj w') = offset_ (obj w) -> Forall (call_ok (obj w)) (workers w') -> inv w'.
Proof.
  intros [] Ef Eg Er Ea Es Eo Hc.
  assert (Ep := Ef). injection Ep as Ep1 Ep2 Ep3 Ep4 Ep5 Ep6 Ep7 Ep8.
  split; unfold base, transfers in *; rewrite ?Ef, ?Eg, ?Ep5, ?Eo; try done.
  - intros d. rewrite Ep1, Ep2. destruct (Er d) as [-> _]. apply i_ref0.
  - intros d. rewrite Ep3. destruct (Er d) as [_ ->]. apply i_impl_ref0.
  - intros d co Hd. auto.
  - intros d. rewrite Es. apply i_stop0.
  - unfold call_ok in *. by rewrite Eo.
Qed.

Lemma file_step_check w j d b w1 :
  inv w -> workers w !! j = Some (d, Checking) -> exec (work_check d) w b w1 ->
  let w' := advance j d (if b : bool then Preparing else Posting) w1 in
  refines 0 (flow_of w) (flow_of w') /\ inv w'.
Proof.
  intros I Hj He. run He. injection E as <- <-. cbn [log self absorb_all fold_left].
  assert (Ef : flow_of (advance j d (if negb (cancelled (ops (obj w) d)) then Preparing else Posting)
                 (set_obj (obj w) w)) = flow_of w) by (by erewrite flow_advance).
  split; [by left|]. eapply file_inv_still; try done. apply list.Forall_insert; [apply I|].
  by destruct (negb _).
Qed.

Lemma file_step_arguments w j d args w1 :
  inv w -> workers w !! j = Some (d, Preparing) -> exec (work_arguments d) w args w1 ->
  refines 0 (flow_of w) (flow_of (advance j d (Calling args) w1))
  /\ inv (advance j d (Calling args) w1).
Proof.
  intros I Hj He. run He. injection E as <- <-. cbn [log self absorb_all fold_left].
  match goal with |- context [flow_of ?x] =>
    lazymatch x with advance _ _ _ _ => assert (Ef : flow_of x = flow_of w) by (by erewrite flow_advance) end end.
  split; [by left|]. eapply file_inv_still; try done. apply list.Forall_insert; [apply I|done].
Qed.

Lemma contiguous_snoc b l n :
  contiguous b l -> 0 <= n -> contiguous b (l ++ [(to_int64 (end_position b l), n)]).
Proof.
  revert b. induction l as [|[o m] l IH]; intros b H Hn; cbn in *; [done|].
  destruct H as (H1 & H2 & H3). auto.
Qed.
Lemma end_position_snoc b l o n :
  end_position b (l ++ [(o, n)]) = wrap 64 (end_position b l + n).
Proof. revert b. induction l as [|[p m] l IH]; intros b; cbn; [done|]. apply IH. Qed.

(** A call that has moved [n] bytes. *)
Lemma inv_moved w w' d args n e :
  inv w -> workers w = [(d, Calling args)] -> 0 <= n ->
  flow_of w' = flow_of w -> workers w' = [(d, Posting)] ->
  obj w' = set_offset (wrap 64 (offset_ (obj w) + n)) (set_op d (set_result e n (ops (obj w) d)) (obj w)) ->
  ghost w' = (base w, transfers w ++ [(snd args, n)]) -> inv w'.
Proof.
  intros [] Hj Hn Ef Ew Eo Eg. assert (Ep := Ef). injection Ep as Ep1 Ep2 Ep3 Ep4 Ep5 Ep6 Ep7 Ep8.
  assert (Hc : snd args = to_int64 (offset_ (obj w))).
  { rewrite Hj in i_calls0. rewrite list.Forall_singleton in i_calls0. exact i_calls0. }
  split; unfold base, transfers in *; rewrite ?Ef, ?Eg, ?Ep5, ?Ew, ?Eo; cbn; try done.
  - intros f. rewrite Ep1. rewrite Hj in i_ref0. apply i_ref0.
  - intros f. rewrite Ep3. rewrite <- i_impl_ref0. by destruct (decide (f = d)) as [->|].
  - intros f co Hf. destruct (decide (f = d)) as [->|]; by apply i_armed0.
  - intros f. destruct (decide (f = d)) as [->|]; apply i_stop0.
  - rewrite Hc, i_position0. by apply contiguous_snoc.
  - by rewrite end_position_snoc, i_position0.
  - by apply list.Forall_singleton.
Qed.

(** The object after the call, and whether the loop is left. *)
Definition after_call (d : dir) (a : reactor_op.answer) (x : file) : bool * file :=
  match a with
  | reactor_op.Ret n | reactor_op.RetAddr n _ _ =>
      (true, set_offset (wrap 64 (offset_ x + n)) (set_op d (set_result 0 n (ops x d)) x))
  | reactor_op.Fail e =>
      if e =? reactor_op.EINTR then (false, x) else (true, set_op d (set_result e 0 (ops x d)) x)
  end.

Lemma exec_call (w w1 : fworld) d args a b :
  exec (work_call d args a) w b w1 ->
  b = fst (after_call d a (obj w))
  /\ exists ev, w1 = add_trace ev (set_obj (snd (after_call d a (obj w))) w).
Proof.
  destruct args as [[fd iov] off]. intros (s & E & ->). unfold work_call, after_call in *.
  destruct a as [n|n ? ?|e]; [..|destruct (e =? reactor_op.EINTR)]; cbn in E;
    injection E as <- <-; (split; [done|]); destruct d; by eexists.
Qed.

Lemma ghost_nil (w : fworld) : (base w, transfers w ++ []) = ghost w.
Proof. unfold base, transfers. rewrite app_nil_r. by destruct (ghost w). Qed.

Lemma file_step_call w j d args a b w1 :
  inv w -> workers w !! j = Some (d, Calling args) -> answer_ok a -> exec (work_call d args a) w b w1 ->
  let w' := advance j d (if b : bool then Posting else Preparing)
              (set_ghost (base w, transfers w ++ moved args a) w1) in
  refines 0 (flow_of w) (flow_of w') /\ inv w'.
Proof.
  intros I Hj Ha He w'. destruct (in_workers w j _ _ I Hj) as (-> & Hp & Hw & Hq).
  apply exec_call in He as (-> & ev & ->).
  assert (Hfl : flow_of w' = flow_of w) by (subst w'; by erewrite flow_advance).
  split; [by left|].
  assert (Hws : forall p, <[O := (d, p)]> (workers w) = [(d, p)]) by (intros p; by rewrite Hw).
  destruct a as [n|n ? ?|e]; cbn in Hfl |- *.
  - eapply inv_moved; try done. cbn. by rewrite Hws.
  - eapply inv_moved; try done. cbn. by rewrite Hws.
  - subst w'. cbn in Hfl |- *. destruct (e =? reactor_op.EINTR).
    + eapply file_inv_still; try done; cbn.
      * apply ghost_nil.
      * rewrite Hws. by apply list.Forall_singleton.
    + eapply file_inv_still; try done; cbn.
      * apply ghost_nil.
      * intros f. by destruct (decide (f = d)) as [->|].
      * intros f co. by destruct (decide (f = d)) as [->|].
      * intros f. by destruct (decide (f = d)) as [->|].
      * rewrite Hws. by apply list.Forall_singleton.
Qed.

(** Both owners of an operation in flight are counted by where it is. *)
Lemma file_step_post w j d w1 :
  inv w -> workers w !! j = Some (d, Posting) -> exec (work_post d) w tt w1 ->
  refines 0 (flow_of w) (flow_of (leave j w1)) /\ inv (leave j w1).
Proof.
  intros I Hj He. destruct (in_workers w j _ _ I Hj) as (-> & Hp & Hw & Hq). run He.
  injection E as <-. cbn [log self].
  match goal with |- context [leave O ?x] => set (w1 := x) end.
  assert (R : refines 0 (flow_of w) (flow_of (leave O w1))) by (right; by eapply flow_leave).
  split; [done|]. pose proof (refines_inv _ _ _ (i_flow w I) R).
  assert (Hr : forall f, ref_ (obj w) f = bool_decide (f = d)).
  { intros f. rewrite (i_ref w I), Hp, Hw. cbn. apply bool_decide_ext. set_solver. }
  assert (Hi : forall f, impl_ref (ops (obj w) f) = false).
  { intros f. rewrite (i_impl_ref w I), Hq. done. }
  destruct I. split; try done; subst w1; cbn.
  - intros f. rewrite Hp, Hw. cbn. rewrite Hr, (bool_decide_false (f ∈ [])) by set_solver.
    destruct (decide (f = d)) as [->|?]; [done|by apply bool_decide_false].
  - intros f. rewrite Hq. cbn. destruct (decide (f = d)) as [->|Hn]; cbn.
    + rewrite Hr, !bool_decide_true by set_solver. done.
    + rewrite Hi, bool_decide_false by set_solver. done.
  - intros f co Hf. destruct (decide (f = d)) as [->|Hn]; by apply i_armed0.
  - intros f. destruct (decide (f = d)) as [->|Hn]; apply i_stop0.
  - by rewrite Hw.
Qed.

Lemma waiting_queue w j d : inv w -> queue w !! j = Some d -> exists co, waiting w d = Some co.
Proof.
  intros I Hj. apply (fi_waits _ _ (i_flow w I) d). unfold places. rewrite !elem_of_app.
  right. right. by eapply list_elem_of_lookup_2.
Qed.

(** Only the operation [d] differs between two files. *)
Definition only_op (d : dir) (o : file_op) (x x' : file) : Prop :=
  fd_ x' = fd_ x /\ offset_ x' = offset_ x /\ ref_ x' = ref_ x
  /\ forall f, ops x' f = if decide (f = d) then o else ops x f.

(** What the handler of an operation reports. *)
Definition report (co : nat) (o : file_op) : list event :=
  [wrote_ec co (result o); wrote_bytes co (if cancelled o then 0 else bytes_transferred o);
   work_finished; resumed co].

Lemma exec_complete (w w1 : fworld) d co :
  armed d co (ops (obj w) d) -> exec (complete d) w tt w1 ->
  exists x, w1 = absorb_all (report co (ops (obj w) d)) (set_obj x w)
    /\ only_op d (set_impl_ref false (set_stop_cb false (ops (obj w) d))) (obj w) x.
Proof.
  intros (A1 & A2 & A3 & A4) (s & E & ->). unfold complete, upd_op, the_op in E.
  unfold_run E. cbn in E. rewrite !decide_True in E by done. cbn in E. rewrite A2, A3 in E.
  injection E as <-. cbn. rewrite A1. eexists. split; [done|]. repeat split.
  intros f. cbn. destruct (decide (f = d)); [by rewrite decide_True|done].
Qed.

Lemma exec_destroy (w w1 : fworld) d :
  exec (destroy_op d) w tt w1 ->
  exists x, w1 = absorb_all [work_finished] (set_obj x w)
    /\ only_op d (set_impl_ref false (set_stop_cb false (ops (obj w) d))) (obj w) x.
Proof.
  intros (s & E & ->). unfold destroy_op, upd_op in E. unfold_run E. cbn in E.
  rewrite !decide_True in E by done. injection E as <-. eexists. split; [done|]. repeat split.
  intros f. cbn. by destruct (decide (f = d)).
Qed.

(** The end of an operation: [w'] has neither its owner nor its coroutine. *)
Lemma file_inv_end w w' d :
  inv w -> queue w = [d] -> pool w = [] -> workers w = [] -> finv 0 (flow_of w') ->
  queue w' = [] -> pool w' = [] -> workers w' = [] -> waiting w' = <[d := None]> (waiting w) ->
  only_op d (set_impl_ref false (set_stop_cb false (ops (obj w) d))) (obj w) (obj w') ->
  ghost w' = ghost w -> inv w'.
Proof.
  intros [] Hq Hp Hw F Hq' Hp' Hw' Ea (_ & E2 & E3 & E4) Eg.
  split; unfold base, transfers in *; rewrite ?Hq', ?Hp', ?Hw', ?Ea, ?Eg, ?E2, ?E3; try done.
  - destruct d; [left|right]; by rewrite fn_lookup_insert.
  - intros f. cbn. rewrite i_ref0, Hp, Hw. done.
  - intros f. rewrite E4. destruct (decide (f = d)) as [->|Hn]; cbn; [done|].
    rewrite i_impl_ref0, Hq. by rewrite !bool_decide_false by set_solver.
  - intros f co. destruct (decide (f = d)) as [->|Hn]; [by rewrite fn_lookup_insert|].
    rewrite fn_lookup_insert_ne, E4, decide_False by done. apply i_armed0.
  - intros f. rewrite E4. destruct (decide (f = d)) as [->|Hn]; [done|].
    rewrite fn_lookup_insert_ne by done. apply i_stop0.
Qed.

Lemma file_step_complete w j d w1 :
  inv w -> queue w !! j = Some d -> exec (complete d) (set_queue (delete j (queue w)) w) tt w1 ->
  refines 0 (flow_of w) (flow_of (set_waiting d None w1)) /\ inv (set_waiting d None w1).
Proof.
  intros I Hj He. destruct (file_in_queue w j d I Hj) as (-> & Hp & Hw & Hq).
  destruct (waiting_queue w _ d I Hj) as [co Hc].
  eapply exec_complete in He as (x & -> & Ho); [|by apply (i_armed w I)].
  match goal with |- refines _ _ (flow_of ?v) /\ _ => set (w' := v) end.
  assert (R : refines 0 (flow_of w) (flow_of w')) by (right; by apply (F_complete 0 (flow_of w) O d co)).
  split; [done|]. pose proof (refines_inv _ _ _ (i_flow w I) R).
  apply (file_inv_end w w' d); try done. cbn. by rewrite Hq.
Qed.

Lemma file_step_destroy_op w j d w1 :
  inv w -> queue w !! j = Some d -> exec (destroy_op d) (set_queue (delete j (queue w)) w) tt w1 ->
  let w' := add_dropped (waiting w d) (set_waiting d None w1) in
  refines 0 (flow_of w) (flow_of w') /\ inv w'.
Proof.
  intros I Hj He w'. destruct (file_in_queue w j d I Hj) as (-> & Hp & Hw & Hq).
  destruct (waiting_queue w _ d I Hj) as [co Hc]. subst w'. rewrite Hc.
  eapply exec_destroy in He as (x & -> & Ho).
  match goal with |- refines _ _ (flow_of ?v) /\ _ => set (w' := v) end.
  assert (R : refines 0 (flow_of w) (flow_of w')).
  { right. pose proof (F_drop 0 (flow_of w) O d co Hj Hc) as S. by rewrite Z.add_0_r in S. }
  split; [done|]. pose proof (refines_inv _ _ _ (i_flow w I) R).
  apply (file_inv_end w w' d); try done. cbn. by rewrite Hq.
Qed.

(** Starting an operation. *)
Definition request_of (d : dir) (co : nat) (iov : list reactor_op.iovec) (t : token) : file_op :=
  mk_file_op co (Some co) (Some co) iov 0 0 (bool_decide (d = reading))
    (bool_decide (t = stopped)) (bool_decide (t <> never)) false.

Lemma exec_init (w w1 : fworld) d accepts co param t r :
  exec (transfer_some d accepts co param t co co) w r w1 ->
  let iov := copy_to param max_buffers in
  exists x, offset_ x = offset_ (obj w) /\
  if iov is [] then
    r = dispatched
    /\ w1 = absorb_all [wrote_ec co reactor_op.success; wrote_bytes co 0; resumed co] (set_obj x w)
    /\ only_op d (set_is_read (bool_decide (d = reading)) (reset (ops (obj w) d))) (obj w) x
  else
    let o := request_of d co iov t in
    r = noop_coroutine
    /\ w1 = absorb_all [work_started; if accepts then pooled d else posted d] (set_obj x w)
    /\ (forall f, ref_ x f = if decide (f = d) then accepts else ref_ (obj w) f)
    /\ (forall f, ops x f = if decide (f = d)
                            then if accepts then o else set_cancelled true (set_impl_ref true o)
                            else ops (obj w) f).
Proof.
  intros (s & E & ->) iov. unfold transfer_some, start, upd_op in E. fold iov in E. unfold_run E.
  destruct iov as [|b iov]; cbn in E.
  - injection E as <- <-. cbn. eexists. split; [|done]. done.
  - exists (self s). destruct t, accepts; cbn in E; injection E as <- <-; (split; [done|]);
      (split; [done|]); (split; [done|]); split; intros f; cbn; destruct d, f; done.
Qed.

Lemma file_step_init w d t accepts co param r w1 :
  inv w -> idle w -> exec (transfer_some d accepts co param t co co) w r w1 ->
  let w' := add_started co (match r with
                            | dispatched => w1
                            | noop_coroutine => set_waiting d (Some co) w1
                            end) in
  refines 0 (flow_of w) (flow_of w') /\ inv w'.
Proof.
  intros I Hi He w'. destruct (nothing w I Hi) as (Hp & Hw & Hq).
  assert (Hd : forall f, waiting w f = None) by (destruct Hi; by intros []).
  assert (Hr : forall f, ref_ (obj w) f = false /\ impl_ref (ops (obj w) f) = false).
  { intros f. by rewrite (i_ref w I), (i_impl_ref w I), Hp, Hw, Hq. }
  apply exec_init in He as (x & Ex & He). destruct (copy_to param max_buffers) as [|b iov].
  - destruct He as (-> & -> & _ & _ & Er & Eo). subst w'. cbn.
    assert (R : refines 0 (flow_of w) (flow_of (add_started co (absorb_all
              [wrote_ec co reactor_op.success; wrote_bytes co 0; resumed co] (set_obj x w)))))
      by (right; by apply (F_immediate 0 (flow_of w) co)).
    split; [done|]. pose proof (refines_inv _ _ _ (i_flow w I) R). destruct I. split; try done; cbn.
    + by rewrite Er.
    + intros f. rewrite Eo, Hq. destruct (decide (f = d)); [done|]. apply Hr.
    + intros f c. by rewrite Hd.
    + intros f. rewrite Eo. destruct (decide (f = d)); [done|]. apply i_stop0.
    + by rewrite Ex.
    + by rewrite Hw.
  - destruct He as (-> & -> & Er & Eo). subst w'.
    match goal with |- refines _ _ (flow_of ?v) /\ _ => set (w' := v) end.
    assert (R : refines 0 (flow_of w) (flow_of w')).
    { right. destruct accepts; [apply (F_start 0 (flow_of w) d co)|apply (F_refused 0 (flow_of w) d co)];
        apply Hd. }
    split; [done|]. pose proof (refines_inv _ _ _ (i_flow w I) R).
    assert (Ew : waiting w' = <[d := Some co]> (waiting w)) by (by destruct accepts).
    destruct I. split; try done; rewrite ?Ew.
    + destruct d; [right|left]; rewrite fn_lookup_insert_ne by done; apply Hd.
    + intros f. assert (ref_ (obj w') f = if decide (f = d) then accepts else ref_ (obj w) f) as ->.
      { destruct accepts; apply Er. }
      destruct (Hr f) as [-> _]. destruct accepts; cbn; rewrite Hp, Hw; cbn;
        destruct (decide (f = d)) as [->|Hn]; symmetry; apply bool_decide_true || apply bool_decide_false;
        set_solver.
    + intros f. assert (ops (obj w') f = ops x f) as -> by (by destruct accepts). rewrite Eo.
      destruct (Hr f) as [_ Hf]. destruct accepts; cbn; rewrite Hq; cbn;
        destruct (decide (f = d)) as [->|Hn]; cbn; rewrite ?Hf; symmetry;
        apply bool_decide_true || apply bool_decide_false; set_solver.
    + intros f c. assert (ops (obj w') f = ops x f) as -> by (by destruct accepts). rewrite Eo.
      destruct (decide (f = d)) as [->|Hn]; [|by rewrite fn_lookup_insert_ne, Hd].
      rewrite fn_lookup_insert. intros [= <-]. by destruct accepts.
    + intros f. assert (ops (obj w') f = ops x f) as -> by (by destruct accepts). rewrite Eo.
      destruct (decide (f = d)) as [->|Hn]; [rewrite fn_lookup_insert; eauto|].
      rewrite fn_lookup_insert_ne by done. apply i_stop0.
    + by destruct accepts.
    + destruct accepts; cbn; by rewrite Ex.
    + assert (workers w' = []) as -> by (by destruct accepts). done.
Qed.

(** Stop requests, [cancel] and [close] leave the operations where they are. *)
Lemma file_step_quiet w w1 (m : FM unit) :
  inv w -> exec m w tt w1 ->
  wp m (fun _ s => Forall (fun e => effect_of e = e_none) (log s)
          /\ offset_ (self s) = offset_ (obj w) /\ ref_ (self s) = ref_ (obj w)
          /\ forall f, ops (self s) f = ops (obj w) f
                       \/ ops (self s) f = request_cancel (ops (obj w) f)) (mk_st (obj w) []) ->
  refines 0 (flow_of w) (flow_of w1) /\ inv w1.
Proof.
  intros I He H. destruct (exec_run _ _ _ _ _ H He) as (s & (Hl & Eo & Er & Ep) & ->).
  destruct (absorb_none (log s) (set_obj (self s) w) Hl) as (E1 & E2 & E3 & E4).
  split; [by left|]. eapply file_inv_still; try done; rewrite ?E3, ?E4; try done.
  - intros d. cbn. rewrite Er. by destruct (Ep d) as [-> | ->].
  - intros d co. cbn. by destruct (Ep d) as [-> | ->].
  - intros d. cbn. by destruct (Ep d) as [-> | ->].
  - apply I.
Qed.

Lemma cancel_quiet x :
  wp cancel (fun _ s => log s = [] /\ offset_ (self s) = offset_ x /\ ref_ (self s) = ref_ x
                        /\ forall f, ops (self s) f = request_cancel (ops x f)) (mk_st x []).
Proof. repeat split. by intros []. Qed.

(** Code that leaves the operations and their owners alone. *)
Definition quiet {A} (m : FM A) : Prop :=
  forall s a s', m s = Ok (a, s') ->
  (exists l, log s' = log s ++ l /\ Forall (fun e => effect_of e = e_none) l)
  /\ ref_ (self s') = ref_ (self s) /\ ops (self s') = ops (self s).

Lemma quiet_bind {A B} (m : FM A) (k : A -> FM B) :
  quiet m -> (forall a, quiet (k a)) -> quiet (m ≫= k).
Proof.
  intros Hm Hk s b s' E. unfold mbind, M_bind in E. destruct (m s) as [[a s1]| |] eqn:E1; try done.
  destruct (Hm _ _ _ E1) as ((l1 & L1 & N1) & R1 & O1).
  destruct (Hk _ _ _ _ E) as ((l2 & L2 & N2) & R2 & O2).
  split; [|split; congruence]. exists (l1 ++ l2). rewrite L2, L1, app_assoc. split; [done|].
  by apply list.Forall_app.
Qed.
Lemma quiet_ret {A} (a : A) : quiet (mret a).
Proof. intros s b s' [= <- <-]. repeat split. exists []. by rewrite app_nil_r. Qed.
Lemma quiet_fault {A} : quiet (@fault _ A).
Proof. by intros s b s' [=]. Qed.
Lemma quiet_this : quiet this.
Proof. intros s b s' [= <- <-]. repeat split. exists []. by rewrite app_nil_r. Qed.
Lemma quiet_emit e : effect_of e = e_none -> quiet (emit e).
Proof. intros H s b s' [= <- <-]. repeat split. exists [e]. by repeat constructor. Qed.
Lemma quiet_upd f :
  (forall x, ref_ (f x) = ref_ x /\ ops (f x) = ops x) -> quiet (upd f).
Proof.
  intros H s b s' [= <- <-]. split; [|apply H]. exists []. by rewrite app_nil_r.
Qed.

Ltac quiet_tac :=
  repeat (intros; cbn beta; lazymatch goal with
  | |- quiet (_ ≫= _) => apply quiet_bind
  | |- quiet (mret _) => apply quiet_ret
  | |- quiet skip => apply quiet_ret
  | |- quiet fault => apply quiet_fault
  | |- quiet this => apply quiet_this
  | |- quiet (emit _) => by apply quiet_emit
  | |- quiet (upd _) => by apply quiet_upd
  | |- quiet (if ?b then _ else _) => destruct b
  | |- quiet (match ?b with _ => _ end) => destruct b
  end).

Lemma close_quiet : quiet close_file.
Proof. unfold close_file. quiet_tac. Qed.
Lemma move_to_quiet p : quiet (move_to p).
Proof. unfold move_to. quiet_tac. Qed.
Lemma add_int64_quiet a b : quiet (add_int64 a b).
Proof. unfold add_int64. quiet_tac. Qed.
Lemma sync_quiet f : quiet (run_sync f).
Proof.
  destruct f; cbn.
  - unfold open_file. quiet_tac. apply close_quiet.
  - unfold release. quiet_tac.
  - unfold assign. quiet_tac. apply close_quiet.
  - unfold seek, file_size. quiet_tac; auto using move_to_quiet, add_int64_quiet.
Qed.

Lemma step_sync w f w1 :
  inv w -> idle w -> exec (run_sync f) w tt w1 ->
  let w' := set_ghost (offset_ (obj w1), []) w1 in
  refines 0 (flow_of w) (flow_of w') /\ inv w'.
Proof.
  intros I Hi (s & E & ->) w'. destruct (nothing w I Hi) as (Hp & Hw & Hq).
  destruct (sync_quiet f _ _ _ E) as ((l & El & Hl) & Er & Eo). cbn in El, Er, Eo.
  rewrite <- El in Hl. destruct (absorb_none (log s) (set_obj (self s) w) Hl) as (E1 & E2 & E3 & E4).
  assert (Ef : flow_of w' = flow_of w) by done.
  assert (Ex : obj w' = self s) by (subst w'; cbn; by rewrite E4).
  assert (Ew : workers w' = []) by (subst w'; cbn; by rewrite E3, <- Hw).
  assert (Eg : ghost w' = (offset_ (obj w'), [])) by done.
  clearbody w'. split; [by left|].
  assert (Ep := Ef). injection Ep as Ep1 Ep2 Ep3 Ep4 Ep5 Ep6 Ep7 Ep8.
  destruct I. split; unfold base, transfers; rewrite ?Ef, ?Ep5, ?Ew, ?Eg; try done.
  - intros d. by rewrite Ep1, Ex, Er, i_ref0, Hw.
  - intros d. by rewrite Ep3, Ex, Eo.
  - intros d co Hd. rewrite Ex, Eo. auto.
  - intros d. rewrite Ex, Eo. apply i_stop0.
Qed.

Lemma close_keeps x :
  wp close_file (fun _ s => Forall (fun e => effect_of e = e_none) (log s)
       /\ offset_ (self s) = offset_ x /\ ref_ (self s) = ref_ x
       /\ forall f, ops (self s) f = ops x f \/ ops (self s) f = request_cancel (ops x f)) (mk_st x []).
Proof.
  unfold close_file, this. wp_steps; (split; [by repeat constructor|]); repeat split; by left.
Qed.

(** A step is a step of the life of the operations, or none; and the invariant
    is kept. *)
Lemma file_step_ok w w' : inv w -> step w w' -> refines 0 (flow_of w) (flow_of w') /\ inv w'.
Proof.
  intros I H. destruct H.
  - by eapply file_step_init.
  - assert (R : refines 0 (flow_of w) (flow_of (take j d Checking w))) by (right; by apply flow_take).
    split; [done|]. pose proof (refines_inv _ _ _ (i_flow w I) R).
    destruct (in_pool w j d I H) as (-> & Hp & Hw & Hq). destruct I. split; try done; cbn.
    + intros f. by rewrite i_ref0, Hp, Hw.
    + rewrite Hw. by apply list.Forall_singleton.
  - by eapply file_step_check.
  - by eapply file_step_arguments.
  - by eapply file_step_call.
  - by eapply file_step_post.
  - by eapply file_step_complete.
  - by eapply file_step_destroy_op.
  - eapply file_step_quiet; try done. repeat split; [constructor|].
    intros f. cbn. destruct (decide (f = d)) as [->|]; [by right|by left].
  - eapply file_step_quiet; try done. eapply wp_mono; [apply cancel_quiet|].
    intros _ s (-> & ? & ? & E). split; [constructor|]. split; [done|]. split; [done|]. eauto.
  - eapply file_step_quiet; try done. apply close_keeps.
  - split; [by left|]. by eapply file_inv_still; try done; try apply I.
  - by eapply step_sync.
Qed.

Lemma file_reachable_inv w : reachable w -> inv w.
Proof.
  unfold reachable. revert w. apply rtc_ind_r; [apply initial_inv|].
  intros y z _ Hs I. by apply (file_step_ok y z).
Qed.
