(* ===== verification/StreamFileClaims.v ===== *)
(** What a stream file promises: theorems on [posix_stream_file] and its
    operations in every interleaving (StreamFileSteps.v), and on its synchronous
    functions (StreamFile.v). *)

From stdpp Require Import relations functions list_tactics.
From S2P Require Import Prelude StateMonad ReactorOp BasicSocket PoolFlow PoolWorld StreamFile StreamFileSteps.
Import stream_file.

(** Every step is a step of the life of pooled operations, or leaves it alone. *)
Theorem file_refines_flow w w' :
  reachable w -> step w w' -> refines 0 (flow_of w) (flow_of w').
Proof. intros H. apply file_step_ok. by apply file_reachable_inv. Qed.

(** An operation in flight is in one place only, and a coroutine is resumed as
    often as its operations were started, less those in flight or destroyed; the
    work counted is that of the operations in flight. *)
Theorem file_operations_complete_once w :
  reachable w ->
  let at_work := pool w ++ (fst <$> workers w) ++ queue w in
  NoDup at_work
  /\ (forall d, d ∈ at_work <-> is_Some (waiting w d))
  /\ work w = Z.of_nat (length at_work)
  /\ forall co, occ co (started w) = occ co (ended w) + occ co (dropped w)
                  + zsum (waits (flow_of w) co) at_work.
Proof.
  intros H. destruct (i_flow w (file_reachable_inv w H)) as [F1 F2 F3 F4].
  split; [exact F1|]. split; [exact F2|]. split; [|exact F4]. cbn in F3. unfold places in F3. cbn in F3. lia.
Qed.

(** The owners of the file: the service, and the operation in flight. *)
Lemma refs_exact w :
  inv w -> refs w = b2z (in_service w) + Z.of_nat (length (places (flow_of w))).
Proof.
  intros I. unfold refs. rewrite !(i_ref w I), !(i_impl_ref w I).
  assert (E : forall d, d ∈ places (flow_of w) -> places (flow_of w) = [d]) by (intros d; by apply one_place).
  unfold places in *. cbn in E |- *. rewrite app_assoc in *.
  set (l := pool w ++ (fst <$> workers w)) in *. set (q := queue w) in *. clearbody l q.
  destruct l as [|d l]; cbn in E |- *.
  - destruct q as [|d q]; [by destruct (in_service w)|]. specialize (E d (list_elem_of_here _ _)). injection E as ->.
    by destruct d, (in_service w).
  - specialize (E d (list_elem_of_here _ _)). injection E as E. apply app_eq_nil in E as [-> ->].
    by destruct d, (in_service w).
Qed.

Lemma placed_alive w d : inv w -> d ∈ places (flow_of w) -> 1 <= refs w.
Proof.
  intros I Hd. rewrite (refs_exact w I), (one_place w d I Hd). pose proof (b2z_le_1 (in_service w)).
  cbn. lia.
Qed.

(** C21: Whatever happens to the file - a pool thread at any point of its work, a
    completion, a stop request - happens while one of its owners is left. *)
Theorem file_outlives_its_operations w w' : reachable w -> step w w' -> 1 <= refs w.
Proof.
  intros H S. apply file_reachable_inv in H as I.
  assert (Hs : in_service w = true -> 1 <= refs w).
  { intros E. rewrite (refs_exact w I), E. cbn. lia. }
  assert (Hw : forall j x, workers w !! j = Some x -> 1 <= refs w).
  { intros j x Hj. apply (placed_alive w (fst x) I). unfold places. rewrite !elem_of_app.
    right. left. apply list_elem_of_fmap. exists x. split; [done|]. by eapply list_elem_of_lookup_2. }
  assert (Hq : forall j x, queue w !! j = Some x -> 1 <= refs w).
  { intros j x Hj. apply (placed_alive w x I). unfold places. rewrite !elem_of_app.
    right. right. by eapply list_elem_of_lookup_2. }
  destruct S; eauto.
  - apply (placed_alive w d I). unfold places. rewrite !elem_of_app. left. by eapply list_elem_of_lookup_2.
  - apply (placed_alive w d I), (fi_waits _ _ (i_flow w I)), (i_stop w I). done.
Qed.

(** C22: Since the position was last set, each transfer started where the one before
    it ended, and the position is where the last of them ended. *)
Theorem file_transfers_contiguous w :
  reachable w ->
  contiguous (base w) (transfers w) /\ offset_ (obj w) = end_position (base w) (transfers w).
Proof. intros H. destruct (file_reachable_inv w H). done. Qed.

(** The handler of an operation reports [canceled] and no bytes when it was
    cancelled, else the error of the call, the end of the file for a read of no
    bytes, or the bytes transferred; it releases the work and resumes the
    coroutine that waits. *)
Theorem file_completion_reports w j d w1 :
  reachable w -> queue w !! j = Some d ->
  exec (complete d) (set_queue (delete j (queue w)) w) tt w1 ->
  exists co, waiting w d = Some co
  /\ let o := ops (obj w) d in
     trace w1 = trace w ++
       [wrote_ec co (if cancelled o then reactor_op.canceled
                     else if negb (errn o =? 0) then reactor_op.make_err (errn o)
                     else if bool_decide (d = reading) && (bytes_transferred o =? 0)
                          then reactor_op.eof else reactor_op.success);
        wrote_bytes co (if cancelled o then 0 else bytes_transferred o);
        work_finished; resumed co].
Proof.
  intros H Hj He. apply file_reachable_inv in H as I. destruct (waiting_queue w j d I Hj) as [co Hc].
  exists co. split; [done|]. pose proof (i_armed w I d co Hc) as A.
  eapply exec_complete in He as (x & -> & _); [|done]. cbn. unfold result.
  destruct A as (_ & _ & _ & ->). by rewrite <- !app_assoc.
Qed.

(** * Cancellation *)

Definition is_cancelled (w : fworld) (d : dir) : Prop := cancelled (ops (obj w) d) = true.

(** Code keeps a request to cancel unless it starts the operation anew. *)
Lemma exec_call_cancelled (w w1 : fworld) d f args a b :
  exec (work_call f args a) w b w1 -> is_cancelled w d -> is_cancelled w1 d.
Proof.
  unfold is_cancelled. intros (_ & ev & ->)%exec_call H. cbn. unfold after_call.
  destruct a as [n|n ? ?|e]; [..|destruct (e =? reactor_op.EINTR)]; cbn; try done;
    by destruct (decide (d = f)) as [->|].
Qed.

(** A cancelled operation stays cancelled until it completes, and completes with
    [canceled] and no bytes, or is destroyed. *)
Theorem file_cancel_is_final w d co w' :
  reachable w -> waiting w d = Some co -> cancelled (ops (obj w) d) = true -> step w w' ->
  (waiting w' d = Some co /\ cancelled (ops (obj w') d) = true)
  \/ trace w' = trace w ++ [wrote_ec co reactor_op.canceled; wrote_bytes co 0; work_finished; resumed co]
  \/ dropped w' = dropped w ++ [co].
Proof.
  intros H Hc Hx S. apply file_reachable_inv in H as I.
  assert (Hn : forall e, idle w -> e) by (intros e [H1 H2]; destruct d; congruence).
  assert (Hk : forall (m : FM unit) w1, exec m w tt w1 -> 
    wp m (fun _ s => Forall (fun e => effect_of e = e_none) (log s)
          /\ forall f, ops (self s) f = ops (obj w) f
                       \/ ops (self s) f = request_cancel (ops (obj w) f)) (mk_st (obj w) []) ->
    waiting w1 d = Some co /\ cancelled (ops (obj w1) d) = true).
  { intros m w1 He Hm. destruct (exec_run _ _ _ _ _ Hm He) as (s & (Hl & Ep) & ->).
    destruct (absorb_none (log s) (set_obj (self s) w) Hl) as (E1 & _ & _ & ->). split.
    - rewrite <- Hc. exact (f_equal (fun f => f_waiting f d) E1).
    - cbn. by destruct (Ep d) as [-> | ->]. }
  destruct S as [? ? ? ? ? ? ? _ Hi _|? ? _|j f b w1 Hj He|j f args w1 Hj He|j f args a b w1 Hj Ha He
    |j f w1 Hj He|j f w1 Hj He|j f w1 Hj He|f w1 _ He|w1 _ He|w1 _ He|_|? ? _ Hi _];
    try (by apply Hn); try (by left).
  - left. destruct He as (s & E & ->). injection E as <- <-. done.
  - left. destruct He as (s & E & ->). injection E as <- <-. done.
  - left. apply exec_call in He as E. destruct E as (-> & ev & ->). split; [done|].
    exact (exec_call_cancelled _ _ d _ _ _ _ He Hx).
  - left. destruct He as (s & E & ->). injection E as <-. split; [done|]. cbn.
    by destruct (decide (d = f)) as [->|].
  - destruct (file_in_queue w j f I Hj) as (-> & _ & _ & Hq).
    destruct (waiting_queue w _ f I Hj) as [c Hc0].
    assert (f = d) as ->.
    { destruct (i_one w I), f, d; congruence. }
    right. left. eapply exec_complete in He as (x & -> & _); [|by apply (i_armed w I)].
    cbn. unfold result. rewrite Hx, <- !app_assoc. assert (c = co) as -> by congruence. done.
  - destruct (file_in_queue w j f I Hj) as (-> & _ & _ & Hq).
    destruct (waiting_queue w _ f I Hj) as [c Hc0].
    assert (f = d) as ->.
    { destruct (i_one w I), f, d; congruence. }
    right. right. eapply exec_destroy in He as (x & -> & _). cbn. by rewrite Hc.
  - left. eapply Hk; [done|]. split; [constructor|].
    intros e. cbn. destruct (decide (e = f)) as [->|]; [by right|by left].
  - left. eapply Hk; [done|]. eapply wp_mono; [apply cancel_quiet|].
    intros _ s (-> & ? & ? & E). split; [constructor|]. eauto.
  - left. eapply Hk; [done|]. eapply wp_mono; [apply close_keeps|]. naive_solver.
Qed.

(** * Progress *)

Lemma complete_ok d s : exists s', complete d s = Ok (tt, s').
Proof.
  unfold complete, upd_op, the_op. unfold_run_goal.
  destruct (ec_out _), (bytes_out _); eauto.
Qed.

(** The operation in flight has ended, and its coroutine is resumed. *)
Definition settled (w : fworld) (d : dir) (co : nat) (w' : fworld) : Prop :=
  waiting w' d = None /\ ended w' = ended w ++ [co].

Lemma file_finish_queued w d co :
  inv w -> queue w = [d] -> waiting w d = Some co -> exists w', rtc step w w' /\ settled w d co w'.
Proof.
  intros I Hq Hc. assert (Hj : queue w !! O = Some d) by (by rewrite Hq).
  destruct (complete_ok d (mk_st (obj w) [])) as [s E].
  assert (He : exec (complete d) (set_queue (delete O (queue w)) w) tt
    (absorb_all (log s) (set_obj (self s) (set_queue (delete O (queue w)) w)))) by (eexists; eauto).
  eexists. split; [eapply rtc_once, S_complete; [exact Hj|exact He]|].
  eapply exec_complete in He as (x & E' & _); [|by apply (i_armed w I)].
  unfold settled. rewrite E'. cbn. by rewrite fn_lookup_insert.
Qed.

(** One step of a thread of the pool, after which the rest is finished. *)
Lemma file_finish_step w w1 d co :
  inv w -> step w w1 -> waiting w1 d = Some co -> ended w1 = ended w ->
  (inv w1 -> waiting w1 d = Some co -> exists w', rtc step w1 w' /\ settled w1 d co w') ->
  exists w', rtc step w w' /\ settled w d co w'.
Proof.
  intros I S Hc He H. destruct (file_step_ok w w1 I S) as [_ I1]. destruct (H I1 Hc) as (w' & R & E1 & E2).
  exists w'. split; [by eapply rtc_l|]. split; [done|]. by rewrite E2, He.
Qed.

Lemma file_finish_worker w d p co :
  inv w -> workers w = [(d, p)] -> waiting w d = Some co ->
  exists w', rtc step w w' /\ settled w d co w'.
Proof.
  intros I Hw Hc. assert (Hj : forall (v : fworld) q, workers v = [(d, q)] -> workers v !! O = Some (d, q))
    by (by intros v q ->).
  assert (HP : forall v : fworld, inv v -> workers v = [(d, Posting)] -> waiting v d = Some co ->
             exists w', rtc step v w' /\ settled v d co w').
  { intros v Iv Hv Hcv. destruct (in_workers v O _ _ Iv (Hj v _ Hv)) as (_ & _ & _ & Hq).
    eapply file_finish_step; [done|eapply S_post; [by apply Hj|by eexists]|done|done|].
    intros I1 Hc1. apply file_finish_queued; [done| |done]. cbn. by rewrite Hq. }
  assert (HC : forall v args, inv v -> workers v = [(d, Calling args)] -> waiting v d = Some co ->
             exists w', rtc step v w' /\ settled v d co w').
  { intros v [[fd iov] off] Iv Hv Hcv.
    eapply file_finish_step; [done|eapply (S_call v O d _ (reactor_op.Ret 0)); [by apply Hj|done|by eexists]| | |].
    - by destruct d.
    - by destruct d.
    - intros I1 Hc1. apply HP; [done| |done]. destruct d; cbn; by rewrite Hv. }
  assert (HA : forall v, inv v -> workers v = [(d, Preparing)] -> waiting v d = Some co ->
             exists w', rtc step v w' /\ settled v d co w').
  { intros v Iv Hv Hcv.
    eapply file_finish_step; [done|eapply S_arguments; [by apply Hj|by eexists]|done|done|].
    intros I1 Hc1. eapply HC; [done| |done]. cbn. by rewrite Hv. }
  destruct p as [| |args|]; eauto.
  eapply file_finish_step; [done|eapply S_check; [by apply Hj|by eexists]|done|done|].
  intros I1 Hc1. destruct (negb (cancelled (ops (obj w) d))) eqn:E; [apply HA|apply HP]; try done;
    cbn; rewrite Hw; cbn; by rewrite E.
Qed.

(** From every reachable state, whatever was cancelled, closed or released
    before, the threads of the pool and of the scheduler can end the operation in
    flight and resume its coroutine. *)
Theorem file_operation_can_finish w d co :
  reachable w -> waiting w d = Some co ->
  exists w', rtc step w w' /\ waiting w' d = None /\ ended w' = ended w ++ [co].
Proof.
  intros H Hc. apply file_reachable_inv in H as I.
  assert (Hd : d ∈ places (flow_of w)) by (apply (fi_waits _ _ (i_flow w I)); cbn; eauto).
  unfold places in Hd. cbn in Hd. rewrite !elem_of_app in Hd.
  destruct Hd as [[j Hj]%list_elem_of_lookup|[([f p] & -> & [j Hj]%list_elem_of_lookup)%list_elem_of_fmap
                 |[j Hj]%list_elem_of_lookup]].
  - destruct (in_pool w j d I Hj) as (-> & Hp & Hw & Hq).
    eapply (file_finish_step w _ d co); [done|by eapply S_take|done|done|].
    intros I1 Hc1. eapply (file_finish_worker _ d Checking); [done| |done]. cbn. by rewrite Hw.
  - destruct (in_workers w j f p I Hj) as (-> & Hp & Hw & Hq). by eapply file_finish_worker.
  - destruct (file_in_queue w j d I Hj) as (-> & Hp & Hw & Hq). by eapply file_finish_queued.
Qed.

(** * Synchronous functions *)

(** Where [seek] is asked to go; [n] is the size of the file. *)
Definition seek_target (x : file) (offset : Z) (origin : seek_basis) (n : Z) : Z :=
  match origin with
  | seek_set => offset
  | seek_cur => to_int64 (offset_ x) + offset
  | seek_end => n + offset
  end.

(** C40: [seek] moves to its target, and refuses a negative one with [EINVAL]; a
    target that no 64-bit integer holds is a signed overflow, so the test that
    throws [EOVERFLOW] never succeeds. *)
Theorem seek_exact x l offset origin n :
  in_int64 offset = true ->
  seek offset origin (reactor_op.Ret n) (mk_st x l)
  = let l' := match origin with seek_end => l ++ [stat_of (fd_ x)] | _ => l end in
    let p := seek_target x offset origin n in
    if in_int64 p then
      Ok (if p <? 0 then (inl (reactor_op.make_err reactor_op.EINVAL), mk_st x l')
          else (inr p, mk_st (set_offset p x) l'))
    else Fault.
Proof.
  intros Ho.
  assert (Hm : forall p x' l', in_int64 p = true ->
    move_to p (mk_st x' l') = Ok (if p <? 0 then (inl (reactor_op.make_err reactor_op.EINVAL), mk_st x' l')
          else (inr p, mk_st (set_offset p x') l'))).
  { intros p x' l' Hp. unfold move_to. destruct (p <? 0); [done|].
    assert (off_max <? p = false) as ->; [|done]. unfold in_int64 in Hp. unfold off_max. blia. }
  destruct origin; cbn [seek seek_target].
  - rewrite Ho. by apply Hm.
  - unfold add_int64. unfold_run_goal.
    destruct (in_int64 (to_int64 (offset_ x) + offset)) eqn:Hp; [by apply Hm|done].
  - unfold add_int64, file_size. unfold_run_goal.
    destruct (in_int64 (n + offset)) eqn:Hp; [by apply Hm|done].
Qed.

(** [open_file] holds the new descriptor when it succeeds, at the start of the
    file or, in append mode, at its end; when it fails it holds none, and has
    closed the one it obtained.  The descriptor held before is closed. *)
Theorem open_file_exact x mode a b ec s' :
  0 <= fd_ x ->
  open_file mode a b (mk_st x []) = Ok (ec, s') ->
  match a with
  | reactor_op.Fail e =>
      ec = reactor_op.make_err e /\ fd_ (self s') = -1
      /\ log s' = [closed (fd_ x); opened (open_flags mode)]
  | reactor_op.Ret fd | reactor_op.RetAddr fd _ _ =>
      if Z.land mode append =? 0 then
        ec = reactor_op.success /\ fd_ (self s') = fd /\ offset_ (self s') = 0
        /\ log s' = [closed (fd_ x); opened (open_flags mode); fadvised fd]
      else match b with
           | reactor_op.Fail e =>
               ec = reactor_op.make_err e /\ fd_ (self s') = -1
               /\ log s' = [closed (fd_ x); opened (open_flags mode); stat_of fd; closed fd]
           | reactor_op.Ret n | reactor_op.RetAddr n _ _ =>
               ec = reactor_op.success /\ fd_ (self s') = fd /\ offset_ (self s') = wrap 64 n
               /\ log s' = [closed (fd_ x); opened (open_flags mode); stat_of fd; fadvised fd]
           end
  end.
Proof.
  intros Hf E. unfold open_file, close_file in E. unfold_run E.
  apply Z.leb_le in Hf. rewrite Hf in E.
  destruct a as [fd|fd ? ?|e]; try (destruct (Z.land mode append =? 0));
    try (destruct b as [m|m ? ?|e']); cbn in E; by injection E as <- <-.
Qed.

(** * Two interleavings *)

Ltac fexec := apply exec_after; vm_compute; reflexivity.

(** [close] while a thread of the pool is between the evaluation of [fd_] and
    the call: the call is made on a descriptor that is closed, and that another
    file may have obtained since. *)
Example close_races_with_transfer :
  exists w, reachable w
  /\ trace w = [opened O_RDONLY; fadvised 5; work_started; pooled reading;
                closed 5; preadv 5 [reactor_op.mk_iovec 0 8] 0].
Proof.
  eexists. split.
  - eapply rtc_l; [eapply (S_sync _ (Open read_only (reactor_op.Ret 5) (reactor_op.Ret 0)));
      [vm_compute; reflexivity|done|fexec]|].
    eapply rtc_l; [eapply (S_init _ reading never true 1 [reactor_op.mk_iovec 0 8] noop_coroutine); [vm_compute; reflexivity|done|fexec]|].
    eapply rtc_l; [by eapply (S_take _ O reading)|].
    eapply rtc_l; [eapply (S_check _ O reading true); [vm_compute; reflexivity|fexec]|].
    eapply rtc_l; [eapply (S_arguments _ O reading (5, [reactor_op.mk_iovec 0 8], 0)); [vm_compute; reflexivity|fexec]|].
    eapply rtc_l; [eapply S_close; [vm_compute; reflexivity|fexec]|].
    eapply rtc_once. eapply (S_call _ O reading _ (reactor_op.Ret 8) true); [vm_compute; reflexivity|done|fexec].
  - reflexivity.
Qed.

(** A read cancelled after its call has moved bytes reports none of them, and
    the position has advanced past them: the next read starts after them. *)
Example cancelled_read_skips_bytes :
  exists w, reachable w
  /\ trace w = [opened O_RDONLY; fadvised 5; work_started; pooled reading;
                preadv 5 [reactor_op.mk_iovec 0 8] 0; posted reading;
                wrote_ec 1 reactor_op.canceled; wrote_bytes 1 0; work_finished; resumed 1]
  /\ idle w /\ offset_ (obj w) = 8.
Proof.
  eexists. split; [|split; [|split]].
  - eapply rtc_l; [eapply (S_sync _ (Open read_only (reactor_op.Ret 5) (reactor_op.Ret 0)));
      [vm_compute; reflexivity|done|fexec]|].
    eapply rtc_l; [eapply (S_init _ reading never true 1 [reactor_op.mk_iovec 0 8] noop_coroutine); [vm_compute; reflexivity|done|fexec]|].
    eapply rtc_l; [by eapply (S_take _ O reading)|].
    eapply rtc_l; [eapply (S_check _ O reading true); [vm_compute; reflexivity|fexec]|].
    eapply rtc_l; [eapply (S_arguments _ O reading (5, [reactor_op.mk_iovec 0 8], 0)); [vm_compute; reflexivity|fexec]|].
    eapply rtc_l; [eapply (S_call _ O reading _ (reactor_op.Ret 8) true); [vm_compute; reflexivity|done|fexec]|].
    eapply rtc_l; [eapply S_cancel; [vm_compute; reflexivity|fexec]|].
    eapply rtc_l; [eapply (S_post _ O reading); [vm_compute; reflexivity|fexec]|].
    eapply rtc_once. eapply (S_complete _ O reading); [vm_compute; reflexivity|fexec].
  - reflexivity.
  - done.
  - reflexivity.
Qed.

(** * Instances *)

(** A read of eight bytes from a file opened before, up to the call. *)
Definition opened_file : fworld :=
  let w := after (run_sync (Open read_only (reactor_op.Ret 5) (reactor_op.Ret 0))) initial in
  set_ghost (offset_ (obj w), []) w.
Definition reading_file : fworld :=
  take 0 reading Checking
    (add_started 1 (set_waiting reading (Some 1%nat)
       (after (transfer_some reading true 1 [reactor_op.mk_iovec 0 8] never 1 1) opened_file))).
Definition read_args : Z * list reactor_op.iovec * Z := (5, [reactor_op.mk_iovec 0 8], 0).
Definition read_called : fworld :=
  let w := advance 0 reading (Calling read_args) (after (work_arguments reading)
             (advance 0 reading Preparing (after (work_check reading) reading_file))) in
  advance 0 reading Posting
    (set_ghost (base w, transfers w ++ moved read_args (reactor_op.Ret 8))
       (after (work_call reading read_args (reactor_op.Ret 8)) w)).

Lemma reading_file_reachable : reachable reading_file.
Proof.
  eapply rtc_l; [eapply (S_sync _ (Open read_only (reactor_op.Ret 5) (reactor_op.Ret 0)));
    [vm_compute; reflexivity|done|fexec]|].
  eapply rtc_l; [eapply (S_init _ reading never true 1 [reactor_op.mk_iovec 0 8] noop_coroutine);
    [vm_compute; reflexivity|done|fexec]|].
  by apply rtc_once, (S_take _ O reading).
Qed.

Lemma read_called_reachable : reachable read_called.
Proof.
  unfold reachable. etrans; [apply reading_file_reachable|].
  eapply rtc_l; [eapply (S_check _ O reading true); [vm_compute; reflexivity|fexec]|].
  eapply rtc_l; [eapply (S_arguments _ O reading read_args); [vm_compute; reflexivity|fexec]|].
  apply rtc_once. eapply (S_call _ O reading read_args (reactor_op.Ret 8) true); [vm_compute; reflexivity|done|fexec].
Qed.

Lemma file_outlives_its_operations_witness :
  in_service (set_service false reading_file) = false /\ 1 <= refs (set_service false reading_file).
Proof.
  split; [reflexivity|].
  apply (file_outlives_its_operations (set_service false reading_file)
           (advance 0 reading Preparing (after (work_check reading) (set_service false reading_file)))).
  - eapply rtc_r; [apply reading_file_reachable|]. by apply S_release.
  - eapply (S_check _ O reading true); [vm_compute; reflexivity|fexec].
Defined.

Lemma file_transfers_contiguous_witness :
  transfers read_called = [(0, 8)] /\ contiguous 0 [(0, 8)] /\ offset_ (obj read_called) = 8.
Proof.
  split; [vm_compute; reflexivity|].
  destruct (file_transfers_contiguous read_called read_called_reachable) as [H1 H2].
  split; [exact H1|exact H2].
Defined.

Lemma seek_exact_witness :
  seek (-3) seek_cur (reactor_op.Ret 0) (mk_st (set_offset 2 new_file) [])
  = Ok (inl (reactor_op.make_err reactor_op.EINVAL), mk_st (set_offset 2 new_file) []).
Proof. rewrite (seek_exact _ _ (-3) seek_cur 0); reflexivity. Defined.
