(* ===== verification/RandomFile.v ===== *)
(** Random-access files on POSIX:
    [include/boost/corosio/native/detail/posix/posix_random_access_file.hpp] and
    [posix_random_access_file_service.hpp].

    Each transfer allocates a [raf_op], which is the item of the pool and of the
    scheduler in turn, is listed in the file for [cancel], and deletes itself
    when it is completed or destroyed.  Operations are addresses; an access to
    one that is not allocated is a fault.  Any number of them is in flight.

    The work of a pool thread is cut as for stream files (StreamFile.v). *)

From stdpp Require Import gmap.
From S2P Require Import Prelude StateMonad ReactorOp BasicSocket PoolWorld StreamFile.
Import reactor_op PoolWorld.
Import stream_file(EOVERFLOW, off_max, to_int64, token(..), outcome(..), with_flag, access_flags,
  create, exclusive, truncate, sync_all_on_write, O_CREAT, O_EXCL, O_TRUNC, O_SYNC, throws, thrown, max_buffers).

Module random_file.

(** * Data *)

(** [stop_cb] and [file_ref] are whether the callback and the pointer are set;
    [file_] always is the file. *)
Record raf_op := mk_raf_op {
  h : nat;
  ec_out : option nat;
  bytes_out : option nat;
  iovecs : list iovec;
  offset : Z;
  errn : Z;
  bytes_transferred : Z;
  is_read : bool;
  cancelled : bool;
  stop_cb : bool;
  file_ref : bool
}.

(** [heap] are the operations that are allocated. *)
Record file := mk_file {
  fd_ : Z;
  outstanding_ops_ : list nat;
  heap : gmap nat raf_op
}.

Definition new_file : file := mk_file (-1) [] ∅.

Definition set_fd (f : Z) (x : file) : file := mk_file f (outstanding_ops_ x) (heap x).
Definition set_outstanding (l : list nat) (x : file) : file := mk_file (fd_ x) l (heap x).
Definition set_heap (m : gmap nat raf_op) (x : file) : file := mk_file (fd_ x) (outstanding_ops_ x) m.
Definition store (k : nat) (o : raf_op) (x : file) : file := set_heap (<[k := o]> (heap x)) x.
Definition free (k : nat) (x : file) : file := set_heap (delete k (heap x)) x.

Definition set_cancelled (b : bool) (o : raf_op) : raf_op :=
  mk_raf_op (h o) (ec_out o) (bytes_out o) (iovecs o) (offset o) (errn o) (bytes_transferred o)
    (is_read o) b (stop_cb o) (file_ref o).
Definition set_stop_cb (b : bool) (o : raf_op) : raf_op :=
  mk_raf_op (h o) (ec_out o) (bytes_out o) (iovecs o) (offset o) (errn o) (bytes_transferred o)
    (is_read o) (cancelled o) b (file_ref o).
Definition set_file_ref (b : bool) (o : raf_op) : raf_op :=
  mk_raf_op (h o) (ec_out o) (bytes_out o) (iovecs o) (offset o) (errn o) (bytes_transferred o)
    (is_read o) (cancelled o) (stop_cb o) b.
Definition set_result (e n : Z) (o : raf_op) : raf_op :=
  mk_raf_op (h o) (ec_out o) (bytes_out o) (iovecs o) (offset o) e n (is_read o) (cancelled o)
    (stop_cb o) (file_ref o).

Inductive event :=
| opened (oflags : Z)
| stat_of (fd : Z)
| fadvised (fd : Z)
| truncated (fd size : Z)
| data_synced (fd : Z)
| synced (fd : Z)
| closed (fd : Z)
| preadv (fd : Z) (iov : list iovec) (off : Z)
| pwritev (fd : Z) (iov : list iovec) (off : Z)
| wrote_ec (p : nat) (e : error_code)
| wrote_bytes (p : nat) (n : Z)
| resumed (co : nat)
| work_started
| work_finished
| pooled (k : nat)
| posted (k : nat).

#[export] Instance event_effects : effects event nat := fun e =>
  match e with
  | pooled k => e_pooled k
  | posted k => e_posted k
  | work_started => e_work 1
  | work_finished => e_work (-1)
  | resumed co => e_resumed co
  | _ => e_none
  end.

Abbreviation RM := (M (st file event)).

Definition the_op (k : nat) : RM raf_op := x ← this; deref (heap x !! k).
Definition upd_op (k : nat) (f : raf_op -> raf_op) : RM unit :=
  o ← the_op k; upd (store k (f o)).

(** * Opening, closing and the synchronous functions *)

Definition close_file : RM unit :=
  x ← this;
  if 0 <=? fd_ x then emit (closed (fd_ x)) ≫= fun _ => upd (set_fd (-1)) else skip.

(** No [O_APPEND] *)
Definition open_flags (mode : Z) : Z :=
  with_flag mode sync_all_on_write O_SYNC
    (with_flag mode truncate O_TRUNC
      (with_flag mode exclusive O_EXCL (with_flag mode create O_CREAT (access_flags mode)))).

Definition open_file (mode : Z) (a : answer) : RM error_code :=
  close_file ≫= fun _ =>
  emit (opened (open_flags mode)) ≫= fun _ =>
  match a with
  | Fail e => mret (make_err e)
  | Ret fd | RetAddr fd _ _ =>
      upd (set_fd fd) ≫= fun _ => emit (fadvised fd) ≫= fun _ => mret success
  end.

Definition size (a : answer) : RM (throws Z) :=
  x ← this;
  emit (stat_of (fd_ x)) ≫= fun _ =>
  match a with
  | Fail e => mret (inl (make_err e))
  | Ret n | RetAddr n _ _ => mret (inr (wrap 64 n))
  end.

Definition resize (new_size : Z) (a : answer) : RM (throws unit) :=
  if off_max <? new_size then mret (inl (make_err EOVERFLOW))
  else x ← this; emit (truncated (fd_ x) new_size) ≫= fun _ => mret (thrown a).

Definition sync_data (a : answer) : RM (throws unit) :=
  x ← this; emit (data_synced (fd_ x)) ≫= fun _ => mret (thrown a).
Definition sync_all (a : answer) : RM (throws unit) :=
  x ← this; emit (synced (fd_ x)) ≫= fun _ => mret (thrown a).

Definition release : RM Z :=
  x ← this; upd (set_fd (-1)) ≫= fun _ => mret (fd_ x).

Definition assign (handle : Z) : RM unit :=
  close_file ≫= fun _ => upd (set_fd handle).

(** * Transfers *)

(** [raf_op::start] *)
Definition start (k : nat) (t : token) : RM unit :=
  upd_op k (fun o => set_stop_cb false (set_cancelled false o)) ≫= fun _ =>
  match t with
  | never => skip
  | stoppable => upd_op k (set_stop_cb true)
  | stopped => upd_op k (fun o => set_cancelled true (set_stop_cb true o))
  end.

(** [read_some_at] and [write_some_at]; [k] is the address that [new] returns. *)
Definition transfer_some_at (rd : bool) (accepts : bool) (k : nat) (off : Z) (co : nat)
    (param : list iovec) (t : token) (ec bytes : nat) : RM outcome :=
  let iov := copy_to param max_buffers in
  match iov with
  | [] =>
      emit (wrote_ec ec success) ≫= fun _ =>
      emit (wrote_bytes bytes 0) ≫= fun _ =>
      emit (resumed co) ≫= fun _ => mret dispatched
  | _ =>
      upd (store k (mk_raf_op co (Some ec) (Some bytes) iov off 0 0 rd false false true))
        ≫= fun _ =>
      start k t ≫= fun _ =>
      emit work_started ≫= fun _ =>
      upd (fun x => set_outstanding (outstanding_ops_ x ++ [k]) x) ≫= fun _ =>
      (if accepts then emit (pooled k)
       else upd_op k (set_cancelled true) ≫= fun _ => emit (posted k)) ≫= fun _ =>
      mret noop_coroutine
  end.
Definition read_some_at := transfer_some_at true.
Definition write_some_at := transfer_some_at false.

(** [do_work], in pieces.  The first returns whether the call is to be made. *)
Definition work_check (k : nat) : RM bool :=
  o ← the_op k;
  if cancelled o then upd_op k (set_result ECANCELED 0) ≫= fun _ => mret false
  else if off_max <? offset o then upd_op k (set_result EOVERFLOW 0) ≫= fun _ => mret false
  else mret true.

Definition work_arguments (k : nat) : RM (Z * list iovec * Z) :=
  o ← the_op k; x ← this; mret (fd_ x, iovecs o, to_int64 (offset o)).

Definition work_call (k : nat) (args : Z * list iovec * Z) (a : answer) : RM bool :=
  o ← the_op k;
  let '(fd, iov, off) := args in
  emit (if is_read o then preadv fd iov off else pwritev fd iov off) ≫= fun _ =>
  match a with
  | Ret n | RetAddr n _ _ => upd_op k (set_result 0 n) ≫= fun _ => mret true
  | Fail e =>
      if e =? EINTR then mret false
      else upd_op k (set_result e 0) ≫= fun _ => mret true
  end.

Definition work_post (k : nat) : RM unit := emit (posted k).

(** [cancel]: the operations are reached through the list. *)
Fixpoint cancel_each (l : list nat) : RM unit :=
  match l with
  | [] => skip
  | k :: l' => upd_op k (set_cancelled true) ≫= fun _ => cancel_each l'
  end.
Definition cancel : RM unit := x ← this; cancel_each (outstanding_ops_ x).

(** [raf_op::operator()] *)
Definition result (o : raf_op) : error_code :=
  if cancelled o then canceled
  else if negb (errn o =? 0) then make_err (errn o)
  else if is_read o && (bytes_transferred o =? 0) then eof
  else success.

(** [outstanding_ops_.remove(this)] unlinks a node, which must be in the list. *)
Definition unlist (k : nat) : RM unit :=
  x ← this;
  if decide (k ∈ outstanding_ops_ x)
  then upd (set_outstanding (filter (fun j => j <> k) (outstanding_ops_ x))) else fault.

Definition complete (k : nat) : RM unit :=
  upd_op k (set_stop_cb false) ≫= fun _ =>
  o ← the_op k;
  (match ec_out o with
   | Some p => emit (wrote_ec p (result o))
   | None => skip
   end) ≫= fun _ =>
  (match bytes_out o with
   | Some p => emit (wrote_bytes p (if cancelled o then 0 else bytes_transferred o))
   | None => skip
   end) ≫= fun _ =>
  unlist k ≫= fun _ =>
  upd_op k (set_file_ref false) ≫= fun _ =>
  emit work_finished ≫= fun _ =>
  upd (free k) ≫= fun _ =>
  emit (resumed (h o)).

(** [raf_op::destroy] *)
Definition destroy_op (k : nat) : RM unit :=
  upd_op k (set_stop_cb false) ≫= fun _ =>
  unlist k ≫= fun _ =>
  upd_op k (set_file_ref false) ≫= fun _ =>
  emit work_finished ≫= fun _ =>
  upd (free k).

End random_file.
