(* ===== verification/RandomFileSteps.v ===== *)
(** A random-access file under concurrency: any number of transfers on the
    threads of the pool and of the scheduler, with stop requests, [cancel],
    [close] and the destruction of the file, in every interleaving. *)

From stdpp Require Import relations functions gmap list_tactics.
From S2P Require Import Prelude StateMonad ReactorOp BasicSocket PoolFlow PoolWorld StreamFile RandomFile.
Import random_file.
Import stream_file(off_max, to_int64, token(..), outcome(..), max_buffers, EOVERFLOW).
#[local] Existing Instance stream_file.token_eq_dec.

(** Where the thread of a pool is in [do_work]. *)
Inductive phase :=
| Checking
| Preparing
| Calling (args : Z * list reactor_op.iovec * Z)
| Posting.

(** The ghost state is the answer of the call of each operation in flight. *)
Abbreviation rworld := (world nat file event phase (gmap nat reactor_op.answer)).

Definition answers (w : rworld) : gmap nat reactor_op.answer := ghost w.

(** A call that was not interrupted is the last of its operation. *)
Definition answered (k : nat) (a : reactor_op.answer) (b : bool) (w : rworld) : rworld :=
  if b then set_ghost (<[k := a]> (ghost w)) w else w.

Inductive step (w : rworld) : rworld -> Prop :=
| S_init rd k off co param t accepts r w1 :
    in_service w = true -> heap (obj w) !! k = None ->
    exec (transfer_some_at rd accepts k off co param t co co) w r w1 ->
    step w (add_started co (match r with
                            | dispatched => w1
                            | noop_coroutine => set_waiting k (Some co) (set_ghost (delete k (ghost w)) w1)
                            end))
| S_take j k : pool w !! j = Some k -> step w (take j k Checking w)
| S_check j k b w1 :
    workers w !! j = Some (k, Checking) -> exec (work_check k) w b w1 ->
    step w (advance j k (if b : bool then Preparing else Posting) w1)
| S_arguments j k args w1 :
    workers w !! j = Some (k, Preparing) -> exec (work_arguments k) w args w1 ->
    step w (advance j k (Calling args) w1)
| S_call j k args a b w1 :
    workers w !! j = Some (k, Calling args) -> exec (work_call k args a) w b w1 ->
    step w (advance j k (if b : bool then Posting else Preparing) (answered k a b w1))
| S_post j k w1 :
    workers w !! j = Some (k, Posting) -> exec (work_post k) w tt w1 -> step w (leave j w1)
| S_complete j k w1 :
    queue w !! j = Some k -> exec (complete k) (set_queue (delete j (queue w)) w) tt w1 ->
    step w (set_waiting k None w1)
| S_destroy_op j k w1 :
    queue w !! j = Some k -> exec (destroy_op k) (set_queue (delete j (queue w)) w) tt w1 ->
    step w (add_dropped (waiting w k) (set_waiting k None w1))
| S_stop k o w1 :
    heap (obj w) !! k = Some o -> stop_cb o = true -> exec (upd_op k (set_cancelled true)) w tt w1 ->
    step w w1
| S_cancel w1 : in_service w = true -> exec cancel w tt w1 -> step w w1
| S_close w1 : in_service w = true -> exec close_file w tt w1 -> step w w1
| S_open mode a ec w1 : in_service w = true -> exec (open_file mode a) w ec w1 -> step w w1
| S_release_fd fd w1 : in_service w = true -> exec release w fd w1 -> step w w1
| S_assign handle w1 : in_service w = true -> exec (assign handle) w tt w1 -> step w w1
| S_release : in_service w = true -> step w (set_service false w).

Definition initial : rworld :=
  mk_world new_file true [] [] [] 0 (fun _ => None) [] [] [] [] ∅.

Definition reachable : rworld -> Prop := rtc step initial.

(** * The invariant *)

(** The owners of the file. *)
Definition refs (w : rworld) : Z :=
  b2z (in_service w)
  + zsum (fun k => match heap (obj w) !! k with Some o => b2z (file_ref o) | None => 0 end)
      (outstanding_ops_ (obj w)).

(** The fields that the handler of an operation uses. *)
Definition armed (co : nat) (o : raf_op) : Prop :=
  h o = co /\ ec_out o = Some co /\ bytes_out o = Some co /\ file_ref o = true.

(** What the pool thread has stored. *)
Definition stored (a : option reactor_op.answer) (o : raf_op) : Prop :=
  match a with
  | Some (reactor_op.Ret n | reactor_op.RetAddr n _ _) => errn o = 0 /\ bytes_transferred o = n
  | Some (reactor_op.Fail e) => errn o = e /\ bytes_transferred o = 0
  | None => (errn o = EOVERFLOW /\ off_max < offset o \/ cancelled o = true) /\ bytes_transferred o = 0
  end.

(** The operation of a pool thread in each phase. *)
Definition op_ok (w : rworld) (k : nat) (p : phase) (o : raf_op) : Prop :=
  match p with
  | Checking => answers w !! k = None /\ bytes_transferred o = 0
  | Preparing => answers w !! k = None /\ offset o <= off_max /\ bytes_transferred o = 0
  | Calling args =>
      answers w !! k = None /\ offset o <= off_max /\ bytes_transferred o = 0
      /\ snd (fst args) = iovecs o /\ snd args = to_int64 (offset o)
  | Posting => stored (answers w !! k) o
  end.
Definition phase_ok (w : rworld) (y : nat * phase) : Prop :=
  exists o, heap (obj w) !! fst y = Some o /\ op_ok w (fst y) (snd y) o.

Abbreviation entries := (PoolWorld.entries Checking Posting).

Record inv (w : rworld) : Prop := mk_inv {
  i_flow : finv 0 (flow_of w);
  i_listed : NoDup (outstanding_ops_ (obj w));
  i_heap : forall k, k ∈ outstanding_ops_ (obj w) <-> is_Some (heap (obj w) !! k);
  i_waits : forall k, is_Some (heap (obj w) !! k) <-> is_Some (waiting w k);
  i_armed : forall k co o, waiting w k = Some co -> heap (obj w) !! k = Some o -> armed co o;
  i_entries : Forall (phase_ok w) (entries w)
}.

Lemma random_initial_inv : inv initial.
Proof.
  split; cbn; try done; [apply f_initial_inv|by apply list.NoDup_nil| |].
  - intros k. rewrite lookup_empty. split; [by intros ?%not_elem_of_nil|by intros [? [=]]].
  - intros k. rewrite lookup_empty. split; by intros [? [=]].
Qed.

(** ** Preservation *)

Lemma random_phase_ok_ext w w' y :
  heap (obj w') !! fst y = heap (obj w) !! fst y -> answers w' !! fst y = answers w !! fst y ->
  phase_ok w y -> phase_ok w' y.
Proof. intros E1 E2. unfold phase_ok, op_ok. by rewrite E1, E2. Qed.

(** The other operations are as before. *)
Lemma rest_ok w w' k p rest :
  inv w -> entries w ≡ₚ (k, p) :: rest ->
  (forall i, i <> k -> heap (obj w') !! i = heap (obj w) !! i
                       /\ answers w' !! i = answers w !! i) ->
  Forall (phase_ok w') rest.
Proof.
  intros I E H. eapply entries_rest; [apply I|apply I|done|].
  intros y Hy. apply random_phase_ok_ext; by apply H.
Qed.

(** A step of the operation [k]. *)
Lemma random_inv_touch w w' k o o' p p' rest :
  inv w -> heap (obj w) !! k = Some o -> heap (obj w') = <[k := o']> (heap (obj w)) ->
  outstanding_ops_ (obj w') = outstanding_ops_ (obj w) -> waiting w' = waiting w ->
  (forall i, i <> k -> answers w' !! i = answers w !! i) ->
  (forall co, armed co o -> armed co o') -> finv 0 (flow_of w') ->
  entries w ≡ₚ (k, p) :: rest -> entries w' ≡ₚ (k, p') :: rest -> phase_ok w' (k, p') -> inv w'.
Proof.
  intros I Hk Eh El Ew Ea Ho F P P' Hp.
  assert (Hs : forall i, is_Some (heap (obj w') !! i) <-> is_Some (heap (obj w) !! i)).
  { intros i. rewrite Eh. destruct (decide (i = k)) as [->|Hi].
    - rewrite lookup_insert_eq, Hk. split; eauto.
    - by rewrite lookup_insert_ne. }
  split; rewrite ?El, ?Ew; try done; try apply I.
  - intros i. rewrite Hs. apply I.
  - intros i. rewrite Hs. apply I.
  - intros i co oi Hi. rewrite Eh. destruct (decide (i = k)) as [->|Hn].
    + rewrite lookup_insert_eq. intros [= <-]. apply Ho. by apply (i_armed w I k).
    + rewrite lookup_insert_ne by done. by apply (i_armed w I i).
  - rewrite P'. constructor; [done|]. apply (rest_ok w w' k p); try done.
    intros i Hi. rewrite Eh, lookup_insert_ne by done. auto.
Qed.

(** ** Runs of the code on an operation that is allocated *)

Lemma run_upd_op k f x l o :
  heap x !! k = Some o -> upd_op k f (mk_st x l) = Ok (tt, mk_st (store k (f o) x) l).
Proof. intros H. unfold upd_op, the_op. unfold_run_goal. by rewrite H. Qed.

Lemma run_the_op k x l o : heap x !! k = Some o -> the_op k (mk_st x l) = Ok (o, mk_st x l).
Proof. intros H. unfold the_op. unfold_run_goal. by rewrite H. Qed.

Lemma heap_store k o x : heap (store k o x) !! k = Some o.
Proof. apply lookup_insert_eq. Qed.
Lemma store_store k o o' x : store k o (store k o' x) = store k o x.
Proof. unfold store, set_heap. cbn. by rewrite insert_insert_eq. Qed.
Lemma store_id k o x : heap x !! k = Some o -> store k o x = x.
Proof. intros H. unfold store, set_heap. rewrite insert_id by done. by destruct x. Qed.

(** [m ≫= f] after a run of [m]. *)
Lemma run_bind {A B} (m : RM A) (f : A -> RM B) s a s' :
  m s = Ok (a, s') -> (m ≫= f) s = f a s'.
Proof. intros H. unfold mbind, M_bind. by rewrite H. Qed.

Definition check_result (o : raf_op) : bool * raf_op :=
  if cancelled o then (false, set_result reactor_op.ECANCELED 0 o)
  else if off_max <? offset o then (false, set_result EOVERFLOW 0 o)
  else (true, o).

Lemma run_check k x l o :
  heap x !! k = Some o ->
  work_check k (mk_st x l) = Ok (fst (check_result o), mk_st (store k (snd (check_result o)) x) l).
Proof.
  intros H. unfold work_check, check_result. rewrite (run_bind _ _ _ _ _ (run_the_op k x l o H)).
  destruct (cancelled o); [|destruct (off_max <? offset o)].
  - by rewrite (run_bind _ _ _ _ _ (run_upd_op k _ x l o H)).
  - by rewrite (run_bind _ _ _ _ _ (run_upd_op k _ x l o H)).
  - cbn. by rewrite store_id.
Qed.

Definition call_result (o : raf_op) (a : reactor_op.answer) : bool * raf_op :=
  match a with
  | reactor_op.Ret n | reactor_op.RetAddr n _ _ => (true, set_result 0 n o)
  | reactor_op.Fail e => if e =? reactor_op.EINTR then (false, o) else (true, set_result e 0 o)
  end.

Lemma run_call k args a x l o :
  heap x !! k = Some o ->
  work_call k args a (mk_st x l)
  = Ok (fst (call_result o a), mk_st (store k (snd (call_result o a)) x)
       (l ++ [(if is_read o then preadv else pwritev) (fst (fst args)) (snd (fst args)) (snd args)])).
Proof.
  intros H. destruct args as [[fd iov] off]. unfold work_call, call_result.
  rewrite (run_bind _ _ _ _ _ (run_the_op k x l o H)).
  erewrite run_bind by reflexivity. cbn [self log fst snd].
  replace (if is_read o then preadv fd iov off else pwritev fd iov off)
    with ((if is_read o then preadv else pwritev) fd iov off) by (by destruct (is_read o)).
  destruct a as [n|n ? ?|e]; [..|destruct (e =? reactor_op.EINTR)];
    rewrite ?(run_bind _ _ _ _ _ (run_upd_op k _ x _ o H)); cbn; try done. by rewrite store_id.
Qed.

(** What the handler of an operation reports. *)
Definition report (co : nat) (o : raf_op) : list event :=
  [wrote_ec co (result o); wrote_bytes co (if cancelled o then 0 else bytes_transferred o);
   work_finished; resumed co].

Definition without (k : nat) (x : file) : file :=
  free k (set_outstanding (filter (fun j => j <> k) (outstanding_ops_ x)) x).

Lemma random_run_complete k x l o co :
  heap x !! k = Some o -> armed co o -> k ∈ outstanding_ops_ x ->
  complete k (mk_st x l) = Ok (tt, mk_st (without k x) (l ++ report co o)).
Proof.
  intros H (A1 & A2 & A3 & A4) Hl. unfold complete.
  rewrite (run_bind _ _ _ _ _ (run_upd_op k _ x l o H)).
  rewrite (run_bind _ _ _ _ _ (run_the_op k _ l _ (heap_store k _ x))).
  cbn [ec_out bytes_out set_stop_cb]. rewrite A2, A3.
  do 2 (erewrite run_bind by reflexivity; cbn [self log]).
  erewrite run_bind.
  2: { unfold unlist. unfold_run_goal. cbn [outstanding_ops_ store set_heap]. by rewrite decide_True. }
  erewrite run_bind.
  2: { apply run_upd_op. cbn. by rewrite lookup_insert_eq. }
  do 2 (erewrite run_bind by reflexivity; cbn [self log]).
  unfold emit, modify. cbn. rewrite A1, <- !app_assoc. do 3 f_equal. unfold without, free, set_heap. cbn.
  by rewrite !delete_insert_eq.
Qed.

Lemma run_destroy k x l o :
  heap x !! k = Some o -> k ∈ outstanding_ops_ x ->
  destroy_op k (mk_st x l) = Ok (tt, mk_st (without k x) (l ++ [work_finished])).
Proof.
  intros H Hl. unfold destroy_op.
  rewrite (run_bind _ _ _ _ _ (run_upd_op k _ x l o H)).
  erewrite run_bind.
  2: { unfold unlist. unfold_run_goal. cbn [outstanding_ops_ store set_heap]. by rewrite decide_True. }
  erewrite run_bind.
  2: { apply run_upd_op. cbn. by rewrite lookup_insert_eq. }
  erewrite run_bind by reflexivity. unfold upd, modify. cbn. do 3 f_equal.
  unfold without, free, set_heap. cbn. by rewrite !delete_insert_eq.
Qed.

(** ** Steps *)

Lemma random_in_worker w j k p :
  inv w -> workers w !! j = Some (k, p) ->
  exists o rest, heap (obj w) !! k = Some o /\ entries w ≡ₚ (k, p) :: rest /\ op_ok w k p o.
Proof.
  intros I Hj. pose proof (entries_worker Checking Posting w j k p Hj) as P. pose proof (i_entries w I) as F.
  rewrite P in F. apply list.Forall_cons in F as [F _]. destruct F as (o & Ho & Hp). exists o. eexists.
  done.
Qed.

Lemma random_step_check w j k b w1 :
  inv w -> workers w !! j = Some (k, Checking) -> exec (work_check k) w b w1 ->
  let w' := advance j k (if b : bool then Preparing else Posting) w1 in
  refines 0 (flow_of w) (flow_of w') /\ inv w'.
Proof.
  intros I Hj He w'. destruct (random_in_worker w j k _ I Hj) as (o & rest & Ho & P & Ha & Hb).
  destruct He as (s & E & ->). rewrite (run_check k _ _ o Ho) in E.
  injection E as <- <-. cbn [log self absorb_all fold_left] in w'.
  assert (Ef : flow_of w' = flow_of w) by (subst w'; by erewrite flow_advance).
  split; [by left|].
  eapply (random_inv_touch w w' k o (snd (check_result o)) Checking _ rest); try done.
  - intros co. unfold check_result. by destruct (cancelled o), (off_max <? offset o).
  - rewrite Ef. apply I.
  - by eapply entries_advance.
  - exists (snd (check_result o)). split; [apply heap_store|]. subst w'. cbn. unfold check_result, answers in *. cbn.
    destruct (cancelled o) eqn:Ec; [|destruct (off_max <? offset o) eqn:Eo]; cbn.
    + rewrite Ha. cbn. by eauto.
    + rewrite Ha. cbn. split; [|done]. left. split; [done|]. by apply Z.ltb_lt.
    + split; [done|]. split; [by apply Z.ltb_ge|done].
Qed.

Lemma random_step_arguments w j k args w1 :
  inv w -> workers w !! j = Some (k, Preparing) -> exec (work_arguments k) w args w1 ->
  let w' := advance j k (Calling args) w1 in refines 0 (flow_of w) (flow_of w') /\ inv w'.
Proof.
  intros I Hj He w'. destruct (random_in_worker w j k _ I Hj) as (o & rest & Ho & P & Ha & Hb & Hn).
  destruct He as (s & E & ->). unfold work_arguments in E.
  rewrite (run_bind _ _ _ _ _ (run_the_op k _ _ o Ho)) in E. injection E as <- <-.
  cbn [log self absorb_all fold_left] in w'.
  assert (Ef : flow_of w' = flow_of w) by (subst w'; by erewrite flow_advance).
  split; [by left|]. eapply (random_inv_touch w w' k o o Preparing _ rest); try done.
  - cbn. by rewrite insert_id.
  - rewrite Ef. apply I.
  - by eapply entries_advance.
  - by exists o.
Qed.

Lemma random_step_call w j k args a b w1 :
  inv w -> workers w !! j = Some (k, Calling args) -> exec (work_call k args a) w b w1 ->
  let w' := advance j k (if b : bool then Posting else Preparing) (answered k a b w1) in
  refines 0 (flow_of w) (flow_of w') /\ inv w'.
Proof.
  intros I Hj He w'. destruct (random_in_worker w j k _ I Hj) as (o & rest & Ho & P & Ha & Hb & Hn & _).
  destruct He as (s & E & ->).
  rewrite (run_call k _ _ _ _ o Ho) in E. injection E as <- <-. cbn [log self app] in w'.
  set (ev := (if is_read o then preadv else pwritev) _ _ _) in w'.
  assert (Hev : effect_of ev = e_none) by (subst ev; by destruct (is_read o)). clearbody ev.
  assert (E1 : absorb_all [ev] (set_obj (store k (snd (call_result o a)) (obj w)) w)
               = add_trace ev (set_obj (store k (snd (call_result o a)) (obj w)) w)).
  { unfold absorb_all, fold_left, absorb. by rewrite Hev. }
  assert (Ef : flow_of w' = flow_of w).
  { subst w'. rewrite E1. erewrite flow_advance; [|by destruct (fst _)]. by destruct (fst _). }
  split; [by left|].
  eapply (random_inv_touch w w' k o (snd (call_result o a)) (Calling args) _ rest); try done.
  - subst w'. rewrite E1. by destruct (fst _).
  - subst w'. rewrite E1. by destruct (fst _).
  - exact (f_equal f_waiting Ef).
  - intros i Hi. subst w'. rewrite E1. unfold answers. destruct (fst _); cbn; [|done].
    by rewrite lookup_insert_ne.
  - intros co. unfold call_result. destruct a as [n|n ? ?|e]; [..|destruct (e =? reactor_op.EINTR)]; done.
  - rewrite Ef. apply I.
  - subst w'. rewrite E1. eapply entries_advance; try done; by destruct (fst _).
  - exists (snd (call_result o a)). subst w'. rewrite E1. unfold answers in *.
    split; [destruct (fst (call_result o a)); apply heap_store|].
    unfold call_result. destruct a as [n|n ? ?|e]; [..|destruct (e =? reactor_op.EINTR)]; cbn;
      rewrite ?lookup_insert_eq; done.
Qed.

Lemma random_step_post w j k w1 :
  inv w -> workers w !! j = Some (k, Posting) -> exec (work_post k) w tt w1 ->
  refines 0 (flow_of w) (flow_of (leave j w1)) /\ inv (leave j w1).
Proof.
  intros I Hj He. destruct (random_in_worker w j k _ I Hj) as (o & rest & Ho & P & Hp).
  destruct He as (s & E & ->). injection E as <-. cbn [log self].
  match goal with |- context [leave j ?x] => set (w1 := x) end.
  assert (R : refines 0 (flow_of w) (flow_of (leave j w1))) by (right; by eapply flow_leave).
  split; [done|]. pose proof (refines_inv _ _ _ (i_flow w I) R).
  eapply (random_inv_touch w _ k o o Posting Posting rest); try done.
  - cbn. by rewrite insert_id.
  - by eapply entries_leave.
  - by exists o.
Qed.

Lemma random_step_take w j k :
  inv w -> pool w !! j = Some k ->
  refines 0 (flow_of w) (flow_of (take j k Checking w)) /\ inv (take j k Checking w).
Proof.
  intros I Hj.
  assert (R : refines 0 (flow_of w) (flow_of (take j k Checking w))) by (right; by apply flow_take).
  split; [done|]. pose proof (refines_inv _ _ _ (i_flow w I) R).
  destruct I. split; try done. by rewrite entries_take.
Qed.

(** The end of an operation. *)
Lemma random_in_queue w j k :
  inv w -> queue w !! j = Some k ->
  exists o co, heap (obj w) !! k = Some o /\ waiting w k = Some co /\ armed co o
    /\ k ∈ outstanding_ops_ (obj w) /\ stored (answers w !! k) o.
Proof.
  intros I Hj. pose proof (i_entries w I) as F. rewrite (entries_queue Checking Posting w j k Hj) in F.
  apply list.Forall_cons in F as [(o & Ho & Hs) _]. cbn in Ho, Hs.
  assert (Hw : is_Some (waiting w k)) by (apply (i_waits w I); eauto). destruct Hw as [co Hc].
  exists o, co. split; [done|]. split; [done|]. split; [by apply (i_armed w I k)|].
  split; [|done]. apply (i_heap w I). eauto.
Qed.

Lemma random_inv_end w w' j k :
  inv w -> queue w !! j = Some k -> finv 0 (flow_of w') -> obj w' = without k (obj w) ->
  waiting w' = <[k := None]> (waiting w) -> answers w' = answers w ->
  entries w' = entries (set_queue (delete j (queue w)) w) -> inv w'.
Proof.
  intros I Hj F Eo Ew Ea P.
  assert (Hs : forall i, heap (obj w') !! i = if decide (i = k) then None else heap (obj w) !! i).
  { intros i. rewrite Eo. cbn. destruct (decide (i = k)) as [->|Hi].
    - apply lookup_delete_eq.
    - by rewrite lookup_delete_ne. }
  assert (Hf : outstanding_ops_ (obj w') = filter (fun i => i <> k) (outstanding_ops_ (obj w)))
    by (by rewrite Eo).
  split; rewrite ?Ew; try done.
  - rewrite Hf. apply list.NoDup_filter, I.
  - intros i. rewrite Hs, Hf, list_elem_of_filter, (i_heap w I).
    destruct (decide (i = k)); [|naive_solver]. split; [naive_solver|by intros [? [=]]].
  - intros i. rewrite Hs. destruct (decide (i = k)) as [->|Hi].
    + rewrite fn_lookup_insert. split; by intros [? [=]].
    + rewrite fn_lookup_insert_ne by done. apply I.
  - intros i co oi. rewrite Hs. destruct (decide (i = k)) as [->|Hi]; [done|].
    rewrite fn_lookup_insert_ne by done. apply I.
  - rewrite P. apply (rest_ok w w' k Posting); [done|by apply entries_queue|].
    intros i Hi. rewrite Hs, decide_False, Ea by done. done.
Qed.

Lemma random_step_complete w j k w1 :
  inv w -> queue w !! j = Some k -> exec (complete k) (set_queue (delete j (queue w)) w) tt w1 ->
  refines 0 (flow_of w) (flow_of (set_waiting k None w1)) /\ inv (set_waiting k None w1).
Proof.
  intros I Hj (s & E & ->). destruct (random_in_queue w j k I Hj) as (o & co & Ho & Hc & Ha & Hl & _).
  cbn [obj set_queue] in E. rewrite (random_run_complete k _ _ o co Ho Ha Hl) in E. injection E as <-.
  match goal with |- refines _ _ (flow_of ?v) /\ _ => set (w' := v) end.
  assert (R : refines 0 (flow_of w) (flow_of w')) by (right; by apply (F_complete 0 (flow_of w) j k co)).
  split; [done|]. apply (random_inv_end w w' j k); try done. by apply (refines_inv _ _ _ (i_flow w I) R).
Qed.

Lemma random_step_destroy_op w j k w1 :
  inv w -> queue w !! j = Some k -> exec (destroy_op k) (set_queue (delete j (queue w)) w) tt w1 ->
  let w' := add_dropped (waiting w k) (set_waiting k None w1) in
  refines 0 (flow_of w) (flow_of w') /\ inv w'.
Proof.
  intros I Hj (s & E & ->) w'. destruct (random_in_queue w j k I Hj) as (o & co & Ho & Hc & Ha & Hl & _).
  cbn [obj set_queue] in E. rewrite (run_destroy k _ _ o Ho Hl) in E. injection E as <-.
  subst w'. rewrite Hc.
  match goal with |- refines _ _ (flow_of ?v) /\ _ => set (w' := v) end.
  assert (R : refines 0 (flow_of w) (flow_of w')).
  { right. pose proof (F_drop 0 (flow_of w) j k co Hj Hc) as S. by rewrite Z.add_0_r in S. }
  split; [done|]. apply (random_inv_end w w' j k); try done. by apply (refines_inv _ _ _ (i_flow w I) R).
Qed.

(** Starting an operation. *)
Definition request_of (rd : bool) (off : Z) (co : nat) (iov : list reactor_op.iovec) (t : token)
    (accepts : bool) : raf_op :=
  mk_raf_op co (Some co) (Some co) iov off 0 0 rd (bool_decide (t = stopped) || negb accepts)
    (bool_decide (t <> never)) true.

Definition with_op (k : nat) (o : raf_op) (x : file) : file :=
  store k o (set_outstanding (outstanding_ops_ x ++ [k]) x).

Lemma run_start k t x l o :
  heap x !! k = Some o ->
  start k t (mk_st x l)
  = Ok (tt, mk_st (store k (set_stop_cb (bool_decide (t <> never))
                              (set_cancelled (bool_decide (t = stopped)) o)) x) l).
Proof.
  intros H. unfold start. rewrite (run_bind _ _ _ _ _ (run_upd_op k _ x l o H)).
  destruct t; [done|..]; rewrite (run_upd_op k _ _ _ _ (heap_store k _ x)), store_store; done.
Qed.

Lemma random_run_init rd accepts k off co param t x l :
  transfer_some_at rd accepts k off co param t co co (mk_st x l)
  = let iov := copy_to param max_buffers in
    if iov is [] then
      Ok (dispatched, mk_st x (l ++ [wrote_ec co reactor_op.success; wrote_bytes co 0; resumed co]))
    else
      Ok (noop_coroutine, mk_st (with_op k (request_of rd off co iov t accepts) x)
            (l ++ [work_started; if accepts then pooled k else posted k])).
Proof.
  unfold transfer_some_at. destruct (copy_to param max_buffers) as [|b iov].
  - do 3 (erewrite run_bind by reflexivity; cbn [self log]). by rewrite <- !app_assoc.
  - erewrite run_bind by reflexivity. cbn [self log].
    rewrite (run_bind _ _ _ _ _ (run_start k t _ l _ (heap_store k _ x))), store_store.
    do 2 (erewrite run_bind by reflexivity; cbn [self log]).
    destruct accepts.
    + erewrite run_bind by reflexivity. cbn [self log]. rewrite <- !app_assoc. unfold request_of.
      by rewrite orb_false_r.
    + erewrite run_bind.
      2: { erewrite run_bind by (apply run_upd_op; apply heap_store). reflexivity. }
      cbn [self log]. rewrite <- !app_assoc. unfold request_of. rewrite orb_true_r. cbn. do 3 f_equal.
      unfold with_op, store, set_heap, set_outstanding. cbn. by rewrite insert_insert_eq.
Qed.

Lemma random_step_init w rd k off co param t accepts r w1 :
  inv w -> heap (obj w) !! k = None ->
  exec (transfer_some_at rd accepts k off co param t co co) w r w1 ->
  let w' := add_started co (match r with
             | dispatched => w1
             | noop_coroutine => set_waiting k (Some co) (set_ghost (delete k (ghost w)) w1)
             end) in
  refines 0 (flow_of w) (flow_of w') /\ inv w'.
Proof.
  intros I Hk (s & E & ->) w'. rewrite random_run_init in E. cbn zeta in E.
  assert (Hw : waiting w k = None).
  { destruct (waiting w k) as [c|] eqn:Hc; [|done].
    assert (is_Some (heap (obj w) !! k)) as [? ?] by (apply (i_waits w I); eauto). congruence. }
  destruct (copy_to param max_buffers) as [|b iov]; injection E as <- <-.
  - assert (R : refines 0 (flow_of w) (flow_of w')) by (right; by apply (F_immediate 0 (flow_of w) co)).
    split; [done|]. pose proof (refines_inv _ _ _ (i_flow w I) R). destruct I. by split.
  - set (o := request_of rd off co (b :: iov) t accepts) in w'.
    assert (R : refines 0 (flow_of w) (flow_of w')).
    { right. destruct accepts; [by apply (F_start 0 (flow_of w) k co)|by apply (F_refused 0 (flow_of w) k co)]. }
    split; [done|]. pose proof (refines_inv _ _ _ (i_flow w I) R).
    assert (Eo : obj w' = with_op k o (obj w)) by (by destruct accepts).
    assert (Ew : waiting w' = <[k := Some co]> (waiting w)) by (by destruct accepts).
    assert (Ea : answers w' = delete k (answers w)) by (by destruct accepts).
    assert (P : entries w' ≡ₚ (k, if accepts then Checking else Posting) :: entries w).
    { subst w'. destruct accepts; unfold PoolWorld.entries; cbn; rewrite fmap_app; cbn; solve_Permutation. }
    clearbody w'.
    assert (Hs : forall i, heap (obj w') !! i = if decide (i = k) then Some o else heap (obj w) !! i).
    { intros i. rewrite Eo. cbn. destruct (decide (i = k)) as [->|Hi]; [apply lookup_insert_eq|].
      by rewrite lookup_insert_ne. }
    assert (Hn : k ∉ outstanding_ops_ (obj w)).
    { intros [? ?]%(i_heap w I). congruence. }
    split; rewrite ?Ew; try done.
    + rewrite Eo. cbn. rewrite list.NoDup_app. split; [apply I|]. split; [set_solver|].
      by apply list.NoDup_singleton.
    + intros i. rewrite Hs, Eo. cbn. rewrite elem_of_app, list_elem_of_singleton, (i_heap w I).
      destruct (decide (i = k)); naive_solver.
    + intros i. rewrite Hs. destruct (decide (i = k)) as [->|Hi].
      * rewrite fn_lookup_insert. split; eauto.
      * rewrite fn_lookup_insert_ne by done. apply I.
    + intros i c oi. rewrite Hs. destruct (decide (i = k)) as [->|Hi].
      * rewrite fn_lookup_insert. by intros [= <-] [= <-].
      * rewrite fn_lookup_insert_ne by done. apply I.
    + rewrite P. constructor.
      * exists o. cbn. rewrite Hs, decide_True by done. split; [done|].
        destruct accepts; cbn; rewrite Ea, lookup_delete_eq; cbn; [done|].
        split; [|done]. right. subst o. cbn. by rewrite orb_true_r.
      * apply list.Forall_forall. intros y Hy.
        pose proof (proj1 (list.Forall_forall _ _) (i_entries w I) y Hy) as Hok.
        assert (fst y <> k) by (intros Hyk; destruct Hok as (oy & Hoy & _); congruence).
        apply (random_phase_ok_ext w); [|rewrite Ea, lookup_delete_ne by done|done]; [|done].
        by rewrite Hs, decide_False.
Qed.

(** Requests to cancel. *)
Definition flagged (m m' : gmap nat raf_op) : Prop :=
  forall i, m' !! i = m !! i \/ m' !! i = set_cancelled true <$> m !! i.

Lemma run_cancel_each l x lg :
  (forall k, k ∈ l -> is_Some (heap x !! k)) ->
  exists m', cancel_each l (mk_st x lg) = Ok (tt, mk_st (set_heap m' x) lg)
  /\ forall i, m' !! i = if decide (i ∈ l) then set_cancelled true <$> heap x !! i else heap x !! i.
Proof.
  revert x. induction l as [|k l IH]; intros x H.
  - exists (heap x). split; [by destruct x|]. intros i. by rewrite decide_False by set_solver.
  - destruct (H k) as [o Ho]; [by left|]. cbn [cancel_each].
    rewrite (run_bind _ _ _ _ _ (run_upd_op k _ x lg o Ho)).
    destruct (IH (store k (set_cancelled true o) x)) as (m' & E & Hm).
    + intros i Hi. cbn. destruct (decide (i = k)) as [->|Hn].
      * rewrite lookup_insert_eq. eauto.
      * rewrite lookup_insert_ne by done. apply H. by right.
    + exists m'. split; [exact E|]. intros i. rewrite Hm. cbn.
      destruct (decide (i = k)) as [->|Hn].
      * rewrite lookup_insert_eq, (decide_True (P := k ∈ k :: l)), Ho by set_solver. by case_decide.
      * rewrite lookup_insert_ne by done.
        by rewrite (decide_ext (i ∈ l) (i ∈ k :: l)) by set_solver.
Qed.

Lemma run_cancel x lg :
  (forall k, k ∈ outstanding_ops_ x -> is_Some (heap x !! k)) ->
  exists m', cancel (mk_st x lg) = Ok (tt, mk_st (set_heap m' x) lg)
  /\ forall i, m' !! i = if decide (i ∈ outstanding_ops_ x) then set_cancelled true <$> heap x !! i
                         else heap x !! i.
Proof.
  intros H. destruct (run_cancel_each (outstanding_ops_ x) x lg H) as (m' & E & Hm). exists m'.
  split; [|done]. unfold cancel. by erewrite run_bind by reflexivity.
Qed.

Lemma phase_ok_flagged w w' y :
  flagged (heap (obj w)) (heap (obj w')) -> answers w' = answers w -> phase_ok w y -> phase_ok w' y.
Proof.
  intros F Ea (o & Ho & Hp). destruct (F (fst y)) as [E|E]; rewrite Ho in E; eexists; (split; [exact E|]).
  - unfold op_ok. by rewrite Ea.
  - unfold op_ok in *. rewrite Ea. destruct (snd y); try done. unfold stored in *. cbn.
    destruct (answers w !! fst y) as [[n|n ? ?|e]|]; naive_solver.
Qed.

(** Steps that start, move and end no operation. *)
Lemma random_inv_still w w' :
  inv w -> flow_of w' = flow_of w -> answers w' = answers w -> workers w' = workers w ->
  outstanding_ops_ (obj w') = outstanding_ops_ (obj w) ->
  flagged (heap (obj w)) (heap (obj w')) -> inv w'.
Proof.
  intros [] Ef Ea Ew Eo F. assert (Ep := Ef). injection Ep as Ep1 _ Ep3 _ Ep5 _ _ _.
  assert (Hs : forall i, is_Some (heap (obj w') !! i) <-> is_Some (heap (obj w) !! i)).
  { intros i. destruct (F i) as [-> | ->]; [done|]. by rewrite fmap_is_Some. }
  split; rewrite ?Ef, ?Ep5, ?Eo; try done.
  - intros i. by rewrite Hs.
  - intros i. by rewrite Hs.
  - intros i co o Hi Ho. destruct (F i) as [E|E]; rewrite Ho in E; [by eauto|].
    symmetry in E. apply fmap_Some in E as (o' & Ho' & ->). exact (i_armed0 i co o' Hi Ho').
  - assert (entries w' = entries w) as -> by (unfold PoolWorld.entries; by rewrite Ep1, Ew, Ep3).
    eapply list.Forall_impl; [done|]. intros y. by apply phase_ok_flagged.
Qed.

Lemma random_step_quiet {A} w w1 (m : RM A) a :
  inv w -> exec m w a w1 ->
  (forall s, m (mk_st (obj w) []) = Ok (a, s) ->
     Forall (fun e => effect_of e = e_none) (log s)
     /\ outstanding_ops_ (self s) = outstanding_ops_ (obj w)
     /\ flagged (heap (obj w)) (heap (self s))) ->
  refines 0 (flow_of w) (flow_of w1) /\ inv w1.
Proof.
  intros I (s & E & ->) H. destruct (H s E) as (Hl & Eo & F).
  destruct (absorb_none (log s) (set_obj (self s) w) Hl) as (E1 & E2 & E3 & E4).
  split; [by left|]. apply (random_inv_still w); try done; by rewrite E4.
Qed.

Lemma flagged_refl m : flagged m m.
Proof. by left. Qed.
#[local] Hint Resolve flagged_refl : core.

Lemma close_log x l :
  close_file (mk_st x l)
  = Ok (tt, mk_st (set_fd (if 0 <=? fd_ x then -1 else fd_ x) x) (l ++ if 0 <=? fd_ x then [closed (fd_ x)] else [])).
Proof.
  unfold close_file. unfold_run_goal. destruct (0 <=? fd_ x); [done|].
  rewrite app_nil_r. by destruct x.
Qed.

Lemma random_step_ok w w' : inv w -> step w w' -> refines 0 (flow_of w) (flow_of w') /\ inv w'.
Proof.
  intros I H. destruct H as [rd k off co param t ac r w1 Hs Hk He|j k Hj|j k b w1 Hj He|j k args w1 Hj He
    |j k args a b w1 Hj He|j k w1 Hj He|j k w1 Hj He|j k w1 Hj He|k o w1 Ho Hx He|w1 Hs He|w1 Hs He
    |mode a ec w1 Hs He|fd w1 Hs He|hd w1 Hs He|Hs].
  - by eapply random_step_init.
  - by apply random_step_take.
  - by eapply random_step_check.
  - by eapply random_step_arguments.
  - by eapply random_step_call.
  - by eapply random_step_post.
  - by eapply random_step_complete.
  - by eapply random_step_destroy_op.
  - eapply random_step_quiet; try done. intros s E. rewrite (run_upd_op k _ _ _ o Ho) in E. injection E as <-.
    split; [constructor|]. split; [done|]. intros i. cbn. destruct (decide (i = k)) as [->|Hi].
    + right. by rewrite lookup_insert_eq, Ho.
    + left. by rewrite lookup_insert_ne.
  - eapply random_step_quiet; try done. intros s E.
    destruct (run_cancel (obj w) [] (fun k Hk => proj1 (i_heap w I k) Hk)) as (m' & E' & Hm).
    rewrite E' in E. injection E as <-. split; [constructor|]. split; [done|].
    intros i. cbn. rewrite Hm. case_decide; auto.
  - eapply random_step_quiet; try done. intros s E. rewrite close_log in E. injection E as <-. cbn.
    split; [|done]. destruct (0 <=? fd_ (obj w)); by repeat constructor.
  - eapply random_step_quiet; try done. intros s E. unfold open_file in E.
    rewrite (run_bind _ _ _ _ _ (close_log _ _)) in E. unfold_run E.
    destruct a; injection E as <- <-; cbn; (split; [|done]);
      destruct (0 <=? fd_ (obj w)); by repeat constructor.
  - eapply random_step_quiet; try done. intros s E. injection E as <- <-. split; [constructor|done].
  - eapply random_step_quiet; try done. intros s E. unfold assign in E.
    rewrite (run_bind _ _ _ _ _ (close_log _ _)) in E. injection E as <-. cbn.
    split; [|done]. destruct (0 <=? fd_ (obj w)); by repeat constructor.
  - split; [by left|]. by apply (random_inv_still w).
Qed.

Lemma random_reachable_inv w : reachable w -> inv w.
Proof.
  unfold reachable. revert w. apply rtc_ind_r; [apply random_initial_inv|].
  intros y z _ Hs I. by apply (random_step_ok y z).
Qed.
