(* ===== verification/RandomFileClaims.v ===== *)
(** What a random-access file promises: theorems on [posix_random_access_file]
    and its operations in every interleaving (RandomFileSteps.v). *)

From stdpp Require Import relations functions gmap list_tactics.
From S2P Require Import Prelude StateMonad ReactorOp BasicSocket PoolFlow PoolWorld StreamFile RandomFile RandomFileSteps.
Import random_file.
Import stream_file(off_max, to_int64, token(..), outcome(..), max_buffers, EOVERFLOW).

(** C19: Every step is a step of the life of pooled operations, or leaves it alone. *)
Theorem random_refines_flow w w' :
  reachable w -> step w w' -> refines 0 (flow_of w) (flow_of w').
Proof. intros H. apply random_step_ok. by apply random_reachable_inv. Qed.

(** An operation in flight is in one place only, is the one that is allocated and
    listed for [cancel], and is counted once as work; a coroutine is resumed as
    often as its operations were started, less those in flight or destroyed. *)
Theorem random_operations_complete_once w :
  reachable w ->
  let at_work := pool w ++ (fst <$> workers w) ++ queue w in
  NoDup at_work
  /\ outstanding_ops_ (obj w) ≡ₚ at_work
  /\ (forall k, k ∈ at_work <-> is_Some (waiting w k))
  /\ work w = Z.of_nat (length at_work)
  /\ forall co, occ co (started w) = occ co (ended w) + occ co (dropped w)
                  + zsum (waits (flow_of w) co) at_work.
Proof.
  intros H. pose proof (random_reachable_inv w H) as I. destruct (i_flow w I) as [F1 F2 F3 F4].
  split; [exact F1|]. split.
  - apply NoDup_Permutation; [apply I|exact F1|]. intros k.
    rewrite (i_heap w I), (i_waits w I). symmetry. apply F2.
  - split; [exact F2|]. split; [|exact F4]. cbn in F3. unfold places in F3. cbn in F3. lia.
Qed.

(** ** Lifetimes *)

Lemma random_refs_exact w : inv w -> refs w = b2z (in_service w) + Z.of_nat (length (outstanding_ops_ (obj w))).
Proof.
  intros I. unfold refs. f_equal. pose proof (i_heap w I) as Hh.
  assert (Hr : forall k, k ∈ outstanding_ops_ (obj w) ->
    (match heap (obj w) !! k with Some o => b2z (file_ref o) | None => 0 end) = 1).
  { intros k Hk. apply Hh in Hk as [o Ho]. rewrite Ho.
    assert (is_Some (waiting w k)) as [co Hc] by (apply (i_waits w I); eauto).
    destruct (i_armed w I k co o Hc Ho) as (_ & _ & _ & ->). done. }
  clear Hh. induction (outstanding_ops_ (obj w)) as [|k l IH]; [done|]. cbn [zsum length].
  rewrite Hr by (by left). rewrite IH; [lia|]. intros i Hi. apply Hr. by right.
Qed.

(** C20: Every function that a pool thread or the scheduler may run next returns: it
    meets no operation that was deleted, and unlinks none that is not listed.
    While one may run, the file has an owner. *)
Theorem random_no_use_after_free w :
  reachable w ->
  let ok {A} (m : RM A) := wp m (fun _ _ => True) (mk_st (obj w) []) /\ 1 <= refs w in
  (forall j k, workers w !! j = Some (k, Checking) -> ok (work_check k))
  /\ (forall j k, workers w !! j = Some (k, Preparing) -> ok (work_arguments k))
  /\ (forall j k args a, workers w !! j = Some (k, Calling args) -> ok (work_call k args a))
  /\ (forall j k, queue w !! j = Some k -> ok (complete k) /\ ok (destroy_op k))
  /\ (in_service w = true -> ok cancel).
Proof.
  intros H ok. pose proof (random_reachable_inv w H) as I. unfold ok.
  assert (Hr : forall k o, heap (obj w) !! k = Some o -> 1 <= refs w).
  { intros k o Ho. rewrite (random_refs_exact w I). pose proof (b2z_le_1 (in_service w)).
    assert (Hk : k ∈ outstanding_ops_ (obj w)) by (apply (i_heap w I); eauto).
    destruct (outstanding_ops_ (obj w)) as [|x l]; [by apply not_elem_of_nil in Hk|]. cbn [length]. lia. }
  assert (Hw : forall j k p, workers w !! j = Some (k, p) -> exists o, heap (obj w) !! k = Some o /\ 1 <= refs w).
  { intros j k p Hj. destruct (random_in_worker w j k p I Hj) as (o & _ & Ho & _). eauto. }
  unfold wp. split; [|split; [|split; [|split]]].
  - intros j k (o & Ho & Hl)%Hw. by rewrite (run_check k _ _ o Ho).
  - intros j k (o & Ho & Hl)%Hw. unfold work_arguments.
    by rewrite (run_bind _ _ _ _ _ (run_the_op k _ _ o Ho)).
  - intros j k args a (o & Ho & Hl)%Hw. by rewrite (run_call k _ _ _ _ o Ho).
  - intros j k Hj. destruct (random_in_queue w j k I Hj) as (o & co & Ho & _ & Ha & Hl & _).
    rewrite (random_run_complete k _ _ o co), (run_destroy k _ _ o) by done.
    by apply Hr in Ho.
  - intros Hs. destruct (run_cancel (obj w) [] (fun k Hk => proj1 (i_heap w I k) Hk)) as (m' & -> & _).
    split; [done|]. rewrite (random_refs_exact w I), Hs. cbn. lia.
Qed.

(** ** Results *)

(** The handler reports [canceled] and no bytes for an operation that was
    cancelled; else the answer of the one call made for it, a read of no bytes
    being the end of the file; else, no call having been made, [EOVERFLOW], its
    offset being out of the range of [off_t]. *)
Theorem random_completion_reports w j k w1 :
  reachable w -> queue w !! j = Some k ->
  exec (complete k) (set_queue (delete j (queue w)) w) tt w1 ->
  exists co o, waiting w k = Some co /\ heap (obj w) !! k = Some o /\
  let '(ec, n) :=
    if cancelled o then (reactor_op.canceled, 0)
    else match answers w !! k with
         | Some (reactor_op.Ret n | reactor_op.RetAddr n _ _) =>
             (if is_read o && (n =? 0) then reactor_op.eof else reactor_op.success, n)
         | Some (reactor_op.Fail e) =>
             (if e =? 0 then if is_read o then reactor_op.eof else reactor_op.success
              else reactor_op.make_err e, 0)
         | None => (reactor_op.make_err EOVERFLOW, 0)
         end in
  trace w1 = trace w ++ [wrote_ec co ec; wrote_bytes co n; work_finished; resumed co]
  /\ (cancelled o = false -> answers w !! k = None -> off_max < offset o).
Proof.
  intros H Hj He. pose proof (random_reachable_inv w H) as I.
  destruct (random_in_queue w j k I Hj) as (o & co & Ho & Hc & Ha & Hl & Hs). exists co, o.
  split; [done|]. split; [done|]. destruct He as (s & E & ->). cbn [obj set_queue] in E.
  rewrite (random_run_complete k _ _ o co Ho Ha Hl) in E. injection E as <-. cbn [log app].
  assert (Et : forall v : rworld, trace (absorb_all (report co o) v) = trace v ++ report co o).
  { intros v. cbn. by rewrite <- !app_assoc. }
  rewrite Et. cbn [trace set_obj set_queue]. unfold report, result. unfold stored in Hs.
  destruct (cancelled o); [done|]. destruct (answers w !! k) as [[n|n ? ?|e]|].
  - destruct Hs as [-> ->]. done.
  - destruct Hs as [-> ->]. done.
  - destruct Hs as [-> ->]. rewrite andb_true_r. by destruct (e =? 0), (is_read o).
  - destruct Hs as [[[-> Hoff]|?] ->]; [|done]. by split.
Qed.

(** The call is made with the buffers of the operation, at its offset. *)
Theorem random_call_at_its_offset w j k args :
  reachable w -> workers w !! j = Some (k, Calling args) ->
  exists o, heap (obj w) !! k = Some o /\ offset o <= off_max
    /\ snd (fst args) = iovecs o /\ (0 <= offset o -> snd args = offset o).
Proof.
  intros H Hj. pose proof (random_reachable_inv w H) as I.
  destruct (random_in_worker w j k _ I Hj) as (o & _ & Ho & _ & _ & Hoff & _ & Hi & Ha). exists o.
  split; [done|]. split; [done|]. split; [done|]. intros H0. rewrite Ha. unfold to_int64.
  unfold off_max, int64_max in Hoff. destruct (offset o <? 2 ^ 63) eqn:E; [done|]. apply Z.ltb_ge in E. lia.
Qed.

(** [cancel] marks every operation in flight, wherever it is. *)
Theorem random_cancel_reaches_all w w1 :
  reachable w -> exec cancel w tt w1 ->
  forall k co, waiting w k = Some co ->
  waiting w1 k = Some co /\ exists o, heap (obj w1) !! k = Some o /\ cancelled o = true.
Proof.
  intros H (s & E & ->) k co Hc. pose proof (random_reachable_inv w H) as I.
  destruct (run_cancel (obj w) [] (fun k Hk => proj1 (i_heap w I k) Hk)) as (m' & E' & Hm).
  rewrite E' in E. injection E as <-. cbn. split; [done|]. rewrite Hm.
  assert (is_Some (heap (obj w) !! k)) as [o Ho] by (apply (i_waits w I); eauto).
  rewrite decide_True by (apply (i_heap w I); eauto). rewrite Ho. by exists (set_cancelled true o).
Qed.

(** ** Progress *)

Definition settled (w : rworld) (k co : nat) (w' : rworld) : Prop :=
  waiting w' k = None /\ ended w' = ended w ++ [co].

Lemma random_finish_step w w1 k co :
  inv w -> step w w1 -> waiting w1 k = Some co -> ended w1 = ended w ->
  (inv w1 -> waiting w1 k = Some co -> exists w', rtc step w1 w' /\ settled w1 k co w') ->
  exists w', rtc step w w' /\ settled w k co w'.
Proof.
  intros I S Hc He H. destruct (random_step_ok w w1 I S) as [_ I1]. destruct (H I1 Hc) as (w' & R & E1 & E2).
  exists w'. split; [by eapply rtc_l|]. split; [done|]. by rewrite E2, He.
Qed.

Lemma random_finish_queued w j k co :
  inv w -> queue w !! j = Some k -> waiting w k = Some co ->
  exists w', rtc step w w' /\ settled w k co w'.
Proof.
  intros I Hj Hc. destruct (random_in_queue w j k I Hj) as (o & co' & Ho & Hc' & Ha & Hl & _).
  assert (co' = co) as -> by congruence.
  eexists. split.
  - eapply rtc_once, S_complete; [done|]. eexists. split; [|reflexivity].
    apply (random_run_complete k _ _ o co); done.
  - split; cbn; [by rewrite fn_lookup_insert|done].
Qed.

Lemma random_finish_worker w j k p co :
  inv w -> workers w !! j = Some (k, p) -> waiting w k = Some co ->
  exists w', rtc step w w' /\ settled w k co w'.
Proof.
  intros I Hj Hc.
  assert (HP : forall v : rworld, inv v -> workers v !! j = Some (k, Posting) -> waiting v k = Some co ->
             exists w', rtc step v w' /\ settled v k co w').
  { intros v Iv Hv Hcv.
    eapply random_finish_step; [done|eapply S_post; [done|by eexists]|done|done|].
    intros I1 Hc1. eapply (random_finish_queued _ (length (queue v))); [done| |done].
    cbn. by rewrite list_lookup_middle. }
  assert (HC : forall v args, inv v -> workers v !! j = Some (k, Calling args) -> waiting v k = Some co ->
             exists w', rtc step v w' /\ settled v k co w').
  { intros v args Iv Hv Hcv. destruct (random_in_worker v j k _ Iv Hv) as (o & _ & Ho & _).
    pose proof (lookup_lt_Some _ _ _ Hv).
    eapply random_finish_step; [done|eapply (S_call v j k args (reactor_op.Ret 0)); [done|]| | |].
    - eexists. split; [by apply (run_call k)|reflexivity].
    - by destruct (is_read o).
    - by destruct (is_read o).
    - intros I1 Hc1. apply HP; [done| |done]. destruct (is_read o); cbn; by rewrite list_lookup_insert_eq. }
  assert (HA : forall v, inv v -> workers v !! j = Some (k, Preparing) -> waiting v k = Some co ->
             exists w', rtc step v w' /\ settled v k co w').
  { intros v Iv Hv Hcv. destruct (random_in_worker v j k _ Iv Hv) as (o & _ & Ho & _).
    pose proof (lookup_lt_Some _ _ _ Hv).
    eapply random_finish_step; [done|eapply S_arguments; [done|]| | |].
    - eexists. split; [|reflexivity]. unfold work_arguments.
      by rewrite (run_bind _ _ _ _ _ (run_the_op k _ _ o Ho)).
    - done.
    - done.
    - intros I1 Hc1. eapply HC; [done| |done]. cbn. by rewrite list_lookup_insert_eq. }
  destruct p as [| |args|]; eauto.
  destruct (random_in_worker w j k _ I Hj) as (o & _ & Ho & _). pose proof (lookup_lt_Some _ _ _ Hj).
  eapply random_finish_step; [done|eapply S_check; [done|]| | |].
  - eexists. split; [by apply (run_check k)|reflexivity].
  - done.
  - done.
  - intros I1 Hc1. destruct (fst (check_result o)) eqn:E; [apply HA|apply HP]; try done;
      cbn; rewrite list_lookup_insert_eq by done; by rewrite ?E.
Qed.

(** From every reachable state the threads of the pool and of the scheduler can
    end any one of the operations in flight, and resume its coroutine. *)
Theorem random_operation_can_finish w k co :
  reachable w -> waiting w k = Some co ->
  exists w', rtc step w w' /\ waiting w' k = None /\ ended w' = ended w ++ [co].
Proof.
  intros H Hc. pose proof (random_reachable_inv w H) as I.
  assert (Hd : k ∈ places (flow_of w)) by (apply (fi_waits _ _ (i_flow w I)); cbn; eauto).
  unfold places in Hd. cbn in Hd. rewrite !elem_of_app in Hd.
  destruct Hd as [[j Hj]%list_elem_of_lookup|[([f p] & -> & [j Hj]%list_elem_of_lookup)%list_elem_of_fmap
                 |[j Hj]%list_elem_of_lookup]].
  - eapply (random_finish_step w _ k co); [done|by eapply S_take|done|done|].
    intros I1 Hc1. eapply (random_finish_worker _ (length (workers w)) k Checking); [done| |done].
    cbn. by rewrite list_lookup_middle.
  - by eapply random_finish_worker.
  - by eapply random_finish_queued.
Qed.

(** * Instances *)

Ltac rf_exec := apply exec_after; vm_compute; reflexivity.

(** A write of four bytes at 100 whose call has returned. *)
Definition write_started : rworld :=
  take 0 7%nat Checking
    (add_started 1 (set_waiting 7%nat (Some 1%nat) (set_ghost ∅
       (after (transfer_some_at false true 7 100 1 [reactor_op.mk_iovec 0 4] never 1 1) initial)))).
Definition write_args : Z * list reactor_op.iovec * Z := (-1, [reactor_op.mk_iovec 0 4], 100).
Definition write_called : rworld :=
  let w := advance 0 7%nat (Calling write_args) (after (work_arguments 7)
             (advance 0 7%nat Preparing (after (work_check 7) write_started))) in
  advance 0 7%nat Posting (answered 7 (reactor_op.Ret 4) true (after (work_call 7 write_args (reactor_op.Ret 4)) w)).
Definition write_queued : rworld := leave 0 (after (work_post 7) write_called).

Lemma write_started_reachable : reachable write_started.
Proof.
  eapply rtc_l; [eapply (S_init _ false 7 100 1 [reactor_op.mk_iovec 0 4] never true noop_coroutine);
    [vm_compute; reflexivity|done|rf_exec]|].
  by apply rtc_once, (S_take _ O 7%nat).
Qed.

Lemma write_queued_reachable : reachable write_queued.
Proof.
  unfold reachable. etrans; [apply write_started_reachable|].
  eapply rtc_l; [eapply (S_check _ O 7%nat true); [vm_compute; reflexivity|rf_exec]|].
  eapply rtc_l; [eapply (S_arguments _ O 7%nat write_args); [vm_compute; reflexivity|rf_exec]|].
  eapply rtc_l; [eapply (S_call _ O 7%nat write_args (reactor_op.Ret 4) true); [vm_compute; reflexivity|rf_exec]|].
  apply rtc_once. eapply (S_post _ O 7%nat); [vm_compute; reflexivity|rf_exec].
Qed.

Lemma random_refines_flow_witness :
  workers write_started = [(7%nat, Checking)]
  /\ refines 0 (flow_of write_started) (flow_of (advance 0 7%nat Preparing (after (work_check 7) write_started))).
Proof.
  split; [vm_compute; reflexivity|].
  apply (random_refines_flow _ _ write_started_reachable).
  eapply (S_check _ O 7%nat true); [vm_compute; reflexivity|rf_exec].
Defined.

Lemma random_no_use_after_free_witness :
  queue write_queued = [7%nat]
  /\ wp (complete 7) (fun _ _ => True) (mk_st (obj write_queued) []) /\ 1 <= refs write_queued.
Proof.
  split; [vm_compute; reflexivity|].
  destruct (random_no_use_after_free write_queued write_queued_reachable) as (_ & _ & _ & H & _).
  apply (H O 7%nat). vm_compute. reflexivity.
Defined.

Lemma random_completion_reports_witness :
  exists co, trace (after (complete 7) (set_queue (delete 0%nat (queue write_queued)) write_queued))
    = trace write_queued ++ [wrote_ec co reactor_op.success; wrote_bytes co 4; work_finished; resumed co].
Proof.
  destruct (random_completion_reports write_queued 0 7
    (after (complete 7) (set_queue (delete 0%nat (queue write_queued)) write_queued)) write_queued_reachable)
    as (co & o & _ & Ho & H).
  - vm_compute. reflexivity.
  - rf_exec.
  - exists co. vm_compute in Ho. injection Ho as <-. vm_compute in H. vm_compute.
    exact (proj1 H).
Defined.
