(* ===== verification/Resolver.v ===== *)
(** The resolver on POSIX:
    [include/boost/corosio/native/detail/posix/posix_resolver.hpp],
    [posix_resolver_service.hpp], and the flags and results of
    [include/boost/corosio/resolver.hpp] and [resolver_results.hpp].

    A resolver embeds a forward and a reverse operation.  A resolution is posted
    to the thread pool, where a thread makes the blocking call of the C library
    and stores its result; the operation is then posted to the scheduler, whose
    thread resumes the coroutine.  The item of the pool owns a share of the
    resolver ([ref_]), which the thread takes to its stack before it posts; the
    operation in the queue of the scheduler owns none.

    [errno] is a variable of each thread: where the code reads it, the value in
    the thread that does is an argument.  Constants are those of Linux. *)

From Stdlib Require Import String.
From S2P Require Import Prelude StateMonad Ipv4 Ipv6 Endpoint Sockaddr PoolWorld.
From S2P Require StreamFile.
Import PoolWorld.
Import StreamFile.stream_file(with_flag, token(..), outcome(..)).

Module resolver.

(** * Flags *)

(** [resolve_flags] *)
Definition passive : Z := 1.
Definition numeric_host : Z := 4.
Definition numeric_service : Z := 8.
Definition address_configured : Z := 32.
Definition v4_mapped : Z := 2048.
Definition all_matching : Z := 256.

Definition AI_PASSIVE : Z := 1.
Definition AI_NUMERICHOST : Z := 4.
Definition AI_V4MAPPED : Z := 8.
Definition AI_ALL : Z := 16.
Definition AI_ADDRCONFIG : Z := 32.
Definition AI_NUMERICSERV : Z := 1024.

Definition flags_to_hints (flags : Z) : Z :=
  with_flag flags all_matching AI_ALL
    (with_flag flags v4_mapped AI_V4MAPPED
      (with_flag flags address_configured AI_ADDRCONFIG
        (with_flag flags numeric_service AI_NUMERICSERV
          (with_flag flags numeric_host AI_NUMERICHOST
            (with_flag flags passive AI_PASSIVE 0))))).

(** [reverse_flags] *)
Definition r_numeric_host : Z := 1.
Definition r_numeric_service : Z := 2.
Definition name_required : Z := 4.
Definition datagram_service : Z := 8.

Definition NI_NUMERICHOST : Z := 1.
Definition NI_NUMERICSERV : Z := 2.
Definition NI_NAMEREQD : Z := 8.
Definition NI_DGRAM : Z := 16.

Definition flags_to_ni_flags (flags : Z) : Z :=
  with_flag flags datagram_service NI_DGRAM
    (with_flag flags name_required NI_NAMEREQD
      (with_flag flags r_numeric_service NI_NUMERICSERV
        (with_flag flags r_numeric_host NI_NUMERICHOST 0))).

(** * Errors *)

(** [std::error_code]: none, [capy::error::canceled], or of the generic
    category. *)
Inductive error_code :=
| success
| canceled
| generic (e : Z).

(** [std::error_code(e, std::generic_category())]: zero is no error. *)
Definition generic_error (e : Z) : error_code := if e =? 0 then success else generic e.

Definition EIO : Z := 5.
Definition ENXIO : Z := 6.
Definition EAGAIN : Z := 11.
Definition ENOMEM : Z := 12.
Definition EINVAL : Z := 22.
Definition ENOTSUP : Z := 95.
Definition EOPNOTSUPP : Z := 95.
Definition EAFNOSUPPORT : Z := 97.

Definition EAI_BADFLAGS : Z := -1.
Definition EAI_NONAME : Z := -2.
Definition EAI_AGAIN : Z := -3.
Definition EAI_FAIL : Z := -4.
Definition EAI_FAMILY : Z := -6.
Definition EAI_SOCKTYPE : Z := -7.
Definition EAI_SERVICE : Z := -8.
Definition EAI_MEMORY : Z := -10.
Definition EAI_SYSTEM : Z := -11.

Definition make_gai_error (errno gai_err : Z) : error_code :=
  if gai_err =? EAI_AGAIN then generic EAGAIN
  else if gai_err =? EAI_BADFLAGS then generic EINVAL
  else if gai_err =? EAI_FAIL then generic EIO
  else if gai_err =? EAI_FAMILY then generic EAFNOSUPPORT
  else if gai_err =? EAI_MEMORY then generic ENOMEM
  else if gai_err =? EAI_NONAME then generic ENXIO
  else if gai_err =? EAI_SERVICE then generic EINVAL
  else if gai_err =? EAI_SOCKTYPE then generic ENOTSUP
  else if gai_err =? EAI_SYSTEM then generic_error errno
  else generic EIO.

(** * Results *)

Definition AF_UNSPEC : Z := 0.
Definition AF_INET : Z := 2.
Definition AF_INET6 : Z := 10.
Definition SOCK_STREAM : Z := 1.

(** The list that [getaddrinfo] returns; the empty list is the null pointer. *)
Record addrinfo := mk_addrinfo { ai_family : Z; ai_addr : sockaddr_storage }.

Record resolver_entry := mk_entry { ep_ : endpoint.t; host_name_ : string; service_name_ : string }.
Definition resolver_results : Type := list resolver_entry.

Record reverse_resolver_result := mk_reverse { r_ep_ : endpoint.t; host_ : string; service_ : string }.

(** A structure that does not hold what its family says is outside the model. *)
Fixpoint convert_results (ai : list addrinfo) (host service : string) : res resolver_results :=
  match ai with
  | [] => Ok []
  | p :: ai' =>
      let next (e : list resolver_entry) :=
        match convert_results ai' host service with
        | Ok l => Ok (e ++ l)
        | other => other
        end in
      if ai_family p =? AF_INET then
        match ai_addr p with
        | ss_in sa => next [mk_entry (from_sockaddr_in sa) host service]
        | _ => Fault
        end
      else if ai_family p =? AF_INET6 then
        match ai_addr p with
        | ss_in6 sa => next [mk_entry (from_sockaddr_in6 sa) host service]
        | _ => Fault
        end
      else next []
  end.

(** * Operations *)

Record resolve_op := mk_resolve_op {
  h : nat;
  ec_out : option nat;
  out : option nat;
  host : string;
  service : string;
  flags : Z;
  stored_results : resolver_results;
  gai_error : Z;
  cancelled : bool;
  stop_cb : bool
}.

Record reverse_resolve_op := mk_reverse_op {
  r_h : nat;
  r_ec_out : option nat;
  result_out : option nat;
  r_ep : endpoint.t;
  r_flags : Z;
  stored_host : string;
  stored_service : string;
  r_gai_error : Z;
  r_cancelled : bool;
  r_stop_cb : bool
}.

(** The operations of a resolver. *)
Inductive dir := forward | reverse.

#[export] Instance dir_eq_dec : EqDecision dir.
Proof. solve_decision. Defined.

(** [ref_] is that of [resolve_pool_op_] and of [reverse_pool_op_]. *)
Record resolver := mk_resolver {
  op_ : resolve_op;
  reverse_op_ : reverse_resolve_op;
  resolve_ref_ : bool;
  reverse_ref_ : bool
}.

Definition ref_ (x : resolver) (d : dir) : bool :=
  match d with
  | forward => resolve_ref_ x
  | reverse => reverse_ref_ x
  end.

Definition new_resolver : resolver :=
  mk_resolver (mk_resolve_op 0 None None EmptyString EmptyString 0 [] 0 false false)
    (mk_reverse_op 0 None None endpoint.default 0 EmptyString EmptyString 0 false false) false false.

Definition set_op (o : resolve_op) (x : resolver) : resolver :=
  mk_resolver o (reverse_op_ x) (resolve_ref_ x) (reverse_ref_ x).
Definition set_reverse_op (o : reverse_resolve_op) (x : resolver) : resolver :=
  mk_resolver (op_ x) o (resolve_ref_ x) (reverse_ref_ x).
Definition set_ref (d : dir) (b : bool) (x : resolver) : resolver :=
  match d with
  | forward => mk_resolver (op_ x) (reverse_op_ x) b (reverse_ref_ x)
  | reverse => mk_resolver (op_ x) (reverse_op_ x) (resolve_ref_ x) b
  end.

Definition set_cancelled (b : bool) (o : resolve_op) : resolve_op :=
  mk_resolve_op (h o) (ec_out o) (out o) (host o) (service o) (flags o) (stored_results o)
    (gai_error o) b (stop_cb o).
Definition set_stop_cb (b : bool) (o : resolve_op) : resolve_op :=
  mk_resolve_op (h o) (ec_out o) (out o) (host o) (service o) (flags o) (stored_results o)
    (gai_error o) (cancelled o) b.
Definition set_stored (l : resolver_results) (e : Z) (o : resolve_op) : resolve_op :=
  mk_resolve_op (h o) (ec_out o) (out o) (host o) (service o) (flags o) l e (cancelled o) (stop_cb o).

Definition r_set_cancelled (b : bool) (o : reverse_resolve_op) : reverse_resolve_op :=
  mk_reverse_op (r_h o) (r_ec_out o) (result_out o) (r_ep o) (r_flags o) (stored_host o)
    (stored_service o) (r_gai_error o) b (r_stop_cb o).
Definition r_set_stop_cb (b : bool) (o : reverse_resolve_op) : reverse_resolve_op :=
  mk_reverse_op (r_h o) (r_ec_out o) (result_out o) (r_ep o) (r_flags o) (stored_host o)
    (stored_service o) (r_gai_error o) (r_cancelled o) b.
Definition r_set_stored (hs ss : string) (e : Z) (o : reverse_resolve_op) : reverse_resolve_op :=
  mk_reverse_op (r_h o) (r_ec_out o) (result_out o) (r_ep o) (r_flags o) hs ss e (r_cancelled o)
    (r_stop_cb o).

(** [reset], which leaves [h] *)
Definition reset (o : resolve_op) : resolve_op :=
  mk_resolve_op (h o) None None EmptyString EmptyString 0 [] 0 false false.
Definition r_reset (o : reverse_resolve_op) : reverse_resolve_op :=
  mk_reverse_op (r_h o) None None endpoint.default 0 EmptyString EmptyString 0 false false.

(** [request_cancel] *)
Definition request_cancel (o : resolve_op) : resolve_op := set_cancelled true o.
Definition r_request_cancel (o : reverse_resolve_op) : reverse_resolve_op := r_set_cancelled true o.

(** A null pointer as host or service is [None]. *)
Inductive event :=
| getaddrinfo (node serv : option string) (family socktype ai_flags : Z)
| freeaddrinfo
| getnameinfo (sa : sockaddr_storage) (len : socklen) (ni_flags : Z)
| wrote_ec (p : nat) (e : error_code)
| wrote_results (p : nat) (l : resolver_results)
| wrote_result (p : nat) (r : reverse_resolver_result)
| resumed (co : nat)
| work_started
| work_finished
| pooled (d : dir)
| posted (d : dir).

#[export] Instance event_effects : effects event dir := fun e =>
  match e with
  | pooled d => e_pooled d
  | posted d => e_posted d
  | work_started => e_work 1
  | work_finished => e_work (-1)
  | resumed co => e_resumed co
  | _ => e_none
  end.

Abbreviation RM := (M (st resolver event)).

Definition upd_op (f : resolve_op -> resolve_op) : RM unit := upd (fun x => set_op (f (op_ x)) x).
Definition upd_reverse_op (f : reverse_resolve_op -> reverse_resolve_op) : RM unit :=
  upd (fun x => set_reverse_op (f (reverse_op_ x)) x).

(** [start]: a callback on a stopped token runs at once. *)
Definition start (t : token) (o : resolve_op) : resolve_op :=
  let o := set_stop_cb false (set_cancelled false o) in
  match t with
  | never => o
  | stoppable => set_stop_cb true o
  | stopped => request_cancel (set_stop_cb true o)
  end.
Definition r_start (t : token) (o : reverse_resolve_op) : reverse_resolve_op :=
  let o := r_set_stop_cb false (r_set_cancelled false o) in
  match t with
  | never => o
  | stoppable => r_set_stop_cb true o
  | stopped => r_request_cancel (r_set_stop_cb true o)
  end.

(** [unavailable] is [resolver_unavailable()]: the scheduler runs without locks.
    [accepts] is the result of the pool's [post]. *)
Definition resolve (unavailable accepts : bool) (co : nat) (hst srv : string) (fl : Z) (t : token)
    (ec o : nat) : RM outcome :=
  if unavailable then
    emit (wrote_ec ec (generic EOPNOTSUPP)) ≫= fun _ =>
    emit (resumed co) ≫= fun _ => mret dispatched
  else
    upd_op (fun op => let op := reset op in
              start t (mk_resolve_op co (Some ec) (Some o) hst srv fl (stored_results op)
                         (gai_error op) (cancelled op) (stop_cb op))) ≫= fun _ =>
    emit work_started ≫= fun _ =>
    upd (set_ref forward true) ≫= fun _ =>
    (if accepts then emit (pooled forward)
     else
       upd (set_ref forward false) ≫= fun _ =>
       upd_op (set_cancelled true) ≫= fun _ =>
       emit (posted forward)) ≫= fun _ =>
    mret noop_coroutine.

Definition reverse_resolve (unavailable accepts : bool) (co : nat) (ep : endpoint.t) (fl : Z)
    (t : token) (ec o : nat) : RM outcome :=
  if unavailable then
    emit (wrote_ec ec (generic EOPNOTSUPP)) ≫= fun _ =>
    emit (resumed co) ≫= fun _ => mret dispatched
  else
    upd_reverse_op (fun op => let op := r_reset op in
              r_start t (mk_reverse_op co (Some ec) (Some o) ep fl (stored_host op)
                           (stored_service op) (r_gai_error op) (r_cancelled op) (r_stop_cb op)))
      ≫= fun _ =>
    emit work_started ≫= fun _ =>
    upd (set_ref reverse true) ≫= fun _ =>
    (if accepts then emit (pooled reverse)
     else
       upd (set_ref reverse false) ≫= fun _ =>
       upd_reverse_op (r_set_cancelled true) ≫= fun _ =>
       emit (posted reverse)) ≫= fun _ =>
    mret noop_coroutine.

Definition cancel : RM unit := upd_op request_cancel ≫= fun _ => upd_reverse_op r_request_cancel.

(** [do_resolve_work] in three pieces: the call; what is stored; the post, which
    returns the share that the thread holds on its stack. *)
Definition c_str (s : string) : option string :=
  match s with
  | EmptyString => None
  | _ => Some s
  end.

Definition resolve_lookup : RM unit :=
  x ← this;
  emit (getaddrinfo (c_str (host (op_ x))) (c_str (service (op_ x))) AF_UNSPEC SOCK_STREAM
          (flags_to_hints (flags (op_ x)))).

Definition resolve_store (result : Z) (ai : list addrinfo) : RM unit :=
  x ← this;
  (if negb (cancelled (op_ x)) then
     if (result =? 0) && negb (bool_decide (ai = [] :> list addrinfo)) then
       match convert_results ai (host (op_ x)) (service (op_ x)) with
       | Ok l => upd_op (set_stored l 0)
       | _ => fault
       end
     else upd_op (fun o => set_stored (stored_results o) result o)
   else skip) ≫= fun _ =>
  if bool_decide (ai = [] :> list addrinfo) then skip else emit freeaddrinfo.

Definition work_post (d : dir) : RM bool :=
  x ← this;
  upd (set_ref d false) ≫= fun _ =>
  emit (posted d) ≫= fun _ => mret (ref_ x d).

(** [do_reverse_resolve_work] *)
Definition reverse_lookup : RM unit :=
  x ← this;
  let ep := r_ep (reverse_op_ x) in
  let '(ss, ss_len) :=
    if endpoint.is_v4 ep then (ss_in (to_sockaddr_in AF_INET ep), len_in)
    else (ss_in6 (to_sockaddr_in6 AF_INET6 ep), len_in6) in
  emit (getnameinfo ss ss_len (flags_to_ni_flags (r_flags (reverse_op_ x)))).

Definition reverse_store (result : Z) (hs ss : string) : RM unit :=
  x ← this;
  if negb (r_cancelled (reverse_op_ x)) then
    if result =? 0 then upd_reverse_op (r_set_stored hs ss 0)
    else upd_reverse_op (fun o => r_set_stored (stored_host o) (stored_service o) result o)
  else skip.

(** [resolve_op::operator()]; [errno] is that of the scheduler's thread. *)
Definition resolve_result (errno : Z) (o : resolve_op) : error_code :=
  if cancelled o then canceled
  else if negb (gai_error o =? 0) then make_gai_error errno (gai_error o)
  else success.

Definition resolve_complete (errno : Z) : RM unit :=
  upd_op (set_stop_cb false) ≫= fun _ =>
  x ← this;
  let o := op_ x in
  (match ec_out o with
   | Some p => emit (wrote_ec p (resolve_result errno o))
   | None => skip
   end) ≫= fun _ =>
  (match out o with
   | Some p =>
       if negb (cancelled o) && (gai_error o =? 0) then
         emit (wrote_results p (stored_results o)) ≫= fun _ =>
         upd_op (fun o => set_stored [] (gai_error o) o)
       else skip
   | None => skip
   end) ≫= fun _ =>
  emit work_finished ≫= fun _ =>
  emit (resumed (h o)).

Definition reverse_result (errno : Z) (o : reverse_resolve_op) : error_code :=
  if r_cancelled o then canceled
  else if negb (r_gai_error o =? 0) then make_gai_error errno (r_gai_error o)
  else success.

Definition reverse_complete (errno : Z) : RM unit :=
  upd_reverse_op (r_set_stop_cb false) ≫= fun _ =>
  x ← this;
  let o := reverse_op_ x in
  (match r_ec_out o with
   | Some p => emit (wrote_ec p (reverse_result errno o))
   | None => skip
   end) ≫= fun _ =>
  (match result_out o with
   | Some p =>
       if negb (r_cancelled o) && (r_gai_error o =? 0) then
         emit (wrote_result p (mk_reverse (r_ep o) (stored_host o) (stored_service o))) ≫= fun _ =>
         upd_reverse_op (fun o => r_set_stored EmptyString EmptyString (r_gai_error o) o)
       else skip
   | None => skip
   end) ≫= fun _ =>
  emit work_finished ≫= fun _ =>
  emit (resumed (r_h o)).

(** [destroy]: no work is released. *)
Definition destroy_op (d : dir) : RM unit :=
  match d with
  | forward => upd_op (set_stop_cb false)
  | reverse => upd_reverse_op (r_set_stop_cb false)
  end.

End resolver.
