(* ===== verification/ResolverSteps.v ===== *)
(** A resolver under concurrency: a forward and a reverse resolution on the
    threads of the pool and of the scheduler, stop requests, [cancel] and the
    release of the resolver by its service, in every interleaving.

    As its documentation requires, one resolution of each kind is in flight at a
    time.  The answers of [getaddrinfo] and [getnameinfo] are arbitrary, but an
    address has the structure that its family announces. *)

From stdpp Require Import relations functions list_tactics.
From Stdlib Require Import String.
From S2P Require Import Prelude StateMonad Endpoint Sockaddr PoolFlow PoolWorld StreamFile Resolver.
Import resolver.
Import stream_file(token(..), outcome(..)).
#[local] Existing Instance stream_file.token_eq_dec.

(** What the call of the C library returns. *)
Inductive answer :=
| addresses (result : Z) (ai : list addrinfo)
| names (result : Z) (hs ss : string).

Definition addr_ok (p : addrinfo) : Prop :=
  (ai_family p = AF_INET -> exists sa, ai_addr p = ss_in sa)
  /\ (ai_family p = AF_INET6 -> exists sa, ai_addr p = ss_in6 sa).

Definition answer_ok (d : dir) (a : answer) : Prop :=
  match d, a with
  | forward, addresses _ ai => Forall addr_ok ai
  | reverse, names _ _ _ => True
  | _, _ => False
  end.

(** Where the thread of the pool is in [do_resolve_work] or
    [do_reverse_resolve_work]. *)
Inductive phase :=
| Looking
| Storing (a : answer)
| Posting.

(** The ghost state: the threads that still hold, on their stack, a share of the
    resolver, and the answer that each operation in flight has got. *)
Record notes := mk_notes { returning : list dir; got : dir -> option answer }.
Abbreviation vworld := (world dir resolver event phase notes).

Definition note_got (d : dir) (a : option answer) (w : vworld) : vworld :=
  set_ghost (mk_notes (returning (ghost w)) (<[d := a]> (got (ghost w)))) w.
Definition note_returning (l : list dir) (w : vworld) : vworld :=
  set_ghost (mk_notes l (got (ghost w))) w.

Definition lookup_of (d : dir) : RM unit :=
  match d with
  | forward => resolve_lookup
  | reverse => reverse_lookup
  end.
Definition store_of (a : answer) : RM unit :=
  match a with
  | addresses r ai => resolve_store r ai
  | names r hs ss => reverse_store r hs ss
  end.
Definition complete_of (d : dir) (errno : Z) : RM unit :=
  match d with
  | forward => resolve_complete errno
  | reverse => reverse_complete errno
  end.
Definition stop_of (d : dir) : RM unit :=
  match d with
  | forward => upd_op request_cancel
  | reverse => upd_reverse_op r_request_cancel
  end.
Definition stop_cb_of (x : resolver) (d : dir) : bool :=
  match d with
  | forward => stop_cb (op_ x)
  | reverse => r_stop_cb (reverse_op_ x)
  end.

(** A request of either kind. *)
Inductive request :=
| Resolve (hst srv : string) (fl : Z)
| Reverse (ep : endpoint.t) (fl : Z).
Definition dir_of (r : request) : dir :=
  match r with
  | Resolve _ _ _ => forward
  | Reverse _ _ => reverse
  end.
Definition run_request (r : request) (unavailable accepts : bool) (co : nat) (t : token) : RM outcome :=
  match r with
  | Resolve hst srv fl => resolve unavailable accepts co hst srv fl t co co
  | Reverse ep fl => reverse_resolve unavailable accepts co ep fl t co co
  end.

Inductive step (w : vworld) : vworld -> Prop :=
| S_init q unavailable accepts co t r w1 :
    in_service w = true -> waiting w (dir_of q) = None ->
    exec (run_request q unavailable accepts co t) w r w1 ->
    step w (add_started co (match r with
                            | dispatched => w1
                            | noop_coroutine =>
                                set_waiting (dir_of q) (Some co) (note_got (dir_of q) None w1)
                            end))
| S_take j d : pool w !! j = Some d -> step w (take j d Looking w)
| S_look j d a w1 :
    workers w !! j = Some (d, Looking) -> answer_ok d a -> exec (lookup_of d) w tt w1 ->
    step w (advance j d (Storing a) (note_got d (Some a) w1))
| S_store j d a w1 :
    workers w !! j = Some (d, Storing a) -> exec (store_of a) w tt w1 ->
    step w (advance j d Posting w1)
| S_post j d b w1 :
    workers w !! j = Some (d, Posting) -> exec (work_post d) w b w1 ->
    step w (leave j (note_returning (returning (ghost w) ++ if b : bool then [d] else []) w1))
| S_return j d :
    returning (ghost w) !! j = Some d ->
    step w (note_returning (delete j (returning (ghost w))) w)
| S_complete j d errno w1 :
    queue w !! j = Some d -> exec (complete_of d errno) (set_queue (delete j (queue w)) w) tt w1 ->
    step w (set_waiting d None w1)
| S_destroy_op j d w1 :
    queue w !! j = Some d -> exec (destroy_op d) (set_queue (delete j (queue w)) w) tt w1 ->
    step w (add_dropped (waiting w d) (set_waiting d None w1))
| S_stop d w1 : stop_cb_of (obj w) d = true -> exec (stop_of d) w tt w1 -> step w w1
| S_cancel w1 : in_service w = true -> exec cancel w tt w1 -> step w w1
| S_release : in_service w = true -> step w (set_service false w).

Definition initial : vworld :=
  mk_world new_resolver true [] [] [] 0 (fun _ => None) [] [] [] [] (mk_notes [] (fun _ => None)).

Definition reachable : vworld -> Prop := rtc step initial.

(** The owners of the resolver. *)
Definition refs (w : vworld) : Z :=
  b2z (in_service w) + (b2z (ref_ (obj w) forward) + b2z (ref_ (obj w) reverse))
  + Z.of_nat (length (returning (ghost w))).

(** * The invariant *)

(** The operation of each direction. *)
Definition part (x : resolver) (d : dir) : resolve_op + reverse_resolve_op :=
  match d with
  | forward => inl (op_ x)
  | reverse => inr (reverse_op_ x)
  end.
Definition is_cancelled (o : resolve_op + reverse_resolve_op) : bool :=
  match o with
  | inl o => cancelled o
  | inr o => r_cancelled o
  end.

(** The fields that the handler of an operation uses. *)
Definition armed (co : nat) (o : resolve_op + reverse_resolve_op) : Prop :=
  match o with
  | inl o => h o = co /\ ec_out o = Some co /\ out o = Some co
  | inr o => r_h o = co /\ r_ec_out o = Some co /\ result_out o = Some co
  end.

(** Nothing is stored yet. *)
Definition fresh (o : resolve_op + reverse_resolve_op) : Prop :=
  match o with
  | inl o => gai_error o = 0 /\ stored_results o = []
  | inr o => r_gai_error o = 0
  end.

(** What is stored of an answer. *)
Definition stored (a : option answer) (o : resolve_op + reverse_resolve_op) : Prop :=
  is_cancelled o = true \/
  match o, a with
  | inl o, Some (addresses r ai) =>
      Forall addr_ok ai /\ gai_error o = r
      /\ (if bool_decide (r = 0)
          then convert_results ai (host o) (service o) = Ok (stored_results o)
          else stored_results o = [])
  | inr o, Some (names r hs ss) =>
      r_gai_error o = r /\ (r = 0 -> stored_host o = hs /\ stored_service o = ss)
  | _, _ => False
  end.

Definition phase_ok (w : vworld) (y : dir * phase) : Prop :=
  let o := part (obj w) (fst y) in
  match snd y with
  | Looking => fresh o
  | Storing a => got (ghost w) (fst y) = Some a /\ answer_ok (fst y) a /\ fresh o
  | Posting => stored (got (ghost w) (fst y)) o
  end.
Abbreviation entries := (PoolWorld.entries Looking Posting).

Record inv (w : vworld) : Prop := mk_inv {
  i_flow : finv 1 (flow_of w);
  i_ref : forall d, ref_ (obj w) d = bool_decide (d ∈ pool w ++ (fst <$> workers w));
  i_armed : forall d co, waiting w d = Some co -> armed co (part (obj w) d);
  i_entries : Forall (phase_ok w) (entries w)
}.

Lemma resolver_initial_inv : inv initial.
Proof. split; cbn; try done; [apply f_initial_inv|by intros []]. Qed.

(** ** Preservation *)

Lemma resolver_phase_ok_ext w w' y :
  part (obj w') (fst y) = part (obj w) (fst y) -> got (ghost w') (fst y) = got (ghost w) (fst y) ->
  phase_ok w y -> phase_ok w' y.
Proof. intros E1 E2. unfold phase_ok. by rewrite E1, E2. Qed.

(** A step of the operation [d]: the other one is left alone. *)
Lemma resolver_inv_touch w w' d p p' rest :
  inv w -> (forall e, e <> d -> part (obj w') e = part (obj w) e) ->
  (forall e, e <> d -> got (ghost w') e = got (ghost w) e) ->
  (forall co, armed co (part (obj w) d) -> armed co (part (obj w') d)) ->
  waiting w' = waiting w -> finv 1 (flow_of w') ->
  (forall e, ref_ (obj w') e = bool_decide (e ∈ pool w' ++ (fst <$> workers w'))) ->
  entries w ≡ₚ (d, p) :: rest -> entries w' ≡ₚ (d, p') :: rest -> phase_ok w' (d, p') -> inv w'.
Proof.
  intros I Ep Eg Ea Ew F Hr P P' Hp. split; try done.
  - intros e co. rewrite Ew. intros Hc. destruct (decide (e = d)) as [->|He].
    + apply Ea. by apply (i_armed w I).
    + rewrite Ep by done. by apply (i_armed w I).
  - rewrite P'. constructor; [done|]. eapply entries_rest; [apply I|apply I|done|].
    intros y Hy. apply resolver_phase_ok_ext; auto.
Qed.

Lemma resolver_in_worker w j d p :
  inv w -> workers w !! j = Some (d, p) -> exists rest, entries w ≡ₚ (d, p) :: rest /\ phase_ok w (d, p).
Proof.
  intros I Hj. pose proof (entries_worker Looking Posting w j d p Hj) as P. pose proof (i_entries w I) as F.
  rewrite P in F. apply list.Forall_cons in F as [F _]. eauto.
Qed.

Lemma advance_keys (w : vworld) j d p p' :
  workers w !! j = Some (d, p) -> fst <$> (<[j := (d, p')]> (workers w)) = fst <$> workers w.
Proof.
  intros Hj. rewrite list_fmap_insert. apply list_insert_id. by rewrite list_lookup_fmap, Hj.
Qed.

Lemma step_look w j d a w1 :
  inv w -> workers w !! j = Some (d, Looking) -> answer_ok d a -> exec (lookup_of d) w tt w1 ->
  let w' := advance j d (Storing a) (note_got d (Some a) w1) in
  refines 1 (flow_of w) (flow_of w') /\ inv w'.
Proof.
  intros I Hj Ha He w'. destruct (resolver_in_worker w j d _ I Hj) as (rest & P & Hp).
  assert (exists ev, w1 = add_trace ev w) as [ev ->].
  { destruct He as (s & E & ->), d.
    - injection E as <-. destruct w. by eexists.
    - unfold lookup_of, reverse_lookup in E. unfold_run E.
      destruct (endpoint.is_v4 _); injection E as <-; destruct w; by eexists. }
  assert (Ef : flow_of w' = flow_of w) by (subst w'; by erewrite flow_advance).
  split; [by left|]. apply (resolver_inv_touch w w' d Looking (Storing a) rest); try done.
  - intros e He'. cbn. by rewrite fn_lookup_insert_ne.
  - rewrite Ef. apply I.
  - intros e. cbn. rewrite (advance_keys w j d Looking) by done. apply I.
  - by eapply entries_advance.
  - unfold phase_ok. cbn. by rewrite fn_lookup_insert.
Qed.

Lemma convert_ok ai hst srv : Forall addr_ok ai -> exists l, convert_results ai hst srv = Ok l.
Proof.
  induction 1 as [|p ai Hp _ [l IH]]; [by eexists|]. cbn. rewrite IH. destruct Hp as [H4 H6].
  destruct (ai_family p =? AF_INET) eqn:E4; [|destruct (ai_family p =? AF_INET6) eqn:E6].
  - apply Z.eqb_eq in E4. destruct (H4 E4) as [sa ->]. eauto.
  - apply Z.eqb_eq in E6. destruct (H6 E6) as [sa ->]. eauto.
  - eauto.
Qed.

(** What storing an answer does to the operation. *)
Lemma run_store d a x l :
  answer_ok d a -> fresh (part x d) ->
  exists x' l', store_of a (mk_st x l) = Ok (tt, mk_st x' (l ++ l'))
  /\ Forall (fun e => effect_of e = e_none) l' /\ (forall e, ref_ x' e = ref_ x e)
  /\ (forall e, e <> d -> part x' e = part x e) /\ stored (Some a) (part x' d)
  /\ (forall co, armed co (part x d) -> armed co (part x' d)).
Proof.
  intros Ha Hf. destruct d, a as [r ai|r hs ss]; try done; cbn in Ha, Hf.
  - destruct Hf as [Hg Hs]. destruct (convert_ok ai (host (op_ x)) (service (op_ x)) Ha) as [res Er].
    unfold store_of, resolve_store, upd_op. unfold_run_goal. rewrite Er.
    assert (Hfree : exists l', (if bool_decide (ai = []) then l else l ++ [freeaddrinfo]) = l ++ l'
      /\ Forall (fun e => effect_of e = e_none) l').
    { case_bool_decide; [exists []; by rewrite app_nil_r|]. exists [freeaddrinfo]. by repeat constructor. }
    destruct Hfree as (l' & El & Hl').
    destruct (cancelled (op_ x)) eqn:Ec; cbn.
    + exists x, l'. split; [by rewrite <- El; case_bool_decide|]. do 3 (split; [done|]). split; [by left|done].
    + destruct (r =? 0) eqn:Er0; cbn.
      * apply Z.eqb_eq in Er0 as ->. destruct (bool_decide (ai = [])) eqn:Eai; cbn.
        -- exists (set_op (set_stored (stored_results (op_ x)) 0 (op_ x)) x), l'. rewrite <- El.
           apply bool_decide_eq_true in Eai as ->. injection Er as <-.
           split; [done|]. split; [done|]. split; [done|]. split; [by intros []|]. split; [|done].
           right. cbn. split; [done|]. split; [done|]. by rewrite Hs.
        -- exists (set_op (set_stored res 0 (op_ x)) x), l'. rewrite <- El.
           split; [done|]. split; [done|]. split; [done|]. split; [by intros []|]. split; [|done].
           right. cbn. split; [done|]. split; [done|]. exact Er.
      * exists (set_op (set_stored (stored_results (op_ x)) r (op_ x)) x), l'.
        split; [by rewrite <- El; case_bool_decide|]. split; [done|]. split; [done|].
        split; [by intros []|]. split; [|done]. right. cbn. split; [done|]. split; [done|].
        apply Z.eqb_neq in Er0. by rewrite bool_decide_false.
  - unfold store_of, reverse_store, upd_reverse_op. unfold_run_goal.
    destruct (r_cancelled (reverse_op_ x)) eqn:Ec; cbn.
    + exists x, []. rewrite app_nil_r. do 4 (split; [done|]). split; [by left|done].
    + destruct (r =? 0) eqn:Er0; cbn.
      * apply Z.eqb_eq in Er0 as ->. exists (set_reverse_op (r_set_stored hs ss 0 (reverse_op_ x)) x), [].
        rewrite app_nil_r. do 3 (split; [done|]). split; [by intros []|]. split; [|done]. by right.
      * exists (set_reverse_op (r_set_stored (stored_host (reverse_op_ x)) (stored_service (reverse_op_ x)) r
                  (reverse_op_ x)) x), [].
        rewrite app_nil_r. do 3 (split; [done|]). split; [by intros []|]. split; [|done]. right. cbn.
        split; [done|]. apply Z.eqb_neq in Er0. done.
Qed.

Lemma step_store w j d a w1 :
  inv w -> workers w !! j = Some (d, Storing a) -> exec (store_of a) w tt w1 ->
  refines 1 (flow_of w) (flow_of (advance j d Posting w1)) /\ inv (advance j d Posting w1).
Proof.
  intros I Hj (s & E & ->). destruct (resolver_in_worker w j d _ I Hj) as (rest & P & Hg & Ha & Hf). cbn in Hg, Ha, Hf.
  destruct (run_store d a (obj w) [] Ha Hf) as (x' & l' & E' & Hl & Hr & Hp & Hs & Har).
  rewrite E' in E. injection E as <-. cbn [log self app].
  destruct (absorb_none l' (set_obj x' w) Hl) as (E1 & E2 & E3 & E4).
  set (w1 := absorb_all l' (set_obj x' w)) in *. clearbody w1. cbn in E2, E3, E4.
  assert (Ef : flow_of w1 = flow_of w) by done.
  assert (Ep := Ef). injection Ep as Ep1 Ep2 Ep3 _ Ep5 _ _ _.
  assert (Ef' : flow_of (advance j d Posting w1) = flow_of w).
  { rewrite <- Ef. eapply flow_advance. by rewrite E3. }
  split; [by left|]. apply (resolver_inv_touch w _ d (Storing a) Posting rest); try done; cbn; rewrite ?E4; try done.
  - intros e _. by rewrite E2.
  - rewrite Ef'. apply I.
  - intros e. rewrite Hr, Ep1, (advance_keys w1 j d (Storing a)), E3 by (by rewrite E3). apply I.
  - by eapply entries_advance.
  - unfold phase_ok. cbn. by rewrite E2, ?E4, Hg.
Qed.

Lemma only_running w j d p :
  inv w -> workers w !! j = Some (d, p) ->
  d ∉ pool w /\ (forall e, e ∈ fst <$> delete j (workers w) <-> e ∈ fst <$> workers w /\ e <> d).
Proof.
  intros I Hj. pose proof (fi_once _ _ (i_flow w I)) as N. unfold places in N. cbn in N.
  rewrite list.NoDup_app in N. destruct N as (_ & N1 & N2). rewrite list.NoDup_app in N2.
  destruct N2 as (N2 & _). assert (Hd : (fst <$> workers w) !! j = Some d) by (by rewrite list_lookup_fmap, Hj).
  split.
  - intros H. apply (N1 d H). apply elem_of_app. left. by eapply list_elem_of_lookup_2.
  - intros e. rewrite list_fmap_delete. pose proof (delete_Permutation _ _ _ Hd) as P.
    rewrite P in N2. apply list.NoDup_cons in N2 as [N2 _]. rewrite P at 2. rewrite elem_of_cons.
    split; [intros He; split; [by right|intros ->; done]|naive_solver].
Qed.

Lemma resolver_step_post w j d b w1 :
  inv w -> workers w !! j = Some (d, Posting) -> exec (work_post d) w b w1 ->
  let w' := leave j (note_returning (returning (ghost w) ++ if b : bool then [d] else []) w1) in
  refines 1 (flow_of w) (flow_of w') /\ inv w'.
Proof.
  intros I Hj (s & E & ->) w'. destruct (resolver_in_worker w j d _ I Hj) as (rest & P & Hp).
  injection E as <- <-.
  assert (R : refines 1 (flow_of w) (flow_of w')) by (right; by eapply (flow_leave w)).
  split; [done|].
  destruct (only_running w j d _ I Hj) as [Hd Hk].
  assert (Hr : forall e, ref_ (set_ref d false (obj w)) e = if decide (e = d) then false else ref_ (obj w) e)
    by (by intros []; destruct d).
  apply (resolver_inv_touch w w' d Posting Posting rest); try done.
  - intros e _. subst w'. cbn. by destruct d.
  - intros co. subst w'. cbn. by destruct d.
  - by apply (refines_inv _ _ _ (i_flow w I) R).
  - intros e. subst w'. cbn. rewrite Hr, (i_ref w I).
    destruct (decide (e = d)) as [->|Hn]; symmetry; [apply bool_decide_false|apply bool_decide_ext];
      rewrite !elem_of_app, Hk; naive_solver.
  - by eapply entries_leave.
  - unfold phase_ok in *. subst w'. cbn in *. by destruct d.
Qed.

Lemma resolver_step_take w j d :
  inv w -> pool w !! j = Some d ->
  refines 1 (flow_of w) (flow_of (take j d Looking w)) /\ inv (take j d Looking w).
Proof.
  intros I Hj.
  assert (R : refines 1 (flow_of w) (flow_of (take j d Looking w))) by (right; by apply flow_take).
  split; [done|]. pose proof (refines_inv _ _ _ (i_flow w I) R).
  pose proof (delete_Permutation _ _ _ Hj) as P. destruct I. split; try done.
  - intros e. cbn. rewrite i_ref0, fmap_app. apply bool_decide_ext. rewrite P at 1. set_solver.
  - by rewrite entries_take.
Qed.

(** The end of an operation. *)
Lemma resolver_in_queue w j d :
  inv w -> queue w !! j = Some d ->
  exists co, waiting w d = Some co /\ armed co (part (obj w) d) /\ stored (got (ghost w) d) (part (obj w) d).
Proof.
  intros I Hj. pose proof (i_entries w I) as F. rewrite (entries_queue Looking Posting w j d Hj) in F.
  apply list.Forall_cons in F as [Hs _].
  assert (is_Some (waiting w d)) as [co Hc].
  { apply (fi_waits _ _ (i_flow w I) d). unfold places. rewrite !elem_of_app. right. right.
    by eapply list_elem_of_lookup_2. }
  exists co. split; [done|]. split; [by apply (i_armed w I)|done].
Qed.

Lemma resolver_inv_end w w' j d :
  inv w -> queue w !! j = Some d -> finv 1 (flow_of w') ->
  (forall e, e <> d -> part (obj w') e = part (obj w) e) -> (forall e, ref_ (obj w') e = ref_ (obj w) e) ->
  waiting w' = <[d := None]> (waiting w) -> ghost w' = ghost w -> pool w' = pool w ->
  workers w' = workers w -> queue w' = delete j (queue w) -> inv w'.
Proof.
  intros I Hj F Ep Er Ew Eg E1 E2 E3. split; try done.
  - intros e. rewrite Er, E1, E2. apply I.
  - intros e co. rewrite Ew. destruct (decide (e = d)) as [->|He]; [by rewrite fn_lookup_insert|].
    rewrite fn_lookup_insert_ne, Ep by done. apply I.
  - assert (entries w' = entries (set_queue (delete j (queue w)) w)) as ->.
    { unfold PoolWorld.entries. by rewrite E1, E2, E3. }
    eapply entries_rest; [apply I|apply I|by apply entries_queue|].
    intros y Hy. apply resolver_phase_ok_ext; [by apply Ep|by rewrite Eg].
Qed.

(** What the handler of an operation reports. *)
Definition report (errno : Z) (co : nat) (o : resolve_op + reverse_resolve_op) : list event :=
  match o with
  | inl o =>
      [wrote_ec co (resolve_result errno o)]
      ++ (if negb (cancelled o) && (gai_error o =? 0) then [wrote_results co (stored_results o)] else [])
  | inr o =>
      [wrote_ec co (reverse_result errno o)]
      ++ (if negb (r_cancelled o) && (r_gai_error o =? 0)
          then [wrote_result co (mk_reverse (r_ep o) (stored_host o) (stored_service o))] else [])
  end ++ [work_finished; resumed co].

Lemma resolver_run_complete d errno x l co :
  armed co (part x d) ->
  exists x', complete_of d errno (mk_st x l) = Ok (tt, mk_st x' (l ++ report errno co (part x d)))
  /\ (forall e, e <> d -> part x' e = part x e) /\ (forall e, ref_ x' e = ref_ x e).
Proof.
  intros A. destruct d; cbn in A; destruct A as (A1 & A2 & A3).
  - unfold complete_of, resolve_complete, upd_op. unfold_run_goal. cbn. rewrite A1, A2, A3.
    destruct (negb (cancelled (op_ x)) && (gai_error (op_ x) =? 0)); eexists;
      (split; [cbn; by rewrite <- !app_assoc|]); (split; [by intros []|by intros []]).
  - unfold complete_of, reverse_complete, upd_reverse_op. unfold_run_goal. cbn. rewrite A1, A2, A3.
    destruct (negb (r_cancelled (reverse_op_ x)) && (r_gai_error (reverse_op_ x) =? 0)); eexists;
      (split; [cbn; by rewrite <- !app_assoc|]); (split; [by intros []|by intros []]).
Qed.

Lemma resolver_step_complete w j d errno w1 :
  inv w -> queue w !! j = Some d -> exec (complete_of d errno) (set_queue (delete j (queue w)) w) tt w1 ->
  refines 1 (flow_of w) (flow_of (set_waiting d None w1)) /\ inv (set_waiting d None w1).
Proof.
  intros I Hj (s & E & ->). destruct (resolver_in_queue w j d I Hj) as (co & Hc & A & _).
  cbn [obj set_queue] in E. destruct (resolver_run_complete d errno (obj w) [] co A) as (x' & E' & Hp & Hr).
  rewrite E' in E. injection E as <-. cbn [log self app].
  match goal with |- refines _ _ (flow_of ?v) /\ _ => set (w' := v) end.
  assert (Ef : flow_of w' = mk_flow (pool w) (fst <$> workers w) (delete j (queue w)) (work w - 1)
                 (<[d := None]> (waiting w)) (started w) (ended w ++ [co]) (dropped w)
               /\ obj w' = x' /\ ghost w' = ghost w /\ workers w' = workers w).
  { subst w'. unfold report. by destruct (part (obj w) d); destruct (negb _ && _). }
  destruct Ef as (Ef & Eo & Eg & Ew).
  assert (R : refines 1 (flow_of w) (flow_of w')).
  { right. rewrite Ef. by apply (F_complete 1 (flow_of w) j d co). }
  split; [done|]. pose proof (refines_inv _ _ _ (i_flow w I) R). clearbody w'.
  injection Ef as E1 _ E3 _ E5 _ _ _. apply (resolver_inv_end w w' j d); try done; by rewrite Eo.
Qed.

Lemma resolver_step_destroy_op w j d w1 :
  inv w -> queue w !! j = Some d -> exec (destroy_op d) (set_queue (delete j (queue w)) w) tt w1 ->
  let w' := add_dropped (waiting w d) (set_waiting d None w1) in
  refines 1 (flow_of w) (flow_of w') /\ inv w'.
Proof.
  intros I Hj (s & E & ->) w'. destruct (resolver_in_queue w j d I Hj) as (co & Hc & A & _).
  subst w'. rewrite Hc. destruct d; injection E as <-;
    match goal with |- refines _ _ (flow_of ?v) /\ _ => set (w' := v) end;
    (assert (R : refines 1 (flow_of w) (flow_of w')) by
      (right; match goal with |- fstep _ _ (flow_of _) => 
         let S := fresh in pose proof (F_drop 1 (flow_of w) j _ co Hj Hc) as S;
         cbn in S; rewrite Z.sub_add in S; exact S end));
    (split; [done|]); eapply (resolver_inv_end w w' j); try done;
    try (by apply (refines_inv _ _ _ (i_flow w I) R)); by intros [].
Qed.

(** Starting an operation. *)
Lemma resolver_run_init q unavailable accepts co t x l :
  let d := dir_of q in
  exists r x',
  run_request q unavailable accepts co t (mk_st x l)
  = Ok (r, mk_st x' (l ++ if unavailable then [wrote_ec co (generic EOPNOTSUPP); resumed co]
                          else [work_started; if accepts then pooled d else posted d]))
  /\ if unavailable then r = dispatched /\ x' = x
     else r = noop_coroutine
          /\ (forall e, e <> d -> part x' e = part x e)
          /\ (forall e, ref_ x' e = if decide (e = d) then accepts else ref_ x e)
          /\ armed co (part x' d) /\ fresh (part x' d)
          /\ (accepts = false -> is_cancelled (part x' d) = true).
Proof.
  destruct unavailable.
  - exists dispatched, x. split; [|done].
    destruct q; cbn; unfold resolve, reverse_resolve; unfold_run_goal; by rewrite <- app_assoc.
  - exists noop_coroutine. destruct q, accepts; cbn; unfold resolve, reverse_resolve, upd_op, upd_reverse_op;
      unfold_run_goal; rewrite <- app_assoc; (eexists; split; [reflexivity|]);
      destruct t; (split; [done|]); (split; [by intros []|]); (split; [by intros []|]); done.
Qed.

Lemma resolver_step_init w q unavailable accepts co t r w1 :
  inv w -> waiting w (dir_of q) = None -> exec (run_request q unavailable accepts co t) w r w1 ->
  let w' := add_started co (match r with
              | dispatched => w1
              | noop_coroutine => set_waiting (dir_of q) (Some co) (note_got (dir_of q) None w1)
              end) in
  refines 1 (flow_of w) (flow_of w') /\ inv w'.
Proof.
  intros I Hw (s & E & ->) w'. set (d := dir_of q) in *.
  destruct (resolver_run_init q unavailable accepts co t (obj w) []) as (r' & x' & E' & Hx). fold d in E', Hx.
  rewrite E' in E. injection E as -> <-. destruct unavailable.
  - destruct Hx as [-> ->].
    assert (R : refines 1 (flow_of w) (flow_of w')) by (right; by apply (F_immediate 1 (flow_of w) co)).
    split; [done|]. pose proof (refines_inv _ _ _ (i_flow w I) R). destruct I. by split.
  - destruct Hx as (-> & Hp & Hr & Ha & Hf & Hc).
    assert (R : refines 1 (flow_of w) (flow_of w')).
    { right. destruct accepts; [by apply (F_start 1 (flow_of w) d co)|by apply (F_refused 1 (flow_of w) d co)]. }
    split; [done|]. pose proof (refines_inv _ _ _ (i_flow w I) R).
    assert (Hn : d ∉ places (flow_of w)) by (intros [? ?]%(fi_waits _ _ (i_flow w I)); cbn in *; congruence).
    assert (Eo : obj w' = x') by (by destruct accepts).
    assert (Ew : waiting w' = <[d := Some co]> (waiting w)) by (by destruct accepts).
    assert (Eg : got (ghost w') = <[d := None]> (got (ghost w))) by (by destruct accepts).
    assert (P : entries w' ≡ₚ (d, if accepts then Looking else Posting) :: entries w).
    { subst w'. destruct accepts; unfold PoolWorld.entries; cbn; rewrite fmap_app; cbn; solve_Permutation. }
    assert (Ek : pool w' ++ (fst <$> workers w') ≡ₚ (if accepts then [d] else []) ++ pool w ++ (fst <$> workers w)).
    { subst w'. destruct accepts; cbn; solve_Permutation. }
    unfold places in Hn. cbn in Hn. rewrite !elem_of_app in Hn.
    clearbody w'. split; rewrite ?Ew; try done.
    + intros e. rewrite Eo, Hr, (i_ref w I).
      destruct (decide (e = d)) as [->|He], accepts; symmetry;
        [apply bool_decide_true|apply bool_decide_false|apply bool_decide_ext|apply bool_decide_ext];
        rewrite Ek; set_solver.
    + intros e c. destruct (decide (e = d)) as [->|He].
      * rewrite fn_lookup_insert, Eo. by intros [= <-].
      * rewrite fn_lookup_insert_ne, Eo, Hp by done. apply I.
    + rewrite P. constructor.
      * unfold phase_ok. cbn. rewrite Eo. destruct accepts; [done|]. left. auto.
      * apply list.Forall_forall. intros y Hy.
        assert (fst y <> d).
        { intros <-. apply Hn. rewrite <- !elem_of_app.
          change (fst y ∈ places (flow_of w)). rewrite <- (entries_places Looking Posting).
          by apply list_elem_of_fmap_2. }
        apply (resolver_phase_ok_ext w); [by rewrite Eo, Hp|by rewrite Eg, fn_lookup_insert_ne|].
        by apply (proj1 (list.Forall_forall _ _) (i_entries w I)).
Qed.

(** Requests to cancel. *)
Definition cancel_part (o : resolve_op + reverse_resolve_op) : resolve_op + reverse_resolve_op :=
  match o with
  | inl o => inl (request_cancel o)
  | inr o => inr (r_request_cancel o)
  end.

Lemma resolver_inv_still w w' :
  inv w -> flow_of w' = flow_of w -> workers w' = workers w -> got (ghost w') = got (ghost w) ->
  (forall e, ref_ (obj w') e = ref_ (obj w) e) ->
  (forall e, part (obj w') e = part (obj w) e \/ part (obj w') e = cancel_part (part (obj w) e)) ->
  inv w'.
Proof.
  intros [] Ef Ew Eg Er Ep. assert (E := Ef). injection E as E1 _ E3 _ E5 _ _ _.
  split; rewrite ?Ef, ?E5; try done.
  - intros e. by rewrite Er, E1, Ew.
  - intros e co Hc. specialize (i_armed0 e co Hc). destruct (Ep e) as [-> | ->]; [done|].
    by destruct (part (obj w) e).
  - assert (entries w' = entries w) as -> by (unfold PoolWorld.entries; by rewrite E1, Ew, E3).
    eapply list.Forall_impl; [done|]. intros y Hy. unfold phase_ok in *. rewrite Eg.
    destruct (Ep (fst y)) as [-> | ->]; [done|]. destruct (snd y), (part (obj w) (fst y)); try done; by left.
Qed.

Lemma resolver_step_ok w w' : inv w -> step w w' -> refines 1 (flow_of w) (flow_of w') /\ inv w'.
Proof.
  intros I H. destruct H as [q un ac co t r w1 Hs Hw He|j d Hj|j d a w1 Hj Ha He|j d a w1 Hj He
    |j d b w1 Hj He|j d Hj|j d e w1 Hj He|j d w1 Hj He|d w1 Hs He|w1 Hs He|Hs].
  - by eapply resolver_step_init.
  - by apply resolver_step_take.
  - by eapply step_look.
  - by eapply step_store.
  - by eapply resolver_step_post.
  - split; [by left|]. apply (resolver_inv_still w); auto.
  - by eapply resolver_step_complete.
  - by eapply resolver_step_destroy_op.
  - destruct He as (s & E & ->). destruct d; injection E as <-; (split; [by left|]);
      (apply (resolver_inv_still w); try done); try (by intros []); intros []; (by left) || by right.
  - destruct He as (s & E & ->). injection E as <-. split; [by left|].
    apply (resolver_inv_still w); try done; try (by intros []). intros []; by right.
  - split; [by left|]. apply (resolver_inv_still w); auto.
Qed.

Lemma resolver_reachable_inv w : reachable w -> inv w.
Proof.
  unfold reachable. revert w. apply rtc_ind_r; [apply resolver_initial_inv|].
  intros y z _ Hs I. by apply (resolver_step_ok y z).
Qed.
