(* ===== verification/ResolverClaims.v ===== *)
(** What a resolver promises, and where it falls short: theorems on
    [posix_resolver] in every interleaving (ResolverSteps.v). *)

From stdpp Require Import relations functions list_tactics.
From Stdlib Require Import String.
From S2P Require Import Prelude StateMonad Ipv4 Endpoint Sockaddr PoolFlow PoolWorld StreamFile Resolver ResolverSteps.
Import resolver.
Import stream_file(with_flag, token(..), outcome(..)).

(** Every step is a step of the life of pooled operations, or leaves it alone. *)
Theorem resolver_refines_flow w w' :
  reachable w -> step w w' -> refines 1 (flow_of w) (flow_of w').
Proof. intros H. apply resolver_step_ok. by apply resolver_reachable_inv. Qed.

(** C23: A resolution in flight is in one place only; a coroutine is resumed as often
    as its resolutions were started, less those in flight or destroyed; the work
    counted is that of the resolutions in flight and, since [destroy] releases
    none, of those destroyed. *)
Theorem resolutions_complete_once w :
  reachable w ->
  let at_work := pool w ++ (fst <$> workers w) ++ queue w in
  NoDup at_work
  /\ (forall d, d ∈ at_work <-> is_Some (waiting w d))
  /\ work w = Z.of_nat (List.length at_work) + Z.of_nat (List.length (dropped w))
  /\ forall co, occ co (started w) = occ co (ended w) + occ co (dropped w)
                  + zsum (waits (flow_of w) co) at_work.
Proof.
  intros H. destruct (i_flow w (resolver_reachable_inv w H)) as [F1 F2 F3 F4].
  split; [exact F1|]. split; [exact F2|]. split; [|exact F4]. cbn in F3. unfold places in F3. cbn in F3. lia.
Qed.

(** ** Results *)

(** The entry of an address, if it is an internet address. *)
Definition entry_of (hst srv : string) (p : addrinfo) : option resolver_entry :=
  match ai_addr p with
  | ss_in sa => if ai_family p =? AF_INET then Some (mk_entry (from_sockaddr_in sa) hst srv) else None
  | ss_in6 sa => if ai_family p =? AF_INET6 then Some (mk_entry (from_sockaddr_in6 sa) hst srv) else None
  | _ => None
  end.

Lemma convert_results_exact ai hst srv :
  Forall addr_ok ai -> convert_results ai hst srv = Ok (omap (entry_of hst srv) ai).
Proof.
  induction 1 as [|p ai [H4 H6] _ IH]; [done|]. cbn. rewrite IH. unfold entry_of.
  destruct (ai_family p =? AF_INET) eqn:E4; [|destruct (ai_family p =? AF_INET6) eqn:E6].
  - apply Z.eqb_eq in E4. by destruct (H4 E4) as [sa ->].
  - apply Z.eqb_eq in E6. by destruct (H6 E6) as [sa ->].
  - by destruct (ai_addr p).
Qed.

Lemma absorb_trace l (w : vworld) : trace (absorb_all l w) = trace w ++ l.
Proof.
  revert w. induction l as [|e l IH]; intros w; [by rewrite app_nil_r|].
  change (absorb_all (e :: l) w) with (absorb_all l (absorb w e)). rewrite IH.
  assert (trace (absorb w e) = trace w ++ [e]) as -> by (unfold absorb; by destruct (effect_of e)).
  by rewrite <- app_assoc.
Qed.

(** Only [EAI_SYSTEM] looks at [errno]. *)
Lemma gai_error_mapped errno r :
  (r <> EAI_SYSTEM -> forall e, make_gai_error errno r = make_gai_error e r)
  /\ (r = EAI_SYSTEM -> make_gai_error errno r = generic_error errno).
Proof.
  split; [|by intros ->]. intros Hr e. unfold make_gai_error. destruct (r =? EAI_SYSTEM) eqn:Es; [|done].
  by apply Z.eqb_eq in Es.
Qed.

(** C24: A forward resolution reports [canceled] when it was cancelled; else, if
    [getaddrinfo] succeeded, success and an entry for each internet address, in
    order, with the names of the request; else the error that [make_gai_error] maps
    its code to.  For every code but [EAI_SYSTEM] that error is determined by the
    code alone; for [EAI_SYSTEM] it is the [errno] of the thread that runs the
    completion, whatever it is there, and not the one [getaddrinfo] left on the
    thread that called it, which is lost ([system_error_reported_as_success] for the
    reverse resolution, which does the same). *)
Theorem forward_resolution_reports w j errno w1 :
  reachable w -> queue w !! j = Some forward ->
  exec (complete_of forward errno) (set_queue (delete j (queue w)) w) tt w1 ->
  exists co, waiting w forward = Some co /\
  let o := op_ (obj w) in
  let ends l := trace w1 = trace w ++ l ++ [work_finished; resumed co] in
  if cancelled o then ends [wrote_ec co canceled]
  else exists r ai, got (ghost w) forward = Some (addresses r ai) /\
    if r =? 0 then
      ends [wrote_ec co success; wrote_results co (omap (entry_of (host o) (service o)) ai)]
    else ends [wrote_ec co (make_gai_error errno r)]
         /\ (r <> EAI_SYSTEM -> forall e, make_gai_error errno r = make_gai_error e r)
         /\ (r = EAI_SYSTEM -> make_gai_error errno r = generic_error errno).
Proof.
  intros H Hj (s & E & ->). pose proof (resolver_reachable_inv w H) as I.
  destruct (resolver_in_queue w j _ I Hj) as (co & Hc & A & Hs). exists co. split; [done|]. cbn zeta.
  cbn [obj set_queue] in E. destruct (resolver_run_complete forward errno (obj w) [] co A) as (x' & E' & _).
  rewrite E' in E. injection E as <-. cbn [log app]. rewrite absorb_trace. cbn [trace set_obj set_queue].
  unfold report, resolve_result. cbn [part]. destruct Hs as [Hs|Hs]; cbn in Hs.
  - by rewrite Hs.
  - destruct (cancelled (op_ (obj w))); [done|].
    destruct (got (ghost w) forward) as [[r ai|]|]; try done. exists r, ai. split; [done|].
    destruct Hs as (Ha & -> & Hs). destruct (r =? 0) eqn:Er; cbn; [|by split; [|apply gai_error_mapped]].
    apply Z.eqb_eq in Er as ->. rewrite bool_decide_true, convert_results_exact in Hs by done.
    by injection Hs as <-.
Qed.

(** A reverse resolution likewise reports the names that [getnameinfo] gave for
    the endpoint of the request. *)
Theorem reverse_resolution_reports w j errno w1 :
  reachable w -> queue w !! j = Some reverse ->
  exec (complete_of reverse errno) (set_queue (delete j (queue w)) w) tt w1 ->
  exists co, waiting w reverse = Some co /\
  let o := reverse_op_ (obj w) in
  let ends l := trace w1 = trace w ++ l ++ [work_finished; resumed co] in
  if r_cancelled o then ends [wrote_ec co canceled]
  else exists r hs ss, got (ghost w) reverse = Some (names r hs ss) /\
    if r =? 0 then ends [wrote_ec co success; wrote_result co (mk_reverse (r_ep o) hs ss)]
    else ends [wrote_ec co (make_gai_error errno r)].
Proof.
  intros H Hj (s & E & ->). pose proof (resolver_reachable_inv w H) as I.
  destruct (resolver_in_queue w j _ I Hj) as (co & Hc & A & Hs). exists co. split; [done|]. cbn zeta.
  cbn [obj set_queue] in E. destruct (resolver_run_complete reverse errno (obj w) [] co A) as (x' & E' & _).
  rewrite E' in E. injection E as <-. cbn [log app]. rewrite absorb_trace. cbn [trace set_obj set_queue].
  unfold report, reverse_result. cbn [part]. destruct Hs as [Hs|Hs]; cbn in Hs.
  - by rewrite Hs.
  - destruct (r_cancelled (reverse_op_ (obj w))); [done|].
    destruct (got (ghost w) reverse) as [[|r hs ss]|]; try done. exists r, hs, ss. split; [done|].
    destruct Hs as [-> Hs]. destruct (r =? 0) eqn:Er; cbn; [|done].
    apply Z.eqb_eq in Er as ->. by destruct (Hs eq_refl) as [-> ->].
Qed.

(** ** Lifetime *)

(** While its item is in the pool or a thread works on it, a resolution owns the
    resolver, whatever its service does. *)
Theorem resolver_outlives_its_work w d :
  reachable w -> d ∈ pool w ++ (fst <$> workers w) -> 1 <= refs w.
Proof.
  intros H Hd. pose proof (i_ref w (resolver_reachable_inv w H)) as Hr.
  assert (E : ref_ (obj w) d = true) by (rewrite Hr; by apply bool_decide_true).
  unfold refs. pose proof (b2z_le_1 (in_service w)).
  pose proof (b2z_le_1 (ref_ (obj w) forward)). pose proof (b2z_le_1 (ref_ (obj w) reverse)).
  destruct d; rewrite E in *; cbn [b2z]; lia.
Qed.

Ltac rexec := apply exec_after; vm_compute; reflexivity.

(** But once the thread has posted the operation and returned, no one but the
    service owns the resolver: released then, it is freed with its operation in
    the queue of the scheduler. *)
Example queued_resolution_outlives_resolver :
  exists w, reachable w /\ queue w = [forward] /\ refs w = 0.
Proof.
  eexists. split.
  - eapply rtc_l; [eapply (S_init _ (Resolve EmptyString EmptyString 0) false true 1 never noop_coroutine);
      [done|done|rexec]|].
    eapply rtc_l; [by eapply (S_take _ O forward)|].
    eapply rtc_l; [eapply (S_look _ O forward (addresses 0 [])); [done|constructor|rexec]|].
    eapply rtc_l; [eapply (S_store _ O forward); [vm_compute; reflexivity|rexec]|].
    eapply rtc_l; [eapply (S_post _ O forward true); [vm_compute; reflexivity|rexec]|].
    eapply rtc_l; [eapply S_cancel; [vm_compute; reflexivity|rexec]|].
    eapply rtc_l; [eapply S_release; vm_compute; reflexivity|].
    eapply rtc_once. by eapply (S_return _ O forward).
  - split; vm_compute; reflexivity.
Qed.

(** [EAI_SYSTEM] says that [errno] holds the error, and [make_gai_error] reads
    it, but in the thread of the scheduler: the error of the pool's thread is
    lost, and a resolution that failed is reported a success when the variable is
    zero there. *)
Example system_error_reported_as_success :
  exists w, reachable w
  /\ trace w = [work_started; pooled reverse;
                getnameinfo (ss_in (mk_in 2 (n16 0 80) (ipv4_address.bytes4 127 0 0 1))) len_in 0;
                posted reverse; wrote_ec 1 success; work_finished; resumed 1].
Proof.
  eexists. split.
  - eapply rtc_l; [eapply (S_init _ (Reverse (endpoint.of_v4 (ipv4_address.of_bytes (ipv4_address.bytes4 127 0 0 1)) 80) 0)
      false true 1 never noop_coroutine); [done|done|rexec]|].
    eapply rtc_l; [by eapply (S_take _ O reverse)|].
    eapply rtc_l; [eapply (S_look _ O reverse (names EAI_SYSTEM EmptyString EmptyString)); [done|done|rexec]|].
    eapply rtc_l; [eapply (S_store _ O reverse); [vm_compute; reflexivity|rexec]|].
    eapply rtc_l; [eapply (S_post _ O reverse true); [vm_compute; reflexivity|rexec]|].
    eapply rtc_once. eapply (S_complete _ O reverse 0); [vm_compute; reflexivity|rexec].
  - vm_compute; reflexivity.
Qed.

(** ** Flags *)

(** Each flag of the request is its own flag of the call, and no other is set. *)
Theorem flags_to_hints_exact f :
  let has x := negb (Z.land f x =? 0) in
  let hint x := negb (Z.land (flags_to_hints f) x =? 0) in
  hint AI_PASSIVE = has passive /\ hint AI_NUMERICHOST = has numeric_host
  /\ hint AI_NUMERICSERV = has numeric_service /\ hint AI_ADDRCONFIG = has address_configured
  /\ hint AI_V4MAPPED = has v4_mapped /\ hint AI_ALL = has all_matching
  /\ Z.land (flags_to_hints f) (Z.lnot (1 + 4 + 8 + 16 + 32 + 1024)) = 0.
Proof.
  cbn zeta. unfold flags_to_hints, with_flag.
  destruct (Z.land f passive =? 0), (Z.land f numeric_host =? 0), (Z.land f numeric_service =? 0),
    (Z.land f address_configured =? 0), (Z.land f v4_mapped =? 0), (Z.land f all_matching =? 0);
    by vm_compute.
Qed.

(** ** Progress *)

Definition settled (w : vworld) (d : dir) (co : nat) (w' : vworld) : Prop :=
  waiting w' d = None /\ ended w' = ended w ++ [co].

Lemma resolver_finish_step w w1 d co :
  inv w -> step w w1 -> waiting w1 d = Some co -> ended w1 = ended w ->
  (inv w1 -> waiting w1 d = Some co -> exists w', rtc step w1 w' /\ settled w1 d co w') ->
  exists w', rtc step w w' /\ settled w d co w'.
Proof.
  intros I S Hc He H. destruct (resolver_step_ok w w1 I S) as [_ I1]. destruct (H I1 Hc) as (w' & R & E1 & E2).
  exists w'. split; [by eapply rtc_l|]. split; [done|]. by rewrite E2, He.
Qed.

Lemma resolver_finish_queued w j d co :
  inv w -> queue w !! j = Some d -> waiting w d = Some co ->
  exists w', rtc step w w' /\ settled w d co w'.
Proof.
  intros I Hj Hc. destruct (resolver_in_queue w j d I Hj) as (co' & Hc' & A & _).
  assert (co' = co) as -> by congruence.
  destruct (resolver_run_complete d 0 (obj w) [] co A) as (x' & E & _).
  eexists. split.
  - eapply rtc_once, (S_complete w j d 0); [done|]. eexists. split; [exact E|reflexivity].
  - split; [apply fn_lookup_insert|]. cbn [log self app]. unfold report.
    by destruct (part (obj w) d); destruct (negb _ && _).
Qed.

Lemma resolver_finish_worker w j d p co :
  inv w -> workers w !! j = Some (d, p) -> waiting w d = Some co ->
  exists w', rtc step w w' /\ settled w d co w'.
Proof.
  intros I Hj Hc.
  assert (HP : forall v : vworld, inv v -> workers v !! j = Some (d, Posting) -> waiting v d = Some co ->
             exists w', rtc step v w' /\ settled v d co w').
  { intros v Iv Hv Hcv.
    eapply resolver_finish_step; [done|eapply S_post; [done|by eexists]|done|done|].
    intros I1 Hc1. eapply (resolver_finish_queued _ (List.length (queue v))); [done| |done].
    cbn. by rewrite list_lookup_middle. }
  assert (HS : forall v a, inv v -> workers v !! j = Some (d, Storing a) -> waiting v d = Some co ->
             exists w', rtc step v w' /\ settled v d co w').
  { intros v a Iv Hv Hcv. destruct (resolver_in_worker v j d _ Iv Hv) as (rest & P & Hg & Ha & Hf).
    cbn in Ha, Hf. pose proof (lookup_lt_Some _ _ _ Hv).
    destruct (run_store d a (obj v) [] Ha Hf) as (x' & l' & E' & Hl & _).
    destruct (absorb_none l' (set_obj x' v) Hl) as (E1 & E2 & E3 & E4).
    eapply resolver_finish_step; [done|eapply S_store; [done|]| | |].
    - eexists. split; [exact E'|reflexivity].
    - rewrite <- Hcv. exact (f_equal (fun f => f_waiting f d) E1).
    - exact (f_equal f_ended E1).
    - intros I1 Hc1. apply HP; [done| |done].
      cbn [advance set_workers workers log self app]. rewrite E3. by apply list_lookup_insert_eq. }
  destruct p as [|a|]; [|by eauto|by eauto]. pose proof (lookup_lt_Some _ _ _ Hj).
  set (a := match d with forward => addresses 0 [] | reverse => names 0 EmptyString EmptyString end).
  assert (exists s, lookup_of d (mk_st (obj w) []) = Ok (tt, s)
    /\ Forall (fun e => effect_of e = e_none) (log s)) as (s & E & Hl).
  { destruct d; [eexists; split; [reflexivity|by repeat constructor]|].
    unfold lookup_of, reverse_lookup. unfold_run_goal.
    destruct (endpoint.is_v4 _); (eexists; split; [reflexivity|by repeat constructor]). }
  destruct (absorb_none (log s) (set_obj (self s) w) Hl) as (E1 & E2 & E3 & E4).
  eapply resolver_finish_step; [done|eapply (S_look w j d a); [done| |]| | |].
  - subst a. destruct d; [constructor|done].
  - eexists. split; [exact E|reflexivity].
  - rewrite <- Hc. exact (f_equal (fun f => f_waiting f d) E1).
  - exact (f_equal f_ended E1).
  - intros I1 Hc1. apply (HS _ a); [done| |done].
    cbn [advance set_workers workers note_got set_ghost]. rewrite E3. by apply list_lookup_insert_eq.
Qed.

(** From every reachable state the threads of the pool and of the scheduler can
    end a resolution in flight and resume its coroutine. *)
Theorem resolution_can_finish w d co :
  reachable w -> waiting w d = Some co ->
  exists w', rtc step w w' /\ waiting w' d = None /\ ended w' = ended w ++ [co].
Proof.
  intros H Hc. pose proof (resolver_reachable_inv w H) as I.
  assert (Hd : d ∈ places (flow_of w)) by (apply (fi_waits _ _ (i_flow w I)); cbn; eauto).
  unfold places in Hd. cbn in Hd. rewrite !elem_of_app in Hd.
  destruct Hd as [[j Hj]%list_elem_of_lookup|[([f p] & -> & [j Hj]%list_elem_of_lookup)%list_elem_of_fmap
                 |[j Hj]%list_elem_of_lookup]].
  - eapply (resolver_finish_step w _ d co); [done|by eapply S_take|done|done|].
    intros I1 Hc1. eapply (resolver_finish_worker _ (List.length (workers w)) d Looking); [done| |done].
    cbn. by rewrite list_lookup_middle.
  - by eapply resolver_finish_worker.
  - by eapply resolver_finish_queued.
Qed.

(** * Instances *)

(** A resolution that found one address, in the queue of the scheduler. *)
Definition loopback : addrinfo :=
  mk_addrinfo AF_INET (ss_in (mk_in AF_INET (n16 0 80) (ipv4_address.bytes4 127 0 0 1))).
Definition found_queued : vworld :=
  let w1 := take 0 forward Looking
    (add_started 1 (set_waiting forward (Some 1%nat) (note_got forward None
       (after (run_request (Resolve EmptyString EmptyString 0) false true 1 never) initial)))) in
  let w2 := advance 0 forward (Storing (addresses 0 [loopback]))
    (note_got forward (Some (addresses 0 [loopback])) (after (lookup_of forward) w1)) in
  let w3 := advance 0 forward Posting (after (store_of (addresses 0 [loopback])) w2) in
  leave 0 (note_returning (returning (ghost w3) ++ [forward]) (after (work_post forward) w3)).

Lemma loopback_ok : Forall addr_ok [loopback].
Proof. repeat constructor; [eexists; reflexivity|done]. Qed.

Lemma found_queued_reachable : reachable found_queued.
Proof.
  eapply rtc_l; [eapply (S_init _ (Resolve EmptyString EmptyString 0) false true 1 never noop_coroutine);
    [done|done|rexec]|].
  eapply rtc_l; [by eapply (S_take _ O forward)|].
  eapply rtc_l; [eapply (S_look _ O forward (addresses 0 [loopback])); [done|apply loopback_ok|rexec]|].
  eapply rtc_l; [eapply (S_store _ O forward); [vm_compute; reflexivity|rexec]|].
  apply rtc_once. eapply (S_post _ O forward true); [vm_compute; reflexivity|rexec].
Qed.

Lemma resolutions_complete_once_witness :
  queue found_queued = [forward] /\ work found_queued = 1
  /\ occ 1%nat (started found_queued) = occ 1%nat (ended found_queued) + occ 1%nat (dropped found_queued)
       + zsum (waits (flow_of found_queued) 1) [forward].
Proof.
  split; [vm_compute; reflexivity|].
  destruct (resolutions_complete_once found_queued found_queued_reachable) as (_ & _ & H1 & H2).
  split; [exact H1|exact (H2 1%nat)].
Defined.

Lemma forward_resolution_reports_witness :
  exists co, trace (after (complete_of forward 0) (set_queue (delete 0%nat (queue found_queued)) found_queued))
    = trace found_queued ++ [wrote_ec co success;
        wrote_results co [mk_entry (from_sockaddr_in (mk_in AF_INET (n16 0 80) (ipv4_address.bytes4 127 0 0 1)))
          EmptyString EmptyString]; work_finished; resumed co].
Proof.
  destruct (forward_resolution_reports found_queued 0 0
    (after (complete_of forward 0) (set_queue (delete 0%nat (queue found_queued)) found_queued))
    found_queued_reachable) as (co & _ & H).
  - vm_compute. reflexivity.
  - rexec.
  - exists co. destruct H as (r & ai & Hg & H). vm_compute in Hg. injection Hg as <- <-. exact H.
Defined.
