(* ===== verification/PoolService.v ===== *)
(** The services that own the stream files, the random-access files and the
    resolvers of a context: [posix_stream_file_service],
    [posix_random_access_file_service] and [posix_resolver_service] in
    [include/boost/corosio/native/detail/posix/].

    The three are the same code over different objects, which are here an
    argument: [pooled_impl] is what a service asks of its objects, and what it is
    promised of them.  An object is named by its address; [list_] is the
    intrusive list and [ptrs_] the map of the pointers that own the objects. *)

From stdpp Require Import gmap functions.
From S2P Require Import Prelude StateMonad ReactorOp PoolWorld StreamFile RandomFile Resolver.
From S2P Require RandomFileSteps.

(** [impl_good] are the objects on which [cancel] and [close_file] return. *)
Class pooled_impl (F E : Type) := {
  impl_new : F;
  impl_cancel : M (st F E) unit;
  impl_close : M (st F E) unit;
  impl_good : F -> Prop;
  impl_new_good : impl_good impl_new;
  impl_cancel_ok : forall x l, impl_good x ->
    exists x' l', impl_cancel (mk_st x l) = Ok (tt, mk_st x' (l ++ l')) /\ impl_good x';
  impl_close_ok : forall x l, impl_good x ->
    exists x' l', impl_close (mk_st x l) = Ok (tt, mk_st x' (l ++ l')) /\ impl_good x'
}.

Module pool_service.

Section service.
Context {F E : Type} {PI : pooled_impl F E}.

Record service := mk_service {
  list_ : list nat;
  ptrs_ : gset nat;
  mem : nat -> F;
  log_ : list (nat * E)
}.

Abbreviation SM := (M service).

Definition set_list (l : list nat) (s : service) : service := mk_service l (ptrs_ s) (mem s) (log_ s).
Definition set_ptrs (p : gset nat) (s : service) : service := mk_service (list_ s) p (mem s) (log_ s).

(** A member function of the object at [k]. *)
Definition on (k : nat) (m : M (st F E) unit) : SM unit := fun s =>
  match m (mk_st (mem s k) []) with
  | Ok (_, t) =>
      Ok (tt, mk_service (list_ s) (ptrs_ s) (<[k := self t]> (mem s)) (log_ s ++ (pair k <$> log t)))
  | Err e => Err e
  | Fault => Fault
  end.

(** [construct]; [k] is the address of the new object. *)
Definition construct (k : nat) : SM unit :=
  modify (fun s => mk_service (list_ s ++ [k]) ({[k]} ∪ ptrs_ s) (<[k := impl_new]> (mem s)) (log_ s)).

(** [destroy_impl]: [remove] unlinks a node, which must be in the list. *)
Definition destroy_impl (k : nat) : SM unit :=
  s ← get;
  if decide (k ∈ list_ s) then
    modify (set_list (filter (fun j => j <> k) (list_ s))) ≫= fun _ =>
    modify (fun s => set_ptrs (ptrs_ s ∖ {[k]}) s)
  else fault.

Definition destroy (k : nat) : SM unit :=
  on k impl_cancel ≫= fun _ => on k impl_close ≫= fun _ => destroy_impl k.

(** [close]: a handle may be empty. *)
Definition close (h : option nat) : SM unit :=
  match h with
  | Some k => on k impl_cancel ≫= fun _ => on k impl_close
  | None => skip
  end.

(** [shutdown]: the objects are popped until the list is empty. *)
Fixpoint shutdown_loop (fuel : nat) : SM unit :=
  match fuel with
  | O => fault
  | S fuel =>
      s ← get;
      match list_ s with
      | [] => skip
      | k :: l =>
          modify (set_list l) ≫= fun _ =>
          on k impl_cancel ≫= fun _ =>
          on k impl_close ≫= fun _ => shutdown_loop fuel
      end
  end.
Definition shutdown : SM unit :=
  s ← get;
  shutdown_loop (S (length (list_ s))) ≫= fun _ => modify (set_ptrs ∅).

Definition initial : service := mk_service [] ∅ (fun _ => impl_new) [].

(** * The invariant *)

(** The list and the map name the same objects, each once, and all are good. *)
Record wf (s : service) : Prop := mk_wf {
  wf_once : NoDup (list_ s);
  wf_same : forall k, k ∈ list_ s <-> k ∈ ptrs_ s;
  wf_good : forall k, impl_good (mem s k)
}.

Lemma service_initial_wf : wf initial.
Proof.
  split; [by apply list.NoDup_nil| |]; intros k; [|apply impl_new_good].
  cbn. split; [by intros ?%not_elem_of_nil|set_solver].
Qed.

(** A member function leaves the list and the map alone. *)
Lemma on_wf k m s (Q : unit -> service -> Prop) :
  (forall x l, impl_good x -> exists x' l', m (mk_st x l) = Ok (tt, mk_st x' (l ++ l')) /\ impl_good x') ->
  (forall k, impl_good (mem s k)) ->
  (forall x' l', m (mk_st (mem s k) []) = Ok (tt, mk_st x' l') -> impl_good x' ->
     Q tt (mk_service (list_ s) (ptrs_ s) (<[k := x']> (mem s)) (log_ s ++ (pair k <$> l')))) ->
  wp (on k m) Q s.
Proof.
  intros Hm Hg HQ. destruct (Hm (mem s k) [] (Hg k)) as (x' & l' & Hr & Hx).
  unfold wp, on. rewrite Hr. by apply HQ.
Qed.

Lemma good_insert k x (f : nat -> F) :
  impl_good x -> (forall i, impl_good (f i)) -> forall i, impl_good (<[k := x]> f i).
Proof.
  intros Hx Hf i. destruct (decide (i = k)) as [->|Hi]; [by rewrite fn_lookup_insert|].
  by rewrite fn_lookup_insert_ne.
Qed.

(** [destroy] cancels and closes an object of the service, and disowns it. *)
Lemma destroy_wf k s :
  wf s -> k ∈ list_ s ->
  wp (destroy k) (fun _ s' => wf s' /\ list_ s' = filter (fun j => j <> k) (list_ s)
                              /\ ptrs_ s' = ptrs_ s ∖ {[k]}) s.
Proof.
  intros [W1 W2 W3] Hk. unfold destroy. wp_step. apply on_wf; [apply impl_cancel_ok|done|]. intros x1 l1 _ G1.
  wp_step. apply on_wf; [apply impl_close_ok|by apply good_insert|]. intros x2 l2 _ G2.
  unfold destroy_impl. wp_step. apply wp_get. cbn [list_]. rewrite decide_True by done. wp_steps.
  split; [|done]. split; cbn.
  - by apply list.NoDup_filter.
  - intros i. rewrite list_elem_of_filter, W2. set_solver.
  - apply good_insert; [done|]. by apply good_insert.
Qed.

Lemma construct_wf k s :
  wf s -> k ∉ ptrs_ s ->
  wp (construct k) (fun _ s' => wf s' /\ list_ s' = list_ s ++ [k] /\ mem s' k = impl_new) s.
Proof.
  intros [W1 W2 W3] Hk. unfold construct. wp_steps. split; [split|split]; cbn.
  - rewrite list.NoDup_app. split; [done|]. split; [|by apply list.NoDup_singleton].
    intros i Hi ->%list_elem_of_singleton. by apply Hk, W2.
  - intros i. rewrite elem_of_app, W2. set_solver.
  - apply good_insert; [apply impl_new_good|done].
  - done.
  - by rewrite fn_lookup_insert.
Qed.

Lemma close_wf h s :
  wf s -> wp (close h) (fun _ s' => wf s' /\ list_ s' = list_ s /\ ptrs_ s' = ptrs_ s) s.
Proof.
  intros [W1 W2 W3]. destruct h as [k|]; [|apply wp_skip; split; [by split|done]]. unfold close. wp_step.
  apply on_wf; [apply impl_cancel_ok|done|]. intros x1 l1 _ G1.
  apply on_wf; [apply impl_close_ok|by apply good_insert|]. intros x2 l2 _ G2.
  split; [|done]. split; try done. cbn. apply good_insert; [done|]. by apply good_insert.
Qed.

(** The object after [cancel] and [close_file]. *)
Definition put_down (x : F) : F :=
  match (impl_cancel ≫= fun _ => impl_close) (mk_st x []) with
  | Ok (_, t) => self t
  | _ => x
  end.

(** Running after a log is running without it, but for the log. *)
Class log_frame : Prop := {
  frame_close : forall x l x' l', impl_close (mk_st x []) = Ok (tt, mk_st x' l') ->
                impl_close (mk_st x l) = Ok (tt, mk_st x' (l ++ l'))
}.
Context {LF : log_frame}.

Lemma put_down_steps x x1 l1 x2 l2 :
  impl_cancel (mk_st x []) = Ok (tt, mk_st x1 l1) -> impl_close (mk_st x1 []) = Ok (tt, mk_st x2 l2) ->
  put_down x = x2.
Proof.
  intros E1 E2. unfold put_down, mbind, M_bind. rewrite E1. by rewrite (frame_close _ l1 _ _ E2).
Qed.

Lemma shutdown_loop_exact l s fuel :
  list_ s = l -> NoDup l -> (forall k, impl_good (mem s k)) -> (length l < fuel)%nat ->
  wp (shutdown_loop fuel)
    (fun _ s' => list_ s' = [] /\ ptrs_ s' = ptrs_ s /\ (forall k, impl_good (mem s' k))
       /\ forall k, mem s' k = if decide (k ∈ l) then put_down (mem s k) else mem s k) s.
Proof.
  revert s fuel. induction l as [|k l IH]; intros s [|fuel] El N Hg Hf; cbn in Hf; try lia; cbn [shutdown_loop].
  - wp_step. apply wp_get. cbn beta. rewrite El. apply wp_skip. split; [done|]. split; [done|].
    split; [done|]. intros k. by rewrite decide_False by set_solver.
  - apply list.NoDup_cons in N as [Nk N]. wp_step. apply wp_get. cbn beta. rewrite El. wp_step. apply wp_modify.
    wp_step. apply on_wf; [apply impl_cancel_ok|done|]. intros x1 l1 E1 G1. cbn in E1.
    wp_step. apply on_wf; [apply impl_close_ok|by apply good_insert|]. intros x2 l2 E2 G2. cbn in E2.
    rewrite fn_lookup_insert in E2. pose proof (put_down_steps _ _ _ _ _ E1 E2) as Ep.
    eapply wp_mono; [apply IH; try done; [|lia]|].
    + cbn. apply good_insert; [done|]. by apply good_insert.
    + intros _ s' (H1 & H2 & H3 & H4). split; [done|]. split; [done|]. split; [done|].
      intros i. rewrite H4. cbn. destruct (decide (i = k)) as [->|Hi].
      * rewrite decide_False, fn_lookup_insert, decide_True by set_solver. done.
      * rewrite !fn_lookup_insert_ne by done.
        by rewrite (decide_ext (i ∈ l) (i ∈ k :: l)) by set_solver.
Qed.

(** [shutdown] returns, owns nothing afterwards, and has cancelled and closed
    each object of the service once, and no other. *)
Theorem shutdown_puts_down_all s :
  wf s ->
  wp shutdown (fun _ s' => list_ s' = [] /\ ptrs_ s' = ∅
     /\ forall k, mem s' k = if decide (k ∈ list_ s) then put_down (mem s k) else mem s k) s.
Proof.
  intros [W1 W2 W3]. unfold shutdown. wp_step. apply wp_get. cbn beta. wp_step.
  eapply wp_mono; [eapply (shutdown_loop_exact (list_ s)); [done|done|done|lia]|].
  intros _ s' (H1 & H2 & H3 & H4). wp_steps. by split.
Qed.

(** * Runs *)

(** Calls in any order, on objects of the service. *)
Inductive sstep (s : service) : service -> Prop :=
| V_construct k s' : k ∉ ptrs_ s -> construct k s = Ok (tt, s') -> sstep s s'
| V_destroy k s' : k ∈ ptrs_ s -> destroy k s = Ok (tt, s') -> sstep s s'
| V_close h s' : (forall k, h = Some k -> k ∈ ptrs_ s) -> close h s = Ok (tt, s') -> sstep s s'
| V_shutdown s' : shutdown s = Ok (tt, s') -> sstep s s'
| V_object k x : impl_good x -> k ∈ ptrs_ s ->
    sstep s (mk_service (list_ s) (ptrs_ s) (<[k := x]> (mem s)) (log_ s)).

Lemma wp_run {A} (m : SM A) Q s a s' : wp m Q s -> m s = Ok (a, s') -> Q a s'.
Proof. unfold wp. intros H E1. by rewrite E1 in H. Qed.

Lemma sstep_wf s s' : wf s -> sstep s s' -> wf s'.
Proof.
  intros W H. destruct H as [k s' Hk Hr|k s' Hk Hr|h s' Hh Hr|s' Hr|k x Hx Hk].
  - by apply (wp_run _ _ _ _ _ (construct_wf k s W Hk) Hr).
  - apply (wf_same s W) in Hk. by apply (wp_run _ _ _ _ _ (destroy_wf k s W Hk) Hr).
  - by apply (wp_run _ _ _ _ _ (close_wf h s W) Hr).
  - destruct W as [W1 W2 W3].
    assert (H : wp shutdown (fun _ t => list_ t = [] /\ ptrs_ t = ∅ /\ forall k, impl_good (mem t k)) s).
    { unfold shutdown. wp_step. apply wp_get. cbn beta. wp_step.
      eapply wp_mono; [eapply (shutdown_loop_exact (list_ s)); [done|done|done|lia]|].
      intros _ t (H1 & H2 & H3 & H4). by wp_steps. }
    destruct (wp_run _ _ _ _ _ H Hr) as (E1 & E2 & Hg). split; [rewrite E1; by apply list.NoDup_nil| |done].
    intros k. rewrite E1, E2. split; [by intros ?%not_elem_of_nil|set_solver].
  - destruct W as [W1 W2 W3]. split; try done. cbn. by apply good_insert.
Qed.

(** After any calls the list and the map name the same objects, each once; so a
    call on an object of the service returns. *)
Theorem service_never_faults s :
  rtc sstep initial s ->
  wf s
  /\ (forall k, k ∈ ptrs_ s -> wp (destroy k) (fun _ s' => wf s' /\ k ∉ ptrs_ s') s)
  /\ wp shutdown (fun _ s' => wf s') s.
Proof.
  intros H. assert (W : wf s).
  { revert s H. apply rtc_ind_r; [apply service_initial_wf|]. intros y z _ Hs W. by eapply sstep_wf. }
  split; [done|]. split.
  - intros k Hk. eapply wp_mono; [apply destroy_wf; [done|by apply (wf_same s W)]|].
    intros _ s' (W' & _ & E'). split; [done|]. rewrite E'. set_solver.
  - destruct (shutdown s) as [[[] s']| |] eqn:Es.
    + unfold wp. rewrite Es. apply (sstep_wf s); [done|]. by constructor.
    + pose proof (shutdown_puts_down_all s W) as Hs. unfold wp in Hs. by rewrite Es in Hs.
    + pose proof (shutdown_puts_down_all s W) as Hs. unfold wp in Hs. by rewrite Es in Hs.
Qed.

End service.
Arguments service : clear implicits.
Arguments log_frame : clear implicits.
End pool_service.

(** * The three services *)

#[export] Program Instance stream_file_impl : pooled_impl stream_file.file stream_file.event := {|
  impl_new := stream_file.new_file;
  impl_cancel := stream_file.cancel;
  impl_close := stream_file.close_file;
  impl_good _ := True
|}.
Next Obligation. done. Qed.
Next Obligation. intros x l _. eexists _, []. by rewrite app_nil_r. Qed.
Next Obligation.
  intros x l _. unfold stream_file.close_file. unfold_run_goal.
  destruct (0 <=? _); eexists; [eexists; split; [reflexivity|done]|]. exists []. by rewrite app_nil_r.
Qed.

#[export] Instance stream_file_frame : pool_service.log_frame stream_file.file stream_file.event stream_file_impl.
Proof.
  constructor. intros x l x' l'. cbn. unfold stream_file.close_file. unfold_run_goal.
  destruct (0 <=? _); intros [= <- <-]; by rewrite ?app_nil_r.
Qed.

(** The operations listed are allocated. *)
#[export] Program Instance random_file_impl : pooled_impl random_file.file random_file.event := {|
  impl_new := random_file.new_file;
  impl_cancel := random_file.cancel;
  impl_close := random_file.close_file;
  impl_good x := forall k, k ∈ random_file.outstanding_ops_ x -> is_Some (random_file.heap x !! k)
|}.
Next Obligation. by intros k ?%not_elem_of_nil. Qed.
Next Obligation.
  intros x l H. destruct (RandomFileSteps.run_cancel x l H) as (m' & Hr & Hm). eexists _, [].
  rewrite app_nil_r. split; [exact Hr|]. cbn. intros k Hk. rewrite Hm, decide_True by done.
  apply fmap_is_Some. by apply H.
Qed.
Next Obligation.
  intros x l H. rewrite RandomFileSteps.close_log. eexists _, _. split; [reflexivity|]. exact H.
Qed.

#[export] Instance random_file_frame : pool_service.log_frame random_file.file random_file.event random_file_impl.
Proof.
  constructor. intros x l x' l'. cbn. rewrite !RandomFileSteps.close_log. by intros [= <- <-].
Qed.

(** A resolver has nothing to close. *)
#[export] Program Instance resolver_impl : pooled_impl resolver.resolver resolver.event := {|
  impl_new := resolver.new_resolver;
  impl_cancel := resolver.cancel;
  impl_close := skip;
  impl_good _ := True
|}.
Next Obligation. done. Qed.
Next Obligation. intros x l _. eexists _, []. by rewrite app_nil_r. Qed.
Next Obligation. intros x l _. exists x, []. by rewrite app_nil_r. Qed.

#[export] Instance resolver_frame : pool_service.log_frame resolver.resolver resolver.event resolver_impl.
Proof. constructor. intros x l x' l' [= <- <-]. by rewrite app_nil_r. Qed.

(** [open_file] of the two file services: not available on a scheduler without
    locks, since the pool completes from its own threads. *)
Definition operation_not_supported : reactor_op.error_code := reactor_op.system 95.

Definition stream_open_file (locking_disabled : bool) (mode : Z) (a b : reactor_op.answer) :
    M (st stream_file.file stream_file.event) reactor_op.error_code :=
  if locking_disabled then mret operation_not_supported else stream_file.open_file mode a b.
Definition random_open_file (locking_disabled : bool) (mode : Z) (a : reactor_op.answer) :
    M (st random_file.file random_file.event) reactor_op.error_code :=
  if locking_disabled then mret operation_not_supported else random_file.open_file mode a.

(** After [shutdown] of a file service, every stream file it owned has its
    descriptor closed and both operations cancelled. *)
Theorem stream_files_shut_down (s : pool_service.service stream_file.file stream_file.event) :
  pool_service.wf s ->
  wp pool_service.shutdown (fun _ s' => pool_service.list_ s' = [] /\ pool_service.ptrs_ s' = ∅
    /\ forall k, k ∈ pool_service.list_ s ->
       stream_file.fd_ (pool_service.mem s' k) < 0
       /\ forall d, stream_file.cancelled (stream_file.ops (pool_service.mem s' k) d) = true) s.
Proof.
  intros W. eapply wp_mono; [by apply pool_service.shutdown_puts_down_all|].
  intros _ s' (H1 & H2 & H3). split; [done|]. split; [done|]. intros k Hk. rewrite H3, decide_True by done.
  unfold pool_service.put_down. cbn. unfold stream_file.cancel, stream_file.upd_op, stream_file.close_file.
  unfold_run_goal. cbn. destruct (0 <=? stream_file.fd_ _) eqn:E; cbn.
  - split; [lia|]. by intros [].
  - split; [by apply Z.leb_gt|]. by intros [].
Qed.

(** Likewise every random-access file, and every operation it has in flight. *)
Theorem random_files_shut_down (s : pool_service.service random_file.file random_file.event) :
  pool_service.wf s ->
  wp pool_service.shutdown (fun _ s' => pool_service.list_ s' = [] /\ pool_service.ptrs_ s' = ∅
    /\ forall k, k ∈ pool_service.list_ s ->
       random_file.fd_ (pool_service.mem s' k) < 0
       /\ forall i, i ∈ random_file.outstanding_ops_ (pool_service.mem s k) ->
          exists o, random_file.heap (pool_service.mem s' k) !! i = Some o
                    /\ random_file.cancelled o = true) s.
Proof.
  intros W. eapply wp_mono; [by apply pool_service.shutdown_puts_down_all|].
  intros _ s' (H1 & H2 & H3). split; [done|]. split; [done|]. intros k Hk. rewrite H3, decide_True by done.
  pose proof (pool_service.wf_good s W k) as G. cbn in G.
  destruct (RandomFileSteps.run_cancel (pool_service.mem s k) [] G) as (m' & Hr & Hm).
  unfold pool_service.put_down. cbn [impl_cancel impl_close random_file_impl].
  rewrite (RandomFileSteps.run_bind _ _ _ _ _ Hr), RandomFileSteps.close_log. cbn. split.
  - destruct (0 <=? random_file.fd_ _) eqn:E; [lia|]. by apply Z.leb_gt.
  - intros i Hi. rewrite Hm, decide_True by done. destruct (G i Hi) as [o ->].
    by exists (random_file.set_cancelled true o).
Qed.

(** A service that owns one file with an operation in flight. *)
Definition one_random_file : pool_service.service random_file.file random_file.event :=
  pool_service.mk_service [3%nat] {[3%nat]}
    (fun _ => random_file.mk_file 5 [7%nat]
       {[7%nat := random_file.mk_raf_op 1 (Some 1%nat) (Some 1%nat) [] 0 0 0 true false false true]}) [].

Lemma random_files_shut_down_witness :
  pool_service.list_ one_random_file = [3%nat]
  /\ wp pool_service.shutdown (fun _ s' => pool_service.list_ s' = [] /\ pool_service.ptrs_ s' = ∅
    /\ forall k, k ∈ [3%nat] ->
       random_file.fd_ (pool_service.mem s' k) < 0
       /\ forall i, i ∈ [7%nat] ->
          exists o, random_file.heap (pool_service.mem s' k) !! i = Some o
                    /\ random_file.cancelled o = true) one_random_file.
Proof.
  split; [reflexivity|]. apply (random_files_shut_down one_random_file). split; cbn.
  - by apply list.NoDup_singleton.
  - intros k. set_solver.
  - intros _ k ->%list_elem_of_singleton. by eexists.
Defined.
