(* ===== verification/Select.v ===== *)
(** The select backend around the scheduler:
    [include/boost/corosio/native/detail/select/select_scheduler.hpp] — the
    time-out of the poll, the table of descriptors, the snapshot that a poll
    watches, the self-pipe that interrupts it and the delivery of events.

    Time points are nanoseconds and time-outs microseconds, [long] has 64 bits.
    [run_task] is a step relation, one step per access to what threads share,
    between the thread that runs it and every thread that changes the timers,
    registers or closes descriptors, parks operations or interrupts the reactor.
    The lock that [run_task] is entered with is held until the snapshot is
    complete. *)

From stdpp Require Import gmap relations.
From S2P Require Import Prelude ReactorOp EventQueue.
Import event_queue.

Module select_scheduler.

Definition FD_SETSIZE : Z := 1024.

(** [time_point::max()] *)
Definition time_point_max : Z := int64_max.

(** * The poll time-out *)

Definition calculate_timeout (requested_timeout_us nearest now : Z) : Z :=
  if requested_timeout_us =? 0 then 0
  else if nearest =? time_point_max then requested_timeout_us
  else if nearest <=? now then 0
  else
    let timer_timeout_us := Z.quot (nearest - now) 1000 in
    let capped_timer_us := Z.min (Z.max timer_timeout_us 0) int64_max in
    if requested_timeout_us <? 0 then capped_timer_us
    else Z.min requested_timeout_us capped_timer_us.

(** [tv] of [run_task], or the null pointer. *)
Record timeval := mk_timeval { tv_sec : Z; tv_usec : Z }.
Definition timeval_of (effective_timeout_us : Z) : option timeval :=
  if 0 <=? effective_timeout_us
  then Some (mk_timeval (Z.quot effective_timeout_us 1000000) (Z.rem effective_timeout_us 1000000))
  else None.

(** When a poll that starts at [now] ends by itself, if it blocks at all. *)
Definition deadline (now timeout_us : Z) : option Z :=
  match timeval_of timeout_us with
  | None => Some time_point_max
  | Some tv =>
      let us := tv_sec tv * 1000000 + tv_usec tv in
      if us =? 0 then None else Some (Z.min (now + 1000 * us) time_point_max)
  end.

(** * The descriptors *)

(** [fd_entry] *)
Record fd_entry := mk_entry { fd : Z; desc : nat; needs_write : bool }.

(** Where the thread that runs the reactor is. *)
Inductive phase :=
| outside                                             (* not in [run_task] *)
| timing (requested : Z)                              (* in [calculate_timeout] *)
| timed (requested nearest : Z)                       (* has read [nearest_expiry()] *)
| scanning (limit : option Z) (todo : list (Z * nat)) (snapshot : list fd_entry)
| selecting (limit : option Z) (snapshot : list fd_entry)    (* in [select] *)
| expiring (evs : list (fd_entry * Z)) (pipe : bool)  (* in [process_expired] *)
| draining (evs : list (fd_entry * Z))                (* reads the pipe *)
| handling (evs : list (fd_entry * Z))
| adding (d : nat) (evs : list (fd_entry * Z)).       (* between [add_ready_events] and the exchange *)

(** [pending] are the bytes in the pipe; [interrupting] the threads that are on
    their way to write one; [write_ops] and [connect_ops] the descriptor states with
    a pending [write_op] and [connect_op], [unnotified] those of the latter whose
    connect was parked without a call of [notify_reactor]; [alive] those that
    exist. *)
Record reactor := mk_reactor {
  pending : Z;
  nearest : Z;
  interrupting : nat;
  registered_descs_ : gmap Z nat;
  max_fd_ : Z;
  write_ops : gset nat;
  connect_ops : gset nat;
  unnotified : gset nat;
  alive : gset nat;
  queue : event_queue;
  at_phase : phase
}.

Definition set_pending (n : Z) (r : reactor) : reactor :=
  mk_reactor n (nearest r) (interrupting r) (registered_descs_ r) (max_fd_ r) (write_ops r)
    (connect_ops r) (unnotified r) (alive r) (queue r) (at_phase r).
Definition set_nearest (t : Z) (r : reactor) : reactor :=
  mk_reactor (pending r) t (interrupting r) (registered_descs_ r) (max_fd_ r) (write_ops r)
    (connect_ops r) (unnotified r) (alive r) (queue r) (at_phase r).
Definition set_interrupting (n : nat) (r : reactor) : reactor :=
  mk_reactor (pending r) (nearest r) n (registered_descs_ r) (max_fd_ r) (write_ops r)
    (connect_ops r) (unnotified r) (alive r) (queue r) (at_phase r).
Definition set_registered (m : gmap Z nat) (x : Z) (r : reactor) : reactor :=
  mk_reactor (pending r) (nearest r) (interrupting r) m x (write_ops r) (connect_ops r)
    (unnotified r) (alive r) (queue r) (at_phase r).
Definition set_ops (w c u : gset nat) (r : reactor) : reactor :=
  mk_reactor (pending r) (nearest r) (interrupting r) (registered_descs_ r) (max_fd_ r) w c u
    (alive r) (queue r) (at_phase r).
Definition set_alive (s : gset nat) (r : reactor) : reactor :=
  mk_reactor (pending r) (nearest r) (interrupting r) (registered_descs_ r) (max_fd_ r)
    (write_ops r) (connect_ops r) (unnotified r) s (queue r) (at_phase r).
Definition set_queue (q : event_queue) (r : reactor) : reactor :=
  mk_reactor (pending r) (nearest r) (interrupting r) (registered_descs_ r) (max_fd_ r)
    (write_ops r) (connect_ops r) (unnotified r) (alive r) q (at_phase r).
Definition set_phase (p : phase) (r : reactor) : reactor :=
  mk_reactor (pending r) (nearest r) (interrupting r) (registered_descs_ r) (max_fd_ r)
    (write_ops r) (connect_ops r) (unnotified r) (alive r) (queue r) p.

(** [write_op || connect_op] *)
Definition wants_write (r : reactor) : gset nat := write_ops r ∪ connect_ops r.

(** A thread on its way to [interrupt_reactor]. *)
Definition will_interrupt (r : reactor) : reactor := set_interrupting (S (interrupting r)) r.

(** [interrupt_reactor]; a full pipe takes no more. *)
Definition interrupt_reactor (written : bool) (r : reactor) : reactor :=
  set_interrupting (pred (interrupting r)) (set_pending (pending r + b2z written) r).

Section scheduler.
(** [pipe_fds_[0]] *)
Context (pipe_rd : Z).

(** [register_descriptor] up to the interrupt; [None] is the [EINVAL] it throws.
    The other fields of the descriptor state are those of [DescriptorState]. *)
Definition register_descriptor (f : Z) (d : nat) (r : reactor) : option reactor :=
  if (f <? 0) || (FD_SETSIZE <=? f) then None
  else Some (will_interrupt
               (set_registered (<[f := d]> (registered_descs_ r))
                  (if max_fd_ r <? f then f else max_fd_ r)
                  (set_queue (forget_events d (queue r)) r))).

(** The loop of [deregister_descriptor]: the greatest registered descriptor. *)
Definition greatest (m : gmap Z nat) : Z :=
  foldr (fun p x => if x <? fst p then fst p else x) pipe_rd (map_to_list m).

Definition deregister_descriptor (f : Z) (r : reactor) : reactor :=
  match registered_descs_ r !! f with
  | None => r
  | Some _ =>
      let m := delete f (registered_descs_ r) in
      set_registered m (if f =? max_fd_ r then greatest m else max_fd_ r) r
  end.

(** One turn of the loop that takes the snapshot. *)
Definition snap (f : Z) (d : nat) (wants : gset nat) (l : list fd_entry) : list fd_entry :=
  if Z.of_nat (length l) <? FD_SETSIZE then l ++ [mk_entry f d (bool_decide (d ∈ wants))] else l.

(** [nfds] *)
Definition nfds (l : list fd_entry) : Z :=
  foldl (fun n e => if n <? fd e then fd e else n) pipe_rd l.

(** The descriptor's bits in [read_fds], [write_fds] and [except_fds]. *)
Record fd_bits := mk_bits { in_read : bool; in_write : bool; in_except : bool }.

(** [flags] *)
Definition flags_of (b : fd_bits) : Z :=
  let flags := 0 in
  let flags := if in_read b then Z.lor flags reactor_op.reactor_event_read else flags in
  let flags := if in_write b then Z.lor flags reactor_op.reactor_event_write else flags in
  if in_except b then Z.lor flags reactor_op.reactor_event_error else flags.

(** [select] only reports what it was asked for. *)
Definition answer_ok (e : fd_entry) (b : fd_bits) : Prop := in_write b = true -> needs_write e = true.

(** The mutex of the scheduler is held by the thread in [run_task]. *)
Definition locked (p : phase) : bool :=
  match p with
  | timing _ | timed _ _ | scanning _ _ _ => true
  | _ => false
  end.

Inductive task_step (r : reactor) : reactor -> Prop :=
| t_start q : at_phase r = outside -> task_step r (set_phase (timing q) r)
| t_interrupted now todo :  (* [task_interrupted_] *)
    at_phase r = outside -> todo ≡ₚ map_to_list (registered_descs_ r) ->
    task_step r (set_phase (scanning (deadline now 0) todo []) r)
| t_nearest q : at_phase r = timing q -> task_step r (set_phase (timed q (nearest r)) r)
| t_clock q n now todo :
    at_phase r = timed q n -> 0 <= now -> todo ≡ₚ map_to_list (registered_descs_ r) ->
    task_step r (set_phase (scanning (deadline now (calculate_timeout q n now)) todo []) r)
| t_scan limit f d todo l :
    at_phase r = scanning limit ((f, d) :: todo) l ->
    task_step r (set_phase (scanning limit todo (snap f d (wants_write r) l)) r)
| t_unlock limit l : at_phase r = scanning limit [] l -> task_step r (set_phase (selecting limit l) r)
| t_retry limit l : at_phase r = selecting limit l -> task_step r (set_phase outside r)
| t_select limit l bits pipe :
    at_phase r = selecting limit l -> Forall2 answer_ok l bits -> (pipe = true -> 0 < pending r) ->
    task_step r (set_phase (expiring (zip l (map flags_of bits)) pipe) r)
| t_expired evs pipe t :
    at_phase r = expiring evs pipe -> nearest r <= t -> t <= time_point_max ->
    task_step r (set_nearest t (set_phase (if pipe then draining evs else handling evs) r))
| t_read evs n :
    at_phase r = draining evs -> 0 < n <= 256 -> n <= pending r ->
    task_step r (set_pending (pending r - n) r)
| t_drained evs : at_phase r = draining evs -> pending r = 0 -> task_step r (set_phase (handling evs) r)
| t_skip e flags evs :
    at_phase r = handling ((e, flags) :: evs) -> flags = 0 -> task_step r (set_phase (handling evs) r)
| t_event e flags evs :
    at_phase r = handling ((e, flags) :: evs) -> flags <> 0 ->
    task_step r (set_phase (adding (desc e) evs) 
                   (set_queue (add_ready_events (desc e) flags (queue r)) r))
| t_enqueue d evs :
    at_phase r = adding d evs -> task_step r (set_phase (handling evs) (set_queue (enqueue d (queue r)) r))
| t_done : at_phase r = handling [] -> task_step r (set_phase outside (set_queue (splice (queue r)) r)).

Inductive other_step (r : reactor) : reactor -> Prop :=
| o_earlier t : t < nearest r -> other_step r (will_interrupt (set_nearest t r))
| o_later t : nearest r <= t -> t <= time_point_max -> other_step r (set_nearest t r)
| o_interrupt : other_step r (will_interrupt r)
| o_write b :
    (0 < interrupting r)%nat -> (b = false -> 0 < pending r) -> other_step r (interrupt_reactor b r)
| o_register f d r' :
    locked (at_phase r) = false -> d ∈ alive r -> register_descriptor f d r = Some r' ->
    other_step r r'
| o_deregister f : locked (at_phase r) = false -> other_step r (deregister_descriptor f r)
| o_park_write d :  (* [register_op] parks a write and calls [notify_reactor] *)
    other_step r (will_interrupt (set_ops ({[d]} ∪ write_ops r) (connect_ops r) (unnotified r) r))
| o_park_connect d :  (* the connect of a stream socket, likewise *)
    other_step r (will_interrupt
                    (set_ops (write_ops r) ({[d]} ∪ connect_ops r) (unnotified r ∖ {[d]}) r))
| o_park_datagram_connect d :  (* [is_write_direction] is false: no notification *)
    other_step r (set_ops (write_ops r) ({[d]} ∪ connect_ops r) ({[d]} ∪ unnotified r) r)
| o_unpark_write d :
    other_step r (set_ops (write_ops r ∖ {[d]}) (connect_ops r) (unnotified r) r)
| o_unpark_connect d :
    other_step r (set_ops (write_ops r) (connect_ops r ∖ {[d]}) (unnotified r ∖ {[d]}) r)
| o_create d : other_step r (set_alive ({[d]} ∪ alive r) r)
| o_destroy d :  (* a closed object that no handle, queue or thread of [invoke_deferred_io] owns *)
    (forall f, registered_descs_ r !! f <> Some d) -> d ∉ is_enqueued_ (queue r) ->
    d ∉ taking (queue r) ->
    other_step r (set_alive (alive r ∖ {[d]}) r)
| o_worker q : worker_step (locked (at_phase r)) (queue r) q -> other_step r (set_queue q r).

Definition step (r r' : reactor) : Prop := task_step r r' \/ other_step r r'.

Definition initial : reactor :=
  mk_reactor 0 time_point_max 0 ∅ (-1) ∅ ∅ ∅ ∅ empty_queue outside.

Definition reachable : reactor -> Prop := rtc step initial.

End scheduler.
End select_scheduler.
Import select_scheduler.

(** * Time-outs *)

Lemma timeval_sum us tv :
  timeval_of us = Some tv ->
  0 <= tv_sec tv /\ 0 <= tv_usec tv < 1000000 /\ tv_sec tv * 1000000 + tv_usec tv = us.
Proof.
  unfold timeval_of. destruct (Z.leb_spec 0 us) as [H|H]; [|done]. intros [= <-]. cbn.
  rewrite Z.quot_div_nonneg, Z.rem_mod_nonneg by lia.
  pose proof (Z.div_mod us 1000000 ltac:(lia)). pose proof (Z.mod_pos_bound us 1000000 ltac:(lia)).
  pose proof (Z.div_pos us 1000000 H ltac:(lia)). lia.
Qed.

Lemma deadline_eq now us :
  deadline now us = if us <? 0 then Some time_point_max
                    else if us =? 0 then None else Some (Z.min (now + 1000 * us) time_point_max).
Proof.
  unfold deadline. destruct (timeval_of us) as [tv|] eqn:E.
  - destruct (timeval_sum us tv E) as (H1 & H2 & H3). rewrite H3.
    destruct (Z.ltb_spec us 0); [lia|done].
  - unfold timeval_of in E. destruct (Z.leb_spec 0 us); [done|]. by destruct (Z.ltb_spec us 0); [|lia].
Qed.

(** The time-out never sleeps past the nearest timer, sleeps to within a
    microsecond of it when nothing shorter was asked for, and without a limit
    only if none was asked for and no timer is pending; the [timeval] is valid. *)
Lemma timeout_bounds requested nearest now :
  0 <= now -> nearest <= time_point_max ->
  let us := calculate_timeout requested nearest now in
  (us < 0 <-> requested < 0 /\ nearest = time_point_max)
  /\ (nearest <> time_point_max -> 1000 * us <= Z.max 0 (nearest - now))
  /\ (0 <= requested -> us <= requested)
  /\ (requested < 0 -> nearest <> time_point_max -> nearest - now < 1000 * (us + 1))
  /\ (0 <= us -> exists tv, timeval_of us = Some tv /\ 0 <= tv_sec tv
        /\ 0 <= tv_usec tv < 1000000 /\ tv_sec tv * 1000000 + tv_usec tv = us).
Proof.
  intros Hn Hm us.
  assert (Ht : 0 <= us -> exists tv, timeval_of us = Some tv /\ 0 <= tv_sec tv
        /\ 0 <= tv_usec tv < 1000000 /\ tv_sec tv * 1000000 + tv_usec tv = us).
  { intros H. destruct (timeval_of us) as [tv|] eqn:E.
    - exists tv. split; [done|]. by apply timeval_sum.
    - unfold timeval_of in E. destruct (Z.leb_spec 0 us); [done|lia]. }
  split; [|split; [|split; [|split; [|exact Ht]]]]; clear Ht; subst us; unfold calculate_timeout;
    unfold time_point_max in *;
    destruct (Z.eqb_spec requested 0); try lia; destruct (Z.eqb_spec nearest int64_max); try lia;
    destruct (Z.leb_spec nearest now); try lia; rewrite Z.quot_div_nonneg by lia;
    pose proof (Z.div_mod (nearest - now) 1000 ltac:(lia));
    pose proof (Z.mod_pos_bound (nearest - now) 1000 ltac:(lia));
    destruct (Z.ltb_spec requested 0); unfold int64_max in *; lia.
Qed.

(** * The poll watches what it must *)

(** An interrupt is in the pipe or on its way. *)
Definition signalled (r : reactor) : Prop := 0 < pending r \/ (0 < interrupting r)%nat.

(** The descriptor states with a write or connect that the reactor was told of. *)
Definition notified_writes (r : reactor) : gset nat := write_ops r ∪ (connect_ops r ∖ unnotified r).

(** The snapshot watches the descriptor [f], for writing if the reactor was told
    to. *)
Definition watched (r : reactor) (l : list fd_entry) (f : Z) (d : nat) : Prop :=
  exists e, e ∈ l /\ fd e = f /\ desc e = d /\ (d ∈ notified_writes r -> needs_write e = true).

Definition in_time (limit : option Z) (r : reactor) : Prop :=
  match limit with
  | None => True
  | Some t => t <= nearest r
  end.

(** What the thread in [run_task] has read is still so, or it is told. *)
Definition covered (r : reactor) : Prop :=
  match at_phase r with
  | timed _ n => signalled r \/ n <= nearest r
  | scanning limit todo l =>
      signalled r \/ (in_time limit r
        /\ forall f d, registered_descs_ r !! f = Some d -> (f, d) ∈ todo \/ watched r l f d)
  | selecting limit l =>
      signalled r \/ (in_time limit r
        /\ forall f d, registered_descs_ r !! f = Some d -> watched r l f d)
  | _ => True
  end.

(** A descriptor that an [fd_set] has a bit for. *)
Definition in_range (f : Z) : Prop := 0 <= f < FD_SETSIZE.

(** The snapshot stays within its array, and the sets of [select] within theirs. *)
Definition fits (r : reactor) : Prop :=
  match at_phase r with
  | scanning _ todo l =>
      (length todo + length l = size (registered_descs_ r))%nat
      /\ Forall (fun p => in_range p.1) todo /\ Forall (fun e => in_range (fd e)) l
  | selecting _ l => Z.of_nat (length l) <= FD_SETSIZE /\ Forall (fun e => in_range (fd e)) l
  | _ => True
  end.

Record table_inv (r : reactor) : Prop := {
  i_pending : 0 <= pending r;
  i_nearest : nearest r <= time_point_max;
  i_range : forall f d, registered_descs_ r !! f = Some d -> 0 <= f < FD_SETSIZE /\ f <= max_fd_ r;
  i_fits : fits r;
  i_covered : covered r
}.

(** The descriptor state between [add_ready_events] and the exchange. *)
Definition adding_of (p : phase) : option nat :=
  match p with
  | adding d _ => Some d
  | _ => None
  end.

Definition select_inv (r : reactor) : Prop :=
  table_inv r /\ queue_inv (adding_of (at_phase r)) (queue r).

Lemma select_inv_initial : select_inv initial.
Proof. split; [by split|auto with event_queue]. Qed.

(** The table holds no more descriptors than a snapshot. *)
Lemma table_size r :
  (forall f d, registered_descs_ r !! f = Some d -> 0 <= f < FD_SETSIZE) ->
  (size (registered_descs_ r) <= Z.to_nat FD_SETSIZE)%nat.
Proof.
  intros H. rewrite <- size_dom.
  transitivity (size (list_to_set (seqZ 0 FD_SETSIZE) : gset Z)).
  - apply subseteq_size. intros f Hf. apply elem_of_dom in Hf as [d Hd]. apply elem_of_list_to_set.
    apply elem_of_seqZ. specialize (H f d Hd). lia.
  - rewrite size_list_to_set; [by rewrite length_seqZ|exact (NoDup_seqZ 0 FD_SETSIZE)].
Qed.

Lemma snap_complete f d w l :
  (length l < Z.to_nat FD_SETSIZE)%nat -> snap f d w l = l ++ [mk_entry f d (bool_decide (d ∈ w))].
Proof. intros H. unfold snap. destruct (Z.ltb_spec (Z.of_nat (length l)) FD_SETSIZE); [done|lia]. Qed.

Lemma greatest_ge pipe_rd m f d : m !! f = Some d -> f <= greatest pipe_rd m.
Proof.
  intros H%elem_of_map_to_list. unfold greatest.
  induction (map_to_list m) as [|p ps IH]; [by apply list.elem_of_nil in H|]. cbn.
  apply list.elem_of_cons in H as [<- | H]; cbn.
  - destruct (Z.ltb_spec (foldr (fun p x => if x <? p.1 then p.1 else x) pipe_rd ps) f); lia.
  - specialize (IH H).
    destruct (Z.ltb_spec (foldr (fun p x => if x <? p.1 then p.1 else x) pipe_rd ps) p.1); lia.
Qed.

Lemma deadline_in_time q n now r :
  0 <= now -> n <= nearest r -> nearest r <= time_point_max ->
  in_time (deadline now (calculate_timeout q n now)) r.
Proof.
  intros H0 H1 H2. rewrite deadline_eq. set (us := calculate_timeout q n now).
  destruct (timeout_bounds q n now H0 ltac:(lia)) as (HA & HB & HC & HD & _). fold us in HA, HB, HC, HD.
  destruct (Z.ltb_spec us 0) as [Hu|Hu]; [cbn; lia|]. destruct (Z.eqb_spec us 0); [done|]. cbn.
  destruct (Z.eq_dec n time_point_max) as [->|Hn]; [lia|]. specialize (HB Hn). lia.
Qed.

(** * The invariant *)

Lemma covered_frame r r' :
  at_phase r' = at_phase r -> (signalled r -> signalled r') ->
  (signalled r' \/ (nearest r <= nearest r' /\ registered_descs_ r' ⊆ registered_descs_ r
                    /\ notified_writes r' ⊆ notified_writes r)) ->
  covered r -> covered r'.
Proof.
  unfold covered. intros -> Hs Hk. destruct Hk as [Hk|(Hn & Hr & Hw)].
  { intros _. destruct (at_phase r); auto. }
  assert (Hwatch : forall l f d, watched r l f d -> watched r' l f d).
  { intros l f d (e & H1 & H2 & H3 & H4). exists e. repeat split; auto. }
  assert (Hin : forall o, in_time o r -> in_time o r') by (intros [t|]; cbn; lia).
  destruct (at_phase r); try done; (intros [H|H]; [by auto|]); [right; lia| |].
  - right. destruct H as [H1 H2]. split; [by auto|]. intros f d Hd.
    destruct (H2 f d (lookup_weaken _ _ _ _ Hd Hr)); auto.
  - right. destruct H as [H1 H2]. split; [auto|]. intros f d Hd.
    apply Hwatch, H2. by apply (lookup_weaken _ _ _ _ Hd Hr).
Qed.

Lemma fits_frame r r' :
  at_phase r' = at_phase r ->
  (locked (at_phase r) = true -> registered_descs_ r' = registered_descs_ r) -> fits r -> fits r'.
Proof. unfold fits. intros -> H. destruct (at_phase r); try done. by rewrite H. Qed.

Lemma fits_size r limit todo l :
  table_inv r -> at_phase r = scanning limit todo l ->
  (length todo + length l <= Z.to_nat FD_SETSIZE)%nat.
Proof.
  intros I E. pose proof (i_fits r I) as Hf. unfold fits in Hf. rewrite E in Hf. destruct Hf as [-> _].
  apply table_size. intros ? ? ?. by eapply (i_range r I).
Qed.

(** Another thread changes nothing that the poll depends on, or tells it. *)
Lemma table_other pipe_rd r r' : other_step pipe_rd r r' -> table_inv r -> table_inv r'.
Proof.
  intros S [Ip In Ir If Ic]. destruct S; cbn;
  try (split; cbn; [lia|lia|done|by apply (fits_frame r)|
         apply (covered_frame r); unfold signalled in *; cbn; auto with lia; right; repeat split; set_solver]).
  - assert (0 < pending r + b2z b) by (destruct b; cbn [b2z]; [lia|specialize (H0 eq_refl); lia]).
    split; cbn; [lia|lia|done|by apply (fits_frame r)|].
    apply (covered_frame r); unfold signalled; cbn; auto with lia.
  - unfold register_descriptor in *. destruct (Z.ltb_spec f 0); [done|].
    destruct (Z.leb_spec FD_SETSIZE f); [done|]. simplify_eq/=. split; cbn; try done.
    + intros f' d' [[<- <-]|[Hf Hd]]%lookup_insert_Some.
      * destruct (Z.ltb_spec (max_fd_ r) f); lia.
      * destruct (Z.ltb_spec (max_fd_ r) f); specialize (Ir f' d' Hd); lia.
    + apply (fits_frame r); cbn; congruence.
    + apply (covered_frame r); unfold signalled; cbn; auto with lia.
  - unfold deregister_descriptor. destruct (registered_descs_ r !! f) as [d|] eqn:E; [|by split].
    split; cbn; try done.
    + intros f' d' Hd. split; [by apply lookup_delete_Some in Hd as [_ Hd]; eapply Ir|].
      destruct (Z.eqb_spec f (max_fd_ r)); [by eapply greatest_ge|].
      apply lookup_delete_Some in Hd as [_ Hd]. by eapply Ir.
    + apply (fits_frame r); cbn; congruence.
    + apply (covered_frame r); unfold signalled; cbn; try done. right. repeat split; [lia|apply delete_subseteq|done].
Qed.

(** A snapshot takes over what is left to scan. *)
Lemma covered_scan r limit f d todo l :
  covered (set_phase (scanning limit ((f, d) :: todo) l) r) -> (length l < Z.to_nat FD_SETSIZE)%nat ->
  covered (set_phase (scanning limit todo (snap f d (wants_write r) l)) r).
Proof.
  intros Hc Hl. rewrite snap_complete by done. revert Hc. unfold covered, watched; cbn.
  intros [H|[H1 H2]]; [by left|right]. split; [done|]. intros f' d' Hd.
  destruct (H2 f' d' Hd) as [[[= -> ->]|H]%list.elem_of_cons|(e & He & Hr)]; [right|by left|right].
  - eexists. split; [apply elem_of_app; right; by apply list_elem_of_singleton|].
    cbn. repeat split. unfold notified_writes, wants_write in *. intros Hw.
    apply bool_decide_eq_true. set_solver.
  - exists e. split; [apply elem_of_app; by left|done].
Qed.

Lemma table_at r p :
  table_inv r -> fits (set_phase p r) -> covered (set_phase p r) -> table_inv (set_phase p r).
Proof. by intros [] ? ?. Qed.

(** What [enqueue] and [splice] change is not in the table. *)
Lemma table_idle r r' p :
  table_inv r -> pending r' = pending r -> nearest r' = nearest r ->
  registered_descs_ r' = registered_descs_ r -> max_fd_ r' = max_fd_ r ->
  fits (set_phase p r') -> covered (set_phase p r') -> table_inv (set_phase p r').
Proof. intros [] E1 E2 E3 E4 ? ?. split; cbn; try done; by rewrite ?E1, ?E2, ?E3, ?E4. Qed.

Lemma table_scan_start r limit todo :
  table_inv r -> todo ≡ₚ map_to_list (registered_descs_ r) -> (signalled r \/ in_time limit r) ->
  table_inv (set_phase (scanning limit todo []) r).
Proof.
  intros I P H. apply table_at; [done| |].
  - unfold fits; cbn. rewrite P, length_map_to_list. split; [lia|]. split; [|done].
    apply list.Forall_forall. intros [f d] Hd%elem_of_map_to_list. by eapply (i_range r I).
  - destruct H as [H|H]; [by left|right]. split; [done|]. intros f d Hd. left.
    rewrite P. by apply elem_of_map_to_list.
Qed.

Lemma table_scan r limit f d todo l :
  table_inv r -> at_phase r = scanning limit ((f, d) :: todo) l ->
  table_inv (set_phase (scanning limit todo (snap f d (wants_write r) l)) r).
Proof.
  intros I E. pose proof (i_fits r I) as Hf. unfold fits in Hf. rewrite E in Hf.
  destruct Hf as (Hs & [Hx Hy]%list.Forall_cons & Hz). pose proof (fits_size r _ _ _ I E) as Hl. cbn in Hl, Hs.
  apply table_at; [done| |].
  - unfold fits; cbn. rewrite snap_complete, length_app, list.Forall_app, list.Forall_singleton by lia.
    cbn. split; [lia|done].
  - apply covered_scan; [|lia]. pose proof (i_covered r I) as Hc. unfold covered in Hc. by rewrite E in Hc.
Qed.

Lemma table_task r r' : task_step r r' -> table_inv r -> table_inv r'.
Proof.
  intros S I. pose proof (i_covered r I) as Ic. unfold covered in Ic.
  destruct S; rewrite H in Ic; try (by apply table_at).
  - apply table_scan_start; auto.
  - apply table_at; [done..|]. by right.
  - apply table_scan_start; [done..|]. destruct Ic as [Ic|Ic]; [by left|right].
    apply deadline_in_time; [done..|apply I].
  - by apply table_scan.
  - pose proof (fits_size r _ _ _ I H) as Hl. pose proof (i_fits r I) as Hf. unfold fits in Hf. rewrite H in Hf.
    apply table_at; [done| |]; [split; [cbn in Hl; unfold FD_SETSIZE in *; lia|apply Hf]|].
    destruct Ic as [Ic|[Ic1 Ic2]]; [by left|right].
    split; [done|]. intros f d Hd. destruct (Ic2 f d Hd) as [?%not_elem_of_nil|?]; done.
  - destruct I. split; cbn; try done; by destruct pipe.
  - destruct I. split; cbn; try done; [lia|]. unfold covered; cbn. by rewrite H.
  - by apply (table_idle r).
  - by apply (table_idle r).
  - by apply (table_idle r).
Qed.

Lemma queue_task r r' :
  task_step r r' -> queue_inv (adding_of (at_phase r)) (queue r) ->
  queue_inv (adding_of (at_phase r')) (queue r').
Proof.
  intros S I. destruct S; rewrite H in I; cbn in *; try done; eauto with event_queue.
  - by destruct pipe.
  - by rewrite H.
Qed.

Lemma queue_other pipe_rd r r' :
  other_step pipe_rd r r' -> queue_inv (adding_of (at_phase r)) (queue r) ->
  queue_inv (adding_of (at_phase r')) (queue r').
Proof.
  intros S I. destruct S; cbn in *; try done; eauto with event_queue.
  - unfold register_descriptor in *. destruct ((f <? 0) || (FD_SETSIZE <=? f)); [done|].
    simplify_eq/=. auto with event_queue.
  - unfold deregister_descriptor. by destruct (registered_descs_ r !! f).
Qed.

Lemma select_inv_reachable pipe_rd r : reachable pipe_rd r -> select_inv r.
Proof.
  intros R. unfold reachable in R. revert r R. apply rtc_ind_r; [apply select_inv_initial|].
  intros r r' _ [S|S] [It Iq]; split; eauto using table_task, table_other, queue_task, queue_other.
Qed.

Lemma nfds_step pipe_rd l e : nfds pipe_rd (l ++ [e]) = Z.max (nfds pipe_rd l) (fd e).
Proof.
  unfold nfds. rewrite foldl_app. cbn.
  destruct (Z.ltb_spec (foldl (fun n e => if n <? fd e then fd e else n) pipe_rd l) (fd e)); lia.
Qed.

Lemma nfds_spec pipe_rd l :
  pipe_rd <= nfds pipe_rd l /\ (forall e, e ∈ l -> fd e <= nfds pipe_rd l)
  /\ (nfds pipe_rd l = pipe_rd \/ exists e, e ∈ l /\ fd e = nfds pipe_rd l).
Proof.
  induction l as [|e l (H1 & H2 & H3)] using rev_ind.
  - split; [done|]. split; [by intros ? ?%not_elem_of_nil|by left].
  - rewrite nfds_step. split; [lia|]. split.
    + intros e' [He| ->%list_elem_of_singleton]%elem_of_app; [specialize (H2 e' He)|]; lia.
    + destruct (Z.max_spec (nfds pipe_rd l) (fd e)) as [[_ ->]|[_ ->]].
      * right. exists e. split; [set_solver|done].
      * destruct H3 as [H3|(e' & He & H3)]; [by left|right]. exists e'. split; [set_solver|done].
Qed.

(** * Claims *)

(** C25: a thread never sleeps in [select] on what it read before: while it does,
    an interrupt is in the pipe or about to be written, or the call ends by the
    expiry of the nearest timer and it watches every registered descriptor, for
    writing wherever a write, or a connect that was parked with a notification, is
    pending.  The connect of a datagram socket is parked without one
    ([register_op] is called with [is_write_direction] false), and is not covered. *)
Theorem select_poll_wakes pipe_rd r limit l :
  reachable pipe_rd r -> at_phase r = selecting limit l ->
  signalled r \/ (in_time limit r
    /\ forall f d, registered_descs_ r !! f = Some d -> watched r l f d).
Proof.
  intros R E. destruct (select_inv_reachable pipe_rd r R) as [It _].
  pose proof (i_covered r It) as Hc. unfold covered in Hc. by rewrite E in Hc.
Qed.

(** The array of the snapshot and the sets of [select] are never written out
    of range, the snapshot is never cut short, and the first argument of [select]
    covers the pipe and every descriptor watched. *)
Theorem select_sets_in_bounds pipe_rd r limit l :
  reachable pipe_rd r -> at_phase r = selecting limit l -> in_range pipe_rd ->
  Z.of_nat (length l) <= FD_SETSIZE
  /\ (forall e, e ∈ l -> in_range (fd e) /\ fd e < nfds pipe_rd l + 1)
  /\ pipe_rd < nfds pipe_rd l + 1 <= FD_SETSIZE.
Proof.
  intros R E Hp. destruct (select_inv_reachable pipe_rd r R) as [It _].
  pose proof (i_fits r It) as Hf. unfold fits in Hf. rewrite E in Hf. destruct Hf as [Hl Hf].
  rewrite list.Forall_forall in Hf. destruct (nfds_spec pipe_rd l) as (H1 & H2 & H3). unfold in_range in *.
  split; [done|]. split; [intros e He; specialize (H2 e He); split; [by apply Hf|lia]|].
  destruct H3 as [H3|(e & He & H3)]; [lia|]. specialize (Hf e He). lia.
Qed.

(** C26: an event that the reactor has added to a descriptor state is not
    forgotten, short of a new registration of the state, and none is queued twice: a
    state with events has [is_enqueued_] set, or the reactor is about to enqueue it,
    or a thread is about to take its events; [is_enqueued_] is set exactly while the
    state is in [local_ops], in [completed_ops_], or popped by a thread that has not
    cleared the flag yet; and it is in only one of these places, once. *)
Theorem select_no_event_lost pipe_rd r :
  reachable pipe_rd r ->
  let q := queue r in
  (forall d, ready_of q d <> 0 ->
     d ∈ is_enqueued_ q \/ adding_of (at_phase r) = Some d \/ d ∈ taking q)
  /\ (forall d, d ∈ is_enqueued_ q <->
        d ∈ local_ops q \/ d ∈ completed_ops_ q \/ d ∈ running q)
  /\ NoDup (local_ops q ++ completed_ops_ q ++ running q).
Proof.
  intros R. destruct (select_inv_reachable pipe_rd r R) as [_ Iq].
  split; [|split]; [|intros d; rewrite (i_enqueued _ _ Iq); unfold queued; by rewrite !elem_of_app|apply Iq].
  intros d Hd. destruct (i_ready _ _ Iq d Hd) as [?|[?|?]]; auto.
Qed.

(** * Runs *)

Lemma reach_task pipe_rd r r' : reachable pipe_rd r -> task_step r r' -> reachable pipe_rd r'.
Proof. intros R S. eapply rtc_r; [exact R|by left]. Qed.

Lemma reach_other pipe_rd r r' : reachable pipe_rd r -> other_step pipe_rd r r' -> reachable pipe_rd r'.
Proof. intros R S. eapply rtc_r; [exact R|by right]. Qed.

(** A socket is registered, its byte written to the pipe, and a poll that may
    block for ten milliseconds entered; the pipe is descriptor 3. *)
Definition polling_run : reactor :=
  mk_reactor 1 time_point_max 0 {[5 := 7%nat]} 5 ∅ ∅ ∅ {[7%nat]} (mk_queue {[7%nat := 0]} ∅ [] [] [] [])
    (selecting (Some 10001000) [mk_entry 5 7 false]).

Lemma polling_reachable : reachable 3 polling_run.
Proof.
  pose proof (rtc_refl (step 3) initial : reachable 3 initial) as R.
  eapply reach_other in R; [|apply (o_create _ _ 7)].
  eapply reach_other in R; [|apply (o_register _ _ 5 7); [done|set_solver|reflexivity]].
  eapply reach_other in R; [|apply (o_write _ _ true); [cbn; lia|done]].
  eapply reach_task in R; [|by apply (t_start _ 10000)].
  eapply reach_task in R; [|by eapply t_nearest].
  eapply reach_task in R; [|apply (t_clock _ 10000 time_point_max 1000 [(5, 7%nat)]); [done|lia|reflexivity]].
  eapply reach_task in R; [|by eapply (t_scan _ _ 5 7)].
  eapply reach_task in R; [|by eapply t_unlock].
  refine (eq_ind_r (reachable 3) R _). vm_compute. reflexivity.
Qed.

(** The poll returns for the pipe, which is drained, and the next one blocks. *)
Definition blocked_run : reactor :=
  mk_reactor 0 time_point_max 0 {[5 := 7%nat]} 5 ∅ ∅ ∅ {[7%nat]} (mk_queue {[7%nat := 0]} ∅ [] [] [] [])
    (selecting (Some time_point_max) [mk_entry 5 7 false]).

Lemma blocked_reachable : reachable 3 blocked_run.
Proof.
  pose proof polling_reachable as R.
  eapply reach_task in R; [|eapply (t_select _ _ _ [mk_bits false false false] true); [done|by repeat constructor|done]].
  eapply reach_task in R; [|by eapply (t_expired _ _ _ time_point_max)].
  eapply reach_task in R; [|by eapply (t_read _ _ 1)].
  eapply reach_task in R; [|by eapply t_drained].
  eapply reach_task in R; [|by eapply (t_skip _ (mk_entry 5 7 false) 0 [])].
  eapply reach_task in R; [|by eapply t_done].
  eapply reach_task in R; [|by apply (t_start _ (-1))].
  eapply reach_task in R; [|by eapply t_nearest].
  eapply reach_task in R; [|apply (t_clock _ (-1) time_point_max 2000 [(5, 7%nat)]); [done|lia|reflexivity]].
  eapply reach_task in R; [|by eapply (t_scan _ _ 5 7)].
  eapply reach_task in R; [|by eapply t_unlock].
  refine (eq_ind_r (reachable 3) R _). vm_compute. reflexivity.
Qed.

Lemma select_poll_wakes_witness :
  reachable 3 blocked_run /\ ~ signalled blocked_run /\ watched blocked_run [mk_entry 5 7 false] 5 7.
Proof.
  assert (N : ~ signalled blocked_run) by (unfold signalled; cbn; lia).
  split; [apply blocked_reachable|]. split; [exact N|].
  destruct (select_poll_wakes 3 blocked_run (Some time_point_max) [mk_entry 5 7 false]
              blocked_reachable eq_refl) as [H|[_ H]]; [by destruct N|].
  apply H. reflexivity.
Defined.

(** The socket is readable: its event is delivered and in [completed_ops_]. *)
Definition delivered_run : reactor :=
  mk_reactor 0 time_point_max 0 {[5 := 7%nat]} 5 ∅ ∅ ∅ {[7%nat]}
    (mk_queue {[7%nat := reactor_op.reactor_event_read]} {[7%nat]} [] [7%nat] [] []) outside.

Lemma delivered_reachable : reachable 3 delivered_run.
Proof.
  pose proof blocked_reachable as R.
  eapply reach_task in R; [|eapply (t_select _ _ _ [mk_bits true false false] false); [done|by repeat constructor|done]].
  eapply reach_task in R; [|by eapply (t_expired _ _ _ time_point_max)].
  eapply reach_task in R; [|by eapply (t_event _ (mk_entry 5 7 false) reactor_op.reactor_event_read [])].
  eapply reach_task in R; [|by eapply (t_enqueue _ 7 [])].
  eapply reach_task in R; [|by eapply t_done].
  refine (eq_ind_r (reachable 3) R _). vm_compute. reflexivity.
Qed.

(** A thread has popped it and not cleared [is_enqueued_] yet: the state is in no
    queue, and the flag is set. *)
Definition popped_run : reactor :=
  set_queue (mk_queue {[7%nat := reactor_op.reactor_event_read]} {[7%nat]} [] [] [7%nat] []) delivered_run.

Lemma popped_reachable : reachable 3 popped_run.
Proof.
  eapply reach_other; [apply delivered_reachable|].
  apply o_worker, (w_pop false (queue delivered_run) 7 []); reflexivity.
Qed.

Lemma select_no_event_lost_witness :
  ready_of (queue popped_run) 7 <> 0
  /\ (7%nat ∈ is_enqueued_ (queue popped_run) \/ adding_of (at_phase popped_run) = Some 7%nat
      \/ 7%nat ∈ taking (queue popped_run))
  /\ NoDup (local_ops (queue popped_run) ++ completed_ops_ (queue popped_run) ++ running (queue popped_run)).
Proof.
  assert (E : ready_of (queue popped_run) 7 <> 0) by (vm_compute; discriminate).
  destruct (select_no_event_lost 3 popped_run popped_reachable) as (A & _ & N).
  split; [exact E|]. split; [by apply A|exact N].
Defined.

Lemma select_sets_in_bounds_witness :
  reachable 3 blocked_run /\ nfds 3 [mk_entry 5 7 false] + 1 <= FD_SETSIZE.
Proof.
  split; [apply blocked_reachable|].
  apply (select_sets_in_bounds 3 blocked_run (Some time_point_max) [mk_entry 5 7 false]
           blocked_reachable eq_refl). unfold in_range, FD_SETSIZE. lia.
Defined.

(** The restriction of [select_poll_wakes] is needed: the connect of a datagram
    socket that is parked while a thread sleeps in [select] is neither watched nor
    announced. *)
Lemma select_misses_datagram_connect :
  exists r limit l, reachable 3 r /\ at_phase r = selecting limit l /\ ~ signalled r
    /\ registered_descs_ r !! 5 = Some 7%nat /\ 7%nat ∈ connect_ops r
    /\ forall e, e ∈ l -> desc e = 7%nat -> needs_write e = false.
Proof.
  eexists _, _, _. split; [eapply reach_other; [apply blocked_reachable|apply (o_park_datagram_connect _ _ 7)]|].
  split; [reflexivity|]. split; [unfold signalled; cbn; lia|]. split; [reflexivity|].
  split; [cbn; set_solver|]. by intros e ->%list_elem_of_singleton.
Qed.

(** The thread in [run_task] keeps the descriptor states of its snapshot without
    owning them: it can come to add an event to one that has been destroyed. *)
Lemma select_event_after_destroy :
  exists r e evs, reachable 3 r /\ at_phase r = handling ((e, reactor_op.reactor_event_read) :: evs)
    /\ desc e ∉ alive r.
Proof.
  pose proof blocked_reachable as R.
  eapply reach_task in R; [|eapply (t_select _ _ _ [mk_bits true false false] false); [done|by repeat constructor|done]].
  eapply reach_other in R; [|by apply (o_deregister _ _ 5)].
  eapply reach_other in R; [|apply (o_destroy _ _ 7); [by intros f; vm_compute; destruct f|set_solver|set_solver]].
  eapply reach_task in R; [|by eapply (t_expired _ _ _ time_point_max)].
  eexists _, _, _. split; [exact R|]. split; [reflexivity|]. cbn. set_solver.
Qed.
