(* ===== verification/Kqueue.v ===== *)
(** The kqueue backend around the scheduler:
    [include/boost/corosio/native/detail/kqueue/kqueue_scheduler.hpp] — the
    time-out of the poll, the registration of descriptors, the user event that
    interrupts a poll and the flag that coalesces interrupts, and the delivery of
    events.

    [run_task] is a step relation, one step per access to what threads share,
    between the thread that runs it and every other thread. The kernel keeps a
    table of registrations and the user event, which is cleared when a poll
    reports it. *)

From stdpp Require Import gmap relations.
From S2P Require Import Prelude ReactorOp EventQueue Select.
Import event_queue.

Module kqueue_scheduler.

(** * The poll time-out *)

Definition calculate_timeout (requested_timeout_us nearest now : Z) : Z :=
  if requested_timeout_us =? 0 then 0
  else if nearest =? select_scheduler.time_point_max then requested_timeout_us
  else if nearest <=? now then 0
  else
    let timer_timeout_us := Z.quot (nearest - now) 1000 in
    let capped_timer_us := Z.min (Z.max timer_timeout_us 0) int64_max in
    if requested_timeout_us <? 0 then capped_timer_us
    else Z.min requested_timeout_us capped_timer_us.

(** [ts] of [run_task], or the null pointer. *)
Record timespec := mk_timespec { tv_sec : Z; tv_nsec : Z }.
Definition timespec_of (effective_timeout_us : Z) : option timespec :=
  if 0 <=? effective_timeout_us
  then Some (mk_timespec (Z.quot effective_timeout_us 1000000)
                         (Z.rem effective_timeout_us 1000000 * 1000))
  else None.

(** When a poll that starts at [now] ends by itself, if it blocks at all. *)
Definition deadline (now timeout_us : Z) : option Z :=
  match timespec_of timeout_us with
  | None => Some select_scheduler.time_point_max
  | Some ts =>
      let ns := tv_sec ts * 1000000000 + tv_nsec ts in
      if ns =? 0 then None else Some (Z.min (now + ns) select_scheduler.time_point_max)
  end.

(** * Events *)

Inductive filter := EVFILT_USER | EVFILT_READ | EVFILT_WRITE.
#[export] Instance filter_eq_dec : EqDecision filter.
Proof. solve_decision. Defined.

(** The fields of [struct kevent] that [run_task] reads. *)
Record kevent := mk_kevent {
  ev_filter : filter;
  udata : option nat;
  EV_ERROR : bool;
  EV_EOF : bool;
  fflags : Z
}.

(** [ready] *)
Definition ready_of_event (e : kevent) : Z :=
  let ready := 0 in
  let ready :=
    match ev_filter e with
    | EVFILT_READ => Z.lor ready reactor_op.reactor_event_read
    | EVFILT_WRITE => Z.lor ready reactor_op.reactor_event_write
    | EVFILT_USER => ready
    end in
  let ready := if EV_ERROR e then Z.lor ready reactor_op.reactor_event_error else ready in
  if EV_EOF e then
    let ready := if decide (ev_filter e = EVFILT_READ)
                 then Z.lor ready reactor_op.reactor_event_read else ready in
    if negb (fflags e =? 0) then Z.lor ready reactor_op.reactor_event_error else ready
  else ready.

Definition is_user (e : kevent) : bool := bool_decide (ev_filter e = EVFILT_USER).

(** * State *)

(** Where the thread that runs the reactor is. *)
Inductive phase :=
| outside                                      (* not in [run_task] *)
| timing (requested : Z)                       (* in [calculate_timeout] *)
| timed (requested nearest : Z)                (* has read [nearest_expiry()] *)
| polling (limit : option Z)                   (* in [kevent] *)
| processing (evs : list kevent)               (* the loop over the events *)
| adding (d : nat) (evs : list kevent)         (* between [add_ready_events] and the exchange *)
| splicing.                                    (* after [process_expired] *)

(** [knotes] is the kernel's table; [triggered] the state of its user event;
    [interrupting] the threads on their way to [interrupt_reactor] and
    [triggering] those whose exchange of [user_event_armed_] succeeded and that
    have yet to trigger the event. *)
Record reactor := mk_reactor {
  user_event_armed_ : bool;
  triggered : bool;
  interrupting : nat;
  triggering : nat;
  nearest : Z;
  knotes : gmap (Z * bool) nat;   (* by descriptor, and whether the filter is for writing *)
  queue : event_queue;
  at_phase : phase
}.

Definition set_armed (b : bool) (r : reactor) : reactor :=
  mk_reactor b (triggered r) (interrupting r) (triggering r) (nearest r) (knotes r) (queue r) (at_phase r).
Definition set_user (b : bool) (n : nat) (r : reactor) : reactor :=
  mk_reactor (user_event_armed_ r) b (interrupting r) n (nearest r) (knotes r) (queue r) (at_phase r).
Definition set_interrupting (n : nat) (r : reactor) : reactor :=
  mk_reactor (user_event_armed_ r) (triggered r) n (triggering r) (nearest r) (knotes r) (queue r)
    (at_phase r).
Definition set_nearest (t : Z) (r : reactor) : reactor :=
  mk_reactor (user_event_armed_ r) (triggered r) (interrupting r) (triggering r) t (knotes r) (queue r)
    (at_phase r).
Definition set_knotes (m : gmap (Z * bool) nat) (r : reactor) : reactor :=
  mk_reactor (user_event_armed_ r) (triggered r) (interrupting r) (triggering r) (nearest r) m (queue r)
    (at_phase r).
Definition set_queue (q : event_queue) (r : reactor) : reactor :=
  mk_reactor (user_event_armed_ r) (triggered r) (interrupting r) (triggering r) (nearest r) (knotes r) q
    (at_phase r).
Definition set_phase (p : phase) (r : reactor) : reactor :=
  mk_reactor (user_event_armed_ r) (triggered r) (interrupting r) (triggering r) (nearest r) (knotes r)
    (queue r) p.

(** A thread on its way to [interrupt_reactor]. *)
Definition will_interrupt (r : reactor) : reactor := set_interrupting (S (interrupting r)) r.

(** The exchange of [interrupt_reactor]. *)
Definition interrupt_exchange (r : reactor) : reactor :=
  let r := set_interrupting (pred (interrupting r)) r in
  if user_event_armed_ r then r
  else set_armed true (set_user (triggered r) (S (triggering r)) r).

(** [kevent] with [NOTE_TRIGGER] *)
Definition interrupt_trigger (r : reactor) : reactor := set_user true (pred (triggering r)) r.

(** [register_descriptor], where the kernel applies [applied] of the two changes
    before it reports an error: the failure is thrown. *)
Definition register_descriptor (applied : nat) (f : Z) (d : nat) (r : reactor) : reactor * bool :=
  match applied with
  | O => (r, false)
  | 1%nat => (set_knotes (<[(f, false) := d]> (knotes r)) r, false)
  | _ => (set_queue (forget_events d (queue r))
            (set_knotes (<[(f, true) := d]> (<[(f, false) := d]> (knotes r))) r), true)
  end.

(** [deregister_descriptor]: the kernel stops at a change that fails. *)
Definition deregister_descriptor (f : Z) (r : reactor) : reactor :=
  match knotes r !! (f, false) with
  | None => r
  | Some _ => set_knotes (delete (f, true) (delete (f, false) (knotes r))) r
  end.

(** What [kevent] may report. *)
Definition reported (r : reactor) (e : kevent) : Prop :=
  match ev_filter e with
  | EVFILT_USER => triggered r = true
  | EVFILT_READ => exists f, udata e = knotes r !! (f, false)
  | EVFILT_WRITE => exists f, udata e = knotes r !! (f, true)
  end.

(** The events of a poll: the user event at most once, and cleared by it. *)
Definition users (evs : list kevent) : Z := Z.of_nat (length (List.filter is_user evs)).

(** The mutex of the scheduler is held by the thread in [run_task]. *)
Definition locked (p : phase) : bool :=
  match p with
  | timing _ | timed _ _ => true
  | _ => false
  end.

Inductive task_step (r : reactor) : reactor -> Prop :=
| t_start q : at_phase r = outside -> task_step r (set_phase (timing q) r)
| t_interrupted now :  (* [task_interrupted_] *)
    at_phase r = outside -> task_step r (set_phase (polling (deadline now 0)) r)
| t_nearest q : at_phase r = timing q -> task_step r (set_phase (timed q (nearest r)) r)
| t_clock q n now :
    at_phase r = timed q n -> 0 <= now ->
    task_step r (set_phase (polling (deadline now (calculate_timeout q n now))) r)
| t_poll limit evs :  (* no events: the time is up, or [EINTR] *)
    at_phase r = polling limit -> Forall (reported r) evs -> users evs <= 1 ->
    task_step r (set_phase (processing evs)
                   (set_user (if users evs =? 0 then triggered r else false) (triggering r) r))
| t_user e evs :
    at_phase r = processing (e :: evs) -> ev_filter e = EVFILT_USER ->
    task_step r (set_phase (processing evs) (set_armed false r))
| t_null e evs :
    at_phase r = processing (e :: evs) -> ev_filter e <> EVFILT_USER -> udata e = None ->
    task_step r (set_phase (processing evs) r)
| t_event e d evs :
    at_phase r = processing (e :: evs) -> ev_filter e <> EVFILT_USER -> udata e = Some d ->
    task_step r (set_phase (adding d evs) (set_queue (add_ready_events d (ready_of_event e) (queue r)) r))
| t_enqueue d evs :
    at_phase r = adding d evs ->
    task_step r (set_phase (processing evs) (set_queue (enqueue d (queue r)) r))
| t_expired t :
    at_phase r = processing [] -> nearest r <= t -> t <= select_scheduler.time_point_max ->
    task_step r (set_phase splicing (set_nearest t r))
| t_done :
    at_phase r = splicing -> task_step r (set_phase outside (set_queue (splice (queue r)) r)).

Inductive other_step (r : reactor) : reactor -> Prop :=
| o_earlier t : t < nearest r -> other_step r (will_interrupt (set_nearest t r))
| o_later t : nearest r <= t -> t <= select_scheduler.time_point_max -> other_step r (set_nearest t r)
| o_interrupt : other_step r (will_interrupt r)
| o_exchange : (0 < interrupting r)%nat -> other_step r (interrupt_exchange r)
| o_trigger : (0 < triggering r)%nat -> other_step r (interrupt_trigger r)
| o_register applied f d : other_step r (register_descriptor applied f d r).1
| o_deregister f : other_step r (deregister_descriptor f r)
| o_close f :  (* the kernel drops the registrations of a descriptor that is closed *)
    other_step r (set_knotes (delete (f, true) (delete (f, false) (knotes r))) r)
| o_worker q : worker_step (locked (at_phase r)) (queue r) q -> other_step r (set_queue q r).

Definition step (r r' : reactor) : Prop := task_step r r' \/ other_step r r'.

Definition initial : reactor :=
  mk_reactor false false 0 0 select_scheduler.time_point_max ∅ empty_queue outside.

Definition reachable : reactor -> Prop := rtc step initial.

End kqueue_scheduler.
Import kqueue_scheduler.

(** * Time-outs and events *)

(** The time-out is that of the select backend, to the nanosecond. *)
Lemma kqueue_deadline_select now q n :
  deadline now (calculate_timeout q n now)
  = select_scheduler.deadline now (select_scheduler.calculate_timeout q n now).
Proof.
  change (select_scheduler.calculate_timeout q n now) with (calculate_timeout q n now).
  generalize (calculate_timeout q n now) as us. intros us.
  unfold deadline, timespec_of, select_scheduler.deadline, select_scheduler.timeval_of.
  destruct (0 <=? us); [|done]. cbn. set (a := Z.quot us 1000000). set (b := Z.rem us 1000000).
  replace (a * 1000000000 + b * 1000) with (1000 * (a * 1000000 + b)) by lia.
  destruct (Z.eqb_spec (1000 * (a * 1000000 + b)) 0), (Z.eqb_spec (a * 1000000 + b) 0); try done; lia.
Qed.

(** An event is passed on as what it is: for reading or writing by its filter, and
    as an error exactly if the kernel marks one. *)
Lemma ready_of_event_exact e :
  ev_filter e <> EVFILT_USER ->
  ready_of_event e
  = Z.lor (if decide (ev_filter e = EVFILT_READ) then reactor_op.reactor_event_read
           else reactor_op.reactor_event_write)
          (if EV_ERROR e || (EV_EOF e && negb (fflags e =? 0)) then reactor_op.reactor_event_error else 0).
Proof.
  unfold ready_of_event. destruct (ev_filter e); [done| |]; intros _;
    destruct (EV_ERROR e), (EV_EOF e), (fflags e =? 0); reflexivity.
Qed.

(** * The poll is interrupted *)

(** The user events that the thread in [run_task] has yet to see. *)
Definition unseen (p : phase) : Z :=
  match p with
  | processing evs | adding _ evs => users evs
  | _ => 0
  end.

(** An interrupt is on its way. *)
Definition signalled (r : reactor) : Prop :=
  triggered r = true \/ (0 < triggering r)%nat \/ (0 < interrupting r)%nat.

Definition in_time (limit : option Z) (r : reactor) : Prop :=
  match limit with
  | None => True
  | Some t => t <= nearest r
  end.

Definition covered (r : reactor) : Prop :=
  match at_phase r with
  | timed _ n => signalled r \/ n <= nearest r
  | polling limit => signalled r \/ in_time limit r
  | _ => True
  end.

Definition adding_of (p : phase) : option nat :=
  match p with
  | adding d _ => Some d
  | _ => None
  end.

(** [i_once]: the flag is set exactly while one user event is being triggered, is
    in the kernel, or has been reported and not seen. *)
Record kqueue_inv (r : reactor) : Prop := {
  i_nearest : nearest r <= select_scheduler.time_point_max;
  i_once : Z.of_nat (triggering r) + b2z (triggered r) + unseen (at_phase r) = b2z (user_event_armed_ r);
  i_covered : covered r;
  i_queue : queue_inv (adding_of (at_phase r)) (queue r)
}.

Lemma kqueue_inv_initial : kqueue_inv initial.
Proof. split; cbn; auto with event_queue; done. Qed.

Lemma users_cons e evs : users (e :: evs) = b2z (is_user e) + users evs.
Proof. unfold users. cbn. destruct (is_user e); cbn; lia. Qed.

Lemma users_nonneg evs : 0 <= users evs.
Proof. unfold users. lia. Qed.

Lemma users_reported r evs : Forall (reported r) evs -> users evs <> 0 -> triggered r = true.
Proof.
  induction 1 as [|e evs He Hf IH]; [done|]. rewrite users_cons. unfold is_user.
  case_bool_decide as E; [|intros; apply IH; cbn in *; lia]. intros _. unfold reported in He. by rewrite E in He.
Qed.

Lemma kqueue_in_time q n now r :
  0 <= now -> n <= nearest r -> nearest r <= select_scheduler.time_point_max ->
  in_time (deadline now (calculate_timeout q n now)) r.
Proof.
  intros H1 H2 H3. rewrite kqueue_deadline_select.
  pose proof (deadline_in_time q n now
    (select_scheduler.set_nearest (nearest r) select_scheduler.initial) H1 H2 H3) as H.
  by destruct (select_scheduler.deadline _ _).
Qed.

Lemma kqueue_task r r' : task_step r r' -> kqueue_inv r -> kqueue_inv r'.
Proof.
  intros S [In Io Ic Iq]. unfold covered in Ic.
  destruct S; rewrite H in Io, Ic, Iq; cbn in Io, Ic, Iq; split; cbn; try done; try lia; eauto with event_queue.
  - destruct Ic as [Ic|Ic]; [by left|right]. by apply kqueue_in_time.
  - pose proof (users_nonneg evs). pose proof (users_reported r evs H0) as Ht.
    destruct (Z.eqb_spec (users evs) 0); [lia|]. rewrite Ht in Io by done. cbn in *. lia.
  - rewrite users_cons in Io. unfold is_user in Io. rewrite bool_decide_eq_true_2 in Io by done.
    pose proof (users_nonneg evs). destruct (triggered r), (user_event_armed_ r); cbn in *; lia.
  - rewrite users_cons in Io. unfold is_user in Io. by rewrite bool_decide_eq_false_2 in Io.
  - rewrite users_cons in Io. unfold is_user in Io. by rewrite bool_decide_eq_false_2 in Io.
Qed.

Lemma kqueue_covered_frame r r' :
  at_phase r' = at_phase r -> (signalled r -> signalled r') ->
  (signalled r' \/ nearest r <= nearest r') -> covered r -> covered r'.
Proof.
  unfold covered. intros -> Hs [Hk|Hk]; destruct (at_phase r) as [| | |[t|]| | |]; cbn; try tauto; intuition lia.
Qed.

(** An exchange that finds the flag set finds an interrupt on its way. *)
Lemma kqueue_exchange r : kqueue_inv r -> kqueue_inv (interrupt_exchange r).
Proof.
  intros [In Io Ic Iq]. unfold interrupt_exchange; cbn. destruct (user_event_armed_ r) eqn:E.
  - split; cbn; try done; [by rewrite E|]. revert Ic. unfold covered; cbn.
    destruct (at_phase r); cbn in *; try done.
    all: intros _; left; unfold signalled; cbn; destruct (triggered r); cbn in *; [by left|right; left; lia].
  - split; cbn; try done; [by cbn in Io; lia|].
    apply (kqueue_covered_frame r); unfold signalled; cbn; auto with lia.
Qed.

Lemma kqueue_other r r' : other_step r r' -> kqueue_inv r -> kqueue_inv r'.
Proof.
  intros S I. pose proof I as [In Io Ic Iq]. destruct S; cbn in *;
    try (split; cbn; try done; try lia; eauto with event_queue;
         apply (kqueue_covered_frame r); unfold signalled; cbn; auto with lia).
  - by apply kqueue_exchange.
  - assert (0 <= unseen (at_phase r)) by (destruct (at_phase r); try done; apply users_nonneg).
    split; cbn; try done; [destruct (triggered r), (user_event_armed_ r); cbn in *; lia|].
    apply (kqueue_covered_frame r); unfold signalled; cbn; auto.
  - destruct applied as [|[|]]; cbn; [done|by split|]. split; cbn; auto with event_queue.
  - unfold deregister_descriptor. destruct (knotes r !! (f, false)); [by split|done].
Qed.

Lemma kqueue_inv_reachable r : reachable r -> kqueue_inv r.
Proof.
  unfold reachable. revert r. apply rtc_ind_r; [apply kqueue_inv_initial|].
  intros r r' _ [S|S] I; eauto using kqueue_task, kqueue_other.
Qed.

(** * Claims *)

(** C27: a thread never sleeps in [kevent] past what it must react to: while it
    does, an interrupt is on its way or the call ends by the expiry of the nearest
    timer. However many threads interrupt it, at most one trigger is outstanding,
    and [user_event_armed_] is set exactly while one is. *)
Theorem kqueue_poll_wakes r :
  reachable r ->
  (forall limit, at_phase r = polling limit -> signalled r \/ in_time limit r)
  /\ Z.of_nat (triggering r) + b2z (triggered r) + unseen (at_phase r) = b2z (user_event_armed_ r).
Proof.
  intros R. destruct (kqueue_inv_reachable r R) as [_ Io Ic _]. split; [|done].
  intros limit E. unfold covered in Ic. by rewrite E in Ic.
Qed.

(** No event is lost and none is queued twice. *)
Theorem kqueue_no_event_lost r :
  reachable r ->
  let q := queue r in
  (forall d, ready_of q d <> 0 -> attended (adding_of (at_phase r)) q d)
  /\ (forall d, d ∈ is_enqueued_ q <-> d ∈ queued q) /\ NoDup (queued q).
Proof. intros R. by destruct (kqueue_inv_reachable r R) as [_ _ _ []]. Qed.

(** * Runs *)

Lemma kqueue_reach_task r r' : reachable r -> task_step r r' -> reachable r'.
Proof. intros R S. eapply rtc_r; [exact R|by left]. Qed.

Lemma kqueue_reach_other r r' : reachable r -> other_step r r' -> reachable r'.
Proof. intros R S. eapply rtc_r; [exact R|by right]. Qed.

(** A poll sleeps until a timer at one millisecond; another thread sets a timer at
    half of it and wins the exchange, and a third one finds the flag set. *)
Definition interrupted_run : reactor :=
  mk_reactor true false 0 1 500000 ∅ empty_queue (polling (Some 1000000)).

Lemma interrupted_reachable : reachable interrupted_run.
Proof.
  pose proof (rtc_refl step initial : reachable initial) as R.
  eapply kqueue_reach_other in R; [|by apply (o_earlier _ 1000000)].
  eapply kqueue_reach_other in R; [|apply o_exchange; cbn; lia].
  eapply kqueue_reach_other in R; [|apply o_trigger; cbn; lia].
  eapply kqueue_reach_task in R; [|by apply (t_interrupted _ 0)].
  eapply kqueue_reach_task in R; [|by eapply (t_poll _ _ [mk_kevent EVFILT_USER None false false 0]); repeat constructor].
  eapply kqueue_reach_task in R; [|by eapply t_user].
  eapply kqueue_reach_task in R; [|by apply (t_expired _ 1000000)].
  eapply kqueue_reach_task in R; [|by apply t_done].
  eapply kqueue_reach_task in R; [|by apply (t_start _ (-1))].
  eapply kqueue_reach_task in R; [|by eapply t_nearest].
  eapply kqueue_reach_task in R; [|by eapply (t_clock _ _ _ 0)].
  eapply kqueue_reach_other in R; [|by apply (o_earlier _ 500000)].
  eapply kqueue_reach_other in R; [|apply o_interrupt].
  eapply kqueue_reach_other in R; [|apply o_exchange; cbn; lia].
  eapply kqueue_reach_other in R; [|apply o_exchange; cbn; lia].
  refine (eq_ind_r reachable R _). vm_compute. reflexivity.
Qed.

Lemma kqueue_poll_wakes_witness :
  reachable interrupted_run /\ ~ in_time (Some 1000000) interrupted_run /\ signalled interrupted_run.
Proof.
  assert (N : ~ in_time (Some 1000000) interrupted_run) by (cbn; lia).
  split; [apply interrupted_reachable|]. split; [exact N|].
  destruct (kqueue_poll_wakes interrupted_run interrupted_reachable) as [H _].
  destruct (H (Some 1000000) eq_refl); [done|by destruct N].
Defined.
