(* ===== verification/Timeout.v ===== *)
(** Deadlines on operations: [detail/timeout_awaitable.hpp], [detail/timeout_coro.hpp]
    and [delay.hpp] under [include/boost/corosio/].

    [timeout_awaitable] races an operation against a timer by a stop source that
    they share. The race is a step relation between the awaiting coroutine, the
    detached timer coroutine, the operation, the parent's stop source and the
    clock. The operation's results are a parameter: [canceled r] is
    [r.ec == capy::cond::canceled], and [timed_out] the default result with
    [capy::error::timeout]. *)

From stdpp Require Import relations.
From S2P Require Import Prelude TimerHeap TimerService.

Module timeout_awaitable.
Section race.
Context {R : Type} (canceled : R -> bool) (timed_out : R).

(** How the deadline is given: [deadline_] or [dur_]. *)
Inductive limit := at_time (deadline : Z) | within (dur : Z).

(** Where the awaiting coroutine is: in [await_suspend], suspended, or in
    [await_resume] with what it has read there. *)
Inductive phase :=
| created
| armed                                            (* the timer coroutine has been resumed *)
| forwarding                                       (* the parent's callback is registered *)
| suspended                                        (* the operation has been started *)
| resumed                                          (* entered [await_resume] *)
| read_parent (parent : bool)
| read_fired (parent fired : bool)
| stopping (parent fired : bool) (r : R)           (* has the result *)
| returned (parent fired : bool) (r out : R).

(** The timer coroutine of [make_timeout]: it waits, is resumed with or without an
    error, and ends. *)
Inductive coro := unborn | waiting | woken (error : bool) | ended.

Record race := mk_race {
  now : Z;
  expiry : Z;                  (* of [timer_], from when it is armed *)
  parent_stop : bool;          (* [parent_token_.stop_requested()] *)
  stop : bool;                 (* [stop_src_.stop_requested()] *)
  cb_active_ : bool;
  timer_coro : coro;
  result : option R;           (* the operation has completed *)
  timer_won : bool;            (* the timer coroutine has requested the stop *)
  at_phase : phase
}.

Definition set_now (t : Z) (w : race) : race :=
  mk_race t (expiry w) (parent_stop w) (stop w) (cb_active_ w) (timer_coro w) (result w) (timer_won w)
    (at_phase w).
Definition set_expiry (t : Z) (w : race) : race :=
  mk_race (now w) t (parent_stop w) (stop w) (cb_active_ w) (timer_coro w) (result w) (timer_won w)
    (at_phase w).
Definition set_parent_stop (w : race) : race :=
  mk_race (now w) (expiry w) true (stop w) (cb_active_ w) (timer_coro w) (result w) (timer_won w)
    (at_phase w).
Definition set_cb_active (b : bool) (w : race) : race :=
  mk_race (now w) (expiry w) (parent_stop w) (stop w) b (timer_coro w) (result w) (timer_won w)
    (at_phase w).
Definition set_coro (c : coro) (w : race) : race :=
  mk_race (now w) (expiry w) (parent_stop w) (stop w) (cb_active_ w) c (result w) (timer_won w)
    (at_phase w).
Definition set_result (r : R) (w : race) : race :=
  mk_race (now w) (expiry w) (parent_stop w) (stop w) (cb_active_ w) (timer_coro w) (Some r)
    (timer_won w) (at_phase w).
Definition set_won (w : race) : race :=
  mk_race (now w) (expiry w) (parent_stop w) (stop w) (cb_active_ w) (timer_coro w) (result w) true
    (at_phase w).
Definition set_phase (p : phase) (w : race) : race :=
  mk_race (now w) (expiry w) (parent_stop w) (stop w) (cb_active_ w) (timer_coro w) (result w)
    (timer_won w) p.

(** [stop_src_.request_stop()] *)
Definition request_stop (w : race) : race :=
  mk_race (now w) (expiry w) (parent_stop w) true (cb_active_ w) (timer_coro w) (result w) (timer_won w)
    (at_phase w).

(** [await_suspend], the timer: its expiry is set and its coroutine runs to the wait. *)
Definition arm_timer (l : limit) (w : race) : race :=
  set_phase armed (set_coro waiting
    (set_expiry (match l with at_time t => t | within d => after d (now w) end) w)).

(** [await_suspend], the parent's stop callback, which runs at once if the parent
    has been stopped. *)
Definition forward_parent (w : race) : race :=
  let w := set_phase forwarding (set_cb_active true w) in
  if parent_stop w then request_stop w else w.

(** [make_timeout] after its wait. *)
Definition timer_resumed (error : bool) (w : race) : race :=
  let w := set_coro ended w in
  if error then w else set_won (request_stop w).

(** [destroy_parent_cb] *)
Definition destroy_parent_cb (w : race) : race := if cb_active_ w then set_cb_active false w else w.

(** The result of [await_resume]. *)
Definition outcome (parent fired : bool) (r : R) : R :=
  if fired && negb parent && canceled r then timed_out else r.

Definition finish (parent fired : bool) (r : R) (w : race) : race :=
  set_phase (returned parent fired r (outcome parent fired r)) (destroy_parent_cb (request_stop w)).

(** [foreign]: the operation may also be cancelled by a third party. *)
Inductive step (l : limit) (foreign : bool) (w : race) : race -> Prop :=
| s_tick t : now w <= t -> step l foreign w (set_now t w)
| s_parent : step l foreign w (set_parent_stop w)
| s_forward :
    cb_active_ w = true -> parent_stop w = true -> step l foreign w (request_stop w)
| s_arm : at_phase w = created -> step l foreign w (arm_timer l w)
| s_callback : at_phase w = armed -> step l foreign w (forward_parent w)
| s_start : at_phase w = forwarding -> step l foreign w (set_phase suspended w)
| s_expired :  (* the wait completes *)
    timer_coro w = waiting -> expiry w <= now w -> step l foreign w (set_coro (woken false) w)
| s_cancelled :  (* the wait is stopped by its token *)
    timer_coro w = waiting -> stop w = true -> step l foreign w (set_coro (woken true) w)
| s_timer error :
    timer_coro w = woken error -> step l foreign w (timer_resumed error w)
| s_complete r :
    at_phase w = suspended -> result w = None ->
    (canceled r = true -> stop w = true \/ foreign = true) -> step l foreign w (set_result r w)
| s_resume r :
    at_phase w = suspended -> result w = Some r -> step l foreign w (set_phase resumed w)
| s_read_parent :
    at_phase w = resumed -> step l foreign w (set_phase (read_parent (parent_stop w)) w)
| s_read_fired p :
    at_phase w = read_parent p -> step l foreign w (set_phase (read_fired p (stop w)) w)
| s_result p f r :
    at_phase w = read_fired p f -> result w = Some r -> step l foreign w (set_phase (stopping p f r) w)
| s_finish p f r :
    at_phase w = stopping p f r -> step l foreign w (finish p f r w).

Definition initial (t : Z) : race := mk_race t 0 false false false unborn None false created.

Definition reachable (l : limit) (foreign : bool) (t : Z) : race -> Prop :=
  rtc (step l foreign) (initial t).

End race.
End timeout_awaitable.

(** [delay_awaitable] *)
Module delay_awaitable.
Import timeout_awaitable.

(** How [await_suspend] leaves the coroutine: resumed inline, or waiting on a timer
    of the given expiry. *)
Inductive suspension := inline (canceled_ : bool) | wait (expiry : Z).

(** [elapsed_now] and [armed_now] are the two readings of the clock. *)
Definition await_suspend (l : limit) (stop_requested : bool) (elapsed_now armed_now : Z) : suspension :=
  if stop_requested then inline true
  else if (match l with at_time t => t <=? elapsed_now | within d => d <=? 0 end) then inline false
  else wait (match l with at_time t => t | within d => after d armed_now end).

(** [waited] is what the wait on the timer reports. *)
Definition await_resume (s : suspension) (waited : error_code) : error_code :=
  match s with
  | inline true => canceled
  | inline false => success
  | wait _ => waited
  end.

End delay_awaitable.
Import timeout_awaitable.

(** * The invariant of the race *)

Section race_inv.
Context {R : Type} (canceled : R -> bool) (timed_out : R) (l : limit) (foreign : bool).

(** A cancelled operation was stopped by the timer, unless the parent is seen to
    have been stopped. *)
Definition settled (w : race (R := R)) (parent : bool) (r : R) : Prop :=
  result w = Some r /\ (parent = true -> parent_stop w = true)
  /\ (canceled r = true -> foreign = false -> parent = true \/ timer_won w = true).

(** A stop that was seen had been requested by the timer or for the parent. *)
Definition saw_stop (w : race (R := R)) (fired : bool) (r : R) : Prop :=
  (canceled r = true -> foreign = false -> fired = true)
  /\ (fired = true -> timer_won w = true \/ parent_stop w = true).

Definition phase_ok (w : race (R := R)) : Prop :=
  match at_phase w with
  | created => timer_coro w = unborn /\ timer_won w = false
  | resumed => exists r, result w = Some r
  | read_parent p => exists r, settled w p r
  | read_fired p f => exists r, settled w p r /\ saw_stop w f r
  | stopping p f r => settled w p r /\ saw_stop w f r
  | returned p f r out =>
      settled w p r /\ saw_stop w f r /\ out = outcome canceled timed_out p f r /\ stop w = true
      /\ cb_active_ w = false
  | _ => True
  end.

(** [finish] itself requests the stop, so its origin is known before. *)
Definition finished (p : phase (R := R)) : bool :=
  match p with
  | returned _ _ _ _ => true
  | _ => false
  end.

Record race_inv (w : race (R := R)) : Prop := {
  v_expired : timer_won w = true \/ timer_coro w = woken false -> expiry w <= now w;
  v_origin : finished (at_phase w) = false -> stop w = true -> timer_won w = true \/ parent_stop w = true;
  v_cancelled : forall r, result w = Some r -> canceled r = true -> foreign = false ->
    stop w = true /\ (timer_won w = true \/ parent_stop w = true);
  v_phase : phase_ok w
}.

Lemma race_inv_initial t : race_inv (initial t).
Proof. split; cbn; try done. by intros [|]. Qed.

(** What other threads do only adds to what the awaiting coroutine can see. *)
Record grows (w w' : race (R := R)) : Prop := {
  g_phase : at_phase w' = at_phase w;
  g_result : forall r, result w = Some r -> result w' = Some r;
  g_parent : parent_stop w = true -> parent_stop w' = true;
  g_won : timer_won w = true -> timer_won w' = true;
  g_stop : stop w = true -> stop w' = true;
  g_cb : cb_active_ w' = cb_active_ w;
  g_unborn : at_phase w = created -> timer_coro w' = timer_coro w /\ timer_won w' = timer_won w
}.

Lemma settled_mono w w' p r :
  (forall r, result w = Some r -> result w' = Some r) -> (parent_stop w = true -> parent_stop w' = true) ->
  (timer_won w = true -> timer_won w' = true) -> settled w p r -> settled w' p r.
Proof.
  intros H1 H2 H3 (E1 & E2 & E3). split; [auto|]. split; [auto|]. intros Hc Hf. destruct (E3 Hc Hf); auto.
Qed.

Lemma saw_stop_mono w w' f r :
  (parent_stop w = true -> parent_stop w' = true) -> (timer_won w = true -> timer_won w' = true) ->
  saw_stop w f r -> saw_stop w' f r.
Proof. intros H1 H2 [E1 E2]. split; [done|]. intros Hf. destruct (E2 Hf); auto. Qed.

Lemma phase_ok_grows w w' : grows w w' -> phase_ok w -> phase_ok w'.
Proof.
  intros [E1 E2 E3 E4 E5 E6 E7]. unfold phase_ok. rewrite E1. pose proof (settled_mono w w') as Hs.
  pose proof (fun f r => saw_stop_mono w w' f r E3 E4) as Hw.
  destruct (at_phase w); try done.
  - destruct (E7 eq_refl) as [-> ->]. done.
  - intros [r H]. eauto.
  - intros [r H]. eauto.
  - intros (r & H & Hr). eauto.
  - intros [H Hr]. eauto.
  - intros (H & Hr & Ho & Hst & Hcb). rewrite E6. auto 10.
Qed.

(** The clock, the parent, the timer coroutine and the operation. *)
Lemma race_inv_grows w w' :
  grows w w' -> (timer_won w' = true \/ timer_coro w' = woken false -> expiry w' <= now w') ->
  (finished (at_phase w) = false -> stop w' = true -> timer_won w' = true \/ parent_stop w' = true) ->
  (forall r, result w' = Some r -> result w = Some r
     \/ (canceled r = true -> foreign = false -> stop w = true /\ finished (at_phase w) = false)) ->
  race_inv w -> race_inv w'.
Proof.
  intros G He Ho Hr [Ie Io Ic Ip]. destruct G as [E1 E2 E3 E4 E5 E6 E7] eqn:EG; clear EG. split; auto.
  - by rewrite E1.
  - intros r Er Hc Hf. destruct (Hr r Er) as [Hr'|Hr'].
    + destruct (Ic r Hr' Hc Hf) as [Hs Hw]. split; [auto|]. destruct Hw; auto.
    + destruct (Hr' Hc Hf) as [Hs Hp]. split; [auto|]. destruct (Io Hp Hs); auto.
  - by apply (phase_ok_grows w).
Qed.

(** The awaiting coroutine. *)
Lemma race_inv_at w w' :
  now w' = now w -> expiry w' = expiry w -> timer_coro w' = timer_coro w -> timer_won w' = timer_won w ->
  parent_stop w' = parent_stop w -> result w' = result w -> (stop w = true -> stop w' = true) ->
  (finished (at_phase w') = false ->
     finished (at_phase w) = false /\ (stop w' = true -> stop w = true \/ parent_stop w = true)) ->
  phase_ok w' -> race_inv w -> race_inv w'.
Proof.
  intros E1 E2 E3 E4 E5 E6 E7 Hf Hp [Ie Io Ic Ip]. split; rewrite ?E1, ?E2, ?E3, ?E4, ?E5, ?E6; auto.
  - intros H1 H2. destruct (Hf H1) as [H3 H4]. destruct (H4 H2); auto.
  - intros r Hr Hc Hx. destruct (Ic r Hr Hc Hx). auto.
Qed.

Lemma race_unborn w : race_inv w -> at_phase w = created -> timer_coro w = unborn /\ timer_won w = false.
Proof. intros [_ _ _ Ip] E. unfold phase_ok in Ip. by rewrite E in Ip. Qed.

Lemma race_inv_arm w : race_inv w -> at_phase w = created -> race_inv (arm_timer l w).
Proof.
  intros I E. destruct (race_unborn w I E) as [_ Ew]. destruct I as [Ie Io Ic Ip]. rewrite E in Io.
  split; cbn; try done; auto. rewrite Ew. by intros [|].
Qed.

Lemma race_inv_timer w error : race_inv w -> timer_coro w = woken error -> race_inv (timer_resumed error w).
Proof.
  intros I E. pose proof (v_expired w I) as Ie. pose proof (v_origin w I) as Io.
  assert (Hu : at_phase w = created -> False) by (intros Ec; destruct (race_unborn w I Ec); congruence).
  apply (race_inv_grows w); unfold timer_resumed; destruct error; cbn; auto.
  all: try (split; cbn; auto; intros Ec; by destruct (Hu Ec)).
  intros [H|H]; [auto|done].
Qed.

Lemma race_inv_finish w p f r :
  race_inv w -> at_phase w = stopping p f r -> race_inv (finish canceled timed_out p f r w).
Proof.
  intros I E. pose proof (v_phase w I) as Ip. unfold phase_ok in Ip. rewrite E in Ip. destruct Ip as [Hs Hw].
  apply (race_inv_at w); auto; try (unfold finish, destroy_parent_cb; cbn; by destruct (cb_active_ w)).
  unfold phase_ok; cbn. split; [|split; [|split; [done|]]].
  - revert Hs. by apply settled_mono; unfold finish, destroy_parent_cb; cbn; destruct (cb_active_ w).
  - revert Hw. by apply saw_stop_mono; unfold finish, destroy_parent_cb; cbn; destruct (cb_active_ w).
  - unfold destroy_parent_cb; cbn. by destruct (cb_active_ w) eqn:Ecb.
Qed.

Lemma race_inv_step w w' : step canceled timed_out l foreign w w' -> race_inv w -> race_inv w'.
Proof.
  intros S I. pose proof (v_phase w I) as Ip. pose proof (v_expired w I) as Ie.
  pose proof (v_origin w I) as Io. unfold phase_ok in Ip.
  destruct S; try rewrite H in Ip; auto using race_inv_arm, race_inv_timer, race_inv_finish.
  - apply (race_inv_grows w); cbn; auto; [by split|]. intros H'. specialize (Ie H'). lia.
  - apply (race_inv_grows w); cbn; auto. by split.
  - apply (race_inv_grows w); cbn; auto. by split.
  - unfold forward_parent. cbn. destruct (parent_stop w) eqn:Ep; apply (race_inv_at w); cbn; auto;
      rewrite H; auto.
  - apply (race_inv_at w); cbn; auto. rewrite H. auto.
  - apply (race_inv_grows w); cbn; auto. split; auto. intros Ec. destruct (race_unborn w I Ec). congruence.
  - apply (race_inv_grows w); cbn; auto.
    + split; auto. intros Ec. destruct (race_unborn w I Ec). congruence.
    + intros [|]; [auto|done].
  - apply (race_inv_grows w); cbn; auto.
    + split; cbn; auto. intros r'. by rewrite H0.
    + intros r' [= <-]. right. intros Hc Hf. rewrite H. split; [|done]. destruct (H1 Hc); congruence.
  - apply (race_inv_at w); cbn; auto; [rewrite H; by auto|]. by exists r.
  - apply (race_inv_at w); cbn; auto; [rewrite H; by auto|]. destruct Ip as [r Hr]. exists r. cbn.
    split; [done|]. split; [done|]. intros Hc Hf. destruct (v_cancelled w I r Hr Hc Hf) as [_ [?|?]]; auto.
  - apply (race_inv_at w); cbn; auto; [rewrite H; by auto|]. destruct Ip as [r Hs]. exists r. split; [done|].
    split; [|by apply Io; rewrite H]. intros Hc Hf. by apply (v_cancelled w I r); [apply Hs|..].
  - apply (race_inv_at w); cbn; auto; [rewrite H; by auto|]. destruct Ip as (r' & Hs & Hw).
    assert (r' = r) as -> by (destruct Hs; congruence). done.
Qed.

Lemma race_inv_reachable t w : reachable canceled timed_out l foreign t w -> race_inv w.
Proof.
  unfold reachable. revert w. apply rtc_ind_r; [apply race_inv_initial|].
  intros w w' _ S I. by eapply race_inv_step.
Qed.

End race_inv.

(** * Deadlines *)

(** The expiry [e] of a timer armed at [t] or later is not before the deadline; a
    duration past the range of the clock is cut to its end. *)
Definition not_early (l : limit) (t e : Z) : Prop :=
  match l with
  | at_time x => e = x
  | within d => d <= 0 \/ t + d <= e \/ e = time_point_max
  end.

Lemma after_not_early d t t' : t <= t' -> not_early (within d) t (after d t').
Proof.
  intros H. unfold not_early, after. destruct (Z.leb_spec d 0); [by left|right].
  destruct (time_point_max - t' <? d); [by right|left; lia].
Qed.

Lemma race_deadline {R} canceled (timed_out : R) l foreign t w :
  reachable canceled timed_out l foreign t w ->
  t <= now w /\ (at_phase w = created \/ not_early l t (expiry w)).
Proof.
  unfold reachable. revert w. apply rtc_ind_r; [by split; [|left]|].
  intros w w' _ S [Ht He]. destruct S; cbn; try (split; [lia|]); try rewrite H in He; auto;
    try (destruct He as [He|He]; [done|by right]).
  - right. destruct l; [done|by apply after_not_early].
  - unfold forward_parent; cbn. destruct He as [He|He]; [done|]. destruct (parent_stop w); auto.
  - unfold timer_resumed; destruct error; auto.
  - unfold finish, destroy_parent_cb; cbn. destruct He as [He|He]; [done|]. destruct (cb_active_ w); auto.
Qed.

(** C31: What [timeout] reports.  A result that is not a cancellation is returned as
    it is, and so is any result if the parent is seen to have been stopped.
    Otherwise a cancelled operation is reported as timed out if the shared stop
    source is seen to have been stopped, by the timer coroutine or for the parent,
    and as cancelled if not, which only happens if a third party cancelled the
    operation ([foreign]).  If no third party does, a cancelled operation is
    reported as timed out whenever the parent is not seen to have been stopped, and
    then the timer coroutine had requested the stop, and not before the deadline.
    When it returns the timer's wait has been told to stop and the parent's callback
    is gone. *)
Theorem timeout_reports_exactly {R} canceled (timed_out : R) l foreign t w p f r out :
  reachable canceled timed_out l foreign t w -> at_phase w = returned p f r out ->
  result w = Some r /\ stop w = true /\ cb_active_ w = false
  /\ (canceled r = false -> out = r)
  /\ (p = true -> out = r /\ parent_stop w = true)
  /\ (canceled r = true -> p = false ->
        if f then out = timed_out /\ (timer_won w = true \/ parent_stop w = true)
        else out = r /\ foreign = true)
  /\ (foreign = false -> canceled r = true -> p = false ->
        out = timed_out /\ timer_won w = true /\ not_early l t (expiry w) /\ expiry w <= now w).
Proof.
  intros Re E. destruct (race_inv_reachable _ _ _ _ _ _ Re) as [Ie _ _ Ip].
  destruct (race_deadline _ _ _ _ _ _ Re) as [_ Hd]. unfold phase_ok in Ip. rewrite E in Ip, Hd.
  destruct Ip as ((Er & Ep & Ew) & [Hs Ho] & -> & Hst & Hcb). unfold outcome. split; [done|].
  split; [done|]. split; [done|]. split; [by intros ->; rewrite andb_false_r|]. split; [|split].
  - intros ->. rewrite andb_false_r. by split; [|apply Ep].
  - intros Hc ->. rewrite Hc. destruct f; cbn; [by split; [|apply Ho]|]. split; [done|].
    destruct foreign; [done|]. by specialize (Hs Hc eq_refl).
  - intros Hf Hc ->. rewrite Hs, Hc by done. destruct (Ew Hc Hf) as [|Hw]; [done|].
    destruct Hd as [Hd|Hd]; [done|]. cbn. auto 10.
Qed.

(** * Runs *)

(** An operation with two results: [Some n] and cancelled. *)
Definition demo_canceled (r : option Z) : bool := bool_decide (r = None).

Lemma reach_race {R} canceled (timed_out : R) l foreign t w w' :
  reachable canceled timed_out l foreign t w -> step canceled timed_out l foreign w w' ->
  reachable canceled timed_out l foreign t w'.
Proof. intros X S. by eapply rtc_r. Qed.

(** The deadline passes at 50, the timer coroutine stops the operation, which is
    cancelled. *)
Definition expired_race : race (R := option Z) :=
  mk_race 60 50 false true false ended (Some None) true (returned false true None (Some (-1))).

Lemma expired_race_reachable : reachable demo_canceled (Some (-1)) (within 40) false 10 expired_race.
Proof.
  assert (X : reachable demo_canceled (Some (-1)) (within 40) false 10 (initial 10)) by apply rtc_refl.
  eapply reach_race in X; [|by apply s_arm]. eapply reach_race in X; [|by apply s_callback].
  eapply reach_race in X; [|by apply s_start]. eapply reach_race in X; [|by apply (s_tick _ _ _ _ _ 60)].
  eapply reach_race in X; [|by apply s_expired]. eapply reach_race in X; [|by apply (s_timer _ _ _ _ _ false)].
  eapply reach_race in X; [|apply (s_complete _ _ _ _ _ None); [done|done|by left]].
  eapply reach_race in X; [|by eapply s_resume]. eapply reach_race in X; [|by apply s_read_parent].
  eapply reach_race in X; [|by eapply s_read_fired]. eapply reach_race in X; [|by eapply s_result].
  eapply reach_race in X; [|by eapply s_finish]. exact X.
Qed.

(** A third party cancels the operation before the deadline. *)
Definition foreign_race : race (R := option Z) :=
  mk_race 10 50 false true false waiting (Some None) false (returned false false None None).

Lemma foreign_race_reachable : reachable demo_canceled (Some (-1)) (within 40) true 10 foreign_race.
Proof.
  assert (X : reachable demo_canceled (Some (-1)) (within 40) true 10 (initial 10)) by apply rtc_refl.
  eapply reach_race in X; [|by apply s_arm]. eapply reach_race in X; [|by apply s_callback].
  eapply reach_race in X; [|by apply s_start].
  eapply reach_race in X; [|apply (s_complete _ _ _ _ _ None); [done|done|by right]].
  eapply reach_race in X; [|by eapply s_resume]. eapply reach_race in X; [|by apply s_read_parent].
  eapply reach_race in X; [|by eapply s_read_fired]. eapply reach_race in X; [|by eapply s_result].
  eapply reach_race in X; [|by eapply s_finish]. exact X.
Qed.

Lemma timeout_reports_exactly_witness :
  (timer_won expired_race = true /\ not_early (within 40) 10 (expiry expired_race))
  /\ (forall out, at_phase foreign_race = returned false false None out -> out = None).
Proof.
  split.
  - destruct (timeout_reports_exactly demo_canceled (Some (-1)) (within 40) false 10 expired_race
                false true None (Some (-1)) expired_race_reachable eq_refl) as (_ & _ & _ & _ & _ & _ & H).
    by destruct (H eq_refl eq_refl eq_refl) as (_ & H1 & H2 & _).
  - intros out E.
    destruct (timeout_reports_exactly demo_canceled (Some (-1)) (within 40) true 10 foreign_race
                false false None out foreign_race_reachable E) as (_ & _ & _ & _ & _ & H & _).
    by destruct (H eq_refl eq_refl).
Defined.

(** [delay] completes without an error only once the time is up, with an error only
    if it was stopped, and at once if either holds when it starts. The wait reports
    success at [t] only once its timer has expired. *)
Theorem delay_exact l stop_requested elapsed_now armed_now waited t :
  elapsed_now <= armed_now <= t ->
  let s := delay_awaitable.await_suspend l stop_requested elapsed_now armed_now in
  (forall e, s = delay_awaitable.wait e -> waited = success -> e <= t) ->
  delay_awaitable.await_resume s waited = success ->
  stop_requested = false /\ exists e, not_early l armed_now e /\ (e <= t \/ exists d, l = within d /\ d <= 0).
Proof.
  intros Ht s Hw. subst s. unfold delay_awaitable.await_suspend in *. destruct stop_requested; [done|].
  destruct l as [x|d].
  - destruct (Z.leb_spec x elapsed_now); cbn in *.
    + intros _. split; [done|]. exists x. split; [done|left; lia].
    + intros ->. split; [done|]. exists x. split; [done|left]. by apply Hw.
  - destruct (Z.leb_spec d 0); cbn in *.
    + intros _. split; [done|]. exists t. split; [by left|right]. eauto.
    + intros ->. split; [done|]. exists (after d armed_now). split; [by apply after_not_early|left]. by apply Hw.
Qed.
