(* ===== verification/Connect.v ===== *)
(** Connecting to the first endpoint of a sequence that answers: the composed
    [connect] operations of [include/boost/corosio/connect.hpp], over a range and
    over a pair of iterators, with and without a condition.

    A socket is anything with [is_open], [close] and [connect], stated as the class
    [Connectable]: the operations are proved against it. Awaiting [connect] gives
    its error code, or it throws. The attempts that were made are returned with the
    result, each with the socket it was made on. *)

From stdpp Require Import list.
From S2P Require Import Prelude ReactorOp.
Import reactor_op.

(** The requirements on [Socket], whose [close] leaves it closed. *)
Class Connectable (S E : Type) := {
  is_open : S -> bool;
  close : S -> S;
  connect_one : E -> S -> option error_code * S;  (* [None]: an exception *)
  default_endpoint : E;
  close_closes : forall s, is_open (close s) = false
}.

Module connect.
Section connect.
Context {S E : Type} {C : Connectable S E}.

(** [ec == capy::cond::canceled] *)
Context (is_canceled : error_code -> bool).

(** [std::errc::no_such_device_or_address] *)
Definition ENXIO : Z := 6.

(** One call of [connect] on the socket: the endpoint, the socket as it was handed
    to the call, and the error code it gave, or none if it threw. *)
Record attempt := mk_attempt { to : E; on : S; answer : option error_code }.

(** What a [connect] leaves: the socket, the attempts, and the result, or none if an
    attempt threw. *)
Record outcome (A : Type) := mk_outcome {
  socket : S;
  attempts : list attempt;
  reported : option (error_code * A)
}.
#[global] Arguments mk_outcome {A}.
#[global] Arguments socket {A}.
#[global] Arguments attempts {A}.
#[global] Arguments reported {A}.

Definition attempted {A} (a : attempt) (o : outcome A) : outcome A :=
  mk_outcome (socket o) (a :: attempts o) (reported o).

(** [if (s.is_open()) s.close();] *)
Definition close_if_open (s : S) : S := if is_open s then close s else s.

(** After the loop. *)
Definition exhausted (last_ec : error_code) : error_code :=
  if is_error last_ec then last_ec else system ENXIO.

(** [default_connect_condition] *)
Definition default_connect_condition (last_ec : error_code) (ep : E) : bool := true.

(** The loop of the range overload. *)
Fixpoint connect_range (cond : error_code -> E -> bool) (last_ec : error_code) (endpoints : list E)
    (s : S) : outcome E :=
  match endpoints with
  | [] => mk_outcome s [] (Some (exhausted last_ec, default_endpoint))
  | ep :: rest =>
      if negb (cond last_ec ep) then connect_range cond last_ec rest s
      else
        let s := close_if_open s in
        match connect_one ep s with
        | (None, s') => attempted (mk_attempt ep s None) (mk_outcome s' [] None)
        | (Some ec, s') =>
            attempted (mk_attempt ep s (Some ec))
              (if negb (is_error ec) then mk_outcome s' [] (Some (success, ep))
               else if is_canceled ec then mk_outcome s' [] (Some (ec, default_endpoint))
               else connect_range cond ec rest s')
        end
  end.

(** [connect(s, endpoints, cond)] and [connect(s, endpoints)] *)
Definition connect (cond : error_code -> E -> bool) (endpoints : list E) (s : S) : outcome E :=
  connect_range cond success endpoints s.
Definition connect_any (endpoints : list E) (s : S) : outcome E :=
  connect default_connect_condition endpoints s.

(** The loop of the iterator overload, from the position [it] of a sequence whose
    elements before it have been dropped; the result is a position. *)
Fixpoint connect_iter (cond : error_code -> E -> bool) (last_ec : error_code) (it last : nat)
    (rest : list E) (s : S) : outcome nat :=
  match rest with
  | [] => mk_outcome s [] (Some (exhausted last_ec, last))
  | ep :: rest =>
      if negb (cond last_ec ep) then connect_iter cond last_ec (Datatypes.S it) last rest s
      else
        let s := close_if_open s in
        match connect_one ep s with
        | (None, s') => attempted (mk_attempt ep s None) (mk_outcome s' [] None)
        | (Some ec, s') =>
            attempted (mk_attempt ep s (Some ec))
              (if negb (is_error ec) then mk_outcome s' [] (Some (success, it))
               else if is_canceled ec then mk_outcome s' [] (Some (ec, last))
               else connect_iter cond ec (Datatypes.S it) last rest s')
        end
  end.

(** [connect(s, begin, end, cond)] and [connect(s, begin, end)] *)
Definition connect_between (cond : error_code -> E -> bool) (endpoints : list E) (s : S) : outcome nat :=
  connect_iter cond success 0 (length endpoints) endpoints s.
Definition connect_between_any (endpoints : list E) (s : S) : outcome nat :=
  connect_between default_connect_condition endpoints s.

End connect.
End connect.
Import connect.

Section laws.
Context {S E : Type} {C : Connectable S E} (is_canceled : error_code -> bool).
Implicit Types (cond : error_code -> E -> bool) (eps : list E) (s : S).
#[local] Abbreviation attempt := (connect.attempt (S := S) (E := E)).

(** An attempt is made on a closed socket. *)
Lemma close_if_open_closed s : is_open (close_if_open s) = false.
Proof. unfold close_if_open. destruct (is_open s) eqn:H; [apply close_closes|done]. Qed.

(** The report that the attempts determine. *)
Definition report_of (last_ec : error_code) (l : list attempt) : error_code * E :=
  match list.last l with
  | None => (exhausted last_ec, default_endpoint)
  | Some a =>
      match answer a with
      | Some ec => if is_error ec then (ec, default_endpoint) else (success, to a)
      | None => (last_ec, default_endpoint)
      end
  end.

Lemma report_of_cons e a ec l :
  answer a = Some ec -> is_error ec = true ->
  (forall b, list.last l = Some b -> answer b <> None) -> report_of e (a :: l) = report_of ec l.
Proof.
  intros Ha H Hb. unfold report_of. destruct l as [|x l]; [cbn; rewrite Ha, H; unfold exhausted; by rewrite H|].
  change (list.last (a :: x :: l)) with (list.last (x :: l)).
  destruct (list.last (x :: l)) as [y|] eqn:El; [|by apply last_None in El].
  destruct (answer y) eqn:Ey; [done|]. by destruct (Hb y eq_refl).
Qed.

(** An attempt that ends the loop: it threw, connected or was cancelled. *)
Definition final (a : attempt) : Prop :=
  match answer a with
  | None => True
  | Some ec => is_error ec = false \/ is_canceled ec = true
  end.

Lemma connect_range_report cond last_ec eps s o :
  connect_range is_canceled cond last_ec eps s = o -> forall r, reported o = Some r ->
  r = report_of last_ec (attempts o) /\ (forall b, list.last (attempts o) = Some b -> answer b <> None).
Proof.
  intros <-. revert last_ec s. induction eps as [|ep eps IH]; cbn; intros e s r; [by intros [= <-]|].
  destruct (cond e ep); cbn; [|apply IH].
  destruct (connect_one ep (close_if_open s)) as [[ec|] s']; [|done].
  destruct (is_error ec) eqn:Ee; cbn.
  - destruct (is_canceled ec) eqn:Ec; cbn.
    { intros [= <-]. split; [unfold report_of; cbn; by rewrite Ee|by intros b [= <-]]. }
    intros Hr. destruct (IH ec s' r Hr) as [-> Hl]. split; [symmetry; by apply report_of_cons|].
    intros b. destruct (attempts _); cbn in *; [by intros [= <-]|apply Hl].
  - intros [= <-]. split; [unfold report_of; cbn; by rewrite Ee|by intros b [= <-]].
Qed.

(** Attempts are made in order, each on a closed socket, and stop at the first that
    is final. *)
Definition made (a : attempt) : Prop :=
  is_open (on a) = false /\ answer a = (connect_one (to a) (on a)).1.

Lemma connect_range_attempts cond last_ec eps s :
  let o := connect_range is_canceled cond last_ec eps s in
  sublist (map to (attempts o)) eps
  /\ (forall i a, attempts o !! i = Some a -> made a)
  /\ (forall i a, attempts o !! i = Some a -> final a -> length (attempts o) = Datatypes.S i).
Proof.
  cbn. revert last_ec s. induction eps as [|ep eps IH]; cbn; intros e s; [by split|].
  destruct (cond e ep); cbn.
  2: { destruct (IH e s) as [H1 H2]. split; [by constructor|done]. }
  set (s0 := close_if_open s). set (a := mk_attempt ep s0 (connect_one ep s0).1).
  assert (Ha : made a) by (split; [apply close_if_open_closed|done]).
  assert (Hone : sublist (map to [a]) (ep :: eps) /\ (forall i b, [a] !! i = Some b -> made b)
    /\ (forall i b, [a] !! i = Some b -> final b -> length [a] = Datatypes.S i)).
  { split; [constructor; apply sublist_nil_l|]. split; [by intros [|i] b; [intros [= <-]|]|]. by intros [|i] b. }
  unfold a in *. clear a. destruct (connect_one ep s0) as [[ec|] s']; cbn in *; [|exact Hone].
  destruct (is_error ec) eqn:Ee; cbn; [|exact Hone]. destruct (is_canceled ec) eqn:Ec; [exact Hone|].
  destruct (IH ec s') as (H1 & H2 & H3). cbn. split; [by constructor|]. split.
  - intros [|i] b; cbn; [by intros [= <-]|apply H2].
  - intros [|i] b Hi Hf; cbn in Hi; [|by rewrite (H3 i b)].
    injection Hi as <-. cbn in Hf. destruct Hf; congruence.
Qed.

(** Without a condition nothing is passed over. *)
Lemma connect_range_exhaustive last_ec eps s :
  let o := connect_range is_canceled default_connect_condition last_ec eps s in
  map to (attempts o) `prefix_of` eps
  /\ (Forall (fun a => ~ final a) (attempts o) -> map to (attempts o) = eps).
Proof.
  cbn. revert last_ec s. induction eps as [|ep eps IH]; cbn; intros e s; [done|].
  destruct (connect_one ep (close_if_open s)) as [[ec|] s']; cbn.
  2: { split; [apply prefix_cons, prefix_nil|]. intros [H _]%list.Forall_cons. by destruct H. }
  destruct (is_error ec) eqn:Ee; cbn.
  - destruct (is_canceled ec) eqn:Ec; cbn.
    + split; [apply prefix_cons, prefix_nil|]. intros [H _]%list.Forall_cons. destruct H. by right.
    + destruct (IH ec s') as [H1 H2]. split; [by apply prefix_cons|].
      intros [_ H]%list.Forall_cons. f_equal. by apply H2.
  - split; [apply prefix_cons, prefix_nil|]. intros [H _]%list.Forall_cons. destruct H. by left.
Qed.

(** The two overloads take the same course; the iterator is at the endpoint. *)
Definition at_position (eps : list E) (it : nat) (r : error_code * nat) (r' : error_code * E) : Prop :=
  r.1 = r'.1 /\ (if is_error r.1 then r.2 = (it + length eps)%nat /\ r'.2 = default_endpoint
                 else exists i, r.2 = (it + i)%nat /\ eps !! i = Some r'.2).

Lemma at_position_cons ep eps it o o' :
  option_Forall2 (at_position eps (Datatypes.S it)) o o' -> option_Forall2 (at_position (ep :: eps) it) o o'.
Proof.
  destruct 1 as [r r' [H1 H2]|]; constructor. split; [done|]. destruct (is_error r.1); cbn.
  - by rewrite Nat.add_succ_r.
  - destruct H2 as (i & -> & H2). exists (Datatypes.S i). split; [lia|done].
Qed.

Lemma connect_iter_range cond last_ec it last eps s :
  last = (it + length eps)%nat ->
  let o := connect_iter is_canceled cond last_ec it last eps s in
  let o' := connect_range is_canceled cond last_ec eps s in
  socket o = socket o' /\ attempts o = attempts o'
  /\ option_Forall2 (at_position eps it) (reported o) (reported o').
Proof.
  cbn. revert last_ec it s. induction eps as [|ep eps IH]; cbn; intros e it s ->.
  { split; [done|]. split; [done|]. constructor. unfold at_position, exhausted; cbn.
    destruct (is_error e) eqn:Ee; cbn; rewrite ?Ee; by rewrite Nat.add_0_r. }
  destruct (cond e ep); cbn.
  2: { destruct (IH e (Datatypes.S it) s) as (H1 & H2 & H3); [lia|]. split; [done|]. split; [done|].
       by apply at_position_cons. }
  destruct (connect_one ep (close_if_open s)) as [[ec|] s']; cbn; [|by repeat constructor].
  destruct (is_error ec) eqn:Ee; cbn.
  - destruct (is_canceled ec); cbn.
    + split; [done|]. split; [done|]. constructor. split; [done|]. cbn. by rewrite Ee.
    + destruct (IH ec (Datatypes.S it) s') as (H1 & H2 & H3); [lia|]. split; [done|].
      split; [by rewrite H2|]. by apply at_position_cons.
  - split; [done|]. split; [done|]. constructor. split; [done|]. cbn. exists 0%nat. split; [lia|done].
Qed.

(** C32: [connect] tries endpoints in their order, each by one call on a socket that
    is closed when the call is made, and stops at the first that connects, is
    cancelled or throws; unless it throws it reports the endpoint that connected, or
    the error of the last attempt, or [no_such_device_or_address] if there was none.
    Without a condition no endpoint before the last attempt is passed over, and it
    gives up only when every endpoint has been tried. *)
Theorem connect_first_answer cond eps s :
  let o := connect is_canceled cond eps s in
  let any := connect_any is_canceled eps s in
  (forall i a, attempts o !! i = Some a ->
     is_open (on a) = false /\ answer a = (connect_one (to a) (on a)).1)
  /\ sublist (map to (attempts o)) eps
  /\ (forall i a, attempts o !! i = Some a -> final a -> length (attempts o) = Datatypes.S i)
  /\ (forall r, reported o = Some r -> r = report_of success (attempts o))
  /\ map to (attempts any) `prefix_of` eps
  /\ (Forall (fun a => ~ final a) (attempts any) -> map to (attempts any) = eps).
Proof.
  cbn. destruct (connect_range_attempts cond success eps s) as (H1 & H2 & H3).
  destruct (connect_range_exhaustive success eps s) as [H4 H5].
  split; [apply H2|]. split; [done|]. split; [done|]. split; [|done].
  intros r Hr. by eapply connect_range_report.
Qed.

(** The iterator overload takes the same course as the range overload, makes the
    same attempts and reports the same error, with the position of the endpoint that
    the range overload reports, or the end. *)
Theorem connect_overloads_agree cond eps s :
  let o := connect_between is_canceled cond eps s in
  let o' := connect is_canceled cond eps s in
  socket o = socket o' /\ attempts o = attempts o'
  /\ option_Forall2 (fun r r' =>
       r.1 = r'.1 /\ (if is_error r.1 then r.2 = length eps /\ r'.2 = default_endpoint
                      else eps !! r.2 = Some r'.2)) (reported o) (reported o').
Proof.
  cbn. destruct (connect_iter_range cond success 0 (length eps) eps s eq_refl) as (H1 & H2 & H3).
  unfold connect_between, connect. split; [done|]. split; [done|].
  destruct H3 as [r r' [H3 H4]|]; constructor. split; [done|]. destruct (is_error r.1); [done|]. destruct H4 as (i & -> & H4). done.
Qed.

End laws.

(** * A run *)

(** A socket that answers on endpoint 3, and refuses the others. *)
#[local] Program Instance demo_socket : Connectable bool nat := {
  is_open := id;
  close _ := false;
  connect_one ep _ := (Some (if (ep =? 3)%nat then success else system 111), true);
  default_endpoint := 0%nat
}.
Next Obligation. done. Qed.

Example connect_demo :
  connect_any (fun _ => false) [1; 2; 3; 4]%nat false
  = mk_outcome true [mk_attempt 1 false (Some (system 111)); mk_attempt 2 false (Some (system 111));
                     mk_attempt 3 false (Some success)]%nat (Some (success, 3%nat)).
Proof. reflexivity. Qed.

(** Everyone refuses: the last error is reported. *)
Lemma connect_first_answer_witness :
  reported (connect_any (fun _ => false) [1; 2]%nat true) = Some (system 111, 0%nat)
  /\ map to (attempts (connect_any (fun _ => false) [1; 2]%nat true)) = [1; 2]%nat.
Proof.
  destruct (connect_first_answer (fun _ => false) default_connect_condition [1; 2]%nat true)
    as (_ & _ & _ & _ & _ & H).
  split; [reflexivity|]. apply H. repeat constructor; by intros [[=]|[=]].
Defined.
