(* ===== verification/UringAcceptor.v ===== *)
(** The multishot acceptor of the io_uring backend:
    [native/io_uring/io_uring_multishot_acceptor.hpp], with the operations of
    [io_uring_acceptor_ops.hpp] — the connections that the kernel has accepted and
    nobody has asked for, the coroutines that wait for one, their cancellation, and
    the hand-over between them.

    Every critical section, every exchange of [cancelled] and every deletion of a
    waiter is a step. What a thread has taken out of the shared lists and not yet
    finished with is a [hand]; threads that hold several are not distinguished. The
    kernel appends to the completion queue, and writes the address of the peer to
    the one place that the operation gives it. A descriptor stands for the connection
    it was returned for, also when the system uses its number again. *)

From stdpp Require Import gmap relations list_tactics.
From S2P Require Import Prelude.

Module multishot_acceptor.

(** The result of an accept: [accepted_fd] with its peer, [err], or [cancelled]. *)
Inductive result := accepted (fd peer : Z) | failed (err : Z) | aborted.

(** [uring_accept_op] *)
Record accept_op := mk_op { op_h : nat; op_result : result }.

(** [waiter_node]; [stop_cb] tells whether the callback is armed. *)
Record waiter_node := mk_waiter {
  h : nat;
  cancelled : bool;
  queued : bool;
  stop_cb : bool
}.

(** A completion queue entry: [res] and [IORING_CQE_F_MORE]. *)
Record cqe := mk_cqe { res : Z; more : bool }.

(** What a thread has in hand. *)
Inductive hand :=
| calling (h : nat)                    (* [dispatch_or_queue], after [accept4] *)
| arming (w : nat)                     (* has made the waiter *)
| parking (w : nat)                    (* has armed its callback *)
| aborting (w : nat)                   (* [was_cancelled] *)
| giving (w : nat) (fd peer : Z)       (* [ready_op] *)
| draining (w : nat)                   (* taken by [drain_waiters_only] or a closing [on_accept_cqe_impl] *)
| matching (w : nat) (new_fd err : Z)  (* [matched] *)
| removing (w : nat).                  (* taken by [cancel_waiter] *)

(** [callbacks]: the waiters whose canceller has won the exchange and has not yet
    entered the critical section of [cancel_waiter]. [multishot]: the accept is
    armed in the kernel. [work]: the units of work of the acceptor. [started] are
    all the accepts and [born] all the connections; [resumed] are the accepts whose
    coroutine was resumed, [dropped] those that the scheduler has destroyed without
    running them, [closed] the connections that were closed. *)
Record acceptor := mk_acceptor {
  closing_ : bool;
  ready_fds_ : list (Z * Z);
  waiters_ : list nat;
  nodes : gmap nat waiter_node;
  hands : list hand;
  callbacks : list nat;
  multishot : bool;
  cqes : list cqe;
  peer_storage : Z;
  rearms : nat;
  posted : list accept_op;
  work : Z;
  resumed : list accept_op;
  dropped : list accept_op;
  closed : list Z;
  started : list nat;
  born : list Z
}.

Definition set_closing (b : bool) (a : acceptor) : acceptor :=
  mk_acceptor b (ready_fds_ a) (waiters_ a) (nodes a) (hands a) (callbacks a) (multishot a)
    (cqes a) (peer_storage a) (rearms a) (posted a) (work a) (resumed a) (dropped a) (closed a)
    (started a) (born a).
Definition set_ready (l : list (Z * Z)) (a : acceptor) : acceptor :=
  mk_acceptor (closing_ a) l (waiters_ a) (nodes a) (hands a) (callbacks a) (multishot a)
    (cqes a) (peer_storage a) (rearms a) (posted a) (work a) (resumed a) (dropped a) (closed a)
    (started a) (born a).
Definition set_waiters (l : list nat) (a : acceptor) : acceptor :=
  mk_acceptor (closing_ a) (ready_fds_ a) l (nodes a) (hands a) (callbacks a) (multishot a)
    (cqes a) (peer_storage a) (rearms a) (posted a) (work a) (resumed a) (dropped a) (closed a)
    (started a) (born a).
Definition set_nodes (m : gmap nat waiter_node) (a : acceptor) : acceptor :=
  mk_acceptor (closing_ a) (ready_fds_ a) (waiters_ a) m (hands a) (callbacks a) (multishot a)
    (cqes a) (peer_storage a) (rearms a) (posted a) (work a) (resumed a) (dropped a) (closed a)
    (started a) (born a).
Definition set_hands (l : list hand) (a : acceptor) : acceptor :=
  mk_acceptor (closing_ a) (ready_fds_ a) (waiters_ a) (nodes a) l (callbacks a) (multishot a)
    (cqes a) (peer_storage a) (rearms a) (posted a) (work a) (resumed a) (dropped a) (closed a)
    (started a) (born a).
Definition set_callbacks (l : list nat) (a : acceptor) : acceptor :=
  mk_acceptor (closing_ a) (ready_fds_ a) (waiters_ a) (nodes a) (hands a) l (multishot a)
    (cqes a) (peer_storage a) (rearms a) (posted a) (work a) (resumed a) (dropped a) (closed a)
    (started a) (born a).
Definition set_kernel (b : bool) (q : list cqe) (p : Z) (a : acceptor) : acceptor :=
  mk_acceptor (closing_ a) (ready_fds_ a) (waiters_ a) (nodes a) (hands a) (callbacks a) b q p
    (rearms a) (posted a) (work a) (resumed a) (dropped a) (closed a) (started a) (born a).
Definition set_rearms (n : nat) (a : acceptor) : acceptor :=
  mk_acceptor (closing_ a) (ready_fds_ a) (waiters_ a) (nodes a) (hands a) (callbacks a)
    (multishot a) (cqes a) (peer_storage a) n (posted a) (work a) (resumed a) (dropped a)
    (closed a) (started a) (born a).
Definition set_posted (l : list accept_op) (n : Z) (a : acceptor) : acceptor :=
  mk_acceptor (closing_ a) (ready_fds_ a) (waiters_ a) (nodes a) (hands a) (callbacks a)
    (multishot a) (cqes a) (peer_storage a) (rearms a) l n (resumed a) (dropped a) (closed a)
    (started a) (born a).
Definition set_ended (l m : list accept_op) (a : acceptor) : acceptor :=
  mk_acceptor (closing_ a) (ready_fds_ a) (waiters_ a) (nodes a) (hands a) (callbacks a)
    (multishot a) (cqes a) (peer_storage a) (rearms a) (posted a) (work a) l m (closed a)
    (started a) (born a).
Definition set_closed (l : list Z) (a : acceptor) : acceptor :=
  mk_acceptor (closing_ a) (ready_fds_ a) (waiters_ a) (nodes a) (hands a) (callbacks a)
    (multishot a) (cqes a) (peer_storage a) (rearms a) (posted a) (work a) (resumed a)
    (dropped a) l (started a) (born a).
Definition set_started (l : list nat) (a : acceptor) : acceptor :=
  mk_acceptor (closing_ a) (ready_fds_ a) (waiters_ a) (nodes a) (hands a) (callbacks a)
    (multishot a) (cqes a) (peer_storage a) (rearms a) (posted a) (work a) (resumed a)
    (dropped a) (closed a) l (born a).
Definition set_born (l : list Z) (a : acceptor) : acceptor :=
  mk_acceptor (closing_ a) (ready_fds_ a) (waiters_ a) (nodes a) (hands a) (callbacks a)
    (multishot a) (cqes a) (peer_storage a) (rearms a) (posted a) (work a) (resumed a)
    (dropped a) (closed a) (started a) l.

Definition add_hand (x : hand) (a : acceptor) : acceptor := set_hands (x :: hands a) a.

(** [sched_->post(op)], which counts a unit of work *)
Definition post (co : nat) (r : result) (a : acceptor) : acceptor :=
  set_posted (posted a ++ [mk_op co r]) (work a + 1) a.
Definition work_started (a : acceptor) : acceptor := set_posted (posted a) (work a + 1) a.
Definition work_finished (a : acceptor) : acceptor := set_posted (posted a) (work a - 1) a.

Definition upd_node (w : nat) (f : waiter_node -> waiter_node) (a : acceptor) : acceptor :=
  set_nodes (alter f w (nodes a)) a.
Definition set_cancelled (n : waiter_node) : waiter_node := mk_waiter (h n) true (queued n) (stop_cb n).
Definition set_queued (n : waiter_node) : waiter_node := mk_waiter (h n) (cancelled n) true (stop_cb n).
Definition set_stop_cb (n : waiter_node) : waiter_node := mk_waiter (h n) (cancelled n) (queued n) true.

(** * Accepting *)

(** [dispatch_or_queue] to the answer of [accept4]: a connection, [EAGAIN] ([None])
    or another error. *)
Inductive answer := got (fd peer : Z) | again | error (errn : Z).

Definition dispatch (co : nat) (r : answer) (a : acceptor) : acceptor :=
  match r with
  | got fd peer => post co (accepted fd peer) (set_born (born a ++ [fd]) a)
  | again => add_hand (calling co) a
  | error errn => post co (failed errn) a
  end.

(** Its first critical section, and the new waiter [w]. *)
Definition take_ready (co w : nat) (a : acceptor) : acceptor :=
  match ready_fds_ a with
  | (fd, peer) :: rest => post co (accepted fd peer) (set_ready rest a)
  | [] => add_hand (arming w) (set_nodes (<[w := mk_waiter co false false false]> (nodes a)) a)
  end.

(** The stop callback; a token that is already stopped runs the canceller at once,
    which finds the waiter not queued. *)
Definition arm_stop_cb (w : nat) (possible stopped : bool) (a : acceptor) : acceptor :=
  add_hand (parking w)
    (if possible then upd_node w (fun n => if stopped then set_cancelled (set_stop_cb n) else set_stop_cb n) a
     else a).

(** Its second critical section. *)
Definition park (w : nat) (n : waiter_node) (a : acceptor) : acceptor :=
  if cancelled n then add_hand (aborting w) a
  else match ready_fds_ a with
       | (fd, peer) :: rest => add_hand (giving w fd peer) (set_ready rest a)
       | [] => set_waiters (waiters_ a ++ [w]) (work_started (upd_node w set_queued a))
       end.

(** The end of a waiter: it is deleted and its operation posted. *)
Definition complete (w : nat) (n : waiter_node) (r : result) (a : acceptor) : acceptor :=
  post (h n) r (set_nodes (delete w (nodes a)) a).

(** * Cancelling *)

(** [waiter_canceller], the exchange. *)
Definition canceller (w : nat) (n : waiter_node) (a : acceptor) : acceptor :=
  if cancelled n then a
  else set_callbacks (w :: callbacks a) (upd_node w set_cancelled a).

(** The critical section of [cancel_waiter]. *)
Definition cancel_waiter (w : nat) (n : waiter_node) (a : acceptor) : acceptor :=
  if closing_ a then a
  else if negb (queued n) then a
  else add_hand (removing w) (set_waiters (filter (fun x => x <> w) (waiters_ a)) a).

(** The critical section of [drain_waiters_only]. *)
Definition drain_waiters_only (a : acceptor) : acceptor :=
  set_waiters [] (set_hands (map draining (waiters_ a) ++ hands a) (set_closing true a)).

(** * Completions *)

Definition park_fd (fd : Z) (a : acceptor) : acceptor :=
  if 0 <=? fd then set_ready (ready_fds_ a ++ [(fd, peer_storage a)]) a else a.
Definition close_fd (fd : Z) (a : acceptor) : acceptor :=
  if 0 <=? fd then set_closed (closed a ++ [fd]) a else a.

(** The result of a waiter that is matched, which its thread makes after the critical
    section: the peer is what [peer_storage] holds by then. *)
Definition match_result (fd err : Z) (a : acceptor) : result :=
  if negb (err =? 0) then failed err else accepted fd (peer_storage a).

(** The critical section of [on_accept_cqe_impl]. *)
Definition match_cqe (new_fd err : Z) (is_more : bool) (a : acceptor) : acceptor :=
  if closing_ a then
    let a := close_fd new_fd a in
    if is_more then a
    else set_waiters [] (set_hands (map draining (waiters_ a) ++ hands a) a)
  else
    match waiters_ a with
    | [] => park_fd new_fd a
    | w :: rest =>
        match nodes a !! w with
        | None => a
        | Some n =>
            if cancelled n then park_fd new_fd a
            else add_hand (matching w new_fd err)
                   (set_waiters rest (upd_node w set_cancelled a))
        end
    end.

(** [do_cqe] and [on_accept_cqe_impl]; an accept that the kernel has ended is armed
    again, by an operation that is posted. *)
Definition on_accept_cqe (e : cqe) (a : acceptor) : acceptor :=
  let err := if res e <? 0 then - res e else 0 in
  let new_fd := if 0 <=? res e then res e else -1 in
  let a' := match_cqe new_fd err (more e) a in
  if negb (more e) && negb (closing_ a) then set_rearms (S (rearms a')) a' else a'.

(** [start_multishot] *)
Definition start_multishot (a : acceptor) : acceptor := set_kernel true (cqes a) 0 a.

(** [rearm_op] *)
Definition rearm (a : acceptor) : acceptor :=
  let a := set_rearms (pred (rearms a)) a in if closing_ a then a else start_multishot a.

(** * The kernel *)

Definition kernel_accept (fd peer : Z) (is_more : bool) (a : acceptor) : acceptor :=
  set_born (born a ++ [fd]) (set_kernel is_more (cqes a ++ [mk_cqe fd is_more]) peer a).
Definition kernel_error (err : Z) (is_more : bool) (a : acceptor) : acceptor :=
  set_kernel is_more (cqes a ++ [mk_cqe (- err) is_more]) (peer_storage a) a.

(** * Operations that the scheduler runs *)

(** [do_handler]: it reports to the coroutine; or, with a null [owner] in the
    [shutdown] of the scheduler, deletes the operation, and the unit of work that
    [post] counted is not given back. *)
Definition run_op (o : accept_op) (rest : list accept_op) (a : acceptor) : acceptor :=
  set_posted rest (work a - 1) (set_ended (resumed a ++ [o]) (dropped a) a).
Definition destroy_op (o : accept_op) (rest : list accept_op) (a : acceptor) : acceptor :=
  set_posted rest (work a) (set_ended (resumed a) (dropped a ++ [o]) a).

(** The destructor closes the connections that nobody asked for. *)
Definition close_ready (a : acceptor) : acceptor :=
  set_closed (closed a ++ map fst (ready_fds_ a)) (set_ready [] (set_closing true a)).

(** [stop_cb.reset()] returns when the canceller is not running. *)
Definition idle (w : nat) (a : acceptor) : Prop := w ∉ callbacks a.

(** A thread goes on with what it has in hand. *)
Inductive hand_step (a : acceptor) : hand -> acceptor -> Prop :=
| hs_calling co w :
    nodes a !! w = None -> hand_step a (calling co) (take_ready co w a)
| hs_arming w possible stopped : hand_step a (arming w) (arm_stop_cb w possible stopped a)
| hs_parking w n : nodes a !! w = Some n -> hand_step a (parking w) (park w n a)
| hs_aborting w n :
    nodes a !! w = Some n -> idle w a -> hand_step a (aborting w) (complete w n aborted a)
| hs_giving w n fd peer :
    nodes a !! w = Some n -> idle w a -> hand_step a (giving w fd peer) (complete w n (accepted fd peer) a)
| hs_draining w n :
    nodes a !! w = Some n -> idle w a ->
    hand_step a (draining w) (work_finished (complete w n aborted a))
| hs_matching w n fd err :
    nodes a !! w = Some n -> idle w a ->
    hand_step a (matching w fd err) (work_finished (complete w n (match_result fd err a) a))
| hs_removing w n :
    nodes a !! w = Some n -> hand_step a (removing w) (work_finished (complete w n aborted a)).

Inductive step (a : acceptor) : acceptor -> Prop :=
| s_accept co r :
    co ∉ started a -> (forall fd p, r = got fd p -> 0 <= fd /\ fd ∉ born a) ->
    step a (dispatch co r (set_started (started a ++ [co]) a))
| s_hand u x v a' :
    hands a = u ++ x :: v -> hand_step (set_hands (u ++ v) a) x a' -> step a a'
| s_stop w n :  (* a token is stopped; a callback runs once *)
    nodes a !! w = Some n -> stop_cb n = true -> step a (canceller w n a)
| s_cancel u w v n :
    callbacks a = u ++ w :: v -> nodes a !! w = Some n ->
    step a (cancel_waiter w n (set_callbacks (u ++ v) a))
| s_drain : step a (drain_waiters_only a)
| s_listen : step a (start_multishot a)
| s_rearm : (0 < rearms a)%nat -> step a (rearm a)
| s_cqe e rest :
    cqes a = e :: rest ->
    step a (on_accept_cqe e (set_kernel (multishot a) rest (peer_storage a) a))
| s_kernel_accept fd peer is_more :
    multishot a = true -> 0 <= fd -> fd ∉ born a -> step a (kernel_accept fd peer is_more a)
| s_kernel_error err is_more :
    multishot a = true -> 0 < err -> step a (kernel_error err is_more a)
| s_run o rest : posted a = o :: rest -> step a (run_op o rest a)
| s_destroy_op o rest : posted a = o :: rest -> step a (destroy_op o rest a)
| s_close_ready : step a (close_ready a).

Definition initial : acceptor :=
  mk_acceptor false [] [] ∅ [] [] false [] 0 0 [] 0 [] [] [] [] [].

Definition reachable : acceptor -> Prop := rtc step initial.

End multishot_acceptor.
Import multishot_acceptor.

(** * Waiters *)

(** The waiter that a hand holds. *)
Definition hand_node (x : hand) : list nat :=
  match x with
  | calling _ => []
  | arming w | parking w | aborting w | giving w _ _ | draining w | matching w _ _ | removing w => [w]
  end.

(** Where the waiters are. *)
Definition places (a : acceptor) : list nat := waiters_ a ++ flat_map hand_node (hands a).

Definition hand_ok (a : acceptor) (x : hand) : Prop :=
  match x with
  | calling _ => True
  | arming w | parking w | aborting w | giving w _ _ =>
      forall n, nodes a !! w = Some n -> queued n = false
  | draining w => closing_ a = true /\ forall n, nodes a !! w = Some n -> queued n = true
  | matching w _ _ | removing w =>
      w ∉ callbacks a /\ forall n, nodes a !! w = Some n -> queued n = true /\ cancelled n = true
  end.

(** Every waiter is in one place, and exists exactly while it is in one. *)
Record mem_inv (a : acceptor) : Prop := {
  m_nodup : NoDup (places a);
  m_alive : forall w, w ∈ places a <-> is_Some (nodes a !! w);
  m_queued : forall w n, w ∈ waiters_ a -> nodes a !! w = Some n -> queued n = true;
  m_hands : forall x, x ∈ hands a -> hand_ok a x;
  m_once : NoDup (callbacks a);
  m_callbacks : forall w, w ∈ callbacks a -> exists n, nodes a !! w = Some n /\ cancelled n = true
}.

Lemma mem_inv_initial : mem_inv initial.
Proof.
  split; cbn; try apply list.NoDup_nil; try set_solver. intros w. rewrite lookup_empty.
  split; [by intros ?%not_elem_of_nil|by intros [? [=]]].
Qed.

(** The lists of hands are taken up to their order. *)
Lemma flat_map_perm {A B} (f : A -> list B) l l' : l ≡ₚ l' -> flat_map f l ≡ₚ flat_map f l'.
Proof. induction 1; cbn; [done|by f_equiv|solve_Permutation|by etransitivity]. Qed.

Lemma hand_ok_frame a a' x :
  closing_ a' = closing_ a -> nodes a' = nodes a -> callbacks a' = callbacks a -> hand_ok a x -> hand_ok a' x.
Proof. unfold hand_ok. by intros -> -> ->. Qed.

(** What does not concern the waiters. *)
Lemma mem_inv_frame a a' :
  waiters_ a' = waiters_ a -> hands a' ≡ₚ hands a -> nodes a' = nodes a -> callbacks a' = callbacks a ->
  closing_ a' = closing_ a -> mem_inv a -> mem_inv a'.
Proof.
  intros E1 E2 E3 E4 E5 [I1 I2 I3 I4 I5 I6].
  assert (P : places a' ≡ₚ places a) by (unfold places; by rewrite E1, (flat_map_perm _ _ _ E2)).
  split; rewrite ?P, ?E1, ?E3, ?E4; try done.
  - intros w. rewrite P. apply I2.
  - intros x Hx. rewrite E2 in Hx. eapply hand_ok_frame; [done..|]. by apply I4.
Qed.

Lemma mem_inv_take a u x v : hands a = u ++ x :: v -> mem_inv a -> mem_inv (add_hand x (set_hands (u ++ v) a)).
Proof. intros E. apply mem_inv_frame; cbn; try done. rewrite E. by rewrite Permutation_middle. Qed.

(** The waiter [w] of a hand is in no other place. *)
Lemma places_add a x : places (add_hand x a) ≡ₚ hand_node x ++ places a.
Proof. unfold places. cbn. solve_Permutation. Qed.

Lemma places_hand a x w : x ∈ hands a -> w ∈ hand_node x -> w ∈ places a.
Proof.
  intros Hx Hw. unfold places. apply elem_of_app; right. apply list_elem_of_In, in_flat_map.
  exists x. split; by apply list_elem_of_In.
Qed.

Lemma hand_only a x w : mem_inv (add_hand x a) -> hand_node x = [w] -> w ∉ places a.
Proof.
  intros I E. pose proof (m_nodup _ I) as N. rewrite places_add, E in N. by apply list.NoDup_cons in N as [N _].
Qed.

Lemma mem_inv_drop a x : mem_inv (add_hand x a) -> hand_node x = [] -> mem_inv a.
Proof.
  intros [I1 I2 I3 I4 I5 I6] E. rewrite places_add, E in I1.
  split; try done.
  - intros w. rewrite <- I2, places_add, E. done.
  - intros y Hy. eapply hand_ok_frame; [..|apply I4; cbn; right; exact Hy]; done.
Qed.

Lemma mem_inv_rename a x y :
  mem_inv (add_hand x a) -> hand_node y = hand_node x -> hand_ok a y -> mem_inv (add_hand y a).
Proof.
  intros [I1 I2 I3 I4 I5 I6] E H. assert (P : places (add_hand y a) ≡ₚ places (add_hand x a)) by
    (by rewrite !places_add, E).
  split; try done; [by rewrite P|intros w; rewrite P; apply I2|]. cbn.
  intros z [-> | Hz]%list.elem_of_cons; [eapply hand_ok_frame; [..|exact H]; done|].
  eapply hand_ok_frame; [..|apply I4; cbn; right; exact Hz]; done.
Qed.

(** The waiter of a hand is deleted. *)
Lemma mem_inv_delete a x w :
  mem_inv (add_hand x a) -> hand_node x = [w] -> w ∉ callbacks a ->
  mem_inv (set_nodes (delete w (nodes a)) a).
Proof.
  intros I E Hc. pose proof (hand_only a x w I E) as Hw. destruct I as [I1 I2 I3 I4 I5 I6].
  split; cbn; try done.
  - rewrite places_add in I1. by apply list.NoDup_app in I1 as (_ & _ & ?).
  - intros w'. change (places (set_nodes _ a)) with (places a).
    rewrite lookup_delete_is_Some. assert (P : w' ∈ places (add_hand x a) <-> w' = w \/ w' ∈ places a).
    { rewrite places_add, E. cbn. apply list.elem_of_cons. }
    rewrite <- I2, P. naive_solver.
  - intros w' n Hw' [_ Hn]%lookup_delete_Some. by eapply I3.
  - intros y Hy. pose proof (I4 y (list_elem_of_further _ _ _ Hy)) as H. revert H. unfold hand_ok; cbn.
    destruct y; try done.
    all: try (intros H n [_ Hn]%lookup_delete_Some; by apply H).
    all: intros [H1 H2]; split; [done|]; intros n [_ Hn]%lookup_delete_Some; by apply H2.
  - intros w' Hw'. destruct (I6 w' Hw') as (n & Hn & Hx). exists n. split; [|done].
    rewrite lookup_delete_ne; [done|]. by intros ->.
Qed.

Lemma mem_inv_new a x w co :
  mem_inv a -> nodes a !! w = None ->
  x = mk_waiter co false false false ->
  mem_inv (add_hand (arming w) (set_nodes (<[w := x]> (nodes a)) a)).
Proof.
  intros [I1 I2 I3 I4 I5 I6] Hn ->.
  assert (Hw : w ∉ places a) by (rewrite I2; by rewrite Hn; intros [? ?]).
  split; try done.
  - rewrite places_add. by apply list.NoDup_cons.
  - intros w'. rewrite places_add. cbn. change (places (set_nodes _ a)) with (places a).
    rewrite list.elem_of_cons, lookup_insert_is_Some', I2. naive_solver.
  - cbn. intros w' n Hw' [[<- <-]|[_ H]]%lookup_insert_Some; [|by eapply I3].
    destruct Hw. unfold places. apply elem_of_app. by left.
  - cbn. intros y [-> | Hy]%list.elem_of_cons; [by intros n; cbn; rewrite lookup_insert_eq; intros [= <-]|].
    pose proof (places_hand a y) as Hp. specialize (I4 y Hy). unfold hand_ok in *; cbn in *.
    destruct y; try done;
      (assert (w <> w0) by (intros ->; apply Hw, Hp; [done|by left])); by rewrite lookup_insert_ne.
  - cbn. intros w' Hw'. destruct (I6 w' Hw') as (n & H & Hx). exists n. split; [|done].
    rewrite lookup_insert_ne; [done|congruence].
Qed.

Lemma hand_ok_ne a w f x : w ∉ hand_node x -> hand_ok a x -> hand_ok (upd_node w f a) x.
Proof.
  unfold hand_ok; cbn. destruct x; cbn; try done; intros Hw;
    (rewrite lookup_alter_ne by (intros ->; apply Hw; by left)); done.
Qed.

Lemma hand_ok_alter a w f x :
  (forall n, queued (f n) = queued n) -> (forall n, cancelled n = true -> cancelled (f n) = true) ->
  hand_ok a x -> hand_ok (upd_node w f a) x.
Proof.
  intros Hq Hc. unfold hand_ok; cbn.
  assert (E : forall w' n, alter f w (nodes a) !! w' = Some n -> exists n', nodes a !! w' = Some n'
    /\ queued n = queued n' /\ (cancelled n' = true -> cancelled n = true)).
  { intros w' n. rewrite lookup_alter_Some. intros [(<- & n' & H & ->)|[_ H]]; eauto 10. }
  destruct x; try done.
  all: try (intros H n Hn; destruct (E _ _ Hn) as (n' & Hn' & -> & _); by apply H).
  all: intros [H1 H2]; split; [done|]; intros n Hn; destruct (E _ _ Hn) as (n' & Hn' & -> & Hx);
    naive_solver.
Qed.

(** A flag of a waiter changes. *)
Lemma mem_inv_alter a w f :
  (forall n, queued (f n) = queued n) -> (forall n, cancelled n = true -> cancelled (f n) = true) ->
  mem_inv a -> mem_inv (upd_node w f a).
Proof.
  intros Hq Hc [I1 I2 I3 I4 I5 I6]. split; try done; cbn.
  - intros w'. rewrite lookup_alter_is_Some. apply I2.
  - intros w' n Hw'. rewrite lookup_alter_Some. intros [(<- & n' & H & ->)|[_ H]]; [rewrite Hq|]; by eapply I3.
  - intros x Hx. by apply hand_ok_alter; [..|apply I4].
  - intros w' Hw'. destruct (I6 w' Hw') as (n & H & Hx). destruct (decide (w = w')) as [->|Hne].
    + exists (f n). rewrite lookup_alter_eq, H. auto.
    + exists n. by rewrite lookup_alter_ne.
Qed.

(** A waiter is put in the list. *)
Lemma mem_inv_queue a w :
  mem_inv (add_hand (parking w) a) -> mem_inv (set_waiters (waiters_ a ++ [w]) (upd_node w set_queued a)).
Proof.
  intros I. pose proof (hand_only a _ w I eq_refl) as Hw. destruct I as [I1 I2 I3 I4 I5 I6].
  set (a' := set_waiters _ _). assert (P : places a' ≡ₚ places (add_hand (parking w) a)).
  { unfold places; cbn. solve_Permutation. }
  split; try done; [by rewrite P|..].
  - intros w'. rewrite P, I2. cbn. by rewrite lookup_alter_is_Some.
  - cbn. intros w' n Hw'. rewrite lookup_alter_Some. intros [(<- & n' & H & ->)|[Hne H]]; [done|].
    apply elem_of_app in Hw' as [Hw'|Hw'%list_elem_of_singleton]; [by eapply I3|done].
  - cbn. intros x Hx. eapply (hand_ok_frame (upd_node w set_queued a)); [done..|].
    apply hand_ok_ne; [intros Hn; by apply Hw, (places_hand a x)|].
    eapply hand_ok_frame; [..|apply I4; cbn; right; exact Hx]; done.
  - cbn. intros w' Hw'. destruct (I6 w' Hw') as (n & H & Hx). cbn in H. destruct (decide (w = w')) as [->|Hne].
    + exists (set_queued n). by rewrite lookup_alter_eq, H.
    + exists n. by rewrite lookup_alter_ne.
Qed.

(** The first waiter is taken out of the list. *)
Lemma mem_inv_pop a w rest x :
  mem_inv a -> waiters_ a = w :: rest -> hand_node x = [w] -> hand_ok a x ->
  mem_inv (add_hand x (set_waiters rest a)).
Proof.
  intros [I1 I2 I3 I4 I5 I6] E Ex Hx. set (a' := add_hand _ _). assert (P : places a' ≡ₚ places a).
  { unfold places; cbn. rewrite E, Ex. solve_Permutation. }
  split; try done; [by rewrite P|intros w'; rewrite P; apply I2|..]; cbn.
  - intros w' n Hw'. apply I3. rewrite E. by right.
  - intros y [-> | Hy]%list.elem_of_cons; [eapply hand_ok_frame; [..|exact Hx]; done|].
    eapply hand_ok_frame; [..|by apply I4]; done.
Qed.

Lemma draining_nodes l : flat_map hand_node (map draining l) = l.
Proof. induction l as [|w l IH]; cbn; [done|by rewrite IH]. Qed.

(** All waiters are taken out of the list of an acceptor that is closing. *)
Lemma mem_inv_drain a :
  mem_inv a -> mem_inv (drain_waiters_only a).
Proof.
  intros [I1 I2 I3 I4 I5 I6].
  assert (P : places (drain_waiters_only a) ≡ₚ places a).
  { unfold places; cbn. by rewrite flat_map_app, draining_nodes. }
  split; try done; [by rewrite P|intros w'; rewrite P; apply I2|by intros ? ? ?%not_elem_of_nil|]. cbn.
  intros x [(w & -> & Hw)%list_elem_of_fmap|Hx]%elem_of_app.
  - split; [done|]. intros n Hn. by eapply I3.
  - specialize (I4 x Hx). unfold hand_ok in *; cbn. destruct x; try done. by split; [|apply I4].
Qed.

(** A canceller wins the exchange. *)
Lemma mem_inv_canceller a w n : nodes a !! w = Some n -> mem_inv a -> mem_inv (canceller w n a).
Proof.
  intros Hn I. unfold canceller. destruct (cancelled n) eqn:Ec; [done|].
  assert (I' : mem_inv (upd_node w set_cancelled a)) by (by apply mem_inv_alter).
  assert (Hw : w ∉ callbacks a) by (intros (n' & Hn' & ?)%(m_callbacks a I); congruence).
  split; try apply I'; cbn.
  - intros x Hx. pose proof (m_hands _ I x Hx) as Hy. pose proof (m_hands _ I' x Hx) as Hz.
    unfold hand_ok in *; cbn in *. destruct x; try done; destruct Hy as [Hy1 Hy2], Hz as [_ Hz]; (split; [|done]).
    all: rewrite list.elem_of_cons; intros [<- | ?]; [|done]; destruct (Hy2 n Hn); congruence.
  - apply list.NoDup_cons. split; [done|apply I].
  - intros w' [-> | Hw']%list.elem_of_cons; [|by apply (m_callbacks _ I')].
    exists (set_cancelled n). by rewrite lookup_alter_eq, Hn.
Qed.

Lemma mem_inv_returned a u w v :
  callbacks a = u ++ w :: v -> mem_inv a -> mem_inv (set_callbacks (u ++ v) a) /\ w ∉ u ++ v.
Proof.
  intros E [I1 I2 I3 I4 I5 I6]. rewrite E in I5. rewrite <- Permutation_middle in I5.
  apply list.NoDup_cons in I5 as [Hw I5]. split; [|done].
  assert (Hs : forall x, x ∈ u ++ v -> x ∈ callbacks a) by (rewrite E; set_solver).
  split; try done; cbn.
  - intros x Hx. specialize (I4 x Hx). unfold hand_ok in *; cbn. destruct x; naive_solver.
  - intros w' Hw'. by apply I6, Hs.
Qed.

(** A waiter whose canceller has won is in the list if it is queued and the
    acceptor is not closing. *)
Lemma mem_inv_listed a w n :
  mem_inv a -> w ∈ callbacks a -> nodes a !! w = Some n -> queued n = true -> closing_ a = false ->
  w ∈ waiters_ a.
Proof.
  intros I Hc Hn Hq Hcl. assert (Hp : w ∈ places a) by (apply (m_alive a I); by eexists).
  apply elem_of_app in Hp as [Hp|Hp]; [done|]. apply list_elem_of_In, in_flat_map in Hp as (x & Hx & Hp).
  apply list_elem_of_In in Hx, Hp. pose proof (m_hands a I x Hx) as H. unfold hand_ok in H.
  destruct x; cbn in Hp; try (by apply not_elem_of_nil in Hp); apply list_elem_of_singleton in Hp as <-;
    try (by rewrite (H n Hn) in Hq); destruct H; try done; congruence.
Qed.

Lemma filter_remove (w : nat) l : NoDup l -> w ∈ l -> l ≡ₚ w :: filter (fun x => x <> w) l.
Proof.
  intros N H. apply NoDup_Permutation; [done| |].
  - apply list.NoDup_cons. split; [|by apply list.NoDup_filter]. rewrite list_elem_of_filter. by intros [? _].
  - intros x. rewrite list.elem_of_cons, list_elem_of_filter. destruct (decide (x = w)) as [->|]; naive_solver.
Qed.

(** [cancel_waiter] *)
Lemma mem_inv_cancel a u w v n :
  callbacks a = u ++ w :: v -> nodes a !! w = Some n -> mem_inv a ->
  mem_inv (cancel_waiter w n (set_callbacks (u ++ v) a)).
Proof.
  intros E Hn I. destruct (mem_inv_returned a u w v E I) as [I' Hw]. unfold cancel_waiter; cbn.
  destruct (closing_ a) eqn:Ecl; [done|]. destruct (queued n) eqn:Eq; cbn; [|done].
  assert (Hc : w ∈ callbacks a) by (rewrite E; set_solver).
  pose proof (mem_inv_listed a w n I Hc Hn Eq Ecl) as Hl.
  destruct (m_callbacks a I w Hc) as (n' & Hn' & Hcan). assert (n' = n) as -> by congruence.
  destruct I' as [I1 I2 I3 I4 I5 I6]. set (b := set_callbacks _ _) in *.
  set (c := add_hand _ _). assert (P : places c ≡ₚ places b).
  { unfold places; cbn. rewrite (filter_remove w (waiters_ a)) at 2; [cbn; solve_Permutation| |done].
    by apply list.NoDup_app in I1 as (? & _ & _). }
  split; try done; [by rewrite P|intros w'; rewrite P; apply I2|..]; cbn.
  - intros w' n' [_ Hw']%list_elem_of_filter. by apply I3.
  - intros x [-> | Hx]%list.elem_of_cons; [|eapply hand_ok_frame; [..|by apply I4]; done].
    split; [done|]. cbn. intros n' Hn''. assert (n' = n) as -> by congruence. done.
Qed.

Lemma mem_inv_park_fd fd a : mem_inv a -> mem_inv (park_fd fd a).
Proof. unfold park_fd. destruct (0 <=? fd); [|done]. by apply mem_inv_frame. Qed.

Lemma mem_inv_close_fd fd a : mem_inv a -> mem_inv (close_fd fd a).
Proof. unfold close_fd. destruct (0 <=? fd); [|done]. by apply mem_inv_frame. Qed.

(** [on_accept_cqe_impl] *)
Lemma mem_inv_match fd err is_more a : mem_inv a -> mem_inv (match_cqe fd err is_more a).
Proof.
  intros I. unfold match_cqe. destruct (closing_ a) eqn:Ecl.
  - destruct is_more; [by apply mem_inv_close_fd|]. pose proof (mem_inv_close_fd fd a I) as I'.
    apply mem_inv_drain in I'. revert I'. apply mem_inv_frame; try done. unfold close_fd.
    by destruct (0 <=? fd).
  - destruct (waiters_ a) as [|w rest] eqn:Ew; [by apply mem_inv_park_fd|].
    destruct (nodes a !! w) as [n|] eqn:Hn; [|done]. destruct (cancelled n) eqn:Ec; [by apply mem_inv_park_fd|].
    apply (mem_inv_pop (upd_node w set_cancelled a) w); [by apply mem_inv_alter|done|done|].
    assert (Hw : w ∉ callbacks a) by (intros (n' & Hn' & ?)%(m_callbacks a I); congruence).
    split; [done|]. cbn. intros n'. rewrite lookup_alter_eq, Hn. intros [= <-]. cbn. split; [|done].
    eapply (m_queued a I); [rewrite Ew; by left|done].
Qed.

Lemma mem_inv_cqe e a : mem_inv a -> mem_inv (on_accept_cqe e a).
Proof.
  intros I. unfold on_accept_cqe. set (a' := match_cqe _ _ _ _).
  assert (I' : mem_inv a') by (by apply mem_inv_match).
  destruct (negb (more e) && negb (closing_ a)); [|done]. revert I'. by apply mem_inv_frame.
Qed.

(** [callbacks] that are running keep their waiters. *)
Lemma mem_inv_complete a x w n r :
  mem_inv (add_hand x a) -> hand_node x = [w] -> w ∉ callbacks a -> mem_inv (complete w n r a).
Proof.
  intros I E Hc. apply (mem_inv_frame (set_nodes (delete w (nodes a)) a)); try done.
  by apply (mem_inv_delete a x).
Qed.

Lemma mem_inv_hand a x a' : hand_step a x a' -> mem_inv (add_hand x a) -> mem_inv a'.
Proof.
  intros S I. pose proof (m_hands _ I x (list_elem_of_here _ _)) as Hx. destruct S; unfold idle in *.
  - apply mem_inv_drop in I; [|done]. unfold take_ready. destruct (ready_fds_ a) as [|[fd peer] rest].
    + by eapply mem_inv_new.
    + revert I. by apply mem_inv_frame.
  - unfold arm_stop_cb. apply (mem_inv_rename _ (arming w)); try done; destruct possible; try done.
    + change (add_hand (arming w) (upd_node w ?f a)) with (upd_node w f (add_hand (arming w) a)).
      apply mem_inv_alter; [by intros; destruct stopped..|done].
    + apply hand_ok_alter; [by intros; destruct stopped..|done].
  - unfold park. destruct (cancelled n); [by apply (mem_inv_rename _ (parking w))|].
    destruct (ready_fds_ a) as [|[fd peer] rest].
    + apply mem_inv_queue in I. revert I. by apply mem_inv_frame.
    + apply (mem_inv_rename _ (parking w)) with (y := giving w fd peer) in I; [|done..].
      revert I. by apply mem_inv_frame.
  - by apply (mem_inv_complete a (aborting w)).
  - by apply (mem_inv_complete a (giving w fd peer)).
  - eapply mem_inv_frame; [..|by apply (mem_inv_complete a (draining w) w n aborted)]; done.
  - eapply mem_inv_frame; [..|by apply (mem_inv_complete a (matching w fd err) w n (match_result fd err a))]; done.
  - eapply mem_inv_frame; [..|apply (mem_inv_complete a (removing w) w n aborted)]; try done. apply Hx.
Qed.

Lemma mem_inv_step a a' : step a a' -> mem_inv a -> mem_inv a'.
Proof.
  intros S I. destruct S.
  - destruct r; (try by revert I; apply mem_inv_frame). destruct I as [I1 I2 I3 I4 I5 I6].
    split; try done. cbn. intros x [-> | Hx]%list.elem_of_cons; [done|]. eapply hand_ok_frame; [..|by apply I4]; done.
  - eapply mem_inv_hand; [done|]. by apply mem_inv_take.
  - by apply mem_inv_canceller.
  - by apply mem_inv_cancel.
  - by apply mem_inv_drain.
  - revert I. by apply mem_inv_frame.
  - revert I. unfold rearm; cbn. destruct (closing_ a) eqn:E; by apply mem_inv_frame.
  - apply mem_inv_cqe. revert I. by apply mem_inv_frame.
  - revert I. by apply mem_inv_frame.
  - revert I. by apply mem_inv_frame.
  - revert I. by apply mem_inv_frame.
  - revert I. by apply mem_inv_frame.
  - destruct I as [I1 I2 I3 I4 I5 I6]. split; try done. cbn. intros x Hx. specialize (I4 x Hx).
    unfold hand_ok in *; cbn. destruct x; naive_solver.
Qed.
