(* ===== verification/UringAcceptorClaims.v ===== *)
(** The contract of the multishot acceptor: every accept completes once, every
    connection has one owner, work is balanced and waiters are not used after they
    are deleted; and runs that show where the acceptor falls short of its
    documentation. *)

From stdpp Require Import gmap relations list_tactics.
From S2P Require Import Prelude UringAcceptor.
Import multishot_acceptor.

(** * Accepts, connections and work *)

Definition hand_co (x : hand) : list nat :=
  match x with
  | calling co => [co]
  | _ => []
  end.

Definition result_fd (r : result) : list Z :=
  match r with
  | accepted fd _ => [fd]
  | _ => []
  end.

Definition hand_fd (x : hand) : list Z :=
  match x with
  | giving _ fd _ => [fd]
  | matching _ fd err => if err =? 0 then [fd] else []
  | _ => []
  end.

(** Waiters that have been queued hold a unit of work. *)
Definition hand_work (x : hand) : Z :=
  match x with
  | draining _ | matching _ _ _ | removing _ => 1
  | _ => 0
  end.

Definition cqe_fd (e : cqe) : list Z := if 0 <=? res e then [res e] else [].
Definition node_hs (m : gmap nat waiter_node) : list nat := map (fun p => h p.2) (map_to_list m).

Definition op_fds (l : list accept_op) : list Z := flat_map (fun o => result_fd (op_result o)) l.

(** Where an accept is that was not destroyed: being called, waiting, posted or
    reported. *)
Definition places_of_accepts (a : acceptor) : list nat :=
  flat_map hand_co (hands a) ++ node_hs (nodes a) ++ map op_h (posted a ++ resumed a).

(** Who owns a connection: the completion queue, the list of parked connections, a
    thread that gives it to an accept, a posted accept, the coroutine it was reported
    to; or it is closed. *)
Definition owners (a : acceptor) : list Z :=
  flat_map cqe_fd (cqes a) ++ map fst (ready_fds_ a) ++ flat_map hand_fd (hands a)
  ++ op_fds (posted a ++ resumed a) ++ closed a.

(** The accepts that were destroyed, and their connections, which nobody owns. *)
Definition destroyed (a : acceptor) : list nat := map op_h (dropped a).
Definition leaked (a : acceptor) : list Z := op_fds (dropped a).

(** All accepts and all connections, as the steps move them. *)
Definition ops (a : acceptor) : list accept_op := posted a ++ resumed a ++ dropped a.
Definition coros (a : acceptor) : list nat :=
  flat_map hand_co (hands a) ++ node_hs (nodes a) ++ map op_h (ops a).
Definition fds (a : acceptor) : list Z :=
  flat_map cqe_fd (cqes a) ++ map fst (ready_fds_ a) ++ flat_map hand_fd (hands a)
  ++ op_fds (ops a) ++ closed a.

Lemma coros_split a : coros a ≡ₚ places_of_accepts a ++ destroyed a.
Proof. unfold coros, places_of_accepts, destroyed, ops. rewrite !map_app. solve_Permutation. Qed.

Lemma fds_split a : fds a ≡ₚ owners a ++ leaked a.
Proof. unfold fds, owners, leaked, ops, op_fds. rewrite !flat_map_app. solve_Permutation. Qed.

(** The units of work: of the posted accepts, of the waiters that are queued or being
    completed, and of the accepts that were destroyed. *)
Definition units (a : acceptor) : Z :=
  Z.of_nat (length (posted a)) + Z.of_nat (length (waiters_ a)) + zsum hand_work (hands a)
  + Z.of_nat (length (dropped a)).

Record flow_inv (a : acceptor) : Prop := {
  f_started : NoDup (started a);
  f_coros : started a ≡ₚ coros a;
  f_born : NoDup (born a);
  f_fds : born a ≡ₚ fds a;
  f_work : work a = units a
}.

(** A step that moves them. *)
Record same_flow (a a' : acceptor) : Prop := {
  e_coros : coros a' ≡ₚ coros a;
  e_fds : fds a' ≡ₚ fds a;
  e_work : units a' - work a' = units a - work a;
  e_started : started a' = started a;
  e_born : born a' = born a
}.

Lemma flow_inv_same a a' : same_flow a a' -> flow_inv a -> flow_inv a'.
Proof.
  intros [E1 E2 E3 E4 E5] [F1 F2 F3 F4 F5]. split; rewrite ?E4, ?E5, ?E1, ?E2; try done. lia.
Qed.

Lemma flow_inv_initial : flow_inv initial.
Proof. split; cbn; try done; by apply list.NoDup_nil. Qed.

Lemma node_hs_insert m w n : m !! w = None -> node_hs (<[w := n]> m) ≡ₚ h n :: node_hs m.
Proof. intros H. unfold node_hs. by rewrite map_to_list_insert. Qed.

Lemma node_hs_delete m w n : m !! w = Some n -> h n :: node_hs (delete w m) ≡ₚ node_hs m.
Proof. intros H. unfold node_hs. by rewrite <- (map_to_list_delete m w n H). Qed.

Lemma node_hs_alter m w f : (forall n, h (f n) = h n) -> node_hs (alter f w m) ≡ₚ node_hs m.
Proof.
  intros Hf. destruct (m !! w) as [n|] eqn:E.
  - rewrite <- (node_hs_delete m w n E), <- (node_hs_delete (alter f w m) w (f n)) by
      (by rewrite lookup_alter_eq, E). by rewrite Hf, delete_alter_eq.
  - by rewrite alter_id by (intros n; congruence).
Qed.

Lemma acceptor_flow_take a u x v : hands a = u ++ x :: v -> same_flow a (add_hand x (set_hands (u ++ v) a)).
Proof.
  intros E. split; try done; unfold coros, fds, units, ops, op_fds; cbn; rewrite E, ?flat_map_app, ?zsum_app; cbn.
  - solve_Permutation.
  - solve_Permutation.
  - lia.
Qed.

(** Unfold the lists and sort them. *)
Ltac flow :=
  unfold coros, fds, units, ops, op_fds; cbn;
  rewrite ?map_app, ?flat_map_app, ?zsum_app, ?length_app; cbn; rewrite ?app_nil_r;
  first [lia | solve_Permutation].

(** The end of a waiter; [b] tells whether it gives back its unit of work. *)
Lemma flow_complete a x w n r (b : bool) :
  nodes a !! w = Some n -> hand_co x = [] -> hand_fd x = result_fd r -> hand_work x = b2z b ->
  same_flow (add_hand x a) (if b then work_finished (complete w n r a) else complete w n r a).
Proof.
  intros Hn E1 E2 E3. destruct b; (split; [| | |done|done]).
  all: unfold coros, fds, units, ops, op_fds; cbn; rewrite ?E1, ?E2, ?E3; cbn.
  all: try rewrite <- (node_hs_delete (nodes a) w n Hn).
  all: flow.
Qed.

(** Steps that take in the connections [l]. *)
Record takes_in (l : list Z) (a a' : acceptor) : Prop := {
  t_coros : coros a' ≡ₚ coros a;
  t_fds : fds a' ≡ₚ l ++ fds a;
  t_work : units a' - work a' = units a - work a;
  t_started : started a' = started a;
  t_born : born a' = born a
}.

Definition fd_list (fd : Z) : list Z := if 0 <=? fd then [fd] else [].

Lemma flow_park_fd fd a : takes_in (fd_list fd) a (park_fd fd a).
Proof. unfold park_fd, fd_list. destruct (0 <=? fd); split; try done; flow. Qed.

Lemma flow_close_fd fd a : takes_in (fd_list fd) a (close_fd fd a).
Proof. unfold close_fd, fd_list. destruct (0 <=? fd); split; try done; flow. Qed.

Lemma draining_cos l : flat_map hand_co (map draining l) = [].
Proof. by induction l. Qed.
Lemma draining_fds l : flat_map hand_fd (map draining l) = [].
Proof. by induction l. Qed.
Lemma draining_work l : zsum hand_work (map draining l) = Z.of_nat (length l).
Proof. induction l as [|w l IH]; cbn -[Z.of_nat]; [done|]. rewrite IH. lia. Qed.

(** The waiters are taken out of the list to be aborted. *)
Lemma flow_drain a b :
  same_flow a (set_waiters [] (set_hands (map draining (waiters_ a) ++ hands a) (set_closing b a))).
Proof.
  split; try done; unfold coros, fds, units; cbn -[Z.of_nat];
    rewrite ?flat_map_app, ?zsum_app, ?draining_cos, ?draining_fds, ?draining_work; [done| |lia].
  by unfold ops, op_fds; rewrite !flat_map_app.
Qed.

Lemma flow_match fd err is_more a :
  mem_inv a -> (if 0 <=? fd then err = 0 else err <> 0) ->
  takes_in (fd_list fd) a (match_cqe fd err is_more a).
Proof.
  intros I He. unfold match_cqe. destruct (closing_ a) eqn:Ecl.
  - destruct (flow_close_fd fd a) as [F1 F2 F3 F4 F5]. destruct is_more; [done|].
    destruct (flow_drain (close_fd fd a) true) as [G1 G2 G3 G4 G5].
    split; [by rewrite <- F1, <- G1|by rewrite <- F2, <- G2| |done..].
    rewrite <- F3, <- G3. done.
  - destruct (waiters_ a) as [|w rest] eqn:Ew; [apply flow_park_fd|].
    destruct (nodes a !! w) as [n|] eqn:Hn.
    2: { exfalso. assert (Hw : w ∈ places a) by (unfold places; rewrite Ew; by left).
         apply (m_alive a I) in Hw as [? ?]. congruence. }
    destruct (cancelled n); [apply flow_park_fd|].
    split; try done; unfold coros, fds, units, ops, op_fds, fd_list; cbn; rewrite ?Ew; cbn -[Z.of_nat].
    + by rewrite node_hs_alter.
    + destruct (0 <=? fd); [subst err; cbn; solve_Permutation|].
      destruct (Z.eqb_spec err 0); [done|]. cbn. solve_Permutation.
    + lia.
Qed.

Lemma flow_cqe a e rest :
  mem_inv a -> cqes a = e :: rest ->
  same_flow a (on_accept_cqe e (set_kernel (multishot a) rest (peer_storage a) a)).
Proof.
  intros I E. unfold on_accept_cqe. set (b := set_kernel _ _ _ _).
  set (fd := if 0 <=? res e then res e else -1). set (err := if res e <? 0 then - res e else 0).
  assert (Hfd : fd_list fd = cqe_fd e).
  { unfold fd_list, cqe_fd, fd. destruct (0 <=? res e) eqn:Er; [by rewrite Er|done]. }
  assert (T : takes_in (fd_list fd) b (match_cqe fd err (more e) b)).
  { apply flow_match; [revert I; by apply mem_inv_frame|]. unfold fd, err.
    destruct (Z.leb_spec 0 (res e)) as [Hr|Hr].
    - rewrite (proj2 (Z.leb_le 0 (res e)) Hr). by rewrite (proj2 (Z.ltb_ge (res e) 0) Hr).
    - cbn. rewrite (proj2 (Z.ltb_lt (res e) 0) Hr). lia. }
  destruct T as [T1 T2 T3 T4 T5].
  assert (S : same_flow a (match_cqe fd err (more e) b)).
  { split; [by rewrite T1|rewrite T2, Hfd| |by rewrite T4|by rewrite T5].
    - unfold fds, ops, op_fds; cbn. rewrite E. cbn. solve_Permutation.
    - by rewrite T3. }
  destruct (negb (more e) && negb (closing_ b)); [|done]. by destruct S.
Qed.

Lemma flow_hand a x a' : hand_step a x a' -> same_flow (add_hand x a) a'.
Proof.
  intros S. destruct S.
  - unfold take_ready. destruct (ready_fds_ a) as [|[fd peer] rest] eqn:Er; (split; try done).
    + unfold coros, ops; cbn. rewrite node_hs_insert by done. cbn. solve_Permutation.
    + flow.
    + unfold fds, ops, op_fds; cbn. rewrite Er. flow.
    + flow.
  - unfold arm_stop_cb. destruct possible; (split; try done).
    unfold coros; cbn. rewrite node_hs_alter; [done|]. by intros; destruct stopped.
  - unfold park. destruct (cancelled n); [by split|].
    destruct (ready_fds_ a) as [|[fd peer] rest] eqn:Er; (split; try done).
    + unfold coros; cbn. by rewrite node_hs_alter.
    + unfold units; cbn -[Z.of_nat]. rewrite length_app. cbn -[Z.of_nat]. lia.
    + unfold fds, ops, op_fds; cbn. rewrite Er. flow.
  - by apply (flow_complete a (aborting w) w n aborted false).
  - by apply (flow_complete a (giving w fd peer) w n (accepted fd peer) false).
  - by apply (flow_complete a (draining w) w n aborted true).
  - apply (flow_complete a (matching w fd err) w n (match_result fd err a) true); try done.
    unfold match_result; cbn. by destruct (err =? 0).
  - by apply (flow_complete a (removing w) w n aborted true).
Qed.

Lemma flow_cancel a u w v n :
  callbacks a = u ++ w :: v -> nodes a !! w = Some n -> mem_inv a ->
  same_flow a (cancel_waiter w n (set_callbacks (u ++ v) a)).
Proof.
  intros E Hn I. unfold cancel_waiter; cbn. destruct (closing_ a) eqn:Ecl; [done|].
  destruct (queued n) eqn:Eq; [|done]. cbn. split; try done. unfold units; cbn -[Z.of_nat].
  assert (Hl : w ∈ waiters_ a) by (eapply mem_inv_listed; [done|rewrite E; set_solver|done..]).
  pose proof (m_nodup a I) as N. apply list.NoDup_app in N as (N & _ & _).
  pose proof (Permutation_length (filter_remove w (waiters_ a) N Hl)) as L. cbn in L. lia.
Qed.

Lemma flow_inv_step a a' : step a a' -> mem_inv a -> flow_inv a -> flow_inv a'.
Proof.
  intros S I F. destruct S.
  - destruct F as [F1 F2 F3 F4 F5]. unfold units in F5.
    assert (N : NoDup (started a ++ [co])).
    { rewrite <- Permutation_cons_append. by apply list.NoDup_cons. }
    destruct r as [fd peer| |errn]; cbn; split; cbn; try done; try (rewrite F2; flow); try (rewrite F4; flow);
      try (rewrite F5; unfold units; cbn -[Z.of_nat]; rewrite ?length_app; cbn -[Z.of_nat]; lia).
    rewrite <- Permutation_cons_append. apply list.NoDup_cons. split; [|done]. by apply (H0 fd peer).
  - revert F. apply flow_inv_same. destruct (acceptor_flow_take a u x v H) as [E1 E2 E3 E4 E5].
    destruct (flow_hand _ x a' H0) as [G1 G2 G3 G4 G5].
    split; [by rewrite G1|by rewrite G2|by rewrite G3|by rewrite G4|by rewrite G5].
  - revert F. apply flow_inv_same. unfold canceller. destruct (cancelled n); [done|]. split; try done.
    unfold coros; cbn. by rewrite node_hs_alter.
  - revert F. by apply flow_inv_same, flow_cancel.
  - revert F. apply flow_inv_same, flow_drain.
  - by destruct F.
  - unfold rearm; cbn. by destruct F, (closing_ a).
  - revert F. by apply flow_inv_same, flow_cqe.
  - destruct F as [F1 F2 F3 F4 F5]. split; cbn; try done.
    + rewrite <- Permutation_cons_append. by apply list.NoDup_cons.
    + assert (Ec : cqe_fd (mk_cqe fd is_more) = [fd]) by (unfold cqe_fd; cbn; by rewrite (proj2 (Z.leb_le 0 fd) H0)).
      rewrite F4. unfold fds, ops, op_fds; cbn -[cqe_fd]. rewrite !flat_map_app. cbn -[cqe_fd]. rewrite Ec. flow.
  - assert (Ec : cqe_fd (mk_cqe (- err) is_more) = []).
    { unfold cqe_fd; cbn. by rewrite (proj2 (Z.leb_gt 0 (- err))) by lia. }
    revert F. apply flow_inv_same. split; try done. unfold fds, ops, op_fds; cbn -[cqe_fd].
    rewrite !flat_map_app. cbn -[cqe_fd]. rewrite Ec. flow.
  - revert F. apply flow_inv_same. split; try done; unfold coros, fds, units, ops, op_fds; cbn -[Z.of_nat]; rewrite H; flow.
  - revert F. apply flow_inv_same. split; try done; unfold coros, fds, units, ops, op_fds; cbn -[Z.of_nat]; rewrite H; flow.
  - revert F. apply flow_inv_same. split; try done. flow.
Qed.

Lemma acceptor_inv_reachable a : reachable a -> mem_inv a /\ flow_inv a.
Proof.
  unfold reachable. revert a. apply rtc_ind_r; [split; [apply mem_inv_initial|apply flow_inv_initial]|].
  intros a a' _ S [I F]. split; [by eapply mem_inv_step|by eapply flow_inv_step].
Qed.

(** * Claims *)

(** C28: no accept is lost or completed twice, and no connection has two owners.
    Every accept that was started is in exactly one place: being called, waiting,
    completed and queued, or reported to its coroutine; only an accept that the
    scheduler destroys in its shutdown, instead of running it, leaves these places
    without being reported.  Every connection that was accepted has exactly one owner:
    the completion queue, the parked connections, a thread that is giving it to an
    accept, or a completed accept, unless it has been closed; only the connection of
    an accept that is destroyed is left without an owner, and leaks.  The acceptor
    holds a unit of work for each queued waiter, each completed accept and each
    destroyed one. *)
Theorem uring_acceptor_conserves a :
  reachable a ->
  started a ≡ₚ places_of_accepts a ++ destroyed a
  /\ NoDup (places_of_accepts a ++ destroyed a)
  /\ born a ≡ₚ owners a ++ leaked a
  /\ NoDup (owners a ++ leaked a)
  /\ work a = units a.
Proof.
  intros R. destruct (acceptor_inv_reachable a R) as [_ [F1 F2 F3 F4 F5]].
  rewrite coros_split in F2. rewrite fds_split in F4.
  split; [done|]. split; [by rewrite <- F2|]. split; [done|]. split; [by rewrite <- F4|done].
Qed.

(** C29: a waiter is deleted once and not used after: it exists exactly while it is in
    the list of waiters or in the hands of one thread, and a canceller that is running
    keeps it. *)
Theorem uring_waiters_safe a :
  reachable a ->
  NoDup (places a) /\ (forall w, w ∈ places a <-> is_Some (nodes a !! w))
  /\ (forall w, w ∈ callbacks a -> is_Some (nodes a !! w)).
Proof.
  intros R. destruct (acceptor_inv_reachable a R) as [[I1 I2 _ _ _ I6] _].
  split; [done|]. split; [done|]. intros w (n & Hn & _)%I6. by eexists.
Qed.

(** * Runs *)

Lemma reach_acceptor a a' : reachable a -> step a a' -> reachable a'.
Proof. intros R S. by eapply rtc_r. Qed.

(** Go on with the only hand. *)
Ltac by_hand R x c := eapply reach_acceptor in R; [|eapply (s_hand _ [] x []); [reflexivity|c]]; vm_compute in R.
Ltac by_step R c := eapply reach_acceptor in R; [|c]; vm_compute in R.

(** The coroutine [co] accepts and waits as [w], with a stop token. *)
Ltac wait_run R co w :=
  by_step R ltac:(apply (s_accept _ co again); [set_solver|done]);
  by_hand R (calling co) ltac:(apply (hs_calling _ co w); reflexivity);
  by_hand R (arming w) ltac:(apply (hs_arming _ w true false));
  by_hand R (parking w) ltac:(eapply (hs_parking _ w); reflexivity).

(** A connection arrives while the first waiter is being cancelled: it is parked,
    and the second waiter goes on waiting. *)
Lemma uring_waiter_stranded :
  exists a, reachable a /\ ready_fds_ a = [(7, 99)] /\ waiters_ a = [2%nat] /\ hands a = []
    /\ callbacks a = [] /\ cqes a = [] /\ posted a = [].
Proof.
  assert (R : reachable initial) by apply rtc_refl.
  by_step R ltac:(apply s_listen). wait_run R 10%nat 1%nat. wait_run R 20%nat 2%nat.
  by_step R ltac:(eapply (s_stop _ 1); reflexivity).
  by_step R ltac:(apply (s_kernel_accept _ 7 99 true); [done|done|set_solver]).
  by_step R ltac:(eapply s_cqe; reflexivity).
  by_step R ltac:(eapply (s_cancel _ [] 1 []); reflexivity).
  by_hand R (removing 1) ltac:(eapply (hs_removing _ 1); reflexivity).
  by_step R ltac:(eapply s_run; reflexivity).
  eexists. split; [exact R|]. done.
Qed.

(** After [cancel] the acceptor stays closing: a later accept waits although the
    kernel no longer accepts for it, and its stop token does not complete it. *)
Lemma uring_accept_after_cancel :
  exists a n, reachable a /\ closing_ a = true /\ waiters_ a = [1%nat] /\ nodes a !! 1%nat = Some n
    /\ cancelled n = true /\ hands a = [] /\ callbacks a = [] /\ cqes a = [] /\ multishot a = false
    /\ rearms a = 0%nat.
Proof.
  assert (R : reachable initial) by apply rtc_refl.
  by_step R ltac:(apply s_listen). by_step R ltac:(apply s_drain).
  by_step R ltac:(apply (s_kernel_error _ 125 false); [done|lia]).
  by_step R ltac:(eapply s_cqe; reflexivity).
  wait_run R 10%nat 1%nat. by_step R ltac:(eapply (s_stop _ 1); reflexivity).
  by_step R ltac:(eapply (s_cancel _ [] 1 []); reflexivity).
  eexists _, _. split; [exact R|]. do 2 (split; [reflexivity|]). split; [reflexivity|]. done.
Qed.

(** The kernel writes every peer to the same place: a connection that is handled
    after another has arrived is reported with the peer of the other. *)
Lemma uring_peer_overwritten :
  exists a, reachable a /\ born a = [7; 8] /\ ready_fds_ a = [(7, 200)] /\ cqes a = [mk_cqe 8 true].
Proof.
  assert (R : reachable initial) by apply rtc_refl.
  by_step R ltac:(apply s_listen).
  by_step R ltac:(apply (s_kernel_accept _ 7 100 true); [done|done|set_solver]).
  by_step R ltac:(apply (s_kernel_accept _ 8 200 true); [done|done|set_solver]).
  by_step R ltac:(eapply s_cqe; reflexivity).
  eexists. split; [exact R|]. done.
Qed.

(** Two accepts wait, a connection is given to the first. *)
Definition matched_run : acceptor :=
  mk_acceptor false [] [2%nat] {[2%nat := mk_waiter 20 false true true]} [] [] true [] 99 0 []
    1 [mk_op 10 (accepted 7 99)] [] [] [10; 20]%nat [7].

Lemma matched_reachable : reachable matched_run.
Proof.
  assert (R : reachable initial) by apply rtc_refl.
  by_step R ltac:(apply s_listen). wait_run R 10%nat 1%nat. wait_run R 20%nat 2%nat.
  by_step R ltac:(apply (s_kernel_accept _ 7 99 true); [done|done|set_solver]).
  by_step R ltac:(eapply s_cqe; reflexivity).
  by_hand R (matching 1 7 0) ltac:(eapply (hs_matching _ 1); [reflexivity|unfold idle; set_solver]).
  by_step R ltac:(eapply s_run; reflexivity). exact R.
Qed.

Lemma uring_acceptor_conserves_witness :
  born matched_run = [7] /\ owners matched_run = [7] /\ leaked matched_run = []
  /\ NoDup (owners matched_run ++ leaked matched_run) /\ work matched_run = units matched_run.
Proof.
  destruct (uring_acceptor_conserves matched_run matched_reachable) as (_ & _ & _ & H & W). done.
Defined.

(** A completed accept is destroyed in the shutdown of the scheduler: its connection
    is not closed. *)
Lemma uring_destroyed_accept_leaks :
  exists a, reachable a /\ born a = [7] /\ owners a = [] /\ leaked a = [7].
Proof.
  assert (R : reachable initial) by apply rtc_refl.
  by_step R ltac:(apply (s_accept _ 10%nat (got 7 99)); [set_solver|intros fd p [= <- <-]; split; [lia|set_solver]]).
  by_step R ltac:(eapply s_destroy_op; reflexivity).
  eexists. split; [exact R|]. done.
Qed.

Lemma uring_waiters_safe_witness : reachable matched_run /\ places matched_run = [2%nat] /\ NoDup (places matched_run).
Proof.
  split; [apply matched_reachable|]. split; [reflexivity|].
  apply (uring_waiters_safe matched_run matched_reachable).
Defined.
