(* ===== verification/Tls.v ===== *)
(** The OpenSSL stream: the loops of [src/openssl/src/openssl_stream.cpp] that drive the TLS
    engine over a pair of BIOs.

    OpenSSL is a parameter, the class [ssl_engine]: a call consumes bytes that were received,
    emits bytes to be sent, and returns a verdict. The external BIO is its two queues of bytes.
    The underlying stream answers from a list, one answer for each write and read; a call past
    the end of the list is suspended, which is [Blocked]. One operation runs at a time; the
    interleaving of a read and a write is the subject of the last section. *)

From stdpp Require Import relations.
From S2P Require Import Prelude.

(** [std::error_code], as far as the code distinguishes them; [openssl e] is of the OpenSSL
    category, and no error if [e] is zero. *)
Inductive tls_error :=
| no_error
| eof
| stream_truncated
| connection_reset
| connection_aborted
| broken_pipe
| no_buffer_space
| openssl (e : Z)
| other (e : Z).

#[export] Instance tls_error_eq_dec : EqDecision tls_error.
Proof. solve_decision. Defined.

(** [ec.operator bool()] *)
Definition is_set (e : tls_error) : bool :=
  match e with
  | no_error => false
  | openssl e => negb (e =? 0)
  | _ => true
  end.

(** The calls into OpenSSL, and what [SSL_get_error] makes of their results; an [ssl_failure]
    carries [ERR_get_error()], and tells whether it is [SSL_ERROR_SYSCALL]. *)
Inductive ssl_call := ssl_read (n : Z) | ssl_write (bs : list Z) | ssl_connect | ssl_accept | ssl_shutdown.
Inductive verdict :=
| finished (n : Z)
| again                               (* [SSL_shutdown] returned 0 *)
| want_read
| want_write
| zero_return
| ssl_failure (syscall : bool) (queued_error : Z).

Record ssl_result E := mk_result {
  res_verdict : verdict;
  res_engine : E;
  res_unread : list Z;     (* what is left of the bytes received *)
  res_emitted : list Z     (* the bytes to be sent *)
}.
#[global] Arguments mk_result {E}.
#[global] Arguments res_verdict {E}.
#[global] Arguments res_engine {E}.
#[global] Arguments res_unread {E}.
#[global] Arguments res_emitted {E}.

(** [ssl c e received pending]: the last argument is the number of bytes that wait to be sent. *)
Class ssl_engine (E : Type) := {
  ssl : ssl_call -> E -> list Z -> nat -> ssl_result E;
  received_shutdown : E -> bool           (* [SSL_get_shutdown] *)
}.

Module openssl_stream.
Section stream.
Context {E : Type} {En : ssl_engine E}.

(** [in_buf_.size()] and [out_buf_.size()], and the capacity of the BIO pair. *)
Definition default_buffer_size : nat := Z.to_nat 16384.
Context (bio_capacity : nat).

(** What the underlying stream does with a write or a read; a failed write may have sent some of
    its bytes, and waiting for [io_cm_] may fail. *)
Inductive net := wrote | write_error (e : tls_error) (sent : nat) | received (bs : list Z)
  | read_error (e : tls_error).

(** [to_send] and [to_read] are the external BIO, [out_buf_] the bytes taken from it that are
    being written; [emitted] are all the bytes the engine has emitted, [wire] those that were
    sent. *)
Record tls := mk_tls {
  engine : E;
  to_send : list Z;
  out_buf_ : list Z;
  to_read : list Z;
  answers : list net;
  emitted : list Z;
  wire : list Z
}.

(** A suspended operation is [Blocked]. *)
Inductive run A := Done (a : A) (s : tls) | Blocked (s : tls) | No_fuel.
#[global] Arguments Done {A}.
#[global] Arguments Blocked {A}.
#[global] Arguments No_fuel {A}.

Definition TM (A : Type) : Type := tls -> run A.
#[global] Instance TM_ret : MRet TM := fun A a s => Done a s.
#[global] Instance TM_bind : MBind TM := fun A B k m s =>
  match m s with
  | Done a s => k a s
  | Blocked s => Blocked s
  | No_fuel => No_fuel
  end.

(** A call into OpenSSL. *)
Definition call (c : ssl_call) : TM verdict := fun s =>
  let r := ssl c (engine s) (to_read s) (length (to_send s)) in
  Done (res_verdict r)
    (mk_tls (res_engine r) (to_send s ++ res_emitted r) (out_buf_ s) (res_unread r) (answers s)
       (emitted s ++ res_emitted r) (wire s)).

Definition get_state : TM tls := fun s => Done s s.
Definition out_of_fuel {A} : TM A := fun _ => No_fuel.

(** The inner loop of [flush_output]: the external BIO is read into [out_buf_]. *)
Definition fill : TM unit := fun s =>
  Done tt
    (mk_tls (engine s) (drop default_buffer_size (to_send s)) (take default_buffer_size (to_send s))
       (to_read s) (answers s) (emitted s) (wire s)).

(** [capy::write] under [io_cm_] *)
Definition write : TM tls_error := fun s =>
  match answers s with
  | wrote :: rest =>
      Done no_error
        (mk_tls (engine s) (to_send s) [] (to_read s) rest (emitted s) (wire s ++ out_buf_ s))
  | write_error e n :: rest =>
      Done e
        (mk_tls (engine s) (to_send s) [] (to_read s) rest (emitted s) (wire s ++ take n (out_buf_ s)))
  | _ => Blocked s
  end.

(** [flush_output] *)
Fixpoint flush_loop (fuel : nat) : TM tls_error :=
  s ← get_state;
  match to_send s with
  | [] => mret no_error
  | _ :: _ =>
      match fuel with
      | O => out_of_fuel
      | S fuel =>
          _ ← fill;
          e ← write;
          if is_set e then mret e else flush_loop fuel
      end
  end.
Definition flush_output : TM tls_error :=
  s ← get_state; flush_loop (length (to_send s)).

(** [read_input]: a read under [io_cm_], and [BIO_write]. *)
Definition read_input : TM tls_error := fun s =>
  match answers s with
  | received bs :: rest =>
      let got := Nat.min (length bs) (bio_capacity - length (to_read s)) in
      Done (if (got <? length bs)%nat then no_buffer_space else no_error)
        (mk_tls (engine s) (to_send s) (out_buf_ s) (to_read s ++ take got bs) rest (emitted s)
           (wire s))
  | read_error e :: rest =>
      Done e (mk_tls (engine s) (to_send s) (out_buf_ s) (to_read s) rest (emitted s) (wire s))
  | _ => Blocked s
  end.

(** What the loops do with [SSL_ERROR_WANT_READ]: the step to return with an error, if any. *)
Definition flush_and_read : TM (option (bool * tls_error)) :=
  e ← flush_output;
  if is_set e then mret (Some (false, e))
  else e ← read_input; mret (if is_set e then Some (true, e) else None).

(** * Reading *)

(** [make_openssl_error(ssl_err)] for [SSL_ERROR_SYSCALL] of [do_read_some] *)
Definition read_failure (syscall : bool) (queued_error : Z) : tls_error :=
  if syscall && (queued_error =? 0) then stream_truncated else openssl queued_error.

(** The end of the underlying stream is the end of the TLS stream only after [close_notify]. *)
Definition read_ended (e : tls_error) (s : tls) : tls_error :=
  if decide (e = eof) then (if received_shutdown (engine s) then eof else stream_truncated) else e.

(** The inner loop of [do_read_some], which ends with a result or, at the end of the buffer,
    without one. *)
Fixpoint read_while (fuel : nat) (remaining total_read : Z) : TM (option (tls_error * Z)) :=
  if remaining <=? 0 then mret None
  else
    match fuel with
    | O => out_of_fuel
    | S fuel =>
        v ← call (ssl_read remaining);
        match v with
        | finished n =>
            if 0 <? total_read + n then mret (Some (no_error, total_read + n))
            else read_while fuel (remaining - n) (total_read + n)
        | want_write =>
            e ← flush_output;
            if is_set e then mret (Some (e, total_read)) else read_while fuel remaining total_read
        | want_read =>
            r ← flush_and_read;
            match r with
            | Some (true, e) => s ← get_state; mret (Some (read_ended e s, total_read))
            | Some (false, e) => mret (Some (e, total_read))
            | None => read_while fuel remaining total_read
            end
        | zero_return => mret (Some (eof, total_read))
        | ssl_failure sys err => mret (Some (read_failure sys err, total_read))
        | again => mret (Some (openssl 0, total_read))
        end
    end.

(** [do_read_some], on buffers of the given sizes *)
Fixpoint do_read_some (fuel : nat) (buffers : list Z) (total_read : Z) : TM (tls_error * Z) :=
  match buffers with
  | [] => mret (no_error, total_read)
  | size :: buffers =>
      r ← read_while fuel size total_read;
      match r with
      | Some r => mret r
      | None => do_read_some fuel buffers total_read
      end
  end.

(** * Writing *)

Fixpoint write_while (fuel : nat) (src : list Z) (total_written : Z) : TM (option (tls_error * Z)) :=
  match src with
  | [] => mret None
  | _ :: _ =>
      match fuel with
      | O => out_of_fuel
      | S fuel =>
          v ← call (ssl_write src);
          match v with
          | finished n =>
              if 0 <? total_written + n then e ← flush_output; mret (Some (e, total_written + n))
              else write_while fuel (drop (Z.to_nat n) src) (total_written + n)
          | want_write =>
              e ← flush_output;
              if is_set e then mret (Some (e, total_written)) else write_while fuel src total_written
          | want_read =>
              r ← flush_and_read;
              match r with
              | Some (_, e) => mret (Some (e, total_written))
              | None => write_while fuel src total_written
              end
          | zero_return | again => mret (Some (openssl 0, total_written))
          | ssl_failure _ err => mret (Some (openssl err, total_written))
          end
      end
  end.

(** [do_write_some] *)
Fixpoint do_write_some (fuel : nat) (buffers : list (list Z)) (total_written : Z) : TM (tls_error * Z) :=
  match buffers with
  | [] => mret (no_error, total_written)
  | buf :: buffers =>
      r ← write_while fuel buf total_written;
      match r with
      | Some r => mret r
      | None => do_write_some fuel buffers total_written
      end
  end.

(** * Handshake and shutdown *)

(** The loop of [do_handshake] *)
Fixpoint handshake_loop (fuel : nat) (client : bool) : TM tls_error :=
  match fuel with
  | O => out_of_fuel
  | S fuel =>
      v ← call (if client then ssl_connect else ssl_accept);
      match v with
      | finished _ => flush_output
      | want_write =>
          e ← flush_output; if is_set e then mret e else handshake_loop fuel client
      | want_read =>
          r ← flush_and_read;
          match r with
          | Some (_, e) => mret e
          | None => handshake_loop fuel client
          end
      | zero_return | again => mret (openssl 0)
      | ssl_failure _ err => mret (openssl err)
      end
  end.

(** [normalize_openssl_shutdown_read_error] *)
Definition normalize_openssl_shutdown_read_error (e : tls_error) : tls_error :=
  match e with
  | eof | connection_reset | connection_aborted | broken_pipe => stream_truncated
  | e => e
  end.

(** [do_shutdown] *)
Fixpoint do_shutdown (fuel : nat) : TM tls_error :=
  match fuel with
  | O => out_of_fuel
  | S fuel =>
      v ← call ssl_shutdown;
      match v with
      | finished _ => flush_output
      | again | want_read =>
          r ← flush_and_read;
          match r with
          | Some (true, e) => mret (normalize_openssl_shutdown_read_error e)
          | Some (false, e) => mret e
          | None => do_shutdown fuel
          end
      | want_write => e ← flush_output; if is_set e then mret e else do_shutdown fuel
      | zero_return => mret (openssl 0)
      | ssl_failure sys err => mret (if sys && (err =? 0) then no_error else openssl err)
      end
  end.

End stream.
End openssl_stream.
Import openssl_stream.

(** The two operations that may be in progress at once share the BIO, [out_buf_] and [io_cm_]. The
    steps are those of [flush_output] and [read_input] between their suspensions. *)
Module duplex.

Inductive task := reader | writer.
#[export] Instance task_eq_dec : EqDecision task.
Proof. solve_decision. Defined.

Inductive phase :=
| running                  (* may call the engine *)
| filled (got : nat)       (* waits for [io_cm_] with [out_buf_] filled *)
| writing (got : nat)      (* in [capy::write] *)
| wanting                  (* waits for [io_cm_] in [read_input] *)
| reading.                 (* in [read_some] *)

Record shared := mk_shared {
  pending : list Z;
  out_buf_ : list Z;
  io_cm_ : option task;
  phase_of : task -> phase;
  all_emitted : list Z;
  on_wire : list Z
}.

Definition at_phase (t : task) (p : phase) (f : task -> phase) : task -> phase :=
  fun t' => if decide (t' = t) then p else f t'.

Inductive step (s : shared) : shared -> Prop :=
| d_emit t bs :
    phase_of s t = running ->
    step s (mk_shared (pending s ++ bs) (out_buf_ s) (io_cm_ s) (phase_of s) (all_emitted s ++ bs) (on_wire s))
| d_fill t :
    phase_of s t = running -> pending s <> [] ->
    let got := take default_buffer_size (pending s) in
    step s (mk_shared (drop default_buffer_size (pending s)) (got ++ drop (length got) (out_buf_ s)) (io_cm_ s)
              (at_phase t (filled (length got)) (phase_of s)) (all_emitted s) (on_wire s))
| d_lock t n :
    phase_of s t = filled n -> io_cm_ s = None ->
    step s (mk_shared (pending s) (out_buf_ s) (Some t) (at_phase t (writing n) (phase_of s)) (all_emitted s)
              (on_wire s))
| d_written t n :
    phase_of s t = writing n ->
    step s (mk_shared (pending s) (out_buf_ s) None (at_phase t running (phase_of s)) (all_emitted s)
              (on_wire s ++ take n (out_buf_ s)))
| d_want t :
    phase_of s t = running ->
    step s (mk_shared (pending s) (out_buf_ s) (io_cm_ s) (at_phase t wanting (phase_of s)) (all_emitted s)
              (on_wire s))
| d_read_lock t :
    phase_of s t = wanting -> io_cm_ s = None ->
    step s (mk_shared (pending s) (out_buf_ s) (Some t) (at_phase t reading (phase_of s)) (all_emitted s)
              (on_wire s))
| d_received t :
    phase_of s t = reading ->
    step s (mk_shared (pending s) (out_buf_ s) None (at_phase t running (phase_of s)) (all_emitted s)
              (on_wire s)).

Definition initial : shared := mk_shared [] [] None (fun _ => running) [] [].
Definition reachable : shared -> Prop := rtc step initial.

End duplex.

Section laws.
Context {E : Type} {En : ssl_engine E} (bio_capacity : nat).
Implicit Types s : tls (E := E).

(** [cut]: a write on the underlying stream has failed with the error of the end of a stream. *)
Context (cut : Prop).

(** * Sending *)

(** Nothing is out of order: what was sent, what is being written and what is to be sent are what
    the engine has emitted. *)
Definition in_order s : Prop := emitted s = wire s ++ out_buf_ s ++ to_send s.

(** What a flush leaves alone. *)
Definition same_input s s' : Prop :=
  engine s' = engine s /\ to_read s' = to_read s /\ emitted s' = emitted s.

(** [flush_output] sends everything that is pending, in order; or it reports an error or is
    suspended, and what was sent is a prefix of it. It always has enough fuel. *)
Definition flush_ok s (r : run (E := E) tls_error) : Prop :=
  match r with
  | Done e s' =>
      same_input s s' /\ out_buf_ s' = []
      /\ (if is_set e then (e = eof -> cut) /\ wire s' `prefix_of` wire s ++ to_send s
          else e = no_error /\ to_send s' = [] /\ wire s' = wire s ++ to_send s)
      /\ (exists used, answers s = used ++ answers s' /\ (to_send s <> [] -> used <> []))
  | Blocked s' => same_input s s' /\ wire s' ++ out_buf_ s' ++ to_send s' = wire s ++ to_send s
  | No_fuel => False
  end.

Definition filled s : tls (E := E) :=
  mk_tls (engine s) (drop default_buffer_size (to_send s)) (take default_buffer_size (to_send s))
    (to_read s) (answers s) (emitted s) (wire s).

Lemma flush_loop_eq fuel s :
  flush_loop fuel s =
  match to_send s with
  | [] => Done no_error s
  | _ :: _ =>
      match fuel with
      | O => No_fuel
      | S fuel =>
          match write (filled s) with
          | Done e s' => if is_set e then Done e s' else flush_loop fuel s'
          | Blocked s' => Blocked s'
          | No_fuel => No_fuel
          end
      end
  end.
Proof.
  destruct fuel as [|fuel]; cbn; unfold mbind, TM_bind; cbn; destruct (to_send s); try done.
  destruct (write _) as [e s'| |]; try done. by destruct (is_set e).
Qed.

(** A failed write has an error. *)
Definition writes_ok (l : list net) : Prop :=
  forall e n, write_error e n ∈ l -> is_set e = true /\ (e = eof -> cut).

Lemma writes_ok_tail l l' : writes_ok (l ++ l') -> writes_ok l'.
Proof. intros H e n He. eapply H, elem_of_app. by right. Qed.

Lemma prefix_take_drop (n m : nat) (w l : list Z) : w ++ take n (take m l) `prefix_of` w ++ l.
Proof. apply prefix_app. rewrite take_take. apply prefix_take. Qed.

Lemma flush_loop_ok fuel s :
  (length (to_send s) <= fuel)%nat -> out_buf_ s = [] -> writes_ok (answers s) ->
  flush_ok s (flush_loop fuel s).
Proof.
  revert s. induction fuel as [|fuel IH]; intros s Hl Ho Hw; rewrite flush_loop_eq;
    destruct (to_send s) as [|b l] eqn:Es; cbn in Hl; try lia.
  1, 2: cbn; rewrite Es, app_nil_r; repeat split; try done; by exists [].
  unfold write; cbn. destruct (answers s) as [|[|e n| |] rest] eqn:Ea.
  1, 4, 5: split; [by repeat split|]; cbn; by rewrite take_drop, Es.
  - cbn. set (s1 := mk_tls _ _ _ _ _ _ _).
    assert (H1 : flush_ok s1 (flush_loop fuel s1)).
    { apply IH; [|done|by apply (writes_ok_tail [wrote])]. cbn. rewrite length_drop, Es. cbn.
      assert (0 < default_buffer_size)%nat by (unfold default_buffer_size; lia). lia. }
    assert (Hwire : wire s1 ++ to_send s1 = wire s ++ to_send s) by (cbn; by rewrite <- app_assoc, take_drop).
    unfold flush_ok in *. destruct (flush_loop fuel s1) as [e s'|s'|]; [|by rewrite <- Hwire|done].
    rewrite Hwire in H1. rewrite Ea. cbn in *. destruct H1 as (H1 & H2 & H3 & used & H4 & H5).
    repeat split; try apply H1; try done. exists (wrote :: used). cbn. by rewrite H4.
  - destruct (Hw e n) as [He Hn]; [by left|]. rewrite He. unfold flush_ok. rewrite He, Ea. cbn.
    repeat split; try done; [apply prefix_take_drop|]. by exists [write_error e n].
Qed.

Lemma flush_output_ok s :
  out_buf_ s = [] -> writes_ok (answers s) -> flush_ok s (flush_output s).
Proof. intros. unfold flush_output, mbind, TM_bind; cbn. by apply flush_loop_ok. Qed.

(** * Total correctness of the loops *)

(** Between two calls of the engine. *)
Record ready s : Prop := {
  r_idle : out_buf_ s = [];
  r_order : emitted s = wire s ++ to_send s;
  r_writes : writes_ok (answers s)
}.

(** The operation does not run out of fuel; if it is suspended, what was sent is a prefix of what
    the engine has emitted; if it returns, [Q]. *)
Definition tp {A} (m : TM (E := E) A) (Q : A -> tls -> Prop) s : Prop :=
  match m s with
  | Done a s' => Q a s'
  | Blocked s' => wire s' `prefix_of` emitted s'
  | No_fuel => False
  end.

Lemma tp_ret {A} (a : A) (Q : A -> tls -> Prop) s : Q a s -> tp (mret a) Q s.
Proof. done. Qed.

Lemma tp_bind {A B} (m : TM A) (k : A -> TM B) Q s : tp m (fun a => tp (k a) Q) s -> tp (m ≫= k) Q s.
Proof. unfold tp, mbind, TM_bind. by destruct (m s). Qed.

Lemma tp_mono {A} (m : TM A) (P Q : A -> tls -> Prop) s :
  (forall a s', P a s' -> Q a s') -> tp m P s -> tp m Q s.
Proof. intros H. unfold tp. destruct (m s); auto. Qed.

Lemma tp_get Q s : Q s s -> tp get_state Q s.
Proof. done. Qed.

(** A call leaves the stream ready. *)
Definition result_of (c : ssl_call) s : ssl_result E := ssl c (engine s) (to_read s) (length (to_send s)).
Definition called (c : ssl_call) s s' : Prop :=
  engine s' = res_engine (result_of c s) /\ answers s' = answers s
  /\ to_send s' = to_send s ++ res_emitted (result_of c s).

Lemma tp_call c (Q : verdict -> tls -> Prop) s :
  ready s ->
  (forall s', ready s' -> called c s s' -> Q (res_verdict (result_of c s)) s') ->
  tp (call c) Q s.
Proof.
  intros [H1 H2 H3] HQ. apply HQ; [|done]. split; cbn; [done| |done]. by rewrite H2, app_assoc.
Qed.

Lemma tp_flush (Q : tls_error -> tls -> Prop) s :
  ready s ->
  (forall s', ready s' -> to_send s' = [] -> engine s' = engine s ->
     (length (answers s') <= length (answers s))%nat ->
     (to_send s <> [] -> length (answers s') < length (answers s))%nat -> Q no_error s') ->
  (forall e s', is_set e = true -> (e = eof -> cut) -> wire s' `prefix_of` emitted s' -> Q e s') ->
  tp flush_output Q s.
Proof.
  intros [H1 H2 H3] HQ HR. pose proof (flush_output_ok s H1 H3) as HF. unfold tp.
  destruct (flush_output s) as [e s'|s'|] eqn:Ef; [..|done].
  - destruct HF as ((E1 & E2 & E3) & E4 & E5 & used & E6 & E7). rewrite E6 in H3. destruct (is_set e) eqn:Ee.
    + apply HR; [done|apply E5|]. rewrite E3, H2. apply E5.
    + destruct E5 as (-> & E5 & E8). apply HQ; try done.
      * split; [done|by rewrite E3, H2, E5, E8, app_nil_r|by eapply writes_ok_tail].
      * rewrite E6, length_app. lia.
      * intros Hn. rewrite E6, length_app. specialize (E7 Hn). destruct used; [done|cbn; lia].
  - destruct HF as ((_ & _ & E3) & E4). rewrite E3, H2, <- E4. by apply prefix_app_r.
Qed.

Lemma tp_read_input (Q : tls_error -> tls -> Prop) s :
  ready s ->
  (forall e s', ready s' -> to_send s' = to_send s -> engine s' = engine s ->
     (length (answers s') < length (answers s))%nat -> Q e s') ->
  tp (read_input bio_capacity) Q s.
Proof.
  intros [H1 H2 H3] HQ. unfold tp, read_input. destruct (answers s) as [|[|e n|bs|e] rest] eqn:Ea.
  1, 2, 3: rewrite H2; by apply prefix_app_r.
  all: apply HQ; cbn; try done; try lia; (split; cbn; [done|done|by eapply (writes_ok_tail [_])]).
Qed.

(** [SSL_ERROR_WANT_READ]: it fails, or the stream is ready again and an answer has been used. *)
Lemma tp_flush_and_read (Q : option (bool * tls_error) -> tls -> Prop) s :
  ready s ->
  (forall s', ready s' -> (length (answers s') < length (answers s))%nat -> engine s' = engine s -> Q None s') ->
  (forall b e s', is_set e = true -> (b = false -> e = eof -> cut) -> wire s' `prefix_of` emitted s' ->
     Q (Some (b, e)) s') ->
  tp (flush_and_read bio_capacity) Q s.
Proof.
  intros I HQ HR. unfold flush_and_read. apply tp_bind, tp_flush; [done| |].
  - intros s1 I1 Hs En1 Hl _. cbn. apply tp_bind, tp_read_input; [done|].
    intros e' s2 I2 _ En2 Hl2. destruct (is_set e') eqn:He'; apply tp_ret.
    + apply HR; try done. destruct I2 as [_ -> _]. by apply prefix_app_r.
    + apply HQ; [done|lia|congruence].
  - intros e s1 He Hn Hp. rewrite He. apply tp_ret, HR; auto.
Qed.

(** What OpenSSL documents: a call that wants to write has output pending, a read or write that
    succeeds has transferred something, and [SSL_ERROR_ZERO_RETURN] follows a [close_notify]. *)
Record engine_laws : Prop := {
  l_write : forall c e i p, res_verdict (ssl c e i p) = want_write ->
    (0 < p + length (res_emitted (ssl c e i p)))%nat;
  l_some : forall c e i p n, res_verdict (ssl c e i p) = finished n ->
    match c with ssl_read _ | ssl_write _ => 0 < n | _ => True end;
  l_closed : forall c e i p, res_verdict (ssl c e i p) = zero_return ->
    received_shutdown (res_engine (ssl c e i p)) = true
}.
Context (L : engine_laws).

Lemma ready_prefix s : ready s -> wire s `prefix_of` emitted s.
Proof. intros [_ -> _]. by apply prefix_app_r. Qed.

Lemma called_pending c s s' :
  called c s s' -> res_verdict (result_of c s) = want_write -> to_send s' <> [].
Proof.
  intros (_ & _ & E3) Hv Hn. apply (l_write L) in Hv. fold (result_of c s) in Hv. rewrite E3 in Hn.
  apply app_nil in Hn as [E4 Hn]. rewrite Hn, E4 in Hv. cbn in Hv. lia.
Qed.

(** A read that the engine gives up without an error in its queue. *)
Definition gave_up : Prop :=
  exists s0 n, match res_verdict (result_of (ssl_read n) s0) with
               | again | ssl_failure false 0 => True
               | _ => False
               end.

(** The result of a read. *)
Definition read_ok (r : option (tls_error * Z)) s : Prop :=
  match r with
  | Some (e, n) =>
      wire s `prefix_of` emitted s
      /\ (e = eof -> received_shutdown (engine s) = true \/ cut)
      /\ (is_set e = false -> (e = no_error /\ 0 < n) \/ (e = openssl 0 /\ n = 0 /\ gave_up))
  | None => ready s
  end.

Lemma read_failed e n s :
  wire s `prefix_of` emitted s -> is_set e = true ->
  (e = eof -> received_shutdown (engine s) = true \/ cut) -> read_ok (Some (e, n)) s.
Proof. intros Hp He Hf. split; [done|]. split; [done|]. congruence. Qed.

Lemma read_while_ok fuel remaining s :
  ready s -> (length (answers s) < fuel)%nat ->
  tp (read_while bio_capacity fuel remaining 0)
     (fun r s' => read_ok r s' /\ (r = None -> s' = s /\ remaining <= 0)) s.
Proof.
  revert s. induction fuel as [|fuel IH]; intros s I Hf; [lia|]. cbn [read_while].
  destruct (Z.leb_spec remaining 0) as [Hr|Hr]; [by apply tp_ret|].
  assert (Hagain : forall s', ready s' -> (length (answers s') < length (answers s))%nat ->
    tp (read_while bio_capacity fuel remaining 0)
       (fun r s'' => read_ok r s'' /\ (r = None -> s'' = s /\ remaining <= 0)) s').
  { intros s' I' Hl. eapply tp_mono; [|apply IH; [done|lia]]. intros r s'' [H1 H2]. split; [done|].
    intros Hn. destruct (H2 Hn). lia. }
  apply tp_bind, tp_call; [done|]. intros s1 I1 C. pose proof C as (Ce & Ca & Cs).
  destruct (res_verdict (result_of (ssl_read remaining) s)) as [n| | | | |sys err] eqn:Ev.
  - apply (l_some L) in Ev. cbn in Ev. destruct (Z.ltb_spec 0 (0 + n)); [|lia].
    apply tp_ret. split; [|done]. split; [by apply ready_prefix|]. split; [done|by left].
  - apply tp_ret. split; [|done]. split; [by apply ready_prefix|]. split; [done|]. intros _. right.
    split; [done|]. split; [done|]. exists s, remaining. by rewrite Ev.
  - apply tp_bind, tp_flush_and_read; [done| |].
    + intros s2 I2 Hl _. apply Hagain; [done|by rewrite <- Ca].
    + intros [|] e s2 He Hn Hp; [|apply tp_ret; split; [|done]; apply read_failed; auto].
      apply tp_bind, tp_get, tp_ret. split; [|done]. unfold read_ended.
      case_decide; [|by apply read_failed].
      destruct (received_shutdown (engine s2)) eqn:Er; apply read_failed; auto; done.
  - apply tp_bind, tp_flush; [done| |].
    + intros s2 I2 _ _ _ Hl. cbn. apply Hagain; [done|]. rewrite <- Ca. apply Hl. by eapply called_pending.
    + intros e s2 He Hn Hp. rewrite He. apply tp_ret. split; [|done]. apply read_failed; auto.
  - apply tp_ret. split; [|done]. apply read_failed; [by apply ready_prefix|done|].
    intros _. left. rewrite Ce. by apply (l_closed L).
  - apply tp_ret. split; [|done]. split; [by apply ready_prefix|]. unfold read_failure.
    destruct sys, (Z.eqb_spec err 0) as [->|Hz]; cbn; (split; [done|]); try done;
      try (intros H; apply negb_false_iff, Z.eqb_eq in H; done).
    intros _. right. split; [done|]. split; [done|]. exists s, remaining. by rewrite Ev.
Qed.

Lemma do_read_some_ok fuel buffers s :
  ready s -> (length (answers s) < fuel)%nat ->
  tp (do_read_some bio_capacity fuel buffers 0)
     (fun r s' => read_ok (Some r) s' \/ (r = (no_error, 0) /\ Forall (fun n => n <= 0) buffers /\ ready s')) s.
Proof.
  revert s. induction buffers as [|n buffers IH]; intros s I Hf; [by apply tp_ret; right|].
  cbn [do_read_some]. apply tp_bind. eapply tp_mono; [|by apply read_while_ok].
  intros [r|] s' [H1 H2]; [apply tp_ret; by left|]. destruct (H2 eq_refl) as [-> Hn].
  eapply tp_mono; [|by apply IH]. intros r' s' [H|(H & H' & H'')]; [by left|right].
  split; [done|]. split; [by constructor|done].
Qed.

(** The result of a write. *)
Definition write_ok (r : option (tls_error * Z)) s : Prop :=
  match r with
  | Some (e, n) =>
      wire s `prefix_of` emitted s /\ (e = no_error -> 0 < n /\ wire s = emitted s)
  | None => ready s
  end.

Lemma sent_all s : ready s -> to_send s = [] -> wire s = emitted s.
Proof. intros [_ -> _] ->. by rewrite app_nil_r. Qed.

Lemma write_while_ok fuel src s :
  ready s -> (length (answers s) < fuel)%nat ->
  tp (write_while bio_capacity fuel src 0)
     (fun r s' => write_ok r s' /\ (r = None -> s' = s /\ src = [])) s.
Proof.
  revert s. induction fuel as [|fuel IH]; intros s I Hf; [lia|]. cbn [write_while].
  destruct src as [|b src]; [by apply tp_ret|].
  assert (Hagain : forall s', ready s' -> (length (answers s') < length (answers s))%nat ->
    tp (write_while bio_capacity fuel (b :: src) 0)
       (fun r s'' => write_ok r s'' /\ (r = None -> s'' = s /\ b :: src = [])) s').
  { intros s' I' Hl. eapply tp_mono; [|apply IH; [done|lia]]. intros r s'' [H1 H2]. split; [done|].
    intros Hn. by destruct (H2 Hn). }
  apply tp_bind, tp_call; [done|]. intros s1 I1 C. pose proof C as (Ce & Ca & Cs).
  destruct (res_verdict (result_of (ssl_write (b :: src)) s)) as [n| | | | |sys err] eqn:Ev.
  2, 5, 6: apply tp_ret; split; [|done]; split; [by apply ready_prefix|done].
  - apply (l_some L) in Ev. cbn in Ev. destruct (Z.ltb_spec 0 (0 + n)); [|lia].
    apply tp_bind, tp_flush; [done| |].
    + intros s2 I2 Hs _ _ _. apply tp_ret. split; [|done]. split; [by apply ready_prefix|].
      intros _. split; [done|by apply sent_all].
    + intros e s2 He Hn Hp. apply tp_ret. split; [|done]. split; [done|]. by intros ->.
  - apply tp_bind, tp_flush_and_read; [done| |].
    + intros s2 I2 Hl _. apply Hagain; [done|by rewrite <- Ca].
    + intros b' e s2 He Hn Hp. apply tp_ret. split; [|done]. split; [done|]. by intros ->.
  - apply tp_bind, tp_flush; [done| |].
    + intros s2 I2 _ _ _ Hl. cbn. apply Hagain; [done|]. rewrite <- Ca. apply Hl. by eapply called_pending.
    + intros e s2 He Hn Hp. rewrite He. apply tp_ret. split; [|done]. split; [done|]. by intros ->.
Qed.

Lemma do_write_some_ok fuel buffers s :
  ready s -> (length (answers s) < fuel)%nat ->
  tp (do_write_some bio_capacity fuel buffers 0)
     (fun r s' => write_ok (Some r) s' \/ (r = (no_error, 0) /\ Forall (fun b => b = []) buffers /\ ready s')) s.
Proof.
  revert s. induction buffers as [|b buffers IH]; intros s I Hf; [by apply tp_ret; right|].
  cbn [do_write_some]. apply tp_bind. eapply tp_mono; [|by apply write_while_ok].
  intros [r|] s' [H1 H2]; [apply tp_ret; by left|]. destruct (H2 eq_refl) as [-> Hn].
  eapply tp_mono; [|by apply IH]. intros r' s' [H|(H & H' & H'')]; [by left|right].
  split; [done|]. split; [by constructor|done].
Qed.

Definition hello (client : bool) : ssl_call := if client then ssl_connect else ssl_accept.

Lemma handshake_ok fuel client s :
  ready s -> (length (answers s) < fuel)%nat ->
  tp (handshake_loop bio_capacity fuel client)
     (fun e s' => wire s' `prefix_of` emitted s'
        /\ (e = no_error -> wire s' = emitted s'
             /\ exists s0 n, res_verdict (result_of (hello client) s0) = finished n
                             /\ engine s' = res_engine (result_of (hello client) s0))
        /\ (is_set e = false -> e = no_error \/ e = openssl 0)) s.
Proof.
  revert s. induction fuel as [|fuel IH]; intros s I Hf; [lia|]. cbn [handshake_loop].
  fold (hello client). apply tp_bind, tp_call; [done|]. intros s1 I1 C. pose proof C as (Ce & Ca & Cs).
  destruct (res_verdict (result_of (hello client) s)) as [n| | | | |sys err] eqn:Ev.
  2, 5: apply tp_ret; split; [by apply ready_prefix|]; split; [done|by right].
  - apply tp_flush; [done| |].
    + intros s2 I2 Hs En2 _ _. split; [by apply ready_prefix|]. split; [|by left].
      intros _. split; [by apply sent_all|]. exists s, n. by rewrite En2.
    + intros e s2 He Hn Hp. split; [done|]. split; [by intros ->|congruence].
  - apply tp_bind, tp_flush_and_read; [done| |].
    + intros s2 I2 Hl _. apply IH; [done|lia || (rewrite Ca in Hl; lia)].
    + intros b e s2 He Hn Hp. apply tp_ret. split; [done|]. split; [by intros ->|congruence].
  - apply tp_bind, tp_flush; [done| |].
    + intros s2 I2 _ _ _ Hl. cbn. apply IH; [done|]. rewrite Ca in Hl.
      specialize (Hl ltac:(by eapply called_pending)). lia.
    + intros e s2 He Hn Hp. rewrite He. apply tp_ret. split; [done|]. split; [by intros ->|congruence].
  - apply tp_ret. split; [by apply ready_prefix|]. split; [done|]. cbn. intros H. right. f_equal. lia.
Qed.

Lemma shutdown_ok fuel s :
  ready s -> (length (answers s) < fuel)%nat ->
  tp (do_shutdown bio_capacity fuel)
     (fun e s' => wire s' `prefix_of` emitted s' /\ (e = eof -> cut)
        /\ (e = no_error -> wire s' = emitted s'
             \/ exists s0, res_verdict (result_of ssl_shutdown s0) = ssl_failure true 0)) s.
Proof.
  revert s. induction fuel as [|fuel IH]; intros s I Hf; [lia|]. cbn [do_shutdown].
  apply tp_bind, tp_call; [done|]. intros s1 I1 C. pose proof C as (Ce & Ca & Cs).
  assert (Hread : tp (flush_and_read bio_capacity ≫= fun r =>
      match r with
      | Some (true, e) => mret (normalize_openssl_shutdown_read_error e)
      | Some (false, e) => mret e
      | None => do_shutdown bio_capacity fuel
      end) (fun e s' => wire s' `prefix_of` emitted s' /\ (e = eof -> cut)
        /\ (e = no_error -> wire s' = emitted s'
             \/ exists s0, res_verdict (result_of ssl_shutdown s0) = ssl_failure true 0)) s1).
  { apply tp_bind, tp_flush_and_read; [done| |].
    - intros s2 I2 Hl _. apply IH; [done|]. rewrite Ca in Hl. lia.
    - intros [|] e s2 He Hn Hp; apply tp_ret; (split; [done|]).
      + by destruct e.
      + split; [auto|]. by intros ->. }
  destruct (res_verdict (result_of ssl_shutdown s)) as [n| | | | |sys err] eqn:Ev; try exact Hread.
  - apply tp_flush; [done| |].
    + intros s2 I2 Hs _ _ _. split; [by apply ready_prefix|]. split; [done|]. left. by apply sent_all.
    + intros e s2 He Hn Hp. split; [done|]. split; [done|]. by intros ->.
  - apply tp_bind, tp_flush; [done| |].
    + intros s2 I2 _ _ _ Hl. cbn. apply IH; [done|]. rewrite Ca in Hl.
      specialize (Hl ltac:(by eapply called_pending)). lia.
    + intros e s2 He Hn Hp. rewrite He. apply tp_ret. split; [done|]. split; [done|]. by intros ->.
  - apply tp_ret. by split; [by apply ready_prefix|].
  - apply tp_ret. split; [by apply ready_prefix|]. destruct sys; cbn; [|done].
    destruct (Z.eqb_spec err 0) as [->|]; [|done]. split; [done|]. intros _. right. eauto.
Qed.

End laws.

(** * Claims *)

(** A write on the underlying stream fails with the error of the end of a stream. *)
Definition write_eof (l : list net) : Prop := exists n, write_error eof n ∈ l.

(** A failed write of [capy::write] has an error. *)
Definition failures_set (l : list net) : Prop := forall e n, write_error e n ∈ l -> is_set e = true.

(** No operation is in progress: all that was emitted is sent or in the external BIO. *)
Definition at_rest {E} (s : tls (E := E)) : Prop :=
  out_buf_ s = [] /\ emitted s = wire s ++ to_send s /\ failures_set (answers s).

Lemma at_rest_ready {E} (s : tls (E := E)) : at_rest s -> ready (write_eof (answers s)) s.
Proof.
  intros (H1 & H2 & H3). split; [done|done|]. intros e n He. split; [by eapply H3|]. intros ->. by exists n.
Qed.


(** A write that reports success has put on the wire everything that the engine has emitted, in
    order; a handshake that reports success has been finished by the engine and is on the wire,
    and a handshake without an error may otherwise only be one that the engine gave up without
    leaving an error; a shutdown reports the end of the stream only if a write failed with it. All
    of them end. *)
Theorem tls_write_handshake_shutdown {E} {En : ssl_engine E} bio_capacity fuel buffers client s :
  engine_laws (En := En) -> at_rest s -> (length (answers s) < fuel)%nat ->
  tp (do_write_some bio_capacity fuel buffers 0)
     (fun r s' => wire s' `prefix_of` emitted s'
        /\ (r.1 = no_error -> (0 < r.2 /\ wire s' = emitted s') \/ Forall (fun b => b = []) buffers)) s
  /\ tp (handshake_loop bio_capacity fuel client)
     (fun e s' => wire s' `prefix_of` emitted s'
        /\ (e = no_error -> wire s' = emitted s'
             /\ exists s0 n, res_verdict (result_of (hello client) s0) = finished n
                             /\ engine s' = res_engine (result_of (hello client) s0))
        /\ (is_set e = false -> e = no_error \/ e = openssl 0)) s
  /\ tp (do_shutdown bio_capacity fuel)
     (fun e s' => wire s' `prefix_of` emitted s' /\ (e = eof -> write_eof (answers s))) s.
Proof.
  intros L I%at_rest_ready Hf. split; [|split; [by eapply handshake_ok|]].
  - eapply tp_mono; [|by apply (do_write_some_ok bio_capacity (write_eof (answers s)) L)].
    intros [e n] s' [(H1 & H2)|([= -> ->] & H & H')]; cbn.
    + split; [done|]. intros ->. left. by apply H2.
    + split; [by eapply ready_prefix|]. by right.
  - eapply tp_mono; [|by apply (shutdown_ok bio_capacity (write_eof (answers s)) L)]. by intros e s' (H1 & H2 & _).
Qed.

(** * Runs *)

(** An engine that passes bytes on; 0 is [close_notify], and its state whether it was received. *)
#[local] Instance demo_engine : ssl_engine bool := {
  ssl c closed i p :=
    match c, i with
    | ssl_write [], _ => mk_result (ssl_failure false 1) closed i []
    | ssl_write (b :: _), _ => mk_result (finished 1) closed i [b]
    | ssl_shutdown, _ => mk_result (finished 1) closed i [0]
    | _, [] => mk_result want_read closed i (match c with ssl_connect => [1] | _ => [] end)
    | _, 0 :: rest => mk_result zero_return true rest []
    | _, _ :: rest => mk_result (finished 1) closed rest []
    end;
  received_shutdown closed := closed
}.

Lemma demo_engine_laws : engine_laws (En := demo_engine).
Proof.
  split.
  - by intros [n|[|b bs]| | |] e [|[|x|x] i] p.
  - by intros [n|[|b bs]| | |] e [|[|x|x] i] p m; cbn; try done; intros [= <-].
  - by intros [n|[|b bs]| | |] e [|[|x|x] i] p.
Qed.

Definition demo_stream (l : list net) : tls := mk_tls false [] [] [] l [] [].

Lemma demo_at_rest l : failures_set l -> at_rest (demo_stream l).
Proof. by split. Qed.

(** The peer sends a byte and [close_notify], or just closes the connection. *)
Example tls_read_runs :
  do_read_some 100 5 [10] 0 (demo_stream [received [7; 0]])
    = Done (no_error, 1) (mk_tls false [] [] [0] [] [] [])
  /\ do_read_some 100 5 [10] 0 (demo_stream [received [0]])
    = Done (eof, 0) (mk_tls true [] [] [] [] [] [])
  /\ do_read_some 100 5 [10] 0 (demo_stream [read_error eof])
    = Done (stream_truncated, 0) (mk_tls false [] [] [] [] [] []).
Proof. done. Qed.


(** An engine that gives up, and a write that fails with [eof]: both alternatives of the claim
    occur. *)
Definition failing_ssl (c : ssl_call) (b : bool) (i : list Z) (p : nat) : ssl_result bool :=
  match c with
  | ssl_read _ => if b then mk_result want_read b i [1] else mk_result (ssl_failure false 0) b i []
  | _ => mk_result (ssl_failure false 1) b i []
  end.
Definition failing_engine : ssl_engine bool := Build_ssl_engine bool failing_ssl (fun _ => false).

Example tls_read_corners :
  do_read_some (En := failing_engine) 100 5 [10] 0 (mk_tls false [] [] [] [] [] [])
    = Done (openssl 0, 0) (mk_tls false [] [] [] [] [] [])
  /\ is_set (openssl 0) = false
  /\ do_read_some (En := failing_engine) 100 5 [10] 0 (mk_tls true [] [] [] [write_error eof 0] [] [])
    = Done (eof, 0) (mk_tls true [] [] [] [] [1] []).
Proof. done. Qed.

(** A peer that sends [close_notify] during the handshake: the engine gives up without an error in
    its queue, and the error code that [handshake] returns tests as success. *)
Lemma handshake_given_up_is_success :
  exists e s', handshake_loop 100 5 true (demo_stream [wrote; received [0]]) = Done e s'
    /\ is_set e = false /\ e <> no_error.
Proof. by eexists _, _. Qed.

(** * A read and a write at the same time *)

Lemma reach_duplex s s' : duplex.reachable s -> duplex.step s s' -> duplex.reachable s'.
Proof. intros R S. by eapply rtc_r. Qed.

(** [out_buf_] is filled without [io_cm_]: a flush overwrites what the other is writing, and the
    bytes that reach the wire are not those that the engine emitted. *)
Lemma tls_output_overwritten :
  exists s, duplex.reachable s /\ duplex.all_emitted s = [1; 2; 3] /\ duplex.on_wire s = [3; 2; 3].
Proof.
  assert (R : duplex.reachable duplex.initial) by apply rtc_refl.
  eapply reach_duplex in R; [|by apply (duplex.d_emit _ duplex.writer [1; 2])]. vm_compute in R.
  eapply reach_duplex in R; [|by apply (duplex.d_fill _ duplex.writer)]. vm_compute in R.
  eapply reach_duplex in R; [|by apply (duplex.d_lock _ duplex.writer 2)]. vm_compute in R.
  eapply reach_duplex in R; [|by apply (duplex.d_emit _ duplex.reader [3])]. vm_compute in R.
  eapply reach_duplex in R; [|by apply (duplex.d_fill _ duplex.reader)]. vm_compute in R.
  eapply reach_duplex in R; [|by apply (duplex.d_written _ duplex.writer 2)]. vm_compute in R.
  eapply reach_duplex in R; [|by apply (duplex.d_lock _ duplex.reader 1)]. vm_compute in R.
  eapply reach_duplex in R; [|by apply (duplex.d_written _ duplex.reader 1)]. vm_compute in R.
  eexists. split; [exact R|]. by vm_compute.
Qed.

Lemma duplex_stalled n s s' :
  duplex.phase_of s duplex.reader = duplex.reading -> duplex.phase_of s duplex.writer = duplex.filled n ->
  duplex.io_cm_ s = Some duplex.reader -> duplex.step s s' ->
  duplex.phase_of s' duplex.reader = duplex.running /\ duplex.on_wire s' = duplex.on_wire s.
Proof. intros E1 E2 E3 S. destruct S; destruct t; try congruence. done. Qed.

(** A read holds [io_cm_] while it waits for the peer: a write that has data to send waits with it,
    and only the peer can end that. *)
Lemma tls_write_waits_for_peer :
  exists s, duplex.reachable s /\ duplex.phase_of s duplex.writer = duplex.filled 2
    /\ duplex.on_wire s = []
    /\ forall s', duplex.step s s' ->
         duplex.phase_of s' duplex.reader = duplex.running /\ duplex.on_wire s' = [].
Proof.
  assert (R : duplex.reachable duplex.initial) by apply rtc_refl.
  eapply reach_duplex in R; [|by apply (duplex.d_want _ duplex.reader)]. vm_compute in R.
  eapply reach_duplex in R; [|by apply (duplex.d_read_lock _ duplex.reader)]. vm_compute in R.
  eapply reach_duplex in R; [|by apply (duplex.d_emit _ duplex.writer [1; 2])]. vm_compute in R.
  eapply reach_duplex in R; [|by apply (duplex.d_fill _ duplex.writer)]. vm_compute in R.
  eexists. split; [exact R|]. split; [done|]. split; [done|].
  intros s' S. apply (duplex_stalled 2) in S; [exact S|reflexivity..].
Qed.
